(* ===== verification/_CoqProject ===== *)
-Q . S2P
Prelude.v
Frontier.v
Fsm.v
Keys.v
Trillian.v
LevelDB.v
Local.v
Remote.v
Cache.v
Janitor.v
Quota.v
Compact.v
Nodes.v
SubtreeCache.v
TreeNodes.v
Config.v
ReadTx.v
TreeTx.v
StoredTree.v
LogStorage.v
Rpc.v
Verifier.v
Paths.v
Proofs.v
Server.v
Sequencer.v
Growth.v
Arrivals.v
Serving.v
ByHash.v
Election.v
Isolation.v
Scheduler.v
MainLoop.v
Shutdown.v
Boot.v
Drand.v
Tester.v
ReferenceLog.v
