(* ===== verification/Prelude.v ===== *)
(** * ct-log: a verification development

    ct-log (src/) is a certificate transparency log server: a small Go program
    that keeps the index and the Merkle tree of its logs in a local LevelDB,
    the leaves themselves in a bucket of Backblaze B2, and uses Google's
    Trillian (src/vendor/github.com/google/trillian) for sequencing, signing
    and the RPC layer.  This development models the program's own Go code and
    the parts of Trillian that decide what that code does, as executable
    functions, and proves what makes them correct.

    ** How the program works, and which file models which part

    A request of the web server (src/cmd/server) goes through a generated
    adapter and Trillian's interceptors, which charge the quota manager, to the
    log server, which runs it on the log storage (src/ct).  Queueing a leaf
    writes a row of the local database at once.  The sequencer, a client of
    [ReadWriteTransaction], dequeues leaves, stores them in the bucket, updates
    the Merkle nodes and stores a root; nothing of this reaches the database
    before the batch of the transaction is committed.

    - [Prelude]: bytes, machine integers, outcomes of calls (a value, an error
      or a panic), the state monad [M], and [stable], the property of code that
      keeps a property of the state, with its tactic.
    - [Frontier] (custom/frontier/frontier.go): the right edge of the Merkle
      tree, and the Merkle tree hash [MTH] of RFC 6962 as a specification.
    - [Fsm] (ct/fsm.go): the order of operations a transaction allows.
    - [Keys] (custom/local.go): the keys of database rows and their order.
    - [Trillian]: message records, log roots in TLS form, and [Codec], the
      interface of the serializers with the round trip the code relies on.
    - [LevelDB], [Local] (custom/local.go): a key-value store whose calls may
      fail, and every method of [Local] and [LocalTx] on it.
    - [Remote] (custom/remote.go): a bucket of objects whose calls may fail or
      be answered by a forger, and [GetLeaves] and [PutLeaves] on it.
    - [Cache], [Janitor] (ct/cache/cache.go): the cache of queued leaves, with
      expiry and random eviction, and the goroutine that cleans it up.
    - [Quota] (ct/quota_manager.go): the tokens of each log and their watcher.
    - [Compact], [Nodes], [SubtreeCache] (Trillian's merkle/compact, storage
      and storage/cache): the compact tree, the identifiers of nodes, and the
      cache of subtrees that transactions read and write nodes through.
    - [TreeNodes]: the nodes of a tree and their subtrees, as a specification of
      what these parts report, cache and store.
    - [Config] (config/): reading the configuration, and the trees it yields.
    - [ReadTx] (ct/read_log_tx.go, read_tree_tx.go), [TreeTx] (ct/tree_tx.go),
      [LogStorage] (ct/log_storage.go): transactions, which compose all of the
      above.  A client of a read-write transaction is any function that calls
      its operations, in any order, while other goroutines queue leaves.
    - [StoredTree]: which rows of the database stand for a Merkle tree at a
      revision, and what a commit makes of them.
    - [Rpc] (cmd/server/client.go and Trillian's server/interceptor): the
      adapter, over dynamically typed messages, and the interceptors.
    - [Server] (cmd/server/main.go and Trillian's server/log_rpc_server.go):
      the calls of the log server on the storage, start-up, and the handlers
      of the web server.
    - [Sequencer] (Trillian's log/sequencer.go, server/sequencer_manager.go):
      what the main loop does for every log: integrating a batch of leaves.
    - [Growth]: a batch followed through all of these parts, from the queue to
      the rows of the tree at its new revision, and one batch after another.
    - [Arrivals]: what requests that queue leaves do to the storage meanwhile.
    - [Isolation]: that a batch, whatever fails in it, touches no other log.
    - [Election] (Trillian's util/election): the tracker of masterships and the
      runners, one goroutine for each log, as step machines.
    - [Scheduler] (Trillian's server/log_operation_manager.go): the main loop,
      which asks the tracker for the logs it is for and runs the sequencer on
      each; a round of it is a function of what happens around it.
    - [MainLoop], [Shutdown]: the main loop followed through its rounds while
      nothing fails, through a pass in which anything may, and to its end.
    - [Boot] (cmd/server/main.go): the program from an empty database on: the
      configuration, start-up, and the main loop.
    - [Serving], [ByHash]: what the calls of the server answer on a log that has
      grown so, given indexes and given hashes.
    - [Verifier] (Trillian's merkle/log_verifier.go): verifying proofs of
      inclusion and of consistency, with the audit paths of RFC 6962.
    - [Paths]: the proofs of RFC 6962, defined from the root down, as paths from
      a leaf up, and that the verifier accepts them.
    - [Proofs] (Trillian's merkle/merkle_path.go, server/proof_fetcher.go): which
      stored nodes a proof is made of, and putting it together from them.
    - [Drand] (cmd/admin/ct-log-tester/internal/drand, generate.go): the
      deterministic randomness of test certificates.
    - [Tester] (the rest of cmd/admin/ct-log-tester): the tool that audits a
      log, from its first request to flooding the log from five goroutines.
    - [ReferenceLog]: a log by RFC 6962 for the auditor to run on, which it
      passes; it serves as a witness and models nothing of the program.

    Interfaces between the parts are classes: [Codec] with [CodecLaws] and
    [JSONLaws] for serializers, [MapRange] with [MapRangeLaws] for the order in
    which Go ranges over a map (any order), [Lib] for what the configuration
    uses of libraries, [LogServer] for the log that the auditor talks to,
    [MasterElection] for elections, with the one ct-log uses as its instance.

    ** What is proved

    - Logs: transactions only ever extend a log, and never that of another
      tree, as long as the roots they store and the leaves they sequence have
      their hashes; a batch of the sequencer that succeeds moves its leaves from
      the queue to the log and publishes exactly them; a transaction that fails
      without having been committed leaves no trace but queued leaves; start-up loses nothing and leaves every
      log with a root ([LogStorage], [Server], [Sequencer]).
    - Progress: a batch that meets no faults does succeed, and what it leaves in
      the database and the bucket is what the next batch and the readers need;
      batches take every queued leaf into the log, from where it is served by its
      index and by its hash, and the log proves what it contains and that it was
      only extended, with the proofs of RFC 6962 ([Growth], [Proofs], [Serving],
      [ByHash]).
    - The main loop: in its rounds every queued leaf of every active log is
      published, oldest first, whatever requests queue meanwhile ([MainLoop],
      [Arrivals]), from the first start of the server on, which gets through its
      start-up ([Boot]); a log that fails keeps no other from its turn, and a
      pass touches only the logs it is for ([Isolation], [MainLoop]), which are those that are listed and
      held, never one whose resignation is under way ([Scheduler],
      [Election]); told to end, it does ([Shutdown]).
    - Hashes: the frontier computes the Merkle tree hash of RFC 6962; the
      compact tree agrees with it and reports the right nodes ([Frontier],
      [Compact]).
    - Audits: proofs are accepted only for what the tree contains, or together
      with two strings with the same hash ([Verifier]); an audit that passes
      showed one log, but for what the auditor does not check; one of a log by
      RFC 6962 passes, waiting and flooding end ([Tester]); the randomness of certificates does not depend on the reads
      that the standard library makes at random ([Drand]).
    - Leaves: what is read from the bucket has the hashes of the local tree,
      whatever the bucket answers; leaves that were stored are served, and stay
      readable whatever calls fail ([ReadTx], [Remote]); a leaf is not queued
      again while the cache knows it ([TreeTx]) or once the log has it
      ([ByHash]).
    - Database: keys do not collide, ranges hold exactly the rows they are for,
      rows written are found again; subtrees are a map from coordinates to
      hashes and survive being stored ([Keys], [Local], [Nodes],
      [SubtreeCache], [TreeNodes]).
    - Load: the quota manager neither loses nor makes up tokens between two
      rounds of a log's watcher, however requests interleave, refuses what is
      over the limit, and never refuses a read ([Quota], [Rpc]);
      the cache stays within its size, and its janitor removes what is expired,
      though not at once ([Cache], [Janitor]).
    - The order of operations ([Fsm]), the configuration ([Config]), and the
      forms of log roots and sequence numbers ([Trillian], [Keys]).

    ** Conventions, bounds and fuel

    A Go call is a function to [outcome], or to [M S] when it changes a state
    [S]: the state survives errors and panics.  Integers are [Z]; [wrap64] is
    applied where Go's arithmetic may overflow.  Byte slices are lists, with
    [None] for nil where the code tells nil from empty.  Loops over slices are
    structural; the loops of [Compact] and [Proofs] run for at most 64 rounds
    since they shift an int64 right, those of [Remote] for as many rounds as there are
    sequence numbers left, and [MTH] is by recursion on the length of a list.
    Bisection ([Election]) gets the length of the list, more than its rounds.
    The faults of disk and network calls are lists in the state: the theorems
    hold for every list.  SHA-256 is a function [Sum256] about which nothing is
    assumed but the length of its results, where that matters; that it has no
    collisions is never assumed, since that is false: the properties of proofs
    name the two strings that would have to collide.

    ** Not modelled

    Listening, signals, metrics, logging, traces and contexts' deadlines; the
    timers of goroutines, and the time between rounds of the main loop (their
    bodies are steps, or functions of the clock they see); more than one
    worker of the main loop, which ct-log does not use; elections over etcd;
    opening the databases; TLS, protobuf, gob, JSON, YAML and PEM
    (interfaces); the CT front end and signing (parameters); maps and the
    other services of Trillian; reading the keys of the auditor from files. *)

From stdpp Require Export base gmap sets list list_numbers strings sorting.
From Stdlib Require Export ZArith Lia.
From Stdlib Require Import Init.Byte Strings.Byte.

(** ** Bytes and slices *)

Abbreviation byte := Init.Byte.byte.

(** [bytes] is the content of a Go [[]byte]; [slice] also tells nil ([None])
    from empty ([Some []]). *)
Abbreviation bytes := (list byte).
Abbreviation slice := (option (list byte)).

(** The bytes of a possibly nil slice: ranging over nil yields nothing. *)
Definition sl (s : slice) : bytes := default [] s.

#[global] Instance byte_eq_dec : EqDecision byte := Byte.byte_eq_dec.

#[global] Program Instance byte_countable : Countable byte :=
  inj_countable Byte.to_N Byte.of_N _.
Next Obligation. intros b. apply Byte.of_to_N. Qed.

(** [uint8] to integer, and the conversion [byte(z)], which truncates. *)
Definition b2z (b : byte) : Z := Z.of_N (Byte.to_N b).
Definition z2b (z : Z) : byte :=
  default Byte.x00 (Byte.of_N (Z.to_N (z `mod` 256))).

(** [bytes.Equal]: nil equals empty. *)
Definition bytes_Equal (a b : slice) : bool := bool_decide (sl a = sl b).

(** [bytes.Compare], the lexicographic order that LevelDB sorts keys by. *)
Fixpoint bytes_Compare (a b : bytes) : comparison :=
  match a, b with
  | [], [] => Eq
  | [], _ :: _ => Lt
  | _ :: _, [] => Gt
  | x :: a', y :: b' =>
      match (b2z x ?= b2z y)%Z with
      | Eq => bytes_Compare a' b'
      | c => c
      end
  end.

Definition blt (a b : bytes) : Prop := bytes_Compare a b = Lt.
Definition ble (a b : bytes) : Prop := bytes_Compare a b ≠ Gt.

#[global] Instance blt_dec : RelDecision blt.
Proof. intros a b. unfold blt. apply _. Defined.
#[global] Instance ble_dec : RelDecision ble.
Proof. intros a b. unfold ble. apply _. Defined.

(** The [n] low bytes of [z], most significant first. *)
Fixpoint be_bytes (n : nat) (z : Z) : bytes :=
  match n with
  | O => []
  | S n' => z2b (z ≫ (8 * Z.of_nat n')) :: be_bytes n' z
  end.

(** The unsigned integer that a big-endian byte string denotes. *)
Definition be_val (bs : bytes) : Z :=
  fold_left (λ acc b, acc * 256 + b2z b)%Z bs 0%Z.

(** ** Machine integers *)

Definition wrapU64 (z : Z) : Z := (z `mod` 2 ^ 64)%Z.

(** Two's complement reduction to int64 (Go's [int] on amd64 as well). *)
Definition wrap64 (z : Z) : Z := ((z + 2 ^ 63) `mod` 2 ^ 64 - 2 ^ 63)%Z.

Definition int64 (z : Z) : Prop := (- 2 ^ 63 ≤ z < 2 ^ 63)%Z.

(** Go's [/] and [%] truncate towards zero. *)
Definition godiv (a b : Z) : Z := Z.quot a b.
Definition gorem (a b : Z) : Z := Z.rem a b.

(** ** Errors and effects *)

(** Sentinel errors by name; errors made by [fmt.Errorf] by their format
    string, wrapping the error they print with [%v], if any. *)
Inductive error : Type :=
  | ErrTreeNeedsInit
  | ErrNotFound
  | ErrLeavesNotFound
  | ErrIO
  | ErrDecode
  | ErrEncode
  | Errorf (format : string)
  | Wrapf (format : string) (cause : error).

#[global] Instance error_eq_dec : EqDecision error.
Proof. solve_decision. Defined.

(** A call returns, returns an error, or panics. *)
Inductive outcome (A : Type) : Type :=
  | Ok (a : A)
  | Err (e : error)
  | Panic.
Arguments Ok {A} a.
Arguments Err {A} e.
Arguments Panic {A}.

#[global] Instance outcome_eq_dec `{EqDecision A} : EqDecision (outcome A).
Proof. solve_decision. Defined.

#[global] Instance outcome_ret : MRet outcome := λ A a, Ok a.
#[global] Instance outcome_bind : MBind outcome := λ A B f m,
  match m with Ok a => f a | Err e => Err e | Panic => Panic end.
#[global] Instance outcome_fmap : FMap outcome := λ A B f m,
  match m with Ok a => Ok (f a) | Err e => Err e | Panic => Panic end.

(** Stateful fallible code: state passing, where the state reached survives
    an error, as it does in Go. *)
Definition M (S A : Type) : Type := S → outcome A * S.

#[global] Instance M_ret {S} : MRet (M S) := λ A a s, (Ok a, s).
#[global] Instance M_bind {S} : MBind (M S) := λ A B f m s,
  match m s with
  | (Ok a, s') => f a s'
  | (Err e, s') => (Err e, s')
  | (Panic, s') => (Panic, s')
  end.

Section monad_ops.
Context {S : Type}.

Definition fail {A} (e : error) : M S A := λ s, (Err e, s).
Definition panic {A} : M S A := λ s, (Panic, s).
Definition get : M S S := λ s, (Ok s, s).
Definition put (s' : S) : M S unit := λ _, (Ok tt, s').
Definition modify (f : S → S) : M S unit := λ s, (Ok tt, f s).
Definition lift {A} (o : outcome A) : M S A := λ s, (o, s).

(** Run [m] and hand its outcome over: Go's [x, err := f()]. *)
Definition try {A} (m : M S A) : M S (outcome A) := λ s,
  match m s with
  | (Ok a, s') => (Ok (Ok a), s')
  | (Err e, s') => (Ok (Err e), s')
  | (Panic, s') => (Panic, s')
  end.

(** Loops with an early return on error. *)
Fixpoint mfold {A B} (f : B → A → M S B) (b : B) (l : list A) : M S B :=
  match l with
  | [] => mret b
  | a :: l' => b' ← f b a; mfold f b' l'
  end.

(** Run code over a part of the state. *)
Definition zoom {T A} (get : T → S) (set : S → T → T) (m : M S A) : M T A :=
  λ t, let '(o, s') := m (get t) in (o, set s' t).
End monad_ops.

(** A Go map as [range] sees it: its entries in some order. *)
Class MapRange (K : Type) `{Countable K} := map_range : ∀ {V : Type}, gmap K V → list (K * V).
Class MapRangeLaws (K : Type) `{MapRange K} : Prop :=
  map_range_perm : ∀ (V : Type) (m : gmap K V), map_range m ≡ₚ map_to_list m.

(** ** Tactics and hints *)

Create HintDb ctlog.

(** Case analysis on every [match] of the goal or of a hypothesis. *)
Ltac split_matches :=
  repeat (case_match; simplify_eq/=; try done).

(** Unfold the monad's plumbing. *)
Ltac unfold_M :=
  unfold mbind, mret, M_bind, M_ret, fail, panic, get, put, modify, lift, try,
    zoom in *.

(** The same for plain outcomes. *)
Ltac unfold_O := unfold mbind, mret, outcome_bind, outcome_ret in *.

Tactic Notation "inv_Ok" "in" hyp(H) :=
  unfold_M; repeat (case_match; simplify_eq/=).

(** ** Lemmas on bytes *)

Lemma b2z_range b : (0 ≤ b2z b < 256)%Z.
Proof.
  unfold b2z. pose proof (Byte.to_N_bounded b). lia.
Qed.

Lemma z2b_some z :
  ∃ b, Byte.of_N (Z.to_N (z `mod` 256)) = Some b ∧ z2b z = b.
Proof.
  unfold z2b. destruct (Byte.of_N _) as [b|] eqn:E; [by eexists|].
  apply Byte.of_N_None_iff in E. pose proof (Z.mod_pos_bound z 256). lia.
Qed.

Lemma b2z_z2b z : b2z (z2b z) = (z `mod` 256)%Z.
Proof.
  destruct (z2b_some z) as (b & E & ->). unfold b2z.
  apply Byte.to_of_N in E. rewrite E.
  pose proof (Z.mod_pos_bound z 256). lia.
Qed.

Lemma z2b_b2z b : z2b (b2z b) = b.
Proof.
  unfold z2b, b2z. pose proof (Byte.to_N_bounded b).
  rewrite Z.mod_small by lia. rewrite N2Z.id. by rewrite Byte.of_to_N.
Qed.

Lemma b2z_inj a b : b2z a = b2z b → a = b.
Proof. intros H. by rewrite <-(z2b_b2z a), H, z2b_b2z. Qed.

Lemma b2z_z2b_small z : (0 ≤ z < 256)%Z → b2z (z2b z) = z.
Proof. intros. rewrite b2z_z2b. by apply Z.mod_small. Qed.

#[export] Hint Resolve b2z_range : ctlog.

(** *** The order *)

Lemma bytes_Compare_refl a : bytes_Compare a a = Eq.
Proof. induction a as [|x a IH]; simpl; [done|]. by rewrite Z.compare_refl. Qed.

Lemma bytes_Compare_eq a b : bytes_Compare a b = Eq ↔ a = b.
Proof.
  split; [|intros ->; apply bytes_Compare_refl].
  revert b. induction a as [|x a IH]; intros [|y b]; simpl; try done.
  destruct (Z.compare_spec (b2z x) (b2z y)) as [E| |]; try done.
  intros H. f_equal; [by apply b2z_inj|by apply IH].
Qed.

Lemma bytes_Compare_antisym a b :
  bytes_Compare b a = CompOpp (bytes_Compare a b).
Proof.
  revert b. induction a as [|x a IH]; intros [|y b]; simpl; try done.
  rewrite (Z.compare_antisym (b2z x) (b2z y)).
  destruct (b2z x ?= b2z y)%Z; simpl; auto.
Qed.

Lemma blt_cons x a y b :
  blt (x :: a) (y :: b) ↔ (b2z x < b2z y)%Z ∨ x = y ∧ blt a b.
Proof.
  unfold blt. simpl. destruct (Z.compare_spec (b2z x) (b2z y)) as [E|E|E].
  - apply b2z_inj in E as ->. split; [by right|]. intros [?|[_ ?]]; [lia|done].
  - split; [by left|done].
  - split; [done|]. intros [?|[-> _]]; lia.
Qed.

#[global] Instance blt_strict : StrictOrder blt.
Proof.
  split.
  - intros a. unfold complement, blt. by rewrite bytes_Compare_refl.
  - intros a. induction a as [|x a IH]; intros [|y b] [|z c]; try done.
    rewrite !blt_cons. intros [?|[-> ?]] [?|[-> ?]]; [left; lia|by left|by left|].
    right. eauto.
Qed.

Lemma ble_lt_eq a b : ble a b ↔ blt a b ∨ a = b.
Proof.
  unfold ble, blt. rewrite <-bytes_Compare_eq.
  destruct (bytes_Compare a b); naive_solver.
Qed.

Lemma not_ble a b : ¬ ble a b ↔ blt b a.
Proof.
  unfold ble, blt. rewrite (bytes_Compare_antisym a b).
  destruct (bytes_Compare a b); simpl; naive_solver.
Qed.

Lemma not_blt a b : ¬ blt a b ↔ ble b a.
Proof.
  unfold ble, blt. rewrite (bytes_Compare_antisym a b).
  destruct (bytes_Compare a b); simpl; naive_solver.
Qed.

#[global] Instance ble_total : TotalOrder ble.
Proof.
  split; [split; [split|]|].
  - intros a. rewrite ble_lt_eq. by right.
  - intros a b c. rewrite !ble_lt_eq. intros [H1| ->]; [|done].
    intros [H2| <-]; [|by left]. left. by transitivity b.
  - intros a b. rewrite !ble_lt_eq. intros [H1| ->]; [|done].
    intros [H2| ->]; [|done]. by destruct (irreflexivity blt a); transitivity b.
  - intros a b. unfold trichotomy, strict.
    destruct (decide (a = b)) as [->|]; [by right; left|].
    destruct (decide (ble a b)) as [H|H].
    + left. split; [done|]. rewrite not_ble. apply ble_lt_eq in H.
      naive_solver.
    + right; right. apply not_ble in H as H'.
      split; [apply ble_lt_eq; by left|done].
Qed.

Lemma ble_blt_trans a b c : ble a b → blt b c → blt a c.
Proof. rewrite ble_lt_eq. intros [?| ->] ?; [by transitivity b|done]. Qed.

Lemma blt_ble_trans a b c : blt a b → ble b c → blt a c.
Proof. rewrite ble_lt_eq. intros ? [?| <-]; [by transitivity b|done]. Qed.

Lemma blt_ble a b : blt a b → ble a b.
Proof. rewrite ble_lt_eq. by left. Qed.

Lemma bytes_Compare_app p a b :
  bytes_Compare (p ++ a) (p ++ b) = bytes_Compare a b.
Proof. induction p; simpl; [done|]. by rewrite Z.compare_refl. Qed.

(** Keys of the same length differ at the first differing part. *)
Lemma bytes_Compare_app_same_len a b c d :
  length a = length b →
  bytes_Compare (a ++ c) (b ++ d) =
  match bytes_Compare a b with Eq => bytes_Compare c d | o => o end.
Proof.
  revert b. induction a as [|x a IH]; intros [|y b] Hl; simplify_eq/=; [done|].
  destruct (b2z x ?= b2z y)%Z; [by apply IH|done|done].
Qed.

Lemma blt_app p a b : blt (p ++ a) (p ++ b) ↔ blt a b.
Proof. unfold blt. by rewrite bytes_Compare_app. Qed.
Lemma ble_app p a b : ble (p ++ a) (p ++ b) ↔ ble a b.
Proof. unfold ble. by rewrite bytes_Compare_app. Qed.

(** *** Big-endian encodings *)

Lemma length_be_bytes n z : length (be_bytes n z) = n.
Proof. induction n; simpl; auto. Qed.
#[export] Hint Rewrite length_be_bytes : ctlog.

Lemma be_bytes_mod n z : be_bytes n (z `mod` 256 ^ Z.of_nat n) = be_bytes n z.
Proof.
  assert (∀ m, (n ≤ m)%nat →
    be_bytes n (z `mod` 256 ^ Z.of_nat m) = be_bytes n z) as H; [|by apply H].
  induction n as [|n IH]; intros m Hm; simpl; [done|].
  f_equal; [|apply IH; lia].
  apply b2z_inj. rewrite !b2z_z2b, !Z.shiftr_div_pow2 by lia.
  replace (2 ^ (8 * Z.of_nat n))%Z with (256 ^ Z.of_nat n)%Z
    by (rewrite Z.pow_mul_r by lia; done).
  replace (Z.of_nat m) with (Z.of_nat n + 1 + (Z.of_nat m - Z.of_nat n - 1))%Z by lia.
  rewrite Z.pow_add_r, Z.pow_add_r, Z.pow_1_r by lia.
  set (p := (256 ^ Z.of_nat n)%Z). set (q := (256 ^ _)%Z).
  assert (0 < p)%Z by (apply Z.pow_pos_nonneg; lia).
  assert (0 < q)%Z by (apply Z.pow_pos_nonneg; lia).
  rewrite <-Z.mul_assoc, Z.rem_mul_r by lia.
  rewrite (Z.mul_comm p (_ `mod` _)), Z.div_add by lia.
  rewrite Z.div_small by (apply Z.mod_pos_bound; lia). rewrite Z.add_0_l.
  rewrite Z.rem_mul_r by lia. rewrite Z.mul_comm, Z.mod_add by lia.
  by rewrite Z.mod_mod by lia.
Qed.

Lemma be_val_app bs b : be_val (bs ++ [b]) = (be_val bs * 256 + b2z b)%Z.
Proof. unfold be_val. by rewrite fold_left_app. Qed.

Lemma be_val_cons b bs :
  be_val (b :: bs) = (b2z b * 256 ^ Z.of_nat (length bs) + be_val bs)%Z.
Proof.
  induction bs as [|c bs IH] using rev_ind; [unfold be_val; simpl; lia|].
  rewrite app_comm_cons, !be_val_app, IH, length_app. simpl.
  rewrite Nat2Z.inj_add, Z.pow_add_r by lia. simpl. lia.
Qed.

Lemma be_val_range bs : (0 ≤ be_val bs < 256 ^ Z.of_nat (length bs))%Z.
Proof.
  induction bs as [|b bs IH]; [unfold be_val; simpl; lia|].
  rewrite be_val_cons. simpl length. rewrite Nat2Z.inj_succ, Z.pow_succ_r by lia.
  pose proof (b2z_range b). nia.
Qed.

Lemma be_val_be_bytes n z :
  be_val (be_bytes n z) = (z `mod` 256 ^ Z.of_nat n)%Z.
Proof.
  induction n as [|n IH]; [by rewrite Z.mod_1_r|].
  simpl be_bytes. rewrite be_val_cons, IH, length_be_bytes, b2z_z2b.
  rewrite Z.shiftr_div_pow2 by lia.
  replace (2 ^ (8 * Z.of_nat n))%Z with (256 ^ Z.of_nat n)%Z
    by (rewrite Z.pow_mul_r by lia; done).
  rewrite Nat2Z.inj_succ, Z.pow_succ_r, (Z.mul_comm 256) by lia.
  rewrite Z.rem_mul_r; [lia| |lia]. apply Z.pow_nonzero; lia.
Qed.

Lemma be_bytes_be_val bs : be_bytes (length bs) (be_val bs) = bs.
Proof.
  induction bs as [|b bs IH]; [done|]. simpl.
  rewrite be_val_cons. pose proof (be_val_range bs). pose proof (b2z_range b).
  f_equal.
  - apply b2z_inj. rewrite b2z_z2b, Z.shiftr_div_pow2 by lia.
    replace (2 ^ (8 * Z.of_nat (length bs)))%Z with (256 ^ Z.of_nat (length bs))%Z
      by (rewrite Z.pow_mul_r by lia; done).
    rewrite Z.div_add_l by lia. rewrite Z.div_small by lia.
    rewrite Z.mod_small by lia. lia.
  - rewrite <-be_bytes_mod, Z.add_comm, Z.mod_add by (apply Z.pow_nonzero; lia).
    by rewrite be_bytes_mod.
Qed.

(** Equal-length strings compare as the integers they denote. *)
Lemma bytes_Compare_be_val a b :
  length a = length b → bytes_Compare a b = (be_val a ?= be_val b)%Z.
Proof.
  revert b. induction a as [|x a IH]; intros [|y b] Hl; simplify_eq/=; [done|].
  rewrite !be_val_cons, (IH b Hl). rewrite Hl.
  pose proof (be_val_range a). pose proof (be_val_range b). rewrite Hl in *.
  destruct (Z.compare_spec (b2z x) (b2z y)) as [->|?|?].
  - destruct (Z.compare_spec (be_val a) (be_val b)); symmetry;
      [apply Z.compare_eq_iff|apply Z.compare_lt_iff|apply Z.compare_gt_iff]; lia.
  - symmetry. apply Z.compare_lt_iff. nia.
  - symmetry. apply Z.compare_gt_iff. nia.
Qed.

Lemma bytes_Compare_be_bytes n x y :
  (0 ≤ x < 256 ^ Z.of_nat n)%Z → (0 ≤ y < 256 ^ Z.of_nat n)%Z →
  bytes_Compare (be_bytes n x) (be_bytes n y) = (x ?= y)%Z.
Proof.
  intros. rewrite bytes_Compare_be_val by by rewrite !length_be_bytes.
  by rewrite !be_val_be_bytes, !Z.mod_small.
Qed.

(** ** Lemmas on machine integers *)

Lemma wrap64_small z : int64 z → wrap64 z = z.
Proof. unfold int64, wrap64. intros. rewrite Z.mod_small; lia. Qed.

Lemma wrap64_range z : int64 (wrap64 z).
Proof.
  unfold int64, wrap64. pose proof (Z.mod_pos_bound (z + 2 ^ 63) (2 ^ 64)). lia.
Qed.

(** Wrapping subtracts a multiple of 2^64, and ignores one. *)
Lemma wrap64_spec z : ∃ k, wrap64 z = (z + k * 2 ^ 64)%Z.
Proof.
  exists (- ((z + 2 ^ 63) `div` 2 ^ 64))%Z. unfold wrap64.
  pose proof (Z.div_mod (z + 2 ^ 63) (2 ^ 64)). lia.
Qed.

Lemma wrap64_add z k : wrap64 (z + k * 2 ^ 64) = wrap64 z.
Proof.
  unfold wrap64. replace (z + k * 2 ^ 64 + 2 ^ 63)%Z with (z + 2 ^ 63 + k * 2 ^ 64)%Z by lia.
  by rewrite Z.mod_add by lia.
Qed.

(** ** Lemmas on the monad *)

Lemma mbind_Ok {S A B} (m : M S A) (f : A → M S B) s s' b :
  (m ≫= f) s = (Ok b, s') ↔ ∃ a s1, m s = (Ok a, s1) ∧ f a s1 = (Ok b, s').
Proof.
  unfold mbind, M_bind. destruct (m s) as [[a|e|] s1]; naive_solver.
Qed.

(** A call that returns, in front of the rest of the code. *)
Lemma mbind_step {S A B} (m : M S A) (f : A → M S B) s a s' :
  m s = (Ok a, s') → (m ≫= f) s = f a s'.
Proof. unfold mbind, M_bind. by intros ->. Qed.

Lemma mfold_step {S A B} (f : B → A → M S B) b a l s b' s' :
  f b a s = (Ok b', s') → mfold f b (a :: l) s = mfold f b' l s'.
Proof. intros H. cbn [mfold]. unfold mbind, M_bind. by rewrite H. Qed.

Lemma outcome_bind_Ok {A B} (m : outcome A) (f : A → outcome B) b :
  m ≫= f = Ok b ↔ ∃ a, m = Ok a ∧ f a = Ok b.
Proof. destruct m; unfold_O; naive_solver. Qed.

(** Take a successful sequence of calls apart. *)
Ltac destruct_prod_in H :=
  match type of H with context [match ?x with (_, _) => _ end] => is_var x; destruct x end.

Ltac inv_binds H :=
  repeat (apply outcome_bind_Ok in H; let Hc := fresh "Hcall" in
          destruct H as (? & Hc & H); try destruct_prod_in H).

(** *** Code that preserves a property of the state *)

Definition stable {S A} (P : S → Prop) (m : M S A) : Prop := ∀ s, P s → P (m s).2.

Section stable.
Context {S : Type} (P : S → Prop).

Lemma stable_ret {A} (a : A) : stable P (mret a).
Proof. by intros s. Qed.
Lemma stable_fail {A} e : stable P (fail (A := A) e).
Proof. by intros s. Qed.
Lemma stable_panic {A} : stable P (panic (A := A)).
Proof. by intros s. Qed.
Lemma stable_get : stable P get.
Proof. by intros s. Qed.
Lemma stable_lift {A} (o : outcome A) : stable P (lift o).
Proof. by intros s. Qed.
Lemma stable_modify f : (∀ s, P s → P (f s)) → stable P (modify f).
Proof. intros H s. apply H. Qed.

Lemma stable_bind {A B} (m : M S A) (f : A → M S B) :
  stable P m → (∀ a, stable P (f a)) → stable P (m ≫= f).
Proof.
  intros Hm Hf s Hs. unfold mbind, M_bind. specialize (Hm s Hs).
  destruct (m s) as [[a|e|] s']; [by apply Hf|done..].
Qed.

Lemma stable_try {A} (m : M S A) : stable P m → stable P (try m).
Proof. intros Hm s Hs. specialize (Hm s Hs). unfold try. by destruct (m s) as [[]]. Qed.

Lemma stable_mfold {A B} (f : B → A → M S B) b l :
  (∀ b a, stable P (f b a)) → stable P (mfold f b l).
Proof.
  intros Hf. revert b. induction l as [|a l IH]; intros b; [apply stable_ret|].
  apply stable_bind; auto.
Qed.
End stable.

Lemma stable_zoom {S T A} (P : T → Prop) (Q : S → Prop) (get : T → S) set (m : M S A) :
  (∀ t, P t → Q (get t)) → (∀ t s, P t → Q s → P (set s t)) → stable Q m →
  stable P (zoom get set m).
Proof.
  intros Hg Hs Hm t Ht. unfold zoom. specialize (Hm (get t) (Hg t Ht)).
  destruct (m (get t)) as [o s']. by apply Hs.
Qed.

#[export] Hint Resolve stable_ret stable_fail stable_panic stable_get stable_lift : ctlog.

(** A first call after which more is known. *)
Lemma stable_bind_post {S A B} (P : S → Prop) (R : A → S → Prop) (m : M S A) (f : A → M S B) :
  (∀ s, P s → match m s with (Ok a, s') => R a s' | (_, s') => P s' end) →
  (∀ a s, R a s → P (f a s).2) → stable P (m ≫= f).
Proof.
  intros Hm Hf s Hs. unfold mbind, M_bind. specialize (Hm s Hs).
  destruct (m s) as [[a|e|] s']; [by apply Hf|done..].
Qed.

(** Walk through code whose calls are known to be stable. *)
Ltac stable :=
  repeat first
    [ solve [eauto with ctlog]
    | apply stable_bind; [|intros ?]
    | apply stable_try
    | apply stable_mfold; intros ? ?
    | progress case_match ].
