(* ===== verification/Frontier.v ===== *)
(** * The frontier (src/custom/frontier/frontier.go)

    [Frontier] keeps the roots of the right-most perfect Merkle trees of a log.
    The file models [Append], [Head] and [hashDomain] over an arbitrary
    [Sum256], states the RFC 6962 Merkle tree hash, and proves that the
    incremental structure computes it. *)

From S2P Require Import Prelude.
From Equations Require Import Equations.

Section frontier.
(** [sha256.Sum256]: every result holds for any function of bytes. *)
Context (Sum256 : bytes → bytes).

(** ** The structure *)

Record Frontier := mkFrontier { Roots : list slice }.

#[global] Instance Frontier_eq_dec : EqDecision Frontier.
Proof. solve_decision. Defined.
#[global] Instance Frontier_countable : Countable Frontier.
Proof. refine (inj_countable' Roots mkFrontier _). by intros []. Defined.

(** [var f Frontier] *)
Definition zeroFrontier : Frontier := {| Roots := [] |}.

Definition hashDomain (domain : byte) (slices : list slice) : bytes :=
  Sum256 (fold_left (λ inp s, inp ++ sl s) slices [domain]).

(** The [range f.Roots] loop of [Append]: the roots after the loop and the
    carry that is left. *)
Fixpoint append_loop (roots : list slice) (carry : slice) : list slice * slice :=
  match roots with
  | [] => ([], carry)
  | None :: rest => (carry :: rest, None)
  | Some r :: rest =>
      let '(rest', carry') :=
        append_loop rest (Some (hashDomain Byte.x01 [Some r; carry])) in
      (None :: rest', carry')
  end.

Definition Append (f : Frontier) (h : slice) : Frontier :=
  let '(roots, carry) := append_loop (Roots f) h in
  match carry with
  | Some _ => {| Roots := roots ++ [carry] |}
  | None => {| Roots := roots |}
  end.

(** The accumulation loop of [Head]. *)
Fixpoint head_loop (roots : list slice) (acc : slice) : slice :=
  match roots with
  | [] => acc
  | None :: rest => head_loop rest acc
  | Some r :: rest =>
      match acc with
      | None => head_loop rest (Some r)
      | Some _ => head_loop rest (Some (hashDomain Byte.x01 [Some r; acc]))
      end
  end.

Definition Head (f : Frontier) : slice :=
  match Roots f with
  | [] => Some (Sum256 [])
  | _ => head_loop (Roots f) None
  end.

(** The frontier after appending leaf hashes one by one. *)
Definition appendAll (f : Frontier) (hs : list bytes) : Frontier :=
  fold_left (λ f h, Append f (Some h)) hs f.

(** ** Specification: the Merkle tree hash of RFC 6962, section 2.1

    Over the list of leaf hashes; the split point is the largest power of
    two smaller than the number of leaves. *)

Definition split_point (n : nat) : nat := 2 ^ Nat.log2 (n - 1).

Lemma split_point_bounds n : 2 ≤ n → 1 ≤ split_point n < n.
Proof.
  intros Hn. unfold split_point.
  destruct (Nat.log2_spec (n - 1)) as [H1 _]; [lia|].
  pose proof (Nat.pow_nonzero 2 (Nat.log2 (n - 1))). lia.
Qed.

Equations? MTH (l : list bytes) : bytes by wf (length l) lt :=
  MTH [] := Sum256 [];
  MTH [h] := h;
  MTH (h1 :: h2 :: l) :=
    hashDomain Byte.x01
      [Some (MTH (take (split_point (length (h1 :: h2 :: l))) (h1 :: h2 :: l)));
       Some (MTH (drop (split_point (length (h1 :: h2 :: l))) (h1 :: h2 :: l)))].
Proof.
  all: pose proof (split_point_bounds (S (S (length l)))).
  all: rewrite ?length_take, ?length_drop; simpl in *; lia.
Qed.

(** [rep i roots l]: the roots of level [i] and up commit to the leaves [l],
    the highest tree left-most. *)
Inductive rep : nat → list slice → list bytes → Prop :=
  | rep_nil i : rep i [] []
  | rep_none i roots l : rep (S i) roots l → rep i (None :: roots) l
  | rep_some i roots l t :
      rep (S i) roots l → length t = 2 ^ i →
      rep i (Some (MTH t) :: roots) (l ++ t).

(** The frontier commits to [l]: besides, the topmost root is in use. *)
Definition commits (f : Frontier) (l : list bytes) : Prop :=
  rep 0 (Roots f) l ∧ (Roots f = [] ∨ ∃ r, last (Roots f) = Some (Some r)).

(** ** Lemmas *)

Lemma MTH_split l :
  2 ≤ length l →
  MTH l = hashDomain Byte.x01
    [Some (MTH (take (split_point (length l)) l));
     Some (MTH (drop (split_point (length l)) l))].
Proof. destruct l as [|a [|b l]]; simpl; [lia|lia|]. intros _. by simp MTH. Qed.

Lemma MTH_one h : MTH [h] = h.
Proof. by simp MTH. Qed.

Lemma MTH_nil : MTH [] = Sum256 [].
Proof. by simp MTH. Qed.

(** A property of all hashes and of the leaves is one of the root. *)
Lemma MTH_prop (P : bytes → Prop) l : (∀ b, P (Sum256 b)) → Forall P l → P (MTH l).
Proof.
  intros HP Hl. destruct l as [|h [|h' l]]; [by rewrite MTH_nil|rewrite MTH_one; by apply Forall_cons in Hl as [? _]|].
  rewrite MTH_split by (simpl; lia). apply HP.
Qed.

Lemma split_point_pow j s :
  1 ≤ s ≤ 2 ^ j → split_point (2 ^ j + s) = 2 ^ j.
Proof.
  intros. unfold split_point. f_equal. apply Nat.log2_unique; [lia|].
  simpl. lia.
Qed.

(** A perfect left tree over a non-empty tree that is no larger. *)
Lemma MTH_app j t s :
  length t = 2 ^ j → 1 ≤ length s ≤ 2 ^ j →
  MTH (t ++ s) = hashDomain Byte.x01 [Some (MTH t); Some (MTH s)].
Proof.
  intros Ht Hs. pose proof (Nat.pow_nonzero 2 j).
  rewrite MTH_split by (rewrite length_app; lia).
  rewrite length_app, Ht, split_point_pow by lia.
  by rewrite take_app_length', drop_app_length' by lia.
Qed.

Lemma append_loop_rep i roots l t rs c :
  rep i roots l → length t = 2 ^ i →
  append_loop roots (Some (MTH t)) = (rs, c) →
  match c with
  | None => rep i rs (l ++ t) ∧ rs ≠ [] ∧
            (last roots = last rs ∨ ∃ h, last rs = Some (Some h))
  | Some _ => rep i (rs ++ [c]) (l ++ t)
  end.
Proof.
  intros Hr. revert t rs c.
  induction Hr as [i|i roots l Hr _|i roots l t' Hr IH Hl]; intros t rs c Ht Ha.
  - simplify_eq/=. change t with ([] ++ t) at 2. repeat constructor. done.
  - simplify_eq/=. split; [by constructor|]. split; [done|].
    destruct roots; [right; by eexists|by left].
  - simpl in Ha.
    destruct (append_loop roots _) as [rs' c'] eqn:E. injection Ha as <- <-.
    pose proof (Nat.pow_nonzero 2 i).
    rewrite <-(MTH_app i) in E by (done || lia).
    specialize (IH (t' ++ t) rs' c').
    rewrite length_app, Hl, Ht in IH. simpl in IH.
    specialize (IH ltac:(lia) E). destruct c' as [c|].
    + simpl. constructor. by rewrite <-app_assoc.
    + destruct IH as (IH1 & IH2 & IH3). split.
      { constructor. by rewrite <-app_assoc. }
      split; [done|]. destruct rs' as [|r' rs']; [done|].
      destruct roots as [|r roots]; [discriminate E|].
      destruct IH3 as [IH3|IH3]; [left; simpl in *; by rewrite <-IH3|by right].
Qed.

Lemma Append_commits f l h :
  commits f l → commits (Append f (Some h)) (l ++ [h]).
Proof.
  intros [Hr Hlast]. unfold Append.
  destruct (append_loop (Roots f) (Some h)) as [rs c] eqn:E.
  assert (Some h = Some (MTH [h])) as Hh by (by simp MTH).
  rewrite Hh in E. pose proof (append_loop_rep 0 _ _ [h] _ _ Hr eq_refl E) as H.
  destruct c as [c|]; split; simpl.
  - done.
  - right. exists c. by rewrite last_snoc.
  - apply H.
  - destruct H as (_ & Hne & [Hl|?]); [|by right].
    destruct Hlast as [Hn|[r Hr']].
    + exfalso. rewrite Hn in E. simplify_eq/=.
    + right. exists r. by rewrite <-Hl.
Qed.

Lemma head_loop_rep i roots l s :
  rep i roots l → 1 ≤ length s ≤ 2 ^ i →
  head_loop roots (Some (MTH s)) = Some (MTH (l ++ s)).
Proof.
  intros Hr. revert s.
  induction Hr as [i|i roots l Hr IH|i roots l t Hr IH Hl]; intros s Hs; simpl.
  - done.
  - apply IH. simpl. lia.
  - rewrite <-(MTH_app i) by (done || lia). rewrite IH.
    + by rewrite <-app_assoc.
    + rewrite length_app, Hl. simpl. lia.
Qed.

Lemma head_loop_rep_nil i roots l r :
  rep i roots l → last roots = Some (Some r) →
  head_loop roots None = Some (MTH l).
Proof.
  induction 1 as [i|i roots l Hr IH|i roots l t Hr IH Hl]; simpl; [done| |].
  - destruct roots; [done|]. intros H. by apply IH.
  - intros _. erewrite head_loop_rep; [done|done|].
    pose proof (Nat.pow_nonzero 2 i). simpl. lia.
Qed.

Lemma commits_Head f l : commits f l → Head f = Some (MTH l).
Proof.
  intros [Hr Hlast]. unfold Head. destruct (Roots f) as [|r roots] eqn:E.
  - inversion Hr; subst. by simp MTH.
  - destruct Hlast as [?|[x Hx]]; [done|]. by eapply head_loop_rep_nil.
Qed.

Lemma commits_zero : commits zeroFrontier [].
Proof. split; [constructor|by left]. Qed.

Lemma appendAll_commits f l hs :
  commits f l → commits (appendAll f hs) (l ++ hs).
Proof.
  revert f l. induction hs as [|h hs IH]; intros f l Hc; simpl.
  - by rewrite app_nil_r.
  - rewrite cons_middle, app_assoc. apply IH. by apply Append_commits.
Qed.

(** Level [j] is in use exactly when bit [j] of the tree size is set. *)
Lemma rep_bits i roots l :
  rep i roots l →
  ∃ q, length l = q * 2 ^ i ∧
  ∀ j, (∃ r, roots !! j = Some (Some r)) ↔ Nat.testbit q j = true.
Proof.
  induction 1 as [i|i roots l Hr (q & Hq & IH)|i roots l t Hr (q & Hq & IH) Hl].
  - exists 0. split; [done|]. intros j. rewrite Nat.bits_0.
    split; [intros [r ?]; done|done].
  - exists (2 * q). simpl in Hq. split; [lia|]. intros [|j].
    + rewrite Nat.testbit_even_0. simpl. naive_solver.
    + rewrite Nat.testbit_even_succ by lia. apply IH.
  - exists (2 * q + 1). rewrite length_app, Hl, Hq. simpl.
    split; [lia|]. intros [|j].
    + replace (q + (q + 0) + 1) with (2 * q + 1) by lia.
      rewrite Nat.testbit_odd_0. simpl. naive_solver.
    + replace (q + (q + 0) + 1) with (2 * q + 1) by lia.
      rewrite Nat.testbit_odd_succ by lia. apply IH.
Qed.

(** ** Properties *)

(** C19. The head of the frontier is the RFC 6962 Merkle tree hash of the
    leaf hashes appended so far, for any number of leaves (none included)
    and any hash function. *)
Theorem Head_appendAll_MTH hs :
  Head (appendAll zeroFrontier hs) = Some (MTH hs).
Proof. apply commits_Head, (appendAll_commits _ []), commits_zero. Qed.

(** Compactness: after [n] appends, the root of level [j] is kept exactly
    when bit [j] of [n] is set, and the frontier has as many slots as [n] has
    binary digits. *)
Theorem Roots_appendAll_bits hs :
  (∀ j, (∃ r, Roots (appendAll zeroFrontier hs) !! j = Some (Some r)) ↔
        Nat.testbit (length hs) j = true) ∧
  length (Roots (appendAll zeroFrontier hs)) =
    match hs with [] => 0 | _ => S (Nat.log2 (length hs)) end.
Proof.
  destruct (appendAll_commits _ [] hs commits_zero) as [Hr Hlast].
  apply rep_bits in Hr as Hb.
  destruct Hb as (q & Hq & Hb). simpl in Hq. rewrite Nat.mul_1_r in Hq. subst q.
  split; [done|]. destruct Hlast as [Hn|[r Hl]].
  - rewrite Hn in Hr |- *. inversion Hr. by destruct hs.
  - rewrite last_lookup in Hl. set (n := length (Roots _)) in *.
    assert (n ≠ 0) by (intros E; apply lookup_lt_Some in Hl; fold n in Hl; lia).
    assert (Nat.testbit (length hs) (pred n) = true) as H1 by (apply Hb; by exists r).
    destruct hs as [|h hs]; [by rewrite Nat.bits_0 in H1|].
    rewrite (Nat.log2_bits_unique _ (pred n)); [lia|done|].
    intros m Hm. apply not_true_is_false. intros [x Hx]%Hb.
    apply lookup_lt_Some in Hx. fold n in Hx. lia.
Qed.
End frontier.
