(* ===== verification/Fsm.v ===== *)
(** * The transaction state machine (src/ct/fsm.go)

    A [logTreeTX] embeds an [fsm] and [emit]s a state before each operation;
    an illegal transition is refused and leaves the state alone. *)

From S2P Require Import Prelude.

Inductive fsmState : Type :=
  | sBegin
  | sQueueLeaves
  | sDequeueLeaves
  | sUpdateSequencedLeaves
  | sSetMerkleNodes
  | sStoreSignedLogRoot
  | sCommit
  | sRollback
  | sClose.

#[global] Instance fsmState_eq_dec : EqDecision fsmState.
Proof. solve_decision. Defined.

Definition String_fsmState (s : fsmState) : string :=
  match s with
  | sBegin => "BeginForTree"
  | sQueueLeaves => "QueueLeaves"
  | sDequeueLeaves => "DequeueLeaves"
  | sUpdateSequencedLeaves => "UpdateSequencedLeaves"
  | sSetMerkleNodes => "SetMerkleNodes"
  | sStoreSignedLogRoot => "StoreSignedLogRoot"
  | sCommit => "Commit"
  | sRollback => "Rollback"
  | sClose => "Close"
  end.

(** The map [fsmTransitions]; a state that is no key maps to nil. *)
Definition fsmTransitions (s : fsmState) : list fsmState :=
  match s with
  | sBegin => [sQueueLeaves; sDequeueLeaves; sStoreSignedLogRoot]
  | sQueueLeaves => [sCommit]
  | sDequeueLeaves => [sUpdateSequencedLeaves; sCommit]
  | sUpdateSequencedLeaves => [sSetMerkleNodes]
  | sSetMerkleNodes => [sStoreSignedLogRoot]
  | sStoreSignedLogRoot => [sCommit]
  | sCommit => [sClose]
  | sRollback => [sClose]
  | sClose => []
  end.

Record fsm := mkFsm { state : fsmState }.

Definition illegal_transition : error :=
  Errorf "illegal transition blocked: %v -> %v".

Definition emit (st : fsmState) : M fsm unit := λ m,
  if bool_decide (st = sRollback) || bool_decide (st = sClose) then
    (Ok tt, {| state := st |})
  else if existsb (λ cand, bool_decide (st = cand)) (fsmTransitions (state m)) then
    (Ok tt, {| state := st |})
  else (Err illegal_transition, m).

(** ** The machine as a step relation *)

Definition closing (s : fsmState) : Prop := s = sRollback ∨ s = sClose.

(** A caller may go on after a refusal; [accepted] keeps what got through. *)
Fixpoint accepted (m : fsm) (l : list fsmState) : list fsmState :=
  match l with
  | [] => []
  | st :: l' =>
      match emit st m with
      | (Ok _, m') => st :: accepted m' l'
      | (_, m') => accepted m' l'
      end
  end.

(** The transactions the storage is written for. *)
Definition transactions : list (list fsmState) :=
  [ [sQueueLeaves; sCommit];
    [sDequeueLeaves; sCommit];
    [sDequeueLeaves; sUpdateSequencedLeaves; sSetMerkleNodes;
     sStoreSignedLogRoot; sCommit];
    [sStoreSignedLogRoot; sCommit] ].

(** What a state may still be followed by, up to the commit. *)
Definition continuations (s : fsmState) : list (list fsmState) :=
  match s with
  | sBegin => transactions
  | sQueueLeaves => [[sCommit]]
  | sDequeueLeaves =>
      [[sCommit];
       [sUpdateSequencedLeaves; sSetMerkleNodes; sStoreSignedLogRoot; sCommit]]
  | sUpdateSequencedLeaves => [[sSetMerkleNodes; sStoreSignedLogRoot; sCommit]]
  | sSetMerkleNodes => [[sStoreSignedLogRoot; sCommit]]
  | sStoreSignedLogRoot => [[sCommit]]
  | sCommit | sRollback | sClose => [[]]
  end.

(** The sequences the storage intends: a prefix of one of the transactions,
    then rollbacks and closes. *)
Definition intended (l : list fsmState) : Prop :=
  ∃ w p tail, w ∈ transactions ∧ p `prefix_of` w ∧
    l = p ++ tail ∧ Forall closing tail.

(** ** Lemmas *)

Lemma emit_Ok st m m' :
  emit st m = (Ok tt, m') ↔
  state m' = st ∧ (closing st ∨ st ∈ fsmTransitions (state m)).
Proof.
  destruct m as [s], m' as [s']; unfold closing; simpl.
  rewrite list_elem_of_In.
  destruct s, st; simpl; unfold emit; simpl; intuition congruence.
Qed.

Lemma emit_total st m :
  emit st m = (Ok tt, mkFsm st) ∨ emit st m = (Err illegal_transition, m).
Proof. destruct m as [[]], st; (by left) || (by right). Qed.

Lemma accepted_closed s l :
  s ∈ [sCommit; sRollback; sClose] → Forall closing (accepted (mkFsm s) l).
Proof.
  revert s. induction l as [|x l IH]; intros s Hs; simpl; [done|].
  assert (closing x ∧ emit x (mkFsm s) = (Ok tt, mkFsm x) ∨
          emit x (mkFsm s) = (Err illegal_transition, mkFsm s)) as [[Hx ->]| ->].
  { unfold closing. set_unfold in Hs. destruct Hs as [->|[->| [->|?]]];
      destruct x; naive_solver. }
  - constructor; [done|]. apply IH. destruct Hx as [->| ->]; set_solver.
  - by apply IH.
Qed.

Lemma accepted_continuations s l :
  ∃ w p tail, w ∈ continuations s ∧ p `prefix_of` w ∧
    accepted (mkFsm s) l = p ++ tail ∧ Forall closing tail.
Proof.
  revert s. induction l as [|x l IH]; intros s.
  - destruct (continuations s) as [|w ws] eqn:E; [by destruct s|].
    exists w, [], []. split; [set_solver|]. by split; [apply prefix_nil|].
  - simpl. destruct (emit_total x (mkFsm s)) as [H|H]; rewrite H; [|apply IH].
    apply emit_Ok in H as [_ [Hc|Hin]].
    + destruct (continuations s) as [|w ws] eqn:E; [by destruct s|].
      exists w, [], (x :: accepted (mkFsm x) l).
      split; [set_solver|]. split; [apply prefix_nil|]. split; [done|].
      constructor; [done|]. apply accepted_closed. destruct Hc as [->| ->]; set_solver.
    + destruct (IH x) as (w & p & tail & Hw & Hp & -> & Ht).
      destruct (decide (closing x)) as [Hc|Hc].
      { assert (w = []) as -> by (destruct Hc as [->| ->]; set_solver).
        apply prefix_nil_inv in Hp as ->.
        destruct (continuations s) as [|w' ws] eqn:E; [by destruct s|].
        exists w', [], (x :: tail). split; [set_solver|].
        split; [apply prefix_nil|]. split; [done|]. by constructor. }
      exists (x :: w), (x :: p), tail.
      split; [|split; [by apply prefix_cons|done]].
      unfold closing in Hc. destruct s; set_unfold in Hin;
        destruct_or?; simplify_eq; simpl in *; set_solver.
Qed.

Lemma accepted_closing s l : Forall closing l → accepted (mkFsm s) l = l.
Proof.
  intros Hl. revert s. induction Hl as [|x l Hx Hl IH]; intros s; simpl; [done|].
  by destruct Hx as [->| ->]; simpl; rewrite IH.
Qed.

Lemma continuations_next s x w :
  x :: w ∈ continuations s → x ∈ fsmTransitions s ∧ w ∈ continuations x.
Proof. destruct s; simpl; intros H; set_unfold in H; destruct_or?; simplify_eq; set_solver. Qed.

(** Nothing of a prefix of a transaction is refused, nor of what closes it. *)
Lemma accepted_intended s w p tail :
  w ∈ continuations s → p `prefix_of` w → Forall closing tail →
  accepted (mkFsm s) (p ++ tail) = p ++ tail.
Proof.
  revert s w. induction p as [|x p IH]; intros s w Hw [r ->] Ht; simpl.
  { by apply accepted_closing. }
  destruct (continuations_next s x (p ++ r) Hw) as [Hx Hw'].
  destruct (emit_Ok x (mkFsm s) (mkFsm x)) as [_ He].
  rewrite He by (by split; [|right]).
  f_equal. apply (IH x (p ++ r)); [done|by exists r|done].
Qed.

(** ** Properties *)

(** C35. Whatever a caller emits on a fresh transaction, going on after
    refusals or not, the operations let through are a prefix of one of the
    four intended transactions, followed by rollbacks and closes only; and a
    sequence of operations is let through without a refusal exactly when it
    is of that form. *)
Theorem accepted_language l :
  intended (accepted (mkFsm sBegin) l) ∧
  (accepted (mkFsm sBegin) l = l ↔ intended l).
Proof.
  pose proof (accepted_continuations sBegin l) as Hl.
  split; [exact Hl|]. split; [intros <-; exact Hl|].
  intros (w & p & tail & Hw & Hp & -> & Ht).
  by apply (accepted_intended sBegin w).
Qed.

(** A transaction ends once: after a commit, a rollback or a close, every
    operation but rollback and close is refused and the machine stays in one
    of these three states. *)
Theorem no_operation_after_end s l :
  s ∈ [sCommit; sRollback; sClose] →
  ∀ st, st ∈ accepted (mkFsm s) l → closing st.
Proof.
  intros Hs st. pose proof (accepted_closed s l Hs) as H.
  rewrite Forall_forall in H. apply H.
Qed.

Lemma no_operation_after_end_witness :
  sRollback ∈ [sCommit; sRollback; sClose] ∧
  ∀ st, st ∈ accepted (mkFsm sRollback) [sCommit; sQueueLeaves; sClose; sCommit] →
        closing st.
Proof. split; [set_solver|]. apply no_operation_after_end. set_solver. Defined.
