(* ===== verification/Keys.v ===== *)
(** * Keys and values of the local database (src/custom/local.go)

    The layout of LevelDB keys: [keyS] and [keyB] put the record type and the
    tree id in front of a row key, [rowkeyLeaf], [rowkeyNodeID] and
    [rangeNodeID] make the row keys, and sequence numbers are stored as
    varints.  The properties say that keys never collide, that their order is
    the order of what they encode, and that the varint code round-trips. *)

From S2P Require Import Prelude.
From Stdlib Require Import Strings.Byte.

(** ** What the code uses of [fmt] and [encoding/binary] *)

(** The bytes of a string. *)
Definition str (s : string) : bytes := String.list_byte_of_string s.

(** [string(b)] for a byte: the UTF-8 encoding of the code point [b]. *)
Definition string_of_byte (b : byte) : bytes :=
  if (b2z b <? 128)%Z then [b]
  else [z2b (192 + (b2z b ≫ 6)); z2b (128 + Z.land (b2z b) 63)].

Definition hexdigit (d : Z) : byte :=
  if (d <? 10)%Z then z2b (48 + d) else z2b (87 + d).

(** The verb [%16.16x] on an int64: sixteen hexadecimal digits at least, a
    minus sign in front of a negative number. *)
Definition fmt_16_16x (z : Z) : bytes :=
  (if (z <? 0)%Z then [Byte.x2d] else []) ++
  ((λ i, hexdigit ((Z.abs z ≫ (4 * Z.of_nat i)) `mod` 16)%Z) <$> reverse (seq 0 16)).

(** [binary.PutUvarint] into a buffer of [cap] bytes: the bytes written, a
    panic when they do not fit. *)
Fixpoint PutUvarint (cap : nat) (x : Z) : outcome bytes :=
  match cap with
  | O => Panic
  | S cap' =>
      if (x <? 128)%Z then Ok [z2b x]
      else
        rest ← PutUvarint cap' (x ≫ 7);
        mret (z2b (Z.lor (x `mod` 256) 128) :: rest)
  end.

Definition PutVarint (cap : nat) (x : Z) : outcome bytes :=
  let ux := wrapU64 (wrapU64 x ≪ 1) in
  PutUvarint cap (if (x <? 0)%Z then (2 ^ 64 - 1 - ux)%Z else ux).

(** [binary.Uvarint]: the value and the number of bytes read (not positive
    when there is none or it overflows). *)
Fixpoint Uvarint_loop (buf : bytes) (i x s : Z) : Z * Z :=
  match buf with
  | [] => (0, 0)%Z
  | b :: buf' =>
      if (b2z b <? 128)%Z then
        if (9 <? i)%Z || (i =? 9)%Z && (1 <? b2z b)%Z then (0, - (i + 1))%Z
        else (Z.lor x (wrapU64 (b2z b ≪ s)), i + 1)%Z
      else Uvarint_loop buf' (i + 1) (Z.lor x (wrapU64 (Z.land (b2z b) 127 ≪ s))) (s + 7)
  end.

Definition Varint (buf : bytes) : Z * Z :=
  let '(ux, n) := Uvarint_loop buf 0 0 0 in
  let x := wrap64 (ux ≫ 1) in
  ((if Z.odd ux then - x - 1 else x)%Z, n).

(** ** Keys *)

Definition keyPrefix (typ : byte) (treeID : Z) : bytes :=
  string_of_byte typ ++ fmt_16_16x treeID ++ [Byte.x3a].

Definition keyS (typ : byte) (treeID : Z) (val : string) : bytes :=
  keyPrefix typ treeID ++ str val.

Definition keyB (typ : byte) (treeID : Z) (val : bytes) : bytes :=
  keyPrefix typ treeID ++ val.

(** The record types. *)
Definition typ_r : byte := Byte.x72.
Definition typ_l : byte := Byte.x6c.
Definition typ_m : byte := Byte.x6d.
Definition typ_i : byte := Byte.x69.
Definition typ_s : byte := Byte.x73.

(** [rowkeyLeaf(queueTimestamp, noise)]: the argument [noise] is what
    [rand.Read(key[8:])] delivers, or [None] when no noise is asked for. *)
Definition rowkeyLeaf (queueTimestamp : Z) (noise : option bytes) : bytes :=
  let key := replicate 12 Byte.x00 in
  let key := fold_left (λ key i,
    <[7 - i := z2b (queueTimestamp ≫ (8 * Z.of_nat i))]> key) (seq 0 8) key in
  match noise with
  | None => key
  | Some rnd => take 8 key ++ take 4 (rnd ++ replicate 4 Byte.x00)
  end.

(** [storage.NodeID] (src/vendor/github.com/google/trillian/storage/types.go) *)
Record NodeID := mkNodeID { Path : bytes; PrefixLenBits : Z }.

#[global] Instance NodeID_eq_dec : EqDecision NodeID.
Proof. solve_decision. Defined.

Definition err_not_multiple := Errorf "invalid subtree ID - not multiple of 8: %v".
Definition err_prefix_len := Errorf "invalid subtree ID - bad prefix length: %v".
Definition err_path_len := Errorf "invalid subtree ID - path is too long: %v".

(** [copy(dst, src)] at offset 0. *)
Definition copy_into (dst src : bytes) : bytes :=
  take (length dst) src ++ drop (length src) dst.

(** Go slices [id.Path] up to its capacity; the model takes the capacity to be
    the length, so that a path with fewer bytes than [PrefixLenBits] counts
    panics here and may read the spare bytes behind it there.  The node ids
    of the callers ([valid_NodeID] in Local.v) have all their bytes. *)
Definition rowkeyNodeID (treeRevision : Z) (id : NodeID) : outcome bytes :=
  if negb (gorem (PrefixLenBits id) 8 =? 0)%Z then Err err_not_multiple
  else if (PrefixLenBits id <? 0)%Z || (64 <? PrefixLenBits id)%Z then Err err_prefix_len
  else if 8 <? length (Path id) then Err err_path_len
  else
    let n := Z.to_nat (godiv (PrefixLenBits id) 8) in
    if length (Path id) <? n then Panic
    else
      let rowkey := copy_into (replicate 8 Byte.x00) (take n (Path id)) ++
                    replicate 9 Byte.x00 in
      let rowkey := <[8 := z2b (PrefixLenBits id)]> rowkey in
      Ok (fold_left (λ rowkey i,
            <[i + 9 := z2b (treeRevision ≫ (56 - 8 * Z.of_nat i))]> rowkey)
          (seq 0 8) rowkey).

Definition rangeNodeID (treeRevision : Z) (id : NodeID) : outcome (bytes * bytes) :=
  start ← rowkeyNodeID treeRevision id;
  let stop := copy_into (replicate 17 Byte.x00) start in
  let stop := fold_left (λ stop i, <[i + 9 := Byte.xff]> stop) (seq 0 8) stop in
  match stop !! 8 with
  | None => Panic
  | Some b =>
      if bool_decide (b = Byte.x00) then mret (start, [])
      else mret (start, <[8 := z2b (b2z b - 1)]> stop)
  end.

(** The value stored in the leaf indices: [raw := make([]byte, 8)],
    [n := binary.PutVarint(raw, seq)], [raw[:n]]. *)
Definition encodeSeq (seq : Z) : outcome bytes := PutVarint 8 seq.

(** [idx, n := binary.Varint(raw)], refused when [n != len(raw)]. *)
Definition decodeSeq (raw : bytes) : outcome Z :=
  let '(idx, n) := Varint raw in
  if negb (n =? Z.of_nat (length raw))%Z then Err (Errorf "malformed entry in index")
  else Ok idx.

(** ** Normal forms *)

(** Hexadecimal digits, most significant first. *)
Fixpoint hexn (n : nat) (z : Z) : bytes :=
  match n with
  | O => []
  | S n' => hexdigit ((z ≫ (4 * Z.of_nat n')) `mod` 16)%Z :: hexn n' z
  end.

(** A node id the local database accepts, and the fields of its row key. *)
Definition valid_NodeID (id : NodeID) : Prop :=
  (0 ≤ PrefixLenBits id ≤ 64 ∧ PrefixLenBits id `mod` 8 = 0 ∧
   PrefixLenBits id `div` 8 ≤ Z.of_nat (length (Path id)) ≤ 8)%Z.

Definition node_prefix (id : NodeID) : bytes :=
  take (Z.to_nat (PrefixLenBits id `div` 8)) (Path id).

Definition pad8 (p : bytes) : bytes := p ++ replicate (8 - length p) Byte.x00.

Definition node_rowkey (treeRevision : Z) (id : NodeID) : bytes :=
  pad8 (node_prefix id) ++ z2b (PrefixLenBits id) :: be_bytes 8 treeRevision.

(** Where the revisions of a node end, below. *)
Definition range_stop (id : NodeID) : bytes :=
  if (PrefixLenBits id =? 0)%Z then []
  else pad8 (node_prefix id) ++ z2b (PrefixLenBits id - 1) :: replicate 8 Byte.xff.

(** ** Lemmas *)

Lemma fmt_16_16x_hexn z :
  fmt_16_16x z = (if (z <? 0)%Z then [Byte.x2d] else []) ++ hexn 16 (Z.abs z).
Proof. reflexivity. Qed.

Lemma length_hexn n z : length (hexn n z) = n.
Proof. induction n; simpl; auto. Qed.

Lemma b2z_hexdigit d :
  (0 ≤ d < 16)%Z → b2z (hexdigit d) = (if (d <? 10)%Z then 48 + d else 87 + d)%Z.
Proof. intros. unfold hexdigit. case_match; rewrite b2z_z2b_small; lia. Qed.

Lemma hexdigit_compare a b :
  (0 ≤ a < 16)%Z → (0 ≤ b < 16)%Z →
  (b2z (hexdigit a) ?= b2z (hexdigit b))%Z = (a ?= b)%Z.
Proof.
  intros. rewrite !b2z_hexdigit by done.
  destruct (Z.ltb_spec a 10), (Z.ltb_spec b 10);
    destruct (Z.compare_spec a b); subst;
    rewrite ?Z.compare_eq_iff, ?Z.compare_lt_iff, ?Z.compare_gt_iff; lia.
Qed.

Lemma hexn_step n z :
  (z `mod` 16 ^ Z.of_nat (S n) =
   ((z ≫ (4 * Z.of_nat n)) `mod` 16) * 16 ^ Z.of_nat n + z `mod` 16 ^ Z.of_nat n)%Z.
Proof.
  rewrite Z.shiftr_div_pow2 by lia.
  replace (2 ^ (4 * Z.of_nat n))%Z with (16 ^ Z.of_nat n)%Z
    by (rewrite Z.pow_mul_r by lia; done).
  rewrite Nat2Z.inj_succ, Z.pow_succ_r, (Z.mul_comm 16) by lia.
  rewrite Z.rem_mul_r; [lia|apply Z.pow_nonzero; lia|lia].
Qed.

Lemma bytes_Compare_hexn n x y :
  bytes_Compare (hexn n x) (hexn n y) =
  (x `mod` 16 ^ Z.of_nat n ?= y `mod` 16 ^ Z.of_nat n)%Z.
Proof.
  induction n as [|n IH]; [by rewrite !Z.mod_1_r|].
  simpl hexn. rewrite !hexn_step. simpl bytes_Compare.
  assert (0 < 16 ^ Z.of_nat n)%Z as Hp by (apply Z.pow_pos_nonneg; lia).
  pose proof (Z.mod_pos_bound x _ Hp). pose proof (Z.mod_pos_bound y _ Hp).
  set (a := (_ `mod` 16)%Z). set (b := ((y ≫ _) `mod` 16)%Z).
  rewrite hexdigit_compare, IH by (apply Z.mod_pos_bound; lia).
  destruct (Z.compare_spec a b) as [->|?|?].
  - destruct (Z.compare_spec (x `mod` 16 ^ Z.of_nat n) (y `mod` 16 ^ Z.of_nat n));
      symmetry; rewrite ?Z.compare_eq_iff, ?Z.compare_lt_iff, ?Z.compare_gt_iff; lia.
  - symmetry. apply Z.compare_lt_iff. nia.
  - symmetry. apply Z.compare_gt_iff. nia.
Qed.

Lemma hexn_inj16 x y :
  (0 ≤ x < 16 ^ 16)%Z → (0 ≤ y < 16 ^ 16)%Z → hexn 16 x = hexn 16 y → x = y.
Proof.
  intros Hx Hy E. apply bytes_Compare_eq in E.
  rewrite bytes_Compare_hexn, !Z.mod_small in E by done.
  by apply Z.compare_eq_iff.
Qed.

Lemma hexdigit_not_minus d : (0 ≤ d < 16)%Z → hexdigit d ≠ Byte.x2d.
Proof.
  intros Hd E. apply (f_equal b2z) in E. rewrite b2z_hexdigit in E by done.
  change (b2z Byte.x2d) with 45%Z in E. case_match; lia.
Qed.

Lemma fmt_16_16x_inj x y u v :
  int64 x → int64 y → fmt_16_16x x ++ u = fmt_16_16x y ++ v → x = y ∧ u = v.
Proof.
  unfold int64. intros Hx Hy. rewrite !fmt_16_16x_hexn.
  assert (∀ d, hexdigit (d `mod` 16) ≠ Byte.x2d) as Hm.
  { intros d. apply hexdigit_not_minus, Z.mod_pos_bound. lia. }
  destruct (Z.ltb_spec x 0), (Z.ltb_spec y 0); intros E.
  - apply (inj (cons _)) in E. apply app_inj_1 in E as [E ->]; [|done].
    apply hexn_inj16 in E; [split; [lia|done]|lia|lia].
  - exfalso. cbn in E. injection E as E _. by eapply Hm.
  - exfalso. cbn in E. injection E as E _. by eapply Hm.
  - apply app_inj_1 in E as [E ->]; [|done]. apply hexn_inj16 in E; [split; [lia|done]|lia|lia].
Qed.

(** ASCII record types take one byte. *)
Lemma keyPrefix_ascii typ t :
  (b2z typ < 128)%Z → keyPrefix typ t = typ :: fmt_16_16x t ++ [Byte.x3a].
Proof.
  intros. unfold keyPrefix, string_of_byte. destruct (Z.ltb_spec (b2z typ) 128); [done|lia].
Qed.

Lemma keyPrefix_inj typ typ' t t' u v :
  (b2z typ < 128)%Z → (b2z typ' < 128)%Z → int64 t → int64 t' →
  keyPrefix typ t ++ u = keyPrefix typ' t' ++ v → typ = typ' ∧ t = t' ∧ u = v.
Proof.
  intros H1 H2 Ht Ht'. rewrite !keyPrefix_ascii by done. simpl.
  intros E. injection E as -> E. rewrite <-!app_assoc in E.
  apply fmt_16_16x_inj in E as [-> E]; [|done..]. simpl in E. by simplify_eq.
Qed.

Lemma length_keyPrefix typ t :
  (b2z typ < 128)%Z → (0 ≤ t)%Z → length (keyPrefix typ t) = 18.
Proof.
  intros. rewrite keyPrefix_ascii, fmt_16_16x_hexn by done.
  destruct (Z.ltb_spec t 0); [lia|]. done.
Qed.

(** Prefixes of one record type are ordered as the tree ids are. *)
Lemma keyPrefix_lt typ t t' u v :
  (b2z typ < 128)%Z → (0 ≤ t < t')%Z → (t' < 2 ^ 63)%Z →
  blt (keyPrefix typ t ++ u) (keyPrefix typ t' ++ v).
Proof.
  intros. rewrite !keyPrefix_ascii by done.
  rewrite <-!app_comm_cons. apply blt_cons. right. split; [done|].
  rewrite !fmt_16_16x_hexn, <-!app_assoc.
  destruct (Z.ltb_spec t 0), (Z.ltb_spec t' 0); try lia.
  rewrite !app_nil_l, !Z.abs_eq by lia. unfold blt.
  rewrite bytes_Compare_app_same_len by done.
  rewrite bytes_Compare_hexn, !Z.mod_small by lia.
  by rewrite (proj2 (Z.compare_lt_iff t t')) by lia.
Qed.

(** What lies between two strings with a common prefix has that prefix. *)
Lemma between_prefix p a b k :
  ble (p ++ a) k → ble k (p ++ b) → ∃ c, k = p ++ c.
Proof.
  revert k. induction p as [|x p IH]; intros k H1 H2; [by exists k|].
  destruct k as [|y k]; [exfalso; by apply H1|].
  unfold ble in *. simpl in *.
  destruct (Z.compare_spec (b2z x) (b2z y)) as [E|E|E]; [|exfalso..].
  - apply b2z_inj in E as ->. rewrite Z.compare_refl in H2.
    destruct (IH k H1 H2) as [c ->]. by exists c.
  - apply H2. by rewrite (proj2 (Z.compare_gt_iff (b2z y) (b2z x))) by lia.
  - by apply H1.
Qed.

Lemma rowkeyLeaf_eq ts noise :
  rowkeyLeaf ts noise = be_bytes 8 ts ++
    match noise with
    | None => replicate 4 Byte.x00
    | Some rnd => take 4 (rnd ++ replicate 4 Byte.x00)
    end.
Proof. destruct noise; reflexivity. Qed.

Lemma length_rowkeyLeaf ts noise : length (rowkeyLeaf ts noise) = 12.
Proof.
  rewrite rowkeyLeaf_eq, length_app, length_be_bytes.
  destruct noise; [rewrite length_take, length_app|]; rewrite length_replicate; lia.
Qed.

Lemma length_pad8 p : length p ≤ 8 → length (pad8 p) = 8.
Proof. intros. unfold pad8. rewrite length_app, length_replicate. lia. Qed.

Lemma length_node_prefix id :
  valid_NodeID id →
  Z.of_nat (length (node_prefix id)) = (PrefixLenBits id `div` 8)%Z.
Proof.
  intros (H1 & H2 & H3). unfold node_prefix. rewrite length_take.
  assert (0 ≤ PrefixLenBits id `div` 8)%Z by (apply Z.div_pos; lia). lia.
Qed.

Lemma length_node_prefix_le id : valid_NodeID id → length (node_prefix id) ≤ 8.
Proof.
  intros H. pose proof (length_node_prefix id H). destruct H as (H1 & H2 & H3). lia.
Qed.

Lemma fold_rev_bytes rev (p : bytes) b :
  length p = 8 →
  fold_left (λ rowkey i, <[i + 9 := z2b (rev ≫ (56 - 8 * Z.of_nat i))]> rowkey)
    (seq 0 8) (p ++ b :: replicate 8 Byte.x00) = p ++ b :: be_bytes 8 rev.
Proof. intros. do 9 (destruct p as [|? p]; try done). Qed.

Lemma rowkeyNodeID_valid rev id :
  valid_NodeID id → rowkeyNodeID rev id = Ok (node_rowkey rev id).
Proof.
  intros Hv. pose proof Hv as ((H1 & H2) & H3 & H4 & H5).
  unfold rowkeyNodeID, gorem, godiv.
  rewrite Z.rem_mod_nonneg, Z.quot_div_nonneg, H3 by lia. cbn [negb Z.eqb].
  destruct (Z.ltb_spec (PrefixLenBits id) 0); [lia|].
  destruct (Z.ltb_spec 64 (PrefixLenBits id)); [lia|]. cbn [orb].
  destruct (Nat.ltb_spec 8 (length (Path id))); [lia|].
  assert (0 ≤ PrefixLenBits id `div` 8)%Z by (apply Z.div_pos; lia).
  destruct (Nat.ltb_spec (length (Path id)) (Z.to_nat (PrefixLenBits id `div` 8)));
    [lia|]. f_equal.
  change (take (Z.to_nat (PrefixLenBits id `div` 8)) (Path id)) with (node_prefix id).
  pose proof (length_node_prefix_le id Hv) as Hle.
  assert (copy_into (replicate 8 Byte.x00) (node_prefix id) = pad8 (node_prefix id)) as ->.
  { unfold copy_into, pad8. rewrite length_replicate, take_ge by lia.
    by rewrite drop_replicate. }
  unfold node_rowkey. rewrite <-(fold_rev_bytes rev) by by apply length_pad8.
  f_equal. rewrite insert_app_r_alt by (rewrite length_pad8; lia).
  by rewrite length_pad8 by lia.
Qed.

(** Outside the valid ids the code answers with an error or a panic. *)
Lemma rowkeyNodeID_Ok rev id k : rowkeyNodeID rev id = Ok k → valid_NodeID id.
Proof.
  unfold rowkeyNodeID, gorem, godiv, valid_NodeID. intros H.
  destruct (Z.eqb_spec (Z.rem (PrefixLenBits id) 8) 0) as [E|E]; [|done]; simpl in H.
  destruct (Z.ltb_spec (PrefixLenBits id) 0); [done|].
  destruct (Z.ltb_spec 64 (PrefixLenBits id)); [done|]; simpl in H.
  destruct (Nat.ltb_spec 8 (length (Path id))); [done|].
  destruct (Nat.ltb_spec (length (Path id)) (Z.to_nat (PrefixLenBits id ÷ 8))); [done|].
  rewrite Z.rem_mod_nonneg in E by lia. rewrite Z.quot_div_nonneg in * by lia. lia.
Qed.

Lemma rangeNodeID_valid rev id :
  valid_NodeID id →
  rangeNodeID rev id = Ok (node_rowkey rev id, range_stop id).
Proof.
  intros Hv. unfold rangeNodeID, range_stop. rewrite rowkeyNodeID_valid by done. simpl.
  pose proof (length_pad8 _ (length_node_prefix_le id Hv)) as Hl.
  destruct Hv as (H1 & H2 & _). unfold node_rowkey.
  set (p := pad8 (node_prefix id)) in *. clearbody p.
  do 9 (destruct p as [|? p]; try done). simpl.
  destruct (Z.eqb_spec (PrefixLenBits id) 0) as [E|E].
  - rewrite E. done.
  - rewrite bool_decide_eq_false_2.
    { rewrite b2z_z2b_small by lia. done. }
    intros E'. apply E. by rewrite <-(b2z_z2b_small (PrefixLenBits id)), E' by lia.
Qed.

(** Zero bytes come first among strings of their length. *)
Lemma ble_zeros n p : length p = n → ble (replicate n Byte.x00) p.
Proof.
  revert n. induction p as [|b p IH]; intros n <-; [done|].
  unfold ble. cbn [length replicate bytes_Compare].
  change (b2z Byte.x00) with 0%Z. pose proof (b2z_range b).
  destruct (Z.compare_spec 0 (b2z b)); [by apply IH|done|lia].
Qed.

Lemma ble_ffs p : length p = 8 → ble p (replicate 8 Byte.xff).
Proof.
  intros Hl. unfold ble. rewrite bytes_Compare_be_val by done.
  change (be_val (replicate 8 Byte.xff)) with (256 ^ 8 - 1)%Z.
  pose proof (be_val_range p) as H. rewrite Hl in H.
  apply Z.compare_le_iff. lia.
Qed.

Lemma pad8_node_prefix_inj id id' :
  valid_NodeID id → valid_NodeID id' → PrefixLenBits id = PrefixLenBits id' →
  pad8 (node_prefix id) = pad8 (node_prefix id') → node_prefix id = node_prefix id'.
Proof.
  intros Hv Hv' HL E. pose proof (length_node_prefix id Hv).
  pose proof (length_node_prefix id' Hv'). unfold pad8 in E.
  apply app_inj_1 in E as [? _]; [done|]. rewrite HL in *. lia.
Qed.

(** *** Varints *)

Lemma lor_shiftl_add x b s :
  (0 ≤ s)%Z → (0 ≤ x < 2 ^ s)%Z → (0 ≤ b)%Z → Z.lor x (b ≪ s) = (x + b * 2 ^ s)%Z.
Proof.
  intros Hs Hx Hb. rewrite <-Z.shiftl_mul_pow2 by done.
  symmetry. rewrite Z.add_nocarry_lxor, Z.lxor_lor; [done| |];
    (apply Z.bits_inj'; intros n Hn; rewrite Z.land_spec, Z.bits_0;
     destruct (decide (n < s)%Z);
     [rewrite (Z.shiftl_spec_low b) by lia; apply andb_false_r|];
     replace x with (x `mod` 2 ^ s)%Z by (apply Z.mod_small; lia);
     rewrite Z.mod_pow2_bits_high by lia; apply andb_false_l).
Qed.

Lemma PutUvarint_length cap x bs :
  PutUvarint cap x = Ok bs → 1 ≤ length bs ≤ cap.
Proof.
  revert x bs. induction cap as [|cap IH]; intros x bs H; [done|]. simpl in H.
  case_match; [by simplify_eq/=; lia|].
  unfold_O. destruct (PutUvarint cap (x ≫ 7)) as [rest| |] eqn:E; simplify_eq/=.
  apply IH in E. lia.
Qed.

(** It fits in [cap] bytes when [x < 2 ^ (7 * cap)]; otherwise it panics. *)
Lemma PutUvarint_fits cap x :
  (0 ≤ x)%Z →
  (∃ bs, PutUvarint cap x = Ok bs) ∧ (x < 2 ^ (7 * Z.of_nat cap) ∧ cap ≠ 0%nat)%Z ∨
  PutUvarint cap x = Panic ∧ (cap = 0%nat ∨ 2 ^ (7 * Z.of_nat cap) ≤ x)%Z.
Proof.
  revert x. induction cap as [|cap IH]; intros x Hx; [right; by split; [|left]|].
  simpl PutUvarint. destruct (Z.ltb_spec x 128).
  { left. split; [by eexists|]. split; [|done].
    change 128%Z with (2 ^ 7)%Z in *.
    eapply Z.lt_le_trans; [done|]. apply Z.pow_le_mono_r; lia. }
  replace (7 * Z.of_nat (S cap))%Z with (7 * Z.of_nat cap + 7)%Z by lia.
  rewrite Z.pow_add_r by lia. change (2 ^ 7)%Z with 128%Z.
  assert (0 ≤ x ≫ 7)%Z as Hx7 by (by apply Z.shiftr_nonneg).
  pose proof (Z.shiftr_div_pow2 x 7 ltac:(lia)) as Hdiv. change (2 ^ 7)%Z with 128%Z in Hdiv.
  pose proof (Z.div_mod x 128). pose proof (Z.mod_pos_bound x 128).
  destruct (IH (x ≫ 7)%Z Hx7) as [[[bs ->] [Hb Hc]]|[-> Hb]].
  - left. split; [by eexists|]. split; [|done]. nia.
  - right. split; [done|]. right. destruct Hb as [->|Hb]; [simpl; lia|nia].
Qed.

Lemma Uvarint_PutUvarint cap u bs i x rest :
  (0 ≤ u)%Z → PutUvarint cap u = Ok bs → (0 ≤ i)%Z → (i + Z.of_nat cap ≤ 9)%Z →
  (0 ≤ x < 2 ^ (7 * i))%Z →
  Uvarint_loop (bs ++ rest) i x (7 * i) =
    (x + u * 2 ^ (7 * i), i + Z.of_nat (length bs))%Z.
Proof.
  revert u bs i x. induction cap as [|cap IH]; intros u bs i x Hu Hp Hi Hcap Hx; [done|].
  simpl in Hp. destruct (Z.ltb_spec u 128).
  { simplify_eq/=. rewrite b2z_z2b_small by lia.
    destruct (Z.ltb_spec u 128); [|lia].
    destruct (Z.ltb_spec 9 i); [lia|]. destruct (Z.eqb_spec i 9); [lia|]. simpl.
    unfold wrapU64. rewrite Z.mod_small.
    - by rewrite lor_shiftl_add by lia.
    - rewrite Z.shiftl_mul_pow2 by lia. split; [lia|].
      apply (Z.lt_le_trans _ (2 ^ 7 * 2 ^ (7 * i))).
      + apply Z.mul_lt_mono_pos_r; lia.
      + rewrite <-Z.pow_add_r by lia. apply Z.pow_le_mono_r; lia. }
  unfold_O. destruct (PutUvarint cap (u ≫ 7)) as [bs'| |] eqn:E; simplify_eq/=.
  pose proof (PutUvarint_length _ _ _ E).
  set (b := Z.lor (u `mod` 256) 128).
  assert (b = 128 + u `mod` 128)%Z as Hb.
  { unfold b. apply Z.bits_inj'. intros n Hn. rewrite Z.lor_spec.
    pose proof (Z.mod_pos_bound u 128 ltac:(lia)) as Hm.
    replace (128 + u `mod` 128)%Z with (Z.lor (u `mod` 2 ^ 7) (1 ≪ 7))
      by (change (2 ^ 7)%Z with 128%Z; rewrite lor_shiftl_add; lia).
    rewrite Z.lor_spec. change 256%Z with (2 ^ 8)%Z. change 128%Z with (1 ≪ 7)%Z.
    destruct (decide (n < 7)%Z).
    - by rewrite !Z.mod_pow2_bits_low by lia.
    - rewrite (Z.mod_pow2_bits_high _ 7) by lia. destruct (decide (n = 7%Z)) as [->|].
      + rewrite orb_comm. reflexivity.
      + by rewrite (Z.mod_pow2_bits_high _ 8) by lia. }
  pose proof (Z.mod_pos_bound u 128). rewrite b2z_z2b_small by lia.
  destruct (Z.ltb_spec b 128); [lia|].
  assert (Z.land b 127 = u `mod` 128)%Z as ->.
  { rewrite Hb. change 127%Z with (Z.ones 7). rewrite Z.land_ones by lia.
    change (2 ^ 7)%Z with 128%Z. rewrite Z.add_mod, Z.mod_same by lia.
    rewrite Z.add_0_l, !Z.mod_mod by lia. done. }
  assert (wrapU64 (u `mod` 128 ≪ (7 * i)) = (u `mod` 128 ≪ (7 * i)))%Z as ->.
  { unfold wrapU64. apply Z.mod_small. rewrite Z.shiftl_mul_pow2 by lia. split; [nia|].
    apply (Z.lt_le_trans _ (2 ^ 7 * 2 ^ (7 * i))).
    - apply Z.mul_lt_mono_pos_r; lia.
    - rewrite <-Z.pow_add_r by lia. apply Z.pow_le_mono_r; lia. }
  rewrite lor_shiftl_add by lia. replace (7 * i + 7)%Z with (7 * (i + 1))%Z by lia.
  pose proof (Z.shiftr_div_pow2 u 7 ltac:(lia)) as Hdiv. change (2 ^ 7)%Z with 128%Z in Hdiv.
  pose proof (Z.div_mod u 128). assert (0 < 2 ^ (7 * i))%Z by (apply Z.pow_pos_nonneg; lia).
  assert (2 ^ (7 * (i + 1)) = 128 * 2 ^ (7 * i))%Z as Hp2.
  { replace (7 * (i + 1))%Z with (7 + 7 * i)%Z by lia. by rewrite Z.pow_add_r by lia. }
  rewrite (IH (u ≫ 7)%Z bs'); [|apply Z.shiftr_nonneg; lia|done|lia|lia|nia].
  f_equal; [|lia]. rewrite Hp2, Hdiv. nia.
Qed.

(** The unsigned image of a signed number that [PutVarint] writes. *)
Definition zigzag (x : Z) : Z := if (x <? 0)%Z then (- 2 * x - 1)%Z else (2 * x)%Z.

Lemma zigzag_range x : int64 x → (0 ≤ zigzag x < 2 ^ 64)%Z.
Proof. unfold int64, zigzag. intros. case_match; lia. Qed.

Lemma PutVarint_zigzag cap x :
  int64 x → PutVarint cap x = PutUvarint cap (zigzag x).
Proof.
  unfold int64, PutVarint, zigzag, wrapU64. intros Hx. f_equal.
  rewrite Z.shiftl_mul_pow2 by lia. change (2 ^ 1)%Z with 2%Z.
  destruct (Z.ltb_spec x 0).
  - assert (x `mod` 2 ^ 64 = x + 2 ^ 64)%Z as ->.
    { rewrite <-(Z.mod_add x 1 (2 ^ 64)) by lia. apply Z.mod_small. lia. }
    replace ((x + 2 ^ 64) * 2)%Z with (2 * x + 2 ^ 64 + 1 * 2 ^ 64)%Z by lia.
    rewrite Z.mod_add by lia. rewrite Z.mod_small by lia. lia.
  - rewrite (Z.mod_small x), Z.mod_small; lia.
Qed.

Lemma decodeSeq_zigzag x raw :
  int64 x → PutUvarint 8 (zigzag x) = Ok raw → decodeSeq raw = Ok x.
Proof.
  intros Hx Hp. pose proof (zigzag_range x Hx).
  unfold decodeSeq, Varint.
  pose proof (Uvarint_PutUvarint 8 (zigzag x) raw 0 0 [] ltac:(lia) Hp) as H1.
  rewrite app_nil_r in H1. change (7 * 0)%Z with 0%Z in H1.
  rewrite H1 by (simpl; lia). simpl Z.pow. rewrite Z.mul_1_r, !Z.add_0_l.
  rewrite Z.eqb_refl. simpl. f_equal.
  rewrite Z.shiftr_div_pow2 by lia. change (2 ^ 1)%Z with 2%Z.
  unfold zigzag, int64 in *. destruct (Z.ltb_spec x 0).
  - replace (- 2 * x - 1)%Z with (2 * (- x - 1) + 1)%Z by lia.
    rewrite (proj2 (Z.odd_spec _)) by by eexists.
    rewrite <-(Z.div_unique (2 * (- x - 1) + 1) 2 (- x - 1) 1) by lia.
    rewrite wrap64_small by (unfold int64; lia). lia.
  - rewrite Z.odd_mul. simpl.
    rewrite Z.mul_comm, Z.div_mul by lia. by rewrite wrap64_small by (unfold int64; lia).
Qed.

(** *** Order of subtree row keys *)

Lemma rangeNodeID_Ok rev id r : rangeNodeID rev id = Ok r → valid_NodeID id.
Proof.
  unfold rangeNodeID. unfold_O. destruct (rowkeyNodeID rev id) eqn:E; try done.
  intros _. by eapply rowkeyNodeID_Ok.
Qed.

Lemma bytes_Compare_len_byte L L' c d :
  (0 ≤ L ≤ 64)%Z → (0 ≤ L' ≤ 64)%Z →
  bytes_Compare (z2b L :: c) (z2b L' :: d) =
  match (L ?= L')%Z with Eq => bytes_Compare c d | o => o end.
Proof. intros. simpl. by rewrite !b2z_z2b_small by lia. Qed.

Lemma node_rowkey_ble rev rev' id id' :
  (0 ≤ rev < 2 ^ 63)%Z → (0 ≤ rev' < 2 ^ 63)%Z → valid_NodeID id → valid_NodeID id' →
  ble (node_rowkey rev' id') (node_rowkey rev id) ↔
  match bytes_Compare (pad8 (node_prefix id')) (pad8 (node_prefix id)) with
  | Eq => (PrefixLenBits id' < PrefixLenBits id)%Z ∨
          PrefixLenBits id' = PrefixLenBits id ∧ (rev' ≤ rev)%Z
  | Lt => True | Gt => False
  end.
Proof.
  intros Hr Hr' Hv Hv'. unfold ble, node_rowkey.
  rewrite bytes_Compare_app_same_len
    by (rewrite !length_pad8; auto using length_node_prefix_le).
  rewrite bytes_Compare_len_byte by (apply Hv || apply Hv').
  rewrite bytes_Compare_be_bytes by lia.
  destruct (bytes_Compare (pad8 _) _); [|naive_solver..].
  destruct (Z.compare_spec (PrefixLenBits id') (PrefixLenBits id));
    [rewrite Z.compare_le_iff| |]; split; try naive_solver lia.
Qed.

Lemma stop_blt rev id id' :
  valid_NodeID id → valid_NodeID id' →
  blt (range_stop id) (node_rowkey rev id') ↔
  match bytes_Compare (pad8 (node_prefix id')) (pad8 (node_prefix id)) with
  | Eq => (PrefixLenBits id ≤ PrefixLenBits id')%Z
  | Lt => PrefixLenBits id = 0%Z
  | Gt => True
  end.
Proof.
  intros Hv Hv'. assert (0 ≤ PrefixLenBits id' ≤ 64)%Z as HL' by apply Hv'.
  assert (0 ≤ PrefixLenBits id ≤ 64)%Z as HL by apply Hv.
  rewrite (bytes_Compare_antisym (pad8 (node_prefix id))). unfold range_stop.
  destruct (Z.eqb_spec (PrefixLenBits id) 0) as [E|E].
  { assert (blt [] (node_rowkey rev id'))
      by (unfold blt, node_rowkey; destruct (pad8 _); reflexivity).
    destruct (bytes_Compare _ _); cbn [CompOpp]; split; intros; first [done|lia]. }
  unfold blt, node_rowkey.
  rewrite bytes_Compare_app_same_len
    by (rewrite !length_pad8; auto using length_node_prefix_le).
  rewrite bytes_Compare_len_byte by lia.
  destruct (bytes_Compare (pad8 _) _); cbn [CompOpp]; try (split; intros; first [done|lia]).
  destruct (Z.compare_spec (PrefixLenBits id - 1) (PrefixLenBits id'));
    [|split; intros; first [done|lia]..].
  split; [|lia]. intros Hff. exfalso.
  apply (ble_ffs (be_bytes 8 rev)); [done|]. by rewrite bytes_Compare_antisym, Hff.
Qed.

(** A row key of [id'] is above [stop] and not above [start] exactly when it
    is a revision of [id] up to [rev]. *)
Lemma node_rowkey_in_range rev rev' id id' :
  (0 ≤ rev < 2 ^ 63)%Z → (0 ≤ rev' < 2 ^ 63)%Z → valid_NodeID id → valid_NodeID id' →
  (blt (range_stop id) (node_rowkey rev' id') ∧
   ble (node_rowkey rev' id') (node_rowkey rev id)) ↔
  (node_prefix id' = node_prefix id ∧ PrefixLenBits id' = PrefixLenBits id ∧
   (rev' ≤ rev)%Z).
Proof.
  intros Hr Hr' Hv Hv'. rewrite node_rowkey_ble, stop_blt by done.
  destruct (bytes_Compare (pad8 (node_prefix id')) (pad8 (node_prefix id))) eqn:E.
  - apply bytes_Compare_eq in E. split; [|lia].
    intros [? [?|[? ?]]]; [lia|]. split; [|lia]. by apply pad8_node_prefix_inj.
  - split; [|intros (Hp & _); by rewrite Hp, bytes_Compare_refl in E].
    intros [H0 _]. exfalso. pose proof (length_node_prefix id Hv) as Hn. rewrite H0 in Hn.
    destruct (node_prefix id) eqn:En; [|done].
    apply (ble_zeros 8 (pad8 (node_prefix id'))); [by apply length_pad8, length_node_prefix_le|].
    rewrite bytes_Compare_antisym. change (pad8 []) with (replicate 8 Byte.x00) in E. by rewrite E.
  - split; [by intros [_ ?]|]. intros (Hp & _). by rewrite Hp, bytes_Compare_refl in E.
Qed.

(** ** Properties *)

(** Records never collide: a key determines its record type, its tree and
    its row key, for every int64 tree id, negative ones included. *)
Theorem keyB_inj typ typ' t t' v v' :
  (b2z typ < 128)%Z → (b2z typ' < 128)%Z → int64 t → int64 t' →
  keyB typ t v = keyB typ' t' v' → typ = typ' ∧ t = t' ∧ v = v'.
Proof. apply keyPrefix_inj. Qed.

Lemma keyB_inj_witness :
  (b2z typ_l < 128)%Z ∧ int64 (-1) ∧
  (keyB typ_l (-1) [Byte.x00] = keyB typ_l (-1) [Byte.x00] →
   typ_l = typ_l ∧ (-1 = -1)%Z ∧ [Byte.x00] = [Byte.x00]).
Proof.
  split; [reflexivity|]. split; [unfold int64; lia|].
  apply keyB_inj; first [reflexivity | unfold int64; lia].
Defined.

(** The queue is ordered by time: of two queued leaves of a log, the one
    with the smaller timestamp has the smaller key, whatever the noise. *)
Theorem rowkeyLeaf_order t ts ts' noise noise' :
  (0 ≤ ts)%Z → (ts < ts')%Z → (ts' < 2 ^ 63)%Z →
  blt (keyB typ_l t (rowkeyLeaf ts noise)) (keyB typ_l t (rowkeyLeaf ts' noise')).
Proof.
  intros. unfold keyB. rewrite blt_app, !rowkeyLeaf_eq. unfold blt.
  rewrite bytes_Compare_app_same_len by by rewrite !length_be_bytes.
  rewrite bytes_Compare_be_bytes by lia.
  by rewrite (proj2 (Z.compare_lt_iff ts ts')) by lia.
Qed.

Lemma rowkeyLeaf_order_witness :
  (0 ≤ 255)%Z ∧ (255 < 256)%Z ∧ (256 < 2 ^ 63)%Z ∧
  blt (keyB typ_l 1 (rowkeyLeaf 255 (Some (replicate 4 Byte.xff))))
      (keyB typ_l 1 (rowkeyLeaf 256 None)).
Proof. do 3 (split; [lia|]). by apply rowkeyLeaf_order. Defined.

(** A range delimits the revisions of one node: a subtree row key lies
    above [stop] and not above [start] exactly when it belongs to the same
    node and its revision is at most the one asked for. *)
Theorem rangeNodeID_exact rev rev' id id' start stop k :
  (0 ≤ rev < 2 ^ 63)%Z → (0 ≤ rev' < 2 ^ 63)%Z →
  rangeNodeID rev id = Ok (start, stop) → rowkeyNodeID rev' id' = Ok k →
  (blt stop k ∧ ble k start) ↔
  (node_prefix id' = node_prefix id ∧ PrefixLenBits id' = PrefixLenBits id ∧
   (rev' ≤ rev)%Z).
Proof.
  intros Hr Hr' Hrange Hk. pose proof (rowkeyNodeID_Ok _ _ _ Hk) as Hv'.
  pose proof (rangeNodeID_Ok _ _ _ Hrange) as Hv.
  rewrite rangeNodeID_valid in Hrange by done. rewrite rowkeyNodeID_valid in Hk by done.
  simplify_eq. by apply node_rowkey_in_range.
Qed.

Lemma rangeNodeID_exact_witness :
  let id := mkNodeID [Byte.x00; Byte.x07] 16 in
  let start := node_rowkey 5 id in
  let stop := pad8 (node_prefix id) ++ z2b 15 :: replicate 8 Byte.xff in
  rangeNodeID 5 id = Ok (start, stop) ∧ rowkeyNodeID 3 id = Ok (node_rowkey 3 id) ∧
  ((blt stop (node_rowkey 3 id) ∧ ble (node_rowkey 3 id) start) ↔
   (node_prefix id = node_prefix id ∧ PrefixLenBits id = PrefixLenBits id ∧ (3 ≤ 5)%Z)).
Proof.
  split; [reflexivity|]. split; [reflexivity|].
  apply rangeNodeID_exact; try lia; reflexivity.
Defined.

(** C39. The stored form of a sequence number: every number below [2^55] (in
    absolute value) is written within the eight bytes and read back; from
    [2^55] on, writing it panics. *)
Theorem encodeSeq_roundtrip seq :
  int64 seq →
  ((- 2 ^ 55 ≤ seq < 2 ^ 55)%Z →
     ∃ raw, encodeSeq seq = Ok raw ∧ decodeSeq raw = Ok seq) ∧
  (~ (- 2 ^ 55 ≤ seq < 2 ^ 55)%Z → encodeSeq seq = Panic).
Proof.
  intros H64. pose proof (zigzag_range seq H64) as Hz.
  unfold encodeSeq. rewrite PutVarint_zigzag by done.
  destruct (PutUvarint_fits 8 (zigzag seq)) as [[[raw Hraw] [Hb _]]|[HP Hb]]; [lia| |].
  - split; [intros _; exists raw; split; [done|]|intros Hn; exfalso; apply Hn;
      unfold zigzag in Hb; case_match; lia].
    by eapply decodeSeq_zigzag.
  - split; [|done]. intros Hs. exfalso. destruct Hb as [?|Hb]; [done|].
    unfold zigzag in Hb. case_match; lia.
Qed.

Lemma encodeSeq_roundtrip_witness :
  int64 700 ∧
  (((- 2 ^ 55 ≤ 700 < 2 ^ 55)%Z →
     ∃ raw, encodeSeq 700 = Ok raw ∧ decodeSeq raw = Ok 700%Z) ∧
   (~ (- 2 ^ 55 ≤ 700 < 2 ^ 55)%Z → encodeSeq 700 = Panic)).
Proof. split; [unfold int64; lia|]. apply encodeSeq_roundtrip. unfold int64; lia. Defined.
