(* ===== verification/Trillian.v ===== *)
(** * The Trillian data that the storage layer handles

    Records for the messages of src/vendor/github.com/google/trillian that
    ct-log stores and returns, the TLS form of a log root (types/logroot.go),
    and the interface of the serializers: protobuf, JSON and gob are used
    through [Codec], whose law is the round trip the code relies on. *)

From S2P Require Import Prelude.

(** ** Messages *)

(** [timestamp.Timestamp]: seconds and nanoseconds. *)
Abbreviation Timestamp := (Z * Z)%type.

Record LogLeaf := mkLogLeaf {
  MerkleLeafHash : slice;
  LeafValue : slice;
  ExtraData : slice;
  LeafIndex : Z;
  LeafIdentityHash : slice;
  QueueTimestamp : option Timestamp;
  IntegrateTimestamp : option Timestamp
}.

Record SignedLogRoot := mkSignedLogRoot {
  TimestampNanos : Z;
  RootHash : slice;
  TreeSize : Z;
  TreeRevision : Z;
  KeyHint : slice;
  LogRoot : slice;
  LogRootSignature : slice
}.

(** [trillian.SignedLogRoot{}] *)
Definition zeroSignedLogRoot : SignedLogRoot := mkSignedLogRoot 0 None 0 0 None None None.

Record SubtreeProto := mkSubtreeProto {
  Prefix : slice;
  Depth : Z;
  SubtreeRootHash : slice;
  Leaves : gmap string bytes;
  InternalNodes : gmap string bytes;
  InternalNodeCount : Z
}.

#[global] Instance LogLeaf_eq_dec : EqDecision LogLeaf.
Proof. solve_decision. Defined.
#[global] Instance SignedLogRoot_eq_dec : EqDecision SignedLogRoot.
Proof. solve_decision. Defined.
#[global] Instance SubtreeProto_eq_dec : EqDecision SubtreeProto.
Proof. solve_decision. Defined.

Definition with_LeafIndex (i : Z) (l : LogLeaf) : LogLeaf :=
  mkLogLeaf (MerkleLeafHash l) (LeafValue l) (ExtraData l) i (LeafIdentityHash l)
    (QueueTimestamp l) (IntegrateTimestamp l).

(** ** Serializers *)

(** A serializer for [A]; [canon] is what a round trip makes of a value (the
    wire formats do not tell an empty byte slice from nil). *)
Class Codec (A : Type) := {
  marshal : A → outcome bytes;
  unmarshal : bytes → outcome A;
  canon : A → A
}.

Class CodecLaws (A : Type) `{Codec A} : Prop := {
  marshal_no_panic a : marshal a ≠ Panic;
  unmarshal_no_panic b : unmarshal b ≠ Panic;
  unmarshal_marshal a b : marshal a = Ok b → unmarshal b = Ok (canon a);
  canon_idemp a : canon (canon a) = canon a
}.

(** A serializer that any countable type has: the law is satisfiable. *)
Fixpoint pos_bytes (p : positive) : bytes :=
  match p with
  | xH => []
  | xO p' => Byte.x00 :: pos_bytes p'
  | xI p' => Byte.x01 :: pos_bytes p'
  end.

Fixpoint bytes_pos (b : bytes) : positive :=
  match b with
  | [] => xH
  | Byte.x00 :: b' => xO (bytes_pos b')
  | _ :: b' => xI (bytes_pos b')
  end.

Definition countableCodec (A : Type) `{Countable A} : Codec A := {|
  marshal a := Ok (pos_bytes (encode a));
  unmarshal b := match decode (bytes_pos b) with Some a => Ok a | None => Err ErrDecode end;
  canon a := a
|}.

#[global] Program Instance LogLeaf_countable : Countable LogLeaf :=
  inj_countable' (λ l, (MerkleLeafHash l, LeafValue l, ExtraData l, LeafIndex l,
    LeafIdentityHash l, QueueTimestamp l, IntegrateTimestamp l))
    (λ '(a, b, c, d, e, f, g), mkLogLeaf a b c d e f g) _.
Next Obligation. by intros []. Qed.

#[global] Program Instance SubtreeProto_countable : Countable SubtreeProto :=
  inj_countable' (λ s, (Prefix s, Depth s, SubtreeRootHash s, Leaves s,
    InternalNodes s, InternalNodeCount s))
    (λ '(a, b, c, d, e, f), mkSubtreeProto a b c d e f) _.
Next Obligation. by intros []. Qed.

(** ** Log roots in TLS form *)

Module LogRootV1.
Record t := mk {
  TreeSize : Z;
  RootHash : bytes;
  TimestampNanos : Z;
  Revision : Z;
  Metadata : bytes
}.

(** The fields that [tls.Marshal] reads from the type: unsigned integers of
    [n] bytes, and vectors whose length takes [n] bytes and is bounded. *)
Definition read_uint (n : nat) (bs : bytes) : outcome (Z * bytes) :=
  if length bs <? n then Err (Errorf "truncated integer")
  else Ok (be_val (take n bs), drop n bs).

Definition read_vec (n : nat) (maxlen : Z) (bs : bytes) : outcome (bytes * bytes) :=
  '(varlen, rest) ← read_uint n bs;
  if (maxlen <? varlen)%Z then Err (Errorf "value %d too large for maximum %d")
  else if (Z.of_nat (length rest) <? varlen)%Z then Err (Errorf "truncated slice")
  else Ok (take (Z.to_nat varlen) rest, drop (Z.to_nat varlen) rest).

Definition write_vec (n : nat) (maxlen : Z) (v : bytes) : outcome bytes :=
  if (maxlen <? Z.of_nat (length v))%Z
  then Err (Errorf "value %d too large for maximum %d")
  else Ok (be_bytes n (Z.of_nat (length v)) ++ v).

Definition version_V1 : Z := 1.

(** [MarshalBinary] *)
Definition MarshalBinary (l : t) : outcome bytes :=
  hash ← write_vec 1 128 (RootHash l);
  meta ← write_vec 2 65535 (Metadata l);
  mret (be_bytes 2 version_V1 ++ be_bytes 8 (TreeSize l) ++ hash ++
        be_bytes 8 (TimestampNanos l) ++ be_bytes 8 (Revision l) ++ meta).

(** [UnmarshalBinary]: trailing bytes are ignored. *)
Definition UnmarshalBinary (b : bytes) : outcome t :=
  if length b <? 3 then Err (Errorf "logRootBytes too short")
  else if negb (be_val (take 2 b) =? version_V1)%Z
  then Err (Errorf "invalid LogRoot.Version: %v, want %v")
  else
    '(_, b) ← read_uint 2 b;
    '(treeSize, b) ← read_uint 8 b;
    '(rootHash, b) ← read_vec 1 128 b;
    '(timestampNanos, b) ← read_uint 8 b;
    '(revision, b) ← read_uint 8 b;
    '(metadata, _) ← read_vec 2 65535 b;
    mret (mk treeSize rootHash timestampNanos revision metadata).

(** Values of the Go struct: the integers are uint64. *)
Definition wf (l : t) : Prop :=
  (0 ≤ TreeSize l < 2 ^ 64 ∧ 0 ≤ TimestampNanos l < 2 ^ 64 ∧
   0 ≤ Revision l < 2 ^ 64)%Z.
End LogRootV1.

(** [SerializeKeyHint]: the log id as a big-endian uint64. *)
Definition SerializeKeyHint (logID : Z) : bytes := be_bytes 8 logID.

(** [ParseKeyHint] *)
Definition ParseKeyHint (hint : bytes) : outcome Z :=
  if negb (length hint =? 8)%nat then Err (Errorf "hint is %v bytes, want %v")
  else
    let keyID := wrap64 (be_val hint) in
    if (keyID <? 0)%Z then Err (Errorf "hint %x is negative") else Ok keyID.

(** ** Lemmas *)

Lemma bytes_pos_bytes p : bytes_pos (pos_bytes p) = p.
Proof. induction p; simpl; by f_equal. Qed.

Lemma countableCodec_laws A `{Countable A} : @CodecLaws A (countableCodec A).
Proof.
  split; simpl; [done| |intros a b [= <-]|done].
  - intros b. by destruct (decode _).
  - by rewrite bytes_pos_bytes, decode_encode.
Qed.

Module LogRootV1Facts.
Import LogRootV1.

Lemma read_uint_app n z rest :
  (0 ≤ z < 256 ^ Z.of_nat n)%Z → read_uint n (be_bytes n z ++ rest) = Ok (z, rest).
Proof.
  intros Hz. unfold read_uint. rewrite length_app, length_be_bytes.
  destruct (Nat.ltb_spec (n + length rest) n); [lia|].
  rewrite take_app_length', drop_app_length' by by rewrite length_be_bytes.
  by rewrite be_val_be_bytes, Z.mod_small.
Qed.

Lemma read_vec_write_vec n maxlen v bs rest :
  (maxlen < 256 ^ Z.of_nat n)%Z → write_vec n maxlen v = Ok bs →
  read_vec n maxlen (bs ++ rest) = Ok (v, rest).
Proof.
  unfold write_vec, read_vec. unfold_O. intros Hm.
  destruct (Z.ltb_spec maxlen (Z.of_nat (length v))); [done|]. intros [= <-].
  rewrite <-app_assoc, read_uint_app by lia.
  destruct (Z.ltb_spec maxlen (Z.of_nat (length v))); [lia|].
  rewrite length_app.
  destruct (Z.ltb_spec (Z.of_nat (length v + length rest)) (Z.of_nat (length v))); [lia|].
  by rewrite Nat2Z.id, take_app_length, drop_app_length.
Qed.
End LogRootV1Facts.

(** Reading back a marshalled log root. *)
Lemma LogRootV1_read_back l rest :
  LogRootV1.wf l →
  match LogRootV1.MarshalBinary l with
  | Ok b => LogRootV1.UnmarshalBinary (b ++ rest) = Ok l
  | Err _ => (128 < Z.of_nat (length (LogRootV1.RootHash l)) ∨
              65535 < Z.of_nat (length (LogRootV1.Metadata l)))%Z
  | Panic => False
  end.
Proof.
  intros (H1 & H2 & H3). unfold LogRootV1.MarshalBinary. unfold_O.
  destruct (LogRootV1.write_vec 1 128 _) as [hash|e|] eqn:Eh.
  2,3: unfold LogRootV1.write_vec in Eh; case_match eqn:El; try done;
       left; by apply Z.ltb_lt.
  destruct (LogRootV1.write_vec 2 65535 _) as [meta|e|] eqn:Em.
  2,3: unfold LogRootV1.write_vec in Em; case_match eqn:El; try done;
       right; by apply Z.ltb_lt.
  unfold LogRootV1.UnmarshalBinary. rewrite <-!app_assoc.
  rewrite length_app, length_be_bytes, length_app, length_be_bytes. simpl (_ <? 3).
  rewrite take_app_length' by done.
  change (be_val (be_bytes 2 LogRootV1.version_V1)) with LogRootV1.version_V1.
  rewrite Z.eqb_refl. cbn [negb]. unfold_O.
  rewrite LogRootV1Facts.read_uint_app by done.
  rewrite LogRootV1Facts.read_uint_app by done.
  rewrite (LogRootV1Facts.read_vec_write_vec 1 128 _ _ _ eq_refl Eh).
  rewrite LogRootV1Facts.read_uint_app by done.
  rewrite LogRootV1Facts.read_uint_app by done.
  rewrite (LogRootV1Facts.read_vec_write_vec 2 65535 _ _ _ eq_refl Em).
  by destruct l.
Qed.

(** ** Properties *)

(** C40. A log root written in TLS form is read back unchanged, whatever follows
    it, and is refused only when its hash or metadata exceeds the bounds. *)
Theorem LogRootV1_roundtrip l rest :
  LogRootV1.wf l →
  match LogRootV1.MarshalBinary l with
  | Ok b => LogRootV1.UnmarshalBinary (b ++ rest) = Ok l
  | Err _ => (128 < Z.of_nat (length (LogRootV1.RootHash l)) ∨
              65535 < Z.of_nat (length (LogRootV1.Metadata l)))%Z
  | Panic => False
  end.
Proof. apply LogRootV1_read_back. Qed.

Lemma LogRootV1_roundtrip_witness :
  let l := LogRootV1.mk 5 [Byte.x0a; Byte.x0b] 77 3 [] in
  LogRootV1.wf l ∧
  match LogRootV1.MarshalBinary l with
  | Ok b => LogRootV1.UnmarshalBinary (b ++ [Byte.x00]) = Ok l
  | Err _ => (128 < Z.of_nat (length (LogRootV1.RootHash l)) ∨
              65535 < Z.of_nat (length (LogRootV1.Metadata l)))%Z
  | Panic => False
  end.
Proof.
  assert (LogRootV1.wf (LogRootV1.mk 5 [Byte.x0a; Byte.x0b] 77 3 [])) as H
    by (unfold LogRootV1.wf; simpl; lia).
  split; [exact H|]. apply LogRootV1_roundtrip. exact H.
Defined.
