(* ===== verification/LevelDB.v ===== *)
(** * The local key-value store

    The part of goleveldb (src/vendor/github.com/syndtr/goleveldb) that
    ct-log's [Local] uses, by its documented contract: a map from byte strings
    to byte strings, iterated in the order of [bytes.Compare], changed by
    atomic batches.  A store also carries the faults its next calls will meet,
    so that every error path of the callers is exercised. *)

From S2P Require Import Prelude.

Abbreviation kvmap := (gmap bytes bytes).

(** ** Batches *)

Inductive batchOp :=
  | BPut (k v : bytes)
  | BDelete (k : bytes).

#[global] Instance batchOp_eq_dec : EqDecision batchOp.
Proof. solve_decision. Defined.

(** Operations in the order they were recorded. *)
Abbreviation Batch := (list batchOp).

Definition apply_op (m : kvmap) (o : batchOp) : kvmap :=
  match o with
  | BPut k v => <[k:=v]> m
  | BDelete k => delete k m
  end.

Definition apply_batch (m : kvmap) (b : Batch) : kvmap := fold_left apply_op b m.

Definition op_key (o : batchOp) : bytes :=
  match o with BPut k _ => k | BDelete k => k end.

(** ** Ordered iteration *)

Definition key_le (p q : bytes * bytes) : Prop := ble p.1 q.1.
#[global] Instance key_le_dec : RelDecision key_le.
Proof. intros p q. unfold key_le. apply _. Defined.

Definition entries (m : kvmap) : list (bytes * bytes) :=
  merge_sort key_le (map_to_list m).

(** What an iterator over [util.Range{Start, Limit}] visits. *)
Definition range_entries (m : kvmap) (start limit : bytes) : list (bytes * bytes) :=
  filter (λ p, ble start p.1 ∧ blt p.1 limit) (entries m).

(** Iterator positions over [es], the entries of a snapshot. *)
Definition iter_Seek (es : list (bytes * bytes)) (k : bytes) : option nat :=
  fst <$> list_find (λ p, ble k p.1) es.
Definition iter_Prev (i : nat) : option nat :=
  match i with O => None | S j => Some j end.
Definition iter_Last (es : list (bytes * bytes)) : option nat :=
  match length es with O => None | S n => Some n end.

(** The position [iter.Seek(k)] and [iter.Prev()] lead to, or [iter.Last()]:
    the greatest entry not above [k]. *)
Definition floor_entry (es : list (bytes * bytes)) (k : bytes) : option (bytes * bytes) :=
  match iter_Seek es k with
  | Some i =>
      match es !! i with
      | Some (k', v) =>
          if bool_decide (k' = k) then Some (k', v)
          else i' ← iter_Prev i; es !! i'
      | None => None
      end
  | None => i ← iter_Last es; es !! i
  end.

(** ** A store with faults *)

(** [faults]: one entry per call that may fail; [Some n] makes it fail (an
    iteration, after [n] entries); calls past the end of the list succeed. *)
Record DB := mkDB { kv : kvmap; faults : list (option nat) }.

Definition next_fault : M DB (option nat) := λ d,
  match faults d with
  | [] => (Ok None, d)
  | f :: fs => (Ok f, mkDB (kv d) fs)
  end.

(** A call that either works or reports an I/O error. *)
Definition io : M DB unit :=
  f ← next_fault;
  match f with None => mret () | Some _ => fail ErrIO end.

Definition db_Get (k : bytes) : M DB bytes :=
  _ ← io;
  d ← get;
  match kv d !! k with
  | None => fail ErrNotFound
  | Some v => mret v
  end.

(** [db.Write(batch)], or a transaction opened, written and committed: all of
    the batch or nothing. *)
Definition db_Write (b : Batch) : M DB unit :=
  _ ← io;
  modify (λ d, mkDB (apply_batch (kv d) b) (faults d)).

(** The entries an iteration visits before it ends, and [iter.Error() != nil]. *)
Definition db_iterate (es : list (bytes * bytes)) : M DB (list (bytes * bytes) * bool) :=
  f ← next_fault;
  match f with
  | None => mret (es, false)
  | Some n => mret (take n es, true)
  end.

(** ** Lemmas *)

#[global] Instance key_le_total : Total key_le.
Proof. intros p q. unfold key_le. apply (total ble). Qed.
#[global] Instance key_le_trans : Transitive key_le.
Proof. intros p q r. unfold key_le. apply (transitivity (R:=ble)). Qed.

Lemma entries_Permutation m : entries m ≡ₚ map_to_list m.
Proof. apply merge_sort_Permutation. Qed.

Lemma elem_of_entries m k v : (k, v) ∈ entries m ↔ m !! k = Some v.
Proof. rewrite entries_Permutation. apply elem_of_map_to_list. Qed.

Lemma NoDup_entries m : NoDup (entries m).*1.
Proof.
  assert ((entries m).*1 ≡ₚ (map_to_list m).*1) as ->
    by (by rewrite entries_Permutation).
  apply NoDup_fst_map_to_list.
Qed.

Lemma Sorted_entries m : StronglySorted key_le (entries m).
Proof. apply StronglySorted_merge_sort; apply _. Qed.

Lemma length_entries m : length (entries m) = size m.
Proof. rewrite entries_Permutation. apply length_map_to_list. Qed.

Lemma elem_of_range m start limit k v :
  (k, v) ∈ range_entries m start limit ↔ m !! k = Some v ∧ ble start k ∧ blt k limit.
Proof. unfold range_entries. rewrite list_elem_of_filter, elem_of_entries. naive_solver. Qed.

Lemma StronglySorted_filter {A} (R : relation A) (P : A → Prop) `{∀ x, Decision (P x)} l :
  StronglySorted R l → StronglySorted R (filter P l).
Proof.
  induction 1 as [|x l Hs IH Hf]; [constructor|]. rewrite filter_cons.
  case_decide; [|done]. constructor; [done|].
  rewrite Forall_forall in *. intros y [_ Hy]%list_elem_of_filter. auto.
Qed.

Lemma Sorted_range m start limit : StronglySorted key_le (range_entries m start limit).
Proof. apply StronglySorted_filter, Sorted_entries. Qed.

Lemma NoDup_fst_filter {A B} (P : A * B → Prop) `{∀ x, Decision (P x)} (l : list (A * B)) :
  NoDup l.*1 → NoDup (filter P l).*1.
Proof.
  intros Hn. eapply sublist_NoDup; [exact Hn|].
  apply fmap_sublist, sublist_filter.
Qed.

Lemma NoDup_range m start limit : NoDup (range_entries m start limit).*1.
Proof. apply NoDup_fst_filter, NoDup_entries. Qed.

(** Deleting the first entries of a range leaves the others. *)
Lemma elem_of_drop_keys (l : list (bytes * bytes)) n k v :
  NoDup l.*1 → (k, v) ∈ drop n l ↔ (k, v) ∈ l ∧ k ∉ (take n l).*1.
Proof.
  intros Hn. rewrite <-(take_drop n l) in Hn. rewrite fmap_app in Hn. apply NoDup_app in Hn as (_ & Hd & _).
  rewrite <-(take_drop n l) at 2. rewrite elem_of_app. split.
  - intros Hin. split; [by right|]. intros Hk. apply (Hd _ Hk), list_elem_of_fmap. by exists (k, v).
  - intros [[Hin|Hin] Hk]; [|done]. destruct Hk. apply list_elem_of_fmap. by exists (k, v).
Qed.

Lemma range_delete m m' start limit n :
  (∀ k, ble start k → blt k limit →
     m' !! k = if decide (k ∈ (take n (range_entries m start limit)).*1) then None else m !! k) →
  range_entries m' start limit = drop n (range_entries m start limit).
Proof.
  intros Hm'. set (l := range_entries m start limit) in *.
  assert (∀ k v, (k, v) ∈ range_entries m' start limit ↔ (k, v) ∈ drop n l) as Hmem.
  { intros k v. rewrite elem_of_drop_keys by apply NoDup_range. unfold l at 1. rewrite !elem_of_range. split.
    - intros (Hk & H1 & H2). rewrite Hm' in Hk by done. by case_decide.
    - intros [(Hk & H1 & H2) Hn]. rewrite Hm' by done. by rewrite decide_False. }
  assert (NoDup (drop n l)) as Hnd.
  { eapply sublist_NoDup; [eapply NoDup_fmap_1, (NoDup_range m start limit)|apply sublist_drop]. }
  apply (StronglySorted_unique_strong key_le).
  - intros [k1 v1] [k2 v2] H1%Hmem H2 Hle Hle'. assert (k1 = k2) as <- by (by apply (anti_symm ble)).
    apply (elem_of_drop_keys l) in H1 as [H1 _]; [|apply NoDup_range].
    apply (elem_of_drop_keys l) in H2 as [H2 _]; [|apply NoDup_range].
    apply elem_of_range in H1 as [H1 _], H2 as [H2 _]. congruence.
  - apply Sorted_range.
  - eapply StronglySorted_app_1_r. rewrite take_drop. apply Sorted_range.
  - apply NoDup_Permutation; [eapply NoDup_fmap_1, NoDup_range|done|]. intros [k v]. apply Hmem.
Qed.

(** *** Batches *)

Lemma apply_batch_app m b1 b2 :
  apply_batch m (b1 ++ b2) = apply_batch (apply_batch m b1) b2.
Proof. apply fold_left_app. Qed.

(** A key the batch does not mention keeps its value. *)
Lemma apply_batch_other m b k :
  k ∉ op_key <$> b → apply_batch m b !! k = m !! k.
Proof.
  revert m. induction b as [|o b IH]; intros m Hk; [done|]. simpl.
  rewrite fmap_cons, not_elem_of_cons in Hk. destruct Hk as [Ho Hb].
  unfold apply_batch in *. simpl. rewrite IH by done.
  destruct o; simpl in *; by simplify_map_eq.
Qed.

(** The last operation on a key decides. *)
Lemma apply_batch_last m b o k :
  op_key o = k →
  apply_batch m (b ++ [o]) !! k = match o with BPut _ v => Some v | BDelete _ => None end.
Proof.
  intros <-. rewrite apply_batch_app. unfold apply_batch at 1. simpl.
  destruct o; simpl; by simplify_map_eq.
Qed.

Lemma apply_batch_deletes m ks k :
  apply_batch m (BDelete <$> ks) !! k = if decide (k ∈ ks) then None else m !! k.
Proof.
  revert m. induction ks as [|k' ks IH]; intros m.
  { by rewrite decide_False by apply not_elem_of_nil. }
  rewrite fmap_cons. unfold apply_batch in *. simpl. rewrite IH.
  destruct (decide (k ∈ ks)).
  { by rewrite decide_True by (by constructor). }
  rewrite lookup_delete. case_decide as E.
  - subst. by rewrite decide_True by left.
  - rewrite decide_False; [done|]. rewrite elem_of_cons. naive_solver.
Qed.

(** *** Seeking *)

Lemma sorted_lookup_le es i j p q :
  StronglySorted key_le es → es !! i = Some p → es !! j = Some q → i ≤ j → ble p.1 q.1.
Proof.
  intros Hs Hp Hq Hij. destruct (decide (i = j)) as [->|]; [simplify_eq; done|].
  revert i j Hp Hq Hij n. induction Hs as [|x es Hs IH Hf]; intros i j Hp Hq Hij n; [done|].
  destruct i as [|i], j as [|j]; simplify_eq/=; try lia.
  - rewrite Forall_forall in Hf. apply Hf. by eapply list_elem_of_lookup_2.
  - eapply (IH i j); eauto; lia.
Qed.

Lemma floor_entry_spec es k :
  StronglySorted key_le es → NoDup es.*1 →
  match floor_entry es k with
  | Some p => p ∈ es ∧ ble p.1 k ∧ ∀ q, q ∈ es → ble q.1 k → ble q.1 p.1
  | None => ∀ q, q ∈ es → ~ ble q.1 k
  end.
Proof.
  intros Hs Hn. unfold floor_entry, iter_Seek.
  destruct (list_find (λ p, ble k p.1) es) as [[i [k' v]]|] eqn:Ef; simpl.
  - apply list_find_Some in Ef as (Hi & Hge & Hlt). simpl in *. rewrite Hi.
    case_bool_decide as Hk.
    { subst k'. split; [by eapply list_elem_of_lookup_2|]. split; [done|].
      intros q Hq Hle. done. }
    assert (∀ q, q ∈ es → ble q.1 k → ∃ j, es !! j = Some q ∧ j < i) as Hbelow.
    { intros q [j Hj]%list_elem_of_lookup Hle. exists j. split; [done|].
      destruct (decide (j < i)); [done|]. exfalso. apply Hk.
      assert (ble k' q.1) by (eapply (sorted_lookup_le es i j (k', v)); eauto; lia).
      apply (anti_symm ble); [by etransitivity|done]. }
    destruct i as [|i]; simpl.
    + intros q Hq Hle. destruct (Hbelow q Hq Hle) as (j & _ & ?). lia.
    + destruct (es !! i) as [p|] eqn:Ep.
      2:{ apply lookup_ge_None in Ep. apply lookup_lt_Some in Hi. lia. }
      split; [by eapply list_elem_of_lookup_2|]. split.
      * apply blt_ble, not_ble. eapply Hlt; [done|lia].
      * intros q Hq Hle. destruct (Hbelow q Hq Hle) as (j & Hj & ?).
        eapply sorted_lookup_le; eauto. lia.
  - apply list_find_None in Ef. rewrite Forall_forall in Ef.
    unfold iter_Last. destruct (length es) as [|n] eqn:El; simpl.
    { apply nil_length_inv in El as ->. intros q Hq. set_solver. }
    destruct (es !! n) as [p|] eqn:Ep; [|apply lookup_ge_None in Ep; lia].
    split; [by eapply list_elem_of_lookup_2|]. split.
    + apply blt_ble, not_ble, Ef. by eapply list_elem_of_lookup_2.
    + intros q [j Hj]%list_elem_of_lookup _. eapply sorted_lookup_le; eauto.
      apply lookup_lt_Some in Hj. lia.
Qed.

(** *** Faults leave the data alone *)

Lemma io_spec d o d' :
  io d = (o, d') → kv d' = kv d ∧ (o = Ok () ∨ o = Err ErrIO).
Proof.
  unfold io, next_fault. unfold_M. destruct d as [m [|[n|] fs]]; naive_solver.
Qed.

Lemma db_Write_spec b d o d' :
  db_Write b d = (o, d') →
  (o = Ok () ∧ kv d' = apply_batch (kv d) b) ∨ (o = Err ErrIO ∧ kv d' = kv d).
Proof.
  unfold db_Write, io, next_fault. unfold_M. destruct d as [m [|[n|] fs]]; naive_solver.
Qed.

Lemma db_Get_spec k d o d' :
  db_Get k d = (o, d') →
  kv d' = kv d ∧
  (o = Err ErrIO ∨ o = match kv d !! k with Some v => Ok v | None => Err ErrNotFound end).
Proof.
  unfold db_Get, io, next_fault. unfold_M.
  destruct d as [m [|[n|] fs]]; simpl; repeat case_match; naive_solver.
Qed.
