(* ===== verification/Local.v ===== *)
(** * The local database (src/custom/local.go)

    [Local] keeps roots, the queue of unsequenced leaves, the leaf indices and
    the subtrees in one LevelDB; [LocalTx] buffers writes in a batch.  Each
    method is modelled whole, with its error returns.  Serializers are the
    [Codec] interface; random noise is an argument. *)

From S2P Require Import Prelude Keys Trillian Frontier LevelDB.

(** [dupSlice]: a copy, nil for nil. *)
Definition dupSlice (inp : slice) : slice :=
  match inp with
  | None => None
  | Some b => Some (take (length b) (b ++ replicate (length b) Byte.x00))
  end.

Section local.
Context `{!Codec LogLeaf, !Codec SubtreeProto, !Codec Frontier}.

(** ** Reading *)

Definition MostRecentRoot (treeID : Z) : M DB (SignedLogRoot * Frontier) :=
  _ ← io;
  r ← try (db_Get (keyS typ_r treeID "root"));
  rootRaw ← match r with
            | Err ErrNotFound => fail ErrTreeNeedsInit
            | _ => lift r
            end;
  sig ← db_Get (keyS typ_r treeID "sig");
  frontRaw ← db_Get (keyS typ_r treeID "frontier");
  root ← lift (LogRootV1.UnmarshalBinary rootRaw);
  let sth := {|
    TimestampNanos := wrap64 (LogRootV1.TimestampNanos root);
    RootHash := Some (LogRootV1.RootHash root);
    TreeSize := wrap64 (LogRootV1.TreeSize root);
    TreeRevision := wrap64 (LogRootV1.Revision root);
    KeyHint := Some (SerializeKeyHint treeID);
    LogRoot := dupSlice (Some rootRaw);
    LogRootSignature := dupSlice (Some sig)
  |} in
  front ← lift (unmarshal (sl (dupSlice (Some frontRaw))));
  mret (sth, front).

(** The keys an iteration over the queue of a log is delimited by. *)
Definition queueStart (treeID : Z) : bytes := keyB typ_l treeID (rowkeyLeaf 0 None).
Definition queueLimit (treeID cutoffTime : Z) : bytes :=
  keyB typ_l treeID (rowkeyLeaf (wrap64 (cutoffTime + 1)) None).

Definition Unsequenced (treeID : Z) : M DB Z :=
  _ ← io;
  d ← get;
  '(visited, failed) ← db_iterate
     (range_entries (kv d) (queueStart treeID) (queueStart (wrap64 (treeID + 1))));
  if (failed : bool) then mret 0%Z else mret (Z.of_nat (length visited)).

Definition getSequenceBy (typ : byte) (treeID : Z) (hashes : list slice)
    : M DB (list Z) :=
  _ ← io;
  mfold (λ out hash,
    r ← try (db_Get (keyB typ treeID (sl hash)));
    match r with
    | Err ErrNotFound => mret (out ++ [-1]%Z)
    | Err e => fail e
    | Panic => panic
    | Ok raw => idx ← lift (decodeSeq raw); mret (out ++ [idx])
    end) [] hashes.

(** [if err != nil { return nil, fmt.Errorf(format, err) }] *)
Definition wrapErr {S A} (format : string) (m : M S A) : M S A :=
  r ← try m;
  match r with Err e => fail (Wrapf format e) | _ => lift r end.

Definition GetSequenceByMerkleHash (treeID : Z) (hashes : list slice) : M DB (list Z) :=
  wrapErr "failed to lookup by merkle hash: %v" (getSequenceBy typ_m treeID hashes).

Definition GetSequenceByIdentityHash (treeID : Z) (hashes : list slice) : M DB (list Z) :=
  wrapErr "failed to lookup by identity hash: %v" (getSequenceBy typ_i treeID hashes).

Definition fixPrefix (st : SubtreeProto) : SubtreeProto :=
  match Prefix st with
  | None => mkSubtreeProto (Some []) (Depth st) (SubtreeRootHash st) (Leaves st)
              (InternalNodes st) (InternalNodeCount st)
  | Some _ => st
  end.

(** The row the cursor of [getSubtree] stops at, if it is in range. *)
Definition seekRow (m : kvmap) (start stop : bytes) : option bytes :=
  match floor_entry (entries m) start with
  | Some (k, v) =>
      if bool_decide (ble k start) && bool_decide (blt stop k) then Some v else None
  | None => None
  end.

Definition getSubtree (treeID treeRevision : Z) (id : NodeID)
    : M DB (option SubtreeProto) :=
  '(start, stop) ← lift (rangeNodeID treeRevision id);
  _ ← io;
  d ← get;
  let v := seekRow (kv d) (keyB typ_s treeID start) (keyB typ_s treeID stop) in
  _ ← io;
  match dupSlice v with
  | None => mret None
  | Some v => st ← lift (unmarshal v); mret (Some (fixPrefix st))
  end.

Definition GetSubtrees (treeID treeRevision : Z) (ids : list NodeID)
    : M DB (list SubtreeProto) :=
  mfold (λ out id,
    subtree ← wrapErr "node id #%v: %v" (getSubtree treeID treeRevision id);
    match subtree with
    | None => mret out
    | Some st => mret (out ++ [st])
    end) [] ids.

(** ** Queueing *)

(** The batch of [QueueLeaves]; [rand i] is the noise drawn for leaf [i],
    [None] when the source of randomness fails. *)
Fixpoint queueBatch (rand : nat → option bytes) (i : nat) (treeID queueTimestamp : Z)
    (leaves : list LogLeaf) : outcome Batch :=
  match leaves with
  | [] => Ok []
  | leaf :: leaves' =>
      v ← marshal leaf;
      match rand i with
      | None => Panic
      | Some noise =>
          rest ← queueBatch rand (S i) treeID queueTimestamp leaves';
          mret (BPut (keyB typ_l treeID (rowkeyLeaf queueTimestamp (Some noise))) v :: rest)
      end
  end.

Definition QueueLeaves (rand : nat → option bytes) (treeID queueTimestamp : Z)
    (leaves : list LogLeaf) : M DB unit :=
  batch ← lift (queueBatch rand 0 treeID queueTimestamp leaves);
  db_Write batch.

(** ** Transactions *)

(** [batch] is nil ([None]) once the transaction is committed. *)
Record LocalTx := mkLocalTx { batch : option Batch }.

Definition Begin : LocalTx := {| batch := Some [] |}.

(** [ltx.batch.Put] and [ltx.batch.Delete]: a nil batch panics. *)
Definition batch_add (o : batchOp) : M LocalTx unit := λ tx,
  match batch tx with
  | None => (Panic, tx)
  | Some b => (Ok (), {| batch := Some (b ++ [o]) |})
  end.

(** The loop over the queue: the leaves read, and whether it was left early
    because [limit] was reached. *)
Fixpoint dequeueLoop (limit : Z) (leaves : list LogLeaf) (es : list (bytes * bytes))
    : M LocalTx (list LogLeaf * bool) :=
  match es with
  | [] => mret (leaves, false)
  | (k, v) :: es' =>
      if (limit <=? Z.of_nat (length leaves))%Z then mret (leaves, true)
      else
        leaf ← lift (unmarshal v);
        _ ← batch_add (BDelete (sl (dupSlice (Some k))));
        dequeueLoop limit (leaves ++ [leaf]) es'
  end.

Definition DequeueLeaves (treeID seq cutoffTime limit : Z)
    : M (DB * LocalTx) (list LogLeaf) :=
  _ ← zoom fst (λ d s, (d, s.2)) io;
  s ← get;
  '(visited, failed) ← zoom fst (λ d s, (d, s.2)) (db_iterate
     (range_entries (kv s.1) (queueStart treeID) (queueLimit treeID cutoffTime)));
  '(leaves, broke) ← zoom snd (λ tx s, (s.1, tx)) (dequeueLoop limit [] visited);
  if (failed : bool) && negb broke then fail ErrIO else mret leaves.

Fixpoint putLeavesLoop (treeID : Z) (rows : list (Z * slice * slice)) : M LocalTx unit :=
  match rows with
  | [] => mret ()
  | (seq, merkleHash, idHash) :: rows' =>
      raw ← lift (encodeSeq seq);
      _ ← batch_add (BPut (keyB typ_m treeID (sl merkleHash)) raw);
      _ ← batch_add (BPut (keyB typ_i treeID (sl idHash)) raw);
      putLeavesLoop treeID rows'
  end.

Definition PutLeaves (treeID : Z) (seqs : list Z) (merkleHashes idHashes : list slice)
    : M LocalTx unit :=
  if negb (length seqs =? length merkleHashes)%nat then
    fail (Errorf "different number of sequence numbers than merkle hashes")
  else if negb (length seqs =? length idHashes)%nat then
    fail (Errorf "different number of sequence numbers than identity hashes")
  else putLeavesLoop treeID (zip (zip seqs merkleHashes) idHashes).

Fixpoint putSubtreesLoop (treeID treeRevision : Z) (rows : list (NodeID * SubtreeProto))
    : M LocalTx unit :=
  match rows with
  | [] => mret ()
  | (id, subtree) :: rows' =>
      rowkey ← wrapErr "node id #%v: %v" (lift (rowkeyNodeID treeRevision id));
      raw ← lift (marshal subtree);
      _ ← batch_add (BPut (keyB typ_s treeID rowkey) raw);
      putSubtreesLoop treeID treeRevision rows'
  end.

Definition PutSubtrees (treeID treeRevision : Z) (ids : list NodeID)
    (subtrees : list SubtreeProto) : M LocalTx unit :=
  if negb (length ids =? length subtrees)%nat then
    fail (Errorf "different number of ids than subtrees")
  else putSubtreesLoop treeID treeRevision (zip ids subtrees).

Definition StoreRoot (treeID : Z) (root : SignedLogRoot) (front : Frontier)
    : M LocalTx unit :=
  frontRaw ← lift (marshal front);
  _ ← batch_add (BPut (keyS typ_r treeID "root") (sl (dupSlice (LogRoot root))));
  _ ← batch_add (BPut (keyS typ_r treeID "sig") (sl (dupSlice (LogRootSignature root))));
  batch_add (BPut (keyS typ_r treeID "frontier") frontRaw).

(** [Commit]: open a transaction, write the batch, commit; writing a nil
    batch writes nothing.  The three calls of goleveldb are the three
    operations that may fail here.  When it is the last, [tx.Commit], that
    fails, the code neither retries nor discards the open transaction, and
    goleveldb blocks the writes that follow; the model says what the call
    returns and what is stored, and lets later calls go on. *)
Definition Commit : M (DB * LocalTx) unit :=
  s ← get;
  _ ← zoom fst (λ d s, (d, s.2)) (
    _ ← io;
    _ ← io;
    db_Write (default [] (batch s.2)));
  modify (λ s, (s.1, {| batch := None |})).
End local.

(** ** Well-formed databases *)

(** The row of a queued leaf: timestamp and noise. *)
Definition queueRow (treeID ts : Z) (noise : bytes) : bytes :=
  keyB typ_l treeID (be_bytes 8 ts ++ noise).

(** The row of a subtree at a revision. *)
Definition subtreeRow (treeID rev : Z) (id : NodeID) : bytes :=
  keyB typ_s treeID (node_rowkey rev id).

(** Every key was made by [keyS] or [keyB] for one of the five record types. *)
Inductive wf_key : bytes → Prop :=
  | wf_root t name : int64 t → wf_key (keyS typ_r t name)
  | wf_leaf t ts noise :
      int64 t → (0 ≤ ts < 2 ^ 63)%Z → length noise = 4 → wf_key (queueRow t ts noise)
  | wf_merkle t h : int64 t → wf_key (keyB typ_m t h)
  | wf_identity t h : int64 t → wf_key (keyB typ_i t h)
  | wf_subtree t rev id :
      int64 t → (0 ≤ rev < 2 ^ 63)%Z → valid_NodeID id → wf_key (subtreeRow t rev id).

Definition wf_db (m : kvmap) : Prop := ∀ k v, m !! k = Some v → wf_key k.

Definition wf_batch (b : Batch) : Prop := ∀ k v, BPut k v ∈ b → wf_key k.

(** The queue of a log up to a cutoff: what [DequeueLeaves] may return. *)
Definition queued (m : kvmap) (treeID cutoff : Z) : list (bytes * bytes) :=
  range_entries m (queueStart treeID) (queueLimit treeID cutoff).

(** ** Lemmas *)

Lemma dupSlice_id s : dupSlice s = s.
Proof. destruct s as [b|]; [|done]. unfold dupSlice. by rewrite take_app_length. Qed.

Lemma keyB_prefix typ typ' t t' v w :
  (b2z typ < 128)%Z → (b2z typ' < 128)%Z → int64 t → int64 t' →
  keyB typ t v = keyPrefix typ' t' ++ w → typ = typ' ∧ t = t' ∧ v = w.
Proof. apply keyPrefix_inj. Qed.

(** Which well-formed keys carry a given prefix. *)
Lemma wf_key_subtree_prefix t c :
  int64 t → wf_key (keyPrefix typ_s t ++ c) →
  ∃ rev id, (0 ≤ rev < 2 ^ 63)%Z ∧ valid_NodeID id ∧ c = node_rowkey rev id.
Proof.
  intros Ht Hk. remember (keyPrefix typ_s t ++ c) as k eqn:E.
  destruct Hk; apply keyPrefix_inj in E as (E & -> & <-); try done; eauto.
Qed.

Lemma wf_key_queue_prefix t c :
  int64 t → wf_key (keyPrefix typ_l t ++ c) →
  ∃ ts noise, (0 ≤ ts < 2 ^ 63)%Z ∧ length noise = 4 ∧ c = be_bytes 8 ts ++ noise.
Proof.
  intros Ht Hk. remember (keyPrefix typ_l t ++ c) as k eqn:E.
  destruct Hk; apply keyPrefix_inj in E as (E & -> & <-); try done; eauto.
Qed.

Lemma wf_db_apply_op m o :
  wf_db m → match o with BPut k _ => wf_key k | BDelete _ => True end →
  wf_db (apply_op m o).
Proof.
  intros Hm Ho k v. destruct o as [k' v'|k']; simpl.
  - rewrite lookup_insert. case_decide; naive_solver.
  - rewrite lookup_delete. case_decide; naive_solver.
Qed.

Lemma wf_db_apply_batch m b : wf_db m → wf_batch b → wf_db (apply_batch m b).
Proof.
  revert m. induction b as [|o b IH]; intros m Hm Hb; [done|].
  apply IH; [|intros k v Hkv; apply (Hb k v); by right].
  apply wf_db_apply_op; [done|]. destruct o; [eapply Hb; by left|done].
Qed.

Lemma wf_batch_nil : wf_batch [].
Proof. intros k v H. by apply elem_of_nil in H. Qed.

Lemma wf_batch_app b1 b2 : wf_batch (b1 ++ b2) ↔ wf_batch b1 ∧ wf_batch b2.
Proof. unfold wf_batch. setoid_rewrite elem_of_app. naive_solver. Qed.

(** *** Subtrees *)

Lemma node_rowkey_ext rev id id' :
  node_prefix id = node_prefix id' → PrefixLenBits id = PrefixLenBits id' →
  node_rowkey rev id = node_rowkey rev id'.
Proof. unfold node_rowkey. by intros -> ->. Qed.

(** What the cursor finds: the newest revision of the node up to [rev]. *)
Lemma seekRow_newest m t rev id :
  wf_db m → int64 t → (0 ≤ rev < 2 ^ 63)%Z → valid_NodeID id →
  match seekRow m (subtreeRow t rev id) (keyB typ_s t (range_stop id)) with
  | Some raw => ∃ r, (0 ≤ r ≤ rev)%Z ∧ m !! subtreeRow t r id = Some raw ∧
                ∀ r', (r < r' ≤ rev)%Z → m !! subtreeRow t r' id = None
  | None => ∀ r, (0 ≤ r ≤ rev)%Z → m !! subtreeRow t r id = None
  end.
Proof.
  intros Hm Ht Hr Hid. unfold seekRow.
  pose proof (floor_entry_spec (entries m) (subtreeRow t rev id)
    (Sorted_entries m) (NoDup_entries m)) as Hf.
  assert (∀ r, (0 ≤ r ≤ rev)%Z → blt (keyB typ_s t (range_stop id)) (subtreeRow t r id) ∧
    ble (subtreeRow t r id) (subtreeRow t rev id)) as Hin.
  { intros r Hr'. unfold subtreeRow, keyB. rewrite blt_app, ble_app.
    apply (node_rowkey_in_range rev r id id); [lia|lia|done|done|]. repeat split; lia. }
  destruct (floor_entry _ _) as [[k v]|].
  2:{ intros r Hr'. apply eq_None_not_Some. intros [raw Hraw].
      apply (Hf (subtreeRow t r id, raw)); [by apply elem_of_entries|by apply Hin]. }
  destruct Hf as (Hkv & Hle & Hmax). simpl in *. apply elem_of_entries in Hkv.
  rewrite bool_decide_eq_true_2 by done. simpl. case_bool_decide as Hstop.
  - destruct (between_prefix (keyPrefix typ_s t) (range_stop id) (node_rowkey rev id) k)
      as [c ->]; [by apply blt_ble|done|].
    destruct (wf_key_subtree_prefix t c Ht (Hm _ _ Hkv)) as (r & id' & Hr' & Hid' & ->).
    unfold subtreeRow, keyB in Hle, Hstop. rewrite ble_app in Hle. rewrite blt_app in Hstop.
    destruct (proj1 (node_rowkey_in_range rev r id id' Hr Hr' Hid Hid')) as (E1 & E2 & E3);
      [done|].
    assert (subtreeRow t r id = keyPrefix typ_s t ++ node_rowkey r id') as Erow
      by (unfold subtreeRow, keyB; f_equal; by apply node_rowkey_ext).
    exists r. split; [lia|]. rewrite Erow. split; [done|].
    intros r' Hr''. apply eq_None_not_Some. intros [raw Hraw].
    assert (ble (subtreeRow t r' id) (keyPrefix typ_s t ++ node_rowkey r id')) as Hb.
    { apply (Hmax (subtreeRow t r' id, raw)); [by apply elem_of_entries|].
      apply Hin. lia. }
    unfold subtreeRow, keyB in Hb. rewrite <-(node_rowkey_ext r id) in Hb by done.
    rewrite ble_app, node_rowkey_ble, bytes_Compare_refl in Hb by (done || lia). lia.
  - intros r Hr'. apply eq_None_not_Some. intros [raw Hraw]. apply Hstop.
    destruct (Hin r Hr') as [H1 H2]. eapply blt_ble_trans; [exact H1|].
    apply (Hmax (subtreeRow t r id, raw)); [by apply elem_of_entries|done].
Qed.

(** *** The queue *)

Lemma queueStart_ble t ts noise :
  length noise = 4 → ble (queueStart t) (queueRow t ts noise).
Proof.
  intros Hn. unfold queueStart, queueRow, keyB. rewrite ble_app, rowkeyLeaf_eq.
  change (be_bytes 8 0 ++ replicate 4 Byte.x00) with (replicate 12 Byte.x00).
  apply ble_zeros. by rewrite length_app, length_be_bytes, Hn.
Qed.

Lemma queueLimit_blt t ts cutoff noise :
  (0 ≤ ts < 2 ^ 63)%Z → (0 ≤ cutoff < 2 ^ 63 - 1)%Z → length noise = 4 →
  blt (queueRow t ts noise) (queueLimit t cutoff) ↔ (ts ≤ cutoff)%Z.
Proof.
  intros Hts Hc Hn. unfold queueLimit, queueRow, keyB. rewrite blt_app, rowkeyLeaf_eq.
  rewrite wrap64_small by (unfold int64; lia). unfold blt.
  rewrite bytes_Compare_app_same_len by by rewrite !length_be_bytes.
  rewrite bytes_Compare_be_bytes by lia.
  destruct (Z.compare_spec ts (cutoff + 1)); [|split; done || lia..].
  split; [|lia]. intros Hlt. exfalso. apply (ble_zeros 4 noise); [done|].
  by rewrite bytes_Compare_antisym, Hlt.
Qed.

(** The queue up to a cutoff holds exactly the rows with a timestamp up to it. *)
Lemma elem_of_queued m t cutoff k v :
  wf_db m → int64 t → (0 ≤ cutoff < 2 ^ 63 - 1)%Z →
  (k, v) ∈ queued m t cutoff ↔
  m !! k = Some v ∧ ∃ ts noise, (0 ≤ ts ≤ cutoff)%Z ∧ length noise = 4 ∧
    k = queueRow t ts noise.
Proof.
  intros Hm Ht Hc. unfold queued. rewrite elem_of_range. split.
  - intros (Hk & H1 & H2). split; [done|].
    destruct (between_prefix (keyPrefix typ_l t) (rowkeyLeaf 0 None)
      (rowkeyLeaf (wrap64 (cutoff + 1)) None) k) as [c ->]; [done|by apply blt_ble|].
    destruct (wf_key_queue_prefix t c Ht (Hm _ _ Hk)) as (ts & noise & Hts & Hn & ->).
    exists ts, noise. apply queueLimit_blt in H2; [|done..]. split; [lia|done].
  - intros (Hk & ts & noise & Hts & Hn & ->). split; [done|].
    split; [by apply queueStart_ble|]. apply queueLimit_blt; [lia|done|done|lia].
Qed.

(** A key of the queue of a log. *)
Definition isQueueRow (t : Z) (k : bytes) : Prop :=
  ∃ ts noise, (0 ≤ ts < 2 ^ 63)%Z ∧ length noise = 4 ∧ k = queueRow t ts noise.

(** Keys of other record types lie outside the queue of any log. *)
Lemma other_type_outside typ t t' u v w :
  (b2z typ < 128)%Z → typ ≠ typ_l →
  ble (keyPrefix typ_l t ++ u) (keyPrefix typ t' ++ v) →
  ¬ blt (keyPrefix typ t' ++ v) (keyPrefix typ_l (t + 1) ++ w).
Proof.
  intros Ht Hne H1 H2. rewrite !(keyPrefix_ascii typ), !(keyPrefix_ascii typ_l) in * by done.
  rewrite <-!app_comm_cons in *. apply ble_lt_eq in H1 as [H1|H1].
  - apply blt_cons in H1 as [H1|[H1 _]]; [|congruence].
    apply blt_cons in H2 as [H2|[H2 _]]; [lia|congruence].
  - congruence.
Qed.

(** Negative tree ids sort in front of the others. *)
Lemma keyPrefix_neg t t' u v :
  int64 t' → (t' < 0 ≤ t)%Z → blt (keyPrefix typ_l t' ++ u) (keyPrefix typ_l t ++ v).
Proof.
  intros Ht' Ht. rewrite !keyPrefix_ascii, !fmt_16_16x_hexn by done.
  rewrite <-!app_comm_cons, <-!app_assoc.
  destruct (Z.ltb_spec t' 0), (Z.ltb_spec t 0); try lia.
  cbn [hexn app]. apply blt_cons. right. split; [done|]. apply blt_cons. left.
  rewrite b2z_hexdigit by (apply Z.mod_pos_bound; lia).
  pose proof (Z.mod_pos_bound (Z.abs t ≫ (4 * Z.of_nat 15)) 16).
  change (b2z Byte.x2d) with 45%Z. case_match; lia.
Qed.

(** What [Unsequenced] iterates over: exactly the queue of the log. *)
Lemma elem_of_unsequenced m t k v :
  wf_db m → (0 ≤ t < 2 ^ 63 - 1)%Z →
  (k, v) ∈ range_entries m (queueStart t) (queueStart (wrap64 (t + 1))) ↔
  m !! k = Some v ∧ isQueueRow t k.
Proof.
  intros Hm Ht. rewrite wrap64_small by (unfold int64; lia). rewrite elem_of_range. split.
  - intros (Hk & H1 & H2). split; [done|]. unfold queueStart, keyB in H1, H2.
    destruct (Hm _ _ Hk) as [t' name Ht'|t' ts noise Ht' Hts Hn|t' h Ht'|t' h Ht'|t' rev id Ht' _ _].
    2:{ unfold queueRow, keyB in H1, H2. destruct (decide (t' < 0)%Z).
        { apply not_blt in H1. destruct H1. apply keyPrefix_neg; [done|lia]. }
        destruct (Z.compare_spec t' t) as [->|Hlt|Hgt]; [by exists ts, noise|exfalso..].
        - apply not_blt in H1. apply H1, keyPrefix_lt; [done|lia|lia].
        - destruct (decide (t' = t + 1)%Z) as [->|].
          + apply not_ble in H2. apply H2. by apply (queueStart_ble (t + 1) ts).
          + apply (irreflexivity blt (keyPrefix typ_l t' ++ be_bytes 8 ts ++ noise)).
            etrans; [exact H2|]. apply keyPrefix_lt; [done|unfold int64 in *; lia..]. }
    all: exfalso; eapply other_type_outside; [..|exact H1|exact H2]; done.
  - intros (Hk & ts & noise & Hts & Hn & ->). split; [done|].
    split; [by apply queueStart_ble|]. apply keyPrefix_lt; [done|lia|lia].
Qed.

Lemma queueRow_inj t ts ts' noise noise' :
  (0 ≤ ts < 2 ^ 63)%Z → (0 ≤ ts' < 2 ^ 63)%Z →
  queueRow t ts noise = queueRow t ts' noise' → ts = ts' ∧ noise = noise'.
Proof.
  intros H1 H2 E. unfold queueRow, keyB in E.
  apply app_inv_head in E. apply app_inj_1 in E as [E ->]; [|by rewrite !length_be_bytes].
  apply (f_equal be_val) in E. rewrite !be_val_be_bytes, !Z.mod_small in E by lia. done.
Qed.

Lemma queueRow_ble t ts ts' noise noise' :
  (0 ≤ ts < 2 ^ 63)%Z → (0 ≤ ts' < 2 ^ 63)%Z →
  ble (queueRow t ts noise) (queueRow t ts' noise') → (ts ≤ ts')%Z.
Proof.
  intros H1 H2. unfold queueRow, keyB. rewrite ble_app. unfold ble.
  rewrite bytes_Compare_app_same_len by by rewrite !length_be_bytes.
  rewrite bytes_Compare_be_bytes by lia. destruct (Z.compare_spec ts ts'); naive_solver lia.
Qed.

Lemma subtreeRow_queueRow t r id t' ts noise : subtreeRow t r id ≠ queueRow t' ts noise.
Proof. unfold subtreeRow, queueRow, keyB. by injection. Qed.

Section dequeue.
Context `{!Codec LogLeaf}.

(** The loop reads and marks the first [limit] rows it is given. *)
Lemma dequeueLoop_spec limit es acc b o tx' n :
  dequeueLoop limit acc es (mkLocalTx (Some b)) = (o, tx') →
  n = Z.to_nat limit - length acc →
  match o with
  | Ok (leaves, broke) =>
      ∃ ls, leaves = acc ++ ls ∧ Forall2 (λ e l, unmarshal e.2 = Ok l) (take n es) ls ∧
        batch tx' = Some (b ++ (BDelete <$> (take n es).*1)) ∧
        (broke = true ↔ n < length es)
  | Err e => ∃ k v, (k, v) ∈ take n es ∧ unmarshal v = Err e
  | Panic => ∃ k v, (k, v) ∈ take n es ∧ unmarshal v = Panic
  end.
Proof.
  revert acc b n. induction es as [|[k v] es IH]; intros acc b n H Hn.
  - simpl in H. unfold_M. simplify_eq/=. exists []. rewrite take_nil. simpl.
    rewrite !app_nil_r. repeat split; [constructor|done|lia].
  - simpl in H. destruct (Z.leb_spec limit (Z.of_nat (length acc))) as [Hl|Hl].
    { unfold_M. simplify_eq/=. replace (Z.to_nat limit - length acc) with 0 by lia.
      exists []. simpl. rewrite !app_nil_r. repeat split; [constructor|lia]. }
    destruct n as [|n]; [lia|]. unfold mbind, M_bind, lift in H.
    destruct (unmarshal v) as [leaf|e|] eqn:Ev; simplify_eq/=.
    2,3: exists k, v; split; [by left|done].
    rewrite take_app_length in H.
    apply (IH _ _ n) in H; [|rewrite length_app; simpl; lia].
    destruct o as [[leaves broke]|e|].
    + destruct H as (ls & -> & HF & Hb & Hbr). exists (leaf :: ls).
      rewrite <-app_assoc. split; [done|]. split; [by constructor|].
      split; [by rewrite Hb, <-app_assoc|]. simpl. rewrite Hbr. lia.
    + destruct H as (k' & v' & ? & ?). exists k', v'. split; [by right|done].
    + destruct H as (k' & v' & ? & ?). exists k', v'. split; [by right|done].
Qed.

(** A call that succeeds, with or without faults on the way, has read the
    oldest rows of the queue and marked them for deletion. *)
Lemma DequeueLeaves_Ok t seq cutoff limit d b leaves d' tx' :
  DequeueLeaves t seq cutoff limit (d, mkLocalTx (Some b)) = (Ok leaves, (d', tx')) →
  let es := take (Z.to_nat limit) (queued (kv d) t cutoff) in
  kv d' = kv d ∧ batch tx' = Some (b ++ (BDelete <$> es.*1)) ∧
  Forall2 (λ e l, unmarshal e.2 = Ok l) es leaves.
Proof.
  unfold DequeueLeaves, db_iterate, io, next_fault. unfold_M. intros H.
  destruct d as [m fs]. simpl in *. fold (queued m t cutoff) in H.
  destruct fs as [|[n|] fs]; simpl in H; [|done|].
  - destruct (dequeueLoop limit [] _ _) as [o tx1] eqn:E.
    apply (dequeueLoop_spec _ _ _ _ _ _ (Z.to_nat limit)) in E; [|simpl; lia].
    destruct o as [[ls broke]|e|]; simplify_eq/=. naive_solver.
  - destruct fs as [|[n|] fs]; simpl in H.
    + destruct (dequeueLoop limit [] _ _) as [o tx1] eqn:E.
      apply (dequeueLoop_spec _ _ _ _ _ _ (Z.to_nat limit)) in E; [|simpl; lia].
      destruct o as [[ls broke]|e|]; simplify_eq/=. naive_solver.
    + destruct (dequeueLoop limit [] _ _) as [o tx1] eqn:E.
      apply (dequeueLoop_spec _ _ _ _ _ _ (Z.to_nat limit)) in E; [|simpl; lia].
      destruct o as [[ls broke]|e|]; simplify_eq/=.
      destruct E as (ls' & -> & HF & Hb & Hbr). destruct broke; [|done]. simplify_eq/=.
      pose proof (proj1 Hbr eq_refl) as Hlt. rewrite length_take in Hlt.
      rewrite take_take, Nat.min_l in HF, Hb by lia. done.
    + destruct (dequeueLoop limit [] _ _) as [o tx1] eqn:E.
      apply (dequeueLoop_spec _ _ _ _ _ _ (Z.to_nat limit)) in E; [|simpl; lia].
      destruct o as [[ls broke]|e|]; simplify_eq/=. naive_solver.
Qed.

(** Without faults and with rows that decode, it does succeed. *)
Lemma DequeueLeaves_total t seq cutoff limit m b :
  (∀ k v, (k, v) ∈ queued m t cutoff → ∃ l, unmarshal v = Ok l) →
  ∃ leaves tx', DequeueLeaves t seq cutoff limit (mkDB m [], mkLocalTx (Some b)) =
    (Ok leaves, (mkDB m [], tx')).
Proof.
  intros Hdec. unfold DequeueLeaves, db_iterate, io, next_fault. unfold_M. simpl.
  fold (queued m t cutoff).
  destruct (dequeueLoop limit [] _ _) as [o tx1] eqn:E.
  apply (dequeueLoop_spec _ _ _ _ _ _ (Z.to_nat limit)) in E; [|simpl; lia].
  destruct o as [[ls broke]|e|]; simpl; [by eexists _, _|exfalso..];
    destruct E as (k & v & Hin & Hv);
    destruct (Hdec k v) as [l Hl]; try congruence;
    eapply subseteq_take; done.
Qed.
End dequeue.

(** *** Counting the queue *)

Lemma length_range_insert m k v a b :
  m !! k = None →
  length (range_entries (<[k:=v]> m) a b) =
  (if decide (ble a k ∧ blt k b) then 1 else 0) + length (range_entries m a b).
Proof.
  intros Hk. unfold range_entries.
  assert (entries (<[k:=v]> m) ≡ₚ (k, v) :: entries m) as ->.
  { by rewrite !entries_Permutation, map_to_list_insert. }
  rewrite filter_cons. simpl. by case_decide.
Qed.

Lemma length_range_puts m rows a b :
  NoDup rows.*1 → (∀ k v, (k, v) ∈ rows → m !! k = None ∧ ble a k ∧ blt k b) →
  length (range_entries (apply_batch m (uncurry BPut <$> rows)) a b) =
  length (range_entries m a b) + length rows.
Proof.
  revert m. induction rows as [|[k v] rows IH]; intros m Hn Hr; simpl; [done|].
  rewrite fmap_cons, NoDup_cons in Hn. destruct Hn as [Hk Hn].
  change (apply_batch m (BPut k v :: ?b)) with (apply_batch (<[k:=v]> m) b).
  destruct (Hr k v) as (Hfresh & Hin); [by left|].
  rewrite IH; [|done|].
  - rewrite length_range_insert by done. rewrite decide_True by done. lia.
  - intros k' v' Hin'. destruct (Hr k' v') as [? ?]; [by right|].
    split; [|done]. rewrite lookup_insert_ne; [done|]. intros ->. apply Hk.
    by apply (list_elem_of_fmap_2 fst _ _ Hin').
Qed.

(** The rows [QueueLeaves] writes. *)
Definition queueRows `{!Codec LogLeaf} (rand : nat → option bytes) (i : nat) (t ts : Z)
    (leaves : list LogLeaf) (rows : list (bytes * bytes)) : Prop :=
  length rows = length leaves ∧
  ∀ j k v, rows !! j = Some (k, v) →
    ∃ leaf noise, leaves !! j = Some leaf ∧ rand (i + j) = Some noise ∧
      k = keyB typ_l t (rowkeyLeaf ts (Some noise)) ∧ marshal leaf = Ok v.

Lemma queueBatch_Ok `{!Codec LogLeaf} rand i t ts leaves b :
  queueBatch rand i t ts leaves = Ok b →
  ∃ rows, b = uncurry BPut <$> rows ∧ queueRows rand i t ts leaves rows.
Proof.
  revert i b. induction leaves as [|leaf leaves IH]; intros i b H; simpl in H.
  { simplify_eq. exists []. split; [done|]. by split. }
  unfold_O. destruct (marshal leaf) as [v|e|] eqn:Em; try done.
  destruct (rand i) as [noise|] eqn:Er; [|done].
  destruct (queueBatch rand (S i) t ts leaves) as [b'|e|] eqn:Eb; try done.
  destruct (IH _ _ Eb) as (rows & -> & Hl & Hrows). simplify_eq.
  exists ((keyB typ_l t (rowkeyLeaf ts (Some noise)), v) :: rows).
  split; [done|]. split; [simpl; lia|]. intros [|j] k' v' Hj; simplify_eq/=.
  - exists leaf, noise. by rewrite Nat.add_0_r.
  - destruct (Hrows _ _ _ Hj) as (l & n & ? & ? & ? & ?). exists l, n.
    by rewrite Nat.add_succ_r.
Qed.

Lemma rowkeyLeaf_noise ts noise :
  length noise = 4 → rowkeyLeaf ts (Some noise) = be_bytes 8 ts ++ noise.
Proof. intros H. by rewrite rowkeyLeaf_eq, take_app_length' by done. Qed.

(** *** Indices *)

Definition indexOps (t : Z) (rows : list (Z * slice * slice)) : Batch :=
  row ← rows;
  let raw := match encodeSeq row.1.1 with Ok raw => raw | _ => [] end in
  [BPut (keyB typ_m t (sl row.1.2)) raw; BPut (keyB typ_i t (sl row.2)) raw].

Definition seq_fits (seq : Z) : Prop := (- 2 ^ 55 ≤ seq < 2 ^ 55)%Z.

Lemma encodeSeq_fits seq :
  seq_fits seq → ∃ raw, encodeSeq seq = Ok raw ∧ decodeSeq raw = Ok seq.
Proof.
  unfold seq_fits, encodeSeq. intros Hs.
  assert (int64 seq) as H64 by (unfold int64; lia).
  rewrite PutVarint_zigzag by done. pose proof (zigzag_range seq H64).
  destruct (PutUvarint_fits 8 (zigzag seq)) as [[[raw Hraw] _]|[_ Hb]]; [lia| |].
  - exists raw. split; [done|]. by eapply decodeSeq_zigzag.
  - exfalso. unfold zigzag in Hb. destruct Hb as [?|Hb]; [done|]. case_match; lia.
Qed.

Lemma putLeavesLoop_Ok t rows b :
  Forall (λ r, seq_fits r.1.1) rows →
  putLeavesLoop t rows (mkLocalTx (Some b)) = (Ok (), mkLocalTx (Some (b ++ indexOps t rows))).
Proof.
  revert b. induction rows as [|[[seq mh] ih] rows IH]; intros b Hf; simpl.
  { by rewrite app_nil_r. }
  apply Forall_cons in Hf as [Hs Hf]. simpl in Hs.
  destruct (encodeSeq_fits seq Hs) as (raw & -> & _). unfold_M. simpl.
  rewrite IH by done. unfold indexOps. simpl. by rewrite <-!app_assoc.
Qed.

(** A loop that succeeds has added these writes. *)
Lemma putLeavesLoop_done t rows b tx' :
  putLeavesLoop t rows (mkLocalTx (Some b)) = (Ok (), tx') → tx' = mkLocalTx (Some (b ++ indexOps t rows)).
Proof.
  revert b. induction rows as [|[[seq mh] ih] rows IH]; intros b H; simpl in H.
  { injection H as <-. by rewrite app_nil_r. }
  apply mbind_Ok in H as (raw & ? & Hraw & H). unfold lift in Hraw. injection Hraw as Hraw <-.
  apply IH in H as ->. unfold indexOps. simpl. rewrite Hraw. by rewrite <-!app_assoc.
Qed.

(** The rows of leaves: their numbers and hashes. *)
Definition indexRows (leaves : list LogLeaf) : list (Z * slice * slice) :=
  (λ l, (LeafIndex l, MerkleLeafHash l, LeafIdentityHash l)) <$> leaves.

Lemma indexRows_zip leaves :
  zip (zip (LeafIndex <$> leaves) (MerkleLeafHash <$> leaves)) (LeafIdentityHash <$> leaves) = indexRows leaves.
Proof. induction leaves as [|l leaves IH]; [done|]. exact (f_equal (cons _) IH). Qed.

Lemma PutLeaves_done t leaves b tx' :
  PutLeaves t (LeafIndex <$> leaves) (MerkleLeafHash <$> leaves) (LeafIdentityHash <$> leaves)
    (mkLocalTx (Some b)) = (Ok (), tx') →
  tx' = mkLocalTx (Some (b ++ indexOps t (indexRows leaves))).
Proof.
  unfold PutLeaves. rewrite !length_fmap, Nat.eqb_refl. cbn [negb].
  rewrite indexRows_zip. apply putLeavesLoop_done.
Qed.

(** The last row with the hash decides. *)
Lemma index_lookup t typ (sel : Z * slice * slice → slice) m rows h :
  int64 t → (typ = typ_m ∧ sel = (λ r, r.1.2)) ∨ (typ = typ_i ∧ sel = snd) →
  apply_batch m (indexOps t rows) !! keyB typ t h =
  match last (filter (λ r, sl (sel r) = h) rows) with
  | Some r => Some (match encodeSeq r.1.1 with Ok raw => raw | _ => [] end)
  | None => m !! keyB typ t h
  end.
Proof.
  intros Ht Hsel. induction rows as [|row rows IH] using rev_ind; [done|].
  unfold indexOps. rewrite bind_app, apply_batch_app. fold (indexOps t rows).
  set (m' := apply_batch m (indexOps t rows)) in *. rewrite filter_app, filter_cons, filter_nil.
  simpl. unfold apply_batch. simpl.
  assert (∀ h1 h2, keyB typ_m t h1 ≠ keyB typ_i t h2) as Hmi.
  { intros h1 h2 E. by apply keyPrefix_inj in E as [? _]. }
  assert (∀ ty h1 h2, (b2z ty < 128)%Z → keyB ty t h1 = keyB ty t h2 → h1 = h2) as Hinj.
  { intros ty h1 h2 ? E. by apply keyPrefix_inj in E as (_ & _ & ?). }
  destruct Hsel as [[-> ->]|[-> ->]]; simpl; case_decide as Eh.
  - rewrite last_snoc, lookup_insert_ne by done. rewrite <-Eh. by rewrite lookup_insert_eq.
  - rewrite app_nil_r, lookup_insert_ne by done. rewrite lookup_insert_ne; [done|].
    intros E. by apply Eh, (Hinj typ_m).
  - rewrite last_snoc, <-Eh. by rewrite lookup_insert_eq.
  - rewrite app_nil_r, lookup_insert_ne by (intros E; by apply Eh, (Hinj typ_i)).
    by rewrite lookup_insert_ne.
Qed.

(** *** Transactions *)

Lemma Commit_spec s o s' :
  Commit s = (o, s') →
  (o = Ok () ∧ kv s'.1 = apply_batch (kv s.1) (default [] (batch s.2)) ∧
   batch s'.2 = None) ∨
  (o = Err ErrIO ∧ kv s'.1 = kv s.1 ∧ s'.2 = s.2).
Proof.
  destruct s as [[m fs] tx]. unfold Commit, db_Write, io, next_fault. unfold_M.
  destruct fs as [|[?|] [|[?|] [|[?|] fs]]]; naive_solver.
Qed.

Lemma Commit_no_faults m tx :
  Commit (mkDB m [], tx) =
  (Ok (), (mkDB (apply_batch m (default [] (batch tx))) [], {| batch := None |})).
Proof. done. Qed.

Lemma take_sorted_before {A} (R : relation A) l n x y :
  StronglySorted R l → x ∈ take n l → y ∈ l → y ∉ take n l → R x y.
Proof.
  intros Hs. revert n. induction Hs as [|z l Hs IH Hf]; intros n Hx Hy Hny.
  { by rewrite take_nil, elem_of_nil in Hx. }
  destruct n as [|n]; [by apply elem_of_nil in Hx|]. simpl in *.
  rewrite elem_of_cons in Hx, Hy. rewrite not_elem_of_cons in Hny.
  destruct Hny as [Hyz Hny]. destruct Hy as [?|Hy]; [done|].
  destruct Hx as [->|Hx]; [|by eapply IH]. rewrite Forall_forall in Hf. auto.
Qed.

(** *** The invariant *)

(** One call on a log's local storage, whatever its outcome. *)
Inductive local_step `{!Codec LogLeaf, !Codec SubtreeProto, !Codec Frontier} :
    DB * LocalTx → DB * LocalTx → Prop :=
  | step_QueueLeaves rand t ts leaves d tx o d' :
      int64 t → (0 ≤ ts < 2 ^ 63)%Z → (∀ i noise, rand i = Some noise → length noise = 4) →
      QueueLeaves rand t ts leaves d = (o, d') → local_step (d, tx) (d', tx)
  | step_DequeueLeaves t seq cutoff limit s o s' :
      DequeueLeaves t seq cutoff limit s = (o, s') → local_step s s'
  | step_PutLeaves t seqs mhs ihs d tx o tx' :
      int64 t → PutLeaves t seqs mhs ihs tx = (o, tx') → local_step (d, tx) (d, tx')
  | step_PutSubtrees t rev ids subtrees d tx o tx' :
      int64 t → (0 ≤ rev < 2 ^ 63)%Z →
      PutSubtrees t rev ids subtrees tx = (o, tx') → local_step (d, tx) (d, tx')
  | step_StoreRoot t root front d tx o tx' :
      int64 t → StoreRoot t root front tx = (o, tx') → local_step (d, tx) (d, tx')
  | step_Commit s o s' : Commit s = (o, s') → local_step s s'
  | step_Begin d tx : local_step (d, tx) (d, Begin).

Definition local_inv (s : DB * LocalTx) : Prop :=
  wf_db (kv s.1) ∧ wf_batch (default [] (batch s.2)).

Definition tx_wf (tx : LocalTx) : Prop := wf_batch (default [] (batch tx)).

Lemma batch_add_wf o tx r tx' :
  batch_add o tx = (r, tx') → tx_wf tx →
  match o with BPut k _ => wf_key k | BDelete _ => True end → tx_wf tx'.
Proof.
  unfold batch_add, tx_wf. destruct tx as [[b|]]; intros H Hw Ho; simplify_eq/=; [|done].
  apply wf_batch_app. split; [done|]. intros k v Hin%list_elem_of_singleton. by subst.
Qed.

Section invariant.
Context `{!Codec LogLeaf, !Codec SubtreeProto, !Codec Frontier}.

Lemma dequeueLoop_wf limit es acc tx o tx' :
  dequeueLoop limit acc es tx = (o, tx') → tx_wf tx → tx_wf tx'.
Proof.
  revert acc tx. induction es as [|[k v] es IH]; intros acc tx H Hw; simpl in H; unfold_M.
  { by simplify_eq. }
  repeat (case_match; simplify_eq/=; try done);
    match goal with H : batch_add _ _ = _ |- _ => apply batch_add_wf in H; [|done..] end;
    eauto.
Qed.

Lemma putLeavesLoop_wf t rows tx o tx' :
  int64 t → putLeavesLoop t rows tx = (o, tx') → tx_wf tx → tx_wf tx'.
Proof.
  intros Ht. revert tx. induction rows as [|[[seq mh] ih] rows IH]; intros tx H Hw;
    simpl in H; unfold_M.
  { by simplify_eq. }
  repeat (case_match; simplify_eq/=; try done);
    repeat match goal with
    | H : batch_add _ _ = _ |- _ =>
        apply batch_add_wf in H; [|done|by constructor]
    end; eauto.
Qed.

Lemma putSubtreesLoop_wf t rev rows tx o tx' :
  int64 t → (0 ≤ rev < 2 ^ 63)%Z →
  putSubtreesLoop t rev rows tx = (o, tx') → tx_wf tx → tx_wf tx'.
Proof.
  intros Ht Hr. revert tx. induction rows as [|[id st] rows IH]; intros tx H Hw;
    simpl in H; unfold wrapErr in *; unfold_M.
  { by simplify_eq. }
  destruct (rowkeyNodeID rev id) as [k| |] eqn:Ek; simplify_eq/=; try done.
  pose proof (rowkeyNodeID_Ok _ _ _ Ek) as Hid. rewrite rowkeyNodeID_valid in Ek by done.
  simplify_eq. fold (subtreeRow t rev id) in H.
  repeat (case_match; simplify_eq/=; try done);
    match goal with
    | H : batch_add _ _ = _ |- _ => apply batch_add_wf in H; [|done|by constructor]
    end; eauto.
Qed.

Lemma local_step_inv s s' : local_step s s' → local_inv s → local_inv s'.
Proof.
  intros Hstep [Hd Hb]. fold (tx_wf s.2) in Hb. unfold local_inv. fold (tx_wf s'.2).
  destruct Hstep as [rand t ts leaves d tx o d' Ht Hts Hn H|t seq cutoff limit [d tx] o [d' tx'] H
    |t seqs mhs ihs d tx o tx' Ht H|t rev ids sts d tx o tx' Ht Hr H|t root front d tx o tx' Ht H
    |s o s' H|d tx]; simpl in *.
  - split; [|done]. unfold QueueLeaves in H. unfold_M.
    destruct (queueBatch rand 0 t ts leaves) as [b| |] eqn:Eb; simplify_eq; try done.
    destruct (queueBatch_Ok _ _ _ _ _ _ Eb) as (rows & -> & _ & Hrows).
    apply db_Write_spec in H as [[_ ->]|[_ ->]]; [|done].
    apply wf_db_apply_batch; [done|].
    intros k v ([k' v'] & [= <- <-] & Hin)%list_elem_of_fmap.
    apply list_elem_of_lookup in Hin as [j Hj].
    destruct (Hrows _ _ _ Hj) as (l & noise & _ & Hr & -> & _).
    rewrite rowkeyLeaf_noise by eauto. constructor; eauto.
  - unfold DequeueLeaves, db_iterate, io, next_fault in H. unfold_M.
    destruct d as [m fs]. simpl in *.
    repeat (case_match; simplify_eq/=; try done);
      match goal with H : dequeueLoop _ _ _ _ = _ |- _ => apply dequeueLoop_wf in H end; done.
  - split; [done|]. unfold PutLeaves in H. unfold_M. repeat case_match; simplify_eq; try done.
    by eapply putLeavesLoop_wf.
  - split; [done|]. unfold PutSubtrees in H. unfold_M. case_match; simplify_eq; [done|].
    by eapply putSubtreesLoop_wf.
  - split; [done|]. unfold StoreRoot in H. unfold_M.
    repeat (case_match; simplify_eq/=; try done);
      repeat match goal with
      | H : batch_add _ _ = _ |- _ => apply batch_add_wf in H; [|done|by constructor]
      end; done.
  - apply Commit_spec in H as [(_ & -> & Hn)|(_ & -> & ->)]; [|done].
    split; [by apply wf_db_apply_batch|]. unfold tx_wf. rewrite Hn. apply wf_batch_nil.
  - split; [done|]. apply wf_batch_nil.
Qed.
End invariant.

Lemma wrapErr_Ok {S A} fmt (m : M S A) s a :
  fst (wrapErr fmt m s) = Ok a ↔ fst (m s) = Ok a.
Proof. unfold wrapErr. unfold_M. destruct (m s) as [[|e|] s']; naive_solver. Qed.

(** ** Properties *)

Section properties.
Context `{!Codec LogLeaf, !Codec SubtreeProto, !Codec Frontier}.

(** Versioned reads: [getSubtree] answers with the stored subtree of the
    node that has the greatest revision not above the one asked for, and
    with none exactly when there is no such revision. *)
Theorem getSubtree_newest m t rev id :
  wf_db m → int64 t → (0 ≤ rev < 2 ^ 63)%Z → valid_NodeID id →
  (∃ r raw, (0 ≤ r ≤ rev)%Z ∧ m !! subtreeRow t r id = Some raw ∧
     (∀ r', (r < r' ≤ rev)%Z → m !! subtreeRow t r' id = None) ∧
     getSubtree t rev id (mkDB m []) =
       ((λ st, Some (fixPrefix st)) <$> unmarshal raw, mkDB m [])) ∨
  ((∀ r, (0 ≤ r ≤ rev)%Z → m !! subtreeRow t r id = None) ∧
   getSubtree t rev id (mkDB m []) = (Ok None, mkDB m [])).
Proof.
  intros Hm Ht Hr Hid. pose proof (seekRow_newest m t rev id Hm Ht Hr Hid) as Hs.
  unfold getSubtree. rewrite rangeNodeID_valid by done. unfold_M. simpl.
  fold (subtreeRow t rev id). destruct (seekRow _ _ _) as [raw|].
  - destruct Hs as (r & ? & ? & ?). left. exists r, raw. repeat (split; [done|]).
    rewrite dupSlice_id. simpl. by destruct (unmarshal raw).
  - right. split; [done|]. by rewrite dupSlice_id.
Qed.

(** C29. [DequeueLeaves] returns the oldest queued leaves: at most [limit] of
    them, none younger than the cutoff, none left out that is older than one
    returned, and all of them when they are fewer than [limit]; their rows,
    and no others, are marked for deletion and the database is untouched.
    The rows it reads have to decode; other rows of the database need not. *)
Theorem DequeueLeaves_oldest m t seq cutoff limit b :
  wf_db m → int64 t → (0 ≤ cutoff < 2 ^ 63 - 1)%Z →
  (∀ ts noise v, (0 ≤ ts ≤ cutoff)%Z → m !! queueRow t ts noise = Some v →
     ∃ l : LogLeaf, unmarshal v = Ok l) →
  ∃ leaves es,
    DequeueLeaves t seq cutoff limit (mkDB m [], mkLocalTx (Some b)) =
      (Ok leaves, (mkDB m [], mkLocalTx (Some (b ++ (BDelete <$> es.*1))))) ∧
    Forall2 (λ e l, unmarshal e.2 = Ok l) es leaves ∧
    length es ≤ Z.to_nat limit ∧
    (∀ k v, (k, v) ∈ es → m !! k = Some v ∧
       ∃ ts noise, (0 ≤ ts ≤ cutoff)%Z ∧ k = queueRow t ts noise) ∧
    (∀ ts noise v, (0 ≤ ts ≤ cutoff)%Z → length noise = 4 →
       m !! queueRow t ts noise = Some v → (queueRow t ts noise, v) ∉ es →
       length es = Z.to_nat limit ∧
       ∀ ts' noise' v', (0 ≤ ts' ≤ cutoff)%Z →
         (queueRow t ts' noise', v') ∈ es → (ts' ≤ ts)%Z).
Proof.
  intros Hm Ht Hc Hdec.
  destruct (DequeueLeaves_total t seq cutoff limit m b) as (leaves & [b'] & HD).
  { intros k v Hin. apply elem_of_queued in Hin as [? (ts & noise & ? & _ & ->)]; eauto. }
  pose proof (DequeueLeaves_Ok _ _ _ _ _ _ _ _ _ HD) as (_ & Hb & HF). simpl in *. subst b'.
  exists leaves, (take (Z.to_nat limit) (queued m t cutoff)).
  split; [done|]. split; [done|]. split; [rewrite length_take; lia|]. split.
  - intros k v Hin. apply subseteq_take, elem_of_queued in Hin; naive_solver.
  - intros ts noise v Hts Hn Hrow Hnot.
    assert ((queueRow t ts noise, v) ∈ queued m t cutoff) as Hin.
    { apply elem_of_queued; naive_solver. }
    split.
    + rewrite length_take. destruct (decide (length (queued m t cutoff) < Z.to_nat limit));
        [|lia]. by rewrite take_ge in Hnot by lia.
    + intros ts' noise' v' Hts' Hin'.
      pose proof (take_sorted_before key_le _ _ _ _ (Sorted_range _ _ _) Hin' Hin Hnot) as H.
      unfold key_le in H. simpl in H. apply queueRow_ble in H; [done|lia|lia].
Qed.

(** Queueing [n] leaves under fresh row keys makes the unsequenced count
    grow by [n], and queueing changes no other record. *)
Theorem QueueLeaves_Unsequenced rand m t ts leaves b d' n :
  wf_db m → (0 ≤ t < 2 ^ 63 - 1)%Z → (0 ≤ ts < 2 ^ 63)%Z →
  (∀ i noise, rand i = Some noise → length noise = 4) →
  queueBatch rand 0 t ts leaves = Ok b →
  NoDup (op_key <$> b) → (∀ k, k ∈ op_key <$> b → m !! k = None) →
  Unsequenced t (mkDB m []) = (Ok n, d') →
  QueueLeaves rand t ts leaves (mkDB m []) = (Ok (), mkDB (apply_batch m b) []) ∧
  Unsequenced t (mkDB (apply_batch m b) []) =
    (Ok (n + Z.of_nat (length leaves))%Z, mkDB (apply_batch m b) []) ∧
  ∀ k, k ∉ op_key <$> b → apply_batch m b !! k = m !! k.
Proof.
  intros Hm Ht Hts Hnoise Hb Hnd Hfresh Hn.
  split; [unfold QueueLeaves; unfold_M; by rewrite Hb|].
  split; [|intros k; apply apply_batch_other].
  unfold Unsequenced, db_iterate, io, next_fault in *. unfold_M. simpl in *. simplify_eq.
  destruct (queueBatch_Ok _ _ _ _ _ _ Hb) as (rows & -> & Hl & Hrows).
  assert (op_key <$> (uncurry BPut <$> rows) = rows.*1) as Ek.
  { rewrite <-list_fmap_compose. by apply list_fmap_ext; intros ? []. }
  rewrite Ek in *. rewrite length_range_puts, Hl; [by rewrite Nat2Z.inj_add|done|].
  intros k v Hin. split; [apply Hfresh; by apply (list_elem_of_fmap_2 fst _ (k, v))|].
  apply list_elem_of_lookup in Hin as [j Hj].
  destruct (Hrows _ _ _ Hj) as (leaf & noise & _ & Hr & -> & _).
  rewrite rowkeyLeaf_noise by eauto. fold (queueRow t ts noise).
  split; [apply queueStart_ble; eauto|]. rewrite wrap64_small by (unfold int64; lia).
  apply keyPrefix_lt; [done|lia|lia].
Qed.

(** C36. The key layout is an invariant: whatever sequence of calls runs on a
    database, with any faults and errors on the way, its keys stay
    well-formed, and so do the writes pending in the transaction. *)
Theorem local_reachable_wf s s' : rtc local_step s s' → local_inv s → local_inv s'.
Proof. induction 1 as [|s s1 s' Hstep _ IH]; eauto using local_step_inv. Qed.

(** Commits are atomic: a commit either reports success, with exactly
    the recorded writes applied and the batch cleared, or an error, with
    database and batch as before; it does not panic. *)
Theorem Commit_atomic s :
  match Commit s with
  | (Ok _, s') => kv s'.1 = apply_batch (kv s.1) (default [] (batch s.2)) ∧
                  batch s'.2 = None
  | (Err _, s') => kv s'.1 = kv s.1 ∧ s'.2 = s.2
  | (Panic, _) => False
  end.
Proof.
  destruct (Commit s) as [o s'] eqn:E. apply Commit_spec in E.
  destruct E as [(-> & ? & ?)|(-> & ? & ?)]; done.
Qed.

(** Index the leaves of [rows], commit, and look a hash up. *)
Definition indexAndLookup (get : list slice → M DB (list Z)) (t : Z)
    (rows : list (Z * slice * slice)) (h : slice) : M (DB * LocalTx) (list Z) :=
  _ ← zoom snd (λ tx s, (s.1, tx)) (PutLeaves t rows.*1.*1 rows.*1.*2 rows.*2);
  _ ← Commit;
  zoom fst (λ d s, (d, s.2)) (get [h]).

Lemma PutLeaves_Ok t rows b :
  Forall (λ r, seq_fits r.1.1) rows →
  PutLeaves t rows.*1.*1 rows.*1.*2 rows.*2 (mkLocalTx (Some b)) =
  (Ok (), mkLocalTx (Some (b ++ indexOps t rows))).
Proof.
  intros Hf. unfold PutLeaves. rewrite !length_fmap, Nat.eqb_refl. cbn [negb].
  rewrite !zip_fst_snd. by apply putLeavesLoop_Ok.
Qed.

Lemma getSequenceBy_one typ t h m prev :
  fst (getSequenceBy typ t [h] (mkDB m [])) = Ok [prev] ↔
  match m !! keyB typ t (sl h) with
  | Some raw => decodeSeq raw = Ok prev
  | None => prev = (-1)%Z
  end.
Proof.
  unfold getSequenceBy, db_Get, io, next_fault. simpl. unfold_M. simpl.
  destruct (m !! keyB typ t (sl h)) as [raw|]; simpl; [|naive_solver].
  destruct (decodeSeq raw); simpl; naive_solver.
Qed.

(** The leaf indices: after indexing a batch and committing it, looking
    a Merkle hash or an identity hash up yields the sequence number of the
    last leaf of the batch with that hash, or what was found before. *)
Theorem index_roundtrip t rows m h prevM prevI :
  int64 t → Forall (λ r, seq_fits r.1.1) rows →
  fst (GetSequenceByMerkleHash t [h] (mkDB m [])) = Ok [prevM] →
  fst (GetSequenceByIdentityHash t [h] (mkDB m [])) = Ok [prevI] →
  fst (indexAndLookup (GetSequenceByMerkleHash t) t rows h (mkDB m [], Begin)) =
    Ok [match last (filter (λ r, sl r.1.2 = sl h) rows) with
        | Some r => r.1.1 | None => prevM end] ∧
  fst (indexAndLookup (GetSequenceByIdentityHash t) t rows h (mkDB m [], Begin)) =
    Ok [match last (filter (λ r, sl r.2 = sl h) rows) with
        | Some r => r.1.1 | None => prevI end].
Proof.
  intros Ht Hf HM HI.
  assert (∀ typ sel fmt prev, (typ = typ_m ∧ sel = (λ r, r.1.2)) ∨ (typ = typ_i ∧ sel = snd) →
    fst (wrapErr fmt (getSequenceBy typ t [h]) (mkDB m [])) = Ok [prev] →
    fst (indexAndLookup (λ hs, wrapErr fmt (getSequenceBy typ t hs)) t rows h
           (mkDB m [], Begin)) =
    Ok [match last (filter (λ r, sl (sel r) = sl h) rows) with
        | Some r => r.1.1 | None => prev end]) as Hall; [|split; by apply Hall; auto].
  intros typ sel fmt prev Hsel Hprev. apply wrapErr_Ok in Hprev.
  unfold indexAndLookup, zoom. unfold_M. simpl. unfold Begin.
  rewrite PutLeaves_Ok by done. simpl.
  destruct (wrapErr _ _ _) as [o d'] eqn:E. apply (f_equal fst) in E. simpl in E. subst o.
  apply wrapErr_Ok, getSequenceBy_one. rewrite (index_lookup _ _ _ _ _ _ Ht Hsel).
  apply getSequenceBy_one in Hprev.
  destruct (last (filter _ rows)) as [r|] eqn:El; [|done].
  apply last_Some_elem_of, list_elem_of_filter in El as [_ Hr].
  rewrite Forall_forall in Hf.
  destruct (encodeSeq_fits _ (Hf _ Hr)) as (raw & -> & Hd). done.
Qed.

(** Store a root, commit, and read the most recent root back. *)
Definition storeAndRead (t : Z) (root : SignedLogRoot) (front : Frontier)
    : M (DB * LocalTx) (SignedLogRoot * Frontier) :=
  _ ← zoom snd (λ tx s, (s.1, tx)) (StoreRoot t root front);
  _ ← Commit;
  zoom fst (λ d s, (d, s.2)) (MostRecentRoot t).

(** Roots round-trip: the root stored last and committed is the most
    recent root, with the fields of its signed form, its signature and the
    frontier that was stored with it. *)
Theorem root_roundtrip `{!CodecLaws Frontier} t root front l frontRaw m :
  LogRootV1.UnmarshalBinary (sl (LogRoot root)) = Ok l → marshal front = Ok frontRaw →
  fst (storeAndRead t root front (mkDB m [], Begin)) =
  Ok ({| TimestampNanos := wrap64 (LogRootV1.TimestampNanos l);
         RootHash := Some (LogRootV1.RootHash l);
         TreeSize := wrap64 (LogRootV1.TreeSize l);
         TreeRevision := wrap64 (LogRootV1.Revision l);
         KeyHint := Some (SerializeKeyHint t);
         LogRoot := Some (sl (LogRoot root));
         LogRootSignature := Some (sl (LogRootSignature root)) |}, canon front).
Proof.
  intros Hl Hfr. unfold storeAndRead, zoom. unfold_M. simpl.
  unfold StoreRoot. unfold_M. rewrite Hfr. simpl.
  unfold MostRecentRoot, db_Get, io, next_fault. unfold_M. simpl.
  rewrite !dupSlice_id. unfold apply_batch. simpl.
  assert (∀ a b : string, str a ≠ str b → keyS typ_r t a ≠ keyS typ_r t b) as Hne.
  { intros a b Hab E. by apply app_inv_head in E. }
  rewrite lookup_insert_ne by (by apply Hne). rewrite lookup_insert_ne by (by apply Hne).
  rewrite lookup_insert_eq. simpl.
  rewrite lookup_insert_ne by (by apply Hne). rewrite lookup_insert_eq. simpl.
  rewrite lookup_insert_eq. simpl. rewrite Hl. simpl. 
  rewrite !take_app_length. by rewrite (unmarshal_marshal _ _ Hfr).
Qed.
End properties.

(** ** Witnesses *)

Section witnesses.
#[local] Instance leafCodec : Codec LogLeaf := countableCodec LogLeaf.
#[local] Instance subtreeCodec : Codec SubtreeProto := countableCodec SubtreeProto.
#[local] Instance frontierCodec : Codec Frontier := countableCodec Frontier.

Definition exampleLeaf (h : byte) : LogLeaf :=
  mkLogLeaf (Some [h]) (Some [h]) None 0 (Some [h]) None None.

Definition exampleID : NodeID := mkNodeID [Byte.x07] 8.

Definition exampleSubtree : SubtreeProto :=
  mkSubtreeProto (Some [Byte.x07]) 8 None ∅ ∅ 0.

(** Two revisions of a subtree and two queued leaves of log 1. *)
Definition exampleMap : kvmap :=
  let raw := pos_bytes (encode (exampleLeaf Byte.x01)) in
  <[subtreeRow 1 2 exampleID := pos_bytes (encode exampleSubtree)]>
  (<[subtreeRow 1 6 exampleID := raw]>
   (<[queueRow 1 10 [Byte.x00; Byte.x00; Byte.x00; Byte.x01] := raw]>
    (<[queueRow 1 20 [Byte.x00; Byte.x00; Byte.x00; Byte.x02] := raw]> ∅))).

Definition queueOnly : kvmap :=
  let raw := pos_bytes (encode (exampleLeaf Byte.x01)) in
  <[queueRow 1 10 [Byte.x00; Byte.x00; Byte.x00; Byte.x01] := raw]> ∅.

Lemma exampleID_valid : valid_NodeID exampleID.
Proof. unfold valid_NodeID, exampleID. repeat split; vm_compute; congruence. Qed.

Lemma int64_1 : int64 1.
Proof. unfold int64. lia. Qed.

Lemma exampleMap_wf : wf_db exampleMap.
Proof.
  unfold exampleMap, wf_db. intros k v. rewrite !lookup_insert.
  repeat case_decide; subst; intros; try done.
  1,2: apply wf_subtree; [apply int64_1|lia|apply exampleID_valid].
  all: apply wf_leaf; [apply int64_1|lia|done].
Qed.

Lemma queueOnly_wf : wf_db queueOnly.
Proof.
  unfold queueOnly, wf_db. intros k v. rewrite !lookup_insert.
  repeat case_decide; subst; intros; [|done].
  apply wf_leaf; [apply int64_1|lia|done].
Qed.

Lemma getSubtree_newest_witness :
  wf_db exampleMap ∧ getSubtree 1 5 exampleID (mkDB exampleMap []) =
    (Ok (Some exampleSubtree), mkDB exampleMap []) ∧
  ((∃ r raw, (0 ≤ r ≤ 5)%Z ∧ exampleMap !! subtreeRow 1 r exampleID = Some raw ∧
     (∀ r', (r < r' ≤ 5)%Z → exampleMap !! subtreeRow 1 r' exampleID = None) ∧
     getSubtree 1 5 exampleID (mkDB exampleMap []) =
       ((λ st, Some (fixPrefix st)) <$> unmarshal raw, mkDB exampleMap [])) ∨
   ((∀ r, (0 ≤ r ≤ 5)%Z → exampleMap !! subtreeRow 1 r exampleID = None) ∧
    getSubtree 1 5 exampleID (mkDB exampleMap []) = (Ok None, mkDB exampleMap []))).
Proof.
  split; [apply exampleMap_wf|]. split; [vm_compute; reflexivity|].
  apply getSubtree_newest;
    [apply exampleMap_wf|apply int64_1|lia|apply exampleID_valid].
Defined.

Lemma DequeueLeaves_oldest_witness :
  fst (DequeueLeaves 1 0 15 10 (mkDB exampleMap [], Begin)) = Ok [exampleLeaf Byte.x01] ∧
  ∃ leaves es,
    DequeueLeaves 1 0 15 10 (mkDB exampleMap [], mkLocalTx (Some [])) =
      (Ok leaves, (mkDB exampleMap [], mkLocalTx (Some ([] ++ (BDelete <$> es.*1))))) ∧
    Forall2 (λ e l, unmarshal e.2 = Ok l) es leaves.
Proof.
  split; [vm_compute; reflexivity|].
  destruct (DequeueLeaves_oldest exampleMap 1 0 15 10 []) as (ls & es & H1 & H2 & _).
  - apply exampleMap_wf.
  - apply int64_1.
  - lia.
  - intros ts noise v _. unfold exampleMap. rewrite !lookup_insert.
    repeat case_decide; try (by edestruct subtreeRow_queueRow); try done;
      intros [= <-]; exists (exampleLeaf Byte.x01); vm_compute; reflexivity.
  - exists ls, es. split; [exact H1|exact H2].
Defined.

Lemma QueueLeaves_Unsequenced_witness :
  let rand := λ i, Some [Byte.x00; Byte.x00; Byte.x01; z2b (Z.of_nat i)] in
  let leaves := [exampleLeaf Byte.x02; exampleLeaf Byte.x03] in
  ∃ b, queueBatch rand 0 1 30 leaves = Ok b ∧
  Unsequenced 1 (mkDB (apply_batch queueOnly b) []) =
    (Ok (1 + Z.of_nat (length leaves))%Z, mkDB (apply_batch queueOnly b) []).
Proof.
  intros rand leaves. eexists. split; [reflexivity|].
  eapply (QueueLeaves_Unsequenced rand queueOnly 1 30 leaves).
  - apply queueOnly_wf.
  - lia.
  - lia.
  - intros i noise [= <-]. reflexivity.
  - reflexivity.
  - apply (bool_decide_unpack (NoDup _)). vm_compute. exact I.
  - intros k Hk. rewrite list_elem_of_In in Hk. simpl in Hk.
    destruct Hk as [<-|[<-|[]]]; vm_compute; reflexivity.
  - vm_compute. reflexivity.
Defined.

Lemma local_reachable_wf_witness :
  rtc local_step (mkDB queueOnly [], Begin) (mkDB queueOnly [], mkLocalTx None) ∧
  local_inv (mkDB queueOnly [], Begin) ∧
  local_inv (mkDB queueOnly [], mkLocalTx None).
Proof.
  assert (rtc local_step (mkDB queueOnly [], Begin) (mkDB queueOnly [], mkLocalTx None)) as H.
  { apply rtc_once. eapply (step_Commit _ (Ok ())). reflexivity. }
  assert (local_inv (mkDB queueOnly [], Begin)) as H0
    by (split; [apply queueOnly_wf|apply wf_batch_nil]).
  split; [exact H|]. split; [exact H0|]. exact (local_reachable_wf _ _ H H0).
Defined.

Lemma index_roundtrip_witness :
  let rows := [(7%Z, Some [Byte.x01], Some [Byte.x02]); (8%Z, Some [Byte.x03], Some [Byte.x01])] in
  fst (indexAndLookup (GetSequenceByMerkleHash 1) 1 rows (Some [Byte.x01])
    (mkDB ∅ [], Begin)) = Ok [7%Z] ∧
  fst (indexAndLookup (GetSequenceByIdentityHash 1) 1 rows (Some [Byte.x01])
    (mkDB ∅ [], Begin)) = Ok [8%Z].
Proof.
  apply (index_roundtrip 1 [(7%Z, Some [Byte.x01], Some [Byte.x02]);
    (8%Z, Some [Byte.x03], Some [Byte.x01])] ∅ (Some [Byte.x01]) (-1) (-1)).
  - apply int64_1.
  - repeat constructor; unfold seq_fits; simpl; lia.
  - reflexivity.
  - reflexivity.
Defined.

Definition exampleRootV1 : LogRootV1.t := LogRootV1.mk 5 [Byte.x0a] 77 3 [].

Definition exampleRoot : SignedLogRoot :=
  let raw := match LogRootV1.MarshalBinary exampleRootV1 with Ok b => b | _ => [] end in
  mkSignedLogRoot 0 None 0 0 None (Some raw) (Some [Byte.x09]).

Lemma root_roundtrip_witness :
  let front := mkFrontier [Some [Byte.x0b]] in
  fst (storeAndRead 1 exampleRoot front (mkDB ∅ [], Begin)) =
  Ok (mkSignedLogRoot 77 (Some [Byte.x0a]) 5 3 (Some (SerializeKeyHint 1))
        (Some (sl (LogRoot exampleRoot))) (Some [Byte.x09]), front).
Proof.
  apply (root_roundtrip (CodecLaws0 := countableCodec_laws Frontier) 1 exampleRoot
    (mkFrontier [Some [Byte.x0b]]) exampleRootV1
    (pos_bytes (encode (mkFrontier [Some [Byte.x0b]]))) ∅); vm_compute; reflexivity.
Defined.
End witnesses.
