(* ===== verification/Remote.v ===== *)
(** * The remote store of sequenced leaves (src/custom/remote.go)

    [Remote] keeps the leaves of a log in a B2 bucket, 1024 to an object.
    The bucket is a map from names to contents that also carries the faults
    its next calls will meet; JSON is the [Codec] interface with the round trip
    that its documentation gives.  The order in which Go ranges over a map is
    a parameter. *)

From S2P Require Import Prelude Keys Trillian.

(** ** Formatting integers *)

(** The digits of a natural number below [base ^ fuel]. *)
Fixpoint digits (fuel : nat) (base z : Z) : list Z :=
  match fuel with
  | O => []
  | S fuel' =>
      if (z <? base)%Z then [z]
      else digits fuel' base (z `div` base) ++ [z `mod` base]%Z
  end.

(** [%v] (base 10) and [%x] (base 16) of an int64: 64 digits are enough. *)
Definition fmtZ (base z : Z) : bytes :=
  (if (z <? 0)%Z then [Byte.x2d] else []) ++ (hexdigit <$> digits 64 base (Z.abs z)).

(** [fmt.Sprintf("leaves-%v/%x", treeID, batch)] *)
Definition leavesName (treeID batch : Z) : bytes :=
  str "leaves-" ++ fmtZ 10 treeID ++ str "/" ++ fmtZ 16 batch.

(** ** The bucket *)

(** What may happen to a call: it fails, it fails after it took effect, or
    (for a download) the server answers with some status and body. *)
Inductive netFault :=
  | FError
  | FLate
  | FResp (code : Z) (body : bytes).

Record Remote := mkRemote {
  objects : gmap bytes bytes;
  netFaults : list (option netFault)
}.

Definition next_net : M Remote (option netFault) := λ r,
  match netFaults r with
  | [] => (Ok None, r)
  | f :: fs => (Ok f, mkRemote (objects r) fs)
  end.

(** [client.Do]: status and body. *)
Definition http_Get (name : bytes) : M Remote (Z * bytes) :=
  f ← next_net;
  match f with
  | None =>
      r ← get;
      match objects r !! name with
      | Some body => mret (200%Z, body)
      | None => mret (404%Z, [])
      end
  | Some (FResp code body) => mret (code, body)
  | Some _ => fail ErrIO
  end.

(** [b2.Bucket(name)]: a call without effect. *)
Definition b2_Bucket : M Remote unit :=
  f ← next_net;
  match f with None => mret () | Some _ => fail ErrIO end.

Definition b2_UploadFile (name body : bytes) : M Remote unit :=
  f ← next_net;
  match f with
  | None => modify (λ r, mkRemote (<[name := body]> (objects r)) (netFaults r))
  | Some FLate =>
      _ ← modify (λ r, mkRemote (<[name := body]> (objects r)) (netFaults r));
      fail ErrIO
  | Some _ => fail ErrIO
  end.

(** ** JSON *)

(** JSON with [omitempty] does not tell an empty byte slice from nil. *)
Definition omitEmpty (s : slice) : slice :=
  match s with Some [] => None | _ => s end.

Definition jsonLeaf (l : LogLeaf) : LogLeaf :=
  mkLogLeaf (omitEmpty (MerkleLeafHash l)) (omitEmpty (LeafValue l))
    (omitEmpty (ExtraData l)) (LeafIndex l) (omitEmpty (LeafIdentityHash l))
    (QueueTimestamp l) (IntegrateTimestamp l).

(** What the code relies on of [encoding/json]. *)
Class JSONLaws `{Codec (list LogLeaf)} : Prop := {
  json_marshal_Ok (ls : list LogLeaf) : ∃ b, marshal ls = Ok b;
  json_roundtrip (ls : list LogLeaf) b :
    marshal ls = Ok b → unmarshal b = Ok (jsonLeaf <$> ls)
}.

(** ** Operations *)

Definition err_status : error := Errorf "unexpected response status: %v".
Definition err_truncated : error := Errorf "set of stored leaves is truncated".
Definition err_same_position : error := Errorf "multiple leaves in the same position".
Definition err_gap : error := Errorf "gap in set of leaves to store".
Definition err_too_many : error := Errorf "too many leaves stored in batch".

(** The position of a leaf: its object and its place there. *)
Definition batchOf (seq : Z) : Z := godiv seq 1024.
Definition offOf (seq : Z) : Z := gorem seq 1024.

(** [sort.Sort(int64Slice(seqs))], in place, unless sorted already. *)
Definition sortSeqs (seqs : list Z) : list Z :=
  if bool_decide (Sorted Z.le seqs) then seqs else merge_sort Z.le seqs.

(** [data[off]]: a panic out of range. *)
Definition indexLeaf (data : list LogLeaf) (off : Z) : outcome LogLeaf :=
  if (off <? 0)%Z then Panic
  else match data !! Z.to_nat off with Some l => Ok l | None => Panic end.

(** The inner loop of [GetLeaves]: leaves taken from one batch for consecutive
    sequence numbers, and the sequence numbers left. *)
Fixpoint takeRun (data : list LogLeaf) (off : Z) (seqs : list Z)
    : outcome (list LogLeaf * list Z) :=
  match seqs with
  | [] => Ok ([], [])
  | seq :: seqs' =>
      leaf ← indexLeaf data off;
      match seqs' with
      | next :: _ =>
          if ((off + 1 <? Z.of_nat (length data)) && (wrap64 (seq + 1) =? next))%Z then
            '(out, rest) ← takeRun data (off + 1)%Z seqs';
            mret (leaf :: out, rest)
          else mret ([leaf], seqs')
      | [] => mret ([leaf], [])
      end
  end.

Section remote.
Context `{!Codec (list LogLeaf)}.

Definition getBatch (treeID batch : Z) : M Remote (list LogLeaf) :=
  '(code, body) ← http_Get (leavesName treeID batch);
  if (code =? 404)%Z then fail ErrLeavesNotFound
  else if negb (code =? 200)%Z then fail err_status
  else lift (unmarshal body).

(** The outer loop of [GetLeaves]; each round consumes a sequence number, so
    [length seqs] rounds are enough. *)
Fixpoint getLoop (fuel : nat) (treeID : Z) (seqs : list Z) : M Remote (list LogLeaf) :=
  match fuel, seqs with
  | _, [] => mret []
  | O, _ => panic
  | S fuel', seq :: _ =>
      let batch := batchOf seq in
      let off := offOf seq in
      data ← getBatch treeID batch;
      if (Z.of_nat (length data) <=? off)%Z then fail err_truncated
      else
        '(out, rest) ← lift (takeRun data off seqs);
        more ← getLoop fuel' treeID rest;
        mret (out ++ more)
  end.

(** [GetLeaves] returns the leaves and leaves the caller's slice sorted; the
    second component is that slice after the call. *)
Definition GetLeaves (treeID : Z) (seqs : list Z) : M Remote (list LogLeaf * list Z) :=
  if (length seqs =? 0)%nat then mret ([], seqs)
  else
    let seqs := sortSeqs seqs in
    out ← getLoop (length seqs) treeID seqs;
    mret (out, seqs).

(** Group leaves into batches. *)
Definition groupLeaves (leaves : list LogLeaf) : gmap Z (list LogLeaf) :=
  fold_left (λ batches leaf,
    let b := batchOf (LeafIndex leaf) in
    <[b := default [] (batches !! b) ++ [leaf]]> batches) leaves ∅.

Fixpoint placeNew (pos : gmap Z LogLeaf) (leaves : list LogLeaf) : outcome (gmap Z LogLeaf) :=
  match leaves with
  | [] => Ok pos
  | leaf :: leaves' =>
      let off := offOf (LeafIndex leaf) in
      match pos !! off with
      | Some _ => Err err_same_position
      | None => placeNew (<[off := leaf]> pos) leaves'
      end
  end.

Definition placeExisting (pos : gmap Z LogLeaf) (existing : list LogLeaf) : gmap Z LogLeaf :=
  fold_left (λ pos leaf,
    let off := offOf (LeafIndex leaf) in
    match pos !! off with
    | Some _ => pos
    | None => <[off := leaf]> pos
    end) existing pos.

(** The loop [for i := 0; i < 1024; i++], with [n] rounds left. *)
Fixpoint collect (n : nat) (i : Z) (pos : gmap Z LogLeaf)
    : outcome (list LogLeaf * gmap Z LogLeaf) :=
  match n with
  | O => Ok ([], pos)
  | S n' =>
      match pos !! i with
      | None => Err err_gap
      | Some leaf =>
          let pos := delete i pos in
          if (size pos =? 0)%nat then Ok ([leaf], pos)
          else
            '(updated, pos) ← collect n' (i + 1)%Z pos;
            mret (leaf :: updated, pos)
      end
  end.

(** The leaves of a batch after new ones are merged into it. *)
Definition mergeBatch (existing leaves : list LogLeaf) : outcome (list LogLeaf) :=
  pos ← placeNew ∅ leaves;
  '(updated, pos) ← collect 1024 0 (placeExisting pos existing);
  if (0 <? size pos)%nat then Err err_too_many else Ok updated.

Definition putBatch (treeID b : Z) (leaves : list LogLeaf) : M Remote unit :=
  r ← try (getBatch treeID b);
  existing ← match r with
             | Err ErrLeavesNotFound => mret []
             | _ => lift r
             end;
  updated ← lift (mergeBatch existing leaves);
  buff ← lift (marshal updated);
  _ ← b2_Bucket;
  b2_UploadFile (leavesName treeID b) buff.

Definition PutLeaves `{!MapRange Z} (treeID : Z) (leaves : list LogLeaf) : M Remote unit :=
  mfold (λ _ '(b, leaves), putBatch treeID b leaves) () (map_range (groupLeaves leaves)).
End remote.

(** ** What the bucket holds *)

(** Leaves with consecutive indices from [n]. *)
Definition contig (n : Z) (ls : list LogLeaf) : Prop :=
  ∀ k l, ls !! k = Some l → LeafIndex l = (n + Z.of_nat k)%Z.

(** Faults other than a forged success. *)
Definition benign (f : option netFault) : Prop :=
  match f with Some (FResp code _) => code ≠ 200%Z | _ => True end.

Definition validBatch (b : Z) : Prop := (0 ≤ b < 2 ^ 53)%Z.

Section bucket.
Context `{!Codec (list LogLeaf)}.

Definition stored (r : Remote) (treeID b : Z) : option (list LogLeaf) :=
  raw ← objects r !! leavesName treeID b;
  match unmarshal raw with Ok ls => Some ls | _ => None end.

(** Every object of the log decodes to leaves at their own positions. *)
Definition wf_remote (treeID : Z) (r : Remote) : Prop :=
  ∀ b raw, validBatch b → objects r !! leavesName treeID b = Some raw →
  ∃ ls, unmarshal raw = Ok ls ∧ length ls ≤ 1024 ∧ contig (1024 * b) ls.

(** The leaf that is stored at a position. *)
Definition storedLeaf (r : Remote) (treeID seq : Z) : option LogLeaf :=
  ls ← stored r treeID (seq `div` 1024);
  ls !! Z.to_nat (seq `mod` 1024).

(** The bucket holds the leaves of [log], and perhaps more. *)
Definition covers (r : Remote) (treeID : Z) (log : list LogLeaf) : Prop :=
  ∀ i l, log !! i = Some l → storedLeaf r treeID (Z.of_nat i) = Some (jsonLeaf l).
End bucket.

(** ** Lemmas *)

(** *** Names *)

Definition digitsVal (base : Z) (ds : list Z) : Z :=
  fold_left (λ acc d, acc * base + d)%Z ds 0%Z.

Lemma digitsVal_digits fuel base z :
  (2 ≤ base)%Z → (0 ≤ z < base ^ Z.of_nat fuel)%Z → digitsVal base (digits fuel base z) = z.
Proof.
  intros Hb. revert z. induction fuel as [|fuel IH]; intros z Hz; simpl.
  { simpl in Hz. unfold digitsVal. simpl. lia. }
  destruct (Z.ltb_spec z base); [unfold digitsVal; simpl; lia|].
  unfold digitsVal in *. rewrite fold_left_app, IH; simpl.
  - pose proof (Z.div_mod z base). lia.
  - rewrite Nat2Z.inj_succ, Z.pow_succ_r in Hz by lia.
    split; [apply Z.div_pos; lia|]. apply Z.div_lt_upper_bound; lia.
Qed.

Lemma digits_range fuel base z :
  (2 ≤ base)%Z → (0 ≤ z)%Z → Forall (λ d, 0 ≤ d < base)%Z (digits fuel base z).
Proof.
  intros Hb. revert z. induction fuel as [|fuel IH]; intros z Hz; simpl; [constructor|].
  destruct (Z.ltb_spec z base); [repeat constructor; lia|].
  rewrite Forall_app, Forall_singleton. split; [apply IH, Z.div_pos; lia|].
  apply Z.mod_pos_bound. lia.
Qed.

Lemma hexdigit_inj a b :
  (0 ≤ a < 16)%Z → (0 ≤ b < 16)%Z → hexdigit a = hexdigit b → a = b.
Proof.
  intros Ha Hb E. apply (f_equal b2z) in E. rewrite !b2z_hexdigit in E by lia.
  repeat case_match; lia.
Qed.

Lemma map_hexdigit_inj l l' :
  Forall (λ d, 0 ≤ d < 16)%Z l → Forall (λ d, 0 ≤ d < 16)%Z l' →
  hexdigit <$> l = hexdigit <$> l' → l = l'.
Proof.
  intros Hl. revert l'. induction Hl as [|d l Hd Hl IH]; intros [|d' l'] Hl' E; try done.
  inversion Hl'; subst. rewrite !fmap_cons in E. injection E as E1 E2.
  f_equal; [by apply hexdigit_inj|by apply IH].
Qed.

(** No digit is a minus sign or a slash. *)
Lemma fmtZ_digits base z c :
  (2 ≤ base ≤ 16)%Z → c = Byte.x2d ∨ c = Byte.x2f →
  c ∉ hexdigit <$> digits 64 base (Z.abs z).
Proof.
  intros Hb Hc Hin. apply list_elem_of_fmap in Hin as (d & -> & Hd).
  pose proof (digits_range 64 base (Z.abs z)) as Hr. rewrite Forall_forall in Hr.
  specialize (Hr ltac:(lia) ltac:(lia) d Hd). simpl in Hr.
  destruct Hc as [Hc|Hc]; apply (f_equal b2z) in Hc; rewrite b2z_hexdigit in Hc by lia;
    revert Hc; case_match; change (b2z Byte.x2d) with 45%Z;
    change (b2z Byte.x2f) with 47%Z; lia.
Qed.

Lemma pow_base_64 base : (2 ≤ base)%Z → (2 ^ 64 ≤ base ^ Z.of_nat 64)%Z.
Proof. intros. apply (Z.pow_le_mono_l 2 base 64). lia. Qed.

Lemma sign_app_inj (neg neg' : bool) (u v : bytes) :
  Byte.x2d ∉ u → Byte.x2d ∉ v →
  (if neg then [Byte.x2d] else []) ++ u = (if neg' then [Byte.x2d] else []) ++ v →
  neg = neg' ∧ u = v.
Proof.
  intros Hu Hv E. destruct neg, neg'; simplify_eq/=; try done.
  - by destruct Hv; left.
  - by destruct Hu; left.
Qed.

Lemma fmtZ_inj base x y :
  (2 ≤ base ≤ 16)%Z → int64 x → int64 y → fmtZ base x = fmtZ base y → x = y.
Proof.
  unfold int64. intros Hb Hx Hy E. unfold fmtZ in E. pose proof (pow_base_64 base).
  apply sign_app_inj in E as [Es E]; [|apply fmtZ_digits; auto..].
  apply map_hexdigit_inj in E;
    [|(eapply Forall_impl; [apply digits_range; lia|simpl; lia])..].
  assert (Z.abs x = Z.abs y).
  { rewrite <-(digitsVal_digits 64 base (Z.abs x)), E by lia. apply digitsVal_digits; lia. }
  destruct (Z.ltb_spec x 0), (Z.ltb_spec y 0); try done; lia.
Qed.

Lemma app_cons_split {A} (c : A) a b u v :
  c ∉ a → c ∉ b → a ++ c :: u = b ++ c :: v → a = b ∧ u = v.
Proof.
  revert b. induction a as [|x a IH]; intros [|y b] Ha Hb E; simplify_eq/=;
    [done|by destruct Hb; left|by destruct Ha; left|].
  rewrite not_elem_of_cons in Ha, Hb. destruct (IH b) as [-> ->]; naive_solver.
Qed.

Lemma leavesName_split t t' b b' :
  leavesName t b = leavesName t' b' → fmtZ 10 t = fmtZ 10 t' ∧ fmtZ 16 b = fmtZ 16 b'.
Proof.
  intros E. unfold leavesName in E. apply app_inv_head in E.
  assert (∀ z, Byte.x2f ∉ fmtZ 10 z) as Hs.
  { intros z. unfold fmtZ. rewrite not_elem_of_app. split.
    - case_match; rewrite ?list_elem_of_singleton; [done|apply not_elem_of_nil].
    - apply fmtZ_digits; [lia|by right]. }
  change (str "/") with [Byte.x2f] in E. cbn [app] in E. apply app_cons_split in E; [done|apply Hs..].
Qed.

Lemma leavesName_tree t t' b b' :
  int64 t → int64 t' → leavesName t b = leavesName t' b' → t = t'.
Proof. intros Ht Ht' [E _]%leavesName_split. eapply (fmtZ_inj 10); eauto; lia. Qed.

Lemma leavesName_inj t t' b b' :
  int64 t → int64 t' → int64 b → int64 b' →
  leavesName t b = leavesName t' b' → t = t' ∧ b = b'.
Proof.
  intros Ht Ht' Hb Hb' [E1 E2]%leavesName_split.
  split; [eapply (fmtZ_inj 10)|eapply (fmtZ_inj 16)]; eauto; lia.
Qed.

(** *** Positions *)

Lemma batchOf_div seq : (0 ≤ seq)%Z → batchOf seq = (seq `div` 1024)%Z.
Proof. intros. apply Z.quot_div_nonneg; lia. Qed.

Lemma offOf_mod seq : (0 ≤ seq)%Z → offOf seq = (seq `mod` 1024)%Z.
Proof. intros. apply Z.rem_mod_nonneg; lia. Qed.

(** A position by its batch and offset. *)
Lemma position b off :
  (0 ≤ b)%Z → (0 ≤ off < 1024)%Z →
  batchOf (1024 * b + off) = b ∧ offOf (1024 * b + off) = off ∧
  ((1024 * b + off) `div` 1024 = b)%Z ∧ ((1024 * b + off) `mod` 1024 = off)%Z.
Proof.
  intros Hb Ho. rewrite batchOf_div, offOf_mod by lia.
  assert (((1024 * b + off) `div` 1024 = b)%Z) as ->
    by (rewrite Z.mul_comm, Z.div_add_l, Z.div_small; lia).
  assert (((1024 * b + off) `mod` 1024 = off)%Z) as ->
    by (rewrite Z.add_comm, Z.mul_comm, Z.mod_add, Z.mod_small; lia).
  done.
Qed.

Lemma position_split seq :
  (0 ≤ seq)%Z → ∃ b off, (0 ≤ b)%Z ∧ (0 ≤ off < 1024)%Z ∧ seq = (1024 * b + off)%Z.
Proof.
  intros. exists (seq `div` 1024)%Z, (seq `mod` 1024)%Z.
  split; [apply Z.div_pos; lia|]. split; [apply Z.mod_pos_bound; lia|].
  apply Z.div_mod. lia.
Qed.

Lemma contig_cons n l ls : contig n (l :: ls) ↔ LeafIndex l = n ∧ contig (n + 1) ls.
Proof.
  unfold contig. split.
  - intros H. split; [rewrite (H 0 l eq_refl); lia|].
    intros k l' Hk. rewrite (H (S k) l' Hk). lia.
  - intros [H1 H2] [|k] l' Hk; simplify_eq/=; [lia|]. rewrite (H2 k l' Hk). lia.
Qed.

Lemma contig_app n l1 l2 : contig n l1 → contig (n + Z.of_nat (length l1)) l2 → contig n (l1 ++ l2).
Proof.
  intros H1 H2 k l [Hl|[Hk Hl]]%lookup_app_Some; [by apply H1|]. rewrite (H2 _ _ Hl). lia.
Qed.

Lemma contig_jsonLeaf n ls : contig n ls → contig n (jsonLeaf <$> ls).
Proof. intros H k l. rewrite list_lookup_fmap_Some. intros (l' & -> & Hk). exact (H k l' Hk). Qed.

Lemma jsonLeaf_idemp l : jsonLeaf (jsonLeaf l) = jsonLeaf l.
Proof.
  assert (∀ s, omitEmpty (omitEmpty s) = omitEmpty s) as H by (by intros [[|? ?]|]).
  unfold jsonLeaf. simpl. by rewrite !H.
Qed.

(** *** Merging a batch *)

(** Leaves at consecutive places of one batch. *)
Lemma placeNew_spec b off leaves pos :
  (0 ≤ b)%Z → (0 ≤ off)%Z → (off + Z.of_nat (length leaves) ≤ 1024)%Z →
  contig (1024 * b + off) leaves →
  (∀ j, (off ≤ j)%Z → pos !! j = None) →
  ∃ pos', placeNew pos leaves = Ok pos' ∧
    ∀ j, pos' !! j = if decide (off ≤ j)%Z then leaves !! Z.to_nat (j - off) else pos !! j.
Proof.
  intros Hb. revert off pos. induction leaves as [|l leaves IH]; intros off pos Ho Hl Hc Hp; simpl.
  { exists pos. split; [done|]. intros j. case_decide; [|done]. by apply Hp. }
  apply contig_cons in Hc as [Hi Hc]. simpl in Hl.
  rewrite Hi, (proj1 (proj2 (position b off Hb ltac:(lia)))), Hp by lia.
  destruct (IH (off + 1)%Z (<[off:=l]> pos)) as (pos' & -> & H'); try lia.
  { by rewrite Z.add_assoc. }
  { intros j Hj. rewrite lookup_insert_ne by lia. apply Hp. lia. }
  exists pos'. split; [done|]. intros j. rewrite H'.
  destruct (decide (j = off)) as [->|Hne].
  - rewrite decide_False, decide_True by lia.
    rewrite lookup_insert_eq. by replace (Z.to_nat (off - off)) with 0%nat by lia.
  - rewrite lookup_insert_ne by lia. repeat case_decide; try lia; [|done].
    by replace (Z.to_nat (j - off)) with (S (Z.to_nat (j - (off + 1)))) by lia.
Qed.

Lemma placeExisting_spec b existing off pos :
  (0 ≤ b)%Z → (0 ≤ off)%Z → (off + Z.of_nat (length existing) ≤ 1024)%Z →
  contig (1024 * b + off) existing →
  ∀ j, placeExisting pos existing !! j =
    match pos !! j with
    | Some l => Some l
    | None => if decide (off ≤ j)%Z then existing !! Z.to_nat (j - off) else None
    end.
Proof.
  intros Hb. revert off pos. induction existing as [|l ls IH]; intros off pos Ho Hl Hc j; simpl.
  { destruct (pos !! j); [done|]. by case_decide. }
  apply contig_cons in Hc as [Hi Hc]. simpl in Hl. unfold placeExisting in *. simpl.
  rewrite Hi, (proj1 (proj2 (position b off Hb ltac:(lia)))).
  rewrite (IH (off + 1)%Z); [|lia|lia|by rewrite Z.add_assoc].
  destruct (decide (j = off)) as [->|Hne].
  - rewrite decide_False, decide_True by lia.
    replace (Z.to_nat (off - off)) with 0%nat by lia. simpl.
    destruct (pos !! off) eqn:E; [by rewrite E|]. by rewrite lookup_insert_eq.
  - replace (match pos !! off with Some _ => pos | None => <[off:=l]> pos end !! j)
      with (pos !! j) by (case_match; [done|by rewrite lookup_insert_ne by lia]).
    destruct (pos !! j); [done|]. repeat case_decide; try lia; [|done].
    by replace (Z.to_nat (j - off)) with (S (Z.to_nat (j - (off + 1)))) by lia.
Qed.

(** Positions [i .. i + k - 1] taken, and no others: they are collected in
    order. *)
Lemma collect_spec n i k pos :
  (1 ≤ k ≤ n)%nat →
  (∀ j, is_Some (pos !! j) ↔ (i ≤ j < i + Z.of_nat k)%Z) →
  ∃ ls, collect n i pos = Ok (ls, ∅) ∧ length ls = k ∧
    ∀ j, (j < k)%nat → ls !! j = pos !! (i + Z.of_nat j)%Z.
Proof.
  revert i k pos. induction n as [|n IH]; intros i k pos Hk Hd; [lia|]. simpl.
  destruct (pos !! i) as [l|] eqn:El; [|exfalso].
  2:{ apply eq_None_not_Some in El. apply El, Hd. lia. }
  assert (∀ j, is_Some (delete i pos !! j) ↔ (i + 1 ≤ j < i + 1 + Z.of_nat (k - 1))%Z) as Hd'.
  { intros j. rewrite lookup_delete_is_Some, Hd. lia. }
  destruct (Nat.eqb_spec (size (delete i pos)) 0) as [Hs|Hs].
  - apply map_size_empty_inv in Hs. rewrite Hs in *. exists [l].
    assert (k = 1) as ->.
    { destruct (decide (k = 1)); [done|]. specialize (Hd' (i + 1)%Z).
      rewrite lookup_empty in Hd'. destruct Hd' as [_ Hd']. destruct Hd'; [lia|done]. }
    split; [done|]. split; [done|]. intros [|j] Hj; [|lia]. by rewrite Z.add_0_r, El.
  - assert (1 < k).
    { destruct (decide (k = 1)) as [->|]; [|lia]. destruct Hs.
      apply map_size_empty_iff, map_empty. intros j.
      apply eq_None_not_Some. rewrite Hd'. lia. }
    destruct (IH (i + 1)%Z (k - 1)%nat (delete i pos)) as (ls & Hc & Hl & Hls); [lia|done|].
    unfold_O. rewrite Hc. exists (l :: ls). split; [done|]. split; [simpl; lia|].
    intros [|j] Hj; simpl; [by rewrite Z.add_0_r, El|].
    rewrite Hls, lookup_delete_ne by lia. f_equal. lia.
Qed.

(** A position missing below a later one is an error. *)
Lemma collect_gap n i j k pos :
  (i ≤ j < k)%Z → (j < i + Z.of_nat n)%Z → pos !! j = None → is_Some (pos !! k) →
  collect n i pos = Err err_gap.
Proof.
  revert i pos. induction n as [|n IH]; intros i pos Hij Hn Hj Hk; [lia|]. simpl.
  destruct (pos !! i) as [l|] eqn:El; [|done].
  assert (i ≠ j) by congruence.
  assert (is_Some (delete i pos !! k)) as Hk' by (rewrite lookup_delete_ne; [done|lia]).
  destruct (Nat.eqb_spec (size (delete i pos)) 0) as [Hs|Hs].
  { apply map_size_empty_inv in Hs. rewrite Hs in Hk'. by destruct Hk'. }
  unfold_O. rewrite IH; [done|lia|lia| |done]. by rewrite lookup_delete_ne.
Qed.

(** [mergeBatch] overwrites a segment of the batch and keeps the rest; a
    segment that starts past its end is refused. *)
Lemma mergeBatch_spec b off existing leaves :
  (0 ≤ b)%Z → contig (1024 * b) existing → length existing ≤ 1024 →
  leaves ≠ [] → contig (1024 * b + Z.of_nat off) leaves → off + length leaves ≤ 1024 →
  (length existing < off ∧ mergeBatch existing leaves = Err err_gap) ∨
  (off ≤ length existing ∧ ∃ updated, mergeBatch existing leaves = Ok updated ∧
    length updated = max (length existing) (off + length leaves) ∧
    ∀ j, updated !! j =
      if decide (off ≤ j < off + length leaves) then leaves !! (j - off) else existing !! j).
Proof.
  intros Hb He Hle Hne Hc Hl.
  assert (0 < length leaves) by (destruct leaves; simpl; [done|lia]).
  destruct (placeNew_spec b (Z.of_nat off) leaves ∅) as (pos & Hp & Hpos);
    [lia|lia|lia|done|intros; apply lookup_empty|].
  unfold mergeBatch. unfold_O. rewrite Hp.
  pose proof (placeExisting_spec b existing 0 pos Hb ltac:(lia) ltac:(lia)
    ltac:(by rewrite Z.add_0_r)) as Hpe.
  assert (∀ j, (0 ≤ j)%Z → placeExisting pos existing !! j =
    if decide (off ≤ Z.to_nat j < off + length leaves)%nat
    then leaves !! (Z.to_nat j - off)%nat else existing !! Z.to_nat j) as Hall.
  { intros j Hj. rewrite Hpe, Hpos, lookup_empty, (decide_True (P := (0 ≤ j)%Z)) by lia.
    rewrite Z.sub_0_r. replace (Z.to_nat (j - Z.of_nat off)) with (Z.to_nat j - off)%nat by lia.
    destruct (decide (Z.of_nat off ≤ j)%Z) as [Hj'|Hj'].
    - destruct (leaves !! (Z.to_nat j - off)%nat) as [l|] eqn:E.
      + rewrite decide_True; [done|]. apply lookup_lt_Some in E. lia.
      + rewrite decide_False; [done|]. apply lookup_ge_None in E. lia.
    - rewrite decide_False by lia. done. }
  assert (∀ j, (j < 0)%Z → placeExisting pos existing !! j = None) as Hneg.
  { intros j Hj. rewrite Hpe, Hpos, lookup_empty. by rewrite !decide_False by lia. }
  destruct (decide (off ≤ length existing)) as [Hoff|Hoff].
  - right. split; [done|].
    destruct (collect_spec 1024 0 (max (length existing) (off + length leaves))
      (placeExisting pos existing)) as (ls & -> & Hls & Hlk); [lia| |].
    { intros j. destruct (decide (j < 0)%Z); [rewrite Hneg by done; split; [by intros []|lia]|].
      rewrite Hall by lia. case_decide; rewrite lookup_lt_is_Some; lia. }
    rewrite map_size_empty. simpl. exists ls. split; [done|]. split; [done|].
    intros j. destruct (decide (j < max (length existing) (off + length leaves))) as [Hj|Hj].
    + rewrite Hlk, Hall by lia. by rewrite Z.add_0_l, Nat2Z.id.
    + rewrite decide_False by lia.
      trans (@None LogLeaf); [|symmetry]; apply lookup_ge_None; lia.
  - left. split; [lia|]. rewrite (collect_gap 1024 0 (Z.of_nat (length existing)) (Z.of_nat off)).
    + done.
    + lia.
    + lia.
    + rewrite Hall, decide_False by lia. apply lookup_ge_None. lia.
    + rewrite Hall, decide_True by lia. apply lookup_lt_is_Some. lia.
Qed.

(** *** Grouping *)

Definition inBatch (b : Z) (ls : list LogLeaf) : list LogLeaf :=
  filter (λ l, batchOf (LeafIndex l) = b) ls.

Lemma groupLeaves_lookup leaves b :
  groupLeaves leaves !! b =
  match inBatch b leaves with [] => None | f => Some f end.
Proof.
  unfold groupLeaves, inBatch. induction leaves as [|l ls IH] using rev_ind; [done|].
  rewrite fold_left_app, filter_app. simpl. rewrite filter_cons, filter_nil.
  case_decide as E; subst.
  - rewrite lookup_insert_eq, IH. by destruct (filter _ ls).
  - rewrite lookup_insert_ne by done. by rewrite app_nil_r.
Qed.

Lemma inBatch_contig n b ls :
  (0 ≤ n)%Z → contig n ls → contig (Z.max n (1024 * b)) (inBatch b ls).
Proof.
  unfold inBatch. revert n. induction ls as [|l ls IH]; intros n Hn Hc; [done|].
  apply contig_cons in Hc as [Hi Hc]. specialize (IH (n + 1)%Z ltac:(lia) Hc).
  rewrite filter_cons, Hi, batchOf_div by lia.
  pose proof (Z.div_mod n 1024 ltac:(lia)). pose proof (Z.mod_pos_bound n 1024 ltac:(lia)).
  case_decide as Hb.
  - apply contig_cons. replace (Z.max n (1024 * b)) with n by lia. split; [done|].
    by replace (Z.max (n + 1) (1024 * b)) with (n + 1)%Z in IH by lia.
  - destruct (decide (n `div` 1024 < b)%Z).
    + by replace (Z.max (n + 1) (1024 * b)) with (Z.max n (1024 * b)) in IH by lia.
    + destruct (filter _ ls) as [|l' f] eqn:Ef; [done|]. exfalso.
      assert (l' ∈ filter (λ l, batchOf (LeafIndex l) = b) ls) as Hin by (rewrite Ef; by left).
      apply list_elem_of_filter in Hin as [Hb' [k Hk]%list_elem_of_lookup].
      apply Hc in Hk. rewrite batchOf_div in Hb' by lia.
      assert (n `div` 1024 ≤ LeafIndex l' `div` 1024)%Z by (apply Z.div_le_mono; lia). lia.
Qed.

(** A batch of new leaves as a segment of the object. *)
Lemma inBatch_segment n b ls :
  (0 ≤ n)%Z → contig n ls → inBatch b ls ≠ [] →
  ∃ off : nat, (0 ≤ b)%Z ∧ (1024 * b + Z.of_nat off = Z.max n (1024 * b))%Z ∧
    off + length (inBatch b ls) ≤ 1024 ∧ contig (1024 * b + Z.of_nat off) (inBatch b ls).
Proof.
  intros Hn Hc Hne. pose proof (inBatch_contig n b ls Hn Hc) as Hf.
  assert (∀ k l, inBatch b ls !! k = Some l →
    (Z.max n (1024 * b) + Z.of_nat k) `div` 1024 = b)%Z as Hk.
  { intros k l Hk. rewrite <-(Hf k l Hk).
    assert (l ∈ inBatch b ls) as Hin by (by eapply list_elem_of_lookup_2).
    unfold inBatch in Hin. apply list_elem_of_filter in Hin as [<- _].
    rewrite batchOf_div; [done|]. rewrite (Hf k l Hk). lia. }
  set (f := inBatch b ls) in *.
  destruct (last f) as [l|] eqn:El; [|by apply last_None in El].
  rewrite last_lookup in El. specialize (Hk _ _ El).
  assert (0 < length f) by (destruct f; simpl; [done|lia]).
  set (m := (Z.max n (1024 * b) + Z.of_nat (pred (length f)))%Z) in *.
  pose proof (Z.div_mod m 1024 ltac:(lia)). pose proof (Z.mod_pos_bound m 1024 ltac:(lia)).
  assert (0 ≤ b)%Z by (rewrite <-Hk; apply Z.div_pos; lia).
  exists (Z.to_nat (Z.max n (1024 * b) - 1024 * b)).
  rewrite Z2Nat.id by lia. repeat split; [lia|lia|lia|].
  by replace (1024 * b + (Z.max n (1024 * b) - 1024 * b))%Z with (Z.max n (1024 * b)) by lia.
Qed.

(** *** Downloads and uploads *)

Section remote_facts.
Context `{!Codec (list LogLeaf), !JSONLaws}.

Lemma stored_objects r r' t b :
  objects r' !! leavesName t b = objects r !! leavesName t b → stored r' t b = stored r t b.
Proof. unfold stored. by intros ->. Qed.

(** What a download yields when no response is forged. *)
Lemma getBatch_cases t b r :
  Forall benign (netFaults r) → wf_remote t r → validBatch b →
  ∃ o fs, getBatch t b r = (o, mkRemote (objects r) fs) ∧ Forall benign fs ∧
    (netFaults r = [] → fs = []) ∧
    ((∃ ls, o = Ok ls ∧ stored r t b = Some ls) ∨
     (o = Err ErrLeavesNotFound ∧ (netFaults r = [] → stored r t b = None)) ∨
     ((∃ e, o = Err e ∧ e ≠ ErrLeavesNotFound) ∧ netFaults r ≠ [])).
Proof.
  intros Hf Hw Hb. unfold getBatch, http_Get, next_net. unfold_M.
  destruct r as [obj [|[f|] fs]]; simpl in *.
  - destruct (obj !! leavesName t b) as [raw|] eqn:E; simpl.
    + destruct (Hw b raw Hb E) as (ls & Hls & _). rewrite Hls.
      eexists _, []. split; [done|]. split; [done|]. split; [done|].
      left. exists ls. split; [done|]. unfold stored. simpl. rewrite E. simpl. by rewrite Hls.
    + eexists _, []. split; [done|]. split; [done|]. split; [done|]. right; left.
      split; [done|]. intros _. unfold stored. simpl. by rewrite E.
  - apply Forall_cons in Hf as [Hf Hfs]. destruct f as [| |code body]; simpl.
    1,2: eexists _, fs; split; [done|]; split; [done|]; split; [done|];
      right; right; split; [by eexists|done].
    simpl in Hf. destruct (Z.eqb_spec code 404); [|destruct (Z.eqb_spec code 200); [done|]];
      simpl; eexists _, fs; (split; [done|]); (split; [done|]); (split; [done|]); right.
    + by left.
    + right. split; [by eexists|done].
  - apply Forall_cons in Hf as [_ Hfs]. destruct (obj !! leavesName t b) as [raw|] eqn:E; simpl.
    + destruct (Hw b raw Hb E) as (ls & Hls & _). rewrite Hls.
      eexists _, fs. split; [done|]. split; [done|]. split; [done|].
      left. exists ls. split; [done|]. unfold stored. simpl. rewrite E. simpl. by rewrite Hls.
    + eexists _, fs. split; [done|]. split; [done|]. split; [done|]. right; left.
      split; [done|]. done.
Qed.

Lemma upload_cases name body r :
  Forall benign (netFaults r) →
  ∃ o obj fs, (_ ← b2_Bucket; b2_UploadFile name body) r = (o, mkRemote obj fs) ∧
    Forall benign fs ∧ (netFaults r = [] → o = Ok () ∧ fs = []) ∧
    ((o = Ok () ∧ obj = <[name := body]> (objects r)) ∨
     ((∃ e, o = Err e) ∧ (obj = objects r ∨ obj = <[name := body]> (objects r)))).
Proof.
  intros Hf. unfold b2_Bucket, b2_UploadFile, next_net. unfold_M.
  destruct r as [obj [|[f|] fs]]; simpl in *.
  - eexists _, _, []. split; [done|]. naive_solver.
  - apply Forall_cons in Hf as [_ Hf]. eexists _, _, fs. split; [done|]. naive_solver.
  - apply Forall_cons in Hf as [_ Hf]. destruct fs as [|[[| |? ?]|] fs]; simpl;
      [|apply Forall_cons in Hf as [_ Hf]..]; eexists _, _, _; (split; [done|]); naive_solver.
Qed.

(** A segment of new leaves for batch [b]. *)
Definition segment (b : Z) (off : nat) (f : list LogLeaf) : Prop :=
  f ≠ [] ∧ off + length f ≤ 1024 ∧ contig (1024 * b + Z.of_nat off) f.

(** [putBatch] fails without effect, or writes the merge of what it read with
    the new leaves; what it read is the object or nothing. *)
Lemma putBatch_cases t b off f r :
  Forall benign (netFaults r) → wf_remote t r → validBatch b → segment b off f →
  ∃ o obj fs, putBatch t b f r = (o, mkRemote obj fs) ∧ Forall benign fs ∧
    (netFaults r = [] → off ≤ length (default [] (stored r t b)) → o = Ok () ∧ fs = []) ∧
    o ≠ Panic ∧
    ((o ≠ Ok () ∧ obj = objects r) ∨
     ∃ existing updated body,
       (existing = default [] (stored r t b) ∨ existing = []) ∧
       mergeBatch existing f = Ok updated ∧ marshal updated = Ok body ∧
       obj = <[leavesName t b := body]> (objects r)).
Proof.
  intros Hf Hw Hb (Hne & Hlen & Hc).
  destruct (getBatch_cases t b r Hf Hw Hb) as (o & fs & Hget & Hfs & Hnil & Ho).
  unfold putBatch, mbind, M_bind, try. rewrite Hget.
  assert (∀ existing, contig (1024 * b) existing → length existing ≤ 1024 →
    (existing = default [] (stored r t b) ∨ existing = [] ∧ netFaults r ≠ []) →
    ∃ o obj fs', (updated ← lift (mergeBatch existing f); buff ← lift (marshal updated);
       _ ← b2_Bucket; b2_UploadFile (leavesName t b) buff) (mkRemote (objects r) fs) =
      (o, mkRemote obj fs') ∧ Forall benign fs' ∧
    (netFaults r = [] → off ≤ length (default [] (stored r t b)) → o = Ok () ∧ fs' = []) ∧
    o ≠ Panic ∧
    ((o ≠ Ok () ∧ obj = objects r) ∨
     ∃ existing updated body,
       (existing = default [] (stored r t b) ∨ existing = []) ∧
       mergeBatch existing f = Ok updated ∧ marshal updated = Ok body ∧
       obj = <[leavesName t b := body]> (objects r))) as Hrest.
  { intros existing He Hle Hex.
    destruct (mergeBatch_spec b off existing f) as [[Hgap Hm]|(Hoff & updated & Hm & _)];
      [apply Hb|done..| |]; unfold mbind, M_bind, lift; rewrite Hm.
    { eexists _, _, _. split; [done|]. split; [done|]. split; [|by eauto].
      intros Hn Hle'. destruct Hex as [->|[_ ?]]; [lia|done]. }
    destruct (json_marshal_Ok updated) as [buff Hbuff]. rewrite Hbuff.
    destruct (upload_cases (leavesName t b) buff (mkRemote (objects r) fs) Hfs)
      as (o' & obj & fs' & Hup & Hfs' & Hn' & Hcase).
    unfold mbind, M_bind in Hup. exists o', obj, fs'. split; [exact Hup|]. split; [done|].
    split; [intros Hn _; apply Hn'; simpl; auto|].
    split; [destruct Hcase as [[-> _]|[[e ->] _]]; done|].
    assert (existing = default [] (stored r t b) ∨ existing = [])
      by (destruct Hex as [?|[? _]]; [by left|by right]).
    destruct Hcase as [[_ ->]|[[e ->] [->| ->]]]; simpl; [right|by left|right]; eauto 10. }
  destruct Ho as [(ls & -> & Hs)|[[-> Hs]|[(e & -> & He) Hn]]].
  - apply (Hrest ls); rewrite ?Hs; [| |by left];
      unfold stored in Hs; destruct (objects r !! _) as [raw|] eqn:E; try done; simpl in Hs;
      destruct (Hw b raw Hb E) as (ls' & Hls' & ? & ?); rewrite Hls' in Hs; by simplify_eq.
  - apply (Hrest []); [done|simpl; lia|]. destruct (decide (netFaults r = [])); [|by right].
    left. by rewrite Hs.
  - eexists _, _, fs. split; [by destruct e|]. split; [done|]. split; [done|]. by eauto.
Qed.

Lemma storedLeaf_position r t b off :
  (0 ≤ b)%Z → off < 1024 →
  storedLeaf r t (1024 * b + Z.of_nat off) = stored r t b ≫= λ ls, ls !! off.
Proof.
  intros Hb Ho. unfold storedLeaf.
  destruct (position b (Z.of_nat off) Hb ltac:(lia)) as (_ & _ & -> & ->).
  by rewrite Nat2Z.id.
Qed.

Lemma validBatch_int64 b : validBatch b → int64 b.
Proof. unfold validBatch, int64. lia. Qed.

(** The state after a batch was written. *)
Lemma written_batch t b off f existing updated body r obj fs :
  int64 t → wf_remote t r → validBatch b → segment b off f →
  (existing = default [] (stored r t b) ∨ existing = []) →
  mergeBatch existing f = Ok updated → marshal updated = Ok body →
  obj = <[leavesName t b := body]> (objects r) →
  let r' := mkRemote obj fs in
  wf_remote t r' ∧
  (∀ b', validBatch b' → b' ≠ b → stored r' t b' = stored r t b') ∧
  (∀ k l, f !! k = Some l →
     storedLeaf r' t (1024 * b + Z.of_nat (off + k)) = Some (jsonLeaf l)) ∧
  (∀ j l, j < off → storedLeaf r t (1024 * b + Z.of_nat j) = Some l →
     storedLeaf r' t (1024 * b + Z.of_nat j) = Some (jsonLeaf l)).
Proof.
  intros Ht Hw Hb (Hne & Hlen & Hc) Hex Hm Hbody -> r'.
  assert (contig (1024 * b) existing ∧ length existing ≤ 1024) as [He Hle].
  { destruct Hex as [->| ->]; [|simpl; split; [done|lia]].
    unfold stored. destruct (objects r !! _) as [raw|] eqn:E; simpl; [|split; [done|lia]].
    destruct (Hw b raw Hb E) as (ls & -> & ? & ?). by split. }
  destruct (mergeBatch_spec b off existing f) as [[_ Hm']|(Hoff & u & Hm' & Hlu & Hu)];
    [apply Hb|done..|congruence|]. assert (u = updated) as -> by congruence. clear Hm'.
  assert (contig (1024 * b) updated) as Hcu.
  { intros k l. rewrite Hu. case_decide as Hk; [|apply He].
    intros Hl. rewrite (Hc _ _ Hl). lia. }
  pose proof (json_roundtrip updated body Hbody) as Hun.
  assert (stored r' t b = Some (jsonLeaf <$> updated)) as Hst.
  { unfold stored, r'. simpl. rewrite lookup_insert_eq. simpl. by rewrite Hun. }
  assert (∀ b', validBatch b' → b' ≠ b →
    objects r' !! leavesName t b' = objects r !! leavesName t b') as Hother.
  { intros b' Hb' Hbb. unfold r'. simpl. apply lookup_insert_ne. intros E.
    apply leavesName_inj in E as [_ E]; auto using validBatch_int64. }
  split_and!.
  - intros b' raw Hb' Hraw. destruct (decide (b' = b)) as [->|Hbb].
    + unfold r' in Hraw. simpl in Hraw. rewrite lookup_insert_eq in Hraw. simplify_eq.
      eexists. split; [exact Hun|]. rewrite length_fmap, Hlu.
      split; [lia|by apply contig_jsonLeaf].
    + apply (Hw b' raw Hb'). by rewrite <-Hother.
  - intros b' Hb' Hbb. by apply stored_objects, Hother.
  - intros k l Hk. pose proof (lookup_lt_Some _ _ _ Hk).
    rewrite storedLeaf_position, Hst by (destruct Hb; lia). simpl.
    rewrite list_lookup_fmap, Hu, decide_True by lia.
    by replace (off + k - off) with k by lia; rewrite Hk.
  - intros j l Hj. rewrite !storedLeaf_position, Hst by (destruct Hb; lia). simpl.
    rewrite list_lookup_fmap, Hu, decide_False by lia. intros Hl.
    destruct Hex as [->| ->]; [|simpl in Hoff; lia].
    destruct (stored r t b) as [ls|]; simplify_eq/=. by rewrite Hl.
Qed.

(** A batch of the new leaves of a log of length [n]. *)
Definition fresh (n : nat) '((b, f) : Z * list LogLeaf) : Prop :=
  validBatch b ∧ ∃ off, segment b off f ∧
    (1024 * b + Z.of_nat off = Z.max (Z.of_nat n) (1024 * b))%Z.

Definition batchStored (r : Remote) (t : Z) '((b, f) : Z * list LogLeaf) : Prop :=
  ∀ l, l ∈ f → storedLeaf r t (LeafIndex l) = Some (jsonLeaf l).

Lemma putBatch_covers t log b f r :
  int64 t → Forall benign (netFaults r) → wf_remote t r → covers r t log →
  (Z.of_nat (length log) < 2 ^ 63)%Z → fresh (length log) (b, f) →
  ∃ o r', putBatch t b f r = (o, r') ∧ Forall benign (netFaults r') ∧
    wf_remote t r' ∧ covers r' t log ∧ o ≠ Panic ∧
    (netFaults r = [] → o = Ok () ∧ netFaults r' = []) ∧
    (∀ b', validBatch b' → b' ≠ b → stored r' t b' = stored r t b') ∧
    (o = Ok () → batchStored r' t (b, f)).
Proof.
  intros Ht Hf Hw Hcov Hlog (Hb & off & Hseg & Hoff). pose proof Hb as [Hb0 Hb1].
  destruct (putBatch_cases t b off f r Hf Hw Hb Hseg)
    as (o & obj & fs & -> & Hfs & Hok & Hp & Hcase).
  exists o, (mkRemote obj fs). split; [done|]. split; [done|].
  assert (netFaults r = [] → o = Ok () ∧ fs = []) as Hok'.
  { intros Hn. apply Hok; [done|]. destruct off as [|off]; [lia|].
    (* the leaf just below the segment is stored *)
    destruct (lookup_lt_is_Some_2 log (pred (length log))) as [l Hl]; [lia|].
    specialize (Hcov _ _ Hl). destruct Hseg as (_ & ? & _).
    replace (Z.of_nat (pred (length log))) with (1024 * b + Z.of_nat off)%Z in Hcov by lia.
    rewrite storedLeaf_position in Hcov by lia.
    destruct (stored r t b) as [ls|]; simplify_eq/=. apply lookup_lt_Some in Hcov. lia. }
  destruct Hcase as [[Hne ->]|(existing & updated & body & Hex & Hm & Hbody & Hobj)].
  { assert (∀ b', stored (mkRemote (objects r) fs) t b' = stored r t b') as Hs
      by (intros; by apply stored_objects).
    split_and!; try done. }
  destruct (written_batch t b off f existing updated body r obj fs
    Ht Hw Hb Hseg Hex Hm Hbody Hobj) as (Hw' & Hother & Hnew & Hkeep).
  split_and!; try done.
  - intros i l Hi. pose proof (lookup_lt_Some _ _ _ Hi) as Hlt.
    pose proof (Hcov _ _ Hi) as Hci.
    destruct (position_split (Z.of_nat i)) as (b' & off' & Hb' & Ho' & E); [lia|].
    rewrite E in Hci |- *. replace off' with (Z.of_nat (Z.to_nat off')) in * by lia.
    destruct (decide (b' = b)) as [->|Hbb].
    + rewrite <-(jsonLeaf_idemp l). apply Hkeep; [lia|done].
    + rewrite storedLeaf_position in Hci |- * by lia. rewrite Hother; [done| |done].
      unfold validBatch. lia.
  - intros _ l [k Hk]%list_elem_of_lookup.
    rewrite <-(Hnew k l Hk). f_equal. destruct Hseg as (_ & _ & Hc). rewrite (Hc k l Hk). lia.
Qed.

Lemma fresh_position n b f l :
  fresh n (b, f) → l ∈ f → (LeafIndex l `div` 1024)%Z = b.
Proof.
  intros (Hb & off & (_ & Hlen & Hc) & _) [k Hk]%list_elem_of_lookup.
  pose proof (lookup_lt_Some _ _ _ Hk). rewrite (Hc k l Hk).
  rewrite <-Z.add_assoc. apply position; [apply Hb|lia].
Qed.

Lemma putBatches_covers t log bs r :
  int64 t → Forall benign (netFaults r) → wf_remote t r → covers r t log →
  (Z.of_nat (length log) < 2 ^ 63)%Z → NoDup bs.*1 → Forall (fresh (length log)) bs →
  ∃ o r', mfold (λ _ '(b, leaves), putBatch t b leaves) () bs r = (o, r') ∧
    Forall benign (netFaults r') ∧ wf_remote t r' ∧ covers r' t log ∧ o ≠ Panic ∧
    (netFaults r = [] → o = Ok () ∧ netFaults r' = []) ∧
    (∀ b', validBatch b' → b' ∉ bs.*1 → stored r' t b' = stored r t b') ∧
    (o = Ok () → Forall (batchStored r' t) bs).
Proof.
  intros Ht Hf Hw Hcov Hlog Hnd Hfr. revert r Hf Hw Hcov.
  induction Hfr as [|[b f] bs Hbf Hfr IH]; intros r Hf Hw Hcov; simpl in *.
  { eexists _, r. split; [done|]. naive_solver. }
  apply NoDup_cons in Hnd as [Hb Hnd].
  destruct (putBatch_covers t log b f r) as
    (o1 & r1 & Hput & Hf1 & Hw1 & Hc1 & Hp1 & Hok1 & Hs1 & Hst1); [done..|].
  unfold mbind, M_bind. rewrite Hput.
  assert (∀ b', validBatch b' → b' ∉ b :: bs.*1 → stored r1 t b' = stored r t b') as Hs1'.
  { intros b' Hv Hni. rewrite not_elem_of_cons in Hni. apply Hs1; naive_solver. }
  destruct o1 as [[]|e|]; [|eexists _, r1; split; [done|]; split_and!; try done|done].
  destruct (IH Hnd r1) as (o & r' & Hm & Hf' & Hw' & Hc' & Hp' & Hok' & Hs' & Hst'); [done..|].
  exists o, r'. split; [exact Hm|]. split_and!; try done.
  - intros Hn. destruct (Hok1 Hn). auto.
  - intros b' Hv Hni. pose proof Hni as Hni'. rewrite not_elem_of_cons in Hni.
    rewrite Hs' by (done || apply Hni). by apply Hs1'.
  - intros Ho. constructor; [|auto]. intros l Hl. rewrite <-(Hst1 eq_refl l Hl).
    unfold storedLeaf. rewrite (fresh_position _ _ _ _ Hbf Hl). rewrite Hs'; [done| |done].
    apply Hbf.
Qed.

Lemma map_range_fresh `{!MapRange Z, !MapRangeLaws Z} n leaves :
  contig (Z.of_nat n) leaves → (Z.of_nat n + Z.of_nat (length leaves) < 2 ^ 63)%Z →
  NoDup (map_range (groupLeaves leaves)).*1 ∧
  Forall (fresh n) (map_range (groupLeaves leaves)) ∧
  (∀ l, l ∈ leaves → ∃ b f, (b, f) ∈ map_range (groupLeaves leaves) ∧ l ∈ f).
Proof.
  intros Hc Hlen. split_and!.
  - rewrite map_range_perm. apply NoDup_fst_map_to_list.
  - rewrite map_range_perm, Forall_forall. intros [b f] Hbf.
    apply elem_of_map_to_list in Hbf. rewrite groupLeaves_lookup in Hbf.
    assert (inBatch b leaves ≠ [] ∧ f = inBatch b leaves) as [Hne ->]
      by (destruct (inBatch b leaves); naive_solver).
    destruct (inBatch_segment (Z.of_nat n) b leaves) as (off & Hb & Hoff & Hl & Hseg);
      [lia|done|done|].
    assert (∃ l, l ∈ inBatch b leaves) as [l Hin]
      by (destruct (inBatch b leaves) as [|l ?]; [done|exists l; by left]).
    unfold inBatch in Hin. apply list_elem_of_filter in Hin as [Hbl [k Hk]%list_elem_of_lookup].
    pose proof (lookup_lt_Some _ _ _ Hk). apply Hc in Hk.
    rewrite batchOf_div in Hbl by lia.
    pose proof (Z.div_mod (LeafIndex l) 1024). pose proof (Z.mod_pos_bound (LeafIndex l) 1024).
    split; [unfold validBatch; lia|]. by exists off.
  - intros l Hl. exists (batchOf (LeafIndex l)), (inBatch (batchOf (LeafIndex l)) leaves).
    assert (l ∈ inBatch (batchOf (LeafIndex l)) leaves) as Hin
      by (by apply list_elem_of_filter).
    rewrite map_range_perm, elem_of_map_to_list, groupLeaves_lookup. split; [|done].
    destruct (inBatch _ leaves); [by apply elem_of_nil in Hin|done].
Qed.

(** *** Reading runs *)

Section read.
Context (r : Remote) (t : Z) (log : list LogLeaf).
Context (Hw : wf_remote t r) (Hcov : covers r t log).
Context (Hlog : (Z.of_nat (length log) < 2 ^ 63)%Z).

(** [l] is the leaf of the log at [seq], as the bucket returns it. *)
Definition logLeafAt (seq : Z) (l : LogLeaf) : Prop :=
  (0 ≤ seq)%Z ∧ ∃ l0, log !! Z.to_nat seq = Some l0 ∧ l = jsonLeaf l0.

Definition inLog (seq : Z) : Prop := (0 ≤ seq < Z.of_nat (length log))%Z.

Lemma inLog_stored seq :
  inLog seq → ∃ l ls, logLeafAt seq l ∧ stored r t (batchOf seq) = Some ls ∧
    (0 ≤ offOf seq)%Z ∧ ls !! Z.to_nat (offOf seq) = Some l ∧ length ls ≤ 1024.
Proof.
  intros [H0 H1]. destruct (lookup_lt_is_Some_2 log (Z.to_nat seq)) as [l0 Hl0]; [lia|].
  pose proof (Hcov _ _ Hl0) as Hs. rewrite Z2Nat.id in Hs by done. unfold storedLeaf in Hs.
  rewrite batchOf_div, offOf_mod by done.
  destruct (stored r t (seq `div` 1024)) as [ls|] eqn:Els; simplify_eq/=.
  exists (jsonLeaf l0), ls. split; [split; eauto|]. split; [done|].
  split; [apply Z.mod_pos_bound; lia|]. split; [done|].
  unfold stored in Els. destruct (objects r !! _) as [raw|] eqn:E; simplify_eq/=.
  destruct (Hw (seq `div` 1024)%Z raw) as (ls' & Hls' & ? & _); [|done|rewrite Hls' in Els; by simplify_eq].
  pose proof (Z.div_mod seq 1024). pose proof (Z.mod_pos_bound seq 1024).
  unfold validBatch. split; [apply Z.div_pos; lia|lia].
Qed.

Lemma takeRun_spec b data off seq seqs :
  (0 ≤ b)%Z → (0 ≤ off < 1024)%Z → seq = (1024 * b + off)%Z →
  stored r t b = Some data → length data ≤ 1024 →
  Forall inLog (seq :: seqs) →
  ∃ used rest out, takeRun data off (seq :: seqs) = Ok (out, rest) ∧
    seq :: seqs = used ++ rest ∧ used ≠ [] ∧ Forall2 logLeafAt used out.
Proof.
  intros Hb. revert off seq. induction seqs as [|next seqs IH];
    intros off seq Ho Hseq Hst Hdata Hin; apply Forall_cons in Hin as [Hs Hin].
  all: destruct (inLog_stored seq Hs) as (l & ls & Hl & Hst' & _ & Hlk & _).
  all: destruct (position b off Hb Ho) as (Hpb & Hpo & _ & _).
  all: rewrite <-Hseq in Hpb, Hpo; rewrite Hpb, Hst in Hst'; rewrite Hpo in Hlk.
  all: simplify_eq; cbn [takeRun]; unfold indexLeaf.
  all: destruct (Z.ltb_spec off 0); [lia|]; rewrite Hlk; unfold_O.
  { exists [(1024 * b + off)%Z], [], [l]. repeat split; try done. by apply Forall2_cons_2. }
  destruct (Z.ltb_spec (off + 1) (Z.of_nat (length ls))) as [Hlt|_]; cbn [andb].
  2:{ eexists [_], _, [l]. repeat split; try done. by apply Forall2_cons_2. }
  destruct (Z.eqb_spec (wrap64 (1024 * b + off + 1)) next) as [Hnext|_].
  2:{ eexists [_], _, [l]. repeat split; try done. by apply Forall2_cons_2. }
  destruct Hs as [Hs0 Hs1]. rewrite wrap64_small in Hnext by (unfold int64; lia).
  destruct (IH (off + 1)%Z next) as (used & rest & out & Hrun & E & Hne & Hf);
    [lia|lia|done|done|done|].
  cbn [takeRun] in Hrun. unfold indexLeaf in Hrun. unfold_O. rewrite Hrun.
  exists ((1024 * b + off)%Z :: used), rest, (l :: out).
  split; [done|]. split; [by rewrite E|]. split; [done|]. by constructor.
Qed.

Lemma getLoop_spec fuel seqs fs :
  length seqs ≤ fuel → Forall inLog seqs → Forall benign fs →
  ∃ o fs', getLoop fuel t seqs (mkRemote (objects r) fs) = (o, mkRemote (objects r) fs') ∧
    o ≠ Panic ∧ (fs = [] → fs' = [] ∧ ∃ out, o = Ok out) ∧
    ∀ out, o = Ok out → Forall2 logLeafAt seqs out.
Proof.
  revert seqs fs. induction fuel as [|fuel IH]; intros [|seq seqs] fs Hlen Hin Hfs.
  1,3: eexists _, fs; split; [done|]; naive_solver.
  { simpl in Hlen. lia. }
  pose proof Hin as [Hs _]%Forall_cons.
  destruct (inLog_stored seq Hs) as (l & ls & Hl & Hst & Hoff & Hlk & Hls).
  destruct (position_split seq (proj1 Hs)) as (b & off & Hb & Ho & E).
  destruct (position b off Hb Ho) as (Hpb & Hpo & _ & _). rewrite <-E in Hpb, Hpo.
  cbn [getLoop]. rewrite Hpb, Hpo in *. unfold mbind, M_bind at 1.
  destruct Hs as [Hs0 Hs1].
  destruct (getBatch_cases t b (mkRemote (objects r) fs) Hfs Hw ltac:(unfold validBatch; lia))
    as (o & fs1 & Hget & Hfs1 & Hnil & Hcase). simpl in Hget, Hnil, Hcase. rewrite Hget.
  rewrite (stored_objects r (mkRemote (objects r) fs)) in Hcase by done. rewrite Hst in Hcase.
  destruct Hcase as [(ls' & -> & [= <-])|[[-> Hs]|[(e & -> & He) Hn]]].
  2: eexists _, fs1; split; [done|]; naive_solver.
  2: eexists _, fs1; split; [done|]; naive_solver.
  pose proof (lookup_lt_Some _ _ _ Hlk).
  destruct (Z.leb_spec (Z.of_nat (length ls)) off); [lia|].
  destruct (takeRun_spec b ls off seq seqs) as (used & rest & out & Hrun & Eu & Hne & Hf);
    [done..|]. unfold lift. rewrite Hrun.
  assert (length rest ≤ fuel).
  { apply (f_equal length) in Eu. rewrite length_app in Eu. simpl in *.
    assert (0 < length used) by (destruct used; [done|simpl; lia]). lia. }
  assert (Forall inLog rest) as Hrest by (rewrite Eu, Forall_app in Hin; apply Hin).
  destruct (IH rest fs1) as (o & fs' & Hgl & Hp & Hok & Hout); [done..|].
  unfold M_bind. rewrite Hgl. destruct o as [more|e|]; [| |done].
  - eexists _, fs'. split; [done|]. split; [done|]. split; [naive_solver|].
    intros ? [= <-]. rewrite Eu. apply Forall2_app; [done|]. by apply Hout.
  - eexists _, fs'. split; [done|]. split; [done|]. split; [naive_solver|done].
Qed.
End read.

Lemma sortSeqs_nil : sortSeqs [] = [].
Proof. reflexivity. Qed.

Lemma sortSeqs_spec seqs : sortSeqs seqs ≡ₚ seqs ∧ Sorted Z.le (sortSeqs seqs).
Proof.
  unfold sortSeqs. case_bool_decide; [done|].
  split; [apply merge_sort_Permutation|apply Sorted_merge_sort, _].
Qed.
End remote_facts.

(** ** Properties *)

Section properties.
Context `{!Codec (list LogLeaf), !JSONLaws}.

(** What [PutLeaves] makes of a bucket that holds a log. *)
Lemma PutLeaves_log `{!MapRange Z, !MapRangeLaws Z} t log leaves r :
  int64 t → Forall benign (netFaults r) → wf_remote t r → covers r t log →
  contig (Z.of_nat (length log)) leaves →
  (Z.of_nat (length log) + Z.of_nat (length leaves) < 2 ^ 63)%Z →
  ∃ o r', PutLeaves t leaves r = (o, r') ∧
    wf_remote t r' ∧ covers r' t log ∧ o ≠ Panic ∧
    (o = Ok () → covers r' t (log ++ leaves)) ∧
    (netFaults r = [] → o = Ok () ∧ netFaults r' = []).
Proof.
  intros Ht Hf Hw Hcov Hc Hlen.
  destruct (map_range_fresh (length log) leaves Hc Hlen) as (Hnd & Hfr & Hall).
  destruct (putBatches_covers t log (map_range (groupLeaves leaves)) r)
    as (o & r' & Hm & _ & Hw' & Hc' & Hp & Hok & _ & Hst); [done..|lia|done|done|].
  exists o, r'. split; [exact Hm|]. split_and!; try done.
  intros Ho i l Hi. apply lookup_app_Some in Hi as [Hi|[Hi Hk]]; [by apply Hc'|].
  destruct (Hall l) as (b & f & Hbf & Hlf); [by eapply list_elem_of_lookup_2|].
  specialize (Hst Ho). rewrite Forall_forall in Hst.
  rewrite <-(Hst _ Hbf l Hlf). f_equal. rewrite (Hc _ _ Hk). lia.
Qed.

(** *** Other logs *)

(** The objects of logs other than [t] are those of [O]. *)
Definition elsewhere (t : Z) (O : gmap bytes bytes) (r : Remote) : Prop :=
  ∀ t' b, int64 t' → t' ≠ t → objects r !! leavesName t' b = O !! leavesName t' b.

Lemma stable_next_net t O : stable (elsewhere t O) next_net.
Proof. intros r Hr. unfold next_net. by case_match. Qed.
Hint Resolve stable_next_net : ctlog.

Lemma stable_getBatch t0 O t b : stable (elsewhere t0 O) (getBatch t b).
Proof. unfold getBatch, http_Get. stable. Qed.
Hint Resolve stable_getBatch : ctlog.

Lemma stable_upload t O b body : int64 t → stable (elsewhere t O) (b2_UploadFile (leavesName t b) body).
Proof.
  intros Ht. assert (stable (elsewhere t O)
    (modify (λ r, mkRemote (<[leavesName t b := body]> (objects r)) (netFaults r)))) as Hm.
  { apply stable_modify. intros r Hr t' b' Ht' Hne. cbn.
    rewrite lookup_insert_ne; [by apply Hr|]. intros E. by apply Hne, (leavesName_tree _ _ b' b). }
  unfold b2_UploadFile. stable.
Qed.
Hint Resolve stable_upload : ctlog.

(** Storing leaves leaves the objects of other logs alone. *)
Lemma stable_Remote_PutLeaves `{!MapRange Z} t O leaves :
  int64 t → stable (elsewhere t O) (PutLeaves t leaves).
Proof.
  intros Ht. unfold PutLeaves. apply stable_mfold. intros _ [b ls]. unfold putBatch, b2_Bucket. stable.
Qed.

Lemma PutLeaves_elsewhere `{!MapRange Z} t leaves r o r' :
  int64 t → PutLeaves t leaves r = (o, r') → elsewhere t (objects r) r'.
Proof.
  intros Ht E. assert (elsewhere t (objects r) r) as Hr by done.
  pose proof (stable_Remote_PutLeaves t (objects r) leaves Ht r Hr) as He. by rewrite E in He.
Qed.

Lemma elsewhere_wf t r r' t' :
  elsewhere t (objects r) r' → int64 t' → t' ≠ t → wf_remote t' r → wf_remote t' r'.
Proof. intros He Ht' Hne Hw b raw Hb. rewrite He by done. by apply Hw. Qed.

Lemma elsewhere_covers t r r' t' log :
  elsewhere t (objects r) r' → int64 t' → t' ≠ t → covers r t' log → covers r' t' log.
Proof.
  intros He Ht' Hne Hc i l Hi. rewrite <-(Hc i l Hi). unfold storedLeaf.
  by rewrite (stored_objects r r') by by apply He.
Qed.

(** C25. Storing the next leaves of a log: whatever calls fail, and whatever the
    order the batches are written in, the leaves that were stored stay readable
    and every object stays well formed; a success means the new leaves are
    stored as well, and without faults the call succeeds. *)
Theorem PutLeaves_covers `{!MapRange Z, !MapRangeLaws Z} t log leaves r :
  int64 t → Forall benign (netFaults r) → wf_remote t r → covers r t log →
  contig (Z.of_nat (length log)) leaves →
  (Z.of_nat (length log) + Z.of_nat (length leaves) < 2 ^ 63)%Z →
  ∃ o r', PutLeaves t leaves r = (o, r') ∧
    wf_remote t r' ∧ covers r' t log ∧ o ≠ Panic ∧
    (o = Ok () → covers r' t (log ++ leaves)) ∧
    (netFaults r = [] → o = Ok ()).
Proof.
  intros Ht Hf Hw Hcov Hc Hlen.
  destruct (PutLeaves_log t log leaves r Ht Hf Hw Hcov Hc Hlen) as (o & r' & ? & ? & ? & ? & ? & Hok).
  exists o, r'. split_and!; try done. intros He. by apply Hok.
Qed.

(** Whatever the network answers, a successful read has a leaf for every
    sequence number. *)
Lemma takeRun_length data off seqs out rest :
  takeRun data off seqs = Ok (out, rest) → length seqs = length out + length rest.
Proof.
  revert off out rest. induction seqs as [|seq seqs IH]; intros off out rest Hx; simpl in Hx.
  { by simplify_eq. }
  apply outcome_bind_Ok in Hx as (leaf & _ & Hx). destruct seqs as [|next seqs]; [by injection Hx as <- <-|].
  case_match; [|by injection Hx as <- <-]. apply outcome_bind_Ok in Hx as ([out' rest'] & Hr & Hx).
  apply IH in Hr. injection Hx as <- <-. simpl in *. lia.
Qed.

Lemma getLoop_length fuel t seqs r out r' :
  getLoop fuel t seqs r = (Ok out, r') → length out = length seqs.
Proof.
  revert seqs r out r'. induction fuel as [|fuel IH]; intros [|seq seqs] r out r' Hx;
    cbn [getLoop] in Hx; [by injection Hx as <- <-|done|by injection Hx as <- <-|].
  apply mbind_Ok in Hx as (data & r1 & _ & Hx). case_match; [done|].
  apply mbind_Ok in Hx as ([o rest] & r2 & Hl & Hx). apply mbind_Ok in Hx as (more & r3 & Hg & Hx).
  injection Hx as <- _. injection Hl as Hl _. apply IH in Hg. apply (takeRun_length data (offOf seq) (seq :: seqs)) in Hl.
  rewrite length_app, Hg. lia.
Qed.

Lemma GetLeaves_length t seqs r out seqs' r' :
  GetLeaves t seqs r = (Ok (out, seqs'), r') → length out = length seqs' ∧ seqs' = sortSeqs seqs.
Proof.
  unfold GetLeaves. intros Hx. destruct seqs as [|seq seqs].
  { injection Hx as <- <- _. by rewrite sortSeqs_nil. }
  cbn [length Nat.eqb] in Hx. apply mbind_Ok in Hx as (o & r1 & Hg & Hx). injection Hx as <- <- _.
  split; [by eapply getLoop_length|done].
Qed.

(** What [GetLeaves] reads from a bucket that holds a log. *)
Lemma GetLeaves_log t log seqs r :
  Forall benign (netFaults r) → wf_remote t r → covers r t log →
  (Z.of_nat (length log) < 2 ^ 63)%Z → Forall (inLog log) seqs →
  ∃ o r', GetLeaves t seqs r = (o, r') ∧ objects r' = objects r ∧ o ≠ Panic ∧
    (netFaults r = [] → r' = r ∧ ∃ res, o = Ok res) ∧
    ∀ out seqs', o = Ok (out, seqs') →
      seqs' ≡ₚ seqs ∧ Sorted Z.le seqs' ∧ Forall2 (logLeafAt log) seqs' out.
Proof.
  intros Hf Hw Hcov Hlog Hin. unfold GetLeaves.
  destruct (Nat.eqb_spec (length seqs) 0) as [Hn|Hn].
  { apply nil_length_inv in Hn as ->. eexists _, r. split; [done|]. split; [done|].
    split; [done|]. split; [by eauto|]. intros ? ? [= <- <-]. by repeat constructor. }
  destruct (sortSeqs_spec seqs) as [Hperm Hsort].
  destruct (getLoop_spec r t log Hw Hcov Hlog (length (sortSeqs seqs)) (sortSeqs seqs)
    (netFaults r)) as (o & fs' & Hg & Hp & Hok & Hout); [done|by rewrite Hperm|done|].
  unfold mbind, M_bind. destruct r as [obj fs]. simpl in *. rewrite Hg.
  destruct o as [out|e|]; [| |done].
  - eexists _, _. split; [done|]. split; [done|]. split; [done|].
    split; [intros Hnf; destruct (Hok Hnf) as [-> _]; simpl in Hnf; subst fs; eauto|]. intros ? ? [= <- <-]. split; [done|]. split; [done|]. by apply Hout.
  - eexists _, _. split; [done|]. split; [done|]. split; [done|].
    split; [|done]. intros Hnf. destruct (Hok Hnf) as (_ & ? & ?). done.
Qed.

(** C26. Reading leaves of a log that the bucket holds: the leaves come in the order
    of their sequence numbers, which is also the order the caller's slice is
    left in; the call never panics, its result is right whatever calls fail,
    and without faults it succeeds. *)
Theorem GetLeaves_covers t log seqs r :
  Forall benign (netFaults r) → wf_remote t r → covers r t log →
  (Z.of_nat (length log) < 2 ^ 63)%Z → Forall (inLog log) seqs →
  ∃ o r', GetLeaves t seqs r = (o, r') ∧ objects r' = objects r ∧ o ≠ Panic ∧
    (netFaults r = [] → r' = r ∧ ∃ res, o = Ok res) ∧
    ∀ out seqs', o = Ok (out, seqs') →
      seqs' ≡ₚ seqs ∧ Sorted Z.le seqs' ∧ Forall2 (logLeafAt log) seqs' out.
Proof. apply GetLeaves_log. Qed.
End properties.

(** ** Witnesses *)

Section witnesses.
#[local] Instance jsonCodec : Codec (list LogLeaf) := {|
  marshal ls := Ok (pos_bytes (encode (jsonLeaf <$> ls)));
  unmarshal b := match decode (bytes_pos b) with Some a => Ok a | None => Err ErrDecode end;
  canon ls := jsonLeaf <$> ls
|}.

#[local] Instance mapRange : MapRange Z := λ V m, map_to_list m.

Lemma jsonCodec_laws : JSONLaws.
Proof.
  split; [by eexists|]. intros ls b [= <-]. simpl.
  by rewrite bytes_pos_bytes, decode_encode.
Qed.

Lemma mapRange_laws : MapRangeLaws Z.
Proof. by intros V m. Qed.

Definition sampleLeaf (i : Z) : LogLeaf :=
  mkLogLeaf (Some [z2b i]) (Some []) None i (Some [z2b i]) None None.

Definition sampleLog : list LogLeaf := [sampleLeaf 0; sampleLeaf 1; sampleLeaf 2].

Definition sampleRemote : Remote :=
  mkRemote {[ leavesName 1 0 := pos_bytes (encode (jsonLeaf <$> sampleLog)) ]} [].

Lemma sampleRemote_stored : stored sampleRemote 1 0 = Some (jsonLeaf <$> sampleLog).
Proof.
  vm_compute. reflexivity.
Qed.

Lemma sampleRemote_wf : wf_remote 1 sampleRemote.
Proof.
  intros b raw Hb Hraw. unfold sampleRemote in Hraw. cbn [objects] in Hraw.
  apply lookup_singleton_Some in Hraw as [E <-].
  apply leavesName_inj in E as [_ <-]; [|unfold validBatch, int64 in *; lia..].
  exists (jsonLeaf <$> sampleLog). split; [vm_compute; reflexivity|].
  split; [simpl; lia|]. by intros [|[|[|]]] l Hl; simplify_eq/=.
Qed.

Lemma sampleRemote_covers : covers sampleRemote 1 sampleLog.
Proof.
  intros i l Hi. unfold storedLeaf. pose proof (lookup_lt_Some _ _ _ Hi) as Hlt.
  simpl in Hlt. rewrite Z.div_small, Z.mod_small, Nat2Z.id, sampleRemote_stored by lia.
  simpl. by destruct i as [|[|[|]]]; simplify_eq/=.
Qed.

Lemma PutLeaves_covers_witness :
  ∃ r', PutLeaves 1 [sampleLeaf 3; sampleLeaf 4] sampleRemote = (Ok (), r') ∧
    covers r' 1 (sampleLog ++ [sampleLeaf 3; sampleLeaf 4]).
Proof.
  destruct (PutLeaves_covers (H := jsonCodec_laws) (MapRangeLaws0 := mapRange_laws)
    1 sampleLog [sampleLeaf 3; sampleLeaf 4] sampleRemote)
    as (o & r' & H & _ & _ & _ & Hc & Hok).
  - unfold int64. lia.
  - constructor.
  - apply sampleRemote_wf.
  - apply sampleRemote_covers.
  - by intros [|[|]] l Hl; simplify_eq/=.
  - simpl. lia.
  - exists r'. specialize (Hok eq_refl). subst o. split; [exact H|]. by apply Hc.
Defined.

Lemma GetLeaves_covers_witness :
  fst (GetLeaves 1 [2; 0]%Z sampleRemote) =
    Ok ([jsonLeaf (sampleLeaf 0); jsonLeaf (sampleLeaf 2)], [0; 2]%Z) ∧
  ∃ o r', GetLeaves 1 [2; 0]%Z sampleRemote = (o, r') ∧
    ∃ out seqs', o = Ok (out, seqs') ∧ Forall2 (logLeafAt sampleLog) seqs' out.
Proof.
  split; [vm_compute; reflexivity|].
  destruct (GetLeaves_covers 1 sampleLog [2; 0]%Z sampleRemote)
    as (o & r' & H & _ & _ & Hok & Hout).
  - constructor.
  - apply sampleRemote_wf.
  - apply sampleRemote_covers.
  - simpl. lia.
  - repeat constructor; simpl; lia.
  - exists o, r'. split; [exact H|]. destruct (Hok eq_refl) as [_ [[out seqs'] ->]].
    exists out, seqs'. split; [reflexivity|]. by apply Hout.
Defined.
End witnesses.
