(* ===== verification/Cache.v ===== *)
(** * The capped in-memory cache (src/ct/cache/cache.go)

    A map with expiration times and a list of its keys from which a random one
    is evicted when the cache is full.  The clock readings and the random bytes
    are arguments.  The mutex makes each method one step; [step] is the relation
    of a cache used by the server and its janitor. *)

From S2P Require Import Prelude.

Section cache.
Context {A : Type}.

Record Item := mkItem { Object : A; Expiration : Z }.

(** [time.Now().UnixNano()] is [now]. *)
Definition Expired (now : Z) (item : Item) : bool :=
  if (Expiration item =? 0)%Z then false else (Expiration item <? now)%Z.

Definition NoExpiration : Z := -1.
Definition DefaultExpiration : Z := 0.

Record keyList := mkKeyList { keys : list bytes; maxSize : Z }.

Record cache := mkCache {
  defaultExpiration : Z;
  items : gmap bytes Item;
  klist : keyList
}.

(** ** The list of keys *)

(** The integer made of eight random bytes, made non-negative (but for the
    least int64, which has no opposite). *)
Definition sampleInt (buff : bytes) : Z :=
  let i := fold_left (λ i b, wrap64 (Z.lor (wrap64 (i ≪ 8)) (b2z b))) buff 0%Z in
  if (i <? 0)%Z then wrap64 (- i) else i.

(** [insert] returns the evicted key, if any; [rand] is what [rand.Read]
    yields, [None] when it fails. *)
Definition insert_key (rand : option bytes) (key : bytes) : M keyList (option bytes) := λ kl,
  if (Z.of_nat (length (keys kl)) <? maxSize kl)%Z then
    (Ok None, mkKeyList (keys kl ++ [key]) (maxSize kl))
  else
    match rand with
    | None => (Panic, kl)
    | Some buff =>
        if (length (keys kl) =? 0)%nat then (Panic, kl)
        else
          let i := gorem (sampleInt buff) (Z.of_nat (length (keys kl))) in
          if (i <? 0)%Z then (Panic, kl)
          else
            match keys kl !! Z.to_nat i with
            | None => (Panic, kl)
            | Some old =>
                (Ok (Some old), mkKeyList (<[Z.to_nat i := key]> (keys kl)) (maxSize kl))
            end
    end.

(** [evictAt]: swap with the last key and cut it off. *)
Definition evictAt (i : nat) (kl : keyList) : keyList :=
  let n := length (keys kl) in
  let swapped :=
    match keys kl !! i, keys kl !! (n - 1) with
    | Some a, Some b => <[n - 1 := a]> (<[i := b]> (keys kl))
    | _, _ => keys kl
    end in
  mkKeyList (take (n - 1) swapped) (maxSize kl).

(** ** Operations *)

Definition Set_ (now : Z) (rand : option bytes) (k : bytes) (x : A) (d : Z) : M cache unit := λ c,
  let d := if (d =? DefaultExpiration)%Z then defaultExpiration c else d in
  let e := if (0 <? d)%Z then wrap64 (now + d) else 0%Z in
  let store (items : gmap bytes Item) kl :=
    (Ok (), mkCache (defaultExpiration c) (<[k := mkItem x e]> items) kl) in
  match items c !! k with
  | Some _ => store (items c) (klist c)
  | None =>
      match insert_key rand k (klist c) with
      | (Ok None, kl) => store (items c) kl
      | (Ok (Some evicted), kl) => store (delete evicted (items c)) kl
      | (Err e, kl) => (Err e, mkCache (defaultExpiration c) (items c) kl)
      | (Panic, kl) => (Panic, mkCache (defaultExpiration c) (items c) kl)
      end
  end.

Definition Get_ (now : Z) (k : bytes) (c : cache) : option A :=
  match items c !! k with
  | None => None
  | Some item => if Expired now item then None else Some (Object item)
  end.

(** The loop of [DeleteExpired] from index [i], with at most [n] rounds left;
    [now i] is the clock when round [i] looks at it. *)
Fixpoint deleteLoop (now : nat → Z) (n i : nat) : M cache unit := λ c,
  match n with
  | O => (Ok (), c)
  | S n' =>
      match keys (klist c) !! i with
      | None => (Ok (), c)
      | Some k =>
          match items c !! k with
          | None => (Panic, c)
          | Some v =>
              if Expired (now i) v then
                deleteLoop now n' (S i)
                  (mkCache (defaultExpiration c) (delete k (items c)) (evictAt i (klist c)))
              else deleteLoop now n' (S i) c
          end
      end
  end.

(** The list only shrinks, so its length bounds the rounds. *)
Definition DeleteExpired (now : nat → Z) : M cache unit := λ c,
  deleteLoop now (length (keys (klist c))) 0 c.

Definition newCache (de : Z) (maxSize : Z) (m : gmap bytes Item) : cache :=
  let de := if (de =? 0)%Z then NoExpiration else de in
  mkCache de m (mkKeyList [] maxSize).

Definition New (defaultExpiration maxSize : Z) : cache := newCache defaultExpiration maxSize ∅.

(** ** The invariant *)

Record cache_inv (c : cache) : Prop := {
  inv_nodup : NoDup (keys (klist c));
  inv_dom k : k ∈ keys (klist c) ↔ is_Some (items c !! k);
  inv_size : (Z.of_nat (length (keys (klist c))) ≤ Z.max 0 (maxSize (klist c)))%Z
}.

(** Calls that returned, by the server or by the janitor. *)
Inductive step : cache → cache → Prop :=
  | step_Set now rand k x d c c' : Set_ now rand k x d c = (Ok (), c') → step c c'
  | step_DeleteExpired now c c' : DeleteExpired now c = (Ok (), c') → step c c'.

(** ** Lemmas *)

Lemma insert_key_spec rand key kl o kl' :
  insert_key rand key kl = (o, kl') →
  maxSize kl' = maxSize kl ∧
  match o with
  | Ok None => keys kl' = keys kl ++ [key] ∧ (Z.of_nat (length (keys kl)) < maxSize kl)%Z
  | Ok (Some old) => ∃ i, keys kl !! i = Some old ∧ keys kl' = <[i := key]> (keys kl) ∧
                     (maxSize kl ≤ Z.of_nat (length (keys kl)))%Z
  | Err _ => False
  | Panic => kl' = kl
  end.
Proof.
  unfold insert_key. intros H. destruct (Z.ltb_spec (Z.of_nat (length (keys kl))) (maxSize kl)).
  { by simplify_eq/=. }
  repeat (case_match; simplify_eq/=; try done).
  split; [done|]. by eexists.
Qed.

Lemma evictAt_spec i kl k :
  NoDup (keys kl) → keys kl !! i = Some k →
  NoDup (keys (evictAt i kl)) ∧ length (keys (evictAt i kl)) = length (keys kl) - 1 ∧
  maxSize (evictAt i kl) = maxSize kl ∧
  ∀ k', k' ∈ keys (evictAt i kl) ↔ k' ∈ keys kl ∧ k' ≠ k.
Proof.
  destruct kl as [ks ms]. unfold evictAt. simpl. intros Hnd Hi.
  pose proof (lookup_lt_Some _ _ _ Hi) as Hlt.
  destruct (lookup_lt_is_Some_2 ks (length ks - 1)) as [z Hz]; [lia|]. rewrite Hi, Hz.
  assert (∀ j x, take (length ks - 1) (<[length ks - 1:=k]> (<[i:=z]> ks)) !! j = Some x ↔
    j < length ks - 1 ∧ if decide (j = i) then x = z else ks !! j = Some x) as Hlk.
  { intros j x. rewrite lookup_take_Some.
    destruct (decide (j < length ks - 1)) as [Hj|]; [|naive_solver].
    rewrite list_lookup_insert_ne by lia. case_decide as E.
    - subst. rewrite list_lookup_insert_eq by lia. naive_solver.
    - rewrite list_lookup_insert_ne by done. naive_solver. }
  split_and!; [| |done|].
  - apply NoDup_alt. intros a b x [Ha Hxa]%Hlk [Hb Hxb]%Hlk.
    rewrite NoDup_alt in Hnd.
    assert (∀ j, ks !! j = Some z → j = length ks - 1) as Hz' by (intros; by eapply Hnd).
    destruct (decide (a = i)) as [Ea|Ea], (decide (b = i)) as [Eb|Eb].
    + congruence.
    + rewrite Hxa in Hxb. apply Hz' in Hxb. lia.
    + rewrite Hxb in Hxa. apply Hz' in Hxa. lia.
    + by eapply Hnd.
  - rewrite length_take, !length_insert. lia.
  - intros k'. rewrite !list_elem_of_lookup. setoid_rewrite Hlk. rewrite NoDup_alt in Hnd. split.
    + intros (j & Hj & Hx). case_decide as E; subst.
      * split; [by eexists|]. intros ->. pose proof (Hnd _ _ _ Hz Hi). lia.
      * split; [by eexists|]. intros ->. by destruct E; eapply Hnd.
    + intros [[j Hj] Hne]. pose proof (lookup_lt_Some _ _ _ Hj).
      destruct (decide (j = length ks - 1)) as [->|].
      * exists i. simplify_eq. rewrite decide_True by done. split; [|done].
        destruct (decide (i = length ks - 1)) as [->|]; [by simplify_eq|lia].
      * exists j. rewrite decide_False by congruence. split; [lia|done].
Qed.

Lemma elem_of_insert_nodup (ks : list bytes) i old k k' :
  NoDup ks → ks !! i = Some old → k ∉ ks →
  k' ∈ <[i:=k]> ks ↔ k' = k ∨ k' ∈ ks ∧ k' ≠ old.
Proof.
  intros Hnd Hi Hk. pose proof (lookup_lt_Some _ _ _ Hi). rewrite NoDup_alt in Hnd.
  rewrite !list_elem_of_lookup. split.
  - intros [j Hj]. rewrite list_lookup_insert_Some in Hj.
    destruct Hj as [(-> & -> & _)|[Hne Hj]]; [by left|]. right. split; [by eexists|].
    intros ->. by destruct Hne; eapply Hnd.
  - intros [->|[[j Hj] Hne]]; [exists i; by rewrite list_lookup_insert_eq|].
    exists j. by rewrite list_lookup_insert_ne by congruence.
Qed.

Lemma NoDup_insert_new (ks : list bytes) i k : NoDup ks → k ∉ ks → NoDup (<[i:=k]> ks).
Proof.
  rewrite !NoDup_alt. intros Hnd Hk a b x Ha Hb.
  rewrite list_lookup_insert_Some in Ha, Hb.
  assert (∀ j, ks !! j ≠ Some k) by (intros j Hj; by apply Hk; eapply list_elem_of_lookup_2).
  naive_solver.
Qed.

Lemma cache_inv_store c kl it k v :
  NoDup (keys kl) → (∀ k', k' ∈ keys kl ↔ k' = k ∨ is_Some (it !! k')) →
  (Z.of_nat (length (keys kl)) ≤ Z.max 0 (maxSize kl))%Z →
  cache_inv (mkCache (defaultExpiration c) (<[k := v]> it) kl).
Proof.
  intros Hnd Hd Hs. split; simpl; [done| |done].
  intros k'. rewrite Hd, lookup_insert_is_Some'. naive_solver.
Qed.

Lemma Set_inv now rand k x d c o c' :
  cache_inv c → Set_ now rand k x d c = (o, c') → cache_inv c'.
Proof.
  intros [Hnd Hd Hs] H. unfold Set_ in H. destruct (items c !! k) as [v|] eqn:Ek.
  { simplify_eq. apply cache_inv_store; [done| |done]. intros k'. rewrite Hd. naive_solver. }
  assert (k ∉ keys (klist c)) as Hk by (rewrite Hd, Ek; by intros []).
  destruct (insert_key rand k (klist c)) as [[[old|]|e|] kl] eqn:Ei;
    apply insert_key_spec in Ei as [Hms Ei]; simplify_eq.
  - destruct Ei as (i & Hi & Hkeys & Hfull).
    apply cache_inv_store; rewrite Hkeys; [by apply NoDup_insert_new| |].
    + intros k'. rewrite (elem_of_insert_nodup _ _ old) by done.
      rewrite lookup_delete_is_Some, Hd. naive_solver.
    + rewrite length_insert. lia.
  - destruct Ei as [Hkeys Hfull]. apply cache_inv_store; rewrite Hkeys.
    + apply NoDup_app. split_and!; [done| |apply NoDup_singleton].
      intros k' Hk'. rewrite list_elem_of_singleton. by intros ->.
    + intros k'. rewrite elem_of_app, list_elem_of_singleton, Hd. naive_solver.
    + rewrite length_app. simpl. lia.
  - done.
  - by split.
Qed.

Lemma Expired_mono now now' item :
  (now ≤ now')%Z → Expired now item = true → Expired now' item = true.
Proof. unfold Expired. case_match; [done|]. intros ?. rewrite !Z.ltb_lt. lia. Qed.

(** An item leaves the cache. *)
Lemma evict_inv i k c :
  cache_inv c → keys (klist c) !! i = Some k →
  cache_inv (mkCache (defaultExpiration c) (delete k (items c)) (evictAt i (klist c))).
Proof.
  intros Hc Ek. destruct (evictAt_spec i (klist c) k) as (Hnd & Hlen & Hms & Hin); [apply Hc|done|].
  split; cbn [klist items]; [done| |].
  - intros k'. rewrite Hin, lookup_delete_is_Some, (inv_dom c Hc). naive_solver.
  - rewrite Hlen, Hms. pose proof (inv_size c Hc). lia.
Qed.

(** The loop never meets a key without an item, keeps the invariant, and
    deletes only items that had expired. *)
Lemma deleteLoop_spec now n i c :
  cache_inv c →
  ∃ c', deleteLoop now n i c = (Ok (), c') ∧ cache_inv c' ∧
    ∀ k, items c' !! k = items c !! k ∨
      items c' !! k = None ∧ ∃ v j, items c !! k = Some v ∧ Expired (now j) v = true.
Proof.
  revert i c. induction n as [|n IH]; intros i c Hc; simpl; [by exists c; auto|].
  destruct (keys (klist c) !! i) as [k|] eqn:Ek; [|by exists c; auto].
  destruct (proj1 (inv_dom c Hc k)) as [v Hv]; [by eapply list_elem_of_lookup_2|]. rewrite Hv.
  destruct (Expired (now i) v) eqn:Ex; [|by apply IH].
  destruct (IH (S i) _ (evict_inv i k c Hc Ek)) as (c' & Hr & Hinv & Hit).
  exists c'. split; [done|]. split; [done|]. intros k'. destruct (Hit k') as [E|(E & w & j & Hw & Hj)];
    simpl in *.
  - rewrite E, lookup_delete. case_decide; [|by left]. subst. right. eauto.
  - right. rewrite lookup_delete in Hw. case_decide; [done|]. eauto.
Qed.

(** *** The sampled index *)

Lemma lor_shiftl_low q b : (0 ≤ b < 256)%Z → Z.lor (q ≪ 8) b = (q * 256 + b)%Z.
Proof.
  intros Hb. change 256%Z with (2 ^ 8)%Z. rewrite <-Z.shiftl_mul_pow2 by lia.
  symmetry. apply Z.add_nocarry_lor. apply Z.bits_inj'. intros n Hn.
  rewrite Z.land_spec, Z.bits_0. destruct (decide (n < 8)%Z); [by rewrite Z.shiftl_spec_low|].
  replace b with (b `mod` 2 ^ 8)%Z by (apply Z.mod_small; lia).
  by rewrite Z.mod_pow2_bits_high, andb_false_r by lia.
Qed.

Lemma sampleInt_fold buff : 
  fold_left (λ i b, wrap64 (Z.lor (wrap64 (i ≪ 8)) (b2z b))) buff 0%Z = wrap64 (be_val buff).
Proof.
  induction buff as [|b buff IH] using rev_ind; [done|].
  rewrite fold_left_app, be_val_app, IH. simpl. set (v := be_val buff).
  pose proof (b2z_range b). rewrite Z.shiftl_mul_pow2 by lia.
  destruct (wrap64_spec v) as [k ->].
  destruct (wrap64_spec ((v + k * 2 ^ 64) * 2 ^ 8)) as [k' ->].
  rewrite <-(wrap64_add (v * 256 + b2z b) (k * 2 ^ 8 + k')). f_equal.
  replace ((v + k * 2 ^ 64) * 2 ^ 8 + k' * 2 ^ 64)%Z
    with ((v + k * 2 ^ 64 + k' * 2 ^ 56) ≪ 8)%Z by (rewrite Z.shiftl_mul_pow2; lia).
  rewrite lor_shiftl_low by lia. lia.
Qed.

Lemma sampleInt_range buff :
  length buff = 8 → (be_val buff ≠ 2 ^ 63)%Z → (0 ≤ sampleInt buff < 2 ^ 63)%Z.
Proof.
  intros Hl Hne. unfold sampleInt. rewrite sampleInt_fold.
  pose proof (be_val_range buff) as Hr. rewrite Hl in Hr.
  pose proof (wrap64_range (be_val buff)) as Hw. unfold int64 in Hw.
  assert (wrap64 (be_val buff) ≠ - 2 ^ 63)%Z.
  { intros E. destruct (wrap64_spec (be_val buff)) as [k Hk]. lia. }
  destruct (Z.ltb_spec (wrap64 (be_val buff)) 0); [|lia].
  rewrite wrap64_small; unfold int64; lia.
Qed.

Lemma sampleInt_min buff : be_val buff = (2 ^ 63)%Z → sampleInt buff = (- 2 ^ 63)%Z.
Proof. intros E. unfold sampleInt. rewrite sampleInt_fold, E. by vm_compute. Qed.

(** ** Properties *)

(** C37. In every cache that the server and its janitor can make of a new one, the
    list of keys has no duplicates and holds exactly the keys of the map, and
    the cache is within its maximal size. *)
Theorem reachable_inv de max c :
  rtc step (New de max) c → cache_inv c.
Proof.
  apply (rtc_ind_r cache_inv).
  - split; simpl; [constructor| |simpl; lia].
    intros k. rewrite elem_of_nil, lookup_empty. split; [done|by intros []].
  - intros c1 c2 _ [now rand k x d c3 c4 H|now c3 c4 H] Hc; [by eapply Set_inv|].
    destruct (deleteLoop_spec now (length (keys (klist c3))) 0 c3 Hc) as (c5 & Hr & Hi & _).
    unfold DeleteExpired in H. rewrite Hr in H. by simplify_eq.
Qed.

(** [Set] then [Get]: the value is there until it expires; of the other keys at
    most one is lost, and none unless the key is new and the cache full. *)
Theorem Set_Get now rand k x d c c' :
  cache_inv c → Set_ now rand k x d c = (Ok (), c') →
  (∃ e, (∀ t, Get_ t k c' = if Expired t (mkItem x e) then None else Some x) ∧
     let d' := if (d =? 0)%Z then defaultExpiration c else d in
     e = if (0 <? d')%Z then wrap64 (now + d') else 0%Z) ∧
  ∃ lost : option bytes,
    (∀ t k', k' ≠ k → Some k' ≠ lost → Get_ t k' c' = Get_ t k' c) ∧
    (is_Some lost → items c !! k = None ∧
       (maxSize (klist c) ≤ Z.of_nat (length (keys (klist c))))%Z).
Proof.
  intros Hc H. unfold Set_, DefaultExpiration in H.
  set (e := if (0 <? if (d =? 0)%Z then defaultExpiration c else d)%Z
            then wrap64 (now + if (d =? 0)%Z then defaultExpiration c else d) else 0%Z) in *.
  assert (∃ it kl lost, c' = mkCache (defaultExpiration c) (<[k := mkItem x e]> it) kl ∧
    (∀ k', k' ≠ k → Some k' ≠ lost → it !! k' = items c !! k') ∧
    (is_Some lost → items c !! k = None ∧
       (maxSize (klist c) ≤ Z.of_nat (length (keys (klist c))))%Z)) as (it & kl & lost & -> & Hit & Hl).
  { destruct (items c !! k) as [v|] eqn:Ek.
    { simplify_eq. eexists _, _, None. split; [done|]. split; [done|by intros []]. }
    destruct (insert_key rand k (klist c)) as [[[old|]|?|] kl] eqn:Ei;
      apply insert_key_spec in Ei as [_ Ei]; simplify_eq; [|by eexists _, _, None; naive_solver].
    destruct Ei as (i & _ & _ & Hfull). eexists _, _, (Some old). split; [done|]. split; [|done].
    intros k' _ Hne. apply lookup_delete_ne. congruence. }
  split.
  - exists e. split; [|done]. intros t. unfold Get_. simpl. by rewrite lookup_insert_eq.
  - exists lost. split; [|done]. intros t k' Hne Hno. unfold Get_. simpl.
    by rewrite lookup_insert_ne, Hit.
Qed.

(** The janitor is invisible: [DeleteExpired] returns, and from then on [Get]
    answers as it would have without it. *)
Theorem DeleteExpired_Get now t k c :
  cache_inv c → (∀ i, (now i ≤ t)%Z) →
  ∃ c', DeleteExpired now c = (Ok (), c') ∧ cache_inv c' ∧ Get_ t k c' = Get_ t k c.
Proof.
  intros Hc Ht. unfold DeleteExpired.
  destruct (deleteLoop_spec now (length (keys (klist c))) 0 c Hc) as (c' & Hr & Hi & Hit).
  exists c'. split; [done|]. split; [done|]. unfold Get_.
  destruct (Hit k) as [->|(-> & v & j & -> & Hx)]; [done|].
  by rewrite (Expired_mono _ _ _ (Ht j) Hx).
Qed.

(** [Set] panics exactly when the key is new, the cache is full, and either its
    size is not positive or the random integer is the least int64 and its
    remainder by the size is not zero. *)
Theorem Set_panics now buff k x d c :
  cache_inv c → length buff = 8 →
  fst (Set_ now (Some buff) k x d c) = Panic ↔
  items c !! k = None ∧ (maxSize (klist c) ≤ Z.of_nat (length (keys (klist c))))%Z ∧
  (keys (klist c) = [] ∨
   be_val buff = (2 ^ 63)%Z ∧ (2 ^ 63 `mod` Z.of_nat (length (keys (klist c))) ≠ 0)%Z).
Proof.
  intros Hc Hb. unfold Set_. destruct (items c !! k) as [v|] eqn:Ek; [by split; [|intros [? _]]|].
  unfold insert_key. set (ks := keys (klist c)).
  destruct (Z.ltb_spec (Z.of_nat (length ks)) (maxSize (klist c))) as [Hlt|Hge].
  { split; [done|]. lia. }
  destruct (Nat.eqb_spec (length ks) 0) as [Hz|Hnz].
  { split; [|done]. intros _. apply nil_length_inv in Hz. auto. }
  assert (ks ≠ []) by (by destruct ks). unfold gorem.
  destruct (decide (be_val buff = 2 ^ 63)%Z) as [E|E].
  - rewrite (sampleInt_min _ E), Z.rem_opp_l', Z.rem_mod_nonneg by lia.
    pose proof (Z.mod_pos_bound (2 ^ 63) (Z.of_nat (length ks))).
    destruct (Z.ltb_spec (- (2 ^ 63 `mod` Z.of_nat (length ks))) 0).
    + split; [intros _; split_and!; try done; right; split; [done|lia]|done].
    + assert (2 ^ 63 `mod` Z.of_nat (length ks) = 0)%Z as -> by lia.
      destruct (lookup_lt_is_Some_2 ks 0) as [old Hold]; [lia|].
      change (Z.to_nat (- 0)) with 0%nat. rewrite Hold. split; [done|naive_solver].
  - pose proof (sampleInt_range buff Hb E). rewrite Z.rem_mod_nonneg by lia.
    pose proof (Z.mod_pos_bound (sampleInt buff) (Z.of_nat (length ks))).
    destruct (Z.ltb_spec (sampleInt buff `mod` Z.of_nat (length ks)) 0); [lia|].
    destruct (lookup_lt_is_Some_2 ks (Z.to_nat (sampleInt buff `mod` Z.of_nat (length ks))))
      as [old Hold]; [lia|].
    rewrite Hold. split; [done|naive_solver].
Qed.
End cache.
Arguments Item : clear implicits.
Arguments cache : clear implicits.

(** ** Witnesses *)

Definition zeros8 : bytes := replicate 8 Byte.x00.

(** A cache of size two, filled. *)
Definition fullCache : cache nat :=
  let c0 := New 5 2 in
  let c1 := snd (Set_ 1 None [Byte.x61] 10 0 c0) in
  snd (Set_ 1 None [Byte.x62] 20 0 c1).

Lemma fullCache_reachable : rtc step (New 5 2) fullCache.
Proof.
  eapply rtc_l; [apply (step_Set 1 None [Byte.x61] 10 0); reflexivity|].
  apply rtc_once, (step_Set 1 None [Byte.x62] 20 0). reflexivity.
Qed.

Lemma fullCache_inv : cache_inv fullCache.
Proof.
  unfold fullCache. eapply (Set_inv 1 None [Byte.x62] 20 0);
    [|apply surjective_pairing].
  eapply (Set_inv 1 None [Byte.x61] 10 0); [|apply surjective_pairing].
  split; simpl; [constructor| |simpl; lia].
  intros k. rewrite elem_of_nil, lookup_empty. split; [done|by intros []].
Qed.

(** The key that [evictAt] moves into the place of an expired one is not
    looked at: [DeleteExpired] may leave expired items behind. *)
Lemma DeleteExpired_leaves_expired :
  ∃ c', DeleteExpired (λ _, 100%Z) fullCache = (Ok (), c') ∧
    ∃ k v, items c' !! k = Some v ∧ Expired 100 v = true.
Proof.
  eexists. split; [vm_compute; reflexivity|].
  exists [Byte.x62], (mkItem 20 6). split; vm_compute; reflexivity.
Qed.

Lemma reachable_inv_witness :
  rtc step (New 5 2) fullCache ∧ cache_inv fullCache.
Proof.
  split; [apply fullCache_reachable|].
  exact (reachable_inv 5 2 fullCache fullCache_reachable).
Defined.

Lemma Set_Get_witness :
  let c' := snd (Set_ 3 (Some zeros8) [Byte.x63] 30 0 fullCache) in
  Get_ 7 [Byte.x63] c' = Some 30 ∧ Get_ 9 [Byte.x63] c' = None ∧
  Get_ 4 [Byte.x61] c' = None ∧ Get_ 4 [Byte.x62] c' = Some 20 ∧
  ∃ lost : option bytes,
    (∀ t k', k' ≠ [Byte.x63] → Some k' ≠ lost → Get_ t k' c' = Get_ t k' fullCache).
Proof.
  split; [vm_compute; reflexivity|]. split; [vm_compute; reflexivity|].
  split; [vm_compute; reflexivity|]. split; [vm_compute; reflexivity|].
  destruct (Set_Get 3 (Some zeros8) [Byte.x63] 30 0 fullCache
    (snd (Set_ 3 (Some zeros8) [Byte.x63] 30 0 fullCache))) as [_ (lost & Hl & _)].
  - apply fullCache_inv.
  - vm_compute. reflexivity.
  - exists lost. exact Hl.
Defined.

Lemma DeleteExpired_Get_witness :
  ∃ c', DeleteExpired (λ _, 100%Z) fullCache = (Ok (), c') ∧ cache_inv c' ∧
    Get_ 100 [Byte.x61] c' = Get_ 100 [Byte.x61] fullCache.
Proof. apply (DeleteExpired_Get (λ _, 100%Z) 100 [Byte.x61] fullCache fullCache_inv). lia. Defined.

Lemma Set_panics_witness :
  fst (Set_ 3 (Some (Byte.x80 :: replicate 7 Byte.x00)) [Byte.x63] 30 0 fullCache) = Ok () ∧
  (fst (Set_ 3 (Some zeros8) [Byte.x63] 30 0 fullCache) = Panic ↔
   items fullCache !! [Byte.x63] = None ∧
   (maxSize (klist fullCache) ≤ Z.of_nat (length (keys (klist fullCache))))%Z ∧
   (keys (klist fullCache) = [] ∨
    be_val zeros8 = (2 ^ 63)%Z ∧
    (2 ^ 63 `mod` Z.of_nat (length (keys (klist fullCache))) ≠ 0)%Z)).
Proof.
  split; [vm_compute; reflexivity|].
  apply (Set_panics 3 zeros8 [Byte.x63] 30 0 fullCache fullCache_inv). reflexivity.
Defined.
