(* ===== verification/Janitor.v ===== *)
(** * The janitor of the cache (src/ct/cache/cache.go)

    A goroutine that runs [DeleteExpired] at every tick of a timer, until the
    finalizer of the cache stops it.  [DeleteExpired] does not look at the keys
    that it moves, and so leaves expired items behind ([Cache]); what it leaves is
    at most half of them, so that a few ticks remove them all. *)

From S2P Require Import Prelude Cache.

Section janitor.
Context {A : Type}.

(** [stop] tells whether something was sent on the channel. *)
Record janitor := mkJanitor { Interval : Z; stop : bool }.

(** [Cache], the handle that is returned; a cache without a cleanup interval has
    no janitor. *)
Record Cache := mkHandle { inner : cache A; cacheJanitor : option janitor }.

Inductive janitorEvent := Tick (now : nat → Z) | Stop.

(** [janitor.Run] *)
Fixpoint Run (events : list janitorEvent) : M (cache A) unit :=
  match events with
  | [] => mret ()
  | Tick now :: events => _ ← DeleteExpired now; Run events
  | Stop :: _ => mret ()
  end.

(** Sending on the channel of a nil janitor panics. *)
Definition stopJanitor : M Cache unit := λ C,
  match cacheJanitor C with
  | Some j => (Ok (), mkHandle (inner C) (Some (mkJanitor (Interval j) true)))
  | None => (Panic, C)
  end.

Definition runJanitor (ci : Z) (c : cache A) : Cache := mkHandle c (Some (mkJanitor ci false)).

Definition newCacheWithJanitor (de ci maxSize : Z) (m : gmap bytes (Item A)) : Cache :=
  let c := newCache de maxSize m in
  if (0 <? ci)%Z then runJanitor ci c else mkHandle c None.

(** ** What a tick leaves behind *)

(** The keys of items that are expired at a time. *)
Definition isExpired (t : Z) (it : gmap bytes (Item A)) (k : bytes) : Prop :=
  ∃ v, it !! k = Some v ∧ Expired t v = true.
#[global] Instance isExpired_dec t it k : Decision (isExpired t it k).
Proof.
  unfold isExpired. destruct (it !! k) as [v|]; [|right; by intros (? & ? & _)].
  destruct (Expired t v) eqn:E; [left; by exists v|right; intros (v' & [= <-] & E'); congruence].
Defined.
Definition expired (t : Z) (it : gmap bytes (Item A)) (ks : list bytes) : nat :=
  length (filter (isExpired t it) ks).

Lemma expired_app t it l1 l2 : expired t it (l1 ++ l2) = expired t it l1 + expired t it l2.
Proof. unfold expired. by rewrite filter_app, length_app. Qed.
Lemma expired_cons t it k l : expired t it (k :: l) = (if decide (isExpired t it k) then 1 else 0) + expired t it l.
Proof. unfold expired. rewrite filter_cons. by case_decide. Qed.

Lemma expired_delete t it k l : k ∉ l → expired t (delete k it) l = expired t it l.
Proof.
  induction l as [|k' l IH]; [done|]. intros [Hne Hl]%not_elem_of_cons. rewrite !expired_cons, IH by done. f_equal.
  destruct (decide (isExpired t (delete k it) k')) as [(v & Hv & Ev)|Hn], (decide (isExpired t it k')) as [(v' & Hv' & Ev')|Hn'];
    try done; exfalso.
  - apply Hn'. exists v. by rewrite lookup_delete_ne in Hv.
  - apply Hn. exists v'. by rewrite lookup_delete_ne.
Qed.

(** The last key takes the place of the one that is evicted. *)
Lemma evictAt_last l1 k ms : evictAt (length l1) (mkKeyList (l1 ++ [k]) ms) = mkKeyList l1 ms.
Proof.
  unfold evictAt. cbn [keys maxSize]. rewrite length_app. cbn [length]. f_equal.
  replace (length l1 + 1 - 1) with (length l1) by lia. rewrite list_lookup_middle by done.
  rewrite !(list_insert_id (l1 ++ [k])) by (by apply list_lookup_middle).
  by rewrite take_app_length.
Qed.

Lemma evictAt_middle l1 k l2 z ms :
  evictAt (length l1) (mkKeyList (l1 ++ k :: l2 ++ [z]) ms) = mkKeyList (l1 ++ z :: l2) ms.
Proof.
  unfold evictAt. cbn [keys maxSize]. f_equal. rewrite list_lookup_middle by done.
  replace (length (l1 ++ k :: l2 ++ [z]) - 1) with (length (l1 ++ k :: l2)) by (rewrite !length_app; cbn [length]; rewrite length_app; cbn; lia).
  replace (l1 ++ k :: l2 ++ [z]) with ((l1 ++ k :: l2) ++ [z]) by (by rewrite <-app_assoc).
  rewrite list_lookup_middle by done. rewrite <-app_assoc. cbn [app].
  rewrite (insert_app_r_alt l1 _ (length l1)) by lia. rewrite Nat.sub_diag. cbn [insert list_insert].
  replace (l1 ++ z :: l2 ++ [z]) with ((l1 ++ z :: l2) ++ [z]) by (by rewrite <-app_assoc).
  replace (length (l1 ++ k :: l2)) with (length (l1 ++ z :: l2)) by (by rewrite !length_app).
  rewrite take_insert, decide_False by lia. apply take_app_length.
Qed.

(** A pass from index [i] on: twice what it leaves is at most twice what it has
    left behind, and what was ahead of it. *)
Lemma deleteLoop_half t : ∀ n l1 l2 c,
  cache_inv c → keys (klist c) = l1 ++ l2 → length l2 ≤ n →
  ∃ c', deleteLoop (λ _, t) n (length l1) c = (Ok (), c') ∧ cache_inv c' ∧
    2 * expired t (items c') (keys (klist c')) ≤ 2 * expired t (items c) l1 + expired t (items c) l2.
Proof.
  induction n as [|n IH]; intros l1 l2 c Hc Ek Hn.
  { destruct l2; [|cbn in Hn; lia]. exists c. rewrite Ek, app_nil_r. split_and!; [done..|lia]. }
  cbn [deleteLoop]. destruct l2 as [|k l2].
  { exists c. rewrite Ek, app_nil_r, lookup_ge_None_2 by lia. split_and!; [done..|lia]. }
  assert (keys (klist c) !! length l1 = Some k) as Hk by (rewrite Ek; by apply list_lookup_middle). rewrite Hk.
  destruct (proj1 (inv_dom c Hc k)) as [v Hv]; [by eapply list_elem_of_lookup_2|]. rewrite Hv.
  assert (length (l1 ++ [k]) = S (length l1)) as Hl1 by (rewrite length_app; cbn; lia).
  destruct (Expired t v) eqn:Ex.
  2:{ destruct (IH (l1 ++ [k]) l2 c Hc) as (c' & E & Hc' & Hle); [by rewrite <-app_assoc|cbn in Hn; lia|].
      rewrite Hl1 in E. exists c'. split; [done|]. split; [done|]. rewrite expired_app, expired_cons in Hle.
      rewrite expired_cons. assert (¬ isExpired t (items c) k) as He by (intros (? & ? & ?); congruence).
      rewrite decide_False in Hle |- * by done. cbn in Hle. unfold expired in *. cbn in Hle. lia. }
  assert (isExpired t (items c) k) as He by by exists v. rewrite expired_cons, decide_True by done.
  pose proof (evict_inv (length l1) k c Hc Hk) as Hc1. pose proof (inv_nodup c Hc) as Hnd. rewrite Ek in Hnd.
  apply NoDup_app in Hnd as (_ & Hk1 & [Hk2 _]%NoDup_cons).
  assert (k ∉ l1) as Hkl1 by (intros Hin; apply (Hk1 k Hin); by left).
  destruct (klist c) as [ks ms] eqn:Ekl. cbn [keys] in Ek. subst ks.
  destruct l2 as [|z l2] using rev_ind; [|clear IHl2].
  - rewrite evictAt_last in *. set (c1 := mkCache _ _ _) in *.
    exists c1. split; [destruct n; cbn [deleteLoop]; [done|]; cbn [c1 klist keys]; by rewrite lookup_ge_None_2 by lia|].
    split; [done|]. cbn [c1 klist keys items]. rewrite expired_delete by done. lia.
  - rewrite evictAt_middle in *. set (c1 := mkCache _ _ _) in *.
    assert (k ∉ l2 ∧ k ≠ z) as [Hkl2 Hkz] by (rewrite elem_of_app, list_elem_of_singleton in Hk2; tauto).
    destruct (IH (l1 ++ [z]) l2 c1 Hc1) as (c' & E & Hc' & Hle);
      [cbn [c1 klist keys]; by rewrite <-app_assoc|cbn [length] in Hn; rewrite length_app in Hn; cbn in Hn; lia|].
    replace (length (l1 ++ [z])) with (S (length l1)) in E by (rewrite length_app; cbn; lia).
    exists c'. split; [done|]. split; [done|]. cbn [c1 items] in Hle.
    rewrite !expired_delete in Hle by (rewrite ?elem_of_app, ?list_elem_of_singleton; tauto).
    rewrite expired_app in Hle |- *. assert (expired t (items c) [z] ≤ 1) by (unfold expired; rewrite filter_cons; case_decide; cbn; lia). lia.
Qed.

(** The number of items that are expired at a time. *)
Definition leftover (t : Z) (c : cache A) : nat := expired t (items c) (keys (klist c)).

Lemma DeleteExpired_half t c :
  cache_inv c → ∃ c', DeleteExpired (λ _, t) c = (Ok (), c') ∧ cache_inv c' ∧ 2 * leftover t c' ≤ leftover t c.
Proof.
  intros Hc. destruct (deleteLoop_half t (length (keys (klist c))) [] (keys (klist c)) c Hc) as (c' & E & Hc' & Hle);
    [done..|]. by exists c'.
Qed.

Lemma leftover_none t c k v :
  cache_inv c → leftover t c = 0 → items c !! k = Some v → Expired t v = false.
Proof.
  intros Hc Hl Hv. destruct (Expired t v) eqn:Ex; [|done]. exfalso.
  assert (k ∈ filter (isExpired t (items c)) (keys (klist c))) as Hin.
  { apply list_elem_of_filter. split; [by exists v|]. apply (inv_dom c Hc). by eexists. }
  unfold leftover, expired in Hl. apply nil_length_inv in Hl. rewrite Hl in Hin. by apply not_elem_of_nil in Hin.
Qed.

(** The janitor cleans up, though [DeleteExpired] misses items: every tick leaves at
    most half of the items that are expired, so that [n] ticks, however late, leave
    none when there were fewer than [2 ^ n]; the cache stays consistent. *)
Theorem janitor_clears t n c :
  cache_inv c → leftover t c < 2 ^ n →
  ∃ c', Run (replicate n (Tick (λ _, t))) c = (Ok (), c') ∧ cache_inv c' ∧
    ∀ k v, items c' !! k = Some v → Expired t v = false.
Proof.
  revert c. induction n as [|n IH]; intros c Hc Hn.
  { exists c. split; [done|]. split; [done|]. intros k v. apply leftover_none; [done|]. cbn in Hn. lia. }
  destruct (DeleteExpired_half t c Hc) as (c1 & E1 & Hc1 & Hle).
  destruct (IH c1 Hc1) as (c' & E & Hc' & Hall); [cbn in Hn; lia|]. exists c'.
  split; [|by split]. cbn [replicate Run]. by erewrite mbind_step by exact E1.
Qed.

(** A janitor that was stopped does nothing more. *)
Lemma Run_stopped events1 events2 (c : cache A) : Run (events1 ++ Stop :: events2) c = Run events1 c.
Proof.
  revert c. induction events1 as [|[now|] events1 IH]; intros c; [done| |done].
  cbn [app Run]. unfold mbind, M_bind. destruct (DeleteExpired now c) as [[[]|e|] c']; [apply IH|done..].
Qed.
End janitor.
