(* ===== verification/Quota.v ===== *)
(** * Backpressure on queued leaves (src/ct/quota_manager.go)

    [QuotaManager] counts the unsequenced leaves of each log: [GetTokens] takes
    tokens for leaves about to be queued, [PutTokens] gives them back, and a
    goroutine per log ([watchOnce] is one round of it) resets the count to what
    the local database holds.  The mutex makes each method one step. *)

From S2P Require Import Prelude Keys Trillian Frontier LevelDB Local.

(** ** Data *)

Inductive Group := Global | Tree | User.
Inductive Kind := Read | Write.

#[global] Instance Group_eq_dec : EqDecision Group.
Proof. solve_decision. Defined.
#[global] Instance Kind_eq_dec : EqDecision Kind.
Proof. solve_decision. Defined.

Record Spec := mkSpec { group : Group; kind : Kind; TreeID : Z; userName : string }.

(** The gauges hold what was last set for a tree. *)
Record QuotaManager := mkQuotaManager {
  maxUnsequencedLeaves : Z;
  unsequenced : gmap Z Z;
  TreeSizeGauge : gmap Z Z;
  UnsequencedLeavesGauge : gmap Z Z
}.

Definition with_unsequenced (m : gmap Z Z) (qm : QuotaManager) : QuotaManager :=
  mkQuotaManager (maxUnsequencedLeaves qm) m (TreeSizeGauge qm) (UnsequencedLeavesGauge qm).

Definition NewQuotaManager (maxUnsequencedLeaves : Z) : QuotaManager :=
  mkQuotaManager maxUnsequencedLeaves ∅ ∅ ∅.

Definition err_unknown_tree : error := Errorf "unknown tree id: %v".
Definition err_too_many : error := Errorf "too many unsequenced leaves".

(** ** Operations *)

Definition getTokens (numTokens : Z) (spec : Spec) : M QuotaManager unit := λ qm,
  if negb (bool_decide (group spec = Tree)) then (Ok (), qm)
  else if negb (bool_decide (kind spec = Write)) then (Ok (), qm)
  else
    let tokens := numTokens in
    match unsequenced qm !! TreeID spec with
    | None => (Err err_unknown_tree, qm)
    | Some count =>
        if (maxUnsequencedLeaves qm <? wrap64 (count + tokens))%Z then (Err err_too_many, qm)
        else (Ok (), with_unsequenced
                       (<[TreeID spec := wrap64 (count + tokens)]> (unsequenced qm)) qm)
    end.

Definition GetTokens (numTokens : Z) (specs : list Spec) : M QuotaManager unit :=
  mfold (λ _ spec, getTokens numTokens spec) () specs.

Definition putTokens (numTokens : Z) (spec : Spec) : M QuotaManager unit := λ qm,
  if negb (bool_decide (group spec = Tree)) then (Ok (), qm)
  else if negb (bool_decide (kind spec = Write)) then (Ok (), qm)
  else
    match unsequenced qm !! TreeID spec with
    | None => (Err err_unknown_tree, qm)
    | Some count =>
        let count := wrap64 (count - numTokens) in
        let count := if (count <? 0)%Z then 0%Z else count in
        (Ok (), with_unsequenced (<[TreeID spec := count]> (unsequenced qm)) qm)
    end.

Definition PutTokens (numTokens : Z) (specs : list Spec) : M QuotaManager unit :=
  mfold (λ _ spec, putTokens numTokens spec) () specs.

Definition GetUser : string := "".

Definition PeekTokens (specs : list Spec) : M QuotaManager (gmap Z Z) :=
  fail (Errorf "peeking into the quota is not implemented").

Definition ResetQuota (specs : list Spec) : M QuotaManager unit :=
  fail (Errorf "resetting the quota is not implemented").

Section watch.
Context `{!Codec LogLeaf, !Codec SubtreeProto, !Codec Frontier}.

(** What [WatchLog] does before it starts its goroutine. *)
Definition WatchLog (treeID : Z) : M QuotaManager unit :=
  modify (λ qm, with_unsequenced (<[treeID := 0%Z]> (unsequenced qm)) qm).

(** One round of the goroutine; errors are logged and end the round. *)
Definition watchOnce (treeID : Z) : M (DB * QuotaManager) unit :=
  root ← try (zoom fst (λ d s, (d, s.2)) (MostRecentRoot treeID));
  match root with
  | Err _ => mret ()
  | Panic => panic
  | Ok (sth, _) =>
      cnt ← try (zoom fst (λ d s, (d, s.2)) (Unsequenced treeID));
      match cnt with
      | Err _ => mret ()
      | Panic => panic
      | Ok count =>
          modify (λ s, (s.1, mkQuotaManager (maxUnsequencedLeaves s.2)
            (<[treeID := wrap64 count]> (unsequenced s.2))
            (<[treeID := TreeSize sth]> (TreeSizeGauge s.2))
            (<[treeID := count]> (UnsequencedLeavesGauge s.2))))
      end
  end.
End watch.

(** ** Counting *)

(** The specs that are charged to a tree. *)
Definition limited (s : Spec) : Prop := group s = Tree ∧ kind s = Write.
#[global] Instance limited_dec s : Decision (limited s).
Proof. unfold limited. apply _. Defined.

Definition charge (t : Z) (specs : list Spec) : Z :=
  Z.of_nat (length (filter (λ s, limited s ∧ TreeID s = t) specs)).

(** The counts after each of [specs] was charged [n]. *)
Definition charged (n : Z) (specs : list Spec) (m : gmap Z Z) : gmap Z Z :=
  map_imap (λ t c, Some (c + n * charge t specs)%Z) m.

(** ** Lemmas *)

Lemma lookup_charged n specs m t :
  charged n specs m !! t = (λ c, c + n * charge t specs)%Z <$> m !! t.
Proof. unfold charged. rewrite map_lookup_imap. by destruct (m !! t). Qed.

Lemma charge_cons t s specs :
  charge t (s :: specs) =
  (charge t specs + if decide (limited s ∧ TreeID s = t) then 1 else 0)%Z.
Proof. unfold charge. rewrite filter_cons. case_decide; simpl; lia. Qed.

Lemma charge_nonneg t specs : (0 ≤ charge t specs)%Z.
Proof. unfold charge. lia. Qed.

Lemma charged_nil n m : charged n [] m = m.
Proof.
  apply map_eq. intros t. rewrite lookup_charged. unfold charge. simpl.
  destruct (m !! t); simpl; [f_equal; lia|done].
Qed.

Lemma charged_unlimited n s specs m :
  ¬ limited s → charged n (s :: specs) m = charged n specs m.
Proof.
  intros Hs. apply map_eq. intros t. rewrite !lookup_charged, charge_cons.
  rewrite decide_False by naive_solver. destruct (m !! t); simpl; [f_equal; lia|done].
Qed.

Lemma charged_limited n s specs m c :
  limited s → m !! TreeID s = Some c →
  charged n (s :: specs) m = charged n specs (<[TreeID s := (c + n)%Z]> m).
Proof.
  intros Hs Hc. apply map_eq. intros t. rewrite !lookup_charged, charge_cons.
  destruct (decide (TreeID s = t)) as [<-|Hne].
  - rewrite decide_True by done. rewrite Hc, lookup_insert_eq. simpl. f_equal. lia.
  - rewrite decide_False by naive_solver. rewrite lookup_insert_ne by done.
    destruct (m !! t); simpl; [f_equal; lia|done].
Qed.

Lemma charged_inverse n specs m : charged (- n) specs (charged n specs m) = m.
Proof.
  apply map_eq. intros t. rewrite !lookup_charged. destruct (m !! t); simpl; [f_equal; lia|done].
Qed.

(** Counts that [k] more charges of [n] do not overflow. *)
Definition no_overflow (n : Z) (k : nat) (m : gmap Z Z) : Prop :=
  ∀ t c, m !! t = Some c → (0 ≤ c ∧ c + n * Z.of_nat k < 2 ^ 63)%Z.

Lemma getTokens_cases n s qm :
  limited s ∨ getTokens n s qm = (Ok (), qm) ∧ ¬ limited s.
Proof.
  unfold getTokens, limited. case_bool_decide; [|right; simpl; naive_solver].
  case_bool_decide; [by left|right; simpl; naive_solver].
Qed.

Lemma putTokens_cases n s qm :
  limited s ∨ putTokens n s qm = (Ok (), qm) ∧ ¬ limited s.
Proof.
  unfold putTokens, limited. case_bool_decide; [|right; simpl; naive_solver].
  case_bool_decide; [by left|right; simpl; naive_solver].
Qed.

Lemma with_unsequenced_id qm : with_unsequenced (unsequenced qm) qm = qm.
Proof. by destruct qm. Qed.

(** Why a spec is refused. *)
Definition refused (n : Z) (qm : QuotaManager) (s : Spec) (e : error) : Prop :=
  limited s ∧
  match unsequenced qm !! TreeID s with
  | None => e = err_unknown_tree
  | Some c => (maxUnsequencedLeaves qm < c + n)%Z ∧ e = err_too_many
  end.

Lemma GetTokens_spec n specs qm :
  (0 ≤ n)%Z → no_overflow n (length specs) (unsequenced qm) →
  ∃ taken rest,
    specs = taken ++ rest ∧
    let qm' := with_unsequenced (charged n taken (unsequenced qm)) qm in
    match GetTokens n specs qm with
    | (Ok _, s) => rest = [] ∧ s = qm' ∧
        ∀ t, (0 < charge t specs)%Z →
          ∃ c, unsequenced qm' !! t = Some c ∧ (c ≤ maxUnsequencedLeaves qm)%Z
    | (Err e, s) => s = qm' ∧ ∃ sp rest', rest = sp :: rest' ∧ refused n qm' sp e
    | (Panic, _) => False
    end.
Proof.
  intros Hn. unfold GetTokens. revert qm. induction specs as [|s specs IH]; intros qm Ho.
  { exists [], []. simpl. rewrite charged_nil, with_unsequenced_id. split; [done|].
    split; [done|]. split; [done|]. unfold charge. simpl. lia. }
  cbn [mfold]. unfold mbind, M_bind.
  assert (no_overflow n (length specs) (unsequenced qm)) as Ho'.
  { intros t c Hc. specialize (Ho t c Hc). simpl in Ho. nia. }
  destruct (getTokens_cases n s qm) as [Hs|[-> Hs]].
  2:{ destruct (IH qm Ho') as (taken & rest & -> & H). exists (s :: taken), rest.
      split; [done|]. rewrite charged_unlimited by done. destruct (mfold _ _ _ _) as [[[]|e|] qm'];
        [|done|done]. destruct H as (-> & -> & H). split; [done|]. split; [done|].
      intros t. rewrite charge_cons, decide_False by naive_solver. rewrite Z.add_0_r. apply H. }
  unfold getTokens. pose proof Hs as [Hg Hk]. rewrite !bool_decide_true by done. cbn [negb].
  assert (∀ e, refused n qm s e → ∃ taken rest, s :: specs = taken ++ rest ∧
     qm = with_unsequenced (charged n taken (unsequenced qm)) qm ∧
     ∃ sp rest', rest = sp :: rest' ∧
       refused n (with_unsequenced (charged n taken (unsequenced qm)) qm) sp e) as Href.
  { intros e He. exists [], (s :: specs). rewrite charged_nil, with_unsequenced_id.
    split; [done|]. split; [done|]. by exists s, specs. }
  destruct (unsequenced qm !! TreeID s) as [c|] eqn:Ec.
  2:{ apply Href. split; [done|]. by rewrite Ec. }
  destruct (Ho _ _ Ec) as [Hc0 Hc1]. simpl in Hc1.
  rewrite wrap64_small by (unfold int64; nia).
  destruct (Z.ltb_spec (maxUnsequencedLeaves qm) (c + n)).
  { apply Href. split; [done|]. by rewrite Ec. }
  set (qm1 := with_unsequenced (<[TreeID s:=(c + n)%Z]> (unsequenced qm)) qm).
  destruct (IH qm1) as (taken & rest & -> & H').
  { intros t c'. simpl. rewrite lookup_insert. case_decide; [intros [= <-]; nia|apply Ho']. }
  exists (s :: taken), rest. split; [done|]. rewrite (charged_limited _ _ _ _ c) by done.
  destruct (mfold _ _ _ _) as [[[]|e|] qm']; [|done|done].
  destruct H' as (-> & -> & H'). split; [done|]. split; [done|].
  intros t. rewrite charge_cons. case_decide as Ht; [|rewrite Z.add_0_r; apply H'].
  intros _. destruct Ht as [_ <-].
  destruct (decide (0 < charge (TreeID s) taken)%Z) as [Hpos|Hpos].
  { apply H'. by rewrite app_nil_r. }
  pose proof (charge_nonneg (TreeID s) taken).
  exists (c + n)%Z. split; [|done]. simpl. rewrite lookup_charged, lookup_insert_eq. simpl.
  f_equal. nia.
Qed.

Lemma PutTokens_spec n specs qm :
  (0 ≤ n)%Z →
  (∀ s, s ∈ specs → limited s → is_Some (unsequenced qm !! TreeID s)) →
  (∀ t c, unsequenced qm !! t = Some c → n * charge t specs ≤ c < 2 ^ 63)%Z →
  PutTokens n specs qm =
    (Ok (), with_unsequenced (charged (- n) specs (unsequenced qm)) qm).
Proof.
  intros Hn. unfold PutTokens. revert qm. induction specs as [|s specs IH]; intros qm Hk Hc.
  { simpl. by rewrite charged_nil, with_unsequenced_id. }
  cbn [mfold]. unfold mbind, M_bind.
  assert (∀ s, s ∈ specs → limited s → is_Some (unsequenced qm !! TreeID s)) as Hk'
    by (intros; apply Hk; [by right|done]).
  destruct (putTokens_cases n s qm) as [Hs|[-> Hs]].
  2:{ rewrite charged_unlimited by done. apply IH; [done|]. intros t c Hct.
      specialize (Hc t c Hct). rewrite charge_cons, decide_False in Hc by naive_solver. lia. }
  unfold putTokens at 1. pose proof Hs as [Hg Hkd]. rewrite !bool_decide_true by done. cbn [negb].
  destruct (Hk s ltac:(by left) Hs) as [c Ec]. rewrite Ec.
  pose proof (Hc _ _ Ec) as Hcs. rewrite charge_cons, decide_True in Hcs by done.
  pose proof (charge_nonneg (TreeID s) specs).
  rewrite wrap64_small by (unfold int64; nia).
  destruct (Z.ltb_spec (c - n) 0); [nia|].
  rewrite (charged_limited (- n) s specs _ c Hs Ec). rewrite Z.add_opp_r.
  rewrite IH; [done|..]; simpl.
  - intros s' Hs' Hl'. rewrite lookup_insert_is_Some'. right. by apply Hk'.
  - intros t c'. rewrite lookup_insert. case_decide as Et.
    + intros [= <-]. subst. lia.
    + intros Hct. specialize (Hc t c' Hct). rewrite charge_cons, decide_False in Hc by naive_solver.
      lia.
Qed.

(** The number of leaves that wait in the queue of a log. *)
Definition queueLength (m : kvmap) (t : Z) (q : Z) : Prop :=
  ∃ rows : list bytes, NoDup rows ∧ q = Z.of_nat (length rows) ∧
    ∀ k, k ∈ rows ↔ is_Some (m !! k) ∧ isQueueRow t k.

Lemma Unsequenced_length `{!Codec LogLeaf, !Codec SubtreeProto, !Codec Frontier} m t :
  wf_db m → (0 ≤ t < 2 ^ 63 - 1)%Z →
  ∃ q, Unsequenced t (mkDB m []) = (Ok q, mkDB m []) ∧ queueLength m t q ∧
    (q ≤ Z.of_nat (size m))%Z.
Proof.
  intros Hm Ht. eexists. split; [reflexivity|]. split; cycle 1.
  { unfold range_entries. rewrite <-(length_entries m).
    pose proof (length_filter (λ p, ble (queueStart t) p.1 ∧
      blt p.1 (queueStart (wrap64 (t + 1)))) (entries m)). simpl in *. lia. }
  exists (range_entries m (queueStart t) (queueStart (wrap64 (t + 1)))).*1.
  split; [apply NoDup_range|]. split; [by rewrite length_fmap|].
  intros k. rewrite list_elem_of_fmap. split.
  - intros ([k' v] & -> & Hin). apply elem_of_unsequenced in Hin as [Hk Hq]; [|done..].
    simpl. by rewrite Hk.
  - intros [[v Hv] Hq]. exists (k, v). split; [done|]. by apply elem_of_unsequenced.
Qed.

(** ** Properties *)

(** [GetTokens] charges the specs in order until one is refused: on success
    every spec is charged and no charged log exceeds the limit; on error the
    specs in front of the refused one stay charged.  It does not panic. *)
Theorem GetTokens_charges n specs qm :
  (0 ≤ n)%Z → no_overflow n (length specs) (unsequenced qm) →
  ∃ taken rest,
    specs = taken ++ rest ∧
    let qm' := with_unsequenced (charged n taken (unsequenced qm)) qm in
    match GetTokens n specs qm with
    | (Ok _, s) => rest = [] ∧ s = qm' ∧
        ∀ t, (0 < charge t specs)%Z →
          ∃ c, unsequenced qm' !! t = Some c ∧ (c ≤ maxUnsequencedLeaves qm)%Z
    | (Err e, s) => s = qm' ∧ ∃ sp rest', rest = sp :: rest' ∧ refused n qm' sp e
    | (Panic, _) => False
    end.
Proof. apply GetTokens_spec. Qed.

(** Giving back the tokens that were acquired restores the manager. *)
Theorem PutTokens_refunds n specs qm qm' :
  (0 ≤ n)%Z → no_overflow n (length specs) (unsequenced qm) →
  GetTokens n specs qm = (Ok (), qm') → PutTokens n specs qm' = (Ok (), qm).
Proof.
  intros Hn Ho H. destruct (GetTokens_spec n specs qm Hn Ho) as (taken & rest & E & Hs).
  rewrite H in Hs. destruct Hs as (-> & -> & Hb). rewrite app_nil_r in E. subst taken.
  rewrite PutTokens_spec; [|done| |]; simpl.
  - f_equal. rewrite charged_inverse. by destruct qm.
  - intros s Hs Hl. destruct (Hb (TreeID s)) as (c & Hc & _); [|by eexists].
    unfold charge. assert (s ∈ filter (λ s', limited s' ∧ TreeID s' = TreeID s) specs)
      by (by apply list_elem_of_filter).
    destruct (filter _ specs); [by edestruct (@not_elem_of_nil Spec)|simpl; lia].
  - intros t c. rewrite lookup_charged. destruct (unsequenced qm !! t) as [c0|] eqn:E; [|done].
    intros [= <-]. destruct (Ho t c0 E).
    assert (charge t specs ≤ Z.of_nat (length specs))%Z
      by (unfold charge; pose proof (length_filter (λ s, limited s ∧ TreeID s = t) specs); lia).
    nia.
Qed.

Section backpressure.
Context `{!Codec LogLeaf, !Codec SubtreeProto, !Codec Frontier}.

(** After a round of the watcher on a working database, a request for [n]
    tokens of the log is granted exactly when [n] more leaves fit the limit on
    top of the leaves that wait in its queue. *)
Theorem watch_backpressure m t sth fr qm n :
  wf_db m → (0 ≤ t < 2 ^ 63 - 1)%Z →
  MostRecentRoot t (mkDB m []) = (Ok (sth, fr), mkDB m []) →
  (0 ≤ n)%Z → (Z.of_nat (size m) + n < 2 ^ 63)%Z →
  ∃ q qm', watchOnce t (mkDB m [], qm) = (Ok (), (mkDB m [], qm')) ∧ queueLength m t q ∧
    (fst (GetTokens n [mkSpec Tree Write t ""] qm') = Ok () ↔
     (q + n ≤ maxUnsequencedLeaves qm)%Z).
Proof.
  intros Hm Ht Hroot Hn Ho. destruct (Unsequenced_length m t Hm Ht) as (q & Hq & Hlen & Hqs).
  eexists q, _. split; [|split; [done|]].
  { unfold watchOnce. unfold_M. cbn [fst snd]. rewrite Hroot. cbn [fst snd]. rewrite Hq.
    reflexivity. }
  assert (0 ≤ q)%Z by (destruct Hlen as (rows & _ & -> & _); lia).
  unfold GetTokens, getTokens. cbn [mfold]. unfold_M. simpl. rewrite lookup_insert_eq.
  rewrite !wrap64_small by (unfold int64; rewrite ?wrap64_small; unfold int64; lia).
  destruct (Z.ltb_spec (maxUnsequencedLeaves qm) (q + n)); simpl; split; done || lia.
Qed.

(** A failed iteration over the queue passes for an empty queue: the error is
    dropped, and the watcher takes the limit for unused. *)
Lemma Unsequenced_iteration_error m t n fs :
  Unsequenced t (mkDB m (None :: Some n :: fs)) = (Ok 0%Z, mkDB m fs).
Proof. reflexivity. Qed.
End backpressure.

(** ** Witnesses *)

Definition sampleManager : QuotaManager :=
  with_unsequenced {[ 1%Z := 3%Z ]} (NewQuotaManager 10).

Definition writeSpec : Spec := mkSpec Tree Write 1 "".

Lemma sampleManager_no_overflow k : k ≤ 2 → no_overflow 2 k (unsequenced sampleManager).
Proof.
  intros Hk t c Hc. unfold sampleManager in Hc. simpl in Hc.
  apply lookup_singleton_Some in Hc as [<- <-]. lia.
Qed.

Lemma GetTokens_charges_witness :
  ∃ taken rest, [writeSpec; mkSpec Global Write 1 ""] = taken ++ rest ∧
    snd (GetTokens 2 [writeSpec; mkSpec Global Write 1 ""] sampleManager) =
      with_unsequenced (charged 2 taken (unsequenced sampleManager)) sampleManager ∧
    unsequenced (snd (GetTokens 2 [writeSpec; mkSpec Global Write 1 ""] sampleManager)) !! 1%Z =
      Some 5%Z.
Proof.
  destruct (GetTokens_charges 2 [writeSpec; mkSpec Global Write 1 ""] sampleManager)
    as (taken & rest & E & H).
  - lia.
  - apply sampleManager_no_overflow. simpl. lia.
  - exists taken, rest. split; [exact E|]. split; [apply H|reflexivity].
Defined.

Lemma PutTokens_refunds_witness :
  PutTokens 2 [writeSpec; writeSpec] (snd (GetTokens 2 [writeSpec; writeSpec] sampleManager)) =
    (Ok (), sampleManager).
Proof.
  apply (PutTokens_refunds 2 [writeSpec; writeSpec] sampleManager);
    [lia|apply sampleManager_no_overflow; simpl; lia|vm_compute; reflexivity].
Defined.

(** A database with a root and one queued leaf. *)
Definition sampleFrontier : Frontier := mkFrontier [Some [Byte.x0b]].

Definition sampleMap : kvmap :=
  apply_batch queueOnly
    [BPut (keyS typ_r 1 "root") (sl (LogRoot exampleRoot));
     BPut (keyS typ_r 1 "sig") [Byte.x09];
     BPut (keyS typ_r 1 "frontier") (pos_bytes (encode sampleFrontier))].

Lemma sampleMap_wf : wf_db sampleMap.
Proof.
  apply wf_db_apply_batch; [apply queueOnly_wf|]. intros k v Hk.
  rewrite !elem_of_cons, elem_of_nil in Hk.
  destruct Hk as [[= -> _]|[[= -> _]|[[= -> _]|[]]]]; apply wf_root, int64_1.
Qed.

Section witnesses.
#[local] Existing Instances leafCodec subtreeCodec frontierCodec.

Lemma watch_backpressure_witness :
  ∃ q qm', watchOnce 1 (mkDB sampleMap [], sampleManager) = (Ok (), (mkDB sampleMap [], qm')) ∧
    queueLength sampleMap 1 q ∧
    (fst (GetTokens 9 [mkSpec Tree Write 1 ""] qm') = Ok () ↔ (q + 9 ≤ 10)%Z).
Proof.
  assert (∃ sth fr, MostRecentRoot 1 (mkDB sampleMap []) = (Ok (sth, fr), mkDB sampleMap []))
    as (sth & fr & Hroot) by (eexists _, _; vm_compute; reflexivity).
  apply (watch_backpressure sampleMap 1 sth fr sampleManager 9);
    [apply sampleMap_wf|lia|exact Hroot|lia|vm_compute; reflexivity].
Defined.
End witnesses.
