(* ===== verification/Compact.v ===== *)
(** * The compact Merkle tree (src/vendor/github.com/google/trillian)

    [merkle/compact/tree.go] and the hasher [merkle/rfc6962/rfc6962.go]: the
    structure Trillian's sequencer grows a log with, and the subtree cache
    rebuilds subtrees with.  It reports the nodes it computes to a callback,
    which is a stateful function here.  The properties relate it to the
    frontier that ct-log keeps as a safeguard and to the RFC 6962 hash. *)

From S2P Require Import Prelude Frontier.

Section compact.
Context (Sum256 : bytes → bytes).

(** ** The hasher *)

Definition EmptyRoot : bytes := Sum256 [].
Definition HashLeaf (leaf : bytes) : bytes := Sum256 (Byte.x00 :: leaf).
Definition HashChildren (l r : slice) : bytes := Sum256 (Byte.x01 :: sl l ++ sl r).

(** ** The tree *)

Record Tree := mkTree { tree_root : slice; tree_nodes : list slice; tree_size : Z }.

Definition NewTree : Tree := {| tree_root := Some EmptyRoot; tree_nodes := []; tree_size := 0 |}.

Definition CurrentRoot (t : Tree) : slice := tree_root t.
Definition Size (t : Tree) : Z := tree_size t.

Definition isPerfectTree (x : Z) : bool :=
  negb (x =? 0)%Z && (Z.land x (x - 1) =? 0)%Z.

(** [bits.Len64] *)
Definition Len64 (x : Z) : Z := if (x =? 0)%Z then 0%Z else (Z.log2 x + 1)%Z.

Definition Hashes (t : Tree) : list slice :=
  if isPerfectTree (tree_size t) then [] else tree_nodes t.

Definition Depth_Tree (t : Tree) : Z := if (tree_size t =? 0)%Z then 0%Z else Len64 (tree_size t - 1).

Section callbacks.
Context {S : Type}.

(** [setNodeFunc]: depth, index and hash of a node. *)
Abbreviation setNodeFunc := (Z → Z → slice → M S unit).

(** The loop of [recalculateRoot], [n] bits left. *)
Fixpoint recalcLoop (f : setNodeFunc) (ns : list slice) (sz : Z) (n bit : nat)
    (index : Z) (newRoot : slice) (first : bool) : M S slice :=
  match n with
  | O => mret newRoot
  | Datatypes.S n' =>
      let index := (index ≫ 1)%Z in
      if negb (Z.land sz (1 ≪ Z.of_nat bit) =? 0)%Z then
        match ns !! bit with
        | None => panic
        | Some node =>
            if first then recalcLoop f ns sz n' (Datatypes.S bit) index node false
            else
              let newRoot := Some (HashChildren node newRoot) in
              _ ← f (Z.of_nat bit + 1)%Z index newRoot;
              recalcLoop f ns sz n' (Datatypes.S bit) index newRoot false
        end
      else recalcLoop f ns sz n' (Datatypes.S bit) index newRoot first
  end.

Definition recalculateRoot (f : setNodeFunc) (t : Tree) : M S Tree :=
  if (tree_size t =? 0)%Z then mret t
  else
    newRoot ← recalcLoop f (tree_nodes t) (tree_size t) (Z.to_nat (Len64 (tree_size t))) 0 (tree_size t) None true;
    mret (mkTree newRoot (tree_nodes t) (tree_size t)).

(** [t.nodes[bit] = h]: a panic out of range. *)
Definition setNode (bit : nat) (h : slice) : M (list slice * S) unit := λ s,
  if (bit <? length s.1)%nat then (Ok (), (<[bit := h]> s.1, s.2)) else (Panic, s).

Definition err_not_cleared : error :=
  Errorf "AddLeaf failed running hash not cleared: h: %v seq: %d".

(** The loop of [AddLeafHash]; [mask] loses a bit per round, so 64 rounds are
    enough for an int64. *)
Fixpoint addLoop (fuel : nat) (f : setNodeFunc) (assignedSeq : Z) (bit : nat)
    (mask index : Z) (hash : slice) : M (list slice * S) Z :=
  match fuel with
  | O => fail err_not_cleared
  | Datatypes.S fuel' =>
      if (mask <=? 0)%Z then fail err_not_cleared
      else
        let call d i h := zoom snd (λ s p, (p.1, s)) (f d i h) in
        let index := (index ≫ 1)%Z in
        if (Z.land mask 1 =? 0)%Z then
          _ ← setNode bit hash;
          _ ← (if (0 <? bit)%nat then call (Z.of_nat bit) index hash else mret ());
          mret assignedSeq
        else
          s ← get;
          node ← match s.1 !! bit with Some n => mret n | None => panic end;
          let hash := Some (HashChildren node hash) in
          _ ← call (Z.of_nat bit + 1)%Z index hash;
          _ ← setNode bit None;
          s ← get;
          if (length s.1 <=? bit + 1)%nat then
            _ ← put (s.1 ++ [hash], s.2);
            mret assignedSeq
          else if (Z.land mask 2 =? 0)%Z then
            _ ← setNode (bit + 1) hash;
            mret assignedSeq
          else addLoop fuel' f assignedSeq (Datatypes.S bit) (mask ≫ 1)%Z index hash
  end.

(** [AddLeafHash] without its deferred call. *)
Definition addLeafBody (f : setNodeFunc) (leafHash : slice) (sz : Z) : M (list slice * S) Z :=
  _ ← zoom snd (λ s p, (p.1, s)) (f 0%Z sz leafHash);
  if (sz =? 0)%Z then
    _ ← modify (λ s, (s.1 ++ [leafHash], s.2));
    mret sz
  else addLoop 64 f sz 0 sz sz leafHash.

(** The deferred call runs whether or not the body failed; its own error is
    dropped. *)
Definition AddLeafHash (f : setNodeFunc) (leafHash : slice) : M (Tree * S) Z := λ '(t, s),
  match addLeafBody f leafHash (tree_size t) (tree_nodes t, s) with
  | (Panic, (ns, s')) => (Panic, (mkTree (tree_root t) ns (tree_size t), s'))
  | (o, (ns, s')) =>
      let t' := mkTree (tree_root t) ns (wrap64 (tree_size t + 1)) in
      match recalculateRoot f t' s' with
      | (Ok t'', s'') => (o, (t'', s''))
      | (Err _, s'') => (o, (t', s''))
      | (Panic, s'') => (Panic, (t', s''))
      end
  end.

Definition AddLeaf (f : setNodeFunc) (data : bytes) : M (Tree * S) (Z * bytes) :=
  let h := HashLeaf data in
  seq ← AddLeafHash f (Some h);
  mret (seq, h).
End callbacks.

Definition err_root_mismatch : error := Errorf "root hash mismatch got: %v expected: %v".

(** The fetching loop of [NewTreeWithState], [n] bits left. *)
Fixpoint fetchLoop {S} (f : Z → Z → M S slice) (n : nat) (depth sz : Z) (ns : list slice)
    : M S (list slice) :=
  match n with
  | O => mret ns
  | Datatypes.S n' =>
      ns ← (if (Z.land sz 1 =? 1)%Z then
              h ← f depth (sz - 1)%Z;
              mret (<[Z.to_nat depth := h]> ns)
            else mret ns);
      fetchLoop f n' (depth + 1) (sz ≫ 1) ns
  end.

(** [NewTreeWithState] for a non-negative size. *)
Definition NewTreeWithState {S} (sz : Z) (f : Z → Z → M S slice) (expectedRoot : slice)
    : M S Tree :=
  let sizeBits := Z.to_nat (Len64 sz) in
  let ns := replicate sizeBits None in
  t ← (if isPerfectTree sz then
         let r := Some (sl expectedRoot) in
         mret (mkTree r (<[sizeBits - 1 := r]> ns) sz)
       else
         ns ← fetchLoop f sizeBits 0 sz ns;
         lift (fst (recalculateRoot (S := unit) (λ _ _ _, mret ()) (mkTree (Some EmptyRoot) ns sz) ())));
  if negb (bytes_Equal (tree_root t) expectedRoot) then fail err_root_mismatch else mret t.

(** ** Specification *)

(** The hash of a node of the tree over [l], by its coordinates. *)
Definition nodeHash (l : list bytes) (depth : nat) (index : nat) : bytes :=
  MTH Sum256 (take (2 ^ depth) (drop (index * 2 ^ depth) l)).

(** The nodes that the tree over [n] leaves has: more than half of the places
    below them are taken; above the others is nothing to be combined. *)
Definition present (n d i : nat) : Prop := 2 * (i * 2 ^ d) + 2 ^ d < 2 * n.

(** A report that is true of the tree over [l], of a node above its last leaf. *)
Definition good_report (l : list bytes) (c : Z * Z * slice) : Prop :=
  ∃ d i : nat, c.1 = (Z.of_nat d, Z.of_nat i) ∧ present (length l) d i ∧
    length l ≤ (i + 1) * 2 ^ d ∧ c.2 = Some (nodeHash l d i).

(** The tree over [l]. *)
Definition tree_of (l : list bytes) (t : Tree) : Prop :=
  commits Sum256 (mkFrontier (tree_nodes t)) l ∧ tree_size t = Z.of_nat (length l) ∧
  tree_root t = Some (MTH Sum256 l).

(** ** Lemmas *)

Lemma HashChildren_hashDomain l r : HashChildren l r = hashDomain Sum256 Byte.x01 [l; r].
Proof. done. Qed.

Lemma land_bit a k :
  (0 ≤ k)%Z → (Z.land a (1 ≪ k) =? 0)%Z = negb (Z.testbit a k).
Proof.
  intros Hk. rewrite Z.shiftl_1_l. destruct (Z.testbit a k) eqn:E; simpl.
  - apply Z.eqb_neq. intros H. apply (f_equal (λ z, Z.testbit z k)) in H.
    by rewrite Z.land_spec, E, Z.pow2_bits_true, Z.bits_0 in H by lia.
  - apply Z.eqb_eq, Z.bits_inj'. intros n Hn. rewrite Z.land_spec, Z.bits_0.
    destruct (decide (n = k)) as [->|]; [by rewrite E|].
    by rewrite Z.pow2_bits_false, andb_false_r by lia.
Qed.

Lemma testbit_of_nat q j : Z.testbit (Z.of_nat q) (Z.of_nat j) = Nat.testbit q j.
Proof.
  rewrite Z.testbit_eqb, Nat.testbit_eqb by lia.
  rewrite <-(Nat2Z.inj_pow 2), <-Nat2Z.inj_div, <-(Nat2Z.inj_mod _ 2).
  destruct (Nat.eqb_spec ((q / 2 ^ j) mod 2) 1); [apply Z.eqb_eq|apply Z.eqb_neq]; lia.
Qed.

Lemma shiftr1_of_nat q : (Z.of_nat q ≫ 1)%Z = Z.of_nat (q / 2).
Proof. rewrite Z.shiftr_div_pow2 by lia. by rewrite Nat2Z.inj_div. Qed.

(** The first slot of a representation, by the parity of the tree size. *)
Lemma rep_parity i rs l q :
  rep Sum256 i rs l → length l = q * 2 ^ i → 0 < q →
  if Nat.odd q then
    ∃ rs' l' t, rs = Some (MTH Sum256 t) :: rs' ∧ l = l' ++ t ∧
      rep Sum256 (S i) rs' l' ∧ length t = 2 ^ i ∧ length l' = q / 2 * 2 ^ S i
  else ∃ rs', rs = None :: rs' ∧ rep Sum256 (S i) rs' l ∧ length l = q / 2 * 2 ^ S i.
Proof.
  intros Hr Hl Hq. pose proof (Nat.pow_nonzero 2 i).
  pose proof (Nat.div_mod_eq q 2) as Hdm. rewrite <-Nat.bit0_mod in Hdm. rewrite Nat.bit0_odd in Hdm.
  destruct Hr as [i|i rs l Hr|i rs l t Hr Ht].
  - simpl in Hl. nia.
  - destruct (rep_bits _ _ _ _ Hr) as (q' & Hq' & _). simpl in Hq'.
    assert (q = 2 * q') by nia. subst q.
    rewrite Nat.odd_mul in *. simpl in *. exists rs. split; [done|]. split; [done|]. nia.
  - destruct (rep_bits _ _ _ _ Hr) as (q' & Hq' & _). rewrite length_app in Hl. simpl in Hq'.
    assert (q = 1 + 2 * q') as -> by nia.
    rewrite Nat.odd_add, Nat.odd_mul in *. simpl in *.
    exists rs, l, t. split_and!; [done|done|done|done|]. nia.
Qed.

Lemma nodeHash_eq (l0 t : list bytes) d i :
  length l0 = i * 2 ^ d → 1 ≤ length t ≤ 2 ^ d → nodeHash (l0 ++ t) d i = MTH Sum256 t.
Proof.
  intros Hl Ht. unfold nodeHash. rewrite <-Hl, drop_app_length. by rewrite take_ge by lia.
Qed.

(** The last slot of the node list is in use. *)
Definition topUsed (rs : list slice) : Prop := ∃ r, last rs = Some (Some r).

Lemma topUsed_cons x rs : topUsed rs → topUsed (x :: rs).
Proof. intros [r Hr]. exists r. destruct rs; [done|]. by rewrite last_cons_cons. Qed.

Lemma topUsed_tail x rs : topUsed (x :: rs) → rs ≠ [] → topUsed rs.
Proof. intros [r Hr] Hne. destruct rs; [done|]. exists r. by rewrite last_cons_cons in Hr. Qed.

Section pure_callback.
Context {S : Type} (g : Z → Z → slice → S → S) (I : S → Prop).

(** A callback that, in states [I], does [g] on true reports. *)
Definition accepts (f : Z → Z → slice → M S unit) (all : list bytes) : Prop :=
  ∀ d i h s, I s → good_report all (d, i, h) → f d i h s = (Ok (), g d i h s) ∧ I (g d i h s).

Definition pureCallback : Z → Z → slice → M S unit := λ d i h, modify (g d i h).


(** Every node above level [b] that ends at leaf [n] was reported. *)
Definition complete (trace : list (Z * Z * slice)) (b n : nat) : Prop :=
  ∀ d i : nat, b < d → (i + 1) * 2 ^ d = n → (Z.of_nat d, Z.of_nat i) ∈ trace.*1.

Lemma no_node (b d i m : nat) : b < d → Nat.odd m = true → (i + 1) * 2 ^ d ≠ m * 2 ^ b.
Proof.
  intros Hd Ho E. destruct (Nat.le_exists_sub (Datatypes.S b) d) as (e & -> & _); [lia|].
  pose proof (Nat.pow_nonzero 2 b). rewrite (Nat.pow_add_r 2 e), Nat.pow_succ_r' in E.
  assert (m = 2 * ((i + 1) * 2 ^ e)) as -> by nia.
  rewrite Nat.odd_mul in Ho. done.
Qed.

Lemma complete_none (b m : nat) : Nat.odd m = true → complete [] b (m * 2 ^ b).
Proof. intros Ho d i Hd E. by destruct (no_node b d i m). Qed.

(** The node above the one at [b], and those above it. *)
Lemma complete_cons trace (b q n : nat) h :
  n = (q + 1) * 2 ^ Datatypes.S b → complete trace (Datatypes.S b) n →
  complete ((Z.of_nat b + 1, Z.of_nat q, h)%Z :: trace) b n.
Proof.
  intros -> Ht d i Hd E. destruct (decide (d = Datatypes.S b)) as [->|Hne].
  - pose proof (Nat.pow_nonzero 2 (Datatypes.S b)). assert (i = q) as -> by nia.
    rewrite fmap_cons. apply elem_of_cons. left. cbn [fst]. f_equal. lia.
  - rewrite fmap_cons. right. apply Ht; [lia|done].
Qed.

Definition replay (trace : list (Z * Z * slice)) (s : S) : S :=
  fold_left (λ s c, g c.1.1 c.1.2 c.2 s) trace s.

Lemma replay_I f all trace s :
  accepts f all → Forall (good_report all) trace → I s → I (replay trace s).
Proof.
  intros Hf Ht. revert s. induction Ht as [|[[d i] h] trace Hc _ IH]; intros s Hs; [done|].
  apply IH. by apply Hf.
Qed.

Lemma addLoop_spec f fuel seq pre bit rs l t q s all :
  accepts f all → I s →
  rep Sum256 bit rs l → length l = q * 2 ^ bit → length t = 2 ^ bit → length pre = bit →
  0 < q < 2 ^ fuel → bit = 0 ∨ Nat.odd q = true → topUsed rs → all = l ++ t →
  ∃ rs' trace,
    addLoop fuel f seq bit (Z.of_nat q) (Z.of_nat q) (Some (MTH Sum256 t))
      (pre ++ rs, s) = (Ok seq, (pre ++ rs', replay trace s)) ∧
    rep Sum256 bit rs' (l ++ t) ∧ topUsed rs' ∧ Forall (good_report all) trace ∧
    complete trace bit (length all).
Proof.
  intros Hf Hs. revert pre bit rs l t q s Hs. induction fuel as [|fuel IH];
    intros pre bit rs l t q s Hs Hr Hl Ht Hpre Hq Hodd Htop Hall; [simpl in Hq; lia|].
  assert (length all = (q + 1) * 2 ^ bit) as Hlen by (rewrite Hall, length_app; lia).
  cbn [addLoop]. destruct (Z.leb_spec (Z.of_nat q) 0); [lia|].
  rewrite (land_bit _ 0), (land_bit _ 1) by lia.
  rewrite (testbit_of_nat q 0 : Z.testbit _ 0 = _), (testbit_of_nat q 1 : Z.testbit _ 1 = _).
  rewrite shiftr1_of_nat.
  pose proof (rep_parity _ _ _ _ Hr Hl ltac:(lia)) as Hp. rewrite Nat.bit0_odd.
  assert (∀ x ys, (pre ++ x :: ys) !! bit = Some x) as Hat
    by (intros; by rewrite lookup_app_r, Hpre, Nat.sub_diag by lia).
  assert (∀ x y ys, <[bit := y]> (pre ++ x :: ys) = pre ++ y :: ys) as Hins
    by (intros; by rewrite insert_app_r_alt, Hpre, Nat.sub_diag by lia).
  pose proof (Nat.pow_nonzero 2 bit).
  unfold setNode. unfold_M. destruct (Nat.odd q) eqn:Eodd; cbn [negb fst snd].
  - destruct Hp as (rs' & l' & t' & -> & -> & Hr' & Ht' & Hl').
    assert (good_report all (Z.of_nat bit + 1, Z.of_nat (q / 2),
      Some (MTH Sum256 (t' ++ t)))%Z) as Hgood.
    { exists (Datatypes.S bit), (q / 2). split; [cbn [fst]; f_equal; lia|].
      assert (length (t' ++ t) = 2 ^ Datatypes.S bit) as Htt by (rewrite length_app; simpl; lia).
      unfold present. rewrite Hall, !length_app, Hl', Ht', Ht, Nat.pow_succ_r'. split; [lia|]. split; [lia|].
      rewrite <-app_assoc, nodeHash_eq; [done|done|].
      rewrite Htt. pose proof (Nat.pow_nonzero 2 (Datatypes.S bit)). lia. }
    destruct (Hf _ _ _ s Hs Hgood) as [Hcall Hs'].
    rewrite Hat, HashChildren_hashDomain, <-(MTH_app _ bit) by (done || lia).
    cbn [fst snd]. rewrite Hcall. cbn [fst snd]. rewrite length_app. cbn [length].
    destruct (Nat.ltb_spec bit (length pre + Datatypes.S (length rs'))); [|lia].
    rewrite Hins. cbn [fst snd]. rewrite length_app. cbn [length].
    assert (length (t' ++ t) = 2 ^ Datatypes.S bit) as Htt by (rewrite length_app; simpl; lia).
    assert (q = 2 * (q / 2) + 1) as Eq
      by (rewrite (Nat.div_mod_eq q 2) at 1; rewrite <-Nat.bit0_mod, Nat.bit0_odd, Eodd; done).
    assert (length all = (q / 2 + 1) * 2 ^ Datatypes.S bit) as Hlen'.
    { rewrite Hlen, Nat.pow_succ_r'. assert (∀ m P, q = 2 * m + 1 → (q + 1) * P = (m + 1) * (2 * P)) as Hm
        by (intros m P E; rewrite E; lia). by apply Hm. }
    destruct (Nat.leb_spec (length pre + Datatypes.S (length rs')) (bit + 1)) as [Hle|Hgt].
    { assert (rs' = []) as -> by (apply nil_length_inv; lia). inversion Hr'; subst.
      exists [None; Some (MTH Sum256 (t' ++ t))], [(Z.of_nat (length pre) + 1, Z.of_nat (q / 2), Some (MTH Sum256 (t' ++ t)))%Z].
      split; [by rewrite <-app_assoc|]. split.
      { constructor. rewrite app_nil_l. change (t' ++ t) with ([] ++ (t' ++ t)) at 2.
        constructor; [constructor|done]. }
      split; [by eexists|]. split; [by constructor|]. apply complete_cons; [done|].
      cbn [length] in Hl'. apply eq_sym, Nat.eq_mul_0 in Hl' as [Hz|Hz]; [|by apply Nat.pow_nonzero in Hz].
      rewrite Hlen', Hz. by apply complete_none. }
    assert (rs' ≠ []) as Hne by (destruct rs'; simpl in *; [lia|done]).
    pose proof (topUsed_tail _ _ Htop Hne) as Htop'.
    assert (0 < q / 2) as Hq2.
    { destruct (decide (q / 2 = 0)) as [E|]; [|lia]. rewrite E in Hl'.
      destruct Htop' as [r Hlast]. destruct (rep_bits _ _ _ _ Hr') as (q' & Hq' & Hbits).
      assert (q' = 0) as -> by (pose proof (Nat.pow_nonzero 2 (Datatypes.S bit)); nia).
      rewrite last_lookup in Hlast.
      pose proof (proj1 (Hbits _) (ex_intro _ r Hlast)) as Hb. by rewrite Nat.bits_0 in Hb. }
    pose proof (rep_parity _ _ _ _ Hr' Hl' Hq2) as Hp'.
    replace (Nat.testbit q 1) with (Nat.odd (q / 2))
      by (by rewrite <-Nat.bit0_odd, Nat.div2_bits by lia).
    destruct (Nat.odd (q / 2)) eqn:Eodd2; cbn [negb].
    + destruct (IH (pre ++ [None]) (Datatypes.S bit) rs' l' (t' ++ t) (q / 2)
        (g (Z.of_nat bit + 1)%Z (Z.of_nat (q / 2)) (Some (MTH Sum256 (t' ++ t))) s))
        as (rs'' & trace & Hrun & Hrep & Htop'' & Htr & Hcomp); try done.
      { rewrite length_app. simpl. lia. }
      { split; [done|]. apply Nat.Div0.div_lt_upper_bound. simpl in Hq. lia. }
      { by right. }
      { by rewrite app_assoc, <-Hall. }
      rewrite <-app_assoc in Hrun. unfold_M. cbn [app] in Hrun. 
      exists (None :: rs''), ((Z.of_nat bit + 1, Z.of_nat (q / 2), Some (MTH Sum256 (t' ++ t)))%Z :: trace).
      rewrite Hrun. split; [by rewrite <-app_assoc|]. split.
      { constructor. by rewrite <-app_assoc. }
      split; [by apply topUsed_cons|]. split; [by constructor|]. by apply complete_cons.
    + destruct Hp' as (rs'' & -> & Hr'' & Hl'').
      cbv beta. cbn [fst snd]. rewrite length_app. cbn [length] in *.
      destruct (Nat.ltb_spec (bit + 1) (length pre + Datatypes.S (Datatypes.S (length rs'')))); [|lia].
      exists (None :: Some (MTH Sum256 (t' ++ t)) :: rs''),
        [(Z.of_nat bit + 1, Z.of_nat (q / 2), Some (MTH Sum256 (t' ++ t)))%Z].
      split.
      { f_equal. f_equal. rewrite insert_app_r_alt by lia.
        by replace (bit + 1 - length pre) with 1 by lia. }
      split; [constructor; rewrite <-app_assoc; by constructor|].
      split; [|split; [by constructor|]].
      { do 2 apply topUsed_cons. apply (topUsed_tail None); [done|].
        intros ->. destruct Htop' as [r Hlast]. done. }
      apply complete_cons; [done|]. rewrite Hlen'. apply complete_none.
      by rewrite Nat.add_1_r, Nat.odd_succ, <-Nat.negb_odd, Eodd2.
  - destruct Hp as (rs' & -> & Hr' & Hl'). destruct Hodd as [->|?]; [|done].
    rewrite length_app. cbn [length].
    destruct (Nat.ltb_spec 0 (length pre + Datatypes.S (length rs'))); [|lia].
    rewrite Hins. exists (Some (MTH Sum256 t) :: rs'), []. split; [done|].
    split; [by constructor|]. split; [|split; [constructor|]].
    { destruct rs' as [|x rs']; [by eexists|]. apply topUsed_cons. by apply (topUsed_tail None). }
    rewrite Hlen. apply complete_none. by rewrite Nat.add_1_r, Nat.odd_succ, <-Nat.negb_odd, Eodd.
Qed.

Lemma testbit_size (sz q r bit : nat) :
  sz = q * 2 ^ bit + r → r < 2 ^ bit →
  (Z.land (Z.of_nat sz) (1 ≪ Z.of_nat bit) =? 0)%Z = negb (Nat.odd q).
Proof.
  intros -> Hr. rewrite land_bit, testbit_of_nat by lia. f_equal.
  rewrite <-Nat.bit0_odd, !Nat.testbit_eqb. do 2 f_equal. rewrite Nat.pow_0_r, Nat.div_1_r.
  rewrite Nat.div_add_l, Nat.div_small by lia. lia.
Qed.

(** A node on the right border, just above [bit] or higher: it is just above
    only when there is something to combine at [bit]. *)
Lemma border_bit (q r bit d i : nat) :
  bit < d → r < 2 ^ bit → present (q * 2 ^ bit + r) d i → q * 2 ^ bit + r < (i + 1) * 2 ^ d →
  (d = Datatypes.S bit ∧ Nat.odd q = true ∧ r ≠ 0 ∧ i = q / 2) ∨ (Datatypes.S bit < d ∧ q ≠ 0).
Proof.
  intros Hd Hr Hp Hn. unfold present in Hp. pose proof (Nat.pow_nonzero 2 bit).
  destruct (decide (d = Datatypes.S bit)) as [->|Hne].
  - left. rewrite Nat.pow_succ_r' in *. pose proof (Nat.div_mod_eq q 2) as Hq.
    rewrite <-Nat.bit0_mod, Nat.bit0_odd in Hq.
    remember (q / 2) as m eqn:Em. clear Em. remember (Nat.odd q) as o eqn:Eo. clear Eo.
    assert (i = m) as -> by (destruct o; cbn [Nat.b2n] in Hq; subst q; nia).
    split; [done|]. destruct o; cbn [Nat.b2n] in Hq; subst q; split_and!; try done; nia.
  - right. split; [lia|]. intros ->. assert (2 ^ Datatypes.S bit ≤ 2 ^ d) by (apply Nat.pow_le_mono_r; lia).
    rewrite Nat.pow_succ_r' in *. lia.
Qed.

Lemma recalcLoop_spec f n bit ns rs l tl q s all :
  accepts f all → I s →
  rep Sum256 bit rs l → length l = q * 2 ^ bit → length tl < 2 ^ bit → drop bit ns = rs →
  q < 2 ^ n → all = l ++ tl → all ≠ [] →
  ∃ trace,
    (∀ d i, bit < d → present (length all) d i → length all < (i + 1) * 2 ^ d →
       (Z.of_nat d, Z.of_nat i) ∈ trace.*1) ∧
    recalcLoop f ns (Z.of_nat (length all)) n bit (Z.of_nat q)
      (match tl with [] => None | _ => Some (MTH Sum256 tl) end)
      (match tl with [] => true | _ => false end) s
    = (Ok (Some (MTH Sum256 all)), replay trace s) ∧ Forall (good_report all) trace.
Proof.
  intros Hf Hs. revert bit rs l tl q s Hs. induction n as [|n IH];
    intros bit rs l tl q s Hs Hr Hl Htl Hns Hq Hall Hne.
  { assert (q = 0) as -> by (simpl in Hq; lia). apply nil_length_inv in Hl as ->.
    subst. exists []. split; [|by destruct tl].
    intros d i Hd Hp Hn. by destruct (border_bit 0 (length tl) bit d i Hd Htl Hp Hn) as [(_ & ? & _)|[_ ?]]. }
  cbn [recalcLoop]. rewrite shiftr1_of_nat.
  assert (length all = q * 2 ^ bit + length tl) as Hlen by (subst; rewrite ?length_app; lia).
  rewrite (testbit_size (length all) q (length tl)) by done.
  assert (q / 2 < 2 ^ n) by (apply Nat.Div0.div_lt_upper_bound; simpl in Hq; lia).
  assert (drop (Datatypes.S bit) ns = tail rs) as Hns'
    by (rewrite <-Hns, <-Nat.add_1_r, <-drop_drop; by destruct (drop bit ns)).
  pose proof (λ d i Hd Hp Hn, border_bit q (length tl) bit d i Hd Htl
    (eq_rect _ (λ n, present n d i) Hp _ Hlen) (eq_rect _ (λ n, n < (i + 1) * 2 ^ d) Hn _ Hlen)) as Hborder.
  rewrite negb_involutive. destruct (decide (q = 0)) as [->|Hq0].
  { apply nil_length_inv in Hl as E. subst l. cbn [Nat.odd Nat.even negb].
    edestruct (IH (Datatypes.S bit) (tail rs) [] tl (0 / 2)) as (trace & Hcov & Hrun & Htr);
      try done; [|simpl; lia|].
    - inversion Hr; subst; simpl; [constructor|done|]. destruct l; simplify_eq/=.
      pose proof (Nat.pow_nonzero 2 bit). simpl in *. lia.
    - exists trace. split; [|by split]. intros d i Hd Hp Hn.
      destruct (Hborder d i Hd Hp Hn) as [[_ [? _]]|[? _]]; [done|by apply Hcov]. }
  pose proof (rep_parity _ _ _ _ Hr Hl ltac:(lia)) as Hp.
  destruct (Nat.odd q) eqn:Eodd.
  - destruct Hp as (rs' & l' & t & -> & -> & Hr' & Ht & Hl').
    assert (ns !! bit = Some (Some (MTH Sum256 t))) as ->
      by (rewrite <-(Nat.add_0_r bit), <-lookup_drop, Hns; done).
    cbn [tail] in Hns'. pose proof (Nat.pow_nonzero 2 bit).
    destruct tl as [|x tl].
    + assert (∃ y t', t = y :: t') as (y & t' & ->) by (destruct t; [simpl in *; lia|eauto]).
      destruct (IH (Datatypes.S bit) rs' l' (y :: t') (q / 2) s) as (trace & Hcov & Hrun & Htr);
        try done; [simpl in *; lia|by rewrite app_nil_r in Hall|].
      exists trace. split; [|by split]. intros d i Hd Hp Hn.
      destruct (Hborder d i Hd Hp Hn) as [[_ [_ [? _]]]|[? _]]; [done|by apply Hcov].
    + set (tail := x :: tl) in *.
      rewrite HashChildren_hashDomain, <-(MTH_app _ bit) by (subst tail; simpl in *; lia).
      assert (good_report all (Z.of_nat bit + 1, Z.of_nat (q / 2), Some (MTH Sum256 (t ++ tail)))%Z) as Hgood.
      { exists (Datatypes.S bit), (q / 2). split; [cbn [fst]; f_equal; lia|]. unfold present.
        rewrite Hall, <-app_assoc, !length_app, Hl', Ht, Nat.pow_succ_r'.
        split; [subst tail; simpl; lia|]. split; [simpl in *; lia|].
        rewrite nodeHash_eq; [done|done|]. rewrite length_app. subst tail. simpl in *. lia. }
      destruct (Hf _ _ _ s Hs Hgood) as [Hcall Hs']. unfold_M. rewrite Hcall.
      assert (∃ y t', t ++ tail = y :: t') as (y & t' & Ety)
        by (destruct t; [simpl in *; lia|eexists _, _; reflexivity]).
      destruct (IH (Datatypes.S bit) rs' l' (t ++ tail) (q / 2)
        (g (Z.of_nat bit + 1)%Z (Z.of_nat (q / 2)) (Some (MTH Sum256 (t ++ tail))) s))
        as (trace & Hcov & Hrun & Htr); try done.
      { rewrite length_app. simpl in *. lia. }
      { by rewrite app_assoc. }
      rewrite Ety in Hrun |- *. rewrite Hrun.
      exists ((Z.of_nat bit + 1, Z.of_nat (q / 2), Some (MTH Sum256 (y :: t')))%Z :: trace).
      split; [|split; [done|by constructor; [by rewrite <-Ety|]]].
      intros d i Hd Hp Hn. rewrite fmap_cons.
      destruct (Hborder d i Hd Hp Hn) as [(-> & _ & _ & ->)|[? _]]; [|right; by apply Hcov].
      apply elem_of_cons. left. cbn [fst]. f_equal. lia.
  - destruct Hp as (rs' & -> & Hr' & Hl').
    edestruct (IH (Datatypes.S bit) rs' l tl (q / 2)) as (trace & Hcov & Hrun & Htr); try done; [simpl; lia|].
    exists trace. split; [|by split]. intros d i Hd Hp Hn.
    destruct (Hborder d i Hd Hp Hn) as [[_ [? _]]|[? _]]; [congruence|by apply Hcov].
Qed.

Lemma Len64_nat (n : nat) : 0 < n → n < 2 ^ Z.to_nat (Len64 (Z.of_nat n)).
Proof.
  intros Hn. unfold Len64. destruct (Z.eqb_spec (Z.of_nat n) 0); [lia|].
  pose proof (Z.log2_spec (Z.of_nat n) ltac:(lia)) as [_ H].
  pose proof (Z.log2_nonneg (Z.of_nat n)).
  apply Nat2Z.inj_lt. rewrite (Nat2Z.inj_pow 2), Z2Nat.id by lia. 
  by replace (Z.log2 (Z.of_nat n) + 1)%Z with (Z.succ (Z.log2 (Z.of_nat n))) by lia.
Qed.

(** Adding a leaf hash to the tree over [l]. *)
Lemma AddLeafHash_spec f t l h s :
  accepts f (l ++ [h]) → I s → tree_of l t → (Z.of_nat (length l) + 1 < 2 ^ 63)%Z →
  ∃ t' trace,
    AddLeafHash f (Some h) (t, s) =
      (Ok (Z.of_nat (length l)), (t', replay trace s)) ∧
    tree_of (l ++ [h]) t' ∧ Forall (good_report (l ++ [h])) trace ∧
    ∀ d i : nat, present (length (l ++ [h])) d i → length (l ++ [h]) ≤ (i + 1) * 2 ^ d →
      (Z.of_nat d, Z.of_nat i) ∈ trace.*1.
Proof.
  intros Hf Hs ([Hr Htop] & Hsz & Hroot) Hlen. unfold AddLeafHash, addLeafBody. rewrite Hsz.
  assert (good_report (l ++ [h]) (0, Z.of_nat (length l), Some h)%Z) as Hgood.
  { exists 0, (length l). split; [done|]. unfold present. rewrite length_app. simpl.
    split; [lia|]. split; [lia|]. rewrite (nodeHash_eq l [h]); [|simpl; lia|simpl; lia]. by rewrite MTH_one. }
  assert (∃ rs' trace, addLeafBody f (Some h) (Z.of_nat (length l)) (tree_nodes t, s) =
      (Ok (Z.of_nat (length l)), (rs', replay trace s)) ∧ rep Sum256 0 rs' (l ++ [h]) ∧
      topUsed rs' ∧ Forall (good_report (l ++ [h])) trace ∧
      ∀ d i : nat, (i + 1) * 2 ^ d = length (l ++ [h]) → (Z.of_nat d, Z.of_nat i) ∈ trace.*1)
    as (rs' & trace & Hbody & Hr' & Htop' & Htr & Hcov).
  { destruct (Hf _ _ _ s Hs Hgood) as [Hcall Hs'].
    unfold addLeafBody. unfold_M. cbn [fst snd]. rewrite Hcall. cbn [fst snd].
    destruct (Z.eqb_spec (Z.of_nat (length l)) 0) as [Hz|Hz].
    { assert (l = []) as -> by (apply nil_length_inv; lia). simpl in Hr.
      destruct Htop as [Hn|[r Hlast]].
      2:{ simpl in Hlast. rewrite last_lookup in Hlast.
          destruct (rep_bits _ _ _ _ Hr) as (q' & Hq' & Hbits). simpl in Hq'.
          assert (q' = 0) as -> by lia.
          pose proof (proj1 (Hbits _) (ex_intro _ r Hlast)) as Hb. by rewrite Nat.bits_0 in Hb. }
      simpl in Hn. rewrite Hn. exists [Some h], [(0, 0, Some h)%Z]. split; [done|]. split.
      { replace (Some h) with (Some (MTH Sum256 [h])) by (by rewrite MTH_one).
        change [h] with ([] ++ [h]) at 2. constructor; [constructor|done]. }
      split; [by eexists|]. split; [by constructor|]. intros d i E. simpl in E.
      apply Nat.eq_mul_1 in E as [Ei Ed]. assert (i = 0) as -> by lia.
      destruct d; [|simpl in Ed; lia]. by left. }
    destruct Htop as [Hn|[r Hlast]].
    { simpl in Hn. rewrite Hn in Hr. inversion Hr; subst. by simpl in Hz. }
    destruct (addLoop_spec f 64 (Z.of_nat (length l)) [] 0 (tree_nodes t) l [h] (length l)
      (g 0%Z (Z.of_nat (length l)) (Some h) s) (l ++ [h])) as (rs' & trace & Hrun & H1 & H2 & H3 & H4);
      try done; [simpl; lia| |by left|by eexists|].
    { split; [lia|]. apply Nat2Z.inj_lt. rewrite (Nat2Z.inj_pow 2).
      change (2 ^ Z.of_nat 64)%Z with (2 ^ 64)%Z. lia. }
    rewrite MTH_one in Hrun. cbn [app] in Hrun. rewrite Hrun.
    exists rs', ((0, Z.of_nat (length l), Some h)%Z :: trace).
    split; [done|]. split; [done|]. split; [done|]. split; [by constructor|].
    intros d i E. rewrite fmap_cons. destruct d as [|d]; [|right; apply H4; [lia|done]].
    apply elem_of_cons. left. cbn [fst]. rewrite length_app in E. simpl in E. f_equal. lia. }
  unfold addLeafBody in Hbody. rewrite Hbody.
  rewrite wrap64_small by (unfold int64; lia).
  unfold recalculateRoot. cbn [tree_size tree_nodes].
  destruct (Z.eqb_spec (Z.of_nat (length l) + 1) 0); [lia|].
  assert (length (l ++ [h]) = length l + 1) as Hl1 by (rewrite length_app; done).
  destruct (recalcLoop_spec f (Z.to_nat (Len64 (Z.of_nat (length (l ++ [h]))))) 0 rs' rs' (l ++ [h])
    [] (length (l ++ [h])) (replay trace s) (l ++ [h])) as (trace' & Hcov' & Hrun & Htr').
  - done.
  - by eapply replay_I.
  - done.
  - simpl. lia.
  - simpl. lia.
  - done.
  - apply Len64_nat. lia.
  - by rewrite app_nil_r.
  - by destruct l.
  - unfold_M. replace (Z.of_nat (length l) + 1)%Z with (Z.of_nat (length (l ++ [h]))) by lia.
    rewrite Hrun. eexists _, (trace ++ trace'). split.
    { unfold replay. by rewrite fold_left_app. }
    split; [split; [split; [done|by right]|done]|]. split; [by apply Forall_app|].
    intros d i Hp Hle. rewrite fmap_app. apply elem_of_app.
    destruct (decide ((i + 1) * 2 ^ d = length (l ++ [h]))) as [|Hn]; [left; by apply Hcov|].
    right. assert (length (l ++ [h]) < (i + 1) * 2 ^ d) as Hlt by (clear -Hle Hn; lia). apply Hcov'; [|done..].
    destruct d; [|apply Nat.lt_0_succ]. exfalso. clear -Hp Hlt. unfold present in Hp. rewrite Nat.pow_0_r in *. lia.
Qed.
End pure_callback.

Lemma pureCallback_accepts {S} (g : Z → Z → slice → S → S) all :
  accepts g (λ _, True) (pureCallback g) all.
Proof. done. Qed.

(** A list of leaves has one representation. *)
Lemma rep_empty i rs : rep Sum256 i rs [] → rs = [] ∨ topUsed rs → rs = [].
Proof.
  intros Hr [?|[r Hlast]]; [done|]. rewrite last_lookup in Hlast.
  destruct (rep_bits _ _ _ _ Hr) as (q & Hq & Hbits). simpl in Hq.
  assert (q = 0) as -> by (pose proof (Nat.pow_nonzero 2 i); nia).
  pose proof (proj1 (Hbits _) (ex_intro _ r Hlast)) as Hb. by rewrite Nat.bits_0 in Hb.
Qed.

Lemma topUsed_tail' x rs : topUsed (x :: rs) → rs = [] ∨ topUsed rs.
Proof. destruct rs; [by left|]. right. by eapply topUsed_tail. Qed.

Lemma odd_even_size i a b : a * 2 ^ S i ≠ b * 2 ^ S i + 2 ^ i.
Proof.
  intros E. pose proof (Nat.pow_nonzero 2 i ltac:(lia)).
  assert (2 * a = 2 * b + 1); [|lia]. apply (Nat.mul_cancel_r _ _ (2 ^ i)); [done|].
  simpl in E. lia.
Qed.

Lemma rep_unique i rs rs' l :
  rep Sum256 i rs l → rep Sum256 i rs' l →
  (rs = [] ∨ topUsed rs) → (rs' = [] ∨ topUsed rs') → rs = rs'.
Proof.
  intros Hr. revert rs'. induction Hr as [i|i rs l Hr IH|i rs l t Hr IH Ht]; intros rs' Hr' Hu Hu'.
  - by apply rep_empty in Hr' as ->.
  - destruct Hu as [?|Hu]; [done|]. pose proof (Nat.pow_nonzero 2 i).
    destruct (decide (length l = 0)) as [Hz|Hz].
    { apply nil_length_inv in Hz as ->.
      by pose proof (rep_empty i (None :: rs) (rep_none _ _ _ _ Hr) (or_intror Hu)). }
    inversion Hr' as [|? rs2 ? Hr2|? rs2 l2 t2 Hr2 Ht2]; subst; [done| |].
    + f_equal. destruct Hu' as [?|Hu']; [done|]. apply IH; eauto using topUsed_tail'.
    + destruct (rep_bits _ _ _ _ Hr) as (q & Hq & _), (rep_bits _ _ _ _ Hr2) as (q2 & Hq2 & _).
      rewrite length_app in Hq. by destruct (odd_even_size i q q2); lia.
  - destruct Hu as [?|Hu]; [done|]. pose proof (Nat.pow_nonzero 2 i).
    remember (l ++ t) as L eqn:EL.
    destruct Hr' as [i|i rs2 L Hr2|i rs2 l2 t2 Hr2 Ht2].
    + apply (f_equal length) in EL. rewrite length_app in EL. simpl in EL. lia.
    + destruct (rep_bits _ _ _ _ Hr) as (q & Hq & _), (rep_bits _ _ _ _ Hr2) as (q2 & Hq2 & _).
      rewrite EL, length_app in Hq2. by destruct (odd_even_size i q2 q); lia.
    + apply app_inj_2 in EL as [-> ->]; [|lia]. f_equal.
      destruct Hu' as [?|Hu']; [done|]. apply IH; eauto using topUsed_tail'.
Qed.

(** Adding leaf hashes one by one; the callback sees [pureCallback]. *)
Fixpoint addHashes {S} (f : Z → Z → slice → M S unit) (hs : list bytes) : M (Tree * S) unit :=
  match hs with
  | [] => mret ()
  | h :: hs' => _ ← AddLeafHash f (Some h); addHashes f hs'
  end.

Lemma tree_of_NewTree : tree_of [] NewTree.
Proof. split; [apply commits_zero|]. split; [done|]. simpl. by rewrite MTH_nil. Qed.

Lemma addHashes_spec {S} (g : Z → Z → slice → S → S) hs l t s :
  tree_of l t → (Z.of_nat (length (l ++ hs)) < 2 ^ 63)%Z →
  ∃ t' s', addHashes (pureCallback g) hs (t, s) = (Ok (), (t', s')) ∧ tree_of (l ++ hs) t'.
Proof.
  revert l t s. induction hs as [|h hs IH]; intros l t s Ht Hl.
  { exists t, s. by rewrite app_nil_r. }
  rewrite length_app in Hl. simpl in Hl.
  destruct (AddLeafHash_spec g _ _ t l h s (pureCallback_accepts g _) Logic.I Ht ltac:(lia)) as (t1 & trace & Hadd & Ht1 & _).
  destruct (IH (l ++ [h]) t1 (replay g trace s) Ht1) as (t' & s' & Hrun & Ht').
  { rewrite !length_app. simpl. lia. }
  exists t', s'. cbn [addHashes]. unfold mbind, M_bind. rewrite Hadd. split; [exact Hrun|].
  by rewrite <-app_assoc in Ht'.
Qed.

(** *** Resuming *)

Lemma isPerfectTree_pow x : (0 ≤ x)%Z → isPerfectTree x = true → x = (2 ^ Z.log2 x)%Z ∧ (0 < x)%Z.
Proof.
  intros Hx. unfold isPerfectTree. rewrite andb_true_iff, negb_true_iff, Z.eqb_neq, Z.eqb_eq.
  intros [Hne Hland]. split; [|lia]. pose proof (Z.log2_spec x ltac:(lia)) as [H1 H2].
  destruct (decide (x = 2 ^ Z.log2 x)%Z) as [|Hn]; [done|]. exfalso.
  pose proof (Z.log2_nonneg x).
  assert (Z.log2 (x - 1) = Z.log2 x) as E
    by (apply Z.log2_unique; [done|]; lia).
  apply (f_equal (λ z, Z.testbit z (Z.log2 x))) in Hland.
  rewrite Z.land_spec, Z.bits_0, Z.bit_log2 in Hland by lia.
  rewrite <-E, Z.bit_log2 in Hland by lia. done.
Qed.

Lemma rep_perfect i k t :
  length t = 2 ^ (i + k) → rep Sum256 i (replicate k None ++ [Some (MTH Sum256 t)]) t.
Proof.
  revert i. induction k as [|k IH]; intros i Ht; simpl.
  - rewrite Nat.add_0_r in Ht. change t with ([] ++ t) at 2. constructor; [constructor|done].
  - constructor. apply IH. rewrite Ht. f_equal. lia.
Qed.

(** A callback that fetches the stored nodes of a log, in states [I]. *)
Definition fetches {S} (I : S → Prop) (f : Z → Z → M S slice) (L : list bytes) : Prop :=
  ∀ (d i : nat) s, I s → (i + 1) * 2 ^ d ≤ length L →
    ∃ s', f (Z.of_nat d) (Z.of_nat i) s = (Ok (Some (nodeHash L d i)), s') ∧ I s'.

Lemma fetchLoop_spec {S} (I : S → Prop) f L n d q pre s :
  fetches I f L → I s →
  q * 2 ^ d ≤ length L → q < 2 ^ n → length pre = d →
  ∃ rs s', fetchLoop f n (Z.of_nat d) (Z.of_nat q) (pre ++ replicate n None) s = (Ok (pre ++ rs), s') ∧
    I s' ∧ rep Sum256 d rs (take (q * 2 ^ d) L) ∧ length rs = n.
Proof.
  intros Hf. revert d q pre s. induction n as [|n IH]; intros d q pre s Hs Hq Hn Hpre.
  { assert (q = 0) as -> by (simpl in Hn; lia). exists [], s. split; [done|]. split; [done|]. split; [constructor|done]. }
  cbn [fetchLoop]. rewrite shiftr1_of_nat.
  assert (Z.land (Z.of_nat q) 1 = if Nat.odd q then 1 else 0)%Z as ->.
  { change 1%Z with (Z.ones 1) at 1. rewrite Z.land_ones by lia.
    rewrite <-(Nat2Z.inj_mod _ 2), <-Nat.bit0_mod, Nat.bit0_odd. by destruct (Nat.odd q). }
  assert (q = 2 * (q / 2) + if Nat.odd q then 1 else 0) as Eq.
  { rewrite (Nat.div_mod_eq q 2) at 1. rewrite <-Nat.bit0_mod, Nat.bit0_odd. by destruct (Nat.odd q). }
  assert (q / 2 < 2 ^ n) by (apply Nat.Div0.div_lt_upper_bound; simpl in Hn; lia).
  pose proof (Nat.pow_nonzero 2 d). remember (q / 2) as m eqn:Em. clear Em.
  destruct (Nat.odd q); cbn [Z.eqb Pos.eqb]; subst q.
  - replace (Z.of_nat (2 * m + 1) - 1)%Z with (Z.of_nat (2 * m)) by lia.
    destruct (Hf d (2 * m) s Hs) as (s1 & E & Hs1); [nia|].
    unfold mbind, M_bind, mret, M_ret. rewrite E.
    rewrite Nat2Z.id, insert_app_r_alt, Hpre, Nat.sub_diag by lia.
    set (h := Some (nodeHash L d (2 * m))).
    replace (pre ++ <[0:=h]> (replicate (Datatypes.S n) None)) with ((pre ++ [h]) ++ replicate n None)
      by (by rewrite <-app_assoc).
    destruct (IH (Datatypes.S d) m (pre ++ [h]) s1) as (rs & s' & Hrun & Hs' & Hrep & Hlen).
    + done.
    + simpl. nia.
    + done.
    + rewrite length_app. simpl. lia.
    + replace (Z.of_nat d + 1)%Z with (Z.of_nat (Datatypes.S d)) by lia. rewrite Hrun.
      exists (h :: rs), s'. split; [by rewrite <-app_assoc|]. split; [done|]. split; [|simpl; lia].
      assert (take ((2 * m + 1) * 2 ^ d) L = take (m * 2 ^ Datatypes.S d) L ++
        take (2 ^ d) (drop (2 * m * 2 ^ d) L)) as ->.
      { replace ((2 * m + 1) * 2 ^ d) with (m * 2 ^ Datatypes.S d + 2 ^ d) by (simpl; nia).
        replace (2 * m * 2 ^ d) with (m * 2 ^ Datatypes.S d) by (simpl; nia).
        by rewrite take_take_drop. }
      constructor; [done|]. rewrite length_take, length_drop. nia.
  - destruct (IH (Datatypes.S d) m (pre ++ [None]) s) as (rs & s' & Hrun & Hs' & Hrep & Hlen).
    + done.
    + simpl. nia.
    + done.
    + rewrite length_app. simpl. lia.
    + replace (Z.of_nat d + 1)%Z with (Z.of_nat (Datatypes.S d)) by lia.
      rewrite <-app_assoc in Hrun. cbn [replicate app] in *.
      unfold mbind, M_bind, mret, M_ret. rewrite Hrun.
      exists (None :: rs), s'. split; [by rewrite <-app_assoc|]. split; [done|]. split; [|simpl; lia].
      constructor. replace ((2 * m + 0) * 2 ^ d) with (m * 2 ^ Datatypes.S d) by (simpl; nia). done.
Qed.

Lemma Len64_bit (n : nat) :
  0 < n → ∃ k, Z.to_nat (Len64 (Z.of_nat n)) = S k ∧ Nat.testbit n k = true.
Proof.
  intros Hn. unfold Len64. destruct (Z.eqb_spec (Z.of_nat n) 0); [lia|].
  pose proof (Z.log2_nonneg (Z.of_nat n)).
  exists (Z.to_nat (Z.log2 (Z.of_nat n))). split; [lia|].
  rewrite <-testbit_of_nat, Z2Nat.id by done. apply Z.bit_log2. lia.
Qed.

Lemma recalc_pure (t : Tree) l :
  commits Sum256 (mkFrontier (tree_nodes t)) l → tree_size t = Z.of_nat (length l) → l ≠ [] →
  fst (recalculateRoot (S := unit) (λ _ _ _, mret ()) t ()) =
    Ok (mkTree (Some (MTH Sum256 l)) (tree_nodes t) (tree_size t)).
Proof.
  intros [Hr Htop] Hs Hne. assert (0 < length l) by (destruct l; simpl; [done|lia]).
  unfold recalculateRoot. rewrite Hs. destruct (Z.eqb_spec (Z.of_nat (length l)) 0); [lia|].
  destruct (recalcLoop_spec (S := unit) (λ _ _ _ s, s) _ _ (Z.to_nat (Len64 (Z.of_nat (length l))))
    0 (tree_nodes t) (tree_nodes t) l [] (length l) () l (pureCallback_accepts _ _) Logic.I) as (trace & _ & Hrun & _).
  - exact Hr.
  - simpl. lia.
  - simpl. lia.
  - done.
  - by apply Len64_nat.
  - by rewrite app_nil_r.
  - done.
  - unfold_M. unfold pureCallback in Hrun. unfold_M. by rewrite Hrun.
Qed.

(** ** Properties *)

(** C30. Trillian's compact tree and ct-log's frontier compute the same: after any
    leaf hashes were added, they hold the same perfect subtrees and the same
    root, the RFC 6962 hash; so the check of ct-log on new roots agrees with
    an honest sequencer. *)
Theorem compact_frontier_agree hs :
  (Z.of_nat (length hs) < 2 ^ 63)%Z →
  ∃ t, addHashes (S := unit) (λ _ _ _, mret ()) hs (NewTree, ()) = (Ok (), (t, ())) ∧
    tree_nodes t = Roots (appendAll Sum256 zeroFrontier hs) ∧
    CurrentRoot t = Head Sum256 (appendAll Sum256 zeroFrontier hs) ∧
    CurrentRoot t = Some (MTH Sum256 hs) ∧ Size t = Z.of_nat (length hs).
Proof.
  intros Hl. destruct (addHashes_spec (S := unit) (λ _ _ _ s, s) hs [] NewTree () tree_of_NewTree Hl)
    as (t & [] & Hrun & Hc & Hs & Hroot). simpl in Hc, Hs, Hroot.
  pose proof (appendAll_commits Sum256 _ [] hs (commits_zero _)) as Hf. simpl in Hf.
  exists t. split; [exact Hrun|]. split_and!; [|rewrite (commits_Head _ _ _ Hf); exact Hroot|done|done].
  destruct Hc as [Hr Htop], Hf as [Hr' Htop']. simpl in *.
  eapply rep_unique; [exact Hr|exact Hr'|exact Htop|exact Htop'].
Qed.

(** Adding a leaf to the tree over [l]: the leaf gets the next sequence number,
    the result is the tree over the longer list, and the nodes reported to the
    callback are exactly the nodes of that tree above the leaf, each with the
    RFC 6962 hash of the leaves under it. *)
Theorem AddLeafHash_reports t l h :
  tree_of l t → (Z.of_nat (length l) + 1 < 2 ^ 63)%Z →
  ∃ t' trace,
    AddLeafHash (λ d i h, modify (λ tr, tr ++ [(d, i, h)])) (Some h) (t, []) =
      (Ok (Z.of_nat (length l)), (t', trace)) ∧
    tree_of (l ++ [h]) t' ∧ Forall (good_report (l ++ [h])) trace ∧
    ∀ d i : nat, present (length l + 1) d i → length l < (i + 1) * 2 ^ d →
      (Z.of_nat d, Z.of_nat i) ∈ trace.*1.
Proof.
  intros Ht Hl.
  destruct (AddLeafHash_spec (λ d i h tr, tr ++ [(d, i, h)]) _ _ t l h [] (pureCallback_accepts _ _) Logic.I Ht Hl)
    as (t' & trace & Hrun & Ht' & Htr & Hcov).
  exists t', trace. split; [|split; [done|split; [done|]]].
  2:{ intros d i Hp Hle. rewrite length_app in Hcov. simpl in Hcov. apply Hcov; [done|lia]. }
  rewrite <-(app_nil_l trace) at 1.
  assert (∀ tr s, replay (λ d i h s, s ++ [(d, i, h)]) tr s = s ++ tr) as Hrep.
  { induction tr as [|[[d i] c] tr IH]; intros s; [by rewrite app_nil_r|].
    unfold replay in *. simpl. by rewrite IH, <-app_assoc. }
  rewrite Hrep in Hrun. exact Hrun.
Qed.

(** Resuming from stored nodes: given the root of the log, and a callback that
    fetches the stored hash of every perfect subtree, the tree over the log is
    rebuilt. *)
Lemma NewTreeWithState_resumes {S} (I : S → Prop) f l s :
  fetches I f l → I s →
  ∃ t s', NewTreeWithState (Z.of_nat (length l)) f (Some (MTH Sum256 l)) s = (Ok t, s') ∧
    tree_of l t ∧ I s'.
Proof.
  intros Hf Hs. unfold NewTreeWithState. set (n := Z.to_nat (Len64 (Z.of_nat (length l)))).
  assert (∀ t s', tree_root t = Some (MTH Sum256 l) →
    (if negb (bytes_Equal (tree_root t) (Some (MTH Sum256 l))) then fail err_root_mismatch else mret t : M S Tree) s'
    = (Ok t, s')) as Hend.
  { intros t s' ->. unfold bytes_Equal. by rewrite bool_decide_true. }
  destruct (decide (l = [])) as [->|Hne].
  { exists (mkTree (Some EmptyRoot) [] 0), s. split; [|split; [|done]].
    - exact (Hend (mkTree (Some EmptyRoot) [] 0) s (f_equal Some (eq_sym (MTH_nil _)))).
    - split; [apply commits_zero|]. split; [done|]. simpl. by rewrite MTH_nil. }
  assert (0 < length l) as Hpos by (destruct l; simpl; [done|lia]).
  destruct (Len64_bit (length l) Hpos) as (k & Hk & Hbit). fold n in Hk.
  unfold mbind, M_bind. destruct (isPerfectTree (Z.of_nat (length l))) eqn:Ep.
  - apply isPerfectTree_pow in Ep as [Ep _]; [|lia].
    eexists _, s. split; [apply Hend; done|]. split; [|done]. rewrite Hk. simpl. rewrite Nat.sub_0_r.
    assert (length l = 2 ^ k) as Hlk.
    { apply Nat2Z.inj. rewrite Ep, (Nat2Z.inj_pow 2). f_equal.
      unfold n, Len64 in Hk. destruct (Z.eqb_spec (Z.of_nat (length l)) 0); [lia|].
      pose proof (Z.log2_nonneg (Z.of_nat (length l))). lia. }
    assert (<[k:=Some (MTH Sum256 l)]> (None :: replicate k None) =
      replicate k None ++ [Some (MTH Sum256 l)]) as E.
    { change (None :: replicate k None) with (replicate (Datatypes.S k) (@None bytes)).
      rewrite <-Nat.add_1_r, replicate_add, insert_app_r_alt by (by rewrite length_replicate).
      by rewrite length_replicate, Nat.sub_diag. }
    split; [|split; [done|done]]. split; simpl; rewrite E.
    + by apply rep_perfect.
    + right. eexists. apply last_snoc.
  - destruct (fetchLoop_spec I f l n 0 (length l) [] s) as (rs & s' & Hrun & Hs' & Hrep & Hlen);
      [done|done|simpl; lia|by apply Len64_nat|done|].
    cbn [app] in Hrun. change (Z.of_nat 0) with 0%Z in Hrun. rewrite Hrun.
    rewrite Nat.mul_1_r, take_ge in Hrep by lia.
    assert (commits Sum256 (mkFrontier rs) l) as Hc.
    { split; [done|]. right. destruct (rep_bits _ _ _ _ Hrep) as (q & Hq & Hbits).
      rewrite Nat.mul_1_r in Hq. subst q. apply Hbits in Hbit as [r Hr].
      exists r. simpl. rewrite last_lookup, Hlen, Hk. done. }
    pose proof (recalc_pure (mkTree (Some EmptyRoot) rs (Z.of_nat (length l))) l Hc eq_refl Hne)
      as Hrec. unfold lift. rewrite Hrec. eexists _, s'. split; [by apply Hend|]. split; [by split|done].
Qed.

End compact.

(** ** Witnesses *)

Section witnesses.
(** A stand-in for SHA-256; the properties hold for any function. *)
Definition toySum (b : bytes) : bytes :=
  [z2b (fold_left (λ acc x, acc * 31 + b2z x)%Z b 7%Z)].

Definition sampleHashes : list bytes := [[Byte.x01]; [Byte.x02]; [Byte.x03]; [Byte.x04]; [Byte.x05]].

Lemma compact_frontier_agree_witness :
  ∃ t, addHashes toySum (S := unit) (λ _ _ _, mret ()) sampleHashes (NewTree toySum, ()) =
    (Ok (), (t, ())) ∧
    CurrentRoot t = Head toySum (appendAll toySum zeroFrontier sampleHashes).
Proof.
  destruct (compact_frontier_agree toySum sampleHashes) as (t & H & _ & H2 & _).
  - simpl. lia.
  - exists t. split; [exact H|exact H2].
Defined.

Lemma AddLeafHash_reports_witness :
  ∃ t' trace,
    AddLeafHash toySum (λ d i h, modify (λ tr, tr ++ [(d, i, h)])) (Some [Byte.x01])
      (NewTree toySum, []) = (Ok 0%Z, (t', trace)) ∧
    tree_of toySum [[Byte.x01]] t' ∧ Forall (good_report toySum [[Byte.x01]]) trace ∧
    ∀ d i : nat, present 1 d i → 0 < (i + 1) * 2 ^ d → (Z.of_nat d, Z.of_nat i) ∈ trace.*1.
Proof.
  apply (AddLeafHash_reports toySum (NewTree toySum) [] [Byte.x01]);
    [apply tree_of_NewTree|simpl; lia].
Defined.

Lemma NewTreeWithState_resumes_witness :
  ∃ t s', NewTreeWithState toySum 5
      (λ d i n, (Ok (Some (nodeHash toySum sampleHashes (Z.to_nat d) (Z.to_nat i))), S n))
      (Some (MTH toySum sampleHashes)) 0 = (Ok t, s') ∧ tree_of toySum sampleHashes t ∧ True.
Proof.
  apply (NewTreeWithState_resumes toySum (λ _ : nat, True)
    (λ d i n, (Ok (Some (nodeHash toySum sampleHashes (Z.to_nat d) (Z.to_nat i))), S n)) sampleHashes).
  - intros d i n _ _. rewrite !Nat2Z.id. by eexists.
  - done.
Defined.
End witnesses.
