(* ===== verification/Nodes.v ===== *)
(** * Node identifiers (src/vendor/github.com/google/trillian/storage)

    [storage/types.go] and [storage/suffix.go]: a [NodeID] is a path of bits and
    the length of its significant prefix; tree coordinates map to it, and it
    splits into the prefix of a subtree and a suffix within it, under whose
    base64 form the subtree keeps the hash of the node. *)

From S2P Require Import Prelude Keys Compact.

(** ** Bits of a path *)

Definition PathLenBits (n : NodeID) : Z := Z.of_nat (length (Path n)) * 8.

Definition bytesForBits (numBits : Z) : Z := (numBits + 7) ≫ 3.

(** [p[i]] and [p[i] = f(p[i])] with Go's bounds check. *)
Definition index_byte (p : bytes) (i : Z) : outcome byte :=
  if (i <? 0)%Z then Panic
  else match p !! Z.to_nat i with Some b => Ok b | None => Panic end.

Definition update_byte (p : bytes) (i : Z) (f : Z → Z) : outcome bytes :=
  b ← index_byte p i;
  mret (<[Z.to_nat i := z2b (f (b2z b))]> p).

(** [p[:n]] and [p[n:]] *)
Definition slice_to (p : bytes) (n : Z) : outcome bytes :=
  if ((n <? 0) || (Z.of_nat (length p) <? n))%Z then Panic else Ok (take (Z.to_nat n) p).
Definition slice_from (p : bytes) (n : Z) : outcome bytes :=
  if ((n <? 0) || (Z.of_nat (length p) <? n))%Z then Panic else Ok (drop (Z.to_nat n) p).

Definition SetBit (i b : Z) (n : NodeID) : outcome NodeID :=
  let bIndex := godiv (PathLenBits n - i - 1) 8 in
  let bit := (1 ≪ gorem i 8)%Z in
  p ← update_byte (Path n) bIndex
        (λ x, if (b =? 0)%Z then Z.land x (Z.lxor 255 bit) else Z.lor x bit);
  mret (mkNodeID p (PrefixLenBits n)).

Definition Bit (i : Z) (n : NodeID) : outcome Z :=
  if (PathLenBits n - 1 <? i)%Z then Panic
  else
    let bIndex := godiv (PathLenBits n - i - 1) 8 in
    b ← index_byte (Path n) bIndex;
    mret (Z.land (b2z b ≫ gorem i 8) 1).

(** [String]: the significant bits, most significant first; [k] of them are
    left, the next one at [i]. *)
Fixpoint bitsFrom (k : nat) (i : Z) (n : NodeID) : outcome bytes :=
  match k with
  | O => Ok []
  | S k' =>
      b ← Bit i n;
      rest ← bitsFrom k' (i - 1) n;
      mret (z2b (48 + b) :: rest)
  end.

Definition String_NodeID (n : NodeID) : outcome bytes :=
  bitsFrom (Z.to_nat (PrefixLenBits n)) (PathLenBits n - 1) n.

Definition Equivalent (n other : NodeID) : outcome bool :=
  a ← String_NodeID n;
  b ← String_NodeID other;
  mret (bool_decide (a = b)).

Definition FlipRightBit (i : Z) (n : NodeID) : outcome NodeID :=
  b ← Bit i n;
  SetBit i (Z.lxor b 1) n.

(** ** Constructors *)

Definition NewNodeIDFromHash (h : bytes) : NodeID :=
  mkNodeID h (Z.of_nat (length h) * 8).

Definition NewEmptyNodeID (maxLenBits : Z) : outcome NodeID :=
  if negb (gorem maxLenBits 8 =? 0)%Z then Panic
  else if (maxLenBits <? 0)%Z then Panic
  else Ok (mkNodeID (replicate (Z.to_nat (godiv maxLenBits 8)) Byte.x00) 0).

(** [index << uint(height)] on int64: nothing is left of a shift by 64 or more,
    and a negative [height] converts to such a shift. *)
Definition shl64 (index height : Z) : Z :=
  if ((height <? 0) || (64 <=? height))%Z then 0%Z else wrap64 (index ≪ height).

Definition NewNodeIDFromPrefix (prefix : bytes) (depth index subDepth totalDepth : Z)
    : outcome NodeID :=
  if negb (gorem totalDepth 8 =? 0)%Z then Panic
  else if negb (gorem subDepth 8 =? 0)%Z then Panic
  else if (depth <? 0)%Z then Panic
  else if (totalDepth <? 0)%Z then Panic
  else
    let path := replicate (Z.to_nat (godiv totalDepth 8)) Byte.x00 in
    let path := copy_into path prefix in
    let height := (subDepth - depth)%Z in
    let subIndex := shl64 index height in
    let subPath := be_bytes 8 subIndex in
    let unusedHighBytes := (godiv 64 8 - godiv subDepth 8)%Z in
    src ← slice_from subPath unusedHighBytes;
    dst ← slice_from path (Z.of_nat (length prefix));
    mret (mkNodeID (take (length prefix) path ++ copy_into dst src)
            (Z.of_nat (length prefix) * 8 + depth)).

(** The loop of [NewNodeIDForTreeCoords]: bytes from the right. *)
Fixpoint fillPath (i : nat) (uidx : Z) (path : bytes) : bytes :=
  if (uidx <=? 0)%Z then path
  else
    let path := <[i := z2b (Z.land uidx 255)]> path in
    match i with
    | O => path
    | S i' => fillPath i' (uidx ≫ 8) path
    end.

Definition err_coords : error :=
  Errorf "depth/index combination out of range: depth=%d index=%d maxPathBits=%v".

Definition NewNodeIDForTreeCoords (depth index maxPathBits : Z) : outcome NodeID :=
  let bl := Len64 (wrapU64 index) in
  if ((index <? 0) || (depth <? 0) || (maxPathBits - depth <? bl) ||
      negb (gorem maxPathBits 8 =? 0))%Z
  then Err err_coords
  else
    let uidx := if (64 <=? depth)%Z then 0%Z else wrapU64 (wrapU64 index ≪ depth) in
    r ← NewEmptyNodeID maxPathBits;
    let path :=
      match length (Path r) with
      | O => Path r
      | S i => fillPath i uidx (Path r)
      end in
    mret (mkNodeID path (maxPathBits - depth)).

(** ** Masks and siblings *)

Definition leftmask : list Z := [255; 128; 192; 224; 240; 248; 252; 254]%Z.

Definition MaskLeft (depth : Z) (n : NodeID) : outcome NodeID :=
  let r := replicate (length (Path n)) Byte.x00 in
  r ← (if (0 <? depth)%Z then
         let depthBytes := bytesForBits depth in
         src ← slice_to (Path n) depthBytes;
         update_byte (copy_into r src) (depthBytes - 1)
           (λ x, Z.land x (default 0%Z (leftmask !! Z.to_nat (gorem depth 8))))
       else Ok r);
  mret (mkNodeID r (if (depth <? PrefixLenBits n)%Z then depth else PrefixLenBits n)).

Definition Neighbor (n : NodeID) : outcome NodeID :=
  FlipRightBit (PathLenBits n - PrefixLenBits n) n.

(** The siblings from [height] up, [k] of them. *)
Fixpoint siblingsFrom (k : nat) (height : Z) (n : NodeID) : outcome (list NodeID) :=
  match k with
  | O => Ok []
  | S k' =>
      m ← MaskLeft (PrefixLenBits n - height) n;
      s ← Neighbor m;
      rest ← siblingsFrom k' (height + 1) n;
      mret (s :: rest)
  end.

Definition Siblings (n : NodeID) : outcome (list NodeID) :=
  if (PrefixLenBits n <? 0)%Z then Panic
  else siblingsFrom (Z.to_nat (PrefixLenBits n)) 0 n.

(** ** Suffixes *)

Record Suffix := mkSuffix { Bits : byte; SuffixPath : bytes }.

(** The standard base64 alphabet. *)
Definition b64char (v : Z) : byte :=
  (if v <? 26 then z2b (65 + v)
   else if v <? 52 then z2b (97 + (v - 26))
   else if v <? 62 then z2b (48 + (v - 52))
   else if v =? 62 then Byte.x2b else Byte.x2f)%Z.

(** [base64.StdEncoding.EncodeToString], with padding. *)
Fixpoint b64encode (bs : bytes) : bytes :=
  match bs with
  | a :: b :: c :: rest =>
      let v := (b2z a * 65536 + b2z b * 256 + b2z c)%Z in
      b64char (v `div` 262144) :: b64char (v `div` 4096 `mod` 64) ::
      b64char (v `div` 64 `mod` 64) :: b64char (v `mod` 64) :: b64encode rest
  | [a; b] =>
      let v := (b2z a * 65536 + b2z b * 256)%Z in
      [b64char (v `div` 262144); b64char (v `div` 4096 `mod` 64);
       b64char (v `div` 64 `mod` 64); Byte.x3d]
  | [a] =>
      let v := (b2z a * 65536)%Z in
      [b64char (v `div` 262144); b64char (v `div` 4096 `mod` 64); Byte.x3d; Byte.x3d]
  | [] => []
  end.

Definition String_Suffix (s : Suffix) : string :=
  String.string_of_list_byte (b64encode (Bits s :: SuffixPath s)).

Definition NewNodeIDFromPrefixSuffix (prefix : bytes) (suffix : Suffix) (maxPathBits : Z)
    : outcome NodeID :=
  if (maxPathBits <? 0)%Z then Panic
  else
    let path := replicate (Z.to_nat (godiv maxPathBits 8)) Byte.x00 in
    let path := copy_into path prefix in
    dst ← slice_from path (Z.of_nat (length prefix));
    mret (mkNodeID (take (length prefix) path ++ copy_into dst (SuffixPath suffix))
            (Z.of_nat (length prefix) * 8 + b2z (Bits suffix))).

Definition Split (prefixBytes suffixBits : Z) (n : NodeID) : outcome (bytes * Suffix) :=
  if (PrefixLenBits n =? 0)%Z then Ok ([], mkSuffix Byte.x00 [Byte.x00])
  else
    let a := Path n in
    let bits := (PrefixLenBits n - prefixBytes * 8)%Z in
    if (suffixBits <? bits)%Z then Panic
    else if (bits =? 0)%Z then Panic
    else
      let suffixBytes := bytesForBits bits in
      hi ← slice_to a (prefixBytes + suffixBytes);
      path ← slice_from hi prefixBytes;
      let sbits := z2b bits in
      let maskIndex := godiv (bits - 1) 8 in
      let maskLowBits := (((b2z sbits - 1) `mod` 256) `mod` 8 + 1)%Z in
      path ← update_byte path maskIndex
               (λ x, Z.land x ((((1 ≪ maskLowBits) - 1) ≪ (8 - maskLowBits)) `mod` 256))%Z;
      px ← slice_to a prefixBytes;
      mret (px, mkSuffix sbits path).

(** ** Lemmas *)

(** *** Base64 *)

Lemma b64char_inj v w :
  (0 ≤ v < 64)%Z → (0 ≤ w < 64)%Z → b64char v = b64char w → v = w.
Proof.
  intros Hv Hw E. apply (f_equal b2z) in E. unfold b64char in E.
  change Byte.x2b with (z2b 43) in E. change Byte.x2f with (z2b 47) in E.
  repeat match type of E with
  | context [(?a <? ?b)%Z] => destruct (Z.ltb_spec a b)
  | context [(?a =? ?b)%Z] => destruct (Z.eqb_spec a b)
  end; rewrite !b2z_z2b_small in E by lia; lia.
Qed.

Lemma b64char_not_pad v : (0 ≤ v < 64)%Z → b64char v ≠ Byte.x3d.
Proof.
  intros Hv E. apply (f_equal b2z) in E. unfold b64char in E.
  change Byte.x2b with (z2b 43) in E. change Byte.x2f with (z2b 47) in E.
  change (b2z Byte.x3d) with 61%Z in E.
  repeat match type of E with
  | context [(?a <? ?b)%Z] => destruct (Z.ltb_spec a b)
  | context [(?a =? ?b)%Z] => destruct (Z.eqb_spec a b)
  end; rewrite !b2z_z2b_small in E by lia; lia.
Qed.

(** The four digits of a 24-bit integer. *)
Lemma b64_digits v : (0 ≤ v < 2 ^ 24)%Z →
  (0 ≤ v `div` 262144 < 64 ∧ 0 ≤ v `div` 4096 `mod` 64 < 64 ∧
   0 ≤ v `div` 64 `mod` 64 < 64 ∧ 0 ≤ v `mod` 64 < 64 ∧
   v = v `div` 262144 * 262144 + v `div` 4096 `mod` 64 * 4096 +
       v `div` 64 `mod` 64 * 64 + v `mod` 64)%Z.
Proof.
  intros Hv. 
  pose proof (Z.div_mod v 64). pose proof (Z.mod_pos_bound v 64).
  pose proof (Z.div_mod (v `div` 64) 64). pose proof (Z.mod_pos_bound (v `div` 64) 64).
  pose proof (Z.div_mod (v `div` 4096) 64). pose proof (Z.mod_pos_bound (v `div` 4096) 64).
  assert (v `div` 64 `div` 64 = v `div` 4096)%Z by (rewrite Z.div_div; done).
  assert (v `div` 4096 `div` 64 = v `div` 262144)%Z by (rewrite Z.div_div; done).
  lia.
Qed.

Lemma b64_quad v w :
  (0 ≤ v < 2 ^ 24)%Z → (0 ≤ w < 2 ^ 24)%Z →
  b64char (v `div` 262144) = b64char (w `div` 262144) →
  b64char (v `div` 4096 `mod` 64) = b64char (w `div` 4096 `mod` 64) →
  b64char (v `div` 64 `mod` 64) = b64char (w `div` 64 `mod` 64) →
  b64char (v `mod` 64) = b64char (w `mod` 64) → v = w.
Proof.
  intros Hv Hw E1 E2 E3 E4.
  pose proof (b64_digits v Hv). pose proof (b64_digits w Hw).
  apply b64char_inj in E1, E2, E3, E4; lia.
Qed.

Lemma be24_inj (a b c a' b' c' : byte) :
  (b2z a * 65536 + b2z b * 256 + b2z c = b2z a' * 65536 + b2z b' * 256 + b2z c')%Z →
  a = a' ∧ b = b' ∧ c = c'.
Proof.
  intros E. pose proof (b2z_range b). pose proof (b2z_range c).
  pose proof (b2z_range b'). pose proof (b2z_range c'). split_and!; apply b2z_inj; lia.
Qed.

Lemma be24_range (a b c : byte) : (0 ≤ b2z a * 65536 + b2z b * 256 + b2z c < 2 ^ 24)%Z.
Proof. pose proof (b2z_range a). pose proof (b2z_range b). pose proof (b2z_range c). lia. Qed.

Lemma b64encode_inj bs bs' :
  length bs = length bs' → b64encode bs = b64encode bs' → bs = bs'.
Proof.
  revert bs'. induction bs as [bs IH] using (induction_ltof1 _ length). unfold ltof in IH.
  intros bs' Hl E.
  destruct bs as [|a [|b [|c rest]]], bs' as [|a' [|b' [|c' rest']]]; try done;
    cbn [b64encode] in E.
  - injection E as E1 E2. pose proof (b2z_range a). pose proof (b2z_range a').
    pose proof (b64_digits (b2z a * 65536) ltac:(lia)).
    pose proof (b64_digits (b2z a' * 65536) ltac:(lia)).
    apply b64char_inj in E1, E2; [|lia..]. f_equal. apply b2z_inj. lia.
  - injection E as E1 E2 E3. pose proof (b2z_range a). pose proof (b2z_range a').
    pose proof (b2z_range b). pose proof (b2z_range b').
    pose proof (b64_digits (b2z a * 65536 + b2z b * 256) ltac:(lia)).
    pose proof (b64_digits (b2z a' * 65536 + b2z b' * 256) ltac:(lia)).
    apply b64char_inj in E1, E2, E3; [|lia..].
    destruct (be24_inj a b Byte.x00 a' b' Byte.x00) as (-> & -> & _); [|done].
    change (b2z Byte.x00) with 0%Z. lia.
  - injection E as E1 E2 E3 E4 E5. pose proof (be24_range a b c). pose proof (be24_range a' b' c').
    destruct (be24_inj a b c a' b' c') as (-> & -> & ->); [by apply b64_quad|].
    do 3 f_equal. apply IH; [simpl; lia|by simplify_eq/=|done].
Qed.

Lemma String_Suffix_inj s s' :
  length (SuffixPath s) = length (SuffixPath s') → String_Suffix s = String_Suffix s' → s = s'.
Proof.
  intros Hl E. unfold String_Suffix in E.
  apply (f_equal String.list_byte_of_string) in E.
  rewrite !String.list_byte_of_string_of_list_byte in E.
  apply b64encode_inj in E; [|simpl; lia]. destruct s, s'. by simplify_eq/=.
Qed.

(** *** Tree coordinates *)

Lemma be_bytes_snoc n z : be_bytes (S n) z = be_bytes n (z ≫ 8) ++ [z2b z].
Proof.
  revert z. induction n as [|n IH]; intros z; [simpl; by rewrite Z.shiftr_0_r|].
  change (be_bytes (S (S n)) z) with (z2b (z ≫ (8 * Z.of_nat (S n))) :: be_bytes (S n) z).
  rewrite IH. simpl be_bytes at 2. rewrite Z.shiftr_shiftr by lia.
  cbn [app]. do 3 f_equal. lia.
Qed.

Lemma be_bytes_0 n : be_bytes n 0 = replicate n Byte.x00.
Proof. induction n; simpl; [done|]. rewrite Z.shiftr_0_l. by f_equal. Qed.

Lemma fillPath_be i uidx tl :
  (0 ≤ uidx < 256 ^ Z.of_nat (S i))%Z →
  fillPath i uidx (replicate (S i) Byte.x00 ++ tl) = be_bytes (S i) uidx ++ tl.
Proof.
  revert uidx tl. induction i as [|i IH]; intros uidx tl Hu; cbn [fillPath];
    (destruct (Z.leb_spec uidx 0); [replace uidx with 0%Z by lia; by rewrite be_bytes_0|]).
  all: assert (z2b (Z.land uidx 255) = z2b uidx) as ->
    by (apply b2z_inj; rewrite !b2z_z2b; change 255%Z with (Z.ones 8);
        rewrite Z.land_ones by lia; by rewrite Z.mod_mod by lia).
  - simpl. by rewrite Z.shiftr_0_r.
  - replace (<[S i:=z2b uidx]> (replicate (S (S i)) Byte.x00 ++ tl))
      with (replicate (S i) Byte.x00 ++ z2b uidx :: tl).
    2:{ replace (S (S i)) with (S i + 1) by lia.
        rewrite replicate_add, <-app_assoc, insert_app_r_alt by (by rewrite length_replicate).
        by rewrite length_replicate, Nat.sub_diag. }
    rewrite IH.
    + by rewrite (be_bytes_snoc (S i)), <-app_assoc.
    + rewrite Z.shiftr_div_pow2 by lia. rewrite Nat2Z.inj_succ, Z.pow_succ_r in Hu by lia.
      split; [apply Z.div_pos; lia|]. apply Z.div_lt_upper_bound; lia.
Qed.

(** A coordinate of a log tree of 64 levels. *)
Definition validCoords (depth index : Z) : Prop :=
  (0 ≤ depth ≤ 64 ∧ 0 ≤ index < 2 ^ (64 - depth))%Z.

Definition coordsID (depth index : Z) : NodeID :=
  mkNodeID (be_bytes 8 (index ≪ depth)) (64 - depth).

Lemma Len64_le x k : (0 ≤ x)%Z → (0 ≤ k)%Z → (Len64 x ≤ k)%Z ↔ (x < 2 ^ k)%Z.
Proof.
  intros Hx Hk. unfold Len64. destruct (Z.eqb_spec x 0) as [->|].
  { split; [intros _; apply Z.pow_pos_nonneg; lia|lia]. }
  rewrite Z.log2_lt_pow2 by lia. lia.
Qed.

Lemma shiftl_coords depth index :
  validCoords depth index → (0 ≤ index ≪ depth < 2 ^ 64)%Z.
Proof.
  intros [Hd Hi]. rewrite Z.shiftl_mul_pow2 by lia.
  replace (2 ^ 64)%Z with (2 ^ (64 - depth) * 2 ^ depth)%Z
    by (rewrite <-Z.pow_add_r by lia; f_equal; lia).
  assert (0 < 2 ^ depth)%Z by (apply Z.pow_pos_nonneg; lia). nia.
Qed.

Lemma NewNodeIDForTreeCoords_valid depth index :
  int64 index → validCoords depth index →
  NewNodeIDForTreeCoords depth index 64 = Ok (coordsID depth index).
Proof.
  intros Hint Hv. pose proof Hv as [Hd Hi]. unfold NewNodeIDForTreeCoords.
  assert (wrapU64 index = index) as Hw
    by (unfold wrapU64, int64 in *; rewrite Z.mod_small; lia). rewrite Hw.
  destruct (Z.ltb_spec index 0); [lia|]. destruct (Z.ltb_spec depth 0); [lia|].
  destruct (Z.ltb_spec (64 - depth) (Len64 index)) as [Hl|_].
  { apply Z.lt_nge in Hl. destruct Hl. apply Len64_le; lia. }
  change (gorem 64 8) with 0%Z. cbn [orb negb Z.eqb].
  assert ((if (64 <=? depth)%Z then 0%Z else wrapU64 (index ≪ depth)) = (index ≪ depth)%Z) as ->.
  { pose proof (shiftl_coords _ _ Hv). destruct (Z.leb_spec 64 depth).
    - replace depth with 64%Z in * by lia. assert (index = 0)%Z as -> by lia. done.
    - apply Z.mod_small. lia. }
  change (NewEmptyNodeID 64) with (Ok (mkNodeID (replicate 8 Byte.x00) 0)).
  unfold_O. cbn [Path]. rewrite length_replicate. unfold coordsID. do 2 f_equal.
  rewrite <-(app_nil_r (replicate 8 Byte.x00)), fillPath_be, app_nil_r; [done|].
  apply (shiftl_coords _ _ Hv).
Qed.

Lemma NewNodeIDForTreeCoords_invalid depth index :
  int64 index → (depth ≤ 2 ^ 62)%Z → ¬ validCoords depth index →
  NewNodeIDForTreeCoords depth index 64 = Err err_coords.
Proof.
  intros Hint Hdb Hv. unfold NewNodeIDForTreeCoords.
  destruct (Z.ltb_spec index 0); [done|]. destruct (Z.ltb_spec depth 0); [done|].
  assert (wrapU64 index = index) as ->
    by (unfold wrapU64, int64 in *; rewrite Z.mod_small; lia).
  destruct (Z.ltb_spec (64 - depth) (Len64 index)) as [|Hl]; [done|].
  destruct Hv. assert (0 ≤ 64 - depth)%Z.
  { unfold Len64 in Hl. destruct (Z.eqb_spec index 0); [lia|].
    pose proof (Z.log2_nonneg index). lia. }
  split; [lia|]. split; [done|]. apply Len64_le; lia.
Qed.

(** *** Splitting *)

Lemma lookup_be_bytes n z p :
  p < n → be_bytes n z !! p = Some (z2b (z ≫ (8 * Z.of_nat (n - 1 - p)))).
Proof.
  revert p. induction n as [|n IH]; intros p Hp; [lia|].
  destruct p as [|p]; cbn [be_bytes lookup list_lookup].
  - do 3 f_equal. lia.
  - rewrite IH by lia. do 3 f_equal. lia.
Qed.

Lemma drop_take_one {A} (l : list A) p x :
  l !! p = Some x → drop p (take (p + 1) l) = [x].
Proof.
  revert p. induction l as [|y l IH]; intros [|p] H; simplify_eq/=; [done|].
  by apply IH.
Qed.

(** Masking the low bits of a byte that has none set. *)
Lemma mask_noop bits x :
  (1 ≤ bits ≤ 8)%Z → (0 ≤ x < 256)%Z → (x `mod` 2 ^ (8 - bits) = 0)%Z →
  Z.land x ((((1 ≪ bits) - 1) ≪ (8 - bits)) `mod` 256)%Z = x.
Proof.
  intros Hb Hx Hm. set (j := (8 - bits)%Z) in *.
  assert (0 < 2 ^ j)%Z by (apply Z.pow_pos_nonneg; lia).
  assert (2 ^ bits * 2 ^ j = 256)%Z as E
    by (rewrite <-Z.pow_add_r by lia; replace (bits + j)%Z with 8%Z by lia; done).
  rewrite Z.shiftl_1_l, Z.mod_small by (rewrite Z.shiftl_mul_pow2 by lia; nia).
  pose proof (Z.div_mod x (2 ^ j) ltac:(lia)) as Hd. rewrite Hm, Z.add_0_r in Hd.
  rewrite Hd, (Z.mul_comm (2 ^ j)), <-Z.shiftl_mul_pow2, <-Z.shiftl_land by lia.
  f_equal. replace (2 ^ bits - 1)%Z with (Z.ones bits) by (rewrite Z.ones_equiv; lia).
  rewrite Z.land_ones, Z.mod_small by nia. done.
Qed.

(** The subtree and the place in it of a node at [depth], [index]. *)
Definition prefixLen (depth : Z) : Z := ((63 - depth) `div` 8)%Z.
Definition suffixLen (depth : Z) : Z := (64 - depth - 8 * prefixLen depth)%Z.

Lemma prefixLen_bounds depth :
  (0 ≤ depth < 64)%Z →
  (0 ≤ prefixLen depth ≤ 7 ∧ 1 ≤ suffixLen depth ≤ 8 ∧
   8 - suffixLen depth = depth - 8 * (7 - prefixLen depth))%Z.
Proof.
  intros Hd. unfold suffixLen, prefixLen.
  pose proof (Z.div_mod (63 - depth) 8). pose proof (Z.mod_pos_bound (63 - depth) 8). lia.
Qed.

Definition coordsPrefix (depth index : Z) : bytes :=
  take (Z.to_nat (prefixLen depth)) (be_bytes 8 (index ≪ depth)).
Definition coordsSuffix (depth index : Z) : Suffix :=
  mkSuffix (z2b (suffixLen depth))
    [z2b ((index ≪ depth) ≫ (8 * (7 - prefixLen depth)))].

Lemma coords_low_bits depth index :
  (0 ≤ depth < 64)%Z →
  (((index ≪ depth) ≫ (8 * (7 - prefixLen depth))) `mod` 2 ^ (8 - suffixLen depth) = 0)%Z.
Proof.
  intros Hd. destruct (prefixLen_bounds depth Hd) as (Hp & Hs & E).
  rewrite E. set (k := (8 * (7 - prefixLen depth))%Z) in *.
  rewrite Z.shiftr_shiftl_l, Z.shiftl_mul_pow2 by lia.
  apply Z.mod_mul. apply Z.pow_nonzero; lia.
Qed.

Lemma Split_coords depth index :
  validCoords depth index → (depth < 64)%Z →
  Split (prefixLen depth) 8 (coordsID depth index) =
    Ok (coordsPrefix depth index, coordsSuffix depth index).
Proof.
  intros Hv Hd. pose proof Hv as [Hd0 _].
  destruct (prefixLen_bounds depth ltac:(lia)) as (Hp & Hs & E).
  unfold Split. cbn [PrefixLenBits coordsID Path].
  destruct (Z.eqb_spec (64 - depth) 0); [lia|].
  replace (64 - depth - prefixLen depth * 8)%Z with (suffixLen depth) by (unfold suffixLen; lia).
  destruct (Z.ltb_spec 8 (suffixLen depth)); [lia|].
  destruct (Z.eqb_spec (suffixLen depth) 0); [lia|].
  assert (bytesForBits (suffixLen depth) = 1%Z) as ->.
  { unfold bytesForBits. rewrite Z.shiftr_div_pow2 by lia.
    symmetry. apply (Z.div_unique_pos _ _ 1 (suffixLen depth - 1)); lia. }
  set (p := Z.to_nat (prefixLen depth)).
  set (v := (index ≪ depth)%Z).
  unfold slice_to, slice_from. rewrite length_be_bytes. unfold_O.
  destruct (Z.ltb_spec (prefixLen depth + 1) 0); [lia|].
  destruct (Z.ltb_spec (Z.of_nat 8) (prefixLen depth + 1)); [lia|]. cbn [orb].
  rewrite length_take, length_be_bytes.
  destruct (Z.ltb_spec (prefixLen depth) 0); [lia|].
  destruct (Z.ltb_spec (Z.of_nat (Z.to_nat (prefixLen depth + 1) `min` 8)) (prefixLen depth)); [lia|].
  destruct (Z.ltb_spec (Z.of_nat 8) (prefixLen depth)); [lia|]. cbn [orb].
  replace (Z.to_nat (prefixLen depth + 1)) with (p + 1) by lia. fold p.
  rewrite (drop_take_one _ p (z2b (v ≫ (8 * (7 - prefixLen depth))))).
  2:{ rewrite lookup_be_bytes by lia. do 4 f_equal. lia. }
  unfold update_byte, index_byte, godiv.
  rewrite Z.quot_small by lia. unfold_O. cbn [Z.ltb Z.compare lookup list_lookup Z.to_nat].
  unfold coordsPrefix, coordsSuffix. fold p v. do 4 f_equal.
  rewrite (b2z_z2b_small (suffixLen depth)) by lia.
  rewrite (Z.mod_small (suffixLen depth - 1) 256), (Z.mod_small (suffixLen depth - 1) 8) by lia.
  replace (suffixLen depth - 1 + 1)%Z with (suffixLen depth) by lia.
  rewrite mask_noop; [by rewrite z2b_b2z|lia|apply b2z_range|].
  rewrite b2z_z2b. change 256%Z with (2 ^ 8)%Z.
  pose proof (coords_low_bits depth index ltac:(lia)) as Hlow. fold v in Hlow.
  replace (2 ^ 8)%Z with (2 ^ suffixLen depth * 2 ^ (8 - suffixLen depth))%Z
    by (rewrite <-Z.pow_add_r by lia; f_equal; lia).
  rewrite (Z.mul_comm (2 ^ suffixLen depth)), Z.rem_mul_r, Hlow, Z.add_0_l;
    [|apply Z.pow_nonzero; lia|apply Z.pow_pos_nonneg; lia].
  rewrite Z.mul_comm. apply Z.mod_mul. apply Z.pow_nonzero; lia.
Qed.

(** Past its significant bits the path of a coordinate is zero. *)
Lemma coords_path depth index :
  validCoords depth index → (depth < 64)%Z →
  be_bytes 8 (index ≪ depth) =
    coordsPrefix depth index ++ SuffixPath (coordsSuffix depth index) ++
    replicate (7 - Z.to_nat (prefixLen depth)) Byte.x00.
Proof.
  intros [Hd0 _] Hd. destruct (prefixLen_bounds depth ltac:(lia)) as (Hp & Hs & E).
  unfold coordsPrefix, coordsSuffix. cbn [SuffixPath].
  set (p := Z.to_nat (prefixLen depth)). set (v := (index ≪ depth)%Z).
  rewrite <-(take_drop p (be_bytes 8 v)) at 1. f_equal. apply list_eq. intros j.
  rewrite lookup_drop. destruct (decide (p + j < 8)) as [Hj|Hj].
  - rewrite lookup_be_bytes by lia. destruct j as [|j].
    { cbn [app lookup list_lookup]. do 4 f_equal. lia. }
    trans (replicate (7 - p) Byte.x00 !! j); [|done]. rewrite lookup_replicate_2 by lia. f_equal.
    apply b2z_inj. rewrite b2z_z2b. unfold v.
    rewrite Z.shiftr_shiftl_l, Z.shiftl_mul_pow2 by lia.
    set (k := (depth - 8 * Z.of_nat (8 - 1 - (p + S j)))%Z).
    replace k with (k - 8 + 8)%Z by lia. rewrite Z.pow_add_r by lia.
    rewrite Z.mul_assoc. change (2 ^ 8)%Z with 256%Z. by rewrite Z.mod_mul.
  - rewrite lookup_ge_None_2 by (rewrite length_be_bytes; lia).
    symmetry. apply lookup_ge_None. rewrite length_app, length_replicate. simpl. lia.
Qed.

Lemma length_coordsPrefix depth index :
  (0 ≤ depth < 64)%Z → Z.of_nat (length (coordsPrefix depth index)) = prefixLen depth.
Proof.
  intros Hd. destruct (prefixLen_bounds depth Hd) as (Hp & _).
  unfold coordsPrefix. rewrite length_take, length_be_bytes. lia.
Qed.

(** A prefix and a suffix determine the coordinates. *)
Lemma coords_inj d i d' i' :
  validCoords d i → validCoords d' i' → (d < 64)%Z → (d' < 64)%Z →
  coordsPrefix d i = coordsPrefix d' i' → coordsSuffix d i = coordsSuffix d' i' →
  d = d' ∧ i = i'.
Proof.
  intros Hv Hv' Hd Hd' Ep Es. pose proof Hv as [Hd0 _]. pose proof Hv' as [Hd0' _].
  destruct (prefixLen_bounds d ltac:(lia)) as (_ & Hs & _).
  destruct (prefixLen_bounds d' ltac:(lia)) as (_ & Hs' & _).
  assert (prefixLen d = prefixLen d') as El
    by (rewrite <-(length_coordsPrefix d i), <-(length_coordsPrefix d' i'), Ep by lia; done).
  assert (d = d') as <-.
  { apply (f_equal (b2z ∘ Bits)) in Es. simpl in Es. rewrite !b2z_z2b_small in Es by lia.
    unfold suffixLen in Es. lia. }
  split; [done|].
  pose proof (coords_path d i Hv Hd) as H1. pose proof (coords_path d i' Hv' Hd) as H2.
  rewrite Ep, Es, <-H2 in H1. apply (f_equal be_val) in H1. rewrite !be_val_be_bytes in H1.
  pose proof (shiftl_coords _ _ Hv). pose proof (shiftl_coords _ _ Hv').
  rewrite !Z.mod_small in H1 by (change (256 ^ Z.of_nat 8)%Z with (2 ^ 64)%Z; done).
  rewrite !Z.shiftl_mul_pow2 in H1 by lia.
  apply Z.mul_cancel_r in H1; [done|]. apply Z.pow_nonzero; lia.
Qed.

(** *** Identifiers as strings *)

Lemma Bit_coords d i j :
  validCoords d i → (0 ≤ j < 64)%Z →
  Bit j (coordsID d i) = Ok (Z.b2z (Z.testbit (i ≪ d) j)).
Proof.
  intros Hv Hj. pose proof (shiftl_coords _ _ Hv) as Hr. unfold Bit, PathLenBits. cbn [Path coordsID].
  rewrite length_be_bytes. change (Z.of_nat 8 * 8)%Z with 64%Z.
  destruct (Z.ltb_spec (64 - 1) j); [lia|]. unfold godiv, gorem.
  rewrite Z.quot_div_nonneg, Z.rem_mod_nonneg by lia.
  assert (0 ≤ (64 - j - 1) `div` 8 < 8)%Z as Hb
    by (split; [apply Z.div_pos; lia|apply Z.div_lt_upper_bound; lia]).
  unfold index_byte. destruct (Z.ltb_spec ((64 - j - 1) `div` 8) 0); [lia|].
  rewrite lookup_be_bytes by lia. unfold_O. f_equal.
  replace (8 * Z.of_nat (8 - 1 - Z.to_nat ((64 - j - 1) `div` 8)))%Z with (8 * (j `div` 8))%Z.
  2:{ pose proof (Z.div_mod j 8). pose proof (Z.mod_pos_bound j 8).
      assert ((64 - j - 1) `div` 8 = 7 - j `div` 8)%Z as ->; [|lia].
      symmetry. apply (Z.div_unique_pos _ _ _ (7 - j `mod` 8)); lia. }
  pose proof (Z.mod_pos_bound j 8). rewrite b2z_z2b. change 256%Z with (2 ^ 8)%Z. change 1%Z with (Z.ones 1) at 1.
  rewrite (Z.land_ones _ 1) by lia. change (2 ^ 1)%Z with 2%Z.
  rewrite <-Z.bit0_mod, Z.shiftr_spec by lia. rewrite Z.mod_pow2_bits_low by lia.
  rewrite Z.shiftr_spec by lia. do 2 f_equal. pose proof (Z.div_mod j 8). lia.
Qed.

Lemma bitsFrom_coords d i k : ∀ j : nat,
  validCoords d i → k ≤ j + 1 → j < 64 →
  bitsFrom k (Z.of_nat j) (coordsID d i) =
    Ok ((λ x, z2b (48 + Z.b2z (Z.testbit (i ≪ d) (Z.of_nat (j - x))))) <$> seq 0 k).
Proof.
  induction k as [|k IH]; intros j Hv Hk Hj; [done|]. cbn [bitsFrom]. rewrite Bit_coords by (done || lia).
  unfold_O. cbn [seq fmap list_fmap]. rewrite Nat.sub_0_r. destruct k as [|k].
  { done. }
  replace (Z.of_nat j - 1)%Z with (Z.of_nat (j - 1)) by lia. rewrite IH by (done || lia).
  do 2 f_equal. rewrite <-seq_shift, <-list_fmap_compose. apply list_fmap_ext. intros x y _. cbn.
  by replace (j - S y) with (j - 1 - y) by lia.
Qed.

(** The string of a node of a log, its key in maps. *)
Definition nodeKey (d i : Z) : bytes :=
  (λ x, z2b (48 + Z.b2z (Z.testbit (i ≪ d) (Z.of_nat (63 - x))))) <$> seq 0 (Z.to_nat (64 - d)).

Lemma String_NodeID_coords d i :
  validCoords d i → String_NodeID (coordsID d i) = Ok (nodeKey d i).
Proof.
  intros Hv. pose proof Hv as [Hd _]. unfold String_NodeID, PathLenBits. cbn [Path PrefixLenBits coordsID].
  rewrite length_be_bytes. change (Z.of_nat 8 * 8 - 1)%Z with (Z.of_nat 63).
  apply bitsFrom_coords; [done|lia|lia].
Qed.

Lemma nodeKey_inj d i d' i' :
  validCoords d i → validCoords d' i' → nodeKey d i = nodeKey d' i' → d = d' ∧ i = i'.
Proof.
  intros Hv Hv' E. pose proof Hv as [Hd _]. pose proof Hv' as [Hd' _].
  assert (d = d') as <-.
  { apply (f_equal length) in E. unfold nodeKey in E. rewrite !length_fmap, !length_seq in E. lia. }
  split; [done|]. pose proof (shiftl_coords _ _ Hv). pose proof (shiftl_coords _ _ Hv').
  assert ((i ≪ d) = (i' ≪ d))%Z as Es.
  { apply Z.bits_inj'. intros n Hn. destruct (Z.ltb_spec n d) as [Hlt|Hge].
    { by rewrite !Z.shiftl_spec_low by lia. }
    destruct (Z.leb_spec 64 n) as [Hge'|Hlt'].
    { assert (∀ z, 0 ≤ z < 2 ^ 64 → Z.testbit z n = false)%Z as Hhigh.
      { intros z Hz. rewrite <-(Z.mod_small z (2 ^ 64)) by done. by apply Z.mod_pow2_bits_high. }
      by rewrite !Hhigh. }
    apply (f_equal (.!! Z.to_nat (63 - n))) in E. unfold nodeKey in E.
    rewrite !list_lookup_fmap, !lookup_seq_lt in E by lia. cbn [fmap option_fmap option_map] in E.
    injection E as E. replace (Z.of_nat (63 - Z.to_nat (63 - n))) with n in E by lia.
    apply (f_equal b2z) in E.
    rewrite !b2z_z2b_small in E by (by destruct (Z.testbit _ _)).
    revert E. by destruct (Z.testbit (i ≪ d) n), (Z.testbit (i' ≪ d) n). }
  rewrite !Z.shiftl_mul_pow2 in Es by lia. apply Z.mul_cancel_r in Es; [done|]. apply Z.pow_nonzero; lia.
Qed.

(** ** Properties *)

(** [NewNodeIDForTreeCoords] maps the coordinates of a log tree of 64 levels to
    the path of the node padded with zeros, and refuses all others. *)
Theorem NewNodeIDForTreeCoords_exact depth index :
  int64 index → (depth ≤ 2 ^ 62)%Z →
  NewNodeIDForTreeCoords depth index 64 =
  if decide (0 ≤ depth ≤ 64 ∧ 0 ≤ index < 2 ^ (64 - depth))%Z
  then Ok (mkNodeID (be_bytes 8 (index ≪ depth)) (64 - depth))
  else Err err_coords.
Proof.
  intros Hi Hd. case_decide as Hv.
  - by apply NewNodeIDForTreeCoords_valid.
  - by apply NewNodeIDForTreeCoords_invalid.
Qed.

(** No two nodes of a log share a place: different coordinates split into a
    different subtree prefix or a different key within the subtree. *)
Theorem Split_coords_inj d i d' i' id id' px px' sx sx' :
  int64 i → int64 i' → (d < 64)%Z → (d' < 64)%Z →
  NewNodeIDForTreeCoords d i 64 = Ok id → NewNodeIDForTreeCoords d' i' 64 = Ok id' →
  Split (prefixLen d) 8 id = Ok (px, sx) → Split (prefixLen d') 8 id' = Ok (px', sx') →
  px = px' → String_Suffix sx = String_Suffix sx' → d = d' ∧ i = i'.
Proof.
  intros Hi Hi' Hd Hd' Hid Hid' Hs Hs' <- E.
  assert (validCoords d i) as Hv.
  { destruct (decide (0 ≤ d ≤ 64 ∧ 0 ≤ i < 2 ^ (64 - d))%Z); [done|].
    by rewrite NewNodeIDForTreeCoords_invalid in Hid by (done || lia). }
  assert (validCoords d' i') as Hv'.
  { destruct (decide (0 ≤ d' ≤ 64 ∧ 0 ≤ i' < 2 ^ (64 - d'))%Z); [done|].
    by rewrite NewNodeIDForTreeCoords_invalid in Hid' by (done || lia). }
  rewrite NewNodeIDForTreeCoords_valid in Hid, Hid' by done.
  injection Hid as <-. injection Hid' as <-.
  rewrite Split_coords in Hs, Hs' by done. injection Hs as <- <-. injection Hs' as Hp <-.
  apply coords_inj; try done. by apply String_Suffix_inj.
Qed.

(** [NewNodeIDFromPrefixSuffix] undoes [Split] on the nodes of a log. *)
Theorem Split_roundtrip depth index id :
  int64 index → (depth < 64)%Z → NewNodeIDForTreeCoords depth index 64 = Ok id →
  ∃ px sx, Split (prefixLen depth) 8 id = Ok (px, sx) ∧
    NewNodeIDFromPrefixSuffix px sx 64 = Ok id.
Proof.
  intros Hi Hd Hid. assert (validCoords depth index) as Hv.
  { destruct (decide (0 ≤ depth ≤ 64 ∧ 0 ≤ index < 2 ^ (64 - depth))%Z); [done|].
    by rewrite NewNodeIDForTreeCoords_invalid in Hid by (done || lia). }
  rewrite NewNodeIDForTreeCoords_valid in Hid by done. simplify_eq.
  exists (coordsPrefix depth index), (coordsSuffix depth index).
  split; [by apply Split_coords|]. pose proof Hv as [Hd0 _].
  destruct (prefixLen_bounds depth ltac:(lia)) as (Hp & Hs & _).
  pose proof (length_coordsPrefix depth index ltac:(lia)) as Hlen.
  unfold NewNodeIDFromPrefixSuffix, copy_into, slice_from.
  change (Z.to_nat (godiv 64 8)) with 8. rewrite length_replicate.
  rewrite (take_ge (coordsPrefix depth index)) by lia. rewrite length_app, drop_replicate, length_replicate.
  destruct (Z.ltb_spec (Z.of_nat (length (coordsPrefix depth index))) 0); [lia|].
  destruct (Z.ltb_spec (Z.of_nat (length (coordsPrefix depth index) +
    (8 - length (coordsPrefix depth index)))) (Z.of_nat (length (coordsPrefix depth index)))); [lia|].
  unfold_O. cbn [orb Z.ltb Z.compare]. rewrite Nat2Z.id, take_app_length, drop_app_length.
  unfold coordsID. rewrite (coords_path depth index Hv Hd). do 3 f_equal.
  - rewrite length_replicate. f_equal; [rewrite take_ge; [done|simpl; lia]|].
    rewrite drop_replicate. f_equal. simpl. lia.
  - cbn [coordsSuffix Bits]. rewrite b2z_z2b_small by lia. unfold suffixLen. lia.
Qed.

(** ** Witnesses *)

Lemma NewNodeIDForTreeCoords_exact_witness :
  NewNodeIDForTreeCoords 3 5 64 =
    Ok (mkNodeID [Byte.x00; Byte.x00; Byte.x00; Byte.x00; Byte.x00; Byte.x00; Byte.x00; Byte.x28] 61).
Proof. apply (NewNodeIDForTreeCoords_exact 3 5); [unfold int64|]; lia. Defined.

Lemma Split_coords_inj_witness :
  ∃ id px sx, NewNodeIDForTreeCoords 3 5 64 = Ok id ∧ Split (prefixLen 3) 8 id = Ok (px, sx) ∧
    String_Suffix sx = "BSg="%string ∧ (3 = 3 ∧ 5 = 5)%Z.
Proof.
  eexists _, _, _. split; [reflexivity|]. split; [reflexivity|]. split; [reflexivity|].
  eapply (Split_coords_inj 3 5 3 5); [unfold int64; lia|unfold int64; lia|lia|lia|
    reflexivity|reflexivity|reflexivity|reflexivity|reflexivity|reflexivity].
Defined.

Lemma Split_roundtrip_witness :
  ∃ id, NewNodeIDForTreeCoords 3 5 64 = Ok id ∧
  ∃ px sx, Split (prefixLen 3) 8 id = Ok (px, sx) ∧ NewNodeIDFromPrefixSuffix px sx 64 = Ok id.
Proof.
  eexists. split; [reflexivity|].
  apply (Split_roundtrip 3 5); [unfold int64; lia|lia|reflexivity].
Defined.
