(* ===== verification/SubtreeCache.v ===== *)
(** * The subtree cache (src/vendor/github.com/google/trillian/storage/cache)

    [subtree_cache.go] and [log_subtree_cache.go]: Merkle nodes are stored by
    subtrees of eight levels; the cache loads the subtrees it needs through a
    callback, keeps the changed ones dirty and writes them back on [Flush].
    The callbacks are stateful functions over a storage state [S]; the order of
    Go's map iterations is a parameter.  Maps read from storage that are nil in
    Go are empty here: the code replaces them before it writes to them, except
    for subtrees without leaves, which are never stored. *)

From S2P Require Import Prelude Keys Trillian Frontier Compact Nodes.

(** ** Data *)

Record stratumInfo := mkStratum { prefixBytes : Z; depth : Z }.

Record SubtreeCache := mkSubtreeCache {
  strata : list stratumInfo;
  subtrees : gmap bytes SubtreeProto;
  dirtyPrefixes : gset bytes
}.

Definition maxSupportedTreeDepth : Z := 256.
Definition depthQuantum : Z := 8.
Definition logStrataDepth : Z := 8.
Definition maxLogDepth : Z := 64.

Definition with_subtrees (m : gmap bytes SubtreeProto) (c : SubtreeCache) : SubtreeCache :=
  mkSubtreeCache (strata c) m (dirtyPrefixes c).

(** Updates of one field of a subtree. *)
Definition with_Leaves (m : gmap string bytes) (st : SubtreeProto) : SubtreeProto :=
  mkSubtreeProto (Prefix st) (Depth st) (SubtreeRootHash st) m (InternalNodes st)
    (InternalNodeCount st).
Definition with_InternalNodes (m : gmap string bytes) (st : SubtreeProto) : SubtreeProto :=
  mkSubtreeProto (Prefix st) (Depth st) (SubtreeRootHash st) (Leaves st) m
    (InternalNodeCount st).
Definition with_RootHash (h : slice) (st : SubtreeProto) : SubtreeProto :=
  mkSubtreeProto (Prefix st) (Depth st) h (Leaves st) (InternalNodes st) (InternalNodeCount st).
Definition with_InternalNodeCount (n : Z) (st : SubtreeProto) : SubtreeProto :=
  mkSubtreeProto (Prefix st) (Depth st) (SubtreeRootHash st) (Leaves st) (InternalNodes st) n.

(** [1 << uint(depth)] on int *)
Definition maxLeaves (st : SubtreeProto) : Z := shl64 1 (Depth st).

Definition numLeaves (st : SubtreeProto) : Z := Z.of_nat (size (Leaves st)).

Definition wrapU32 (z : Z) : Z := (z `mod` 2 ^ 32)%Z.

(** ** Log subtrees *)

Section populate.
Context (Sum256 : bytes → bytes).

Definition err_populate_depth : error := Errorf "populate log subtree with invalid depth: %d".
Definition err_nil_leaf : error := Errorf "unexpectedly got nil for subtree leaf suffix %s".
Definition err_seq : error := Errorf "got seq of %d, but expected %d".
Definition err_repop : error := Errorf "log repop got: %d internal nodes, want: %d".
Definition err_prepare_depth : error := Errorf "prepare subtree for log write invalid depth: %d".

(** The key of a node within a subtree. *)
Definition suffixKey (st : SubtreeProto) (subDepth index : Z) : outcome string :=
  let prefix := sl (Prefix st) in
  nodeID ← NewNodeIDFromPrefix prefix subDepth index logStrataDepth maxLogDepth;
  '(_, sfx) ← Split (Z.of_nat (length prefix)) (Depth st) nodeID;
  mret (String_Suffix sfx).

(** The callback that [populateLogSubtreeNodes] gives to the compact tree. *)
Definition populateNode (height index : Z) (h : slice) : M SubtreeProto unit :=
  if (height =? logStrataDepth)%Z && (index =? 0)%Z then mret ()
  else
    st ← get;
    sfxKey ← lift (suffixKey st (logStrataDepth - height) index);
    if (0 <? height)%Z && (numLeaves st =? maxLeaves st)%Z
    then put (with_InternalNodes (<[sfxKey := sl h]> (InternalNodes st)) st)
    else mret ().

(** The loop over the leaves, [n] of them left. *)
Fixpoint populateLoop (n : nat) (leafIndex : Z) : M (Tree * SubtreeProto) unit :=
  match n with
  | O => mret ()
  | S n' =>
      s ← get;
      sfxKey ← lift (suffixKey s.2 logStrataDepth leafIndex);
      match Leaves s.2 !! sfxKey with
      | None => fail err_nil_leaf
      | Some h =>
          seq ← AddLeafHash Sum256 populateNode (Some h);
          if negb (seq =? leafIndex)%Z then fail err_seq
          else populateLoop n' (leafIndex + 1)
      end
  end.

Definition populateLogSubtreeNodes : M SubtreeProto unit := λ st,
  if (Depth st <? 1)%Z then (Err err_populate_depth, st)
  else
    let st := if (numLeaves st =? maxLeaves st)%Z then with_InternalNodes ∅ st else st in
    match populateLoop (size (Leaves st)) 0 (NewTree Sum256, st) with
    | (Ok _, (cmt, st)) =>
        let st := with_RootHash (CurrentRoot cmt) st in
        if negb (wrapU32 (Z.of_nat (size (InternalNodes st))) =? InternalNodeCount st)%Z
        then (Err err_repop, st) else (Ok (), st)
    | (Err e, (_, st)) => (Err e, st)
    | (Panic, (_, st)) => (Panic, st)
    end.

Definition prepareLogSubtreeWrite : M SubtreeProto unit := λ st,
  let st := with_InternalNodeCount (wrapU32 (Z.of_nat (size (InternalNodes st)))) st in
  if (Depth st <? 1)%Z then (Err err_prepare_depth, st)
  else if (numLeaves st =? maxLeaves st)%Z then (Ok (), with_InternalNodes ∅ st)
  else (Ok (), st).
End populate.

(** ** The cache *)

(** The strata of one depth: [k] entries that start at [t] bits. *)
Fixpoint addStrata (k : nat) (pb sDepth t : Z) : list stratumInfo * Z :=
  match k with
  | O => ([], t)
  | S k' =>
      let '(rest, t') := addStrata k' pb sDepth (t + depthQuantum) in
      (mkStratum pb sDepth :: rest, t')
  end.

Fixpoint buildStrata (t : Z) (strataDepths : list Z) : outcome (list stratumInfo * Z) :=
  match strataDepths with
  | [] => Ok ([], t)
  | sDepth :: rest =>
      if (sDepth <=? 0)%Z then Panic
      else if negb (gorem sDepth depthQuantum =? 0)%Z then Panic
      else
        let '(here, t) := addStrata (Z.to_nat (godiv sDepth depthQuantum)) (godiv t depthQuantum) sDepth t in
        '(more, t) ← buildStrata t rest;
        mret (here ++ more, t)
  end.

Definition NewSubtreeCache (strataDepths : list Z) : outcome SubtreeCache :=
  '(sInfo, t) ← buildStrata 0 strataDepths;
  if negb (t =? maxSupportedTreeDepth)%Z then Panic
  else Ok (mkSubtreeCache sInfo ∅ ∅).

Definition stratumInfoForPrefixLength (c : SubtreeCache) (numBits : Z) : outcome stratumInfo :=
  let i := godiv numBits depthQuantum in
  if (i <? 0)%Z then Panic
  else match strata c !! Z.to_nat i with Some s => Ok s | None => Panic end.

Definition splitNodeID (c : SubtreeCache) (id : NodeID) : outcome (bytes * Suffix) :=
  sInfo ← stratumInfoForPrefixLength c (PrefixLenBits id - 1);
  Split (prefixBytes sInfo) (depth sInfo) id.

Definition newEmptySubtree (c : SubtreeCache) (id : NodeID) (px : bytes) : outcome SubtreeProto :=
  sInfo ← stratumInfoForPrefixLength c (PrefixLenBits id);
  mret (mkSubtreeProto (Some px) (depth sInfo) None ∅ ∅ 0).

Definition err_clobber : error := Errorf "preload tried to clobber existing subtree for: %v".
Definition err_trees : error := Errorf "got %d trees, want: 1".
Definition err_cache_nil : error :=
  Errorf "internal error, subtree cache for %v is nil after a read attempt".
Definition err_nil_prefix : error := Errorf "nil prefix for %v (key %v)".
Definition err_inconsistent : error :=
  Errorf "inconsistent cache: prefix key is %v, but cached object claims %v".

Record Node := mkNode { nodeID : NodeID; Hash : slice }.

Section cache.
Context {S : Type}.
Context (populate prepare : M SubtreeProto unit).
Context `{!MapRange bytes}.

(** The subtrees that [preload] has to read. *)
Fixpoint wantedSubtrees (c : SubtreeCache) (want : gmap bytes NodeID) (ids : list NodeID)
    : outcome (gmap bytes NodeID) :=
  match ids with
  | [] => Ok want
  | id :: ids' =>
      '(px, _) ← splitNodeID c id;
      let id := mkNodeID (Path id) (Z.of_nat (length px) * depthQuantum) in
      wantedSubtrees c
        (match subtrees c !! px with None => <[px := id]> want | Some _ => want end) ids'
  end.

(** Subtrees read from storage; the error of [populate] is dropped. *)
Fixpoint storeLoaded (want : gmap bytes NodeID) (ts : list SubtreeProto)
    : M SubtreeCache (gmap bytes NodeID) :=
  match ts with
  | [] => mret want
  | t :: ts' =>
      t ← (match populate t with (Panic, _) => panic | (_, t) => mret t end);
      let px := sl (Prefix t) in
      _ ← modify (λ c, with_subtrees (<[px := t]> (subtrees c)) c);
      storeLoaded (delete px want) ts'
  end.

Fixpoint storeEmpty (ids : list (bytes * NodeID)) : M SubtreeCache unit :=
  match ids with
  | [] => mret ()
  | (_, id) :: ids' =>
      px ← lift (slice_to (Path id) (godiv (PrefixLenBits id) depthQuantum));
      c ← get;
      match subtrees c !! px with
      | Some _ => fail err_clobber
      | None =>
          st ← lift (newEmptySubtree c id px);
          _ ← modify (λ c, with_subtrees (<[px := st]> (subtrees c)) c);
          storeEmpty ids'
      end
  end.

(** The cache and the storage it reads from. *)
Definition onCache {A} (m : M SubtreeCache A) : M (SubtreeCache * S) A :=
  zoom fst (λ c s, (c, s.2)) m.
Definition onStore {A} (m : M S A) : M (SubtreeCache * S) A :=
  zoom snd (λ d s, (s.1, d)) m.

Definition preload (ids : list NodeID) (getSubtrees : list NodeID → M S (list SubtreeProto))
    : M (SubtreeCache * S) unit :=
  s ← get;
  want ← lift (wantedSubtrees s.1 ∅ ids);
  if (size want =? 0)%nat then mret ()
  else
    ts ← onStore (getSubtrees (map_range want).*2);
    want ← onCache (storeLoaded want ts);
    onCache (storeEmpty (map_range want)).

(** [getNodeHashUnderLock]; [getSubtree] returns nil as [None]. *)
Definition getNodeHashUnderLock (id : NodeID)
    (getSubtree : NodeID → M S (option SubtreeProto)) : M (SubtreeCache * S) slice :=
  s ← get;
  '(px, sx) ← lift (splitNodeID s.1 id);
  c ← match subtrees s.1 !! px with
      | Some c => mret c
      | None =>
          let subID := mkNodeID (Path id) (Z.of_nat (length px) * depthQuantum) in
          r ← onStore (getSubtree subID);
          c ← match r with
              | None => lift (newEmptySubtree s.1 subID px)
              | Some c => match populate c with (Ok _, c) => mret c | (Err e, _) => fail e
                          | (Panic, _) => panic end
              end;
          match Prefix c with
          | None => panic
          | Some _ =>
              _ ← onCache (modify (λ sc, with_subtrees (<[px := c]> (subtrees sc)) sc));
              mret c
          end
      end;
  let sfxKey := String_Suffix sx in
  mret (if (b2z (Bits sx) =? Depth c)%Z then Leaves c !! sfxKey else InternalNodes c !! sfxKey).

(** The callback of [GetNodes] for a subtree that was not preloaded. *)
Definition getOne (getSubtrees : list NodeID → M S (list SubtreeProto)) (n : NodeID)
    : M S (option SubtreeProto) :=
  ret ← getSubtrees [n];
  match ret with
  | [] => mret None
  | [t] => mret (Some t)
  | _ => fail err_trees
  end.

Definition GetNodes (ids : list NodeID) (getSubtrees : list NodeID → M S (list SubtreeProto))
    : M (SubtreeCache * S) (list Node) :=
  _ ← preload ids getSubtrees;
  mfold (λ ret id,
    h ← getNodeHashUnderLock id (getOne getSubtrees);
    mret (match h with Some _ => ret ++ [mkNode id h] | None => ret end)) [] ids.

(** A nil hash is stored as an empty one: it reads back as [bytes.Equal] to it. *)
Definition SetNodeHash (id : NodeID) (h : slice)
    (getSubtree : NodeID → M S (option SubtreeProto)) : M (SubtreeCache * S) unit :=
  s ← get;
  '(px, sx) ← lift (splitNodeID s.1 id);
  c ← match subtrees s.1 !! px with
      | Some c => mret c
      | None =>
          _ ← getNodeHashUnderLock id getSubtree;
          s ← get;
          match subtrees s.1 !! px with Some c => mret c | None => fail err_cache_nil end
      end;
  match Prefix c with
  | None => fail err_nil_prefix
  | Some _ =>
      let sfxKey := String_Suffix sx in
      let leaf := (b2z (Bits sx) =? Depth c)%Z in
      let old := if leaf then Leaves c !! sfxKey else InternalNodes c !! sfxKey in
      if bytes_Equal old h then mret ()
      else
        let c := if leaf then with_Leaves (<[sfxKey := sl h]> (Leaves c)) c
                 else with_InternalNodes (<[sfxKey := sl h]> (InternalNodes c)) c in
        onCache (modify (λ sc, mkSubtreeCache (strata sc) (<[px := c]> (subtrees sc))
                                 ({[ px ]} ∪ dirtyPrefixes sc)))
  end.

(** The loop of [Flush] over the cached subtrees: those to write, in order. *)
Fixpoint flushLoop (ts : list (bytes * SubtreeProto)) (treesToWrite : list SubtreeProto)
    : M SubtreeCache (list SubtreeProto) :=
  match ts with
  | [] => mret treesToWrite
  | (k, v) :: ts' =>
      c ← get;
      if bool_decide (k ∈ dirtyPrefixes c) then
        if negb (bytes_Equal (Some k) (Prefix v)) then fail err_inconsistent
        else
          let v := with_RootHash None v in
          if (0 <? size (Leaves v))%nat then
            let '(o, v) := prepare v in
            _ ← modify (λ c, with_subtrees (<[k := v]> (subtrees c)) c);
            _ ← lift o;
            flushLoop ts' (treesToWrite ++ [v])
          else
            _ ← modify (λ c, with_subtrees (<[k := v]> (subtrees c)) c);
            flushLoop ts' treesToWrite
      else flushLoop ts' treesToWrite
  end.

Definition Flush (setSubtrees : list SubtreeProto → M S unit) : M (SubtreeCache * S) unit :=
  s ← get;
  treesToWrite ← onCache (flushLoop (map_range (subtrees s.1)) []);
  if (length treesToWrite =? 0)%nat then mret ()
  else onStore (setSubtrees treesToWrite).
End cache.

(** [NewLogSubtreeCache]: the populate and prepare functions of log subtrees. *)
Definition NewLogSubtreeCache (logStrata : list Z) : outcome SubtreeCache :=
  NewSubtreeCache logStrata.

(** ** What the cache holds *)

(** [defaultLogStrata] *)
Definition logStrata : list Z := replicate 32 8%Z.

Definition logStrataInfo : list stratumInfo :=
  (λ i, mkStratum (Z.of_nat i) 8) <$> seq 0 32.

(** A subtree under its own prefix, of the depth and size logs use. *)
Definition wf_subtree (px : bytes) (st : SubtreeProto) : Prop :=
  Prefix st = Some px ∧ Depth st = 8%Z ∧ length px ≤ 7.

Record wf_cache (c : SubtreeCache) : Prop := {
  wf_strata : strata c = logStrataInfo;
  wf_subtrees px st : subtrees c !! px = Some st → wf_subtree px st;
  wf_dirty px : px ∈ dirtyPrefixes c → is_Some (subtrees c !! px)
}.

(** The hash a subtree holds for a node, leaves and internal nodes alike. *)
Definition subtreeHash (st : SubtreeProto) (d i : Z) : slice :=
  let key := String_Suffix (coordsSuffix d i) in
  if (suffixLen d =? 8)%Z then Leaves st !! key else InternalNodes st !! key.

(** The hash the cache holds for a node of a loaded subtree. *)
Definition cachedHash (c : SubtreeCache) (d i : Z) : slice :=
  st ← subtrees c !! coordsPrefix d i;
  subtreeHash st d i.

(** ** Lemmas *)

Lemma NewLogSubtreeCache_Ok :
  NewLogSubtreeCache logStrata = Ok (mkSubtreeCache logStrataInfo ∅ ∅).
Proof. vm_compute. reflexivity. Qed.

Lemma wf_new_cache : wf_cache (mkSubtreeCache logStrataInfo ∅ ∅).
Proof.
  split; [done|by intros px st H|]. intros px H. simpl in H. by apply elem_of_empty in H.
Qed.

Lemma strata_lookup c i :
  strata c = logStrataInfo → (0 ≤ i < 256)%Z →
  stratumInfoForPrefixLength c i = Ok (mkStratum (i `div` 8) 8).
Proof.
  intros Hs Hi. unfold stratumInfoForPrefixLength, godiv, depthQuantum.
  rewrite Z.quot_div_nonneg by lia.
  assert (0 ≤ i `div` 8 < 32)%Z.
  { split; [apply Z.div_pos; lia|apply Z.div_lt_upper_bound; lia]. }
  destruct (Z.ltb_spec (i `div` 8) 0); [lia|]. rewrite Hs. unfold logStrataInfo.
  rewrite list_lookup_fmap, lookup_seq_lt by lia. simpl. do 2 f_equal. lia.
Qed.

Lemma splitNodeID_coords c d i :
  strata c = logStrataInfo → validCoords d i → (d < 64)%Z →
  splitNodeID c (coordsID d i) = Ok (coordsPrefix d i, coordsSuffix d i).
Proof.
  intros Hs Hv Hd. pose proof Hv as [Hd0 _]. unfold splitNodeID. cbn [PrefixLenBits coordsID].
  rewrite strata_lookup by (done || lia). unfold_O. cbn [prefixBytes depth].
  replace (64 - d - 1)%Z with (63 - d)%Z by lia. by apply Split_coords.
Qed.

Lemma bits_coordsSuffix d i :
  (0 ≤ d < 64)%Z → b2z (Bits (coordsSuffix d i)) = suffixLen d.
Proof.
  intros Hd. destruct (prefixLen_bounds d Hd) as (_ & Hs & _).
  simpl. by rewrite b2z_z2b_small by lia.
Qed.

(** Keys of different nodes of one subtree differ. *)
Lemma coords_key_inj d i d' i' :
  validCoords d i → validCoords d' i' → (d < 64)%Z → (d' < 64)%Z →
  coordsPrefix d i = coordsPrefix d' i' →
  String_Suffix (coordsSuffix d i) = String_Suffix (coordsSuffix d' i') → d = d' ∧ i = i'.
Proof. intros. apply coords_inj; try done. by apply String_Suffix_inj. Qed.

Section facts.
Context {S : Type}.
Context (populate prepare : M SubtreeProto unit).

(** A node of a loaded subtree is read without touching the storage. *)
Lemma getNodeHash_loaded c (s : S) d i getSubtree :
  wf_cache c → validCoords d i → (d < 64)%Z → is_Some (subtrees c !! coordsPrefix d i) →
  getNodeHashUnderLock populate (coordsID d i) getSubtree (c, s) = (Ok (cachedHash c d i), (c, s)).
Proof.
  intros Hc Hv Hd [st Hst]. pose proof Hv as [Hd0 _].
  unfold getNodeHashUnderLock, cachedHash. unfold_M. cbn [fst snd].
  rewrite splitNodeID_coords by (done || apply Hc). rewrite Hst. simpl.
  unfold subtreeHash. destruct (wf_subtrees c Hc _ _ Hst) as (_ & Hdep & _).
  destruct (prefixLen_bounds d ltac:(lia)) as (_ & Hs & _).
  rewrite b2z_z2b_small, Hdep by lia. done.
Qed.

(** A subtree with another hash for one node. *)
Definition setAt (d i : Z) (h : bytes) (st : SubtreeProto) : SubtreeProto :=
  let key := String_Suffix (coordsSuffix d i) in
  if (suffixLen d =? 8)%Z then with_Leaves (<[key := h]> (Leaves st)) st
  else with_InternalNodes (<[key := h]> (InternalNodes st)) st.

Lemma setAt_wf px d i h st : wf_subtree px st → wf_subtree px (setAt d i h st).
Proof. unfold setAt. by destruct (suffixLen d =? 8)%Z. Qed.

Lemma subtreeHash_setAt d i h st d' i' :
  validCoords d i → validCoords d' i' → (d < 64)%Z → (d' < 64)%Z →
  coordsPrefix d i = coordsPrefix d' i' →
  subtreeHash (setAt d i h st) d' i' =
    if decide (d = d' ∧ i = i') then Some h else subtreeHash st d' i'.
Proof.
  intros Hv Hv' Hd Hd' Ep. unfold subtreeHash, setAt. case_decide as E.
  - destruct E as [<- <-]. by destruct (suffixLen d =? 8)%Z; cbn; rewrite lookup_insert_eq.
  - assert (String_Suffix (coordsSuffix d i) ≠ String_Suffix (coordsSuffix d' i')) as Hne
      by (intros Ek; by apply E, coords_key_inj).
    destruct (suffixLen d' =? 8)%Z, (suffixLen d =? 8)%Z; cbn; by rewrite ?lookup_insert_ne.
Qed.

(** Setting the hash that is there changes nothing. *)
Lemma setAt_id d i h st : subtreeHash st d i = Some h → setAt d i h st = st.
Proof.
  unfold subtreeHash, setAt. intros E. destruct st.
  destruct (suffixLen d =? 8)%Z; cbn in *; unfold with_Leaves, with_InternalNodes; cbn; by rewrite insert_id.
Qed.

(** Writing a node of a loaded subtree. *)
Definition writeNode (c : SubtreeCache) (d i : Z) (h : bytes) : SubtreeCache :=
  match subtrees c !! coordsPrefix d i with
  | None => c
  | Some st =>
      mkSubtreeCache (strata c) (<[coordsPrefix d i := setAt d i h st]> (subtrees c))
        ({[ coordsPrefix d i ]} ∪ dirtyPrefixes c)
  end.

Lemma SetNodeHash_loaded c (s : S) d i h getSubtree :
  wf_cache c → validCoords d i → (d < 64)%Z → is_Some (subtrees c !! coordsPrefix d i) →
  SetNodeHash populate (coordsID d i) (Some h) getSubtree (c, s) =
    (Ok (), (if bytes_Equal (cachedHash c d i) (Some h) then c else writeNode c d i h, s)).
Proof.
  intros Hc Hv Hd [st Hst]. pose proof Hv as [Hd0 _].
  unfold SetNodeHash, cachedHash, writeNode, onCache. unfold_M. cbn [fst snd].
  rewrite splitNodeID_coords by (done || apply Hc). rewrite Hst. cbn [fst snd option_bind].
  destruct (wf_subtrees c Hc _ _ Hst) as (Hpx & Hdep & _). rewrite Hpx.
  rewrite bits_coordsSuffix, Hdep by lia. unfold subtreeHash, setAt.
  by destruct (suffixLen d =? 8)%Z; case_match.
Qed.

Lemma writeNode_wf c d i h : wf_cache c → wf_cache (writeNode c d i h).
Proof.
  intros Hc. unfold writeNode. destruct (subtrees c !! _) as [st|] eqn:Hst; [|done].
  destruct (wf_subtrees c Hc _ _ Hst) as (Hpx & Hdep & Hl). split; simpl.
  - apply Hc.
  - intros px st' H. rewrite lookup_insert in H. case_decide as E; [|by apply Hc].
    injection H as <-. subst px. apply setAt_wf. by split_and!.
  - intros px. rewrite elem_of_union, elem_of_singleton, lookup_insert_is_Some'.
    intros [->|Hd]; [by left|]. right. by apply Hc.
Qed.

End facts.

(** ** The cache as a map from coordinates to hashes *)

Section refinement.
Context {S : Type} `{!MapRange bytes, !MapRangeLaws bytes}.
Context (populate : M SubtreeProto unit).

(** A storage that holds at most one subtree for a prefix, and reads it without
    failing; what it holds can be populated. *)
Context (store : bytes → option SubtreeProto).
Context (getSubtrees : list NodeID → M S (list SubtreeProto)).

Definition idPrefix (id : NodeID) : bytes :=
  take (Z.to_nat (PrefixLenBits id `div` 8)) (Path id).

(** A wanted subtree: its identifier carries its prefix. *)
Definition wanted_id '((px, id) : bytes * NodeID) : Prop :=
  PrefixLenBits id = (Z.of_nat (length px) * 8)%Z ∧ length px ≤ 7 ∧
  length (Path id) = 8 ∧ take (length px) (Path id) = px.

Definition subtreeID (id : NodeID) : Prop := ∃ px, wanted_id (px, id).

Record storage_ok (s : S) : Prop := {
  storage_reads ids : Forall subtreeID ids →
    getSubtrees ids s = (Ok (omap (store ∘ idPrefix) ids), s);
  storage_wf px st : store px = Some st →
    ∃ st', populate st = (Ok (), st') ∧ wf_subtree px st'
}.

(** The subtree of a prefix as the cache would load it. *)
Definition view (px : bytes) : SubtreeProto :=
  match store px with
  | Some st => snd (populate st)
  | None => mkSubtreeProto (Some px) 8 None ∅ ∅ 0
  end.

(** The subtree of a prefix, loaded or not. *)
Definition cur (c : SubtreeCache) (px : bytes) : SubtreeProto := default (view px) (subtrees c !! px).

(** The abstract state: the hash of every node, loaded or not. *)
Definition abs (c : SubtreeCache) (d i : Z) : slice := subtreeHash (cur c (coordsPrefix d i)) d i.

(** Loading subtrees does not change it. *)
Definition loadAll (L : list bytes) (c : SubtreeCache) : SubtreeCache :=
  fold_left (λ c px, with_subtrees (<[px := view px]> (subtrees c)) c) L c.

Lemma lookup_loadAll L c px :
  subtrees (loadAll L c) !! px = if decide (px ∈ L) then Some (view px) else subtrees c !! px.
Proof.
  revert c. induction L as [|x L IH]; intros c.
  { by rewrite decide_False by apply not_elem_of_nil. }
  unfold loadAll in *. cbn [fold_left]. rewrite IH. cbn [with_subtrees subtrees].
  destruct (decide (px ∈ L)); [by rewrite decide_True by (by right)|].
  destruct (decide (x = px)) as [->|E].
  - by rewrite lookup_insert_eq, decide_True by left.
  - rewrite lookup_insert_ne by done. rewrite decide_False; [done|].
    rewrite elem_of_cons. naive_solver.
Qed.

Lemma strata_loadAll L c :
  strata (loadAll L c) = strata c ∧ dirtyPrefixes (loadAll L c) = dirtyPrefixes c.
Proof.
  revert c. induction L as [|x L IH]; intros c; [done|]. unfold loadAll in *. simpl.
  by destruct (IH (with_subtrees (<[x := view x]> (subtrees c)) c)) as [-> ->].
Qed.

Lemma loadAll_app L1 L2 c : loadAll (L1 ++ L2) c = loadAll L2 (loadAll L1 c).
Proof. apply fold_left_app. Qed.

Lemma cur_loadAll L c px :
  (∀ px, px ∈ L → subtrees c !! px = None) → cur (loadAll L c) px = cur c px.
Proof.
  intros HL. unfold cur. rewrite lookup_loadAll. case_decide as E; [|done].
  by rewrite (HL _ E).
Qed.

Lemma abs_loadAll L c d i :
  (∀ px, px ∈ L → subtrees c !! px = None) → abs (loadAll L c) d i = abs c d i.
Proof. intros HL. unfold abs. by rewrite cur_loadAll. Qed.

Lemma view_wf s px : storage_ok s → length px ≤ 7 → wf_subtree px (view px).
Proof.
  intros Hs Hl. unfold view. destruct (store px) as [st|] eqn:E; [|done].
  destruct (storage_wf s Hs px st E) as (st' & -> & H). done.
Qed.

Lemma loadAll_wf s L c :
  storage_ok s → wf_cache c → Forall (λ px, length px ≤ 7) L → wf_cache (loadAll L c).
Proof.
  intros Hs Hc HL. rewrite Forall_forall in HL. destruct (strata_loadAll L c) as [E1 E2]. split.
  - rewrite E1. apply Hc.
  - intros px st. rewrite lookup_loadAll. case_decide; [|apply Hc].
    intros [= <-]. eapply view_wf; [done|]. by apply HL.
  - intros px. rewrite E2, lookup_loadAll. case_decide; [by eexists|apply Hc].
Qed.

Lemma wanted_idPrefix px id : wanted_id (px, id) → idPrefix id = px.
Proof.
  intros (H1 & _ & _ & H2). unfold idPrefix. rewrite H1, Z.div_mul by lia.
  by rewrite Nat2Z.id.
Qed.

Lemma storeLoaded_spec s L want c :
  storage_ok s →
  storeLoaded populate want (omap store L) c =
    (Ok (fold_left (λ m px, delete px m) (filter (λ px, is_Some (store px)) L) want),
     loadAll (filter (λ px, is_Some (store px)) L) c).
Proof.
  intros Hs. revert want c. induction L as [|px L IH]; intros want c; [done|].
  rewrite filter_cons. cbn [omap list_omap]. destruct (store px) as [st|] eqn:E.
  - rewrite decide_True by done. destruct (storage_wf s Hs px st E) as (st' & Hp & Hw & _).
    cbn [storeLoaded]. unfold_M. rewrite Hp, Hw. cbn [sl default]. rewrite IH. cbn [fold_left].
    unfold loadAll. cbn [fold_left]. unfold view at 3. rewrite E, Hp. done.
  - rewrite decide_False by (by intros []). apply IH.
Qed.

Lemma storeEmpty_spec L c :
  strata c = logStrataInfo → Forall wanted_id L → NoDup L.*1 →
  (∀ px, px ∈ L.*1 → store px = None ∧ subtrees c !! px = None) →
  storeEmpty L c = (Ok (), loadAll L.*1 c).
Proof.
  revert c. induction L as [|[px id] L IH]; intros c Hst Hw Hnd HL; [done|].
  apply Forall_cons in Hw as [Hid Hw]. apply NoDup_cons in Hnd as [Hpx Hnd].
  pose proof Hid as (H1 & H2 & H3 & H4). cbn [storeEmpty].
  destruct (HL px ltac:(by left)) as [Hs Hc]. unfold slice_to, godiv, depthQuantum.
  rewrite H1, Z.quot_mul by lia.
  destruct (Z.ltb_spec (Z.of_nat (length px)) 0); [lia|].
  destruct (Z.ltb_spec (Z.of_nat (length (Path id))) (Z.of_nat (length px))); [lia|].
  cbn [orb]. rewrite Nat2Z.id, H4. unfold_M. rewrite Hc.
  unfold newEmptySubtree. rewrite H1, strata_lookup by (done || lia).
  unfold_O. cbn [depth]. rewrite IH; [|done|done|done|].
  - unfold loadAll. cbn [fold_left fmap list_fmap fst]. unfold view at 3. by rewrite Hs.
  - intros px' Hpx'. split; [apply HL; by right|]. simpl.
    rewrite lookup_insert_ne by (intros ->; done). apply HL. by right.
Qed.

Definition logNode '((d, i) : Z * Z) : Prop := validCoords d i ∧ (d < 64)%Z.
Definition logID '((d, i) : Z * Z) : NodeID := coordsID d i.
Definition logPrefix '((d, i) : Z * Z) : bytes := coordsPrefix d i.

Lemma length_logPrefix x : logNode x → length (logPrefix x) ≤ 7.
Proof.
  destruct x as [d i]. intros [[Hd0 _] Hd]. simpl.
  pose proof (length_coordsPrefix d i ltac:(lia)).
  destruct (prefixLen_bounds d ltac:(lia)). lia.
Qed.

Lemma logNode_wanted x :
  logNode x →
  wanted_id (logPrefix x,
    mkNodeID (Path (logID x)) (Z.of_nat (length (logPrefix x)) * depthQuantum)).
Proof.
  intros Hx. pose proof (length_logPrefix x Hx) as Hl. destruct x as [d i].
  destruct Hx as [[Hd0 _] Hd]. cbn [logPrefix logID Path coordsID] in *.
  pose proof (length_coordsPrefix d i ltac:(lia)) as Hp.
  split; [done|]. split; [done|]. cbn [Path]. rewrite length_be_bytes. split; [done|].
  unfold coordsPrefix at 2. replace (length (coordsPrefix d i)) with (Z.to_nat (prefixLen d)) by lia.
  done.
Qed.

Lemma wantedSubtrees_spec c cs want :
  strata c = logStrataInfo → Forall logNode cs →
  ∃ want', wantedSubtrees c want (logID <$> cs) = Ok want' ∧
    (map_Forall (λ px id, wanted_id (px, id) ∧ subtrees c !! px = None) want →
     map_Forall (λ px id, wanted_id (px, id) ∧ subtrees c !! px = None) want') ∧
    (∀ px, is_Some (want !! px) → is_Some (want' !! px)) ∧
    (∀ x, x ∈ cs → subtrees c !! logPrefix x = None → is_Some (want' !! logPrefix x)).
Proof.
  intros Hst. revert want. induction cs as [|x cs IH]; intros want Hcs.
  { exists want. split; [done|]. split; [done|]. split; [done|]. intros x Hx.
    by apply elem_of_nil in Hx. }
  apply Forall_cons in Hcs as [Hx Hcs]. pose proof (logNode_wanted x Hx) as Hid.
  rewrite fmap_cons. cbn [wantedSubtrees].
  assert (∃ sx, splitNodeID c (logID x) = Ok (logPrefix x, sx)) as [sx Hsx].
  { destruct x as [d i], Hx. eexists. by apply splitNodeID_coords. }
  unfold_O. rewrite Hsx. cbn zeta.
  set (id' := mkNodeID (Path (logID x)) (Z.of_nat (length (logPrefix x)) * depthQuantum)) in *.
  destruct (IH (match subtrees c !! logPrefix x with
    | None => <[logPrefix x := id']> want | Some _ => want end) Hcs) as (want' & Hw & H1 & H2 & H3).
  exists want'. split; [exact Hw|]. split_and!.
  - intros Hf. apply H1. destruct (subtrees c !! logPrefix x) eqn:E; [done|].
    by apply map_Forall_insert_2.
  - intros px Hpx. apply H2. destruct (subtrees c !! logPrefix x) eqn:E; [done|].
    rewrite lookup_insert_is_Some'. by right.
  - intros y [->|Hy]%elem_of_cons Hn; [|by apply H3]. apply H2. rewrite Hn.
    by rewrite lookup_insert_eq.
Qed.

Lemma lookup_deletes {V} (L : list bytes) (m : gmap bytes V) px :
  fold_left (λ m px, delete px m) L m !! px = if decide (px ∈ L) then None else m !! px.
Proof.
  revert m. induction L as [|x L IH]; intros m.
  { by rewrite decide_False by apply not_elem_of_nil. }
  cbn [fold_left]. rewrite IH. destruct (decide (px ∈ L)).
  { by rewrite decide_True by (by right). }
  destruct (decide (x = px)) as [->|E].
  - by rewrite lookup_delete_eq, decide_True by left.
  - rewrite lookup_delete_ne by done. rewrite decide_False; [done|].
    rewrite elem_of_cons. naive_solver.
Qed.

Lemma elem_of_map_range {V} (m : gmap bytes V) px v :
  (px, v) ∈ map_range m ↔ m !! px = Some v.
Proof. rewrite map_range_perm. apply elem_of_map_to_list. Qed.

Lemma NoDup_map_range {V} (m : gmap bytes V) : NoDup (map_range m).*1.
Proof. rewrite map_range_perm. apply NoDup_fst_map_to_list. Qed.

Lemma elem_of_map_range_fst {V} (m : gmap bytes V) px :
  px ∈ (map_range m).*1 ↔ is_Some (m !! px).
Proof.
  rewrite list_elem_of_fmap. split.
  - intros ([px' v] & -> & H%elem_of_map_range). by eexists.
  - intros [v Hv]. exists (px, v). split; [done|]. by apply elem_of_map_range.
Qed.

Lemma omap_store_ids (L : list (bytes * NodeID)) :
  Forall wanted_id L → omap (store ∘ idPrefix) L.*2 = omap store L.*1.
Proof.
  induction 1 as [|[px id] L Hid HL IH]; [done|]. cbn [fmap list_fmap omap list_omap fst snd].
  unfold compose at 1. rewrite (wanted_idPrefix _ _ Hid).
  destruct (store px); [f_equal|]; apply IH.
Qed.

(** [preload] loads subtrees that were not in the cache, those of the nodes
    among them. *)
Lemma preload_spec s c cs :
  storage_ok s → wf_cache c → Forall logNode cs →
  ∃ L, preload populate (logID <$> cs) getSubtrees (c, s) = (Ok (), (loadAll L c, s)) ∧
    (∀ px, px ∈ L → subtrees c !! px = None ∧ length px ≤ 7) ∧
    (∀ x, x ∈ cs → is_Some (subtrees (loadAll L c) !! logPrefix x)).
Proof.
  intros Hs Hc Hcs.
  destruct (wantedSubtrees_spec c cs ∅ (wf_strata c Hc) Hcs) as (want & Hw & H1 & _ & H3).
  specialize (H1 (map_Forall_empty _)). unfold preload. unfold_M. cbn [fst]. rewrite Hw.
  destruct (Nat.eqb_spec (size want) 0) as [Hz|Hz].
  { apply map_size_empty_inv in Hz. subst want. exists []. split; [done|].
    split; [intros px Hpx; by apply elem_of_nil in Hpx|].
    intros x Hx. unfold loadAll. simpl. apply not_eq_None_Some. intros Hn.
    destruct (H3 x Hx Hn) as [? H]. by rewrite lookup_empty in H. }
  assert (Forall wanted_id (map_range want)) as Hids.
  { rewrite Forall_forall. intros [px id] Hin%elem_of_map_range. by apply H1 in Hin as [? _]. }
  unfold onStore, onCache. unfold_M. cbn [fst snd].
  rewrite (storage_reads s Hs), omap_store_ids;
    [|done|apply Forall_fmap; eapply Forall_impl; [exact Hids|intros [px id] ?; by exists px]].
  set (K := (map_range want).*1). set (L1 := filter (λ px, is_Some (store px)) K).
  rewrite (storeLoaded_spec s) by done. fold L1. cbn [fst snd].
  set (want2 := fold_left (λ m px, delete px m) L1 want).
  assert (∀ px id, want2 !! px = Some id ↔ px ∉ L1 ∧ want !! px = Some id) as Hw2.
  { intros px id. unfold want2. rewrite lookup_deletes. case_decide; naive_solver. }
  rewrite storeEmpty_spec.
  - exists (L1 ++ (map_range want2).*1). rewrite loadAll_app. split; [done|].
    assert (∀ px, px ∈ L1 ++ (map_range want2).*1 ↔ is_Some (want !! px)) as Hmem.
    { intros px. rewrite elem_of_app, elem_of_map_range_fst. split.
      - intros [[_ Hin]%list_elem_of_filter|[id [_ Hid]%Hw2]]; [|by eexists].
        by apply elem_of_map_range_fst in Hin.
      - intros [id Hid]. destruct (decide (px ∈ L1)); [by left|]. right. exists id. by apply Hw2. }
    split.
    + intros px [id Hid]%Hmem. apply H1 in Hid as [(_ & ? & _) ?]. done.
    + intros x Hx. rewrite <-loadAll_app, lookup_loadAll. case_decide as E; [by eexists|].
      apply not_eq_None_Some. intros Hn. apply E, Hmem. by apply H3.
  - destruct (strata_loadAll L1 c) as [-> _]. apply Hc.
  - rewrite Forall_forall. intros [px id] [_ Hin]%elem_of_map_range%Hw2. by apply H1 in Hin as [? _].
  - apply NoDup_map_range.
  - intros px [id [Hn Hid]%Hw2]%elem_of_map_range_fst. split.
    + destruct (store px) as [st|] eqn:E; [|done]. destruct Hn. unfold L1.
      apply list_elem_of_filter. split; [by rewrite E|]. apply elem_of_map_range_fst. by eexists.
    + rewrite lookup_loadAll, decide_False by done. by apply H1 in Hid as [_ ?].
Qed.

Lemma abs_loaded c d i :
  is_Some (subtrees c !! coordsPrefix d i) → cachedHash c d i = abs c d i.
Proof. intros [st Hst]. unfold cachedHash, abs, cur. by rewrite Hst. Qed.

(** The nodes that [GetNodes] returns. *)
Definition nodesOf (c : SubtreeCache) (cs : list (Z * Z)) : list Node :=
  omap (λ x, match abs c x.1 x.2 with
             | Some h => Some (mkNode (logID x) (Some h))
             | None => None
             end) cs.

Lemma getNodes_loop c (s : S) cs0 out g :
  wf_cache c → Forall logNode cs0 →
  (∀ x, x ∈ cs0 → is_Some (subtrees c !! logPrefix x)) →
  mfold (λ ret id,
    h ← getNodeHashUnderLock populate id g;
    mret (match h with Some _ => ret ++ [mkNode id h] | None => ret end)) out (logID <$> cs0) (c, s)
  = (Ok (out ++ nodesOf c cs0), (c, s)).
Proof.
  intros Hc Hcs Hl. revert out. induction cs0 as [|[d i] cs IH]; intros out.
  { simpl. by rewrite app_nil_r. }
  apply Forall_cons in Hcs as [[Hv Hd] Hcs]. rewrite fmap_cons. cbn [mfold].
  unfold mbind at 1, M_bind at 1. unfold mbind at 1, M_bind at 1.
  pose proof (Hl (d, i) ltac:(by left)) as Hld. cbn [logPrefix] in Hld.
  cbn [logID]. rewrite getNodeHash_loaded by done.
  rewrite abs_loaded by done. unfold mret at 1, M_ret at 1.
  rewrite IH; [|done|intros; apply Hl; by right]. unfold nodesOf. cbn [omap list_omap fst snd logID].
  destruct (abs c d i); [by rewrite <-app_assoc|done].
Qed.

Lemma nodesOf_ext c c' cs : (∀ d i, abs c d i = abs c' d i) → nodesOf c cs = nodesOf c' cs.
Proof.
  intros H. induction cs as [|x cs IH]; [done|]. unfold nodesOf in *. cbn [omap list_omap].
  rewrite H. destruct (abs c' x.1 x.2); [f_equal|]; apply IH.
Qed.

(** The callback for single subtrees reads the same storage. *)
Definition getSubtree_ok (g : NodeID → M S (option SubtreeProto)) (s : S) : Prop :=
  ∀ id, subtreeID id → g id s = (Ok (store (idPrefix id)), s).

(** A node of a subtree that is not in the cache: the subtree is loaded. *)
Lemma getNodeHash_load s c d i g :
  storage_ok s → getSubtree_ok g s → wf_cache c → logNode (d, i) →
  subtrees c !! coordsPrefix d i = None →
  getNodeHashUnderLock populate (coordsID d i) g (c, s) =
    (Ok (abs c d i), (loadAll [coordsPrefix d i] c, s)).
Proof.
  intros Hs Hg Hc Hx Hn. pose proof Hx as [Hv Hd]. pose proof Hv as [Hd0 _].
  pose proof (logNode_wanted _ Hx) as Hid. cbn [logPrefix logID] in Hid.
  unfold getNodeHashUnderLock, onStore, onCache. unfold_M. cbn [fst snd].
  rewrite splitNodeID_coords by (done || apply Hc). cbn [fst snd]. rewrite Hn.
  rewrite Hg, (wanted_idPrefix _ _ Hid) by (by eexists). cbn [fst snd].
  unfold abs, cur. rewrite Hn. cbn [default from_option id]. unfold subtreeHash, loadAll, view.
  cbn [fold_left]. rewrite bits_coordsSuffix by lia.
  destruct (store (coordsPrefix d i)) as [st|] eqn:E.
  - destruct (storage_wf s Hs _ st E) as (st' & -> & Hpx & Hdep & _).
    cbn [fst snd]. rewrite Hpx, Hdep. reflexivity.
  - unfold newEmptySubtree. destruct Hid as (H1 & H2 & _). cbn [PrefixLenBits] in H1 |- *.
    rewrite strata_lookup; [|apply Hc|unfold depthQuantum; lia]. reflexivity.
Qed.

(** *** Properties of the cache *)

(** Reading nodes loads their subtrees and answers from the abstract state. *)
Lemma GetNodes_cur s c cs :
  storage_ok s → wf_cache c → Forall logNode cs →
  ∃ c', GetNodes populate (logID <$> cs) getSubtrees (c, s) = (Ok (nodesOf c cs), (c', s)) ∧
    wf_cache c' ∧ dirtyPrefixes c' = dirtyPrefixes c ∧ ∀ px, cur c' px = cur c px.
Proof.
  intros Hs Hc Hcs. destruct (preload_spec s c cs Hs Hc Hcs) as (L & Hp & HL & Hld).
  assert (wf_cache (loadAll L c)) as Hc'.
  { apply (loadAll_wf s); [done|done|]. rewrite Forall_forall. intros px Hpx. by apply HL. }
  assert (∀ d i, abs (loadAll L c) d i = abs c d i) as Habs
    by (intros; apply abs_loadAll; intros px Hpx; by apply HL).
  exists (loadAll L c). split.
  2:{ split; [done|]. split; [apply strata_loadAll|]. intros px. apply cur_loadAll. intros px' Hpx. by apply HL. }
  unfold GetNodes. unfold mbind at 1, M_bind at 1.
  rewrite Hp, getNodes_loop by done. cbn [app]. by rewrite (nodesOf_ext (loadAll L c) c).
Qed.

(** C27. [GetNodes] returns, in the order asked, the nodes that have a hash in the
    cache or, for subtrees not loaded yet, in storage; loading changes neither
    the storage nor the hash of any node. *)
Theorem GetNodes_refines s c cs :
  storage_ok s → wf_cache c → Forall logNode cs →
  ∃ c', GetNodes populate (logID <$> cs) getSubtrees (c, s) = (Ok (nodesOf c cs), (c', s)) ∧
    wf_cache c' ∧ ∀ d i, abs c' d i = abs c d i.
Proof.
  intros Hs Hc Hcs. destruct (GetNodes_cur s c cs Hs Hc Hcs) as (c' & E & Hc' & _ & Hcur).
  exists c'. split; [done|]. split; [done|]. intros d i. unfold abs. by rewrite Hcur.
Qed.

(** Setting a hash: one node of one subtree changes, which is dirty then. *)
Lemma SetNodeHash_cur s c d i h g :
  storage_ok s → getSubtree_ok g s → wf_cache c → logNode (d, i) → h ≠ [] →
  ∃ c', SetNodeHash populate (coordsID d i) (Some h) g (c, s) = (Ok (), (c', s)) ∧
    wf_cache c' ∧
    (∀ px, cur c' px = if decide (px = coordsPrefix d i) then setAt d i h (cur c px) else cur c px) ∧
    (∀ px, px ∈ dirtyPrefixes c → px ∈ dirtyPrefixes c') ∧
    (∀ px, px ∉ dirtyPrefixes c' → cur c' px = cur c px).
Proof.
  intros Hs Hg Hc Hx Hh. pose proof Hx as [Hv Hd].
  set (c1 := match subtrees c !! coordsPrefix d i with
             | Some _ => c | None => loadAll [coordsPrefix d i] c end).
  assert (SetNodeHash populate (coordsID d i) (Some h) g (c, s) =
          SetNodeHash populate (coordsID d i) (Some h) g (c1, s) ∧
          wf_cache c1 ∧ is_Some (subtrees c1 !! coordsPrefix d i) ∧
          dirtyPrefixes c1 = dirtyPrefixes c ∧ ∀ px, cur c1 px = cur c px)
    as (E & Hc1 & [st1 Hst1] & Hd1 & Hcur).
  { unfold c1. destruct (subtrees c !! coordsPrefix d i) as [st|] eqn:Est; [by eauto|].
    assert (subtrees (loadAll [coordsPrefix d i] c) !! coordsPrefix d i =
            Some (view (coordsPrefix d i))) as El
      by (rewrite lookup_loadAll; by rewrite decide_True by left).
    split_and!.
    - unfold SetNodeHash at 1. unfold_M. cbn [fst snd].
      rewrite splitNodeID_coords by (done || apply Hc). cbn [fst snd]. rewrite Est.
      rewrite getNodeHash_load by done. cbn [fst snd]. rewrite El.
      unfold SetNodeHash. unfold_M. cbn [fst snd].
      rewrite splitNodeID_coords by (done || (rewrite (proj1 (strata_loadAll _ c)); apply Hc)).
      cbn [fst snd]. by rewrite El.
    - apply (loadAll_wf s); [done|done|]. constructor; [|done]. apply (length_logPrefix (d, i) Hx).
    - by eexists.
    - apply strata_loadAll.
    - intros px. apply cur_loadAll. intros px' ->%list_elem_of_singleton. done. }
  rewrite E, SetNodeHash_loaded by (done || by eexists).
  clearbody c1. clear E. eexists. split; [reflexivity|]. rewrite <-Hd1.
  match goal with |- wf_cache ?w ∧ _ =>
    cut (wf_cache w ∧
      (∀ px, cur w px = if decide (px = coordsPrefix d i) then setAt d i h (cur c1 px) else cur c1 px) ∧
      (∀ px, px ∈ dirtyPrefixes c1 → px ∈ dirtyPrefixes w) ∧
      (∀ px, px ∉ dirtyPrefixes w → cur w px = cur c1 px)) end.
  { intros (Hw & Hset & Hmono & Hclean). split_and!; [done| |done|].
    - intros px. by rewrite Hset, Hcur.
    - intros px Hpx. by rewrite Hclean, Hcur. }
  assert (cur c1 (coordsPrefix d i) = st1) as Est1 by (unfold cur; by rewrite Hst1).
  destruct (bytes_Equal (cachedHash c1 d i) (Some h)) eqn:Eq; (split; [by try apply writeNode_wf|]).
  - split; [|done]. intros px. case_decide as Ep; [|done]. subst px. symmetry. apply setAt_id.
    rewrite Est1. unfold cachedHash, bytes_Equal in Eq. rewrite Hst1 in Eq. cbn in Eq.
    apply bool_decide_eq_true in Eq. destruct (subtreeHash st1 d i); cbn in Eq; by subst.
  - unfold writeNode. rewrite Hst1. cbn [dirtyPrefixes].
    assert (∀ px, cur (mkSubtreeCache (strata c1) (<[coordsPrefix d i := setAt d i h st1]> (subtrees c1))
      ({[coordsPrefix d i]} ∪ dirtyPrefixes c1)) px =
      if decide (px = coordsPrefix d i) then setAt d i h (cur c1 px) else cur c1 px) as Hw.
    { intros px. unfold cur at 1. cbn [subtrees]. rewrite lookup_insert.
      case_decide as Ep; [subst px; rewrite decide_True by done; cbn; by rewrite Est1|].
      by rewrite decide_False by (by intros ->). }
    split; [exact Hw|]. split; [set_solver|]. intros px Hpx. rewrite Hw. rewrite decide_False; [done|]. set_solver.
Qed.

(** The abstract state is updated at one node. *)
Lemma SetNodeHash_abs s c d i h g :
  storage_ok s → getSubtree_ok g s → wf_cache c → logNode (d, i) → h ≠ [] →
  ∃ c', SetNodeHash populate (coordsID d i) (Some h) g (c, s) = (Ok (), (c', s)) ∧
    wf_cache c' ∧
    ∀ d' i', logNode (d', i') →
      abs c' d' i' = if decide (d = d' ∧ i = i') then Some h else abs c d' i'.
Proof.
  intros Hs Hg Hc Hx Hh. destruct (SetNodeHash_cur s c d i h g) as (c' & E & Hc' & Hcur & _); [done..|].
  exists c'. split; [done|]. split; [done|]. intros d' i' [Hv' Hd']. destruct Hx as [Hv Hd].
  unfold abs. rewrite Hcur. case_decide as Ep.
  - by rewrite subtreeHash_setAt.
  - rewrite decide_False; [done|]. by intros [-> ->].
Qed.

(** C28. [SetNodeHash] sets the hash of one node and of no other, loading its subtree
    first where it must, and leaves the storage alone. *)
Theorem SetNodeHash_refines s c d i h g :
  storage_ok s → getSubtree_ok g s → wf_cache c → logNode (d, i) → h ≠ [] →
  ∃ c', SetNodeHash populate (coordsID d i) (Some h) g (c, s) = (Ok (), (c', s)) ∧
    wf_cache c' ∧
    ∀ d' i', logNode (d', i') →
      abs c' d' i' = if decide (d = d' ∧ i = i') then Some h else abs c d' i'.
Proof. apply SetNodeHash_abs. Qed.
End refinement.

(** ** Properties of the storage that the cache keeps *)

Section storage_stable.
Context {S : Type} (Q : S → Prop).
Context (populate prepare : M SubtreeProto unit) `{!MapRange bytes}.

Lemma stable_onCache {A} (m : M SubtreeCache A) : stable (λ p : SubtreeCache * S, Q p.2) (onCache m).
Proof. eapply (stable_zoom _ (λ _, True)); [done|done|by intros ? _]. Qed.
Lemma stable_onStore {A} (m : M S A) :
  stable Q m → stable (λ p : SubtreeCache * S, Q p.2) (onStore m).
Proof. intros. by eapply stable_zoom. Qed.
Hint Resolve stable_onCache stable_onStore : ctlog.

Lemma stable_getNodeHash id g :
  (∀ n, stable Q (g n)) →
  stable (λ p : SubtreeCache * S, Q p.2) (getNodeHashUnderLock populate id g).
Proof. intros. unfold getNodeHashUnderLock. stable. Qed.
Hint Resolve stable_getNodeHash : ctlog.

Lemma stable_preload ids g :
  (∀ ns, stable Q (g ns)) → stable (λ p : SubtreeCache * S, Q p.2) (preload populate ids g).
Proof. intros. unfold preload. stable. Qed.
Hint Resolve stable_preload : ctlog.

Lemma stable_GetNodes ids g :
  (∀ ns, stable Q (g ns)) → stable (λ p : SubtreeCache * S, Q p.2) (GetNodes populate ids g).
Proof.
  intros Hg. assert (∀ n, stable Q (getOne g n)) by (intros; unfold getOne; stable).
  unfold GetNodes. stable.
Qed.

Lemma stable_SetNodeHash id h g :
  (∀ n, stable Q (g n)) →
  stable (λ p : SubtreeCache * S, Q p.2) (SetNodeHash populate id h g).
Proof. intros. unfold SetNodeHash. stable. Qed.

Lemma stable_Flush g :
  (∀ ts, stable Q (g ts)) → stable (λ p : SubtreeCache * S, Q p.2) (Flush prepare g).
Proof. intros. unfold Flush. stable. Qed.
End storage_stable.

(** ** Flushing *)

Section flush.
Context {S : Type} `{!MapRange bytes, !MapRangeLaws bytes}.

(** A subtree as it is written: without its root hash, with its internal nodes
    counted, and without them where the subtree is full. *)
Definition prepared (st : SubtreeProto) : SubtreeProto :=
  mkSubtreeProto (Prefix st) (Depth st) None (Leaves st)
    (if (numLeaves st =? 256)%Z then ∅ else InternalNodes st)
    (wrapU32 (Z.of_nat (size (InternalNodes st)))).

Definition mustWrite (c : SubtreeCache) (x : bytes * SubtreeProto) : Prop :=
  x.1 ∈ dirtyPrefixes c ∧ Leaves x.2 ≠ ∅.
#[global] Instance mustWrite_dec c x : Decision (mustWrite c x).
Proof. unfold mustWrite. apply _. Defined.

(** The subtrees that a flush has to write. *)
Definition toWrite (c : SubtreeCache) (ts : list (bytes * SubtreeProto)) : list SubtreeProto :=
  (prepared ∘ snd) <$> filter (mustWrite c) ts.

Lemma prepare_Ok st :
  Depth st = 8%Z → prepareLogSubtreeWrite (with_RootHash None st) = (Ok (), prepared st).
Proof.
  intros Hd. unfold prepareLogSubtreeWrite, prepared, maxLeaves, numLeaves. cbn. rewrite Hd. cbn.
  change (wrap64 (1 ≪ 8)) with 256%Z. unfold with_InternalNodes, with_InternalNodeCount. cbn.
  rewrite Hd. by destruct (Z.of_nat (size (Leaves st)) =? 256)%Z.
Qed.

(** The loop keeps the prefixes that are cached and dirty, and the
    well-formedness of the cache. *)
Lemma flushLoop_spec ts : ∀ c out,
  wf_cache c → NoDup ts.*1 → (∀ k v, (k, v) ∈ ts → subtrees c !! k = Some v) →
  ∃ c', flushLoop prepareLogSubtreeWrite ts out c = (Ok (out ++ toWrite c ts), c') ∧ wf_cache c' ∧
    dirtyPrefixes c' = dirtyPrefixes c.
Proof.
  induction ts as [|[k v] ts IH]; intros c out Hc Hnd Hin.
  { exists c. by rewrite app_nil_r. }
  apply NoDup_cons in Hnd as [Hk Hnd]. pose proof (Hin k v ltac:(by left)) as Hv.
  destruct (wf_subtrees c Hc _ _ Hv) as (Hpx & Hdep & Hl).
  assert (∀ v', wf_subtree k v' → let c1 := with_subtrees (<[k:=v']> (subtrees c)) c in
    wf_cache c1 ∧ ∀ k' w, (k', w) ∈ ts → subtrees c1 !! k' = Some w) as Hput.
  { intros v' Hv'. split; [split|]; cbn [strata subtrees dirtyPrefixes with_subtrees].
    - apply Hc.
    - intros px st. rewrite lookup_insert. case_decide; [|by apply Hc]. intros [= <-]. by subst.
    - intros px Hd. apply lookup_insert_is_Some'. right. by apply Hc.
    - intros k' w Hw. rewrite lookup_insert_ne; [by apply Hin; right|]. intros <-.
      apply Hk, list_elem_of_fmap. by exists (k, w). }
  cbn [flushLoop]. unfold_M. unfold toWrite. rewrite filter_cons.
  case_bool_decide as Hd; [|rewrite decide_False by (intros [? _]; done); apply IH;
    [done..|by intros; apply Hin; right]].
  unfold bytes_Equal. rewrite Hpx, bool_decide_true by done. cbn [negb].
  cbn [Leaves with_RootHash]. destruct (decide (Leaves v = ∅)) as [He|He].
  - rewrite decide_False by (intros [_ ?]; done). rewrite He, map_size_empty. cbn.
    destruct (Hput (with_RootHash None v)) as [Hc1 Hin1]; [done|].
    destruct (IH _ out Hc1 Hnd Hin1) as (c' & E & ? & ?). exists c'. by rewrite E.
  - rewrite decide_True by done. destruct (size (Leaves v)) as [|n] eqn:En.
    { by apply map_size_empty_inv in En. }
    cbn [Nat.ltb Nat.leb]. rewrite prepare_Ok by done. cbn [fst snd].
    destruct (Hput (prepared v)) as [Hc1 Hin1]; [done|].
    destruct (IH _ (out ++ [prepared v]) Hc1 Hnd Hin1) as (c' & E & ? & ?). exists c'. rewrite E.
    by rewrite <-app_assoc.
Qed.

Lemma Flush_spec c (s : S) setSubtrees :
  wf_cache c →
  ∃ ts c', ts ≡ₚ toWrite c (map_to_list (subtrees c)) ∧ wf_cache c' ∧
    dirtyPrefixes c' = dirtyPrefixes c ∧
    Flush prepareLogSubtreeWrite setSubtrees (c, s) =
      match ts with
      | [] => (Ok (), (c', s))
      | _ => let '(o, s') := setSubtrees ts s in (o, (c', s'))
      end.
Proof.
  intros Hc. pose proof (map_range_perm _ (subtrees c)) as Hp.
  destruct (flushLoop_spec (map_range (subtrees c)) c []) as (c' & E & Hc' & Hd); [done|..].
  { rewrite Hp. apply NoDup_fst_map_to_list. }
  { intros k v. rewrite Hp. apply elem_of_map_to_list. }
  exists (toWrite c (map_range (subtrees c))), c'. split_and!; [|done|done|].
  - unfold toWrite. by rewrite Hp.
  - unfold Flush, onCache, onStore. unfold_M. cbn [fst snd]. rewrite E. cbn [app].
    destruct (toWrite c _) as [|t ts]; [done|]. reflexivity.
Qed.
(** [Flush] hands every changed subtree that has leaves to the storage, once
    and prepared for writing, and hands over nothing else; when nothing was
    changed the storage is not called. *)
Theorem Flush_writes c (s : S) setSubtrees :
  wf_cache c →
  ∃ ts c', ts ≡ₚ toWrite c (map_to_list (subtrees c)) ∧ wf_cache c' ∧
    dirtyPrefixes c' = dirtyPrefixes c ∧
    Flush prepareLogSubtreeWrite setSubtrees (c, s) =
      match ts with
      | [] => (Ok (), (c', s))
      | _ => let '(o, s') := setSubtrees ts s in (o, (c', s'))
      end.
Proof. apply Flush_spec. Qed.
End flush.

(** ** Witnesses *)

#[local] Instance listRange : MapRange bytes := λ V m, map_to_list m.
#[local] Instance listRangeLaws : MapRangeLaws bytes.
Proof. by intros V m. Defined.

(** A storage with the topmost subtree of a log of three leaves: its rightmost
    nodes, eight levels below the top. *)
Definition storedTop : SubtreeProto :=
  mkSubtreeProto (Some []) 8 None {[ String_Suffix (coordsSuffix 56 0) := [Byte.x07] ]} ∅ 0.
Definition storedTops (px : bytes) : option SubtreeProto :=
  if decide (px = []) then Some storedTop else None.
Definition readTops (ids : list NodeID) : M unit (list SubtreeProto) :=
  mret (omap (storedTops ∘ idPrefix) ids).

Lemma readTops_ok :
  storage_ok (populateLogSubtreeNodes toySum) storedTops readTops ().
Proof.
  split; [done|]. intros px st. unfold storedTops. case_decide as E; [|done]. intros [= <-].
  eexists. split; [vm_compute; reflexivity|]. subst. by split_and!; [..|simpl; lia].
Qed.

Lemma logNode_top : logNode (56%Z, 0%Z).
Proof. split; [split; lia|lia]. Qed.

Lemma GetNodes_refines_witness :
  ∃ c', GetNodes (populateLogSubtreeNodes toySum) (logID <$> [(56%Z, 0%Z)]) readTops
          (mkSubtreeCache logStrataInfo ∅ ∅, ()) =
        (Ok (nodesOf (populateLogSubtreeNodes toySum) storedTops
               (mkSubtreeCache logStrataInfo ∅ ∅) [(56%Z, 0%Z)]), (c', ())).
Proof.
  destruct (GetNodes_refines (populateLogSubtreeNodes toySum) storedTops readTops ()
    (mkSubtreeCache logStrataInfo ∅ ∅) [(56%Z, 0%Z)] readTops_ok wf_new_cache
    (Forall_cons_2 _ _ _ logNode_top (Forall_nil_2 _))) as (c' & E & _).
  exists c'. exact E.
Defined.

Lemma SetNodeHash_refines_witness :
  ∃ c', SetNodeHash (populateLogSubtreeNodes toySum) (coordsID 56 0) (Some [Byte.x09])
          (λ id, mret (storedTops (idPrefix id)))
          (mkSubtreeCache logStrataInfo ∅ ∅, ()) = (Ok (), (c', ())) ∧ wf_cache c'.
Proof.
  destruct (SetNodeHash_refines (populateLogSubtreeNodes toySum) storedTops readTops ()
    (mkSubtreeCache logStrataInfo ∅ ∅) 56 0 [Byte.x09] (λ id, mret (storedTops (idPrefix id)))
    readTops_ok (λ _ _, eq_refl) wf_new_cache logNode_top ltac:(done)) as (c' & E & Hc & _).
  exists c'. split; [exact E|exact Hc].
Defined.

Lemma Flush_writes_witness :
  ∃ ts c', ts ≡ₚ toWrite (mkSubtreeCache logStrataInfo {[ [] := storedTop ]} {[ [] ]})
                   [([], storedTop)] ∧
    Flush prepareLogSubtreeWrite (λ _, fail ErrIO)
      (mkSubtreeCache logStrataInfo {[ [] := storedTop ]} {[ [] ]}, ()) =
      match ts with [] => (Ok (), (c', ())) | _ => (Err ErrIO, (c', ())) end.
Proof.
  assert (wf_cache (mkSubtreeCache logStrataInfo {[ [] := storedTop ]} {[ [] ]})) as H.
  { split; [done|..].
    - intros px st H. cbn [subtrees] in H. apply lookup_singleton_Some in H as [<- <-]. by split_and!; [..|simpl; lia].
    - intros px H. cbn [dirtyPrefixes] in H. apply elem_of_singleton in H as ->. cbn [subtrees]. by rewrite lookup_singleton_eq. }
  destruct (Flush_writes _ () (λ _, fail ErrIO) H) as (ts & c' & Hp & _ & _ & E).
  exists ts, c'. split; [exact Hp|exact E].
Defined.
