(* ===== verification/TreeNodes.v ===== *)
(** * The nodes of a tree and their subtrees

    What the storage has to hold for a log: the nodes that Trillian's compact
    tree reports ([merkle/compact/tree.go]), grouped into subtrees of eight
    levels ([storage/cache]).  The file specifies these nodes, shows that adding
    leaves reports exactly their changes, and that a subtree comes back from
    [prepareLogSubtreeWrite] and [populateLogSubtreeNodes] with all of them. *)

From S2P Require Import Prelude Keys Trillian Frontier Compact Nodes SubtreeCache.

Section nodes.
Context (Sum256 : bytes → bytes).

#[local] Instance present_dec n d i : Decision (present n d i).
Proof. unfold present. apply _. Defined.

(** The hash of a node of the tree over [L]; nil where there is none. *)
Definition treeNode (L : list bytes) (d i : nat) : slice :=
  if decide (present (length L) d i) then Some (nodeHash Sum256 L d i) else None.

Lemma treeNode_nil d i : treeNode [] d i = None.
Proof. unfold treeNode, present. rewrite decide_False; [done|simpl; lia]. Qed.

Lemma treeNode_perfect L d i :
  (i + 1) * 2 ^ d ≤ length L → treeNode L d i = Some (nodeHash Sum256 L d i).
Proof.
  intros H. unfold treeNode, present. rewrite decide_True; [done|].
  pose proof (Nat.pow_nonzero 2 d). nia.
Qed.

(** The leaves are the lowest nodes. *)
Lemma treeNode_leaf L i h : L !! i = Some h → treeNode L 0 i = Some h.
Proof.
  intros H. pose proof (lookup_lt_Some _ _ _ H). rewrite treeNode_perfect by (simpl; lia). f_equal.
  unfold nodeHash. rewrite Nat.pow_0_r, Nat.mul_1_r, (drop_S _ _ _ H). apply MTH_one.
Qed.

(** A node that ends before the last leaf does not change with it. *)
Lemma nodeHash_app L X d i :
  (i + 1) * 2 ^ d ≤ length L → nodeHash Sum256 (L ++ X) d i = nodeHash Sum256 L d i.
Proof.
  intros H. unfold nodeHash. rewrite drop_app_le by nia.
  rewrite take_app_le; [done|]. rewrite length_drop. nia.
Qed.

(** The nodes of a log have coordinates. *)
Lemma present_logNode n d i :
  (Z.of_nat n < 2 ^ 63)%Z → present n d i →
  logNode (Z.of_nat d, Z.of_nat i) ∧ int64 (Z.of_nat i).
Proof.
  unfold present. intros Hn Hp. pose proof (Nat.pow_nonzero 2 d).
  assert (2 ^ d < 2 ^ 64) as Hd%Nat.pow_lt_mono_r_iff; [|
    |lia].
  { apply Nat2Z.inj_lt. rewrite !(Nat2Z.inj_pow 2). change (2 ^ Z.of_nat 64)%Z with (2 * 2 ^ 63)%Z.
    change (Z.of_nat 2) with 2%Z. assert (Z.of_nat (2 ^ d) = 2 ^ Z.of_nat d)%Z as E by (by rewrite Nat2Z.inj_pow). lia. }
  assert (Z.of_nat i * 2 ^ Z.of_nat d < 2 ^ 63)%Z as Hi.
  { assert (Z.of_nat (2 ^ d) = 2 ^ Z.of_nat d)%Z as <- by (by rewrite Nat2Z.inj_pow). lia. }
  split; [split; [split; [lia|split; [lia|]]|lia]|].
  - apply (Z.mul_lt_mono_pos_r (2 ^ Z.of_nat d)); [apply Z.pow_pos_nonneg; lia|].
    rewrite <-Z.pow_add_r by lia. replace (64 - Z.of_nat d + Z.of_nat d)%Z with 64%Z by lia. lia.
  - unfold int64. assert (0 < 2 ^ Z.of_nat d)%Z by (apply Z.pow_pos_nonneg; lia). nia.
Qed.

Lemma treeNode_snoc L h d i :
  treeNode (L ++ [h]) d i =
  if decide (present (length L + 1) d i ∧ length L < (i + 1) * 2 ^ d)
  then Some (nodeHash Sum256 (L ++ [h]) d i) else treeNode L d i.
Proof.
  unfold treeNode. rewrite length_app. cbn [length]. pose proof (Nat.pow_nonzero 2 d).
  destruct (decide (present (length L + 1) d i)) as [Hp|Hp].
  - destruct (decide (length L < (i + 1) * 2 ^ d)).
    + by rewrite decide_True.
    + rewrite (decide_False (P := _ ∧ _)) by (intros []; done). rewrite decide_True by (unfold present in *; nia).
      f_equal. apply nodeHash_app. lia.
  - rewrite (decide_False (P := _ ∧ _)) by (intros []; done).
    rewrite decide_False; [done|]. unfold present in *. lia.
Qed.

(** ** Collecting the nodes

    A callback keeps the nodes of a tree in its state when its state stands for
    a function from coordinates to hashes, here for those in [Dom]. *)

Section tracking.
Context {S : Type} (g : Z → Z → slice → S → S) (I : S → Prop).
Context (A : S → nat → nat → slice) (Dom : nat → nat → Prop).

Definition tracks (all : list bytes) : Prop :=
  ∀ d i h s d' i', I s → good_report Sum256 all (d, i, h) → Dom d' i' →
    A (g d i h s) d' i' =
      if decide ((Z.of_nat d', Z.of_nat i') = (d, i)) then h else A s d' i'.

Lemma replay_nodes f all trace s d' i' :
  accepts Sum256 g I f all → tracks all → Forall (good_report Sum256 all) trace → I s → Dom d' i' →
  A (replay g trace s) d' i' =
    if decide ((Z.of_nat d', Z.of_nat i') ∈ trace.*1) then Some (nodeHash Sum256 all d' i') else A s d' i'.
Proof.
  intros Hf Ht Htr. revert s. induction Htr as [|[[d i] h] trace Hc _ IH]; intros s Hs HD.
  { by rewrite decide_False by apply not_elem_of_nil. }
  cbn [replay fold_left fst snd]. fold (replay g trace (g d i h s)).
  destruct (Hf d i h s Hs Hc) as [_ Hs']. rewrite IH by done.
  rewrite fmap_cons. cbn [fst].
  destruct (decide ((Z.of_nat d', Z.of_nat i') ∈ trace.*1)).
  { rewrite (decide_True (P := _ ∈ _ :: _)); [done|by right]. }
  rewrite Ht by done. case_decide as E.
  - rewrite decide_True by (rewrite E; by left).
    destruct Hc as (d0 & i0 & E0 & _ & _ & Eh). cbn [fst snd] in *. rewrite Eh.
    rewrite <-E in E0. by simplify_eq.
  - rewrite decide_False; [done|]. rewrite elem_of_cons. naive_solver.
Qed.

Lemma AddLeafHash_nodes f t l h s :
  accepts Sum256 g I f (l ++ [h]) → tracks (l ++ [h]) → I s → tree_of Sum256 l t →
  (Z.of_nat (length l) + 1 < 2 ^ 63)%Z → (∀ d i, Dom d i → A s d i = treeNode l d i) →
  ∃ t' s', AddLeafHash Sum256 f (Some h) (t, s) = (Ok (Z.of_nat (length l)), (t', s')) ∧
    tree_of Sum256 (l ++ [h]) t' ∧ I s' ∧ ∀ d i, Dom d i → A s' d i = treeNode (l ++ [h]) d i.
Proof.
  intros Hf Ht Hs Htree Hl HA.
  destruct (AddLeafHash_spec Sum256 g I f t l h s Hf Hs Htree Hl) as (t' & trace & Hrun & Ht' & Htr & Hcov).
  rewrite length_app in Hcov. cbn [length] in Hcov.
  eexists t', _. split; [exact Hrun|]. split; [done|]. split; [by eapply replay_I|].
  intros d i HD. rewrite (replay_nodes f (l ++ [h])), treeNode_snoc, HA by done.
  destruct (decide (present (length l + 1) d i ∧ length l < (i + 1) * 2 ^ d)) as [[Hp Hb]|Hn].
  - rewrite decide_True; [done|]. apply Hcov; [done|lia].
  - rewrite decide_False; [done|]. intros ([[d0 i0] h0] & E & Hin)%list_elem_of_fmap. cbn [fst] in E.
    rewrite Forall_forall in Htr. destruct (Htr _ Hin) as (d1 & i1 & E1 & Hp & Hb & _).
    cbn [fst] in E1. rewrite length_app in Hp, Hb. cbn [length] in Hp, Hb. simplify_eq.
    apply Hn. split; [done|lia].
Qed.
End tracking.

(** ** Hashes from hashes *)

Lemma nodeHash_children L d i :
  i * 2 ^ S d + 2 ^ d < length L →
  nodeHash Sum256 L (S d) i =
    hashDomain Sum256 Byte.x01 [Some (nodeHash Sum256 L d (2 * i)); Some (nodeHash Sum256 L d (2 * i + 1))].
Proof.
  intros Hl. unfold nodeHash. rewrite Nat.pow_succ_r' in *.
  replace (2 * i * 2 ^ d) with (i * (2 * 2 ^ d)) by lia.
  replace ((2 * i + 1) * 2 ^ d) with (i * (2 * 2 ^ d) + 2 ^ d) by lia.
  rewrite <-drop_drop. set (X := drop (i * (2 * 2 ^ d)) L).
  assert (2 ^ d < length X) by (unfold X; rewrite length_drop; lia).
  pose proof (Nat.pow_nonzero 2 d).
  rewrite <-(MTH_app _ d); [|rewrite length_take; lia|rewrite length_take, length_drop; lia].
  f_equal. replace (2 * 2 ^ d) with (2 ^ d + 2 ^ d) by lia. by rewrite take_take_drop.
Qed.

(** A subtree over the hashes of nodes: the hash of a node above them. *)
Lemma nodeHash_up L d e i :
  i * 2 ^ (d + e) + (2 ^ e - 1) * 2 ^ d < length L →
  MTH Sum256 ((λ j, nodeHash Sum256 L d (i * 2 ^ e + j)) <$> seq 0 (2 ^ e)) = nodeHash Sum256 L (d + e) i.
Proof.
  revert i. induction e as [|e IH]; intros i Hl.
  { simpl. rewrite MTH_one, Nat.mul_1_r, !Nat.add_0_r. done. }
  pose proof (Nat.pow_nonzero 2 d). pose proof (Nat.pow_nonzero 2 e).
  replace (d + S e) with (S (d + e)) in * by lia.
  assert ((2 ^ S e - 1) * 2 ^ d = 2 ^ (d + e) + (2 ^ e - 1) * 2 ^ d) as Ep
    by (rewrite Nat.pow_add_r, Nat.pow_succ_r'; destruct (2 ^ e); nia).
  rewrite Ep in Hl. clear Ep. remember ((2 ^ e - 1) * 2 ^ d) as m eqn:Em. clear Em.
  rewrite nodeHash_children by lia. rewrite Nat.pow_succ_r'.
  replace (2 * 2 ^ e) with (2 ^ e + 2 ^ e) by lia. rewrite seq_app, fmap_app.
  rewrite (MTH_app _ e) by (rewrite length_fmap, length_seq; lia).
  rewrite <-(IH (2 * i)), <-(IH (2 * i + 1)) by (rewrite Nat.pow_succ_r' in *; lia).
  f_equal. f_equal; [|f_equal]; f_equal; f_equal.
  - apply list_fmap_ext. intros k x _. f_equal. lia.
  - replace (0 + 2 ^ e) with (2 ^ e + 0) by lia. rewrite <-fmap_add_seq, <-list_fmap_compose.
    apply list_fmap_ext. intros k x _. cbn. f_equal. lia.
Qed.
End nodes.

(** ** Places in a subtree *)

Lemma take_be_bytes p q z : take p (be_bytes (p + q) z) = be_bytes p (z ≫ (8 * Z.of_nat q)).
Proof.
  revert z. induction p as [|p IH]; intros z; [done|]. cbn [Nat.add be_bytes take].
  rewrite IH, Z.shiftr_shiftr by lia. do 3 f_equal. lia.
Qed.

(** The coordinates of the node at height [e] and index [idx] of the subtree
    under the prefix [px]. *)
Definition subDepth (px : bytes) (e : Z) : Z := 56 - 8 * Z.of_nat (length px) + e.
Definition subIndex (px : bytes) (e idx : Z) : Z := be_val px * 2 ^ (8 - e) + idx.

Definition inSubtree (e idx : Z) : Prop := (0 ≤ e < 8 ∧ 0 ≤ idx < 2 ^ (8 - e))%Z.

Section places.
Context (px : bytes) (Hpx : length px ≤ 7).
Context (e idx : Z) (He : inSubtree e idx).

Lemma sub_bounds :
  (0 ≤ subDepth px e < 64)%Z ∧ prefixLen (subDepth px e) = Z.of_nat (length px) ∧
  suffixLen (subDepth px e) = (8 - e)%Z.
Proof.
  destruct He as [He1 _]. unfold suffixLen, prefixLen, subDepth.
  assert ((63 - (56 - 8 * Z.of_nat (length px) + e)) `div` 8 = Z.of_nat (length px))%Z as ->
    by (symmetry; apply (Z.div_unique_pos _ _ _ (7 - e)); lia).
  lia.
Qed.

Lemma sub_valid : validCoords (subDepth px e) (subIndex px e idx).
Proof.
  pose proof sub_bounds as (Hd & _). destruct He as [He1 He2]. split; [lia|]. unfold subIndex.
  pose proof (be_val_range px) as Hk. replace (256 ^ Z.of_nat (length px))%Z with (2 ^ (8 * Z.of_nat (length px)))%Z in Hk
    by (rewrite Z.pow_mul_r by lia; done).
  unfold subDepth. replace (64 - (56 - 8 * Z.of_nat (length px) + e))%Z with (8 * Z.of_nat (length px) + (8 - e))%Z by lia.
  rewrite Z.pow_add_r by lia. nia.
Qed.

Lemma sub_prefix : coordsPrefix (subDepth px e) (subIndex px e idx) = px.
Proof.
  pose proof sub_bounds as (Hd & Hp & _). destruct He as [He1 He2]. unfold coordsPrefix.
  rewrite Hp, Nat2Z.id. replace 8 with (length px + (8 - length px)) at 1 by lia.
  rewrite take_be_bytes. unfold subDepth.
  rewrite Z.shiftr_shiftl_r by lia.
  replace (8 * Z.of_nat (8 - length px) - (56 - 8 * Z.of_nat (length px) + e))%Z with (8 - e)%Z by lia.
  unfold subIndex. rewrite Z.shiftr_div_pow2 by lia. rewrite Z.div_add_l by (apply Z.pow_nonzero; lia).
  rewrite Z.div_small by lia. rewrite Z.add_0_r. apply be_bytes_be_val.
Qed.

Lemma sub_suffix :
  coordsSuffix (subDepth px e) (subIndex px e idx) = mkSuffix (z2b (8 - e)) [z2b (idx ≪ e)].
Proof.
  pose proof sub_bounds as (Hd & Hp & Hs). destruct He as [He1 He2]. unfold coordsSuffix.
  rewrite Hs, Hp. do 2 f_equal. apply b2z_inj. rewrite !b2z_z2b. unfold subDepth, subIndex.
  rewrite Z.shiftr_shiftl_l by lia.
  replace (56 - 8 * Z.of_nat (length px) + e - 8 * (7 - Z.of_nat (length px)))%Z with e by lia.
  rewrite !Z.shiftl_mul_pow2, Z.mul_add_distr_r, <-Z.mul_assoc, <-Z.pow_add_r by lia.
  replace (8 - e + e)%Z with 8%Z by lia. change (2 ^ 8)%Z with 256%Z.
  by rewrite Z.add_comm, Z.mod_add.
Qed.
End places.

(** Every node has such a place. *)
Lemma node_place d i :
  logNode (d, i) →
  let px := coordsPrefix d i in
  length px ≤ 7 ∧ ∃ e idx, inSubtree e idx ∧ d = subDepth px e ∧ i = subIndex px e idx.
Proof.
  intros [Hv Hd] px. pose proof Hv as [Hd0 Hi]. destruct (prefixLen_bounds d ltac:(lia)) as (Hp & Hs & E).
  pose proof (length_coordsPrefix d i ltac:(lia)) as Hl. fold px in Hl. split; [lia|].
  exists (8 - suffixLen d)%Z, (i `mod` 2 ^ suffixLen d)%Z. unfold inSubtree, subDepth, subIndex.
  replace (8 - (8 - suffixLen d))%Z with (suffixLen d) by lia. rewrite Hl. unfold suffixLen in *.
  set (p := prefixLen d) in *.
  split; [split; [lia|apply Z.mod_pos_bound, Z.pow_pos_nonneg; lia]|]. split; [lia|].
  assert (px = be_bytes (Z.to_nat p) (i ≫ (64 - d - 8 * p))) as ->.
  { unfold px, coordsPrefix. fold p. replace 8 with (Z.to_nat p + (8 - Z.to_nat p)) by lia.
    rewrite take_be_bytes, Z.shiftr_shiftl_r by lia. do 2 f_equal. lia. }
  rewrite be_val_be_bytes, Z.shiftr_div_pow2, Z2Nat.id by lia.
  assert (i `div` 2 ^ (64 - d - 8 * p) < 256 ^ p)%Z.
  { apply Z.div_lt_upper_bound; [apply Z.pow_pos_nonneg; lia|].
    change 256%Z with (2 ^ 8)%Z. rewrite <-Z.pow_mul_r, <-Z.pow_add_r by lia.
    replace (64 - d - 8 * p + 8 * p)%Z with (64 - d)%Z by lia. lia. }
  rewrite Z.mod_small by (split; [apply Z.div_pos; [lia|apply Z.pow_pos_nonneg; lia]|done]).
  rewrite Z.mul_comm. apply Z.div_mod, Z.pow_nonzero; lia.
Qed.

(** The key of a place, which is also the one that [populateLogSubtreeNodes]
    works with. *)
Definition placeKey (px : bytes) (e idx : Z) : string :=
  String_Suffix (coordsSuffix (subDepth px e) (subIndex px e idx)).

Lemma placeKey_inj px e idx e' idx' :
  length px ≤ 7 → inSubtree e idx → inSubtree e' idx' →
  placeKey px e idx = placeKey px e' idx' → e = e' ∧ idx = idx'.
Proof.
  intros Hl H H' E. destruct (sub_bounds px Hl e idx H) as (B & _), (sub_bounds px Hl e' idx' H') as (B' & _).
  apply coords_key_inj in E as [E1 E2]; [|by apply sub_valid|by apply sub_valid|lia|lia|].
  - unfold subDepth, subIndex in *. assert (e = e') as -> by lia. split; [done|lia].
  - by rewrite !sub_prefix.
Qed.

Lemma suffixKey_place st px e idx :
  length px ≤ 7 → inSubtree e idx → Prefix st = Some px → Depth st = 8%Z →
  suffixKey st (8 - e) idx = Ok (placeKey px e idx).
Proof.
  intros Hl H Hp Hd. destruct (sub_bounds px Hl e idx H) as (B & Bp & Bs).
  pose proof (sub_valid px Hl e idx H) as Hv. pose proof H as [He Hi].
  unfold suffixKey. rewrite Hp, Hd. cbn [sl default from_option id]. unfold_O.
  assert (NewNodeIDFromPrefix px (8 - e) idx logStrataDepth maxLogDepth =
    Ok (coordsID (subDepth px e) (subIndex px e idx))) as ->.
  { unfold NewNodeIDFromPrefix, logStrataDepth, maxLogDepth.
    change (gorem 64 8) with 0%Z. change (gorem 8 8) with 0%Z. cbn [Z.eqb negb].
    destruct (Z.ltb_spec (8 - e) 0); [lia|]. cbn [Z.ltb Z.compare].
    change (Z.to_nat (godiv 64 8)) with 8. unfold copy_into, slice_from, shl64.
    rewrite length_replicate, (take_ge px) by lia. rewrite length_app, drop_replicate, length_replicate.
    change (godiv 64 8 - godiv 8 8)%Z with 7%Z. rewrite length_be_bytes. cbn [Z.ltb Z.compare orb].
    replace (8 - (8 - e))%Z with e by lia.
    destruct (Z.ltb_spec e 0), (Z.leb_spec 64 e); try lia. cbn [orb].
    destruct (Z.ltb_spec (Z.of_nat (length px)) 0); [lia|].
    destruct (Z.ltb_spec (Z.of_nat (length px + (8 - length px))) (Z.of_nat (length px))); [lia|].
    unfold_O. change (7 <? 0)%Z with false. change (Z.of_nat 8 <? 7)%Z with false. cbn [orb].
    rewrite Nat2Z.id, take_app_length, drop_app_length. unfold coordsID.
    assert (0 ≤ idx ≪ e < 2 ^ 8)%Z as Hx.
    { rewrite Z.shiftl_mul_pow2 by lia. replace (2 ^ 8)%Z with (2 ^ (8 - e) * 2 ^ e)%Z
        by (rewrite <-Z.pow_add_r by lia; f_equal; lia).
      assert (0 < 2 ^ e)%Z by (apply Z.pow_pos_nonneg; lia). nia. }
    rewrite (wrap64_small (idx ≪ e)) by (unfold int64; lia).
    rewrite (coords_path _ _ Hv), sub_prefix, sub_suffix, Bp by (done || lia). cbn [SuffixPath].
    f_equal. f_equal; [|unfold subDepth; lia]. f_equal.
    rewrite (be_bytes_snoc 7), drop_app_length' by by rewrite length_be_bytes.
    rewrite take_ge by (rewrite length_replicate; simpl; lia). cbn [app length].
    f_equal. rewrite drop_replicate. f_equal. lia. }
  replace (Z.of_nat (length px)) with (prefixLen (subDepth px e)) by done.
  rewrite Split_coords by (done || lia). done.
Qed.

(** ** Subtrees of a tree *)

(** Depth and index, as numbers, of the places of a subtree. *)
Definition baseDepth (px : bytes) : nat := 56 - 8 * length px.
Definition baseIndex (px : bytes) : nat := Z.to_nat (be_val px).

Lemma subDepth_nat px (e : nat) :
  length px ≤ 7 → subDepth px (Z.of_nat e) = Z.of_nat (baseDepth px + e).
Proof. unfold subDepth, baseDepth. lia. Qed.

Lemma subIndex_nat px (e j : nat) :
  e ≤ 8 → subIndex px (Z.of_nat e) (Z.of_nat j) = Z.of_nat (baseIndex px * 2 ^ (8 - e) + j).
Proof.
  intros He. unfold subIndex, baseIndex. pose proof (be_val_range px).
  rewrite Nat2Z.inj_add, Nat2Z.inj_mul, (Nat2Z.inj_pow 2), Z2Nat.id by lia.
  do 4 f_equal. lia.
Qed.

Definition inside (e j : nat) : Prop := e < 8 ∧ j < 2 ^ (8 - e).

Lemma inside_leaf j : inside 0 j ↔ j < 256.
Proof. unfold inside. change (2 ^ (8 - 0)) with 256. lia. Qed.

Lemma inside_Z e j : inside e j → inSubtree (Z.of_nat e) (Z.of_nat j).
Proof.
  intros [He Hj]. split; [lia|]. split; [lia|].
  replace (8 - Z.of_nat e)%Z with (Z.of_nat (8 - e)) by lia.
  rewrite <-(Nat2Z.inj_pow 2). lia.
Qed.

Lemma inSubtree_nat e idx :
  inSubtree e idx → ∃ e' j : nat, e = Z.of_nat e' ∧ idx = Z.of_nat j ∧ inside e' j.
Proof.
  intros [He Hi]. exists (Z.to_nat e), (Z.to_nat idx). split; [lia|]. split; [lia|]. split; [lia|].
  apply Nat2Z.inj_lt. rewrite (Nat2Z.inj_pow 2), Z2Nat.id by lia.
  replace (Z.of_nat (8 - Z.to_nat e)) with (8 - e)%Z by lia. apply Hi.
Qed.

Definition keyAt (px : bytes) (e j : nat) : string := placeKey px (Z.of_nat e) (Z.of_nat j).

Lemma keyAt_inj px e j e' j' :
  length px ≤ 7 → inside e j → inside e' j' → keyAt px e j = keyAt px e' j' → e = e' ∧ j = j'.
Proof.
  intros Hl H H' E. apply placeKey_inj in E as [E1 E2]; [lia|done|by apply inside_Z..].
Qed.

(** *** Nodes given by a function

    [F] gives the hash of every node, by its coordinates. *)

(** The hash at a place of the subtree under [px]. *)
Definition nodeAt (F : nat → nat → slice) (px : bytes) (e j : nat) : slice :=
  F (baseDepth px + e) (baseIndex px * 2 ^ (8 - e) + j).

(** [st] holds exactly the nodes of that subtree. *)
Record subtree_for (F : nat → nat → slice) (px : bytes) (st : SubtreeProto) : Prop := {
  so_wf : wf_subtree px st;
  so_leaves key h : Leaves st !! key = Some h ↔
    ∃ j, inside 0 j ∧ key = keyAt px 0 j ∧ nodeAt F px 0 j = Some h;
  so_internal key h : InternalNodes st !! key = Some h ↔
    ∃ e j, inside e j ∧ 0 < e ∧ key = keyAt px e j ∧ nodeAt F px e j = Some h
}.

Lemma subtree_for_ext F F' px st :
  (∀ e j, inside e j → nodeAt F px e j = nodeAt F' px e j) →
  subtree_for F px st → subtree_for F' px st.
Proof.
  intros HF [H1 H2 H3]. split; [done|..]; intros key h.
  - rewrite H2. split; intros (j & Hj & ? & ?); exists j; by rewrite ?HF in * by done.
  - rewrite H3. split; intros (e & j & Hj & ? & ? & ?); exists e, j; by rewrite ?HF in * by done.
Qed.

(** That subtree as a value. *)
Definition rowsAt (F : nat → nat → slice) (px : bytes) (es : list nat) : list (string * bytes) :=
  e ← es; omap (λ j, (λ h, (keyAt px e j, h)) <$> nodeAt F px e j) (seq 0 (2 ^ (8 - e))).

Definition subtreeAt (F : nat → nat → slice) (px : bytes) : SubtreeProto :=
  mkSubtreeProto (Some px) 8 None (list_to_map (rowsAt F px [0])) (list_to_map (rowsAt F px (seq 1 7))) 0.

Lemma lookup_rowsAt F px es key h :
  length px ≤ 7 → Forall (λ e, e < 8) es →
  (list_to_map (rowsAt F px es) : gmap string bytes) !! key = Some h ↔
  ∃ e j, e ∈ es ∧ inside e j ∧ key = keyAt px e j ∧ nodeAt F px e j = Some h.
Proof.
  intros Hl Hes. rewrite Forall_forall in Hes.
  assert (∀ key h, (key, h) ∈ rowsAt F px es ↔
    ∃ e j, e ∈ es ∧ inside e j ∧ key = keyAt px e j ∧ nodeAt F px e j = Some h) as Hin.
  { clear key h. intros key h. unfold rowsAt. rewrite list_elem_of_bind. split.
    - intros (e & Hr & He). apply list_elem_of_omap in Hr as (j & Hj%elem_of_seq & E).
      destruct (nodeAt F px e j) eqn:En; [|done]. cbn in E. injection E as <- <-.
      exists e, j. split; [done|]. split; [|done]. split; [by apply Hes|lia].
    - intros (e & j & He & Hin & -> & E). exists e. split; [|done]. apply list_elem_of_omap.
      exists j. rewrite E. split; [apply elem_of_seq; destruct Hin; lia|done]. }
  rewrite <-Hin. split; [apply elem_of_list_to_map_2|]. intros H. apply elem_of_list_to_map_1'; [|done].
  intros h' H'. apply Hin in H as (e & j & _ & Hi & -> & E), H' as (e' & j' & _ & Hi' & Ek & E').
  apply keyAt_inj in Ek as [<- <-]; [|done..]. congruence.
Qed.

Lemma subtreeAt_for F px : length px ≤ 7 → subtree_for F px (subtreeAt F px).
Proof.
  intros Hl. split; [done|..]; intros key h; cbn [Leaves InternalNodes subtreeAt]; rewrite lookup_rowsAt.
  - split; [intros (e & j & ->%list_elem_of_singleton & H); by exists j|].
    intros (j & H). exists 0, j. split; [by left|done].
  - done.
  - by repeat constructor.
  - split; intros (e & j & H1 & H2 & H3 & H4); exists e, j.
    + apply elem_of_seq in H1. split_and!; (done || lia).
    + destruct H1. rewrite elem_of_seq. split_and!; (done || lia).
  - done.
  - apply Forall_forall. intros e ?%elem_of_seq. lia.
Qed.

Lemma subtree_for_maps F px st st' :
  subtree_for F px st → subtree_for F px st' →
  Leaves st = Leaves st' ∧ InternalNodes st = InternalNodes st'.
Proof.
  intros H H'. split; apply map_eq; intros key; apply option_eq; intros h.
  - by rewrite (so_leaves _ _ _ H), (so_leaves _ _ _ H').
  - by rewrite (so_internal _ _ _ H), (so_internal _ _ _ H').
Qed.

(** Another hash for one node. *)
Definition updNode (F : nat → nat → slice) (d i : nat) (h : bytes) (d' i' : nat) : slice :=
  if decide (d' = d ∧ i' = i) then Some h else F d' i'.

Lemma node_place_nat (d i : nat) :
  logNode (Z.of_nat d, Z.of_nat i) →
  let px := coordsPrefix (Z.of_nat d) (Z.of_nat i) in
  length px ≤ 7 ∧ ∃ e j, inside e j ∧ d = baseDepth px + e ∧ i = baseIndex px * 2 ^ (8 - e) + j.
Proof.
  intros (Hl & e & idx & (e' & j & -> & -> & Hin)%inSubtree_nat & Hd & Hi)%node_place. split; [done|].
  exists e', j. split; [done|]. rewrite subDepth_nat in Hd by done. destruct Hin as [He _].
  rewrite subIndex_nat in Hi by lia. lia.
Qed.

Lemma place_coords px e j :
  length px ≤ 7 → inside e j →
  let d := Z.of_nat (baseDepth px + e) in let i := Z.of_nat (baseIndex px * 2 ^ (8 - e) + j) in
  logNode (d, i) ∧ coordsPrefix d i = px ∧ String_Suffix (coordsSuffix d i) = keyAt px e j ∧
  suffixLen d = (8 - Z.of_nat e)%Z.
Proof.
  intros Hl Hin. pose proof (inside_Z _ _ Hin) as HinZ. pose proof (sub_bounds px Hl _ _ HinZ) as (B & _ & Bs).
  unfold keyAt, placeKey. cbv zeta. destruct Hin as [He _].
  rewrite <-subDepth_nat, <-subIndex_nat by (done || lia).
  split; [split; [by apply sub_valid|lia]|]. split; [by apply sub_prefix|done].
Qed.

Lemma nodeAt_upd F px e j h e' j' :
  nodeAt (updNode F (baseDepth px + e) (baseIndex px * 2 ^ (8 - e) + j) h) px e' j' =
  if decide (e' = e ∧ j' = j) then Some h else nodeAt F px e' j'.
Proof.
  unfold nodeAt, updNode. destruct (decide (e' = e)) as [->|Hne].
  - destruct (decide (j' = j)) as [->|]; [by rewrite !decide_True|].
    rewrite !decide_False; [done|naive_solver|naive_solver lia].
  - rewrite !decide_False; [done|naive_solver|naive_solver lia].
Qed.

Lemma setAt_for F px (d i : nat) h st :
  logNode (Z.of_nat d, Z.of_nat i) → coordsPrefix (Z.of_nat d) (Z.of_nat i) = px →
  subtree_for F px st → subtree_for (updNode F d i h) px (setAt (Z.of_nat d) (Z.of_nat i) h st).
Proof.
  intros Hx Hp [H1 H2 H3]. destruct (node_place_nat d i Hx) as [Hl (e & j & Hin & Ed & Ei)].
  rewrite Hp in Hl, Ed, Ei. subst d i. destruct (place_coords px e j Hl Hin) as (_ & _ & Hk & Hs).
  assert (∀ e' j', inside e' j' → keyAt px e' j' = keyAt px e j ↔ e' = e ∧ j' = j) as Hkey.
  { intros e' j' Hin'. split; [by apply keyAt_inj|by intros [-> ->]]. }
  split; [by apply setAt_wf|..]; intros key h'; unfold setAt; rewrite Hk, Hs;
    setoid_rewrite nodeAt_upd.
  - destruct (Z.eqb_spec (8 - Z.of_nat e) 8) as [E|E]; cbn [Leaves with_Leaves with_InternalNodes].
    + assert (e = 0) as -> by lia. rewrite lookup_insert. case_decide as Ek.
      * subst key. split.
        -- intros [= <-]. exists j. by rewrite decide_True.
        -- intros (j' & Hin' & E' & H'). symmetry in E'. apply Hkey in E' as [_ ->]; [|done].
           by rewrite decide_True in H'.
      * rewrite H2. split; intros (j' & Hin' & -> & H'); exists j'.
        all: rewrite decide_False in *; [done|]; by intros [_ ->].
    + rewrite H2. split; intros (j' & Hin' & -> & H'); exists j'.
      all: rewrite decide_False in *; [done|]; intros [? _]; lia.
  - destruct (Z.eqb_spec (8 - Z.of_nat e) 8) as [E|E]; cbn [InternalNodes with_Leaves with_InternalNodes].
    + rewrite H3. split; intros (e' & j' & Hin' & He & -> & H'); exists e', j'.
      all: rewrite decide_False in *; [done|]; intros [? _]; lia.
    + rewrite lookup_insert. case_decide as Ek.
      * subst key. split.
        -- intros [= <-]. exists e, j. split; [done|]. split; [lia|]. by rewrite decide_True.
        -- intros (e' & j' & Hin' & He & E' & H'). symmetry in E'. apply Hkey in E' as [-> ->]; [|done].
           by rewrite decide_True in H'.
      * rewrite H3. split; intros (e' & j' & Hin' & He & -> & H'); exists e', j'.
        all: rewrite decide_False in *; [done|]; by intros [-> ->].
Qed.

(** The other subtrees keep their nodes. *)
Lemma other_for F px (d i : nat) h st :
  length px ≤ 7 → coordsPrefix (Z.of_nat d) (Z.of_nat i) ≠ px →
  subtree_for F px st → subtree_for (updNode F d i h) px st.
Proof.
  intros Hl Hp. apply subtree_for_ext. intros e j Hin.
  destruct (place_coords px e j Hl Hin) as (_ & E & _). unfold nodeAt, updNode.
  rewrite decide_False; [done|]. intros [<- <-]. done.
Qed.

(** ** Caches of such subtrees *)

Section cached.
Context {S : Type} `{!MapRange bytes, !MapRangeLaws bytes}.
Context (populate : M SubtreeProto unit) (store : bytes → option SubtreeProto).
Context (getSubtrees : list NodeID → M S (list SubtreeProto)) (s : S).
Context (Hs : storage_ok populate store getSubtrees s).

(** The subtrees, loaded or not, hold the nodes [F]; those that are not dirty
    are as stored. *)
Record cache_for (F : nat → nat → slice) (c : SubtreeCache) : Prop := {
  cf_wf : wf_cache c;
  cf_cur px : length px ≤ 7 → subtree_for F px (cur populate store c px);
  cf_clean px : px ∉ dirtyPrefixes c → cur populate store c px = view populate store px
}.

Lemma new_cache_for F :
  (∀ px, length px ≤ 7 → subtree_for F px (view populate store px)) →
  cache_for F (mkSubtreeCache logStrataInfo ∅ ∅).
Proof. intros H. split; [apply wf_new_cache|exact H|done]. Qed.

Lemma abs_for F c (d i : nat) :
  cache_for F c → logNode (Z.of_nat d, Z.of_nat i) →
  abs populate store c (Z.of_nat d) (Z.of_nat i) = F d i.
Proof.
  intros Hc Hx. destruct (node_place_nat d i Hx) as [Hl (e & j & Hin & Ed & Ei)].
  set (px := coordsPrefix _ _) in *. destruct (place_coords px e j Hl Hin) as (_ & _ & Hk & Hsuf).
  rewrite <-Ed in Hk, Hsuf. rewrite <-Ei in Hk. pose proof (cf_cur _ _ Hc px Hl) as [_ H2 H3].
  unfold abs. fold px. unfold subtreeHash. rewrite Hk, Hsuf.
  assert (nodeAt F px e j = F d i) as <- by (unfold nodeAt; by rewrite <-Ed, <-Ei).
  apply option_eq. intros h. destruct (Z.eqb_spec (8 - Z.of_nat e) 8).
  - assert (e = 0) as -> by lia. rewrite H2. split; [|by exists j].
    intros (j' & Hin' & E & ?). by apply keyAt_inj in E as [_ ->].
  - rewrite H3. split; [|intros ?; exists e, j; split_and!; (done || lia)].
    intros (e' & j' & Hin' & ? & E & ?). by apply keyAt_inj in E as [-> ->].
Qed.

Lemma cache_for_read F c cs :
  cache_for F c → Forall logNode cs →
  ∃ c', GetNodes populate (logID <$> cs) getSubtrees (c, s) = (Ok (nodesOf populate store c cs), (c', s)) ∧
    cache_for F c' ∧ dirtyPrefixes c' = dirtyPrefixes c.
Proof.
  intros [H1 H2 H3] Hcs. destruct (GetNodes_cur populate store getSubtrees s c cs) as (c' & E & Hw & Hd & Hcur); [done..|].
  exists c'. split; [done|]. split; [|done]. split; [done|..]; intros px; rewrite Hcur, ?Hd; auto.
Qed.

Lemma cache_for_set F c (d i : nat) h g :
  getSubtree_ok store g s → cache_for F c → logNode (Z.of_nat d, Z.of_nat i) → h ≠ [] →
  ∃ c', SetNodeHash populate (coordsID (Z.of_nat d) (Z.of_nat i)) (Some h) g (c, s) = (Ok (), (c', s)) ∧
    cache_for (updNode F d i h) c'.
Proof.
  intros Hg [H1 H2 H3] Hx Hh.
  destruct (SetNodeHash_cur populate store getSubtrees s c (Z.of_nat d) (Z.of_nat i) h g)
    as (c' & E & Hw & Hcur & Hmono & Hclean); [done..|].
  exists c'. split; [done|]. split; [done|..]; intros px.
  - intros Hl. rewrite Hcur. case_decide as Ep.
    + subst px. apply setAt_for; [done|done|by apply H2].
    + apply other_for; [done|congruence|by apply H2].
  - intros Hd. rewrite Hclean by done. apply H3. by intros ?%Hmono.
Qed.

(** Setting the nodes of a list. *)
Definition updNodes (F : nat → nat → slice) (ns : list (nat * nat * bytes)) : nat → nat → slice :=
  fold_left (λ F n, updNode F n.1.1 n.1.2 n.2) ns F.

(** Nodes that agree with [G] replace those of [F]. *)
Lemma lookup_updNodes F G ns d i :
  (∀ d i h, (d, i, h) ∈ ns → G d i = Some h) →
  updNodes F ns d i = if decide ((d, i) ∈ ns.*1) then G d i else F d i.
Proof.
  revert F. induction ns as [|[[d0 i0] h0] ns IH]; intros F HG.
  { by rewrite decide_False by apply not_elem_of_nil. }
  cbn [updNodes fold_left fst snd]. unfold updNodes in IH. rewrite IH by (intros; apply HG; by right).
  rewrite fmap_cons. cbn [fst]. destruct (decide ((d, i) ∈ ns.*1)).
  { by rewrite decide_True by (by right). }
  unfold updNode. destruct (decide (d = d0 ∧ i = i0)) as [[-> ->]|Hne].
  - rewrite decide_True by (by left). symmetry. apply HG. by left.
  - rewrite decide_False; [done|]. rewrite elem_of_cons. naive_solver.
Qed.
End cached.

Section subtree.
Context (Sum256 : bytes → bytes).
#[local] Instance present_dec' n d i : Decision (present n d i).
Proof. unfold present. apply _. Defined.

(** The subtrees of the tree over [L]. *)
Abbreviation subtree_of L := (subtree_for (treeNode Sum256 L)).
Abbreviation nodeIn L := (nodeAt (treeNode Sum256 L)).

(** The leaves of a subtree are an initial segment. *)
Lemma initial_segment (P : nat → Prop) `{!∀ j, Decision (P j)} m :
  (∀ j, P (S j) → P j) → ∃ n, n ≤ m ∧ ∀ j, j < m → P j ↔ j < n.
Proof.
  intros HP. induction m as [|m (n & Hn & IH)]; [exists 0; split; [done|lia]|].
  destruct (decide (P m)) as [Hm|Hm].
  - exists (S m). split; [done|]. intros j Hj. split; [lia|]. intros _.
    assert (∀ k, P (j + k) → P j) as Hk.
    { induction k as [|k IHk]; [by rewrite Nat.add_0_r|]. rewrite Nat.add_succ_r. eauto. }
    apply (Hk (m - j)). by replace (j + (m - j)) with m by lia.
  - exists n. split; [lia|]. intros j Hj. destruct (decide (j = m)) as [->|]; [|apply IH; lia].
    split; [done|]. intros Hlt. exfalso. lia.
Qed.

Section one.
Context (L : list bytes) (px : bytes) (Hpx : length px ≤ 7).
Abbreviation hashAt j := (nodeHash Sum256 L (baseDepth px) (baseIndex px * 256 + j)).
Definition leafAt (j : nat) : Prop := present (length L) (baseDepth px) (baseIndex px * 256 + j).

Lemma nodeAt_leaf j : nodeIn L px 0 j = if decide (leafAt j) then Some (hashAt j) else None.
Proof. unfold nodeAt, treeNode. rewrite Nat.add_0_r. done. Qed.

Lemma leafAt_segment : ∃ n, n ≤ 256 ∧ ∀ j, j < 256 → leafAt j ↔ j < n.
Proof.
  apply initial_segment; [intros j; apply present_dec'|].
  intros j. unfold leafAt, present. generalize (2 ^ baseDepth px), (baseIndex px * 256). intros P b H.
  rewrite Nat.add_succ_r, Nat.mul_succ_l in H. lia.
Qed.

(** The leaves of the subtree as a list. *)
Lemma leaves_list st n :
  subtree_of L px st → n ≤ 256 → (∀ j, j < 256 → leafAt j ↔ j < n) →
  Leaves st = list_to_map ((λ j, (keyAt px 0 j, hashAt j)) <$> seq 0 n) ∧ size (Leaves st) = n.
Proof.
  intros Hst Hn Hseg. set (kvs := (λ j, (keyAt px 0 j, hashAt j)) <$> seq 0 n).
  assert (NoDup kvs.*1) as Hnd.
  { unfold kvs. rewrite <-list_fmap_compose. apply NoDup_fmap_2_strong; [|apply NoDup_seq].
    intros j j' Hj%elem_of_seq Hj'%elem_of_seq E.
    apply keyAt_inj in E as [_ ?]; [done|done|apply inside_leaf; lia..]. }
  assert (Leaves st = list_to_map kvs) as E.
  { apply map_eq. intros key. apply option_eq. intros h.
    rewrite (so_leaves _ _ _ Hst), <-elem_of_list_to_map by done.
    unfold kvs. rewrite list_elem_of_fmap. split.
    - intros (j & Hj%inside_leaf & -> & E). rewrite nodeAt_leaf in E.
      case_decide as Hp; [|done]. injection E as <-. exists j. split; [done|].
      apply elem_of_seq. apply Hseg in Hp; lia.
    - intros (j & [= -> ->] & Hj%elem_of_seq). exists j. split; [apply inside_leaf; lia|]. split; [done|].
      rewrite nodeAt_leaf, decide_True; [done|]. apply Hseg; lia. }
  split; [done|]. rewrite E, map_size_list_to_map by done. unfold kvs. by rewrite length_fmap, length_seq.
Qed.

(** *** Populating *)

Section populate.
Context (st : SubtreeProto) (Hst : subtree_of L px st).
Context (n : nat) (Hn : n ≤ 256) (Hseg : ∀ j, j < 256 → leafAt j ↔ j < n).

Definition leafHashes : list bytes := (λ j, hashAt j) <$> seq 0 n.

(** What the callback does to the subtree on a true report. *)
Definition keepNode (d i : Z) (h : slice) (s : SubtreeProto) : SubtreeProto :=
  if (d =? 8)%Z && (i =? 0)%Z then s
  else if (0 <? d)%Z && (n =? 256)
  then with_InternalNodes (<[placeKey px d i := sl h]> (InternalNodes s)) s else s.

Definition keyed (s : SubtreeProto) : Prop :=
  ∀ key h, InternalNodes s !! key = Some h → ∃ e j, inside e j ∧ 0 < e ∧ key = keyAt px e j.

(** The subtree while it is populated, from [st1] on. *)
Record populating (st1 s : SubtreeProto) : Prop := {
  pop_prefix : Prefix s = Some px;
  pop_depth : Depth s = 8%Z;
  pop_leaves : Leaves s = Leaves st;
  pop_count : InternalNodeCount s = InternalNodeCount st1;
  pop_keyed : keyed s;
  pop_rest : n ≠ 256 → InternalNodes s = InternalNodes st1
}.

Lemma length_leafHashes : length leafHashes = n.
Proof. unfold leafHashes. by rewrite length_fmap, length_seq. Qed.

(** The local coordinates that are reported. *)
Lemma local_report j c :
  j ≤ n → good_report Sum256 (take j leafHashes) c →
  ∃ e i : nat, c.1 = (Z.of_nat e, Z.of_nat i) ∧ (e = 8 ∧ i = 0 ∨ inside e i) ∧
    c.2 = Some (nodeHash Sum256 (take j leafHashes) e i).
Proof.
  intros Hj (e & i & Ec & Hp & Hb & Eh). exists e, i. split; [done|]. split; [|done].
  unfold present in Hp. rewrite length_take, length_leafHashes in *.
  assert (2 ^ e < 2 ^ 9) as He.
  { change (2 ^ 9) with 512. lia. }
  apply Nat.pow_lt_mono_r_iff in He; [|lia].
  assert (i * 2 ^ e < 2 ^ 8) as Hi by (change (2 ^ 8) with 256; lia).
  destruct (decide (e = 8)) as [->|]; [left; split; [done|]|right; split; [lia|]].
  - change (2 ^ 8) with 256 in *. lia.
  - replace (2 ^ 8) with (2 ^ (8 - e) * 2 ^ e) in Hi by (rewrite <-Nat.pow_add_r; f_equal; lia).
    by apply Nat.mul_lt_mono_pos_r in Hi; [|pose proof (Nat.pow_nonzero 2 e); lia].
Qed.

Lemma populateNode_accepts st1 j :
  j ≤ n → accepts Sum256 keepNode (populating st1) populateNode (take j leafHashes).
Proof.
  intros Hj d i h s Hs Hr. destruct (local_report j _ Hj Hr) as (e & i' & [= -> ->] & Hin & Eh).
  cbn [snd] in Eh. subst h. unfold populateNode, keepNode, logStrataDepth.
  destruct ((Z.of_nat e =? 8)%Z && (Z.of_nat i' =? 0)%Z) eqn:E8; [done|].
  destruct Hin as [[-> ->]|Hin]; [done|].
  erewrite mbind_step by reflexivity.
  rewrite (suffixKey_place s px (Z.of_nat e) (Z.of_nat i')); [|done|by apply inside_Z|apply Hs..].
  erewrite mbind_step by reflexivity.
  destruct (leaves_list st n Hst Hn Hseg) as [_ Hsize].
  unfold numLeaves, maxLeaves. rewrite (pop_leaves _ _ Hs), (pop_depth _ _ Hs), Hsize.
  change (shl64 1 8) with 256%Z.
  replace (Z.of_nat n =? 256)%Z with (n =? 256)
    by (destruct (Nat.eqb_spec n 256), (Z.eqb_spec (Z.of_nat n) 256); lia || done).
  destruct ((0 <? Z.of_nat e)%Z && (n =? 256)) eqn:Ef; [|done].
  apply andb_true_iff in Ef as [He%Z.ltb_lt Hfull%Nat.eqb_eq].
  split; [done|]. destruct Hs as [H1 H2 H3 H4 H5 H6]. split; try done.
  intros key h. cbn. rewrite lookup_insert. case_decide as Ek; [|apply H5].
  intros _. exists e, i'. split; [done|]. split; [lia|done].
Qed.

Lemma keepNode_tracks st1 j :
  j ≤ n → tracks Sum256 keepNode (populating st1) (λ s e i, InternalNodes s !! keyAt px e i)
    (λ e i, n = 256 ∧ inside e i ∧ 0 < e) (take j leafHashes).
Proof.
  intros Hj d i h s e' i' Hs Hr (Hfull & Hin' & He'). destruct (local_report j _ Hj Hr) as (e & i0 & [= -> ->] & Hin & Eh).
  cbn [snd] in Eh. subst h. unfold keepNode.
  rewrite (proj2 (Nat.eqb_eq n 256) Hfull), andb_true_r.
  destruct Hin as [[-> ->]|Hin].
  { cbn [Z.eqb Z.of_nat Pos.eqb andb]. rewrite decide_False; [done|].
    intros [= E _]. destruct Hin'. lia. }
  replace ((Z.of_nat e =? 8)%Z && (Z.of_nat i0 =? 0)%Z) with false
    by (destruct Hin; destruct (Z.eqb_spec (Z.of_nat e) 8); [lia|done]).
  destruct (Z.ltb_spec 0 (Z.of_nat e)).
  - cbn. rewrite lookup_insert. case_decide as E.
    + apply keyAt_inj in E as [-> ->]; [|done..]. by rewrite decide_True.
    + rewrite decide_False; [done|]. intros [= E1 E2]. apply E. unfold keyAt. by rewrite E1, E2.
  - rewrite decide_False; [done|]. intros [= E1 _]. lia.
Qed.

Lemma populateLoop_Ok st1 m : ∀ j t s,
  j + m = n → tree_of Sum256 (take j leafHashes) t → populating st1 s →
  (∀ e i, n = 256 ∧ inside e i ∧ 0 < e →
     InternalNodes s !! keyAt px e i = treeNode Sum256 (take j leafHashes) e i) →
  ∃ t' s', populateLoop Sum256 m (Z.of_nat j) (t, s) = (Ok (), (t', s')) ∧ populating st1 s' ∧
    ∀ e i, n = 256 ∧ inside e i ∧ 0 < e →
      InternalNodes s' !! keyAt px e i = treeNode Sum256 leafHashes e i.
Proof.
  induction m as [|m IH]; intros j t s Hj Ht Hs HA.
  { exists t, s. split; [done|]. split; [done|]. rewrite take_ge in HA; [done|]. rewrite length_leafHashes. lia. }
  cbn [populateLoop]. erewrite mbind_step by reflexivity. cbn [snd].
  rewrite (suffixKey_place s px 0 (Z.of_nat j) Hpx (inside_Z 0 j (proj2 (inside_leaf j) ltac:(lia)))
    (pop_prefix _ _ Hs) (pop_depth _ _ Hs) : suffixKey s logStrataDepth (Z.of_nat j) = _).
  erewrite mbind_step by reflexivity. rewrite (pop_leaves _ _ Hs).
  assert (Leaves st !! placeKey px 0 (Z.of_nat j) = Some (hashAt j)) as ->.
  { apply (so_leaves _ _ _ Hst). exists j. split; [apply inside_leaf; lia|]. split; [done|].
    rewrite nodeAt_leaf, decide_True; [done|]. apply Hseg; lia. }
  assert (take (S j) leafHashes = take j leafHashes ++ [hashAt j]) as Etake.
  { apply take_S_r. unfold leafHashes. rewrite list_lookup_fmap, lookup_seq_lt by lia. done. }
  assert (length (take j leafHashes) = j) as Elen by (rewrite length_take, length_leafHashes; lia).
  destruct (AddLeafHash_nodes Sum256 keepNode (populating st1) (λ s e i, InternalNodes s !! keyAt px e i)
    (λ e i, n = 256 ∧ inside e i ∧ 0 < e) populateNode t (take j leafHashes) (hashAt j) s)
    as (t1 & s1 & Hadd & Ht1 & Hs1 & HA1); rewrite <-?Etake; try done.
  - apply populateNode_accepts. lia.
  - apply keepNode_tracks. lia.
  - rewrite Elen. lia.
  - rewrite Elen in Hadd. erewrite mbind_step by exact Hadd. rewrite Z.eqb_refl. cbn [negb].
    replace (Z.of_nat j + 1)%Z with (Z.of_nat (S j)) by lia.
    rewrite <-Etake in *. by apply IH; [lia|..].
Qed.

(** In a full subtree, a place has the node of the tree. *)
Lemma drop_take_seq {A} (f : nat → A) a m k :
  a + m ≤ k → take m (drop a (f <$> seq 0 k)) = (λ x, f (a + x)) <$> seq 0 m.
Proof.
  intros H. replace k with (a + (m + (k - a - m))) by lia.
  rewrite seq_app, fmap_app, drop_app_length' by by rewrite length_fmap, length_seq.
  rewrite seq_app, fmap_app, take_app_length' by by rewrite length_fmap, length_seq.
  replace (0 + a) with (a + 0) by lia. by rewrite <-fmap_add_seq, <-list_fmap_compose.
Qed.

Lemma local_node e j : n = 256 → inside e j → treeNode Sum256 leafHashes e j = nodeIn L px e j.
Proof.
  intros Hfull [He Hj].
  assert (2 ^ (8 - e) * 2 ^ e = 256) as E256
    by (rewrite <-Nat.pow_add_r; by replace (8 - e + e) with 8 by lia).
  assert ((j + 1) * 2 ^ e ≤ 256) as Hb by (rewrite <-E256; apply Nat.mul_le_mono_r; lia).
  pose proof (Nat.pow_nonzero 2 e) as H2e. pose proof (Nat.pow_nonzero 2 (baseDepth px)) as HP.
  assert (leafAt ((j + 1) * 2 ^ e - 1)) as Hlast by (apply Hseg; lia).
  rewrite treeNode_perfect by (rewrite length_leafHashes, Hfull; done).
  unfold nodeAt, leafAt, present in *.
  set (P := 2 ^ baseDepth px) in *. set (k := baseIndex px) in *.
  assert ((k * 2 ^ (8 - e) + j) * 2 ^ e = k * 256 + j * 2 ^ e) as Ei by nia.
  assert ((k * 2 ^ (8 - e) + j) * 2 ^ (baseDepth px + e) = (k * 256 + j * 2 ^ e) * P) as Eid
    by (rewrite Nat.pow_add_r; fold P; nia).
  assert ((k * 256 + ((j + 1) * 2 ^ e - 1)) * P + P = (k * 256 + j * 2 ^ e) * P + 2 ^ e * P) as Ex
    by (replace (k * 256 + ((j + 1) * 2 ^ e - 1)) with (k * 256 + j * 2 ^ e + (2 ^ e - 1)) by lia;
        destruct (2 ^ e); [lia|simpl; lia]).
  unfold treeNode, present. rewrite decide_True.
  2:{ rewrite Eid, Nat.pow_add_r. fold P. nia. }
  f_equal. rewrite <-nodeHash_up.
  - unfold nodeHash at 1, leafHashes. rewrite drop_take_seq by lia. f_equal.
    apply list_fmap_ext. intros x y _. cbn. f_equal. lia.
  - rewrite Eid. fold P. rewrite Nat.mul_sub_distr_r. nia.
Qed.

Lemma populated_nodes st1 s' key h :
  populating st1 s' → (n ≠ 256 → InternalNodes st1 = InternalNodes st) →
  (∀ e i, n = 256 ∧ inside e i ∧ 0 < e →
     InternalNodes s' !! keyAt px e i = treeNode Sum256 leafHashes e i) →
  InternalNodes s' !! key = Some h ↔ InternalNodes st !! key = Some h.
Proof.
  intros Hs' Hrest HA. destruct (decide (n = 256)) as [Hfull|Hn'].
  2:{ by rewrite (pop_rest _ _ Hs' Hn'), Hrest. }
  rewrite (so_internal _ _ _ Hst). split.
  - intros Hk. destruct (pop_keyed _ _ Hs' _ _ Hk) as (e & j & Hin & He & ->).
    exists e, j. split; [done|]. split; [done|]. split; [done|].
    by rewrite <-local_node, <-HA.
  - intros (e & j & Hin & He & -> & E). by rewrite HA, local_node.
Qed.
End populate.

(** Reading back a subtree that was prepared for writing: all its nodes are there
    again. *)
Lemma populate_prepared st st1 :
  subtree_of L px st → Prefix st1 = Some px → Depth st1 = 8%Z → Leaves st1 = Leaves st →
  InternalNodes st1 = (if (numLeaves st =? 256)%Z then ∅ else InternalNodes st) →
  InternalNodeCount st1 = wrapU32 (Z.of_nat (size (InternalNodes st))) →
  ∃ st', populateLogSubtreeNodes Sum256 st1 = (Ok (), st') ∧ subtree_of L px st'.
Proof.
  intros Hst Hp Hd Hl Hi Hc. destruct leafAt_segment as (n & Hn & Hseg).
  destruct (leaves_list st n Hst Hn Hseg) as [_ Hsize].
  set (st2 := if (numLeaves st1 =? maxLeaves st1)%Z then with_InternalNodes ∅ st1 else st1).
  assert (InternalNodes st2 = if decide (n = 256) then ∅ else InternalNodes st) as Hi2.
  { unfold st2, numLeaves, maxLeaves in *. rewrite Hl, Hd, Hsize in *. change (shl64 1 8) with 256%Z.
    destruct (Z.eqb_spec (Z.of_nat n) 256); case_decide; done || lia. }
  assert (Prefix st2 = Some px ∧ Depth st2 = 8%Z ∧ Leaves st2 = Leaves st ∧
    InternalNodeCount st2 = InternalNodeCount st1) as (Hp2 & Hd2 & Hl2 & Hc2)
    by (unfold st2; by destruct (numLeaves st1 =? maxLeaves st1)%Z).
  assert (populating st n st2 st2) as Hs.
  { split; try done. intros key h. rewrite Hi2. case_decide; [done|].
    intros (e & j & ? & ? & ? & _)%(so_internal _ _ _ Hst). by exists e, j. }
  destruct (populateLoop_Ok st Hst n Hn Hseg st2 n 0 (NewTree Sum256) st2) as (t' & s' & Hrun & Hs' & HA).
  - done.
  - apply tree_of_NewTree.
  - done.
  - intros e j [-> _]. rewrite Hi2, decide_True by done. by rewrite take_0, treeNode_nil.
  - assert (InternalNodes s' = InternalNodes st) as Hi'.
    { apply map_eq. intros key. apply option_eq. intros h.
      apply (populated_nodes st Hst n Hn Hseg st2); [done| |done]. intros Hn'. by rewrite Hi2, decide_False. }
    exists (with_RootHash (CurrentRoot t') s'). split.
    + unfold populateLogSubtreeNodes. rewrite Hd. cbn [Z.ltb Z.compare]. fold st2.
      rewrite Hl2, Hsize. change (Z.of_nat 0) with 0%Z in Hrun. rewrite Hrun. cbn [InternalNodes InternalNodeCount with_RootHash].
      by rewrite Hi', (pop_count _ _ _ _ Hs'), Hc2, Hc, Z.eqb_refl.
    + split; [split; [apply Hs'|split; [apply Hs'|done]]|..]; cbn.
      * rewrite (pop_leaves _ _ _ _ Hs'). apply Hst.
      * rewrite Hi'. apply Hst.
Qed.
End one.

(** *** A property *)

(** C34. Storing a subtree of a log and reading it back gives all its nodes again:
    [prepareLogSubtreeWrite] drops the internal nodes of a full subtree, and
    [populateLogSubtreeNodes] computes them from the leaves; it keeps those of
    the others, and accepts what the former wrote. *)
Theorem subtree_roundtrip L px :
  length px ≤ 7 →
  let st := subtreeAt (treeNode Sum256 L) px in
  ∃ st1 st', prepareLogSubtreeWrite (with_RootHash None st) = (Ok (), st1) ∧
    populateLogSubtreeNodes Sum256 st1 = (Ok (), st') ∧
    Leaves st' = Leaves st ∧ InternalNodes st' = InternalNodes st ∧
    ((numLeaves st = 256)%Z → InternalNodes st1 = ∅).
Proof.
  intros Hl st. pose proof (subtreeAt_for (treeNode Sum256 L) px Hl : subtree_of L px st) as Hst.
  destruct (populate_prepared L px Hl st (prepared st) Hst) as (st' & Hp & Hst'); try done.
  exists (prepared st), st'. split; [by apply prepare_Ok|]. split; [done|].
  destruct (subtree_for_maps _ _ _ _ Hst' Hst) as [-> ->]. split; [done|]. split; [done|].
  intros E. unfold prepared. cbn [InternalNodes]. by rewrite E.
Qed.
End subtree.

(** ** Witness *)

Lemma subtree_roundtrip_witness :
  length (replicate 7 Byte.x00) ≤ 7 ∧
  size (InternalNodes (subtreeAt (treeNode toySum sampleHashes) (replicate 7 Byte.x00))) = 4 ∧
  ∃ st1 st',
    prepareLogSubtreeWrite (with_RootHash None (subtreeAt (treeNode toySum sampleHashes) (replicate 7 Byte.x00)))
      = (Ok (), st1) ∧ populateLogSubtreeNodes toySum st1 = (Ok (), st').
Proof.
  split; [simpl; lia|]. split; [vm_compute; reflexivity|].
  destruct (subtree_roundtrip toySum sampleHashes (replicate 7 Byte.x00)) as (st1 & st' & H1 & H2 & _);
    [simpl; lia|].
  exists st1, st'. split; [exact H1|exact H2].
Defined.
