(* ===== verification/Config.v ===== *)
(** * Configuration and admin storage (src/config)

    [config.go] turns the configuration file into the settings of the server,
    the CT front end's [LogConfig]s and Trillian's [Tree]s; [admin_storage.go]
    serves those trees read-only.  Reading and decoding files, durations, dates,
    PEM blocks and the protobuf wrapper of a key are the [Lib] interface. *)

From S2P Require Import Prelude Keys Trillian.

(** ** Trees and log configurations *)

(** [trillian.TreeState] *)
Inductive TreeState :=
  | UNKNOWN_TREE_STATE | ACTIVE | FROZEN | DEPRECATED_SOFT_DELETED
  | DEPRECATED_HARD_DELETED | DRAINING.

#[global] Instance TreeState_eq_dec : EqDecision TreeState.
Proof. solve_decision. Defined.

(** [trillian.TreeState_value] *)
Definition TreeState_value (s : string) : option TreeState :=
  if (s =? "UNKNOWN_TREE_STATE")%string then Some UNKNOWN_TREE_STATE
  else if (s =? "ACTIVE")%string then Some ACTIVE
  else if (s =? "FROZEN")%string then Some FROZEN
  else if (s =? "DEPRECATED_SOFT_DELETED")%string then Some DEPRECATED_SOFT_DELETED
  else if (s =? "DEPRECATED_HARD_DELETED")%string then Some DEPRECATED_HARD_DELETED
  else if (s =? "DRAINING")%string then Some DRAINING
  else None.

(** [spb.DigitallySigned_SignatureAlgorithm] *)
Inductive SignatureAlgorithm := ANONYMOUS | RSA | ECDSA.

Definition SignatureAlgorithm_value (s : string) : option SignatureAlgorithm :=
  if (s =? "ANONYMOUS")%string then Some ANONYMOUS
  else if (s =? "RSA")%string then Some RSA
  else if (s =? "ECDSA")%string then Some ECDSA
  else None.

Inductive TreeType := UNKNOWN_TREE_TYPE | LOG | MAP | PREORDERED_LOG.
Inductive HashStrategy := UNKNOWN_HASH_STRATEGY | RFC6962_SHA256 | OTHER_STRATEGY.
Inductive HashAlgorithm := HASH_NONE | SHA256.

(** [keyspb.PublicKey] by its DER bytes; [any.Any] by its type and value. *)
Abbreviation PublicKey := slice.
Abbreviation AnyProto := (string * bytes)%type.
(** [duration.Duration]: seconds and nanoseconds. *)
Abbreviation Duration := (Z * Z)%type.

(** [trillian.Tree]: the fields the configuration sets; the others keep their
    zero values. *)
Record Tree := mkTree {
  TreeId : Z;
  tree_TreeState : TreeState;
  tree_TreeType : TreeType;
  tree_HashStrategy : HashStrategy;
  tree_HashAlgorithm : HashAlgorithm;
  tree_SignatureAlgorithm : SignatureAlgorithm;
  PrivateKey : AnyProto;
  tree_PublicKey : PublicKey;
  tree_MaxRootDuration : Duration;
  CreateTime : Timestamp;
  UpdateTime : Timestamp
}.

(** [configpb.LogConfig] *)
Record LogConfig := mkLogConfig {
  LogId : Z;
  lc_Prefix : string;
  RootsPemFile : list string;
  NotAfterStart : option Timestamp;
  NotAfterLimit : option Timestamp;
  lc_PublicKey : PublicKey;
  lc_PrivateKey : AnyProto
}.

(** ** The configuration file *)

Record logMeta := mkLogMeta {
  meta_LogId : Z;
  meta_CreateTime : string;
  meta_UpdateTime : string;
  meta_TreeState : string;
  meta_SigAlg : string;
  meta_MaxRootDuration : string;
  meta_NotAfterStart : string;
  meta_NotAfterStop : string;
  meta_Prefix : string;
  meta_RootsFile : string;
  meta_PubKey : string;
  meta_PrivKey : string
}.

Record SignerConfig := mkSignerConfig { BatchSize : Z; RunInterval : Z; GuardWindow : Z }.

Record file := mkFile {
  file_MetricsAddr : string;
  file_ServerAddr : string;
  file_CertFile : string;
  file_KeyFile : string;
  file_LevelDBPath : string;
  file_B2AcctId : string;
  file_B2AppKey : string;
  file_B2Bucket : string;
  file_B2Url : string;
  file_LeafCacheSize : Z;
  file_MaxUnsequencedLeaves : Z;
  file_MaxClients : Z;
  file_RequestTimeout : string;
  file_Signer : SignerConfig;
  Logs : list logMeta
}.

(** [adminStorage] and [adminTx] hold the same slice of trees. *)
Record adminStorage := mkAdminStorage { as_trees : list Tree }.
Record adminTx := mkAdminTx { trees : list Tree }.

Record Config := mkConfig {
  MetricsAddr : string;
  ServerAddr : string;
  CertFile : string;
  KeyFile : string;
  LevelDBPath : string;
  B2AcctId : string;
  B2AppKey : string;
  B2Bucket : string;
  B2Url : string;
  LeafCacheSize : Z;
  MaxUnsequencedLeaves : Z;
  MaxClients : Z;
  RequestTimeout : Z;
  Signer : SignerConfig;
  LogConfigs : list LogConfig;
  AdminStorage : adminStorage
}.

(** What the configuration uses of other libraries: reading a file and its
    YAML, the environment, PEM, dates and durations, protobuf's wrappers. *)
Class Lib := {
  ReadFile : string → outcome bytes;
  yaml_Unmarshal : bytes → outcome file;
  ExpandEnv : string → string;
  pem_Decode : bytes → option bytes * bytes;
  MarshalAny : slice → outcome AnyProto;
  ParseDuration : string → outcome Z;
  (** [time.Parse] with the layout of [parseTime]: seconds and nanoseconds *)
  time_Parse : string → string → outcome Timestamp;
  TimestampProto : Timestamp → outcome Timestamp;
  DurationProto : Z → Duration
}.

(** [fmt.Errorf(format, ..., err)] around a call. *)
Definition wrapf {A} (format : string) (o : outcome A) : outcome A :=
  match o with Err e => Err (Wrapf format e) | _ => o end.

Definition ensure (bad : bool) (msg : string) : outcome unit :=
  if bad then Err (Errorf msg) else Ok ().

Section config.
Context `{!Lib}.

Definition parseTime (inp : string) : outcome Timestamp :=
  time_Parse "2006-01-02 15:04:05 MST" inp.

(** One half of [parseKeypair]: a PEM block and nothing behind it. *)
Definition parseBlock (s : string) (undecodable trailing : string) : outcome bytes :=
  let '(block, rest) := pem_Decode (str s) in
  match block with
  | None => Err (Errorf undecodable)
  | Some der => if (0 <? length rest)%nat then Err (Errorf trailing) else Ok der
  end.

Definition parseKeypair (meta : logMeta) : outcome (PublicKey * AnyProto) :=
  pub ← parseBlock (ExpandEnv (meta_PubKey meta))
    "failed to pem-decode public key" "unnecessary data appended to public key";
  priv ← parseBlock (ExpandEnv (meta_PrivKey meta))
    "failed to pem-decode private key" "unnecessary data appended to private key";
  privKey ← MarshalAny (Some priv);
  mret (Some pub, privKey).

Definition logConfig (meta : logMeta) : outcome LogConfig :=
  '(pubKey, privKey) ← parseKeypair meta;
  '(notAfterStart, notAfterStop) ←
    (if negb (meta_NotAfterStart meta =? "")%string || negb (meta_NotAfterStop meta =? "")%string
     then
       start ← parseTime (meta_NotAfterStart meta);
       stop ← parseTime (meta_NotAfterStop meta);
       mret (Some (start.1, 0%Z), Some (stop.1, 0%Z))
     else mret (None, None) : outcome (option Timestamp * option Timestamp));
  mret (mkLogConfig (meta_LogId meta) (meta_Prefix meta) [meta_RootsFile meta]
          notAfterStart notAfterStop pubKey privKey).

Definition readTree (meta : logMeta) : outcome Tree :=
  ts ← match TreeState_value (meta_TreeState meta) with
       | Some ts => Ok ts | None => Err (Errorf "unknown tree state: %v") end;
  sa ← match SignatureAlgorithm_value (meta_SigAlg meta) with
       | Some sa => Ok sa | None => Err (Errorf "unknown signature algorithm: %v") end;
  '(pubKey, privKey) ← parseKeypair meta;
  maxRootDuration ← wrapf "failed to parse max root duration: %v"
    (ParseDuration (meta_MaxRootDuration meta));
  createTime ← wrapf "failed to parse create time: %v" (parseTime (meta_CreateTime meta));
  createProto ← TimestampProto createTime;
  updateTime ← wrapf "failed to parse update time: %v" (parseTime (meta_UpdateTime meta));
  updateProto ← TimestampProto updateTime;
  mret (mkTree (meta_LogId meta) ts LOG RFC6962_SHA256 SHA256 sa privKey pubKey
          (DurationProto maxRootDuration) createProto updateProto).

Definition err_log_id : error := Errorf "log #%v in config file: log cannot have id %v".
Definition err_same_id : error := Errorf "logs #%v and #%v in config file have the same log id".

(** The loop that checks the log ids. *)
Fixpoint checkIds (logs : list logMeta) : outcome unit :=
  match logs with
  | [] => Ok ()
  | meta :: rest =>
      if (meta_LogId meta <=? 0)%Z then Err err_log_id
      else if existsb (λ cand, meta_LogId meta =? meta_LogId cand)%Z rest then Err err_same_id
      else checkIds rest
  end.

(** The loops that run a conversion on every log. *)
Fixpoint eachLog {B} (f : logMeta → outcome B) (logs : list logMeta) : outcome (list B) :=
  match logs with
  | [] => Ok []
  | meta :: rest =>
      b ← wrapf "log #%v in config file: %v" (f meta);
      bs ← eachLog f rest;
      mret (b :: bs)
  end.

Definition noString (s : string) : bool := (s =? "")%string.

(** The checks of the settings that are not about a log. *)
Definition checkFile (p : file) : outcome unit :=
  _ ← ensure (noString (file_MetricsAddr p))
        "no address to serve metrics on was found in config file";
  _ ← ensure (noString (file_ServerAddr p))
        "no address for the server to listen on was found in config file";
  _ ← ensure (noString (file_LevelDBPath p)) "leveldb path not found in config file";
  _ ← ensure (noString (file_B2AcctId p)) "no backblaze account id found in config file";
  _ ← ensure (noString (file_B2AppKey p)) "no backblaze application key found in config file";
  _ ← ensure (noString (file_B2Bucket p)) "no backblaze bucket found in config file";
  _ ← ensure (noString (file_B2Url p)) "no backblaze download url found in config file";
  _ ← ensure (file_LeafCacheSize p <? 0)%Z "leaf_cache_size cannot be less than zero";
  _ ← ensure (file_MaxUnsequencedLeaves p <? 1)%Z "max_unsequenced_leaves cannot be less than one";
  ensure (file_MaxClients p <? 1)%Z "max_clients cannot be less than one".

Definition FromFile (path : string) : outcome Config :=
  raw ← ReadFile path;
  p ← yaml_Unmarshal raw;
  _ ← checkFile p;
  requestTimeout ← wrapf "failed to parse request timeout: %v"
    (ParseDuration (file_RequestTimeout p));
  _ ← ensure (length (Logs p) =? 0)%nat "no logs found in config file";
  _ ← checkIds (Logs p);
  logConfigs ← eachLog logConfig (Logs p);
  trees ← eachLog readTree (Logs p);
  mret (mkConfig (file_MetricsAddr p) (file_ServerAddr p) (file_CertFile p) (file_KeyFile p)
    (file_LevelDBPath p) (ExpandEnv (file_B2AcctId p)) (ExpandEnv (file_B2AppKey p))
    (ExpandEnv (file_B2Bucket p)) (ExpandEnv (file_B2Url p)) (file_LeafCacheSize p)
    (file_MaxUnsequencedLeaves p) (file_MaxClients p) requestTimeout (file_Signer p)
    logConfigs (mkAdminStorage trees)).
End config.

(** ** The admin storage *)

Definition Snapshot (s : adminStorage) : outcome adminTx := Ok (mkAdminTx (as_trees s)).

Definition ReadWriteTransaction {S} (s : adminStorage) (f : adminTx → M S unit) : M S unit :=
  f (mkAdminTx (as_trees s)).

Fixpoint findTree (ts : list Tree) (treeID : Z) : outcome Tree :=
  match ts with
  | [] => Err (Errorf "tree %v not found")
  | t :: ts' => if (TreeId t =? treeID)%Z then Ok t else findTree ts' treeID
  end.

Definition GetTree (tx : adminTx) (treeID : Z) : outcome Tree := findTree (trees tx) treeID.

Definition ListTreeIDs (tx : adminTx) (includeDeleted : bool) : outcome (list Z) :=
  Ok (TreeId <$> trees tx).

Definition ListTrees (tx : adminTx) (includeDeleted : bool) : outcome (list Tree) :=
  Ok (trees tx).

Definition CreateTree (tx : adminTx) (t : Tree) : outcome Tree :=
  Err (Errorf "creating trees is not implemented").
Definition UpdateTree (tx : adminTx) (treeID : Z) (f : Tree → Tree) : outcome Tree :=
  Err (Errorf "updating trees is not implemented").
Definition SoftDeleteTree (tx : adminTx) (treeID : Z) : outcome Tree :=
  Err (Errorf "soft-deleting trees is not implemented").
Definition HardDeleteTree (tx : adminTx) (treeID : Z) : outcome unit :=
  Err (Errorf "hard-deleting trees is not implemented").
Definition UndeleteTree (tx : adminTx) (treeID : Z) : outcome Tree :=
  Err (Errorf "undeleting trees is not implemented").

(** ** Lemmas *)

Section lemmas.
Context `{!Lib}.

Lemma wrapf_Ok {A} fmt (o : outcome A) a : wrapf fmt o = Ok a ↔ o = Ok a.
Proof. by destruct o. Qed.

Lemma ensure_Ok bad msg u : ensure bad msg = Ok u → bad = false.
Proof. by destruct bad. Qed.

Lemma checkIds_Ok logs :
  checkIds logs = Ok () ↔
  Forall (λ m, 0 < meta_LogId m)%Z logs ∧ NoDup (meta_LogId <$> logs).
Proof.
  induction logs as [|m logs IH]; cbn [checkIds]; [split; [repeat constructor|done]|].
  rewrite fmap_cons, Forall_cons, NoDup_cons.
  destruct (Z.leb_spec (meta_LogId m) 0) as [Hle|Hlt]; [split; [done|intros [[? _] _]; lia]|].
  destruct (existsb _ logs) eqn:E.
  - split; [done|]. intros [_ [Hn _]]. destruct Hn. apply existsb_exists in E as (c & Hc & Ec).
    apply list_elem_of_fmap. exists c. split; [by apply Z.eqb_eq|by apply list_elem_of_In].
  - rewrite IH. split; [|naive_solver]. intros [? ?]. split_and!; try done.
    intros (c & Ec & Hc)%list_elem_of_fmap.
    assert (existsb (λ cand, meta_LogId m =? meta_LogId cand)%Z logs = true); [|congruence].
    apply existsb_exists. exists c. split; [by apply list_elem_of_In|by apply Z.eqb_eq].
Qed.

Lemma eachLog_Ok {B} (f : logMeta → outcome B) logs bs :
  eachLog f logs = Ok bs ↔ Forall2 (λ m b, f m = Ok b) logs bs.
Proof.
  revert bs. induction logs as [|m logs IH]; intros bs; cbn [eachLog].
  { split; [intros [= <-]; constructor|by inversion 1]. }
  rewrite outcome_bind_Ok. setoid_rewrite wrapf_Ok. setoid_rewrite outcome_bind_Ok.
  split.
  - intros (b & Hb & bs' & Hbs & [= <-]). constructor; [done|by apply IH].
  - inversion 1 as [|? b ? bs' Hb Hbs]; subst. exists b. split; [done|].
    exists bs'. split; [by apply IH|done].
Qed.

Lemma logConfig_Ok meta lc :
  logConfig meta = Ok lc →
  LogId lc = meta_LogId meta ∧ parseKeypair meta = Ok (lc_PublicKey lc, lc_PrivateKey lc).
Proof. unfold logConfig. intros Hc. inv_binds Hc. by injection Hc as <-. Qed.

Lemma readTree_Ok meta t :
  readTree meta = Ok t →
  TreeId t = meta_LogId meta ∧ tree_TreeType t = LOG ∧
  parseKeypair meta = Ok (tree_PublicKey t, PrivateKey t).
Proof. unfold readTree. intros Hc. inv_binds Hc. by injection Hc as <-. Qed.

Lemma Forall2_ids {B} (f : logMeta → outcome B) (key : B → Z) logs bs :
  (∀ m b, f m = Ok b → key b = meta_LogId m) →
  Forall2 (λ m b, f m = Ok b) logs bs → key <$> bs = meta_LogId <$> logs.
Proof.
  intros Hk. induction 1 as [|m b logs bs Hb _ IH]; [done|].
  rewrite !fmap_cons, IH. f_equal. by apply Hk.
Qed.

Lemma findTree_Ok ts t : NoDup (TreeId <$> ts) → t ∈ ts → findTree ts (TreeId t) = Ok t.
Proof.
  induction ts as [|t' ts IH]; intros Hnd Ht; [by apply elem_of_nil in Ht|].
  rewrite fmap_cons in Hnd. apply NoDup_cons in Hnd as [Hn Hnd]. cbn [findTree].
  apply elem_of_cons in Ht as [->|Ht]; [by rewrite Z.eqb_refl|].
  destruct (Z.eqb_spec (TreeId t') (TreeId t)) as [E|]; [|by apply IH].
  destruct Hn. rewrite E. apply list_elem_of_fmap. by exists t.
Qed.

Lemma findTree_None ts id : id ∉ TreeId <$> ts → findTree ts id = Err (Errorf "tree %v not found").
Proof.
  induction ts as [|t ts IH]; [done|]. rewrite fmap_cons, not_elem_of_cons. intros [H1 H2].
  cbn [findTree]. destruct (Z.eqb_spec (TreeId t) id); [congruence|by apply IH].
Qed.
End lemmas.

(** ** Properties *)

Section properties.
Context `{!Lib}.

(** The trees of an accepted configuration. *)
Lemma FromFile_trees path cfg :
  FromFile path = Ok cfg →
  TreeId <$> as_trees (AdminStorage cfg) = LogId <$> LogConfigs cfg ∧
  NoDup (LogId <$> LogConfigs cfg) ∧
  Forall (λ t, tree_TreeType t = LOG ∧ tree_HashStrategy t = RFC6962_SHA256) (as_trees (AdminStorage cfg)).
Proof.
  unfold FromFile. intros Hc. inv_binds Hc. injection Hc as <-. cbn [LogConfigs AdminStorage as_trees].
  destruct x4. apply checkIds_Ok in Hcall4 as [_ Hnd]. apply eachLog_Ok in Hcall5, Hcall6.
  rewrite (Forall2_ids logConfig LogId _ _ (λ m b H, proj1 (logConfig_Ok m b H)) Hcall5).
  rewrite (Forall2_ids readTree TreeId _ _ (λ m b H, proj1 (readTree_Ok m b H)) Hcall6).
  split; [done|]. split; [done|]. apply Forall_forall. intros t [k Hk]%list_elem_of_lookup.
  destruct (Forall2_lookup_r _ _ _ _ _ Hcall6 Hk) as (m & _ & Hm). unfold readTree in Hm. inv_binds Hm. by injection Hm as <-.
Qed.

(** C38. A configuration is accepted only with usable settings; its logs have
    distinct positive ids, one front-end configuration and one tree each, in
    the order of the file; and the admin storage finds a tree for exactly the
    ids of the logs, with the keys that the front end has for that log. *)
Theorem FromFile_valid path cfg :
  FromFile path = Ok cfg →
  (0 ≤ LeafCacheSize cfg)%Z ∧ (1 ≤ MaxUnsequencedLeaves cfg)%Z ∧ (1 ≤ MaxClients cfg)%Z ∧
  LogConfigs cfg ≠ [] ∧
  Forall (λ c, 0 < LogId c)%Z (LogConfigs cfg) ∧
  NoDup (LogId <$> LogConfigs cfg) ∧
  ∃ tx, Snapshot (AdminStorage cfg) = Ok tx ∧
    ListTreeIDs tx false = Ok (LogId <$> LogConfigs cfg) ∧
    (∀ id, id ∉ LogId <$> LogConfigs cfg → GetTree tx id = Err (Errorf "tree %v not found")) ∧
    ∀ c, c ∈ LogConfigs cfg → ∃ t, GetTree tx (LogId c) = Ok t ∧ TreeId t = LogId c ∧
      tree_TreeType t = LOG ∧ tree_PublicKey t = lc_PublicKey c ∧ PrivateKey t = lc_PrivateKey c.
Proof.
  unfold FromFile. intros Hc. inv_binds Hc. injection Hc as <-.
  cbn [LogConfigs AdminStorage LeafCacheSize MaxUnsequencedLeaves MaxClients].
  rename x5 into cs, x6 into ts. destruct x4.
  apply checkIds_Ok in Hcall4 as [Hpos Hnd]. apply eachLog_Ok in Hcall5, Hcall6.
  unfold checkFile in Hcall1. inv_binds Hcall1.
  repeat match goal with H : ensure _ _ = Ok _ |- _ => apply ensure_Ok in H end.
  assert (LogId <$> cs = meta_LogId <$> Logs x0) as Ecs
    by (by eapply Forall2_ids; [intros; by apply logConfig_Ok|]).
  assert (TreeId <$> ts = meta_LogId <$> Logs x0) as Ets
    by (by eapply Forall2_ids; [intros; by apply readTree_Ok|]).
  split_and!; [lia|lia|lia|..].
  - intros ->. inversion Hcall5 as [HL|]; subst. by rewrite <-HL in *.
  - apply Forall_forall. intros c Hin.
    assert (LogId c ∈ meta_LogId <$> Logs x0) as (m & -> & Hm)%list_elem_of_fmap.
    { rewrite <-Ecs. apply list_elem_of_fmap. by exists c. }
    by eapply Forall_forall in Hpos.
  - by rewrite Ecs.
  - exists (mkAdminTx ts). split; [done|]. unfold ListTreeIDs, GetTree. cbn [trees].
    rewrite Ets, Ecs. split; [done|]. split.
    { intros id Hid. apply findTree_None. by rewrite Ets. }
    intros c [k Hk]%list_elem_of_lookup.
    destruct (Forall2_lookup_r _ _ _ _ _ Hcall5 Hk) as (m & Hm & [Hid1 Hk1]%logConfig_Ok).
    destruct (Forall2_lookup_l _ _ _ _ _ Hcall6 Hm) as (t & Ht & (Hid2 & Hty & Hk2)%readTree_Ok).
    exists t. rewrite Hk1 in Hk2. injection Hk2 as -> ->. rewrite Hid1, <-Hid2.
    split; [|done]. apply findTree_Ok; [by rewrite Ets|by eapply list_elem_of_lookup_2].
Qed.

(** The ids are checked completely: distinct positive ids pass, and any other
    list of logs is refused with one of the two errors. *)
Theorem checkIds_complete logs :
  (checkIds logs = Ok () ∧ Forall (λ m, 0 < meta_LogId m)%Z logs ∧ NoDup (meta_LogId <$> logs)) ∨
  ((checkIds logs = Err err_log_id ∨ checkIds logs = Err err_same_id) ∧
   ¬ (Forall (λ m, 0 < meta_LogId m)%Z logs ∧ NoDup (meta_LogId <$> logs))).
Proof.
  rewrite <-checkIds_Ok.
  assert (checkIds logs = Ok () ∨ checkIds logs = Err err_log_id ∨ checkIds logs = Err err_same_id)
    as [->|[->| ->]].
  { induction logs as [|m logs IH]; cbn [checkIds]; [by left|]. repeat case_match; auto. }
  - left. by split.
  - right. split; [by left|done].
  - right. split; [by right|done].
Qed.
End properties.

(** ** Witness *)

(** A file with one log, under stand-ins for the libraries. *)
Definition exampleMeta : logMeta :=
  mkLogMeta 7 "2018-01-01 00:00:00 UTC" "2018-01-01 00:00:00 UTC" "ACTIVE" "ECDSA" "1h" "" ""
    "mylog" "roots.pem" "pub" "priv".
Definition exampleFile : file :=
  mkFile ":1080" ":1944" "" "" "/var/db" "acct" "key" "bucket" "url" 0 1 1 "10s"
    (mkSignerConfig 50 1 1) [exampleMeta].

#[local] Instance exampleLib : Lib := {|
  ReadFile _ := Ok [];
  yaml_Unmarshal _ := Ok exampleFile;
  ExpandEnv s := s;
  pem_Decode b := (Some b, []);
  MarshalAny k := Ok ("PrivateKey"%string, sl k);
  ParseDuration _ := Ok 10%Z;
  time_Parse _ _ := Ok (0, 0)%Z;
  TimestampProto t := Ok t;
  DurationProto d := (d, 0)%Z
|}.

Lemma FromFile_valid_witness :
  ∃ cfg, FromFile "config.yml" = Ok cfg ∧ LogConfigs cfg ≠ [] ∧
    NoDup (LogId <$> LogConfigs cfg).
Proof.
  destruct (FromFile "config.yml") as [cfg| |] eqn:E; [|discriminate E..].
  destruct (FromFile_valid "config.yml" cfg E) as (_ & _ & _ & H1 & _ & H2 & _).
  exists cfg. split; [reflexivity|]. split; [exact H1|exact H2].
Defined.
