(* ===== verification/ReadTx.v ===== *)
(** * Read-only transactions (src/ct/read_log_tx.go, src/ct/read_tree_tx.go)

    [readOnlyLogTX] lists the active logs; [readOnlyLogTreeTX] reads the leaves
    and the Merkle nodes of one log at the root that was current when it began,
    and checks every leaf that the bucket returns against the local tree. *)

From S2P Require Import Prelude Keys Trillian Frontier LevelDB Local.
From S2P Require Import Remote Cache Compact Nodes SubtreeCache Config.

(** What the transactions of a server share: the local database, the bucket
    and the cache of queued leaves. *)
Record System := mkSystem {
  local : DB;
  remote : Remote;
  leafCache : @cache LogLeaf
}.

Definition with_local (d : DB) (s : System) : System := mkSystem d (remote s) (leafCache s).
Definition with_remote (r : Remote) (s : System) : System := mkSystem (local s) r (leafCache s).

(** ** Transactions that are not tied to a log *)

(** The methods of [storage.ReadOnlyAdminTX] that are called. *)
Record ReadOnlyAdminTX := mkROAdmin { admin_ListTrees : bool → outcome (list Tree) }.

(** [config.adminTx] implements them. *)
Definition adminTx_iface (tx : adminTx) : ReadOnlyAdminTX := mkROAdmin (ListTrees tx).

Record readOnlyLogTX := mkROL { rol_adminTx : ReadOnlyAdminTX; rol_closed : bool }.

Definition err_rol_closed : error := Errorf "read-only log tx is closed".

(** The loop that keeps the ids of the active trees. *)
Definition activeIDs (ts : list Tree) : list Z :=
  fold_left (λ ids t,
    if bool_decide (tree_TreeState t = ACTIVE) then ids ++ [TreeId t] else ids) ts [].

Definition GetActiveLogIDs : M readOnlyLogTX (list Z) :=
  rol ← get;
  if rol_closed rol then fail err_rol_closed
  else
    trees ← lift (admin_ListTrees (rol_adminTx rol) false);
    mret (activeIDs trees).

Definition GetUnsequencedCounts : M readOnlyLogTX (list (Z * Z)) :=
  fail (Errorf "getting unsequenced counts is not implemented").

Definition rol_Close : M readOnlyLogTX unit := modify (λ rol, mkROL (rol_adminTx rol) true).

Definition rol_Commit : M readOnlyLogTX unit :=
  rol ← get;
  if rol_closed rol then fail err_rol_closed else rol_Close.

Definition rol_Rollback : M readOnlyLogTX unit := rol_Commit.

(** ** Transactions on one log *)

Record readOnlyLogTreeTX := mkROLT {
  subtreeCache : SubtreeCache;
  treeID : Z;
  root : SignedLogRoot;
  front : Frontier;
  closed : bool
}.

Definition with_subtreeCache (c : SubtreeCache) (tx : readOnlyLogTreeTX) : readOnlyLogTreeTX :=
  mkROLT c (treeID tx) (root tx) (front tx) (closed tx).
Definition with_front (f : Frontier) (tx : readOnlyLogTreeTX) : readOnlyLogTreeTX :=
  mkROLT (subtreeCache tx) (treeID tx) (root tx) f (closed tx).
Definition with_closed (b : bool) (tx : readOnlyLogTreeTX) : readOnlyLogTreeTX :=
  mkROLT (subtreeCache tx) (treeID tx) (root tx) (front tx) b.

(** Calls on the shared parts of the system. *)
Definition onLocal {T A} (m : M DB A) : M (System * T) A :=
  zoom (λ w, local w.1) (λ d w, (with_local d w.1, w.2)) m.
Definition onRemote {T A} (m : M Remote A) : M (System * T) A :=
  zoom (λ w, remote w.1) (λ r w, (with_remote r w.1, w.2)) m.

(** Calls on the transaction's subtree cache, which reads the database. *)
Definition onSubtrees {A} (m : M (SubtreeCache * DB) A) : M (System * readOnlyLogTreeTX) A :=
  zoom (λ w, (subtreeCache w.2, local w.1))
    (λ p w, (with_local p.2 w.1, with_subtreeCache p.1 w.2)) m.

Abbreviation ReadM := (M (System * readOnlyLogTreeTX)).

Definition err_bad_index : error := Errorf "%v is a bad leaf index".
Definition err_no_leaf_yet : error := Errorf "there is no leaf with index %v yet".
Definition err_verifying : error := Errorf "error verifying leaves read from B2".
Definition err_merkle_hash : error :=
  Errorf "leaf at index %v doesn't have the expected merkle hash".
Definition err_subtrees : error := Errorf "got %d subtrees, but expected 0 or 1".

(** [make([]int64, 0, count)] panics for a negative or an unallocatable
    capacity: more than 2^48 bytes. *)
Definition make_int64s (count : Z) : outcome (list Z) :=
  if (count <? 0)%Z || (2 ^ 48 <? 8 * count)%Z then Panic else Ok [].

(** The loop of [GetLeavesByRange], with [n] rounds left: the index stays
    below [start + count], so [count] rounds are enough. *)
Fixpoint rangeLoop (n : nat) (idx limit size : Z) : list Z :=
  match n with
  | O => []
  | S n' =>
      if (idx <? limit)%Z && (idx <? size)%Z
      then idx :: rangeLoop n' (wrap64 (idx + 1)) limit size else []
  end.

(** The range check of [GetLeavesByIndex]. *)
Fixpoint checkIndexes (size : Z) (indexes : list Z) : outcome unit :=
  match indexes with
  | [] => Ok ()
  | idx :: rest =>
      if (idx <? 0)%Z then Err err_bad_index
      else if (size <=? idx)%Z then Err err_no_leaf_yet
      else checkIndexes size rest
  end.

(** The node ids of leaves. *)
Fixpoint leafNodes (indexes : list Z) : outcome (list NodeID) :=
  match indexes with
  | [] => Ok []
  | idx :: rest =>
      n ← NewNodeIDForTreeCoords 0 idx 64;
      ns ← leafNodes rest;
      mret (n :: ns)
  end.

(** The loop that compares the hashes; [i] counts the nodes. *)
Fixpoint verifyNodes (i : nat) (nodes : list Node) (leaves : list LogLeaf) : outcome unit :=
  match nodes with
  | [] => Ok ()
  | node :: rest =>
      leaf ← indexLeaf leaves (Z.of_nat i);
      if negb (bytes_Equal (Hash node) (MerkleLeafHash leaf)) then Err err_merkle_hash
      else verifyNodes (S i) rest leaves
  end.

(** A sequence number outside the tree of the transaction. *)
Definition outside (size idx : Z) : bool := (idx <? 0)%Z || (size <=? idx)%Z.

(** The loop of [GetLeavesByHash] over the hashes and their sequence numbers:
    the number of leaves compared. *)
Fixpoint verifyHashes (size : Z) (j : nat) (rows : list (slice * Z)) (leaves : list LogLeaf)
    : outcome nat :=
  match rows with
  | [] => Ok j
  | (hash, idx) :: rest =>
      if outside size idx then verifyHashes size j rest leaves
      else
        leaf ← indexLeaf leaves (Z.of_nat j);
        if negb (bytes_Equal hash (MerkleLeafHash leaf)) then Err err_merkle_hash
        else verifyHashes size (S j) rest leaves
  end.

Section tree_tx.
Context (Sum256 : bytes → bytes).
Context `{!Codec SubtreeProto, !Codec (list LogLeaf), !MapRange bytes}.

Definition LatestSignedLogRoot : ReadM SignedLogRoot := w ← get; mret (root w.2).
Definition ReadRevision : ReadM Z := w ← get; mret (TreeRevision (root w.2)).
Definition GetSequencedLeafCount : ReadM Z := w ← get; mret (TreeSize (root w.2)).

(** [getSubtrees], and the closure [getSubtreesAtRev]. *)
Definition getSubtrees (treeID treeRevision : Z) (ids : list NodeID) : M DB (list SubtreeProto) :=
  GetSubtrees treeID treeRevision ids.

Definition rolt_getSubtree (treeID treeRevision : Z) (nodeID : NodeID)
    : M DB (option SubtreeProto) :=
  s ← getSubtrees treeID treeRevision [nodeID];
  match s with
  | [] => mret None
  | [t] => mret (Some t)
  | _ => fail err_subtrees
  end.

Definition GetMerkleNodes (treeRevision : Z) (ids : list NodeID) : ReadM (list Node) :=
  w ← get;
  onSubtrees (GetNodes (populateLogSubtreeNodes Sum256) ids (getSubtrees (treeID w.2) treeRevision)).

(** [GetLeaves] sorts the slice of indexes, so that the nodes are read and
    compared in sorted order. *)
Definition GetLeavesByIndex (indexes : list Z) : ReadM (list LogLeaf) :=
  w ← get;
  _ ← lift (checkIndexes (TreeSize (root w.2)) indexes);
  '(leaves, indexes) ← onRemote (GetLeaves (treeID w.2) indexes);
  nodeIds ← lift (leafNodes indexes);
  rev ← ReadRevision;
  nodes ← GetMerkleNodes rev nodeIds;
  if negb (length nodes =? length leaves)%nat then fail err_verifying
  else
    _ ← lift (verifyNodes 0 nodes leaves);
    mret leaves.

Definition GetLeavesByRange (start count : Z) : ReadM (list LogLeaf) :=
  w ← get;
  _ ← lift (make_int64s count);
  GetLeavesByIndex (rangeLoop (Z.to_nat count) start (wrap64 (start + count)) (TreeSize (root w.2))).

Definition GetLeavesByHash (leafHashes : list slice) (orderBySequence : bool)
    : ReadM (list LogLeaf) :=
  w ← get;
  temp ← onLocal (GetSequenceByMerkleHash (treeID w.2) leafHashes);
  let size := TreeSize (root w.2) in
  let indexes := filter (λ idx, outside size idx = false) temp in
  '(leaves, _) ← onRemote (GetLeaves (treeID w.2) indexes);
  j ← lift (verifyHashes size 0 (zip leafHashes temp) leaves);
  if negb (j =? length leaves)%nat then fail err_verifying else mret leaves.

Definition rolt_Close : ReadM unit := modify (λ w, (w.1, with_closed true w.2)).
Definition rolt_Commit : ReadM unit := rolt_Close.
Definition rolt_Rollback : ReadM unit := rolt_Close.
Definition rolt_IsOpen (tx : readOnlyLogTreeTX) : bool := negb (closed tx).
End tree_tx.

(** ** The database as a store of subtrees *)

Section database.
Context (Sum256 : bytes → bytes).
Context `{!Codec SubtreeProto}.

(** The subtree of a prefix that a transaction at revision [rev] reads. *)
Definition rowOf (m : kvmap) (t rev : Z) (px : bytes) : option bytes :=
  let id := mkNodeID px (Z.of_nat (length px) * 8) in
  if decide (length px ≤ 7) then seekRow m (subtreeRow t rev id) (keyB typ_s t (range_stop id))
  else None.

Definition dbStore (m : kvmap) (t rev : Z) (px : bytes) : option SubtreeProto :=
  raw ← rowOf m t rev px;
  match unmarshal raw with Ok st => Some (fixPrefix st) | _ => None end.

(** Every row that may be read holds a subtree under its prefix that passes
    the checks of [populateLogSubtreeNodes]. *)
Definition subtrees_ok (m : kvmap) (t rev : Z) : Prop :=
  ∀ px raw, rowOf m t rev px = Some raw →
  ∃ st st', unmarshal raw = Ok st ∧ populateLogSubtreeNodes Sum256 (fixPrefix st) = (Ok (), st') ∧
    SubtreeCache.wf_subtree px st'.

Lemma wanted_valid px id : wanted_id (px, id) → valid_NodeID id ∧ node_prefix id = px.
Proof.
  intros (H1 & H2 & H3 & H4). unfold valid_NodeID, node_prefix.
  rewrite H1, Z.mod_mul, Z.div_mul, Nat2Z.id, H3 by lia. split; [lia|done].
Qed.

Lemma getSubtree_dbStore m t rev id px :
  subtrees_ok m t rev → wanted_id (px, id) →
  getSubtree t rev id (mkDB m []) = (Ok (dbStore m t rev px), mkDB m []).
Proof.
  intros Hok Hid. destruct (wanted_valid px id Hid) as [Hv Hp].
  set (id' := mkNodeID px (Z.of_nat (length px) * 8)).
  assert (node_prefix id' = node_prefix id ∧ PrefixLenBits id' = PrefixLenBits id) as [E1 E2].
  { rewrite Hp. unfold id', node_prefix. cbn [PrefixLenBits Path].
    rewrite Z.div_mul, Nat2Z.id, firstn_all by lia. split; [done|]. symmetry. apply Hid. }
  assert (node_rowkey rev id' = node_rowkey rev id) as E3 by (by apply node_rowkey_ext).
  assert (range_stop id' = range_stop id) as E4 by (unfold range_stop; by rewrite E1, E2).
  assert (rowOf m t rev px = seekRow m (keyB typ_s t (node_rowkey rev id))
            (keyB typ_s t (range_stop id))) as Er.
  { unfold rowOf, subtreeRow. rewrite decide_True by apply Hid. fold id'. by rewrite E3, E4. }
  unfold getSubtree. rewrite rangeNodeID_valid by done.
  do 4 (erewrite mbind_step by reflexivity; cbv beta iota). cbn [kv].
  rewrite <-Er, dupSlice_id. unfold dbStore.
  destruct (rowOf m t rev px) as [raw|] eqn:E; [|done].
  destruct (Hok px raw E) as (st & st' & Hu & _). cbn [mbind option_bind].
  unfold_M. by rewrite Hu.
Qed.

Lemma wrapErr_step {S A} fmt (m : M S A) s a s' :
  m s = (Ok a, s') → wrapErr fmt m s = (Ok a, s').
Proof. unfold wrapErr. unfold_M. by intros ->. Qed.

Lemma getSubtrees_mfold m t rev ids out :
  subtrees_ok m t rev → Forall subtreeID ids →
  mfold (λ out id,
    subtree ← wrapErr "node id #%v: %v" (getSubtree t rev id);
    match subtree with None => mret out | Some st => mret (out ++ [st]) end) out ids (mkDB m []) =
  (Ok (out ++ omap (dbStore m t rev ∘ idPrefix) ids), mkDB m []).
Proof.
  intros Hok Hids. revert out. induction Hids as [|id ids [px Hid] Hids IH]; intros out.
  { cbn. by rewrite app_nil_r. }
  cbn [omap list_omap]. unfold compose at 1. rewrite (wanted_idPrefix px id Hid).
  pose proof (getSubtree_dbStore m t rev id px Hok Hid) as Hg.
  destruct (dbStore m t rev px) as [st|].
  - rewrite (mfold_step _ _ _ _ _ (out ++ [st]) (mkDB m [])).
    + rewrite IH. by rewrite <-app_assoc.
    + by rewrite (mbind_step _ _ _ _ _ (wrapErr_step _ _ _ _ _ Hg)).
  - rewrite (mfold_step _ _ _ _ _ out (mkDB m [])); [apply IH|].
    by rewrite (mbind_step _ _ _ _ _ (wrapErr_step _ _ _ _ _ Hg)).
Qed.

(** The database answers the subtree cache as the cache expects. *)
Lemma local_storage_ok m t rev :
  subtrees_ok m t rev →
  storage_ok (populateLogSubtreeNodes Sum256) (dbStore m t rev) (getSubtrees t rev) (mkDB m []).
Proof.
  intros Hok. split.
  - intros ids Hids. unfold getSubtrees, GetSubtrees. by rewrite getSubtrees_mfold.
  - intros px st Hst. unfold dbStore in Hst.
    destruct (rowOf m t rev px) as [raw|] eqn:Er; [|done]. cbn in Hst.
    destruct (Hok px raw Er) as (st0 & st' & Eu & Hp & Hw). rewrite Eu in Hst.
    injection Hst as <-. by exists st'.
Qed.
End database.

(** ** Lemmas *)

Lemma checkIndexes_Ok size indexes :
  checkIndexes size indexes = Ok () ↔ Forall (λ i, 0 ≤ i < size)%Z indexes.
Proof.
  induction indexes as [|i l IH]; cbn [checkIndexes]; [by split; [constructor|]|].
  rewrite Forall_cons, <-IH. destruct (Z.ltb_spec i 0); [split; [done|lia]|].
  destruct (Z.leb_spec size i); [split; [done|lia]|]. intuition lia.
Qed.

(** The coordinates of leaves. *)
Definition leafCoords (indexes : list Z) : list (Z * Z) := (λ i, (0, i)%Z) <$> indexes.

Lemma leafNodes_Ok size indexes :
  (size ≤ 2 ^ 63)%Z → Forall (λ i, 0 ≤ i < size)%Z indexes →
  leafNodes indexes = Ok (logID <$> leafCoords indexes) ∧ Forall logNode (leafCoords indexes).
Proof.
  intros Hs. induction 1 as [|i l Hi Hl [IH1 IH2]]; [by split; [|constructor]|].
  assert (validCoords 0 i) as Hv by (split; lia).
  split; [|constructor; [split; [done|lia]|done]]. cbn [leafNodes].
  rewrite NewNodeIDForTreeCoords_valid by (done || unfold int64; lia).
  unfold_O. rewrite IH1. done.
Qed.

Lemma verifyNodes_Ok i nodes leaves :
  verifyNodes i nodes leaves = Ok () ↔
  ∀ k n, nodes !! k = Some n → ∃ l, leaves !! (i + k) = Some l ∧
    sl (Hash n) = sl (MerkleLeafHash l).
Proof.
  revert i. induction nodes as [|n nodes IH]; intros i; cbn [verifyNodes]; [done|].
  unfold indexLeaf. destruct (Z.ltb_spec (Z.of_nat i) 0); [lia|]. rewrite Nat2Z.id.
  unfold_O. unfold bytes_Equal. split.
  - destruct (leaves !! i) as [l|] eqn:El; [|done]. case_bool_decide as Eh; [|done]. cbn [negb].
    intros Hr [|k] n' Hk; simplify_eq/=.
    + exists l. by rewrite Nat.add_0_r.
    + replace (i + S k) with (S i + k) by lia. by apply (IH (S i)).
  - intros Hall. destruct (Hall 0 n eq_refl) as (l & El & Eh). rewrite Nat.add_0_r in El.
    rewrite El, bool_decide_true by done. cbn [negb]. apply IH. intros k n' Hk.
    replace (S i + k) with (i + S k) by lia. by apply Hall.
Qed.

Lemma verifyHashes_Ok size j rows leaves n :
  verifyHashes size j rows leaves = Ok n →
  let rows' := filter (λ r, outside size r.2 = false) rows in
  n = j + length rows' ∧
  ∀ k r, rows' !! k = Some r → ∃ l, leaves !! (j + k) = Some l ∧ sl r.1 = sl (MerkleLeafHash l).
Proof.
  cbn zeta. revert j. induction rows as [|[h idx] rows IH]; intros j; cbn [verifyHashes].
  { intros [= <-]. split; [simpl; lia|done]. }
  rewrite filter_cons. cbn [snd]. destruct (outside size idx) eqn:Eo.
  { intros Hv. rewrite decide_False by done. by apply IH. }
  rewrite decide_True by done. unfold indexLeaf.
  destruct (Z.ltb_spec (Z.of_nat j) 0); [lia|]. rewrite Nat2Z.id. unfold_O. unfold bytes_Equal.
  destruct (leaves !! j) as [l|] eqn:El; [|done]. case_bool_decide as Eh; [|done]. cbn [negb].
  intros Hv. apply IH in Hv as [-> Hk]. split; [cbn [length]; lia|].
  intros [|k] r Hr; simplify_eq/=.
  - exists l. by rewrite Nat.add_0_r.
  - replace (j + S k) with (S j + k) by lia. by apply Hk.
Qed.

Lemma rangeLoop_seqZ n idx limit size :
  (- 2 ^ 63 ≤ idx)%Z → (size < 2 ^ 63)%Z → (Z.min limit size - idx ≤ Z.of_nat n)%Z →
  rangeLoop n idx limit size = seqZ idx (Z.min limit size - idx).
Proof.
  intros Hi Hs. revert idx Hi. induction n as [|n IH]; intros idx Hi Hn; cbn [rangeLoop].
  { by rewrite seqZ_nil by lia. }
  destruct (Z.ltb_spec idx limit), (Z.ltb_spec idx size); cbn [andb];
    [|by rewrite seqZ_nil by lia..].
  rewrite wrap64_small by (unfold int64; lia). rewrite IH by lia.
  rewrite (seqZ_cons idx) by lia. do 2 f_equal; lia.
Qed.

Lemma activeIDs_filter ts :
  activeIDs ts = TreeId <$> filter (λ t, tree_TreeState t = ACTIVE) ts.
Proof.
  unfold activeIDs.
  assert (∀ acc, fold_left (λ ids t,
    if bool_decide (tree_TreeState t = ACTIVE) then ids ++ [TreeId t] else ids) ts acc =
    acc ++ (TreeId <$> filter (λ t, tree_TreeState t = ACTIVE) ts)) as H; [|apply H].
  induction ts as [|t ts IH]; intros acc; [by rewrite app_nil_r|].
  cbn [fold_left]. rewrite IH, filter_cons. case_bool_decide as E.
  - rewrite decide_True by done. by rewrite fmap_cons, <-app_assoc.
  - by rewrite decide_False by done.
Qed.

(** A list that keeps its length under [omap] kept every element. *)
Lemma omap_full {A B} (f : A → option B) l :
  length (omap f l) = length l → ∀ k x, l !! k = Some x → ∃ y, f x = Some y ∧ omap f l !! k = Some y.
Proof.
  assert (∀ l, length (omap f l) ≤ length l) as Hle.
  { clear l. induction l as [|x l IH]; [done|]. cbn [omap list_omap].
    destruct (f x); simpl; lia. }
  induction l as [|x l IH]; [done|]. cbn [omap list_omap]. destruct (f x) as [y|] eqn:E.
  - intros [= Hl] [|k] x' Hk; simplify_eq/=; [by exists y|]. by apply IH.
  - intros Hl. specialize (Hle l). simpl in Hl. lia.
Qed.

(** ** Properties *)

Section properties.
Context (Sum256 : bytes → bytes).
Context `{!Codec SubtreeProto, !Codec (list LogLeaf), !MapRange bytes, !MapRangeLaws bytes}.

(** The hash that the transaction's tree has for a node. *)
Definition treeHash (m : kvmap) (tx : readOnlyLogTreeTX) (d i : Z) : slice :=
  abs (populateLogSubtreeNodes Sum256) (dbStore m (treeID tx) (TreeRevision (root tx)))
    (subtreeCache tx) d i.

(** A transaction on a fault-free database whose subtrees can be read. *)
Record readable (m : kvmap) (s : System) (tx : readOnlyLogTreeTX) : Prop := {
  readable_db : local s = mkDB m [];
  readable_cache : wf_cache (subtreeCache tx);
  readable_rows : subtrees_ok Sum256 m (treeID tx) (TreeRevision (root tx));
  readable_size : (TreeSize (root tx) < 2 ^ 63)%Z
}.

Lemma GetMerkleNodes_leaves m s tx r' indexes :
  readable m s tx → Forall (λ i, 0 ≤ i < TreeSize (root tx))%Z indexes →
  ∃ ids nodes c', leafNodes indexes = Ok ids ∧
    GetMerkleNodes Sum256 (TreeRevision (root tx)) ids (with_remote r' s, tx) =
      (Ok nodes, (with_remote r' s, with_subtreeCache c' tx)) ∧
    nodes = omap (λ i, match treeHash m tx 0 i with
                       | Some h => Some (mkNode (coordsID 0 i) (Some h)) | None => None end) indexes.
Proof.
  intros [Hdb Hc Hr Hs] Hi.
  destruct (leafNodes_Ok (TreeSize (root tx)) indexes) as [Hl Hn]; [lia|done|].
  destruct (GetNodes_cur (populateLogSubtreeNodes Sum256)
    (dbStore m (treeID tx) (TreeRevision (root tx))) (getSubtrees (treeID tx) (TreeRevision (root tx)))
    (mkDB m []) (subtreeCache tx) (leafCoords indexes)) as (c' & Hg & _); [|done|done|].
  { by apply local_storage_ok. }
  eexists _, _, _. split; [exact Hl|]. split.
  - unfold GetMerkleNodes, onSubtrees. unfold_M. cbn [fst snd local with_remote]. rewrite Hdb, Hg.
    rewrite <-Hdb. reflexivity.
  - unfold nodesOf, leafCoords. clear. induction indexes as [|i l IH]; [done|].
    rewrite fmap_cons. cbn [omap list_omap fst snd]. unfold treeHash at 1.
    destruct (abs _ _ _ 0 i); [f_equal|]; apply IH.
Qed.

(** What [GetLeavesByIndex] does once the bucket answered. *)
Lemma GetLeavesByIndex_checked m s tx indexes leaves seqs r' :
  readable m s tx → Forall (λ i, 0 ≤ i < TreeSize (root tx))%Z indexes →
  GetLeaves (treeID tx) indexes (remote s) = (Ok (leaves, seqs), r') →
  ∃ nodes c',
    nodes = omap (λ i, match treeHash m tx 0 i with
                       | Some h => Some (mkNode (coordsID 0 i) (Some h)) | None => None end) seqs ∧
    GetLeavesByIndex Sum256 indexes (s, tx) =
      ((if negb (length nodes =? length leaves)%nat then Err err_verifying
        else _ ← verifyNodes 0 nodes leaves; Ok leaves), (with_remote r' s, with_subtreeCache c' tx)).
Proof.
  intros Hr Hi Hg. pose proof (GetLeaves_length _ _ _ _ _ _ Hg) as [_ Es].
  assert (Forall (λ i, 0 ≤ i < TreeSize (root tx))%Z seqs) as Hi'.
  { subst seqs. by rewrite (proj1 (sortSeqs_spec indexes)). }
  destruct (GetMerkleNodes_leaves m s tx r' seqs Hr Hi') as (ids & nodes & c' & Hl & Hm & En).
  exists nodes, c'. split; [done|]. unfold GetLeavesByIndex. erewrite mbind_step by reflexivity.
  cbn [snd]. rewrite (proj2 (checkIndexes_Ok _ _) Hi). erewrite mbind_step by reflexivity.
  erewrite mbind_step by (unfold onRemote, zoom; cbn [fst snd]; rewrite Hg; reflexivity).
  cbn [fst snd]. rewrite Hl. erewrite mbind_step by reflexivity.
  erewrite mbind_step by reflexivity. erewrite mbind_step by exact Hm.
  destruct (length nodes =? length leaves)%nat; [|done]. cbn [negb].
  unfold_M. by destruct (verifyNodes 0 nodes leaves).
Qed.

(** C24. Leaves are verified: whatever the bucket or the network answered, a leaf
    that [GetLeavesByIndex] returns has the hash that the local tree has at
    that index, and there is one for every index asked for, in index order. *)
Theorem GetLeavesByIndex_verified m s tx indexes leaves w :
  readable m s tx →
  GetLeavesByIndex Sum256 indexes (s, tx) = (Ok leaves, w) →
  Forall (λ i, 0 ≤ i < TreeSize (root tx))%Z indexes ∧ length leaves = length indexes ∧
  ∀ k i, sortSeqs indexes !! k = Some i →
    ∃ l h, leaves !! k = Some l ∧ treeHash m tx 0 i = Some h ∧ sl (MerkleLeafHash l) = h.
Proof.
  intros Hr Hok.
  assert (Forall (λ i, 0 ≤ i < TreeSize (root tx))%Z indexes ∧
    ∃ ls seqs r', GetLeaves (treeID tx) indexes (remote s) = (Ok (ls, seqs), r')) as [Hi Hg].
  { pose proof Hok as Hx. unfold GetLeavesByIndex in Hx.
    apply mbind_Ok in Hx as (w0 & s0 & [= <- <-] & Hx). cbn [snd] in Hx.
    apply mbind_Ok in Hx as ([] & s1 & [= Hc <-] & Hx). apply checkIndexes_Ok in Hc.
    split; [done|]. apply mbind_Ok in Hx as ([ls seqs] & s2 & Hg & _).
    unfold onRemote, zoom in Hg. cbn [fst] in Hg. destruct (GetLeaves _ _ _) as [o r'].
    injection Hg as -> _. by exists ls, seqs, r'. }
  destruct Hg as (ls & seqs & r' & Hg). pose proof (GetLeaves_length _ _ _ _ _ _ Hg) as [Hlen Es].
  destruct (GetLeavesByIndex_checked m s tx indexes ls seqs r' Hr Hi Hg) as (nodes & w' & En & E).
  rewrite E in Hok. destruct (Nat.eqb_spec (length nodes) (length ls)) as [Hn|]; [|done].
  cbn [negb] in Hok. destruct (verifyNodes 0 nodes ls) as [[]| |] eqn:Hv; [|done..].
  injection Hok as <- _. subst seqs. split; [done|].
  split; [by rewrite Hlen, (proj1 (sortSeqs_spec indexes))|].
  intros k i Hk. rewrite En, Hlen in Hn.
  destruct (omap_full _ _ Hn k i Hk) as (n & Hni & Hnk). rewrite <-En in Hnk.
  destruct (proj1 (verifyNodes_Ok 0 nodes ls) Hv k n Hnk) as (l & Hl & Eh).
  destruct (treeHash m tx 0 i) as [h|]; [|done]. injection Hni as <-. by exists l, h.
Qed.

(** Leaves are served: when the bucket holds the leaves of the log and the
    local tree their hashes, [GetLeavesByIndex] returns the leaves at the
    indexes asked for, in index order. *)
Theorem GetLeavesByIndex_serves `{!JSONLaws} m s tx log indexes :
  readable m s tx → netFaults (remote s) = [] →
  wf_remote (treeID tx) (remote s) → covers (remote s) (treeID tx) log →
  TreeSize (root tx) = Z.of_nat (length log) →
  (∀ i l, log !! i = Some l → treeHash m tx 0 (Z.of_nat i) = Some (sl (MerkleLeafHash l))) →
  Forall (inLog log) indexes →
  ∃ leaves c', GetLeavesByIndex Sum256 indexes (s, tx) = (Ok leaves, (s, with_subtreeCache c' tx)) ∧
    Forall2 (logLeafAt log) (sortSeqs indexes) leaves.
Proof.
  intros Hr Hf Hw Hcov Hsz Hh Hin.
  destruct (GetLeaves_log (treeID tx) log indexes (remote s))
    as (o & r' & Hg & _ & _ & Hok & Hout); [by rewrite Hf|done|done| |done|].
  { rewrite <-Hsz. apply Hr. }
  destruct (Hok Hf) as [-> [[leaves seqs] ->]]. destruct (Hout _ _ eq_refl) as (_ & _ & H2).
  pose proof (GetLeaves_length _ _ _ _ _ _ Hg) as [Hlen ->].
  destruct (GetLeavesByIndex_checked m s tx indexes leaves (sortSeqs indexes) (remote s) Hr)
    as (nodes & c' & En & E); [|done|].
  { eapply Forall_impl; [exact Hin|]. unfold inLog. intros i. by rewrite Hsz. }
  exists leaves, c'. split; [|done]. rewrite E.
  assert (with_remote (remote s) s = s) as -> by (by destruct s).
  assert (Forall2 (λ n l, sl (Hash n) = sl (MerkleLeafHash l)) nodes leaves) as Hnl.
  { rewrite En. clear -H2 Hh. induction H2 as [|i l seqs ls (Hp & l0 & Hl0 & ->) _ IH]; [constructor|].
    apply Hh in Hl0. rewrite Z2Nat.id in Hl0 by done. cbn [omap list_omap]. rewrite Hl0.
    constructor; [|done]. cbn. by destruct (MerkleLeafHash l0) as [[]|]. }
  rewrite (Forall2_length _ _ _ Hnl), Nat.eqb_refl. cbn [negb].
  rewrite (proj2 (verifyNodes_Ok 0 nodes leaves)); [done|].
  intros k n Hk. destruct (Forall2_lookup_l _ _ _ _ _ Hnl Hk) as (l & Hl & El). by exists l.
Qed.

(** Leaves looked up by hash are verified: whatever the bucket answers, the
    leaves that [GetLeavesByHash] returns have the hashes asked for, one for
    every hash that has an index within the tree, in the order of the request. *)
Theorem GetLeavesByHash_verified s tx hashes order leaves w :
  GetLeavesByHash hashes order (s, tx) = (Ok leaves, w) →
  ∃ temp d, GetSequenceByMerkleHash (treeID tx) hashes (local s) = (Ok temp, d) ∧
    (λ l, sl (MerkleLeafHash l)) <$> leaves =
    (λ r, sl r.1) <$> filter (λ r, outside (TreeSize (root tx)) r.2 = false) (zip hashes temp).
Proof.
  unfold GetLeavesByHash. intros Hx. apply mbind_Ok in Hx as (w0 & s0 & [= <- <-] & Hx).
  apply mbind_Ok in Hx as (temp & s1 & Ht & Hx). cbn [fst snd] in *.
  unfold onLocal, zoom in Ht. cbn [fst] in Ht.
  destruct (GetSequenceByMerkleHash _ _ _) as [o d]. injection Ht as -> _.
  exists temp, d. split; [done|]. apply mbind_Ok in Hx as ([ls ?] & s2 & _ & Hx).
  apply mbind_Ok in Hx as (j & s3 & [= Hv <-] & Hx). apply verifyHashes_Ok in Hv as [Hj Hall].
  destruct (Nat.eqb_spec j (length ls)) as [Hl|]; [|done]. injection Hx as <- _.
  set (rows := filter _ _) in *. apply list_eq_same_length with (n := length ls);
    [rewrite length_fmap; lia|by rewrite length_fmap|].
  intros k x y Hk. rewrite !list_lookup_fmap_Some. intros (lf & -> & Hlf) (r & -> & Hr).
  destruct (Hall k r Hr) as (lf' & Hl' & ->). simpl in Hl'. by simplify_eq.
Qed.

Lemma GetLeavesByRange_reads s tx start count :
  int64 start → (TreeSize (root tx) < 2 ^ 63)%Z → (start + count < 2 ^ 63)%Z →
  (0 ≤ count)%Z → (8 * count ≤ 2 ^ 48)%Z →
  GetLeavesByRange Sum256 start count (s, tx) =
  GetLeavesByIndex Sum256 (seqZ start (Z.min count (TreeSize (root tx) - start))) (s, tx).
Proof.
  unfold int64. intros Hst Hsz Hov Hpos Hcap. unfold GetLeavesByRange.
  erewrite mbind_step by reflexivity. cbn [snd]. unfold make_int64s.
  rewrite (proj2 (Z.ltb_ge count 0)), (proj2 (Z.ltb_ge (2 ^ 48) _)) by done.
  cbn [orb]. erewrite mbind_step by reflexivity.
  rewrite wrap64_small by (unfold int64; lia). rewrite rangeLoop_seqZ by lia.
  do 2 f_equal. lia.
Qed.

(** [GetLeavesByRange] reads the indexes from [start], at most [count] of them
    and none beyond the tree; a negative count panics. *)
Theorem GetLeavesByRange_clamps s tx start count :
  int64 start → (TreeSize (root tx) < 2 ^ 63)%Z → (start + count < 2 ^ 63)%Z →
  (8 * count ≤ 2 ^ 48)%Z →
  GetLeavesByRange Sum256 start count (s, tx) =
  if decide (count < 0)%Z then (Panic, (s, tx))
  else GetLeavesByIndex Sum256
         (seqZ start (Z.min count (TreeSize (root tx) - start))) (s, tx).
Proof.
  intros Hst Hsz Hov Hcap. case_decide; [|apply GetLeavesByRange_reads; lia || done].
  unfold GetLeavesByRange. erewrite mbind_step by reflexivity. unfold make_int64s.
  by rewrite (proj2 (Z.ltb_lt _ _)).
Qed.
End properties.

(** [GetActiveLogIDs] lists the ids of the active trees in the order of the
    configuration until the transaction ends, and then reports an error; a
    transaction ends once. *)
Theorem GetActiveLogIDs_active tx trees :
  admin_ListTrees tx false = Ok trees →
  GetActiveLogIDs (mkROL tx false) =
    (Ok (TreeId <$> filter (λ t, tree_TreeState t = ACTIVE) trees), mkROL tx false) ∧
  rol_Commit (mkROL tx false) = (Ok (), mkROL tx true) ∧
  GetActiveLogIDs (mkROL tx true) = (Err err_rol_closed, mkROL tx true) ∧
  rol_Commit (mkROL tx true) = (Err err_rol_closed, mkROL tx true) ∧
  rol_Rollback (mkROL tx true) = (Err err_rol_closed, mkROL tx true).
Proof.
  intros Ht. split_and!; try done. unfold GetActiveLogIDs. unfold_M. cbn. rewrite Ht.
  by rewrite activeIDs_filter.
Qed.

(** ** Witnesses *)

(** A log of three leaves: their hashes in the only subtree of the database. *)
Definition zeros7 : bytes := replicate 7 Byte.x00.
Definition sampleSubtree : SubtreeProto :=
  mkSubtreeProto (Some zeros7) 8 None
    (<[String_Suffix (coordsSuffix 0 0) := [Byte.x00]]>
     (<[String_Suffix (coordsSuffix 0 1) := [Byte.x01]]>
      {[ String_Suffix (coordsSuffix 0 2) := [Byte.x02] ]})) ∅ 0.
Definition sampleMap : kvmap :=
  {[ subtreeRow 1 1 (mkNodeID zeros7 56) := pos_bytes (encode sampleSubtree) ]}.
Definition sampleRoot : SignedLogRoot := mkSignedLogRoot 0 None 3 1 None None None.
Definition sampleTX : readOnlyLogTreeTX :=
  mkROLT (mkSubtreeCache logStrataInfo ∅ ∅) 1 sampleRoot zeroFrontier false.
Definition sampleSystem : System := mkSystem (mkDB sampleMap []) sampleRemote (New 0 1).

#[local] Existing Instance subtreeCodec.
#[local] Existing Instance jsonCodec.
#[local] Existing Instance listRange.
#[local] Existing Instance listRangeLaws.

Lemma readMap_wf : wf_db sampleMap.
Proof.
  intros k v H. unfold sampleMap in H. apply lookup_singleton_Some in H as [<- _].
  apply Local.wf_subtree; [apply int64_1|lia|]. repeat split; vm_compute; congruence.
Qed.

Lemma subtreeRow_prefix t r r' id id' :
  valid_NodeID id → valid_NodeID id' → subtreeRow t r id = subtreeRow t r' id' →
  node_prefix id = node_prefix id'.
Proof.
  intros Hv Hv' E. unfold subtreeRow, keyB in E. apply app_inv_head in E. unfold node_rowkey in E.
  pose proof (length_node_prefix id Hv) as Hl. pose proof (length_node_prefix id' Hv') as Hl'.
  apply app_inj_1 in E as [E1 E2]; [|by rewrite !length_pad8 by (by apply length_node_prefix_le)].
  injection E2 as E2 _. apply (f_equal b2z) in E2.
  rewrite !b2z_z2b_small in E2 by (unfold valid_NodeID in *; lia). rewrite E2, <-Hl' in Hl.
  unfold pad8 in E1. apply app_inj_1 in E1 as [E1 _]; [done|lia].
Qed.

Lemma sample_readable : readable toySum sampleMap sampleSystem sampleTX.
Proof.
  split; [done|apply wf_new_cache| |cbn; lia].
  intros px raw Hrow. cbn [treeID TreeRevision root sampleTX sampleRoot] in Hrow.
  unfold rowOf in Hrow. case_decide as Hl; [|done].
  set (id := mkNodeID px (Z.of_nat (length px) * 8)) in *.
  assert (valid_NodeID id) as Hv.
  { unfold valid_NodeID, id. cbn [PrefixLenBits Path]. rewrite Z.mod_mul, Z.div_mul by lia. lia. }
  pose proof (seekRow_newest sampleMap 1 1 id readMap_wf int64_1 ltac:(lia) Hv) as Hs.
  rewrite Hrow in Hs. destruct Hs as (r & _ & Hm & _). unfold sampleMap in Hm.
  apply lookup_singleton_Some in Hm as [Ek <-].
  assert (px = zeros7) as ->.
  { apply subtreeRow_prefix in Ek; [|repeat split; vm_compute; congruence|done].
    unfold node_prefix, id in Ek. cbn [PrefixLenBits Path] in Ek.
    rewrite Z.div_mul, Nat2Z.id, firstn_all in Ek by lia. by rewrite <-Ek. }
  exists sampleSubtree. eexists. split; [vm_compute; reflexivity|].
  split; [vm_compute; reflexivity|]. by split_and!.
Qed.

Lemma sample_hashes i l :
  sampleLog !! i = Some l →
  treeHash toySum sampleMap sampleTX 0 (Z.of_nat i) = Some (sl (MerkleLeafHash l)).
Proof. intros H. destruct i as [|[|[|]]]; simplify_eq/=; vm_compute; reflexivity. Qed.

Lemma GetLeavesByIndex_serves_witness :
  ∃ leaves w, GetLeavesByIndex toySum [2; 0]%Z (sampleSystem, sampleTX) = (Ok leaves, w) ∧
    Forall2 (logLeafAt sampleLog) (sortSeqs [2; 0]%Z) leaves.
Proof.
  destruct (GetLeavesByIndex_serves toySum (H := jsonCodec_laws) sampleMap sampleSystem
    sampleTX sampleLog [2; 0]%Z) as (leaves & w & H1 & H2).
  - apply sample_readable.
  - reflexivity.
  - apply sampleRemote_wf.
  - apply sampleRemote_covers.
  - reflexivity.
  - apply sample_hashes.
  - repeat constructor; simpl; lia.
  - eexists leaves, _. split; [exact H1|exact H2].
Defined.

Lemma GetLeavesByIndex_verified_witness :
  fst (GetLeavesByIndex toySum [1]%Z (sampleSystem, sampleTX)) = Ok [jsonLeaf (sampleLeaf 1)] ∧
  ∃ l h, [jsonLeaf (sampleLeaf 1)] !! 0 = Some l ∧
    treeHash toySum sampleMap sampleTX 0 1 = Some h ∧ sl (MerkleLeafHash l) = h.
Proof.
  assert (fst (GetLeavesByIndex toySum [1]%Z (sampleSystem, sampleTX)) =
    Ok [jsonLeaf (sampleLeaf 1)]) as E by (vm_compute; reflexivity).
  split; [exact E|].
  destruct (GetLeavesByIndex_verified toySum sampleMap sampleSystem sampleTX [1]%Z
    [jsonLeaf (sampleLeaf 1)] (snd (GetLeavesByIndex toySum [1]%Z (sampleSystem, sampleTX))))
    as (_ & _ & H).
  - apply sample_readable.
  - rewrite <-E. apply surjective_pairing.
  - apply (H 0 1%Z). vm_compute. reflexivity.
Defined.

(** The same database with an index of the first leaf. *)
Definition indexedSystem : System :=
  mkSystem (mkDB (<[keyB typ_m 1 [Byte.x02] := [Byte.x04]]> sampleMap) []) sampleRemote (New 0 1).

Lemma GetLeavesByHash_verified_witness :
  fst (GetLeavesByHash [Some [Byte.x02]; Some [Byte.x09]] true (indexedSystem, sampleTX)) =
    Ok [jsonLeaf (sampleLeaf 2)] ∧
  ∃ temp d, GetSequenceByMerkleHash 1 [Some [Byte.x02]; Some [Byte.x09]] (local indexedSystem) =
    (Ok temp, d) ∧
    (λ l, sl (MerkleLeafHash l)) <$> [jsonLeaf (sampleLeaf 2)] =
    (λ r, sl r.1) <$> filter (λ r, outside 3 r.2 = false) (zip [Some [Byte.x02]; Some [Byte.x09]] temp).
Proof.
  assert (fst (GetLeavesByHash [Some [Byte.x02]; Some [Byte.x09]] true (indexedSystem, sampleTX)) =
    Ok [jsonLeaf (sampleLeaf 2)]) as E by (vm_compute; reflexivity).
  split; [exact E|].
  apply (GetLeavesByHash_verified indexedSystem sampleTX [Some [Byte.x02]; Some [Byte.x09]] true
    [jsonLeaf (sampleLeaf 2)]
    (snd (GetLeavesByHash [Some [Byte.x02]; Some [Byte.x09]] true (indexedSystem, sampleTX)))).
  rewrite <-E. apply surjective_pairing.
Defined.

Lemma GetLeavesByRange_clamps_witness :
  GetLeavesByRange toySum 1 1000 (sampleSystem, sampleTX) =
  GetLeavesByIndex toySum (seqZ 1 2) (sampleSystem, sampleTX).
Proof.
  rewrite (GetLeavesByRange_clamps toySum sampleSystem sampleTX 1 1000);
    [reflexivity|unfold int64; lia|cbn; lia|lia|lia].
Defined.

Definition treeIn (id : Z) (st : TreeState) : Tree :=
  mkTree id st LOG RFC6962_SHA256 SHA256 ECDSA ("PrivateKey"%string, []) None (0, 0)%Z (0, 0)%Z (0, 0)%Z.

Lemma GetActiveLogIDs_active_witness :
  fst (GetActiveLogIDs
    (mkROL (adminTx_iface (mkAdminTx [treeIn 4 ACTIVE; treeIn 5 FROZEN])) false)) = Ok [4]%Z.
Proof.
  destruct (GetActiveLogIDs_active (adminTx_iface (mkAdminTx [treeIn 4 ACTIVE; treeIn 5 FROZEN]))
    [treeIn 4 ACTIVE; treeIn 5 FROZEN] eq_refl) as [H _].
  rewrite H. reflexivity.
Defined.

(** Hashes that are not asked for in index order: the bucket's leaves come in
    index order and the comparison fails, although every leaf is there. *)
Lemma GetLeavesByHash_out_of_order :
  let s := mkSystem (mkDB (<[keyB typ_m 1 [Byte.x02] := [Byte.x04]]>
    (<[keyB typ_m 1 [Byte.x01] := [Byte.x02]]> sampleMap)) []) sampleRemote (New 0 1) in
  fst (GetLeavesByHash [Some [Byte.x01]; Some [Byte.x02]] true (s, sampleTX)) =
    Ok [jsonLeaf (sampleLeaf 1); jsonLeaf (sampleLeaf 2)] ∧
  fst (GetLeavesByHash [Some [Byte.x02]; Some [Byte.x01]] true (s, sampleTX)) =
    Err err_merkle_hash.
Proof. vm_compute. split; reflexivity. Qed.
