(* ===== verification/TreeTx.v ===== *)
(** * Read-write transactions (src/ct/tree_tx.go)

    [logTreeTX] queues leaves, or sequences them: it dequeues leaves, stores
    them in the bucket, updates the Merkle nodes and stores the new root, in the
    order the state machine allows; nothing but queued leaves reaches the local
    database before [Commit].  Clock readings and random bytes are arguments. *)

From S2P Require Import Prelude Keys Trillian Frontier Fsm LevelDB.
From S2P Require Import Local Remote Cache Compact Nodes SubtreeCache ReadTx.

(** ** The cache of queued leaves *)

(** [%x] of a byte slice *)
Definition fmt_x (b : bytes) : bytes :=
  flat_map (λ c, [hexdigit (b2z c `div` 16)%Z; hexdigit (b2z c `mod` 16)%Z]) b.

(** [fmt.Sprintf("treeID=%v,id=%x", treeID, id)] *)
Definition leafKey (treeID : Z) (id : slice) : bytes :=
  str "treeID=" ++ fmtZ 10 treeID ++ str ",id=" ++ fmt_x (sl id).

(** [dupLeaf] copies the slices and leaves the timestamps out. *)
Definition dupLeaf (leaf : LogLeaf) : LogLeaf :=
  mkLogLeaf (dupSlice (MerkleLeafHash leaf)) (dupSlice (LeafValue leaf))
    (dupSlice (ExtraData leaf)) (LeafIndex leaf) (dupSlice (LeafIdentityHash leaf)) None None.

(** [SetLeafCacheSize]: one hour of expiration, in nanoseconds. *)
Definition hour : Z := 3600000000000.
Definition SetLeafCacheSize (size : Z) : M System unit :=
  modify (λ s, mkSystem (local s) (remote s) (New hour size)).

(** What the clock and the sources of randomness yield for one leaf. *)
Record leafEnv := mkLeafEnv {
  nowGet : Z;
  nowSet : Z;
  cacheRand : option bytes;
  noise : nat → option bytes
}.

Definition addLeaf (env : leafEnv) (treeID : Z) (leaf : LogLeaf) : M System unit :=
  zoom leafCache (λ c s, mkSystem (local s) (remote s) c)
    (Set_ (nowSet env) (cacheRand env) (leafKey treeID (LeafIdentityHash leaf)) (dupLeaf leaf)
       DefaultExpiration).

Definition getLeafByIdentityHash (env : leafEnv) (treeID : Z) (id : slice) (s : System)
    : option LogLeaf :=
  dupLeaf <$> Get_ (nowGet env) (leafKey treeID id) (leafCache s).

Definition sysLocal {A} (m : M DB A) : M System A := zoom local with_local m.
Definition sysRemote {A} (m : M Remote A) : M System A := zoom remote with_remote m.

(** ** Transactions *)

Record logTreeTX := mkLTX {
  rolt : readOnlyLogTreeTX;
  tx_fsm : fsm;
  localTx : LocalTx;
  queuedLeaves : bool
}.

Abbreviation TxM := (M (System * logTreeTX)).

(** The promoted methods of the embedded [readOnlyLogTreeTX] and [fsm]. *)
Definition onRead {A} (m : ReadM A) : TxM A :=
  zoom (λ w, (w.1, rolt w.2))
    (λ p w, (p.1, mkLTX p.2 (tx_fsm w.2) (localTx w.2) (queuedLeaves w.2))) m.
Definition onFsm {A} (m : M fsm A) : TxM A :=
  zoom (λ w, tx_fsm w.2)
    (λ p w, (w.1, mkLTX (rolt w.2) p (localTx w.2) (queuedLeaves w.2))) m.
Definition onTx {A} (m : M LocalTx A) : TxM A :=
  zoom (λ w, localTx w.2)
    (λ p w, (w.1, mkLTX (rolt w.2) (tx_fsm w.2) p (queuedLeaves w.2))) m.
(** The database and the batch; the subtree cache and the batch. *)
Definition onDBTx {A} (m : M (DB * LocalTx) A) : TxM A :=
  zoom (λ w, (local w.1, localTx w.2))
    (λ p w, (with_local p.1 w.1, mkLTX (rolt w.2) (tx_fsm w.2) p.2 (queuedLeaves w.2))) m.
Definition onCacheTx {A} (m : M (SubtreeCache * LocalTx) A) : TxM A :=
  zoom (λ w, (subtreeCache (rolt w.2), localTx w.2))
    (λ p w, (w.1, mkLTX (with_subtreeCache p.1 (rolt w.2)) (tx_fsm w.2) p.2 (queuedLeaves w.2))) m.
Definition onSystem {A} (m : M System A) : TxM A := zoom fst (λ s w, (s, w.2)) m.

Definition setClosed : TxM unit :=
  modify (λ w, (w.1, mkLTX (with_closed true (rolt w.2)) (tx_fsm w.2) (localTx w.2)
                       (queuedLeaves w.2))).

Definition err_root_hash : error := Errorf "root hash does not match what is expected".
Definition err_prefix_long : error := Errorf "subtree prefix is too long: %v".

Section tx.
Context (Sum256 : bytes → bytes).
Context `{!Codec LogLeaf, !Codec SubtreeProto, !Codec Frontier, !Codec (list LogLeaf)}.
Context `{!MapRange bytes, !MapRange Z}.

Definition writeRevision (tx : readOnlyLogTreeTX) : Z := wrap64 (TreeRevision (root tx) + 1).
Definition WriteRevision : TxM Z := w ← get; mret (writeRevision (rolt w.2)).

(** [seqs[0]]: a panic for an empty slice. *)
Definition getSequenceByIdentityHash (tx : readOnlyLogTreeTX) (id : slice) : M System Z :=
  seqs ← sysLocal (GetSequenceByIdentityHash (treeID tx) [id]);
  match seqs with [] => panic | seq :: _ => mret seq end.

(** [queueLeaf] reads its receiver only: it is called on a transaction, and on
    a value made for the purpose by [LogStorage.QueueLeaves]. *)
Definition queueLeaf (env : leafEnv) (tx : readOnlyLogTreeTX) (leaf : LogLeaf)
    (queueTimestamp : Z) : M System (option LogLeaf) :=
  s ← get;
  match getLeafByIdentityHash env (treeID tx) (LeafIdentityHash leaf) s with
  | Some cachedLeaf => mret (Some cachedLeaf)
  | None =>
      seq ← getSequenceByIdentityHash tx (LeafIdentityHash leaf);
      if (0 <? seq)%Z && (seq <? TreeSize (root tx))%Z then
        '(dup, _) ← sysRemote (GetLeaves (treeID tx) [seq]);
        match dup with [] => panic | l :: _ => mret (Some l) end
      else
        _ ← sysLocal (Local.QueueLeaves (noise env) (treeID tx) queueTimestamp [leaf]);
        _ ← addLeaf env (treeID tx) leaf;
        mret None
  end.

(** The loop over the leaves; [env i] is what leaf [i] sees. *)
Fixpoint queueLoop (env : nat → leafEnv) (i : nat) (tx : readOnlyLogTreeTX)
    (leaves : list LogLeaf) (queueTimestamp : Z) : M System (list (option LogLeaf)) :=
  match leaves with
  | [] => mret []
  | leaf :: rest =>
      l ← queueLeaf (env i) tx leaf queueTimestamp;
      out ← queueLoop env (S i) tx rest queueTimestamp;
      mret (l :: out)
  end.

Definition QueueLeaves (env : nat → leafEnv) (leaves : list LogLeaf) (queueTimestamp : Z)
    : TxM (list (option LogLeaf)) :=
  _ ← onFsm (emit sQueueLeaves);
  _ ← modify (λ w, (w.1, mkLTX (rolt w.2) (tx_fsm w.2) (localTx w.2) true));
  w ← get;
  onSystem (queueLoop env 0 (rolt w.2) leaves queueTimestamp).

Definition DequeueLeaves (limit cutoffTime : Z) : TxM (list LogLeaf) :=
  _ ← onFsm (emit sDequeueLeaves);
  w ← get;
  onDBTx (Local.DequeueLeaves (treeID (rolt w.2)) (TreeSize (root (rolt w.2))) cutoffTime limit).

Definition AddSequencedLeaves (leaves : list LogLeaf) (ts : Z) : TxM (list LogLeaf) :=
  fail (Errorf "adding sequenced leaves is not implemented").

(** [lt.front.Append] for each leaf *)
Definition appendLeaves (f : Frontier) (leaves : list LogLeaf) : Frontier :=
  fold_left (λ f leaf, Append Sum256 f (MerkleLeafHash leaf)) leaves f.

Definition UpdateSequencedLeaves (leaves : list LogLeaf) : TxM unit :=
  _ ← onFsm (emit sUpdateSequencedLeaves);
  w ← get;
  let t := treeID (rolt w.2) in
  _ ← onSystem (sysRemote (Remote.PutLeaves t leaves));
  _ ← modify (λ w, (w.1, mkLTX (with_front (appendLeaves (front (rolt w.2)) leaves) (rolt w.2))
                       (tx_fsm w.2) (localTx w.2) (queuedLeaves w.2)));
  onTx (Local.PutLeaves t (LeafIndex <$> leaves) (MerkleLeafHash <$> leaves)
          (LeafIdentityHash <$> leaves)).

Definition SetMerkleNodes (nodes : list Node) : TxM unit :=
  _ ← onFsm (emit sSetMerkleNodes);
  mfold (λ _ n,
    w ← get;
    let getSubtree := rolt_getSubtree (treeID (rolt w.2)) (writeRevision (rolt w.2)) in
    onRead (onSubtrees (SetNodeHash (populateLogSubtreeNodes Sum256) (nodeID n) (Hash n)
                          getSubtree))) () nodes.

Definition StoreSignedLogRoot (r : SignedLogRoot) : TxM unit :=
  _ ← onFsm (emit sStoreSignedLogRoot);
  w ← get;
  if negb (bytes_Equal (RootHash r) (Head Sum256 (front (rolt w.2)))) then fail err_root_hash
  else onTx (StoreRoot (treeID (rolt w.2)) r (front (rolt w.2))).

(** The ids of the subtrees to store. *)
Fixpoint subtreeIDs (sts : list SubtreeProto) : outcome (list NodeID) :=
  match sts with
  | [] => Ok []
  | st :: rest =>
      let p := sl (Prefix st) in
      if (8 <? length p)%nat then Err err_prefix_long
      else
        ids ← subtreeIDs rest;
        mret (mkNodeID p (8 * Z.of_nat (length p)) :: ids)
  end.

Definition storeSubtrees (tx : readOnlyLogTreeTX) (sts : list SubtreeProto) : M LocalTx unit :=
  ids ← lift (subtreeIDs sts);
  PutSubtrees (treeID tx) (writeRevision tx) ids sts.

Definition Commit : TxM unit :=
  _ ← onFsm (emit sCommit);
  w ← get;
  if queuedLeaves w.2 then setClosed
  else
    _ ← onCacheTx (Flush prepareLogSubtreeWrite (storeSubtrees (rolt w.2)));
    _ ← onDBTx Local.Commit;
    setClosed.

Definition Rollback : TxM unit := _ ← onFsm (emit sRollback); setClosed.
Definition Close : TxM unit := _ ← onFsm (emit sClose); setClosed.
Definition IsOpen (tx : logTreeTX) : bool := negb (closed (rolt tx)).
End tx.

(** ** Clients

    What a function that is given a transaction may do: call its operations in
    any order, ending or not, while other goroutines queue leaves or change
    anything but the local database.  A kind of clients is given by the roots
    they may store, the leaves they may sequence, and whether they may commit
    the transaction themselves.

    The code checks neither of the first two, and what it promises of logs is
    for roots whose serialized form carries their hash ([honest]) and leaves
    that have a hash ([hashed]). *)

Definition honest (r : SignedLogRoot) : Prop :=
  ∃ l, LogRootV1.UnmarshalBinary (sl (LogRoot r)) = Ok l ∧ LogRootV1.RootHash l = sl (RootHash r).

Definition hashed (l : LogLeaf) : Prop := ∃ h, MerkleLeafHash l = Some h ∧ h ≠ [].

(** *** Parts of a batch *)

(** The writes of a batch to the rows whose keys [P] selects. *)
Definition rowOps (P : bytes → bool) (b : Batch) : Batch := filter (λ o, P (op_key o) = true) b.

(** The rows of roots, and of queues. *)
Definition isRootKey (k : bytes) : bool :=
  match k with b :: _ => bool_decide (b = typ_r) | [] => false end.
Definition isQueueKey (k : bytes) : bool :=
  match k with b :: _ => bool_decide (b = typ_l) | [] => false end.
(** The rows of the two indexes. *)
Definition isIndexKey (k : bytes) : bool :=
  match k with b :: _ => bool_decide (b = typ_m) || bool_decide (b = typ_i) | [] => false end.

(** The rows of other trees than [t]: an identifier other than [t] follows the
    type of the record. *)
Definition isForeignKey (t : Z) (k : bytes) : bool :=
  let id := fmt_16_16x t ++ [Byte.x3a] in
  negb (bool_decide (take (length id) (drop 1 k) = id)).

(** Selections without the rows of indexes of a tree, and without its subtrees. *)
Class SkipsIndexes (t : Z) (P : bytes → bool) : Prop := {
  skips_merkle v : P (keyB typ_m t v) = false;
  skips_identity v : P (keyB typ_i t v) = false
}.
Class SkipsSubtrees (t : Z) (P : bytes → bool) : Prop :=
  skips_subtrees v : P (keyB typ_s t v) = false.
#[global] Instance isRootKey_indexes t : SkipsIndexes t isRootKey.
Proof. by split. Qed.
#[global] Instance isQueueKey_indexes t : SkipsIndexes t isQueueKey.
Proof. by split. Qed.
#[global] Instance isRootKey_subtrees t : SkipsSubtrees t isRootKey.
Proof. done. Qed.
#[global] Instance isQueueKey_subtrees t : SkipsSubtrees t isQueueKey.
Proof. done. Qed.
#[global] Instance isIndexKey_subtrees t : SkipsSubtrees t isIndexKey.
Proof. done. Qed.

Lemma isForeignKey_prefix t b u : isForeignKey t (b :: fmt_16_16x t ++ Byte.x3a :: u) = false.
Proof.
  unfold isForeignKey. rewrite bool_decide_true; [done|]. rewrite skipn_cons, drop_0.
  change (Byte.x3a :: u) with ([Byte.x3a] ++ u). by rewrite (app_assoc _ [Byte.x3a]), take_app_length.
Qed.
Lemma isForeignKey_own t typ u : (b2z typ < 128)%Z → isForeignKey t (keyB typ t u) = false.
Proof. intros H. unfold keyB. rewrite keyPrefix_ascii by done. cbn. rewrite <-app_assoc. apply isForeignKey_prefix. Qed.
Lemma isForeignKey_root t name : isForeignKey t (keyS typ_r t name) = false.
Proof. by apply (isForeignKey_own t typ_r (str name)). Qed.
#[global] Instance isForeignKey_indexes t : SkipsIndexes t (isForeignKey t).
Proof. by split; intros v; apply isForeignKey_own. Qed.
#[global] Instance isForeignKey_subtrees t : SkipsSubtrees t (isForeignKey t).
Proof. intros v. by apply isForeignKey_own. Qed.

(** Another tree's rows are those. *)
Lemma isForeignKey_other t t' typ u :
  int64 t → int64 t' → t ≠ t' → (b2z typ < 128)%Z → isForeignKey t (keyB typ t' u) = true.
Proof.
  intros Ht Ht' Hne Hb. unfold isForeignKey. rewrite bool_decide_false; [done|]. intros E. apply Hne.
  unfold keyB in E. rewrite keyPrefix_ascii, <-app_comm_cons, skipn_cons, drop_0 in E by done.
  pose proof (take_drop (length (fmt_16_16x t ++ [Byte.x3a])) ((fmt_16_16x t' ++ [Byte.x3a]) ++ u)) as E2.
  rewrite E, <-!app_assoc in E2. by eapply fmt_16_16x_inj in E2 as [-> _].
Qed.

Abbreviation rootOps := (rowOps isRootKey).

(** An open batch whose writes to the rows of [P] are [R]. *)
Definition writes (P : bytes → bool) (R : Batch) (tx : LocalTx) : Prop :=
  ∃ b, batch tx = Some b ∧ rowOps P b = R.
Abbreviation writesRoots := (writes isRootKey).

Section clients.
Context (Sum256 : bytes → bytes).
Context `{!Codec LogLeaf, !Codec SubtreeProto, !Codec Frontier, !Codec (list LogLeaf)}.
Context `{!MapRange bytes, !MapRange Z}.

Inductive op_step (rootOK : SignedLogRoot → Prop) (leafOK : LogLeaf → Prop) (commits : bool)
    : System * logTreeTX → System * logTreeTX → Prop :=
  | op_QueueLeaves env leaves ts w : op_step rootOK leafOK commits w (QueueLeaves env leaves ts w).2
  | op_DequeueLeaves limit cutoff w : op_step rootOK leafOK commits w (DequeueLeaves limit cutoff w).2
  | op_UpdateSequencedLeaves leaves w :
      Forall leafOK leaves → op_step rootOK leafOK commits w (UpdateSequencedLeaves Sum256 leaves w).2
  | op_SetMerkleNodes nodes w : op_step rootOK leafOK commits w (SetMerkleNodes Sum256 nodes w).2
  | op_StoreSignedLogRoot r w : rootOK r → op_step rootOK leafOK commits w (StoreSignedLogRoot Sum256 r w).2
  | op_GetLeavesByIndex indexes w : op_step rootOK leafOK commits w (onRead (GetLeavesByIndex Sum256 indexes) w).2
  | op_GetLeavesByHash hashes order w : op_step rootOK leafOK commits w (onRead (GetLeavesByHash hashes order) w).2
  | op_GetMerkleNodes rev ids w : op_step rootOK leafOK commits w (onRead (GetMerkleNodes Sum256 rev ids) w).2
  | op_Commit w : commits = true → op_step rootOK leafOK commits w (Commit w).2
  | op_Rollback w : op_step rootOK leafOK commits w (Rollback w).2
  | op_Close w : op_step rootOK leafOK commits w (Close w).2
  | op_other_queue env i tx leaves ts s ltx :
      op_step rootOK leafOK commits (s, ltx) ((queueLoop env i tx leaves ts s).2, ltx)
  | op_other s s' ltx : kv (local s') = kv (local s) → op_step rootOK leafOK commits (s, ltx) (s', ltx).

Definition client rootOK leafOK commits (f : TxM unit) : Prop :=
  ∀ w, rtc (op_step rootOK leafOK commits) w (f w).2.

(** A client that may commit does that, or what others do. *)
Lemma op_step_commits rootOK leafOK commits w w' :
  op_step rootOK leafOK commits w w' → op_step rootOK leafOK false w w' ∨ w' = (Commit w).2.
Proof. destruct 1; try (by left; constructor). by right. Qed.

(** *** Which rows change

    [Q] is any property of the rows that queueing a leaf keeps. *)

Section rows.
Context (Q : kvmap → Prop).

Lemma stable_next_fault : stable (λ d, Q (kv d)) next_fault.
Proof. intros d H. unfold next_fault. by destruct (faults d). Qed.
Hint Resolve stable_next_fault : ctlog.

Lemma stable_io : stable (λ d, Q (kv d)) io.
Proof. unfold io. stable. Qed.
Hint Resolve stable_io : ctlog.

Lemma stable_db_Get k : stable (λ d, Q (kv d)) (db_Get k).
Proof. unfold db_Get. stable. Qed.
Hint Resolve stable_db_Get : ctlog.

Lemma stable_db_iterate es : stable (λ d, Q (kv d)) (db_iterate es).
Proof. unfold db_iterate. stable. Qed.
Hint Resolve stable_db_iterate : ctlog.

Lemma stable_MostRecentRoot t : stable (λ d, Q (kv d)) (MostRecentRoot t).
Proof. unfold MostRecentRoot. stable. Qed.

Lemma stable_wrapErr {S A} (P : S → Prop) fmt (x : M S A) : stable P x → stable P (wrapErr fmt x).
Proof. intros. unfold wrapErr. stable. Qed.
Hint Resolve stable_wrapErr : ctlog.

Lemma stable_GetSequenceBy typ t hs : stable (λ d, Q (kv d)) (getSequenceBy typ t hs).
Proof. unfold getSequenceBy. stable. Qed.
Hint Resolve stable_GetSequenceBy : ctlog.

Lemma stable_getSubtree t rev id : stable (λ d, Q (kv d)) (getSubtree t rev id).
Proof. unfold getSubtree. stable. Qed.
Hint Resolve stable_getSubtree : ctlog.

Lemma stable_GetSubtrees t rev ids : stable (λ d, Q (kv d)) (getSubtrees t rev ids).
Proof. unfold getSubtrees, GetSubtrees. stable. Qed.
Hint Resolve stable_GetSubtrees : ctlog.

Lemma stable_rolt_getSubtree t rev id : stable (λ d, Q (kv d)) (rolt_getSubtree t rev id).
Proof. unfold rolt_getSubtree. stable. Qed.
Hint Resolve stable_rolt_getSubtree : ctlog.

(** The property lifted to what a transaction sees. *)
Abbreviation rows_R := (λ w : System * readOnlyLogTreeTX, Q (kv (local w.1))).
Abbreviation rows := (λ w : System * logTreeTX, Q (kv (local w.1))).

Lemma stable_onLocal {A} (x : M DB A) : stable (λ d, Q (kv d)) x → stable rows_R (onLocal x).
Proof. intros. by apply (stable_zoom _ (λ d, Q (kv d))). Qed.
Lemma stable_onRemote {A} (x : M Remote A) : stable rows_R (onRemote x).
Proof. eapply (stable_zoom _ (λ _, True)); [done|done|by intros ? _]. Qed.
Lemma stable_onSubtrees {A} (x : M (SubtreeCache * DB) A) :
  stable (λ p, Q (kv p.2)) x → stable rows_R (onSubtrees x).
Proof. intros. by apply (stable_zoom _ (λ p, Q (kv p.2))). Qed.
Hint Resolve stable_onLocal stable_onRemote stable_onSubtrees : ctlog.

Lemma stable_GetMerkleNodes rev ids : stable rows_R (GetMerkleNodes Sum256 rev ids).
Proof.
  unfold GetMerkleNodes. apply stable_bind; [apply stable_get|]. intros w.
  apply stable_onSubtrees, (stable_GetNodes (λ d, Q (kv d))). auto with ctlog.
Qed.
Hint Resolve stable_GetMerkleNodes : ctlog.

Lemma stable_GetLeavesByIndex indexes : stable rows_R (GetLeavesByIndex Sum256 indexes).
Proof. unfold GetLeavesByIndex, ReadRevision. stable. Qed.

Lemma stable_GetLeavesByHash hashes order : stable rows_R (GetLeavesByHash hashes order).
Proof. unfold GetLeavesByHash, GetSequenceByMerkleHash. stable. Qed.

Lemma stable_onRead {A} (x : ReadM A) : stable rows_R x → stable rows (onRead x).
Proof. intros. by apply (stable_zoom _ (rows_R)). Qed.
Lemma stable_onFsm {A} (x : M fsm A) : stable rows (onFsm x).
Proof. eapply (stable_zoom _ (λ _, True)); [done|done|by intros ? _]. Qed.
Lemma stable_onTx {A} (x : M LocalTx A) : stable rows (onTx x).
Proof. eapply (stable_zoom _ (λ _, True)); [done|done|by intros ? _]. Qed.
Lemma stable_onCacheTx {A} (x : M (SubtreeCache * LocalTx) A) : stable rows (onCacheTx x).
Proof. eapply (stable_zoom _ (λ _, True)); [done|done|by intros ? _]. Qed.
Lemma stable_onDBTx {A} (x : M (DB * LocalTx) A) :
  stable (λ p, Q (kv p.1)) x → stable rows (onDBTx x).
Proof. intros. by apply (stable_zoom _ (λ p, Q (kv p.1))). Qed.
Lemma stable_onSystem {A} (x : M System A) :
  stable (λ s, Q (kv (local s))) x → stable rows (onSystem x).
Proof. intros. by apply (stable_zoom _ (λ s, Q (kv (local s)))). Qed.
Lemma stable_sysLocal {A} (x : M DB A) :
  stable (λ d, Q (kv d)) x → stable (λ s, Q (kv (local s))) (sysLocal x).
Proof. intros. by apply (stable_zoom _ (λ d, Q (kv d))). Qed.
Lemma stable_sysRemote {A} (x : M Remote A) : stable (λ s, Q (kv (local s))) (sysRemote x).
Proof. eapply (stable_zoom _ (λ _, True)); [done|done|by intros ? _]. Qed.
Lemma stable_setClosed : stable rows setClosed.
Proof. by apply stable_modify. Qed.
Hint Resolve stable_onRead stable_onFsm stable_onTx stable_onCacheTx stable_onDBTx stable_onSystem
  stable_sysLocal stable_sysRemote stable_setClosed : ctlog.

Lemma stable_LocalDequeue t seq cutoff limit :
  stable (λ p, Q (kv p.1)) (Local.DequeueLeaves t seq cutoff limit).
Proof.
  unfold Local.DequeueLeaves. apply stable_bind.
  { eapply (stable_zoom _ (λ d, Q (kv d))); [done|done|apply stable_io]. }
  intros _. apply stable_bind; [apply stable_get|intros s]. apply stable_bind.
  { eapply (stable_zoom _ (λ d, Q (kv d))); [done|done|apply stable_db_iterate]. }
  intros [visited failed]. apply stable_bind.
  { eapply (stable_zoom _ (λ _, True)); [done|done|by intros ? _]. }
  intros [leaves broke]. stable.
Qed.
Hint Resolve stable_LocalDequeue : ctlog.

Lemma stable_SetMerkleNodes nodes : stable rows (SetMerkleNodes Sum256 nodes).
Proof.
  unfold SetMerkleNodes. stable. apply stable_onRead, stable_onSubtrees.
  apply (stable_SetNodeHash (λ d, Q (kv d))). auto with ctlog.
Qed.

(** Queueing leaves adds rows of the queue. *)
Context (HQ : ∀ m t v raw, Q m → Q (<[keyB typ_l t v := raw]> m)).

Lemma queueBatch_rows rand i t ts leaves b m :
  queueBatch rand i t ts leaves = Ok b → Q m → Q (apply_batch m b).
Proof.
  revert i b m. induction leaves as [|l leaves IH]; intros i b m Hb Hm; cbn [queueBatch] in Hb.
  { by injection Hb as <-. }
  apply outcome_bind_Ok in Hb as (v & _ & Hb). destruct (rand i) as [n|]; [|done].
  apply outcome_bind_Ok in Hb as (rest & Hr & Hb). injection Hb as <-.
  apply (IH _ _ _ Hr). by apply HQ.
Qed.

Lemma stable_LocalQueue rand t ts leaves :
  stable (λ d, Q (kv d)) (Local.QueueLeaves rand t ts leaves).
Proof.
  intros d Hd. unfold Local.QueueLeaves. unfold mbind, M_bind, lift.
  destruct (queueBatch _ _ _ _ _) as [b| |] eqn:Hb; [|done..].
  unfold db_Write. pose proof (stable_io d Hd) as Hio. unfold mbind, M_bind.
  destruct (io d) as [[[]| |] d']; [|done..]. cbn [snd kv modify] in *.
  by eapply queueBatch_rows.
Qed.
Hint Resolve stable_LocalQueue : ctlog.

Lemma stable_addLeaf env t leaf : stable (λ s, Q (kv (local s))) (addLeaf env t leaf).
Proof. eapply (stable_zoom _ (λ _, True)); [done|done|by intros ? _]. Qed.
Hint Resolve stable_addLeaf : ctlog.

Lemma stable_queueLeaf env tx leaf ts :
  stable (λ s, Q (kv (local s))) (queueLeaf env tx leaf ts).
Proof.
  unfold queueLeaf, getSequenceByIdentityHash, GetSequenceByIdentityHash. stable.
Qed.
Hint Resolve stable_queueLeaf : ctlog.

Lemma stable_queueLoop env i tx leaves ts :
  stable (λ s, Q (kv (local s))) (queueLoop env i tx leaves ts).
Proof. revert i. induction leaves as [|l leaves IH]; intros i; cbn [queueLoop]; stable. Qed.
Hint Resolve stable_queueLoop stable_SetMerkleNodes stable_GetLeavesByIndex
  stable_GetLeavesByHash : ctlog.

Lemma stable_QueueLeaves env leaves ts : stable rows (QueueLeaves env leaves ts).
Proof.
  unfold QueueLeaves. apply stable_bind; [auto with ctlog|intros _].
  apply stable_bind; [by apply stable_modify|intros _]. stable.
Qed.
Lemma stable_DequeueLeaves limit cutoff : stable rows (DequeueLeaves limit cutoff).
Proof. unfold DequeueLeaves. stable. Qed.
Lemma stable_UpdateSequencedLeaves leaves : stable rows (UpdateSequencedLeaves Sum256 leaves).
Proof.
  unfold UpdateSequencedLeaves. apply stable_bind; [auto with ctlog|intros _].
  apply stable_bind; [auto with ctlog|intros w]. apply stable_bind; [auto with ctlog|intros _].
  apply stable_bind; [by apply stable_modify|auto with ctlog].
Qed.
Lemma stable_StoreSignedLogRoot r : stable rows (StoreSignedLogRoot Sum256 r).
Proof. unfold StoreSignedLogRoot. stable. Qed.
Lemma stable_Rollback : stable rows Rollback.
Proof. unfold Rollback. stable. Qed.
Lemma stable_Close : stable rows Close.
Proof. unfold Close. stable. Qed.

(** No operation of a client but a commit changes other rows than those of the
    queue. *)
Lemma op_step_rows rootOK leafOK w w' : op_step rootOK leafOK false w w' → rows w → rows w'.
Proof.
  destruct 1 as [env leaves ts w|limit cutoff w|leaves w _|nodes w|r w _|indexes w|hashes order w
    |rev ids w|w E|w|w|env i tx leaves ts s ltx|s s' ltx E]; cbn [fst]; [..|].
  9: done.
  1: apply (stable_QueueLeaves env leaves ts w).
  1: apply (stable_DequeueLeaves limit cutoff w).
  1: apply (stable_UpdateSequencedLeaves leaves w).
  1: apply (stable_SetMerkleNodes nodes w).
  1: apply (stable_StoreSignedLogRoot r w).
  1: apply (stable_onRead (GetLeavesByIndex Sum256 indexes)); auto with ctlog.
  1: apply (stable_onRead (GetLeavesByHash hashes order)); auto with ctlog.
  1: apply (stable_onRead (GetMerkleNodes Sum256 rev ids)); auto with ctlog.
  1: apply (stable_Rollback w).
  1: apply (stable_Close w).
  1: apply stable_queueLoop.
  by rewrite E.
Qed.
End rows.

(** *** What a transaction is about to commit *)

Definition rootPuts (t : Z) (r : SignedLogRoot) (frontRaw : bytes) : Batch :=
  [ BPut (keyS typ_r t "root") (sl (LogRoot r));
    BPut (keyS typ_r t "sig") (sl (LogRootSignature r));
    BPut (keyS typ_r t "frontier") frontRaw ].

(** States from which no leaf can be added any more. *)
Definition frozen (st : fsmState) : Prop := st ∈ [sStoreSignedLogRoot; sCommit; sRollback; sClose].

(** The root in the batch, if any, is the root of the frontier. *)
Definition rootReady (tx : logTreeTX) (R : Batch) : Prop :=
  R = [] ∨ frozen (state (tx_fsm tx)) ∧
    ∃ r raw, R = rootPuts (treeID (rolt tx)) r raw ∧ marshal (front (rolt tx)) = Ok raw ∧
      honest r ∧ sl (RootHash r) = sl (Head Sum256 (front (rolt tx))).

Record tx_inv (t : Z) (L : list bytes) (w : System * logTreeTX) : Prop := {
  inv_tree : treeID (rolt w.2) = t;
  inv_front : ∃ X, front (rolt w.2) = appendAll Sum256 zeroFrontier (L ++ X) ∧ Forall (.≠ []) X;
  inv_batch : ∃ R, writesRoots R (localTx w.2) ∧ rootReady w.2 R
}.

Lemma emit_frozen st m m' : emit st m = (Ok (), m') → frozen (state m) → frozen (state m').
Proof.
  intros [<- Hc]%emit_Ok Hf. unfold frozen, closing in *. rewrite !elem_of_cons in *.
  destruct Hc as [[-> | ->]|Hc]; [tauto..|].
  repeat (destruct Hf as [Hf|Hf]; [rewrite Hf in Hc; cbn in Hc;
    rewrite ?elem_of_cons in Hc; set_solver|]). by apply elem_of_nil in Hf.
Qed.

Lemma emit_inv t L st w :
  tx_inv t L w →
  match onFsm (emit st) w with
  | (Ok _, w') => tx_inv t L w' ∧ state (tx_fsm w'.2) = st
  | (_, w') => tx_inv t L w'
  end.
Proof.
  intros [Ht Hf (R & HR & Hr)]. unfold onFsm, zoom.
  destruct (emit_total st (tx_fsm w.2)) as [E|E]; rewrite E; [|by split; [..|exists R]].
  split; [|done]. split; [done|done|]. exists R. split; [done|].
  destruct Hr as [->|[Hz Hr]]; [by left|]. right. split; [|done]. by eapply emit_frozen.
Qed.

Lemma not_frozen_R t L w st :
  tx_inv t L w → state (tx_fsm w.2) = st → ¬ frozen st → writesRoots [] (localTx w.2).
Proof. intros [_ _ (R & HR & [->|[Hz _]])] <- Hn; done. Qed.

Section writes.
Context {P : bytes → bool}.

Lemma rowOps_app b1 b2 : rowOps P (b1 ++ b2) = rowOps P b1 ++ rowOps P b2.
Proof. apply filter_app. Qed.

Lemma rowOps_all b : Forall (λ o, P (op_key o) = true) b → rowOps P b = b.
Proof. induction 1 as [|o b Ho _ IH]; [done|]. unfold rowOps in *. by rewrite filter_cons, decide_True, IH. Qed.

Lemma rowOps_none b : Forall (λ o, P (op_key o) = false) b → rowOps P b = [].
Proof.
  induction 1 as [|o b Ho _ IH]; [done|]. unfold rowOps in *. by rewrite filter_cons, decide_False by congruence.
Qed.

Lemma stable_batch_add R o : P (op_key o) = false → stable (writes P R) (batch_add o).
Proof.
  intros Ho tx (b & Hb & <-). unfold batch_add. rewrite Hb. eexists. split; [done|].
  rewrite rowOps_app. unfold rowOps at 2. rewrite filter_cons, decide_False by congruence.
  by rewrite app_nil_r.
Qed.

Lemma stable_putLeavesLoop t `{!SkipsIndexes t P} R rows : stable (writes P R) (putLeavesLoop t rows).
Proof.
  induction rows as [|[[seq mh] ih] rows IH]; cbn [putLeavesLoop]; [apply stable_ret|].
  apply stable_bind; [apply stable_lift|intros raw].
  do 2 (apply stable_bind; [apply stable_batch_add; apply skips_merkle || apply skips_identity|intros _]).
  done.
Qed.

Lemma stable_PutLeaves t `{!SkipsIndexes t P} R seqs mhs ihs : stable (writes P R) (Local.PutLeaves t seqs mhs ihs).
Proof. unfold Local.PutLeaves. repeat case_match; auto using stable_fail, stable_putLeavesLoop. Qed.

Lemma stable_storeSubtrees tx `{!SkipsSubtrees (treeID tx) P} R sts : stable (writes P R) (storeSubtrees tx sts).
Proof.
  unfold storeSubtrees, PutSubtrees. apply stable_bind; [apply stable_lift|intros ids].
  case_match; [apply stable_fail|]. generalize (zip ids sts). intros rows.
  induction rows as [|[id st] rows IH]; cbn [putSubtreesLoop]; [apply stable_ret|].
  apply stable_bind; [apply stable_wrapErr, stable_lift|intros k].
  apply stable_bind; [apply stable_lift|intros raw].
  apply stable_bind; [apply stable_batch_add, skips_subtrees|done].
Qed.
End writes.

Lemma isRootKey_keyB typ t v : (b2z typ < 128)%Z → isRootKey (keyB typ t v) = bool_decide (typ = typ_r).
Proof.
  intros H. unfold keyB, keyPrefix, string_of_byte. destruct (Z.ltb_spec (b2z typ) 128); [done|lia].
Qed.

(** Keys within the queue of a log are keys of the queue. *)
Lemma queue_range_key m t cutoff k v :
  (k, v) ∈ queued m t cutoff → isQueueKey k = true ∧ isRootKey k = false ∧ isIndexKey k = false.
Proof.
  intros (_ & H1 & H2)%elem_of_range. unfold queueStart, queueLimit, keyB, keyPrefix in *.
  change (string_of_byte typ_l) with [typ_l] in *. rewrite <-!app_assoc in *. cbn [app] in *.
  destruct k as [|b k]; [done|]. cbn [isQueueKey isRootKey isIndexKey].
  destruct (decide (b = typ_l)) as [->|Hne]; [by split|]. exfalso. apply ble_lt_eq in H1 as [H1|H1]; [|congruence].
  apply blt_cons in H1 as [H1|[H1 _]]; [|congruence]. apply blt_cons in H2 as [H2|[H2 _]]; [lia|congruence].
Qed.

(** And they are rows of that log. *)
Lemma queue_range_own m t cutoff k v : (k, v) ∈ queued m t cutoff → isForeignKey t k = false.
Proof.
  intros (_ & H1 & H2)%elem_of_range. unfold queueStart, queueLimit, keyB in *.
  apply blt_ble in H2. destruct (between_prefix _ _ _ _ H1 H2) as [c ->]. by apply (isForeignKey_own t typ_l c).
Qed.

Lemma stable_dequeueLoop P R limit es : ∀ leaves,
  (∀ k v, (k, v) ∈ es → P k = false) → stable (writes P R) (dequeueLoop limit leaves es).
Proof.
  induction es as [|[k v] es IH]; intros leaves Hes; cbn [dequeueLoop]; [apply stable_ret|].
  case_match; [apply stable_ret|]. apply stable_bind; [apply stable_lift|intros leaf].
  apply stable_bind.
  - apply stable_batch_add. rewrite dupSlice_id. apply (Hes k v). by left.
  - intros _. apply IH. intros k' v' H'. apply (Hes k' v'). by right.
Qed.

(** Dequeueing writes to no rows but those of the queue. *)
Lemma DequeueLeaves_writes P R t seq cutoff limit p :
  (∀ m k v, (k, v) ∈ queued m t cutoff → P k = false) →
  writes P R p.2 → writes P R (Local.DequeueLeaves t seq cutoff limit p).2.2.
Proof.
  intros HP Hp. unfold Local.DequeueLeaves, zoom. unfold_M. destruct p as [d tx]. cbn [fst snd] in *.
  destruct (io d) as [[[]| |] d1]; [|done..]. cbn [fst snd].
  set (es := range_entries _ _ _).
  destruct (db_iterate es d1) as [[[visited failed]| |] d2] eqn:Ei; [|done..]. cbn [fst snd].
  pose proof (stable_dequeueLoop P R limit visited []) as Hl. cbn in Hl.
  assert (∀ k v, (k, v) ∈ visited → P k = false) as Hv.
  { intros k v Hin. apply (HP (kv d1) k v). fold (queued (kv d1) t cutoff) in es. fold es.
    unfold db_iterate in Ei. unfold_M. unfold next_fault in Ei.
    repeat (case_match; simplify_eq/=); try done. by eapply elem_of_take in Hin as (? & ? & ?);
    eapply list_elem_of_lookup_2. }
  specialize (Hl Hv tx Hp). destruct (dequeueLoop limit [] visited tx) as [[[ls br]| |] tx']; [|done..].
  cbn [fst snd] in *. by case_match.
Qed.

Lemma StoreRoot_roots t r f tx :
  writesRoots [] tx →
  match StoreRoot t r f tx with
  | (Ok _, tx') => ∃ raw, marshal f = Ok raw ∧ writesRoots (rootPuts t r raw) tx'
  | (_, tx') => tx' = tx
  end.
Proof.
  intros (b & Hb & HR). unfold StoreRoot, batch_add. unfold_M. destruct (marshal f) as [raw| |]; [|done..].
  rewrite Hb. cbn [batch]. exists raw. split; [done|]. eexists. split; [reflexivity|].
  rewrite <-!app_assoc, rowOps_app, HR, !dupSlice_id. reflexivity.
Qed.

Lemma StoreRoot_other P R t r f tx :
  (∀ name, P (keyS typ_r t name) = false) → writes P R tx → writes P R (StoreRoot t r f tx).2.
Proof.
  intros HP. unfold StoreRoot. apply stable_bind; [apply stable_lift|intros raw].
  do 2 (apply stable_bind; [apply stable_batch_add, HP|intros _]). apply stable_batch_add, HP.
Qed.

(** Reading keeps the log, its frontier and the root of the transaction. *)
Definition identity (tx : readOnlyLogTreeTX) : Z * Frontier := (treeID tx, front tx).

Section frame.
Context (i : Z * Frontier).
Abbreviation same := (λ p : System * readOnlyLogTreeTX, identity p.2 = i).

Lemma frame_onSubtrees {A} (x : M (SubtreeCache * DB) A) : stable same (onSubtrees x).
Proof. eapply (stable_zoom _ (λ _, True)); [done|done|by intros ? _]. Qed.
Lemma frame_onLocal {A} (x : M DB A) : stable same (onLocal x).
Proof. eapply (stable_zoom _ (λ _, True)); [done|done|by intros ? _]. Qed.
Lemma frame_onRemote {A} (x : M Remote A) : stable same (onRemote x).
Proof. eapply (stable_zoom _ (λ _, True)); [done|done|by intros ? _]. Qed.
Hint Resolve frame_onSubtrees frame_onLocal frame_onRemote : ctlog.

Lemma frame_GetMerkleNodes rev ids : stable same (GetMerkleNodes Sum256 rev ids).
Proof. unfold GetMerkleNodes. stable. Qed.
Hint Resolve frame_GetMerkleNodes : ctlog.
Lemma frame_GetLeavesByIndex indexes : stable same (GetLeavesByIndex Sum256 indexes).
Proof. unfold GetLeavesByIndex, ReadRevision. stable. Qed.
Lemma frame_GetLeavesByHash hashes order : stable same (GetLeavesByHash hashes order).
Proof. unfold GetLeavesByHash. stable. Qed.
End frame.

Lemma inv_onRead {A} t L (x : ReadM A) :
  (∀ i, stable (λ p : System * readOnlyLogTreeTX, identity p.2 = i) x) →
  stable (tx_inv t L) (onRead x).
Proof.
  intros Hx w [Ht (X & Hf & HX) (R & HR & Hr)]. unfold onRead, zoom.
  specialize (Hx (identity (rolt w.2)) (w.1, rolt w.2) eq_refl).
  destruct (x (w.1, rolt w.2)) as [o [s' tx']]. cbn [fst snd] in *. injection Hx as Et Ef.
  split; cbn [fst snd rolt localTx].
  - congruence.
  - exists X. split; [congruence|done].
  - exists R. split; [done|]. unfold rootReady in *. cbn [rolt tx_fsm]. by rewrite Et, Ef.
Qed.

Lemma appendLeaves_hashes f leaves :
  Forall hashed leaves → ∃ hs, Forall (.≠ []) hs ∧ appendLeaves Sum256 f leaves = appendAll Sum256 f hs.
Proof.
  intros H. revert f. induction H as [|l leaves (h & Hh & Hne) _ IH]; intros f.
  { exists []. split; [constructor|done]. }
  destruct (IH (Append Sum256 f (Some h))) as (hs & Hhs & E). exists (h :: hs).
  split; [by constructor|]. unfold appendLeaves in *. cbn [fold_left]. by rewrite Hh, E.
Qed.

(** *** The invariant is kept by every operation *)

(** A change of parts the invariant does not speak of. *)
Lemma tx_inv_ext t L s s' tx q : tx_inv t L (s, tx) →
  tx_inv t L (s', mkLTX (rolt tx) (tx_fsm tx) (localTx tx) q).
Proof. intros [H1 H2 H3]. by split. Qed.

Lemma tx_inv_sys t L s s' tx : tx_inv t L (s, tx) → tx_inv t L (s', tx).
Proof. intros [H1 H2 H3]. by split. Qed.

Lemma tx_inv_closed t L s tx c : tx_inv t L (s, tx) →
  tx_inv t L (s, mkLTX (with_closed c (rolt tx)) (tx_fsm tx) (localTx tx) (queuedLeaves tx)).
Proof. intros [H1 H2 H3]. by split. Qed.

Lemma inv_setClosed t L : stable (tx_inv t L) setClosed.
Proof. apply stable_modify. intros [s tx]. apply tx_inv_closed. Qed.

Lemma inv_onSystem {A} t L (x : M System A) : stable (tx_inv t L) (onSystem x).
Proof.
  intros [s tx] H. unfold onSystem, zoom. cbn [fst]. destruct (x s) as [o s'].
  by apply (tx_inv_sys t L s).
Qed.

(** A change of the batch that leaves its writes to roots alone. *)
Lemma tx_inv_batch t L s s' tx ltx' :
  tx_inv t L (s, tx) → (∀ R, writesRoots R (localTx tx) → writesRoots R ltx') →
  tx_inv t L (s', mkLTX (rolt tx) (tx_fsm tx) ltx' (queuedLeaves tx)).
Proof.
  intros [H1 H2 (R & HR & Hr)] Hb. split; [done|done|]. exists R. split; [by apply Hb|done].
Qed.

Lemma inv_QueueLeaves t L env leaves ts : stable (tx_inv t L) (QueueLeaves env leaves ts).
Proof.
  unfold QueueLeaves. eapply (stable_bind_post _ (λ _, tx_inv t L)).
  { intros w Hw. pose proof (emit_inv t L sQueueLeaves w Hw). repeat case_match; naive_solver. }
  intros _. apply stable_bind.
  { apply stable_modify. intros [s tx]. apply tx_inv_ext. }
  intros _. apply stable_bind; [apply stable_get|]. intros w. apply inv_onSystem.
Qed.

Lemma inv_DequeueLeaves t L limit cutoff : stable (tx_inv t L) (DequeueLeaves limit cutoff).
Proof.
  unfold DequeueLeaves. eapply (stable_bind_post _ (λ _, tx_inv t L)).
  { intros w Hw. pose proof (emit_inv t L sDequeueLeaves w Hw). repeat case_match; naive_solver. }
  intros _. apply stable_bind; [apply stable_get|]. intros w0 [s tx] Hw.
  unfold onDBTx, zoom. cbn [fst snd].
  pose proof (λ R, DequeueLeaves_writes isRootKey R (treeID (rolt w0.2)) (TreeSize (root (rolt w0.2))) cutoff
    limit (local s, localTx tx) (λ m k v Hin, proj1 (proj2 (queue_range_key m _ _ k v Hin)))) as Hd.
  destruct (Local.DequeueLeaves _ _ _ _ _) as [o [d ltx]]. cbn [fst snd] in *.
  by apply (tx_inv_batch t L s _ tx).
Qed.

Lemma inv_UpdateSequencedLeaves t L leaves :
  Forall hashed leaves → stable (tx_inv t L) (UpdateSequencedLeaves Sum256 leaves).
Proof.
  intros Hl. unfold UpdateSequencedLeaves.
  set (upd := λ w, tx_inv t L w ∧ state (tx_fsm w.2) = sUpdateSequencedLeaves).
  eapply (stable_bind_post _ (λ _, upd)).
  { intros w Hw. apply (emit_inv t L sUpdateSequencedLeaves w Hw). }
  intros _ w [Hw Hst]. erewrite mbind_step by reflexivity.
  unfold mbind at 1, M_bind at 1. unfold onSystem, zoom. destruct w as [s tx]. cbn [fst snd] in *.
  destruct (sysRemote _ s) as [[u|e|] s'];
    [|by apply (tx_inv_sys t L s)..].
  erewrite mbind_step by reflexivity. unfold onTx, zoom. cbn [fst snd localTx rolt tx_fsm queuedLeaves].
  pose proof (not_frozen_R t L (s, tx) _ Hw Hst) as HR. cbn [snd] in HR.
  destruct (Local.PutLeaves _ _ _ _ (localTx tx)) as [o ltx] eqn:Ep.
  assert (writesRoots [] ltx) as HR'.
  { replace ltx with (Local.PutLeaves (treeID (rolt tx)) (LeafIndex <$> leaves)
      (MerkleLeafHash <$> leaves) (LeafIdentityHash <$> leaves) (localTx tx)).2 by by rewrite Ep.
    apply (stable_PutLeaves (P := isRootKey) _ []), HR. unfold frozen. rewrite !elem_of_cons, elem_of_nil. naive_solver. }
  destruct Hw as [Ht (X & Hf & HX) _]. cbn [snd] in *.
  destruct (appendLeaves_hashes (front (rolt tx)) leaves Hl) as (hs & Hhs & E).
  split; cbn [fst snd rolt localTx with_front treeID front]; [done| |].
  - exists (X ++ hs). split; [|by apply Forall_app]. rewrite E, Hf. unfold appendAll.
    by rewrite app_assoc, (fold_left_app _ (L ++ X)).
  - exists []. split; [done|by left].
Qed.

Lemma inv_SetMerkleNodes t L nodes : stable (tx_inv t L) (SetMerkleNodes Sum256 nodes).
Proof.
  unfold SetMerkleNodes. eapply (stable_bind_post _ (λ _, tx_inv t L)).
  { intros w Hw. pose proof (emit_inv t L sSetMerkleNodes w Hw). repeat case_match; naive_solver. }
  intros _. apply stable_mfold. intros [] n. apply stable_bind; [apply stable_get|]. intros w.
  apply inv_onRead. intros i. apply frame_onSubtrees.
Qed.

Lemma inv_StoreSignedLogRoot t L r :
  honest r → stable (tx_inv t L) (StoreSignedLogRoot Sum256 r).
Proof.
  intros Hr w Hw. unfold StoreSignedLogRoot. unfold mbind at 1, M_bind at 1.
  pose proof (emit_inv t L sStoreSignedLogRoot w Hw) as He.
  unfold onFsm, zoom in *. destruct w as [s tx]. cbn [fst snd] in *.
  destruct (emit sStoreSignedLogRoot (tx_fsm tx)) as [[[]|e|] m'] eqn:Ee; [|done..].
  destruct He as [He Hst]. cbn [snd tx_fsm] in Hst. erewrite mbind_step by reflexivity.
  cbn [fst snd rolt]. unfold bytes_Equal. case_bool_decide as Eh; [|done]. cbn [negb].
  assert (writesRoots [] (localTx tx)) as HR.
  { apply emit_Ok in Ee as [_ [Hc|Hc]]; [by destruct Hc|].
    apply (not_frozen_R t L (s, tx) (state (tx_fsm tx)) Hw eq_refl). cbn [snd].
    intros Hz. unfold frozen in Hz. rewrite !elem_of_cons in Hz.
    repeat (destruct Hz as [Hz|Hz]; [rewrite Hz in Hc; cbn in Hc; set_solver|]).
    by apply elem_of_nil in Hz. }
  unfold onTx, zoom. cbn [fst snd localTx].
  pose proof (StoreRoot_roots (treeID (rolt tx)) r (front (rolt tx)) (localTx tx) HR) as Hs.
  destruct He as [Ht Hf Hb]. cbn [snd rolt localTx] in *.
  destruct (StoreRoot _ _ _ _) as [[u|e|] ltx]; [|subst ltx; by split..].
  destruct Hs as (raw & Hm & HR'). split; [done|done|]. eexists. split; [exact HR'|].
  right. cbn [snd rolt tx_fsm]. rewrite Hst. split; [left|]. by exists r, raw.
Qed.

Lemma inv_Rollback t L : stable (tx_inv t L) Rollback.
Proof.
  unfold Rollback. eapply (stable_bind_post _ (λ _, tx_inv t L)).
  { intros w Hw. pose proof (emit_inv t L sRollback w Hw). repeat case_match; naive_solver. }
  intros _. apply inv_setClosed.
Qed.

Lemma inv_Close t L : stable (tx_inv t L) Close.
Proof.
  unfold Close. eapply (stable_bind_post _ (λ _, tx_inv t L)).
  { intros w Hw. pose proof (emit_inv t L sClose w Hw). repeat case_match; naive_solver. }
  intros _. apply inv_setClosed.
Qed.

Lemma op_step_inv t L w w' : op_step honest hashed false w w' → tx_inv t L w → tx_inv t L w'.
Proof.
  destruct 1 as [env leaves ts w|limit cutoff w|leaves w Hl|nodes w|r w Hr|indexes w|hashes order w
    |rev ids w|w E|w|w|env i tx leaves ts s ltx|s s' ltx E].
  9: done.
  1: apply inv_QueueLeaves.
  1: apply inv_DequeueLeaves.
  1: by apply inv_UpdateSequencedLeaves.
  1: apply inv_SetMerkleNodes.
  1: by apply inv_StoreSignedLogRoot.
  1: apply inv_onRead; intros; apply frame_GetLeavesByIndex.
  1: apply inv_onRead; intros; apply frame_GetLeavesByHash.
  1: apply inv_onRead; intros; apply frame_GetMerkleNodes.
  1: apply inv_Rollback.
  1: apply inv_Close.
  all: apply tx_inv_sys.
Qed.

(** *** Transactions that are over *)

Definition ended (w : System * logTreeTX) : Prop :=
  state (tx_fsm w.2) ∈ [sCommit; sRollback; sClose].

Lemma emit_ended st w :
  ended w → ¬ closing st → onFsm (emit st) w = (Err illegal_transition, w).
Proof.
  destruct w as [s [r [st0] l q]]. unfold ended, closing, onFsm, zoom. cbn. intros Hst Hc.
  assert (emit st (mkFsm st0) = (Err illegal_transition, mkFsm st0)) as ->; [|done].
  rewrite !elem_of_cons in Hst. destruct Hst as [->|[->|[->|[]%elem_of_nil]]]; destruct st; tauto || done.
Qed.

Lemma ended_refused {A} st (m : TxM A) w :
  ended w → ¬ closing st → ((_ ← onFsm (emit st); m) w).2 = w.
Proof. intros He Hc. unfold mbind, M_bind. by rewrite emit_ended. Qed.

(** They end once: nothing but closing is done in them. *)
Lemma op_step_ended rootOK leafOK commits w w' :
  op_step rootOK leafOK commits w w' → ended w → ended w'.
Proof.
  assert (∀ st (v : System * logTreeTX), st = sRollback ∨ st = sClose →
    ended ((_ ← onFsm (emit st); setClosed) v).2) as Hclose.
  { intros st [s [r [st0] l q]] [-> | ->]; destruct st0; cbn; unfold ended; cbn; set_solver. }
  assert (∀ A (m : ReadM A) v, ended v → ended (onRead m v).2) as Hread.
  { intros A m [s tx] Hv. unfold onRead, zoom. by destruct (m _) as [o [s' r]]. }
  destruct 1; intros He; try (by apply Hread); try (by apply Hclose; auto); try done.
  all: unfold QueueLeaves, DequeueLeaves, UpdateSequencedLeaves, SetMerkleNodes, StoreSignedLogRoot, Commit;
    by rewrite ended_refused by (done || unfold closing; naive_solver).
Qed.

Lemma ended_Commit w : ended w → (Commit w).2 = w.
Proof. intros He. unfold Commit. by rewrite ended_refused by (done || unfold closing; naive_solver). Qed.

Lemma Commit_ended w : (Commit w).2 = w ∨ ended (Commit w).2.
Proof.
  destruct (Commit w) as [o w'] eqn:H. cbn [snd]. unfold Commit in H. destruct w as [s tx].
  unfold mbind at 1, M_bind at 1 in H. unfold onFsm, zoom in H. cbn [fst snd] in H.
  destruct (emit_total sCommit (tx_fsm tx)) as [E|E]; rewrite E in H;
    [right|left; injection H as _ <-; by destruct tx].
  unfold ended. erewrite mbind_step in H by reflexivity. cbn [fst snd queuedLeaves] in H.
  destruct (queuedLeaves tx); [injection H as _ <-; cbn; set_solver|].
  unfold mbind at 1, M_bind at 1 in H. unfold onCacheTx, zoom in H. cbn [fst snd] in H.
  destruct (Flush _ _ _) as [[[]|e|] [sc ltx]]; cbn [fst snd] in H; [|injection H as _ <-; cbn; set_solver..].
  unfold mbind, M_bind, onDBTx, zoom in H. cbn [fst snd localTx] in H.
  destruct (Local.Commit (local s, ltx)) as [[[]|e|] [d2 ltx2]]; injection H as _ <-; cbn; set_solver.
Qed.

(** [Commit] changes no row, or writes a whole batch whose root, if it has one,
    is the root of the frontier of the transaction. *)
Lemma Commit_effect t L w o w' :
  tx_inv t L w → Commit w = (o, w') →
  kv (local w'.1) = kv (local w.1) ∨
  o = Ok () ∧ ∃ b tx, kv (local w'.1) = apply_batch (kv (local w.1)) b ∧ rootReady tx (rootOps b) ∧
    treeID (rolt tx) = t ∧
    ∃ X, front (rolt tx) = appendAll Sum256 zeroFrontier (L ++ X) ∧ Forall (.≠ []) X.
Proof.
  intros Hw. unfold Commit. unfold mbind at 1, M_bind at 1.
  pose proof (emit_inv t L sCommit w Hw) as He. unfold onFsm, zoom in *.
  destruct w as [s tx]. cbn [fst snd] in *.
  destruct (emit sCommit (tx_fsm tx)) as [[[]|e|] m'];
    [|intros [= <- <-]; by left..].
  destruct He as [[Ht Hf (R & HR & Hr)] _]. erewrite mbind_step by reflexivity.
  cbn [fst snd queuedLeaves rolt localTx] in *. destruct (queuedLeaves tx).
  { intros [= <- <-]. by left. }
  unfold mbind at 1, M_bind at 1. unfold onCacheTx, zoom. cbn [fst snd rolt localTx].
  pose proof (stable_Flush (writesRoots R) prepareLogSubtreeWrite (storeSubtrees (rolt tx))
    (stable_storeSubtrees (rolt tx) R) (subtreeCache (rolt tx), localTx tx) HR) as HR'.
  destruct (Flush _ _ _) as [[[]|e|] [sc ltx]]; cbn [fst snd] in *;
    [|intros [= <- <-]; by left..].
  unfold mbind, M_bind, onDBTx, zoom. cbn [fst snd localTx].
  destruct (Local.Commit (local s, ltx)) as [o1 [d2 ltx2]] eqn:Ec. apply Commit_spec in Ec.
  cbn [fst snd] in Ec. destruct Ec as [(-> & Hkv & _)|(-> & Hkv & _)]; intros [= <- <-]; cbn.
  - right. split; [done|]. destruct HR' as (b & Hb & <-). rewrite Hb in Hkv. cbn in Hkv.
    eexists b, _. split; [exact Hkv|]. split; [exact Hr|]. by split.
  - by left.
Qed.
End clients.

(** ** Duplicates *)

Section duplicates.
Context `{!Codec LogLeaf, !Codec (list LogLeaf)}.

Lemma dupLeaf_idemp leaf : dupLeaf (dupLeaf leaf) = dupLeaf leaf.
Proof. unfold dupLeaf. cbn. by rewrite !dupSlice_id. Qed.

(** The item that [Set] leaves in the cache. *)
Lemma Set_item {A} now rand k (x : A) (c c' : @cache A) :
  Set_ now rand k x DefaultExpiration c = (Ok (), c') →
  items c' !! k = Some (mkItem x (if (0 <? defaultExpiration c)%Z
                                  then wrap64 (now + defaultExpiration c) else 0%Z)).
Proof.
  unfold Set_. cbn [Z.eqb DefaultExpiration]. intros H.
  repeat case_match; simplify_eq/=; by rewrite lookup_insert_eq.
Qed.

Lemma queueLeaf_queued env tx leaf ts s s' :
  queueLeaf env tx leaf ts s = (Ok None, s') →
  ∃ s1, defaultExpiration (leafCache s1) = defaultExpiration (leafCache s) ∧
    addLeaf env (treeID tx) leaf s1 = (Ok (), s').
Proof.
  unfold queueLeaf, getSequenceByIdentityHash. intros H.
  apply mbind_Ok in H as (? & ? & [= <- <-] & H). case_match; [done|].
  apply mbind_Ok in H as (seq & s1 & Hs & H). case_match.
  { apply mbind_Ok in H as ([dup ?] & s2 & _ & H). by destruct dup. }
  apply mbind_Ok in H as ([] & s2 & Hq & H). apply mbind_Ok in H as ([] & s3 & Ha & H).
  injection H as <-. exists s2. split; [|done].
  apply mbind_Ok in Hs as (seqs & s4 & Hg & Hs). unfold sysLocal, zoom in *.
  destruct (GetSequenceByIdentityHash _ _ _). injection Hg as _ <-.
  destruct (Local.QueueLeaves _ _ _ _ _). injection Hq as _ <-.
  destruct seqs; [done|]. by injection Hs as _ <-.
Qed.

(** Once a leaf was queued, a leaf with its identity hash is answered with it
    until the cache entry expires: no second copy is queued and nothing
    changes. *)
Theorem queueLeaf_dedup env env' tx leaf leaf' ts ts' s s' :
  queueLeaf env tx leaf ts s = (Ok None, s') →
  LeafIdentityHash leaf' = LeafIdentityHash leaf →
  (0 < defaultExpiration (leafCache s))%Z →
  int64 (nowSet env + defaultExpiration (leafCache s)) →
  (nowGet env' ≤ nowSet env + defaultExpiration (leafCache s))%Z →
  queueLeaf env' tx leaf' ts' s' = (Ok (Some (dupLeaf leaf)), s').
Proof.
  intros H Hid Hd Hov Hnow. apply queueLeaf_queued in H as (s1 & Ed & Ha).
  unfold addLeaf, zoom in Ha. destruct (Set_ _ _ _ _ _ _) as [o c'] eqn:Es.
  injection Ha as -> <-. apply Set_item in Es.
  rewrite Ed in Es. destruct (Z.ltb_spec 0 (defaultExpiration (leafCache s))); [|lia].
  rewrite wrap64_small in Es by done.
  unfold queueLeaf. erewrite mbind_step by reflexivity.
  unfold getLeafByIdentityHash, Get_. cbn [leafCache]. rewrite Hid, Es. unfold Expired.
  cbn [Expiration Object].
  assert ((if (nowSet env + defaultExpiration (leafCache s) =? 0)%Z then false else
    (nowSet env + defaultExpiration (leafCache s) <? nowGet env')%Z) = false) as ->.
  { case_match; [done|]. apply Z.ltb_ge. lia. }
  cbn. by rewrite dupLeaf_idemp.
Qed.
End duplicates.

(** ** Witnesses *)

#[local] Existing Instance leafCodec.
#[local] Existing Instance jsonCodec.

Definition env_at (now : Z) : leafEnv :=
  mkLeafEnv now now (Some (replicate 8 Byte.x00)) (λ i, Some [Byte.x00; Byte.x00; Byte.x00; z2b (Z.of_nat i)]).

Definition freshSystem : System := mkSystem (mkDB sampleMap []) sampleRemote (New hour 10).

Lemma queueLeaf_dedup_witness :
  queueLeaf (env_at 50) sampleTX (exampleLeaf Byte.x09) 60
    (queueLeaf (env_at 5) sampleTX (exampleLeaf Byte.x09) 5 freshSystem).2 =
  (Ok (Some (dupLeaf (exampleLeaf Byte.x09))),
   (queueLeaf (env_at 5) sampleTX (exampleLeaf Byte.x09) 5 freshSystem).2).
Proof.
  apply (queueLeaf_dedup (env_at 5) (env_at 50) sampleTX (exampleLeaf Byte.x09)
    (exampleLeaf Byte.x09) 5 60 freshSystem).
  - assert (fst (queueLeaf (env_at 5) sampleTX (exampleLeaf Byte.x09) 5 freshSystem) = Ok None) as E
      by (vm_compute; reflexivity).
    rewrite <-E. apply surjective_pairing.
  - reflexivity.
  - reflexivity.
  - split; vm_compute; congruence.
  - vm_compute. congruence.
Defined.

(** The leaf at index 0 of the log is not recognised once it has left the
    cache: [seq > 0] takes it for a leaf that was never sequenced, and it is
    queued again; the leaf at index 1 is recognised. *)
Lemma queueLeaf_index0 :
  let s := mkSystem (mkDB (<[keyB typ_i 1 [Byte.x00] := [Byte.x00]]>
    (<[keyB typ_i 1 [Byte.x01] := [Byte.x02]]> ∅)) []) sampleRemote (New hour 10) in
  fst (queueLeaf (env_at 5) sampleTX (sampleLeaf 0) 5 s) = Ok None ∧
  fst (queueLeaf (env_at 5) sampleTX (sampleLeaf 1) 5 s) = Ok (Some (jsonLeaf (sampleLeaf 1))) ∧
  fst (getSequenceByIdentityHash sampleTX (Some [Byte.x00]) s) = Ok 0%Z.
Proof. vm_compute. repeat split. Qed.
