(* ===== verification/StoredTree.v ===== *)
(** * Trees in the database

    The rows of subtrees that stand for a Merkle tree at a revision, and what a
    commit does to them: the subtrees that a transaction flushes become the rows
    of the next revision, and the others stay what they were. *)

From S2P Require Import Prelude Keys Trillian Frontier Fsm LevelDB Local Remote Cache Compact.
From S2P Require Import Nodes SubtreeCache TreeNodes ReadTx TreeTx.

(** ** Rows of subtrees *)

Definition prefixID (px : bytes) : NodeID := mkNodeID px (Z.of_nat (length px) * 8).

(** The row of the subtree under [px] at revision [r]. *)
Definition rowKey (t r : Z) (px : bytes) : bytes := subtreeRow t r (prefixID px).

Lemma prefixID_valid px : length px ≤ 7 → valid_NodeID (prefixID px) ∧ node_prefix (prefixID px) = px.
Proof.
  intros Hl. unfold valid_NodeID, node_prefix, prefixID. cbn [PrefixLenBits Path].
  rewrite Z.mod_mul, Z.div_mul, Nat2Z.id, firstn_all by lia. split; [lia|done].
Qed.

Lemma rowKey_inj t r r' px px' :
  length px ≤ 7 → length px' ≤ 7 → (0 ≤ r < 2 ^ 63)%Z → (0 ≤ r' < 2 ^ 63)%Z →
  rowKey t r px = rowKey t r' px' → px = px' ∧ r = r'.
Proof.
  intros Hl Hl' Hr Hr' E. destruct (prefixID_valid px Hl) as [Hv Hp], (prefixID_valid px' Hl') as [Hv' Hp'].
  unfold rowKey, subtreeRow, keyB in E. apply app_inv_head in E. unfold node_rowkey in E. rewrite Hp, Hp' in E.
  apply app_inj_1 in E as [E1 E2]; [|unfold pad8; rewrite !length_app, !length_replicate; lia].
  pose proof (f_equal tail E2 : be_bytes 8 r = be_bytes 8 r') as E3.
  apply (f_equal (λ l, b2z (default Byte.x00 (head l)))) in E2. cbn [head default from_option id] in E2.
  rewrite !b2z_z2b_small in E2 by (unfold prefixID; cbn [PrefixLenBits]; lia).
  cbn [PrefixLenBits prefixID] in E2. unfold pad8 in E1. apply app_inj_1 in E1 as [-> _]; [|lia].
  split; [done|]. apply (f_equal be_val) in E3.
  by rewrite !be_val_be_bytes, !Z.mod_small in E3 by (change (256 ^ Z.of_nat 8)%Z with (2 * 2 ^ 63)%Z; lia).
Qed.

(** The selection of these rows. *)
Definition isSubtreeKey (k : bytes) : bool :=
  match k with b :: _ => bool_decide (b = typ_s) | [] => false end.
#[global] Instance isSubtreeKey_indexes t : SkipsIndexes t isSubtreeKey.
Proof. by split. Qed.

Lemma rowKey_selected t r px : isSubtreeKey (rowKey t r px) = true.
Proof. done. Qed.

(** The row that is read at a revision is the newest up to it. *)
Lemma rowOf_newest m t rev px :
  wf_db m → int64 t → (0 ≤ rev < 2 ^ 63)%Z → length px ≤ 7 →
  match rowOf m t rev px with
  | Some raw => ∃ r, (0 ≤ r ≤ rev)%Z ∧ m !! rowKey t r px = Some raw ∧
                  ∀ r', (r < r' ≤ rev)%Z → m !! rowKey t r' px = None
  | None => ∀ r, (0 ≤ r ≤ rev)%Z → m !! rowKey t r px = None
  end.
Proof.
  intros Hm Ht Hr Hl. unfold rowOf. rewrite decide_True by done.
  apply (seekRow_newest m t rev (prefixID px) Hm Ht Hr), (prefixID_valid px Hl).
Qed.

Section revisions.
Context (m m' : kvmap) (t rev : Z) (px : bytes).
Context (Hm : wf_db m) (Hm' : wf_db m') (Ht : int64 t) (Hr : (0 ≤ rev)%Z) (Hr' : (rev + 1 < 2 ^ 63)%Z).
Context (Hl : length px ≤ 7).

(** A row of the next revision is read. *)
Lemma rowOf_written raw : m' !! rowKey t (rev + 1) px = Some raw → rowOf m' t (rev + 1) px = Some raw.
Proof.
  intros Hrow. pose proof (rowOf_newest m' t (rev + 1) px Hm' Ht ltac:(lia) Hl) as H.
  destruct (rowOf m' t (rev + 1) px) as [raw'|].
  - destruct H as (r & Hle & H1 & H2). destruct (decide (r = rev + 1)%Z) as [->|Hne]; [congruence|].
    rewrite H2 in Hrow; [done|lia].
  - rewrite H in Hrow; [done|lia].
Qed.

(** Where there is none, the row read before is read again. *)
Lemma rowOf_kept :
  (∀ r, (0 ≤ r ≤ rev)%Z → m' !! rowKey t r px = m !! rowKey t r px) →
  m' !! rowKey t (rev + 1) px = None → rowOf m' t (rev + 1) px = rowOf m t rev px.
Proof.
  intros Hsame Hnone. pose proof (rowOf_newest m' t (rev + 1) px Hm' Ht ltac:(lia) Hl) as H'.
  pose proof (rowOf_newest m t rev px Hm Ht ltac:(lia) Hl) as H.
  destruct (rowOf m' t (rev + 1) px) as [raw'|].
  - destruct H' as (r' & Hle' & H1' & H2'). destruct (decide (r' = rev + 1)%Z) as [->|Hne]; [congruence|].
    rewrite Hsame in H1' by lia. destruct (rowOf m t rev px) as [raw|].
    + destruct H as (r & Hle & H1 & H2). destruct (Z.lt_trichotomy r r') as [Hlt|[->|Hlt]]; [|congruence|].
      * rewrite H2 in H1'; [done|lia].
      * specialize (H2' r ltac:(lia)). rewrite Hsame in H2' by lia. congruence.
    + rewrite H in H1'; [done|lia].
  - destruct (rowOf m t rev px) as [raw|]; [|done]. destruct H as (r & Hle & H1 & _).
    rewrite <-Hsame, H' in H1; [done|lia..].
Qed.
End revisions.

(** ** What storing subtrees adds to a batch *)

(** A batch of puts, by its content. *)
#[global] Instance batchOp_eq_dec : EqDecision batchOp.
Proof. solve_decision. Defined.
Definition puts (b : Batch) : Prop := Forall (λ o, match o with BPut _ _ => True | BDelete _ => False end) b.

Lemma apply_puts_none m b k : puts b → (∀ v, BPut k v ∉ b) → apply_batch m b !! k = m !! k.
Proof.
  intros Hb Hk. apply apply_batch_other. intros ([k' v|k'] & -> & Hin)%list_elem_of_fmap; [by destruct (Hk v)|].
  unfold puts in Hb. rewrite Forall_forall in Hb. by apply Hb in Hin.
Qed.

Lemma apply_puts_some m b k v :
  puts b → BPut k v ∈ b → (∀ v', BPut k v' ∈ b → v' = v) → apply_batch m b !! k = Some v.
Proof.
  revert m. induction b as [|o b IH]; intros m Hb Hin Hu; [by apply not_elem_of_nil in Hin|].
  apply Forall_cons in Hb as [Ho Hb]. destruct o as [k' v'|]; [|done].
  change (apply_batch m (BPut k' v' :: b)) with (apply_batch (<[k':=v']> m) b).
  destruct (decide (BPut k v ∈ b)) as [Hin'|Hn].
  - apply IH; [done|done|]. intros; apply Hu; by right.
  - rewrite apply_puts_none; [|done|].
    + apply elem_of_cons in Hin as [[= <- <-]|]; [by rewrite lookup_insert_eq|done].
    + intros w Hw. assert (w = v) as -> by (apply Hu; by right). done.
Qed.

Section store.
Context `{!Codec SubtreeProto}.
Context (Hmarshal : ∀ st : SubtreeProto, ∃ raw, marshal st = Ok raw).

(** The serialized form of a subtree. *)
Definition rawOf (st : SubtreeProto) : bytes := match marshal st with Ok raw => raw | _ => [] end.

Lemma marshal_rawOf st : marshal st = Ok (rawOf st).
Proof. unfold rawOf. by destruct (Hmarshal st) as [raw ->]. Qed.

Definition subtreePuts (t rev : Z) (sts : list SubtreeProto) : Batch :=
  (λ st, BPut (rowKey t rev (sl (Prefix st))) (rawOf st)) <$> sts.

Lemma puts_subtreePuts t rev sts : puts (subtreePuts t rev sts).
Proof. unfold puts, subtreePuts. apply Forall_fmap, Forall_true. done. Qed.

Lemma elem_of_subtreePuts t rev sts k v :
  BPut k v ∈ subtreePuts t rev sts ↔ ∃ st, st ∈ sts ∧ k = rowKey t rev (sl (Prefix st)) ∧ v = rawOf st.
Proof.
  unfold subtreePuts. rewrite list_elem_of_fmap. split.
  - intros (st & [= -> ->] & Hin). by exists st.
  - intros (st & Hin & -> & ->). by exists st.
Qed.

Lemma subtreeIDs_Ok sts :
  Forall (λ st, length (sl (Prefix st)) ≤ 7) sts →
  subtreeIDs sts = Ok ((λ st, prefixID (sl (Prefix st))) <$> sts).
Proof.
  induction 1 as [|st sts Hl _ IH]; [done|]. cbn [subtreeIDs]. destruct (Nat.ltb_spec 8 (length (sl (Prefix st)))); [lia|].
  rewrite IH. unfold_O. rewrite fmap_cons. unfold prefixID. do 3 f_equal. lia.
Qed.

Lemma putSubtreesLoop_Ok t rev sts b :
  Forall (λ st, length (sl (Prefix st)) ≤ 7) sts →
  putSubtreesLoop t rev (zip ((λ st, prefixID (sl (Prefix st))) <$> sts) sts) (mkLocalTx (Some b)) =
    (Ok (), mkLocalTx (Some (b ++ subtreePuts t rev sts))).
Proof.
  intros H. revert b. induction H as [|st sts Hl _ IH]; intros b; [by rewrite app_nil_r|].
  rewrite fmap_cons. cbn [zip zip_with putSubtreesLoop].
  destruct (prefixID_valid (sl (Prefix st)) Hl) as [Hv _]. rewrite rowkeyNodeID_valid by done.
  erewrite mbind_step by reflexivity. rewrite marshal_rawOf. erewrite mbind_step by reflexivity.
  erewrite mbind_step by reflexivity. rewrite IH. unfold subtreePuts. rewrite fmap_cons, <-app_assoc. done.
Qed.

Lemma storeSubtrees_Ok tx sts b :
  Forall (λ st, length (sl (Prefix st)) ≤ 7) sts →
  storeSubtrees tx sts (mkLocalTx (Some b)) =
    (Ok (), mkLocalTx (Some (b ++ subtreePuts (treeID tx) (writeRevision tx) sts))).
Proof.
  intros H. unfold storeSubtrees. rewrite subtreeIDs_Ok by done. erewrite mbind_step by reflexivity.
  unfold PutSubtrees. rewrite length_fmap, Nat.eqb_refl. cbn [negb]. by apply putSubtreesLoop_Ok.
Qed.

Lemma wf_subtreePuts t rev sts :
  int64 t → (0 ≤ rev < 2 ^ 63)%Z → Forall (λ st, length (sl (Prefix st)) ≤ 7) sts → wf_batch (subtreePuts t rev sts).
Proof.
  intros Ht Hr H k v (st & Hin & -> & _)%elem_of_subtreePuts. rewrite Forall_forall in H.
  apply Local.wf_subtree; [done..|]. by apply prefixID_valid, H.
Qed.
End store.

(** ** Stored trees *)

Section stored.
Context (Sum256 : bytes → bytes).
Context `{!Codec SubtreeProto, !CodecLaws SubtreeProto, !MapRange bytes, !MapRangeLaws bytes}.

Abbreviation populate := (populateLogSubtreeNodes Sum256).
Abbreviation nodesOfTree L := (treeNode Sum256 L).
#[local] Instance present_dec'' n d i : Decision (present n d i).
Proof. unfold present. apply _. Defined.

(** What a transaction at revision [rev] reads under [px] are the nodes [F]. *)
Definition stored_at (F : nat → nat → slice) (m : kvmap) (t rev : Z) (px : bytes) : Prop :=
  match rowOf m t rev px with
  | None => subtree_for F px (mkSubtreeProto (Some px) 8 None ∅ ∅ 0)
  | Some raw => ∃ st st', unmarshal raw = Ok st ∧ populate (fixPrefix st) = (Ok (), st') ∧ subtree_for F px st'
  end.

(** The database holds the tree over [L] at [rev], and no newer subtree of it. *)
Record stores (L : list bytes) (m : kvmap) (t rev : Z) : Prop := {
  sto_db : wf_db m;
  sto_at px : length px ≤ 7 → stored_at (nodesOfTree L) m t rev px;
  sto_newest r px : length px ≤ 7 → (rev < r < 2 ^ 63)%Z → m !! rowKey t r px = None
}.

Lemma stored_at_view F m t rev px :
  stored_at F m t rev px → subtree_for F px (view populate (dbStore m t rev) px).
Proof.
  unfold stored_at, view, dbStore. destruct (rowOf m t rev px) as [raw|]; [|done].
  intros (st & st' & Hu & Hp & H). cbn. rewrite Hu. by rewrite Hp.
Qed.

Lemma stores_rows L m t rev : stores L m t rev → subtrees_ok Sum256 m t rev.
Proof.
  intros H px raw Hrow. assert (length px ≤ 7) as Hl by (unfold rowOf in Hrow; by case_decide).
  pose proof (sto_at _ _ _ _ H px Hl) as Hat. unfold stored_at in Hat. rewrite Hrow in Hat.
  destruct Hat as (st & st' & Hu & Hp & Hst). exists st, st'. split; [done|]. split; [done|]. apply Hst.
Qed.

Lemma stores_storage L m t rev :
  stores L m t rev → storage_ok populate (dbStore m t rev) (getSubtrees t rev) (mkDB m []).
Proof. intros H. by apply local_storage_ok, (stores_rows L). Qed.

(** A database whose rows of subtrees are the same. *)
Lemma stores_same L m m' t rev :
  wf_db m' → int64 t → (0 ≤ rev < 2 ^ 63)%Z →
  (∀ r px, m' !! rowKey t r px = m !! rowKey t r px) → stores L m t rev → stores L m' t rev.
Proof.
  intros Hm' Ht Hr Hsame [H1 H2 H3]. split; [done| |].
  - intros px Hl. specialize (H2 px Hl). unfold stored_at in *.
    assert (rowOf m' t rev px = rowOf m t rev px) as ->; [|done].
    pose proof (rowOf_newest m t rev px H1 Ht Hr Hl) as Hn. pose proof (rowOf_newest m' t rev px Hm' Ht Hr Hl) as Hn'.
    destruct (rowOf m t rev px) as [raw|], (rowOf m' t rev px) as [raw'|]; [..|done].
    + destruct Hn as (r & Hle & E & Hn), Hn' as (r' & Hle' & E' & Hn').
      destruct (Z.lt_trichotomy r r') as [Hlt|[->|Hlt]].
      * rewrite Hsame, Hn in E'; [done|lia].
      * congruence.
      * rewrite <-Hsame, Hn' in E; [done|lia].
    + destruct Hn as (r & Hle & E & _). rewrite <-Hsame in E. by rewrite Hn' in E.
    + destruct Hn' as (r & Hle & E & _). rewrite Hsame in E. by rewrite Hn in E.
  - intros r px Hl Hr'. rewrite Hsame. by apply H3.
Qed.

(** A transaction writes at the next revision, where it reads the same. *)
Lemma stores_next L m t rev :
  stores L m t rev → int64 t → (0 ≤ rev)%Z → (rev + 1 < 2 ^ 63)%Z →
  getSubtree_ok (dbStore m t rev) (rolt_getSubtree t (rev + 1)) (mkDB m []).
Proof.
  intros H Ht Hr Hr' id [px Hid].
  assert (∀ px, rowOf m t (rev + 1) px = rowOf m t rev px) as Erow.
  { intros q. destruct (decide (length q ≤ 7)) as [Hl|Hn].
    - apply rowOf_kept; try done; [apply H|apply H|]. apply H; [done|lia].
    - unfold rowOf. by rewrite !decide_False. }
  assert (subtrees_ok Sum256 m t (rev + 1)) as Hok
    by (intros q raw Hq; rewrite Erow in Hq; by apply (stores_rows L m t rev H)).
  unfold rolt_getSubtree. pose proof (storage_reads _ _ _ _ (local_storage_ok Sum256 m t (rev + 1) Hok) [id]) as Hread.
  erewrite mbind_step by (apply Hread; repeat constructor; by exists px).
  cbn [omap list_omap]. unfold compose. rewrite (wanted_idPrefix px id Hid).
  assert (dbStore m t (rev + 1) px = dbStore m t rev px) as E by (unfold dbStore; by rewrite Erow).
  rewrite E. by destruct (dbStore m t rev px).
Qed.

(** ** Committing a flushed cache *)

Lemma nodeAt_first L px e j h :
  length px ≤ 7 → inside e j → nodeAt (nodesOfTree L) px e j = Some h →
  is_Some (nodeAt (nodesOfTree L) px 0 0).
Proof.
  unfold nodeAt, treeNode. intros Hl [He _] H. case_decide as Hp; [|done].
  rewrite decide_True; [by eexists|]. unfold present in *. rewrite !Nat.add_0_r.
  assert (2 ^ (8 - 0) * 2 ^ baseDepth px = 2 ^ (8 - e) * 2 ^ (baseDepth px + e)) as E.
  { rewrite <-!Nat.pow_add_r. f_equal. lia. }
  assert (2 ^ baseDepth px ≤ 2 ^ (baseDepth px + e)) by (apply Nat.pow_le_mono_r; lia).
  rewrite <-Nat.mul_assoc, E, Nat.mul_assoc. nia.
Qed.

Lemma nodeAt_prefix L X px e j :
  nodeAt (nodesOfTree (L ++ X)) px e j = None → nodeAt (nodesOfTree L) px e j = None.
Proof.
  unfold nodeAt, treeNode. case_decide as Hp; [done|]. intros _. rewrite decide_False; [done|].
  intros H. apply Hp. unfold present in *. rewrite length_app. lia.
Qed.

(** A subtree of the grown tree without leaves was empty before. *)
Lemma empty_before L X px st st0 :
  length px ≤ 7 → subtree_for (nodesOfTree (L ++ X)) px st → Leaves st = ∅ →
  subtree_for (nodesOfTree L) px st0 → subtree_for (nodesOfTree (L ++ X)) px st0.
Proof.
  intros Hl Hst He. apply subtree_for_ext. intros e j Hin.
  assert (nodeAt (nodesOfTree (L ++ X)) px e j = None) as E.
  { apply eq_None_not_Some. intros [h Hh]. apply nodeAt_first in Hh as [h0 Hh0]; [|done..].
    assert (Leaves st !! keyAt px 0 0 = Some h0) as E.
    { apply (so_leaves _ _ _ Hst). exists 0. split; [apply inside_leaf; lia|done]. }
    by rewrite He, lookup_empty in E. }
  rewrite E. by eapply nodeAt_prefix.
Qed.

Section commit.
Context (Hmarshal : ∀ st : SubtreeProto, ∃ raw, marshal st = Ok raw).
Context (Hcanon : ∀ st : SubtreeProto,
  is_Some (Prefix st) → SubtreeRootHash st = None → fixPrefix (canon st) = st).

Lemma elem_of_toWrite c st :
  wf_cache c → st ∈ toWrite c (map_to_list (subtrees c)) ↔
  ∃ px v, subtrees c !! px = Some v ∧ mustWrite c (px, v) ∧ st = prepared v ∧ Prefix st = Some px ∧ length px ≤ 7.
Proof.
  intros Hc. unfold toWrite. rewrite list_elem_of_fmap. split.
  - intros ([px v] & -> & [Hw Hin%elem_of_map_to_list]%list_elem_of_filter).
    exists px, v. destruct (wf_subtrees c Hc _ _ Hin) as (Hp & _ & Hl). by split_and!.
  - intros (px & v & Hv & Hw & -> & _). exists (px, v). split; [done|].
    apply list_elem_of_filter. split; [done|]. by apply elem_of_map_to_list.
Qed.

(** A cache that was only read has nothing to write. *)
Lemma toWrite_clean c l : dirtyPrefixes c = ∅ → toWrite c l = [].
Proof.
  intros Hd. unfold toWrite. induction l as [|x l IH]; [done|]. rewrite filter_cons, decide_False; [exact IH|].
  intros [Hx _]. by rewrite Hd in Hx.
Qed.

Lemma stores_commit L X m m' t rev c ts :
  stores L m t rev → int64 t → (0 ≤ rev)%Z → (rev + 1 < 2 ^ 63)%Z →
  cache_for populate (dbStore m t rev) (nodesOfTree (L ++ X)) c →
  ts ≡ₚ toWrite c (map_to_list (subtrees c)) → wf_db m' →
  (∀ r px, m' !! rowKey t r px = apply_batch m (subtreePuts t (rev + 1) ts) !! rowKey t r px) →
  stores (L ++ X) m' t (rev + 1).
Proof.
  intros Hsto Ht Hr Hr' Hc Hts Hm' Hrows. pose proof (cf_wf _ _ _ _ Hc) as Hwf.
  assert (∀ st, st ∈ ts ↔ ∃ px v, subtrees c !! px = Some v ∧ mustWrite c (px, v) ∧ st = prepared v ∧
    Prefix st = Some px ∧ length px ≤ 7) as Hin by (intros st; rewrite Hts; by apply elem_of_toWrite).
  assert (∀ r px raw, (0 ≤ r < 2 ^ 63)%Z → length px ≤ 7 → BPut (rowKey t r px) raw ∈ subtreePuts t (rev + 1) ts →
    r = (rev + 1)%Z ∧ ∃ v, subtrees c !! px = Some v ∧ mustWrite c (px, v) ∧ raw = rawOf (prepared v)) as Hput.
  { intros r px raw Hr0 Hl (st & (px' & v & Hv & Hw & -> & Hp & Hl')%Hin & Ek & ->)%elem_of_subtreePuts.
    rewrite Hp in Ek. apply rowKey_inj in Ek as [-> ->]; [|done|done|done|lia]. split; [done|]. by exists v. }
  split; [done| |].
  - intros px Hl. destruct (decide (px ∈ dirtyPrefixes c ∧ Leaves (cur populate (dbStore m t rev) c px) ≠ ∅)) as [[Hd Hne]|Hn].
    + destruct (wf_dirty c Hwf px Hd) as [v Hv]. assert (cur populate (dbStore m t rev) c px = v) as Ecur
        by (unfold cur; by rewrite Hv). rewrite Ecur in Hne.
      destruct (wf_subtrees c Hwf _ _ Hv) as (Hp & Hdep & _).
      assert (m' !! rowKey t (rev + 1) px = Some (rawOf (prepared v))) as Hrow.
      { rewrite Hrows. apply apply_puts_some; [apply puts_subtreePuts| |].
        - apply elem_of_subtreePuts. exists (prepared v). split; [|by cbn; rewrite Hp].
          apply Hin. exists px, v. by split_and!.
        - intros raw Hraw. apply Hput in Hraw as (_ & v' & Hv' & _ & ->); [|lia|done]. congruence. }
      apply rowOf_written in Hrow; [|done..]. unfold stored_at. rewrite Hrow.
      pose proof (cf_cur _ _ _ _ Hc px Hl) as Hfor. rewrite Ecur in Hfor.
      destruct (populate_prepared Sum256 (L ++ X) px Hl v (prepared v) Hfor) as (st' & Hpop & Hst'); try done.
      exists (canon (prepared v)), st'. split; [by apply unmarshal_marshal, marshal_rawOf|].
      rewrite Hcanon; [done|by eexists|done].
    + assert (∀ raw, BPut (rowKey t (rev + 1) px) raw ∉ subtreePuts t (rev + 1) ts) as Hnone.
      { intros raw Hraw. apply Hput in Hraw as (_ & v & Hv & [Hd Hne] & _); [|lia|done]. apply Hn.
        unfold cur. by rewrite Hv. }
      assert (rowOf m' t (rev + 1) px = rowOf m t rev px) as Erow.
      { apply rowOf_kept; try done; [apply Hsto|..].
        - intros r Hr0. rewrite Hrows. apply apply_puts_none; [apply puts_subtreePuts|].
          intros raw Hraw. apply Hput in Hraw as [-> _]; [lia|lia|done].
        - rewrite Hrows, apply_puts_none by (done || apply puts_subtreePuts). apply Hsto; [done|lia]. }
      pose proof (sto_at _ _ _ _ Hsto px Hl) as Hold. pose proof (stored_at_view _ _ _ _ _ Hold) as Hview.
      assert (subtree_for (nodesOfTree (L ++ X)) px (view populate (dbStore m t rev) px)) as Hnew.
      { destruct (decide (px ∈ dirtyPrefixes c)) as [Hd|Hd].
        - apply (empty_before L X px (cur populate (dbStore m t rev) c px)); [done|by apply Hc| |done].
          apply dec_stable. intros ?. by apply Hn.
        - rewrite <-(cf_clean _ _ _ _ Hc px Hd). by apply Hc. }
      unfold stored_at in Hold |- *. rewrite Erow. unfold view, dbStore in Hnew.
      destruct (rowOf m t rev px) as [raw|]; [|done].
      destruct Hold as (st & st' & Hu & Hp & _). cbn in Hnew. rewrite Hu, Hp in Hnew. by exists st, st'.
  - intros r px Hl Hr0. rewrite Hrows, apply_puts_none; [apply Hsto; [done|lia]|apply puts_subtreePuts|].
    intros raw Hraw. apply Hput in Hraw as [-> _]; [lia|lia|done].
Qed.
End commit.
End stored.
