(* ===== verification/LogStorage.v ===== *)
(** * The log storage (src/ct/log_storage.go)

    [LogStorage] starts the transactions on the local database and the bucket,
    runs a client's function in one, and queues leaves on behalf of the server.
    The file also states what the storage promises: failed transactions leave
    no trace but queued leaves, and the log of a tree is only ever extended. *)

From S2P Require Import Prelude Keys Trillian Frontier Fsm LevelDB Local.
From S2P Require Import Remote Cache Compact Nodes SubtreeCache Config ReadTx TreeTx.

(** [trillian.QueuedLogLeaf], with the status of a duplicate. *)
Inductive Status := AlreadyExists (id : slice).
Record QueuedLogLeaf := mkQueued { queued_Leaf : LogLeaf; queued_Status : option Status }.

Section storage.
Context (Sum256 : bytes → bytes).
Context `{!Codec LogLeaf, !Codec SubtreeProto, !Codec Frontier, !Codec (list LogLeaf)}.
Context `{!MapRange bytes, !MapRange Z}.

Definition CheckDatabaseAccessible : outcome unit := Ok ().

Definition Snapshot (as_ : adminStorage) : outcome readOnlyLogTX :=
  tx ← Config.Snapshot as_;
  mret (mkROL (adminTx_iface tx) false).

Definition SnapshotForTree (treeID : Z) : M System readOnlyLogTreeTX :=
  stCache ← lift (NewLogSubtreeCache logStrata);
  '(root, front) ← sysLocal (MostRecentRoot treeID);
  mret (mkROLT stCache treeID root front false).

(** A log without a root starts from the zero root and frontier. *)
Definition beginForTree (treeID : Z) : M System logTreeTX :=
  stCache ← lift (NewLogSubtreeCache logStrata);
  r ← try (sysLocal (MostRecentRoot treeID));
  '(root, front) ← match r with
                   | Err ErrTreeNeedsInit => mret (zeroSignedLogRoot, zeroFrontier)
                   | _ => lift r
                   end;
  mret (mkLTX (mkROLT stCache treeID root front false) (mkFsm sBegin) Begin false).

(** The body of [ReadWriteTransaction] on an open transaction: the error of
    [Rollback] is dropped. *)
Definition runTx (f : TxM unit) : TxM unit :=
  r ← try f;
  match r with
  | Err e => _ ← try Rollback; fail e
  | _ => Commit
  end.

(** Run code on a transaction that is dropped afterwards. *)
Definition withTx {A} (ltx : logTreeTX) (m : TxM A) : M System A :=
  λ s, let '(o, (s', _)) := m (s, ltx) in (o, s').

Definition ReadWriteTransaction (treeID : Z) (f : TxM unit) : M System unit :=
  ltx ← beginForTree treeID;
  withTx ltx (runTx f).

(** The leaves a client gets back: a duplicate with its status, or its own. *)
Definition queuedLeaf (leaf : LogLeaf) (dup : option LogLeaf) : QueuedLogLeaf :=
  match dup with
  | None => mkQueued leaf None
  | Some l => mkQueued l (Some (AlreadyExists (LeafIdentityHash l)))
  end.

Definition QueueLeaves (env : nat → leafEnv) (treeID : Z) (leaves : list LogLeaf)
    (queueTimestamp : Z) : M System (list QueuedLogLeaf) :=
  '(root, _) ← sysLocal (MostRecentRoot treeID);
  let lt := mkROLT (mkSubtreeCache [] ∅ ∅) treeID root zeroFrontier false in
  dups ← queueLoop env 0 lt leaves queueTimestamp;
  mret (zip_with queuedLeaf leaves dups).

Definition AddSequencedLeaves (treeID : Z) (leaves : list LogLeaf) (ts : Z)
    : M System (list QueuedLogLeaf) :=
  fail (Errorf "adding sequenced leaves is not implemented").
End storage.

(** ** The log of a tree *)

Section logs.
Context (Sum256 : bytes → bytes).
Context `{!Codec LogLeaf, !Codec SubtreeProto, !Codec Frontier, !Codec (list LogLeaf)}.
Context `{!MapRange bytes, !MapRange Z}.

(** The root row of tree [t] carries the Merkle tree hash of the log with leaf
    hashes [L], and the frontier row its frontier; the rows of a tree stand for
    [L] when they do, or when there is no root yet and [L] is empty. *)
Definition has_root (t : Z) (L : list bytes) (m : kvmap) : Prop :=
  ∃ rootRaw sig frontRaw l,
    m !! keyS typ_r t "root" = Some rootRaw ∧ m !! keyS typ_r t "sig" = Some sig ∧
    m !! keyS typ_r t "frontier" = Some frontRaw ∧
    LogRootV1.UnmarshalBinary rootRaw = Ok l ∧ LogRootV1.RootHash l = MTH Sum256 L ∧
    unmarshal frontRaw = Ok (appendAll Sum256 zeroFrontier L).

Definition log_state (t : Z) (L : list bytes) (m : kvmap) : Prop :=
  Forall (.≠ []) L ∧ ((L = [] ∧ m !! keyS typ_r t "root" = None) ∨ has_root t L m).

(** Queueing a leaf does not touch it. *)
Lemma keyS_root_keyB t name typ t' v :
  (b2z typ < 128)%Z → typ ≠ typ_r → keyS typ_r t name ≠ keyB typ t' v.
Proof.
  intros Ht Hn E. pose proof (f_equal isRootKey E) as H. rewrite isRootKey_keyB in H by done.
  rewrite bool_decide_false in H by done. by vm_compute in H.
Qed.

Lemma log_state_rows t L m m' :
  (∀ name, m' !! keyS typ_r t name = m !! keyS typ_r t name) → log_state t L m → log_state t L m'.
Proof. intros E [HL H]. split; [done|]. unfold has_root in *. by rewrite !E. Qed.

Lemma log_state_queue t L m t' v raw :
  log_state t L m → log_state t L (<[keyB typ_l t' v := raw]> m).
Proof.
  apply log_state_rows. intros name. apply lookup_insert_ne. symmetry. by apply keyS_root_keyB.
Qed.

(** Reading the root of such a tree: an I/O error, or the root of the log. *)
Lemma MostRecentRoot_state t L d :
  log_state t L (kv d) →
  match MostRecentRoot t d with
  | (Ok (r, f), _) => f = appendAll Sum256 zeroFrontier L ∧ RootHash r = Some (MTH Sum256 L)
  | (Err ErrTreeNeedsInit, _) => L = []
  | (Err e, _) => e = ErrIO
  | (Panic, _) => False
  end.
Proof.
  destruct d as [m fs]. cbn [kv]. intros [_ H]. unfold has_root in H. unfold MostRecentRoot, db_Get, io, next_fault.
  unfold_M. set (k1 := keyS typ_r t "root") in *. set (k2 := keyS typ_r t "sig") in *.
  set (k3 := keyS typ_r t "frontier") in *. clearbody k1 k2 k3.
  destruct H as [[-> H]|(rr & sg & fr & l & H1 & H2 & H3 & H4 & H5 & H6)].
  - destruct fs as [|[?|] [|[?|] fs]]; cbn; rewrite ?H; done.
  - destruct fs as [|[?|] [|[?|] [|[?|] [|[?|] fs]]]]; cbn; rewrite ?H1; cbn; rewrite ?H2; cbn;
      rewrite ?H3; cbn; rewrite ?H4; cbn; rewrite ?take_app_length, ?H6; cbn; try done.
    all: by rewrite H5.
Qed.

Lemma MostRecentRoot_has_root t L m :
  has_root t L m →
  ∃ r f, MostRecentRoot t (mkDB m []) = (Ok (r, f), mkDB m []) ∧ RootHash r = Some (MTH Sum256 L) ∧
    f = appendAll Sum256 zeroFrontier L.
Proof.
  intros (rr & sg & fr & l & H1 & H2 & H3 & H4 & H5 & H6).
  unfold MostRecentRoot, db_Get, io, next_fault. unfold_M.
  set (k1 := keyS typ_r t "root") in *. set (k2 := keyS typ_r t "sig") in *.
  set (k3 := keyS typ_r t "frontier") in *. clearbody k1 k2 k3.
  cbn; rewrite H1; cbn; rewrite H2; cbn; rewrite H3; cbn; rewrite H4; cbn.
  rewrite !take_app_length, H6. eexists _, _. split; [done|]. split; [|done].
  cbn. by rewrite H5.
Qed.

(** *** Committing a batch *)

Lemma apply_batch_rowOps P m b k :
  P k = true → apply_batch m b !! k = apply_batch m (rowOps P b) !! k.
Proof.
  intros Hk. assert (∀ b m m', m !! k = m' !! k →
    apply_batch m b !! k = apply_batch m' (rowOps P b) !! k) as H; [|by apply H].
  clear b m. induction b as [|o b IH]; intros m m' E; [done|].
  unfold rowOps. rewrite filter_cons. fold (rowOps P b). unfold apply_batch in *. cbn [fold_left].
  case_decide as Eo; cbn [fold_left]; apply IH.
  - destruct o as [k' v|k']; cbn; [rewrite !lookup_insert|rewrite !lookup_delete]; by case_decide.
  - rewrite <-E. destruct o as [k' v|k']; cbn in *;
      [apply lookup_insert_ne|apply lookup_delete_ne]; congruence.
Qed.

(** The frontier's serializer keeps frontiers whose roots are hashes: it does
    not tell an empty byte slice from nil. *)
Definition solid (f : Frontier) : Prop := Forall (.≠ Some []) (Roots f).

Context (Hsum : ∀ b, Sum256 b ≠ []).

Lemma append_loop_solid roots carry :
  Forall (.≠ Some []) roots → carry ≠ Some [] →
  Forall (.≠ Some []) (append_loop Sum256 roots carry).1 ∧
  (append_loop Sum256 roots carry).2 ≠ Some [].
Proof.
  intros H. revert carry. induction H as [|r roots Hr Hs IH]; intros carry Hc; [by split|].
  destruct r as [r|]; cbn [append_loop].
  - destruct (IH (Some (hashDomain Sum256 Byte.x01 [Some r; carry]))) as [H1 H2].
    { intros [= E]. by eapply Hsum. }
    destruct (append_loop _ roots _) as [rest c]. cbn in *. by split; [constructor|].
  - cbn. by split; [constructor|].
Qed.

Lemma Append_solid f h : solid f → h ≠ [] → solid (Append Sum256 f (Some h)).
Proof.
  intros Hf Hh. destruct (append_loop_solid (Roots f) (Some h) Hf) as [H1 H2]; [congruence|].
  unfold Append. destruct (append_loop _ _ _) as [roots [c|]]; cbn in *; [|done].
  unfold solid. cbn. apply Forall_app. by split; [|constructor].
Qed.

Lemma appendAll_solid L f : solid f → Forall (.≠ []) L → solid (appendAll Sum256 f L).
Proof.
  intros Hf HL. revert f Hf. induction HL as [|h L Hh HL IH]; intros f Hf; [done|].
  apply IH. by apply Append_solid.
Qed.
End logs.

(** ** What the storage promises *)

Section promises.
Context (Sum256 : bytes → bytes).
Context `{!Codec LogLeaf, !Codec SubtreeProto, !Codec Frontier, !Codec (list LogLeaf)}.
Context `{!MapRange bytes, !MapRange Z}.

(** [m'] has the rows of [m] but for leaves added to a queue. *)
Definition queue_extends (m m' : kvmap) : Prop :=
  ∀ k, m' !! k = m !! k ∨ is_Some (m' !! k) ∧ ∃ t v, k = keyB typ_l t v.

Lemma queue_extends_refl m : queue_extends m m.
Proof. intros k. by left. Qed.

Lemma queue_extends_insert m0 m t v raw :
  queue_extends m0 m → queue_extends m0 (<[keyB typ_l t v := raw]> m).
Proof.
  intros H k. destruct (decide (keyB typ_l t v = k)) as [<-|Hk].
  - right. rewrite lookup_insert_eq. by eauto.
  - rewrite lookup_insert_ne by done. apply H.
Qed.

(** A property of the rows that queueing keeps. *)
Definition queue_closed (Q : kvmap → Prop) : Prop :=
  ∀ m t v raw, Q m → Q (<[keyB typ_l t v := raw]> m).

Lemma client_rows rootOK leafOK f Q w :
  client Sum256 rootOK leafOK false f → queue_closed Q → Q (kv (local w.1)) → Q (kv (local (f w).2.1)).
Proof.
  intros Hf HQ Hw. specialize (Hf w). induction Hf as [w|w1 w2 w3 Hs _ IH]; [done|].
  by apply IH, (op_step_rows Sum256 Q HQ rootOK leafOK w1).
Qed.

Lemma client_inv f t L w :
  client Sum256 honest hashed false f → tx_inv Sum256 t L w → tx_inv Sum256 t L (f w).2.
Proof.
  intros Hf Hw. specialize (Hf w). induction Hf as [w|w1 w2 w3 Hs _ IH]; [done|].
  apply IH. by apply (op_step_inv Sum256 t L w1).
Qed.

(** A commit that fails writes nothing. *)
Lemma Commit_failed w o w' :
  Commit w = (o, w') → o ≠ Ok () → kv (local w'.1) = kv (local w.1).
Proof.
  unfold Commit. intros H Ho. destruct w as [s tx]. unfold mbind at 1, M_bind at 1 in H.
  unfold onFsm, zoom in H. cbn [fst snd] in H.
  destruct (emit sCommit (tx_fsm tx)) as [[[]|e|] m']; [|by injection H as <- <-..].
  erewrite mbind_step in H by reflexivity. cbn [fst snd queuedLeaves] in H.
  destruct (queuedLeaves tx); [by injection H as <- <-|].
  unfold mbind at 1, M_bind at 1 in H. unfold onCacheTx, zoom in H. cbn [fst snd] in H.
  destruct (Flush _ _ _) as [[[]|e|] [sc ltx]]; cbn [fst snd] in H; [|by injection H as <- <-..].
  unfold mbind, M_bind, onDBTx, zoom in H. cbn [fst snd localTx] in H.
  destruct (Local.Commit (local s, ltx)) as [o1 [d2 ltx2]] eqn:Ec. apply Commit_spec in Ec.
  destruct Ec as [(-> & Hkv & _)|(-> & Hkv & _)]; injection H as <- <-; done.
Qed.

Lemma beginForTree_spec t s o s1 :
  beginForTree t s = (o, s1) →
  kv (local s1) = kv (local s) ∧
  ∀ L, log_state Sum256 t L (kv (local s)) → ∀ ltx, o = Ok ltx → tx_inv Sum256 t L (s1, ltx).
Proof.
  unfold beginForTree. rewrite NewLogSubtreeCache_Ok. erewrite mbind_step by reflexivity.
  intros H. pose proof (stable_MostRecentRoot (λ m, m = kv (local s)) t (local s) eq_refl) as Hkv.
  pose proof (λ L, MostRecentRoot_state Sum256 t L (local s)) as HL.
  unfold mbind, M_bind, try, sysLocal, zoom in H. cbn [fst snd] in H.
  destruct (MostRecentRoot t (local s)) as [[[r f]|e|] d]; cbn [snd] in *.
  - injection H as <- <-. split; [done|]. intros L Hl ltx [= <-]. specialize (HL L Hl) as [-> _].
    split; [done|exists []; by rewrite app_nil_r|]. exists []. split; [by exists []|by left].
  - assert (e = ErrTreeNeedsInit ∨ e ≠ ErrTreeNeedsInit) as [->|He] by (destruct e; naive_solver).
    + injection H as <- <-. split; [done|]. intros L Hl ltx [= <-]. specialize (HL L Hl). subst L.
      split; [done|by exists []|]. exists []. split; [by exists []|by left].
    + destruct e; injection H as <- <-; done.
  - by injection H as <- <-.
Qed.

(** The transaction of a client that does not commit itself is committed at the
    end, or changes at most the queue. *)
Lemma ReadWriteTransaction_cases rootOK leafOK t f s o s' :
  client Sum256 rootOK leafOK false f → ReadWriteTransaction t f s = (o, s') →
  (∀ Q, queue_closed Q → Q (kv (local s)) → Q (kv (local s'))) ∨
  ∃ w w', (∀ Q, queue_closed Q → Q (kv (local s)) → Q (kv (local w.1))) ∧
    Commit w = (o, w') ∧ w'.1 = s'.
Proof.
  intros Hf H. unfold ReadWriteTransaction in H. unfold mbind at 1, M_bind at 1 in H.
  destruct (beginForTree t s) as [o0 s1] eqn:Eb. apply beginForTree_spec in Eb as [Hkv _].
  destruct o0 as [ltx|e|]; [|injection H as <- <-; left; intros Q _; by rewrite Hkv..].
  unfold withTx, runTx in H. unfold mbind at 1, M_bind at 1, try at 1 in H.
  pose proof (λ Q HQ, client_rows rootOK leafOK f Q (s1, ltx) Hf HQ) as Hrows.
  cbn [fst] in Hrows. rewrite Hkv in Hrows.
  destruct (f (s1, ltx)) as [[[]|e|] w]; cbn [snd] in *.
  - right. destruct (Commit w) as [o1 [s2 tx2]] eqn:Ec. injection H as <- <-.
    by exists w, (s2, tx2).
  - left. intros Q HQ HQs. specialize (Hrows Q HQ HQs).
    pose proof (stable_Rollback Q w Hrows) as Hr.
    unfold mbind, M_bind, try in H. destruct (Rollback w) as [[[]|?|] [s2 tx2]];
      by injection H as <- <-.
  - left. destruct w as [s2 tx2]. injection H as <- <-. intros Q HQ. apply Hrows, HQ.
Qed.

(** When it fails, it changes at most the queue. *)
Lemma failed_transaction_rows rootOK leafOK t f s o s' Q :
  client Sum256 rootOK leafOK false f → ReadWriteTransaction t f s = (o, s') → o ≠ Ok () →
  queue_closed Q → Q (kv (local s)) → Q (kv (local s')).
Proof.
  intros Hf H Ho HQ Hs.
  destruct (ReadWriteTransaction_cases rootOK leafOK t f s o s' Hf H) as [HC|(w & w' & HC & Hc & <-)].
  - by apply (HC Q HQ).
  - rewrite (Commit_failed w o w' Hc Ho). by apply (HC Q HQ).
Qed.

(** C23. Failed transactions leave no trace: when [ReadWriteTransaction] fails, for
    whatever reason and whatever operations the function it was given called, on
    whatever roots and leaves, every row of the database is as it was, but for
    leaves that were added to a queue; in particular the leaves that the
    transaction dequeued are available again.  The function leaves the commit
    to [ReadWriteTransaction], as those of the log server and the sequencer do:
    what one commits itself stays when it fails afterwards. *)
Theorem failed_transaction_rolls_back t f s o s' :
  client Sum256 (λ _, True) (λ _, True) false f → ReadWriteTransaction t f s = (o, s') → o ≠ Ok () →
  queue_extends (kv (local s)) (kv (local s')).
Proof.
  intros Hf H Ho. apply (failed_transaction_rows (λ _, True) (λ _, True) t f s o s');
    [done..| |apply queue_extends_refl].
  intros m ????. by apply queue_extends_insert.
Qed.

(** *** Logs only grow *)

Context `{!CodecLaws Frontier}.
Context (Hcanon : ∀ f, solid f → canon f = f).
Context (Hsum : ∀ b, Sum256 b ≠ []).

Lemma keyS_other t t' name name' :
  int64 t → int64 t' → t ≠ t' → keyS typ_r t name ≠ keyS typ_r t' name'.
Proof.
  intros Ht Ht' Hne E. unfold keyS in E.
  apply keyPrefix_inj in E as (_ & E & _); [done|by vm_compute..|done|done].
Qed.

Lemma keyS_name t a b : str a ≠ str b → keyS typ_r t a ≠ keyS typ_r t b.
Proof. intros Hab E. by apply app_inv_head in E. Qed.

(** A batch with a root: its rows, and the log they stand for. *)
Lemma rootPuts_rows t m b r raw :
  rootOps b = rootPuts t r raw →
  apply_batch m b !! keyS typ_r t "root" = Some (sl (LogRoot r)) ∧
  apply_batch m b !! keyS typ_r t "sig" = Some (sl (LogRootSignature r)) ∧
  apply_batch m b !! keyS typ_r t "frontier" = Some raw.
Proof.
  intros E. rewrite !(apply_batch_rowOps isRootKey m b), E by done.
  unfold apply_batch, rootPuts. cbn [fold_left apply_op]. split_and!.
  - rewrite !lookup_insert_ne by (by apply keyS_name). by rewrite lookup_insert_eq.
  - rewrite lookup_insert_ne by (by apply keyS_name). by rewrite lookup_insert_eq.
  - by rewrite lookup_insert_eq.
Qed.

Lemma root_log_state t L m b r raw :
  rootOps b = rootPuts t r raw → marshal (appendAll Sum256 zeroFrontier L) = Ok raw → honest r →
  sl (RootHash r) = sl (Head Sum256 (appendAll Sum256 zeroFrontier L)) → Forall (.≠ []) L →
  has_root Sum256 t L (apply_batch m b).
Proof.
  intros (H1 & H2 & H3)%(rootPuts_rows t m) Hm (l & Hu & Hh) Hroot HL.
  exists (sl (LogRoot r)), (sl (LogRootSignature r)), raw, l. split_and!; try done.
  - rewrite Hh, Hroot. by rewrite (commits_Head Sum256 _ L)
      by apply (appendAll_commits Sum256 _ []), commits_zero.
  - rewrite (unmarshal_marshal _ _ Hm), Hcanon; [done|]. apply appendAll_solid; [done| |done].
    constructor.
Qed.

Lemma commit_log_state t L X m b tx :
  log_state Sum256 t L m → rootReady Sum256 tx (rootOps b) → treeID (rolt tx) = t →
  front (rolt tx) = appendAll Sum256 zeroFrontier (L ++ X) → Forall (.≠ []) X →
  (∃ X', log_state Sum256 t (L ++ X') (apply_batch m b)) ∧
  ∀ t' L', int64 t → int64 t' → t ≠ t' → log_state Sum256 t' L' m →
    log_state Sum256 t' L' (apply_batch m b).
Proof.
  intros Hl Hr Ht Hf HX.
  assert (∀ t name, apply_batch m b !! keyS typ_r t name =
    apply_batch m (rootOps b) !! keyS typ_r t name) as Hb by (intros; by apply apply_batch_rowOps).
  destruct Hr as [E|(_ & r & raw & E & Hm & Hh & Hroot)]; rewrite E in Hb.
  { split; [exists []; rewrite app_nil_r; revert Hl|intros t' L' _ _ _];
      apply log_state_rows; intros; apply Hb. }
  rewrite Ht, Hf in *. split.
  - exists X. assert (Forall (.≠ []) (L ++ X)) by (apply Forall_app; split; [apply Hl|done]).
    split; [done|]. right. by apply (root_log_state t (L ++ X) m b r raw).
  - intros t' L' Hi Hi' Hne. apply log_state_rows. intros name. rewrite Hb.
    unfold apply_batch, rootPuts. cbn [fold_left apply_op]. by rewrite !lookup_insert_ne by (by apply keyS_other).
Qed.

(** What becomes of the rows in a transaction on [t]: they stand for an extension
    of its log, and for the logs of other trees as they were. *)
Definition extended (t : Z) (L : list bytes) (m0 m : kvmap) : Prop :=
  (∃ X, log_state Sum256 t (L ++ X) m) ∧
  ∀ t' L', int64 t → int64 t' → t ≠ t' → log_state Sum256 t' L' m0 → log_state Sum256 t' L' m.

Lemma log_state_closed t L : queue_closed (log_state Sum256 t L).
Proof. intros m ???. apply log_state_queue. Qed.

Lemma extended_closed t L m0 : queue_closed (extended t L m0).
Proof.
  intros m t0 v raw [[X HX] Ho]. split; [exists X; by apply log_state_queue|].
  intros t' L' ????. by apply log_state_queue, Ho.
Qed.

Lemma extended_committed t L X m0 m b tx :
  log_state Sum256 t L m → rootReady Sum256 tx (rootOps b) → treeID (rolt tx) = t →
  front (rolt tx) = appendAll Sum256 zeroFrontier (L ++ X) → Forall (.≠ []) X →
  extended t L m0 m → extended t L m0 (apply_batch m b).
Proof.
  intros Hl Hr Ht Hf HX [_ Ho].
  destruct (commit_log_state t L X m b tx Hl Hr Ht Hf HX) as [H1 H2].
  split; [done|]. intros t' L' ????. apply H2; try done. by apply Ho.
Qed.

(** A transaction is open, and nothing is committed; or it is over. *)
Definition sound (t : Z) (L : list bytes) (m0 : kvmap) (w : System * logTreeTX) : Prop :=
  extended t L m0 (kv (local w.1)) ∧
  (ended w ∨ tx_inv Sum256 t L w ∧ log_state Sum256 t L (kv (local w.1))).

Lemma sound_Commit t L m0 w : sound t L m0 w → sound t L m0 (Commit w).2.
Proof.
  intros [Hx [He|[Hi Hl]]]; [by rewrite ended_Commit; [split; [|left]|]|].
  destruct (Commit_ended w) as [->|He]; [by split; [|right]|]. split; [|by left].
  destruct (Commit w) as [o w'] eqn:Hc. cbn [snd].
  destruct (Commit_effect Sum256 t L w o w' Hi Hc) as [->|(_ & b & tx & -> & Hr & Ht & X & Hf & HX)]; [done|].
  by apply (extended_committed t L X _ _ b tx).
Qed.

Lemma sound_step t L m0 commits w w' :
  op_step Sum256 honest hashed commits w w' → sound t L m0 w → sound t L m0 w'.
Proof.
  intros Hs Hw. destruct (op_step_commits _ _ _ _ _ _ Hs) as [Hn| ->]; [|by apply sound_Commit].
  destruct Hw as [Hx Hw]. split.
  { by apply (op_step_rows Sum256 _ (extended_closed t L m0) honest hashed w). }
  destruct Hw as [He|[Hi Hl]]; [left; by eapply op_step_ended|right].
  split; [by apply (op_step_inv Sum256 t L w)|].
  by apply (op_step_rows Sum256 _ (log_state_closed t L) honest hashed w).
Qed.

Lemma client_sound t L m0 commits f w :
  client Sum256 honest hashed commits f → sound t L m0 w → sound t L m0 (f w).2.
Proof.
  intros Hf Hw. specialize (Hf w). induction Hf as [w|w1 w2 w3 Hs _ IH]; [done|].
  by apply IH, (sound_step t L m0 commits w1).
Qed.

Lemma ReadWriteTransaction_extended commits t f s o s' L :
  client Sum256 honest hashed commits f → log_state Sum256 t L (kv (local s)) →
  ReadWriteTransaction t f s = (o, s') → extended t L (kv (local s)) (kv (local s')).
Proof.
  intros Hf Hl H. unfold ReadWriteTransaction in H. unfold mbind at 1, M_bind at 1 in H.
  assert (extended t L (kv (local s)) (kv (local s))) as H0.
  { split; [|done]. exists []. by rewrite app_nil_r. }
  destruct (beginForTree t s) as [o0 s1] eqn:Eb. apply beginForTree_spec in Eb as [Hkv Hinv].
  destruct o0 as [ltx|e|]; [|injection H as <- <-; by rewrite Hkv..].
  assert (sound t L (kv (local s)) (s1, ltx)) as Hs1.
  { split; cbn [fst]; rewrite Hkv; [done|]. right. by split; [apply Hinv|]. }
  apply (client_sound t L _ commits f) in Hs1; [|done].
  unfold withTx, runTx in H. unfold mbind at 1, M_bind at 1, try at 1 in H.
  destruct (f (s1, ltx)) as [[[]|e|] w]; cbn [snd] in *.
  - apply sound_Commit in Hs1 as [Hx _]. by destruct (Commit w) as [o1 [s2 tx2]]; injection H as <- <-.
  - apply (sound_step t L _ commits _ _ (op_Rollback Sum256 honest hashed commits w)) in Hs1 as [Hx _].
    unfold mbind, M_bind, try in H. by destruct (Rollback w) as [[[]|?|] [s2 tx2]]; injection H as <- <-.
  - destruct w as [s2 tx2]. injection H as <- <-. apply Hs1.
Qed.

(** C1. Logs are append-only: whatever operations the function of a transaction
    calls, in any order, commits included, and whatever other goroutines queue
    meanwhile, the log that the committed root and frontier stand for
    afterwards extends the log they stood for before; a transaction that fails
    leaves the log alone, unless the function committed it itself, and no
    transaction touches the log of another tree.  The root hash is the Merkle
    tree hash of the log.  This is for functions that store roots whose
    serialized form carries their hash, and sequence leaves that have a hash:
    the storage compares the hash with the frontier, and looks at neither. *)
Theorem transaction_append_only commits t f s o s' L :
  client Sum256 honest hashed commits f → log_state Sum256 t L (kv (local s)) →
  ReadWriteTransaction t f s = (o, s') →
  (∃ X, log_state Sum256 t (L ++ X) (kv (local s')) ∧ (o ≠ Ok () → commits = false → X = [])) ∧
  ∀ t' L', int64 t → int64 t' → t ≠ t' → log_state Sum256 t' L' (kv (local s)) →
    log_state Sum256 t' L' (kv (local s')).
Proof.
  intros Hf Hl H. destruct (ReadWriteTransaction_extended commits t f s o s' L Hf Hl H) as [[X HX] Ho].
  split; [|exact Ho]. destruct (decide (o = Ok ())) as [->|Hne]; [by exists X|].
  destruct commits; [by exists X|]. exists []. rewrite app_nil_r. split; [|done].
  by apply (failed_transaction_rows honest hashed t f s o s'); [..|apply log_state_closed|].
Qed.

(** Nothing of the tree [t] differs: its rows, and its objects in the bucket. *)
Definition untouched (t : Z) (s s' : System) : Prop :=
  (∀ typ u, (b2z typ < 128)%Z → kv (local s') !! keyB typ t u = kv (local s) !! keyB typ t u) ∧
  (∀ b, objects (remote s') !! leavesName t b = objects (remote s) !! leavesName t b).

#[global] Instance untouched_preorder t : PreOrder (untouched t).
Proof.
  split; [by split|]. intros s1 s2 s3 [H1 H2] [H3 H4]. split.
  - intros typ u Hb. by rewrite H3, H1.
  - intros b. by rewrite H4, H2.
Qed.

(** *** A sequencing run *)

(** What the sequencer does in a transaction once it knows the leaves, the
    nodes and the root. *)
Definition sequenceTx (limit cutoff : Z) (leaves : list LogLeaf) (nodes : list Node)
    (r : SignedLogRoot) : TxM unit :=
  _ ← DequeueLeaves limit cutoff;
  _ ← UpdateSequencedLeaves Sum256 leaves;
  _ ← SetMerkleNodes Sum256 nodes;
  StoreSignedLogRoot Sum256 r.

(** The parts of the state that decide what is committed. *)
Record seq_state (t : Z) (f : Frontier) (R D I : Batch) (m : kvmap) (rem : Remote)
    (w : System * logTreeTX) : Prop := {
  ss_tree : treeID (rolt w.2) = t;
  ss_front : front (rolt w.2) = f;
  ss_batch : writesRoots R (localTx w.2);
  ss_queue : writes isQueueKey D (localTx w.2);
  ss_index : writes isIndexKey I (localTx w.2);
  ss_own : writes (isForeignKey t) [] (localTx w.2);
  ss_queued : queuedLeaves w.2 = false;
  ss_rows : kv (local w.1) = m;
  ss_remote : remote w.1 = rem
}.

(** The rows of the leaves that a run with these bounds dequeues. *)
Definition dequeues (t : Z) (m : kvmap) (limit cutoff : Z) : list (bytes * bytes) :=
  take (Z.to_nat limit) (queued m t cutoff).

Section seq.
Context {t : Z} {m : kvmap}.

Lemma seq_onFsm {A f R D I rem} w (x : M fsm A) o w' :
  seq_state t f R D I m rem w → onFsm x w = (o, w') → seq_state t f R D I m rem w'.
Proof.
  intros [] H. unfold onFsm, zoom in H. destruct (x (tx_fsm w.2)). injection H as <- <-. by split.
Qed.

Lemma rowOps_dequeues limit cutoff :
  let D : Batch := BDelete <$> (dequeues t m limit cutoff).*1 in
  rowOps isQueueKey D = D ∧ rowOps isRootKey D = [] ∧ rowOps isIndexKey D = [] ∧
  rowOps (isForeignKey t) D = [].
Proof.
  assert (∀ (P : bytes → bool) b, (∀ k v, (k, v) ∈ dequeues t m limit cutoff → P k = b) →
    Forall (λ o, P (op_key o) = b) (BDelete <$> (dequeues t m limit cutoff).*1)) as H.
  { intros P b HP. apply Forall_fmap, Forall_fmap, Forall_forall. intros [k v] Hin. by apply (HP k v). }
  split_and!; [apply rowOps_all|apply rowOps_none..]; apply H; intros k v Hin%subseteq_take;
    by eapply queue_range_key, Hin || eapply queue_range_own, Hin.
Qed.

(** Dequeueing: the leaves of those rows, whose deletion joins the batch. *)
Lemma seq_Dequeue {f R D I rem} w limit cutoff ls w' :
  seq_state t f R D I m rem w → DequeueLeaves limit cutoff w = (Ok ls, w') →
  Forall2 (λ e l, unmarshal e.2 = Ok l) (dequeues t m limit cutoff) ls ∧
  seq_state t f R (D ++ (BDelete <$> (dequeues t m limit cutoff).*1)) I m rem w'.
Proof.
  intros Hw H. unfold DequeueLeaves in H. apply mbind_Ok in H as ([] & w1 & He & H).
  pose proof (seq_onFsm _ _ _ _ Hw He) as [Ht Hf (b & Hb & HR) (b2 & Hb2 & HD) (b3 & Hb3 & HI)
    (b4 & Hb4 & HO) Hq Hk Hr]. clear Hw He w.
  rewrite Hb in Hb2, Hb3, Hb4. injection Hb2 as <-. injection Hb3 as <-. injection Hb4 as <-.
  apply mbind_Ok in H as (? & ? & [= <- <-] & H). unfold onDBTx, zoom in H.
  destruct (localTx w1.2) as [ob] eqn:El. cbn in Hb. subst ob.
  destruct (Local.DequeueLeaves _ _ _ _ _) as [o1 [d ltx]] eqn:Ed. injection H as -> <-.
  apply DequeueLeaves_Ok in Ed as (Hd & Hb' & HF). rewrite Ht, Hk in *.
  fold (dequeues t m limit cutoff) in Hb', HF. split; [done|].
  destruct (rowOps_dequeues limit cutoff) as (E1 & E2 & E3 & E4).
  split; cbn; try done; eexists; (split; [done|]);
    rewrite rowOps_app, ?E1, ?E2, ?E3, ?E4, ?HR, ?HD, ?HI, ?HO, ?app_nil_r; done.
Qed.

Lemma rowOps_indexOps rows :
  rowOps isIndexKey (indexOps t rows) = indexOps t rows ∧
  rowOps isRootKey (indexOps t rows) = [] ∧ rowOps isQueueKey (indexOps t rows) = [] ∧
  rowOps (isForeignKey t) (indexOps t rows) = [].
Proof.
  induction rows as [|r rows (IH1 & IH2 & IH3 & IH4)]; [done|].
  change (indexOps t (r :: rows)) with (indexOps t [r] ++ indexOps t rows).
  rewrite !rowOps_app, IH1, IH2, IH3, IH4. split_and!; try done.
  rewrite app_nil_r. apply rowOps_none. destruct r as [[] ?]; repeat constructor; by apply isForeignKey_own.
Qed.

(** Storing the leaves: the frontier takes their hashes, and the batch the rows
    of the indexes. *)
Lemma seq_Update {f D I rem} w leaves w' :
  seq_state t f [] D I m rem w → UpdateSequencedLeaves Sum256 leaves w = (Ok (), w') →
  ∃ rem', Remote.PutLeaves t leaves rem = (Ok (), rem') ∧
    seq_state t (appendLeaves Sum256 f leaves) [] D (I ++ indexOps t (indexRows leaves)) m rem' w'.
Proof.
  intros Hw H. unfold UpdateSequencedLeaves in H. apply mbind_Ok in H as ([] & w1 & He & H).
  pose proof (seq_onFsm _ _ _ _ Hw He) as [Ht Hf (b & Hb & HR) (b2 & Hb2 & HD) (b3 & Hb3 & HI)
    (b4 & Hb4 & HO) Hq Hk Hr]. clear Hw He w.
  rewrite Hb in Hb2, Hb3, Hb4. injection Hb2 as <-. injection Hb3 as <-. injection Hb4 as <-.
  apply mbind_Ok in H as (? & ? & [= <- <-] & H). cbn zeta in H.
  apply mbind_Ok in H as ([] & w2 & Hp & H). unfold onSystem, sysRemote, zoom in Hp.
  rewrite Ht, Hr in Hp. destruct (Remote.PutLeaves t leaves rem) as [o1 rem'].
  injection Hp as -> <-. exists rem'. split; [done|].
  apply mbind_Ok in H as ([] & w3 & [= <-] & H). unfold onTx, zoom in H. cbn in H.
  destruct (localTx w1.2) as [ob]. cbn in Hb. subst ob. rewrite Ht in H.
  destruct (Local.PutLeaves _ _ _ _ _) as [o2 ltx] eqn:El. injection H as -> <-.
  apply PutLeaves_done in El as ->. destruct (rowOps_indexOps (indexRows leaves)) as (E1 & E2 & E3 & E4).
  split; cbn; try done; [by rewrite Hf|..]; eexists; (split; [done|]);
    rewrite rowOps_app, ?E1, ?E2, ?E3, ?E4, ?HR, ?HD, ?HI, ?HO, ?app_nil_r; done.
Qed.

Lemma seq_SetNodes {f R D I rem} w nodes w' :
  seq_state t f R D I m rem w → SetMerkleNodes Sum256 nodes w = (Ok (), w') →
  seq_state t f R D I m rem w'.
Proof.
  intros Hw H. unfold SetMerkleNodes in H. apply mbind_Ok in H as ([] & w1 & He & H).
  pose proof (seq_onFsm _ _ _ _ Hw He) as Hw1. clear Hw He.
  assert (stable (seq_state t f R D I m rem) (mfold (λ (_ : ()) n, w ← get;
    onRead (onSubtrees (SetNodeHash (populateLogSubtreeNodes Sum256) (nodeID n) (Hash n)
      (rolt_getSubtree (treeID (rolt w.2)) (writeRevision (rolt w.2)))))) () nodes)) as Hst.
  { apply stable_mfold. intros _ n. apply stable_bind; [apply stable_get|]. intros w0 w2 [].
    unfold onRead, onSubtrees, zoom. cbn [fst snd].
    pose proof (stable_SetNodeHash (λ d, kv d = m) (populateLogSubtreeNodes Sum256) (nodeID n) (Hash n)
      (rolt_getSubtree (treeID (rolt w0.2)) (writeRevision (rolt w0.2)))
      (stable_rolt_getSubtree (λ k, k = m) _ _) (subtreeCache (rolt w2.2), local w2.1) ss_rows0) as Hk.
    destruct (SetNodeHash _ _ _ _ _) as [o1 [sc d]]. by split. }
  specialize (Hst w1 Hw1). cbn zeta in H. by rewrite H in Hst.
Qed.

Lemma seq_StoreRoot {f D I rem} w r w' :
  seq_state t f [] D I m rem w → StoreSignedLogRoot Sum256 r w = (Ok (), w') →
  ∃ raw, marshal f = Ok raw ∧ sl (RootHash r) = sl (Head Sum256 f) ∧
    seq_state t f (rootPuts t r raw) D I m rem w'.
Proof.
  intros Hw H. unfold StoreSignedLogRoot in H. apply mbind_Ok in H as ([] & w1 & He & H).
  pose proof (seq_onFsm _ _ _ _ Hw He) as [Ht Hf Hb HD HI HO Hq Hk Hr]. clear Hw He w.
  apply mbind_Ok in H as (? & ? & [= <- <-] & H). unfold bytes_Equal in H.
  case_bool_decide as Eh; [|done]. cbn [negb] in H. rewrite Ht, Hf in *.
  unfold onTx, zoom in H. pose proof (StoreRoot_roots t r f (localTx w1.2) Hb) as Hs.
  pose proof (StoreRoot_other isQueueKey D t r f (localTx w1.2) (λ _, eq_refl) HD) as HD'.
  pose proof (StoreRoot_other isIndexKey I t r f (localTx w1.2) (λ _, eq_refl) HI) as HI'.
  pose proof (StoreRoot_other (isForeignKey t) [] t r f (localTx w1.2) (isForeignKey_root t) HO) as HO'.
  destruct (StoreRoot t r f (localTx w1.2)) as [o1 ltx]. injection H as -> <-.
  destruct Hs as (raw & Hm & HR). exists raw. by split_and!.
Qed.

Lemma seq_Commit {f R D I rem} w w' :
  seq_state t f R D I m rem w → Commit w = (Ok (), w') →
  remote w'.1 = rem ∧
  ∃ b, kv (local w'.1) = apply_batch m b ∧ rootOps b = R ∧ rowOps isQueueKey b = D ∧ rowOps isIndexKey b = I ∧
    rowOps (isForeignKey t) b = [].
Proof.
  intros Hw H. unfold Commit in H. apply mbind_Ok in H as ([] & w1 & He & H).
  pose proof (seq_onFsm _ _ _ _ Hw He) as [Ht Hf Hb HD HI HO Hq Hk Hr]. clear Hw He w.
  apply mbind_Ok in H as (? & ? & [= <- <-] & H). rewrite Hq in H.
  apply mbind_Ok in H as ([] & w2 & Hfl & H). unfold onCacheTx, zoom in Hfl.
  pose proof (λ P R, stable_Flush (writes P R) prepareLogSubtreeWrite (storeSubtrees (rolt w1.2))) as Hst.
  pose proof (Hst isRootKey R (stable_storeSubtrees _ R) (subtreeCache (rolt w1.2), localTx w1.2) Hb) as Hb'.
  pose proof (Hst isQueueKey D (stable_storeSubtrees _ D) (subtreeCache (rolt w1.2), localTx w1.2) HD) as HD'.
  pose proof (Hst isIndexKey I (stable_storeSubtrees _ I) (subtreeCache (rolt w1.2), localTx w1.2) HI) as HI'.
  assert (writes (isForeignKey t) [] (Flush prepareLogSubtreeWrite (storeSubtrees (rolt w1.2))
    (subtreeCache (rolt w1.2), localTx w1.2)).2.2) as HO'.
  { assert (SkipsSubtrees (treeID (rolt w1.2)) (isForeignKey t)) by (rewrite Ht; apply _).
    by apply (Hst (isForeignKey t) [] (stable_storeSubtrees _ [])). }
  destruct (Flush _ _ _) as [o1 [sc ltx]]. injection Hfl as -> <-. cbn [snd] in *.
  apply mbind_Ok in H as ([] & w3 & Hc & [= <-]). unfold onDBTx, zoom in Hc. cbn in Hc.
  destruct (Local.Commit (local w1.1, ltx)) as [o2 [d2 ltx2]] eqn:Ec. injection Hc as -> <-.
  apply Commit_spec in Ec as [(_ & Hkv & _)|(? & _)]; [|done]. cbn in *. split; [done|].
  destruct Hb' as (b & Hb' & <-), HD' as (b2 & Hb2 & <-), HI' as (b3 & Hb3 & <-), HO' as (b4 & Hb4 & HO').
  rewrite Hb' in Hb2, Hb3, Hb4. injection Hb2 as <-. injection Hb3 as <-. injection Hb4 as <-.
  exists b. split; [|done]. by rewrite Hkv, Hb', Hk.
Qed.
End seq.

Lemma beginForTree_seq t L s ltx s1 :
  log_state Sum256 t L (kv (local s)) → beginForTree t s = (Ok ltx, s1) →
  seq_state t (appendAll Sum256 zeroFrontier L) [] [] [] (kv (local s)) (remote s) (s1, ltx).
Proof.
  intros Hl. unfold beginForTree. rewrite NewLogSubtreeCache_Ok. erewrite mbind_step by reflexivity.
  intros H. pose proof (stable_MostRecentRoot (λ m, m = kv (local s)) t (local s) eq_refl) as Hkv.
  pose proof (MostRecentRoot_state Sum256 t L (local s) Hl) as HL.
  unfold mbind, M_bind, try, sysLocal, zoom in H. cbn [fst snd] in H.
  destruct (MostRecentRoot t (local s)) as [[[r f]|e|] d]; cbn [snd] in *; [| |done].
  - injection H as <- <-. destruct HL as [-> _]. split; cbn; try done; by exists [].
  - destruct e; simplify_eq; injection H as <- <-. split; cbn; try done; by exists [].
Qed.

Lemma ReadWriteTransaction_Ok t f s s' :
  ReadWriteTransaction t f s = (Ok (), s') →
  ∃ ltx s1 w w', beginForTree t s = (Ok ltx, s1) ∧ f (s1, ltx) = (Ok (), w) ∧
    Commit w = (Ok (), w') ∧ w'.1 = s'.
Proof.
  intros H. unfold ReadWriteTransaction in H. apply mbind_Ok in H as (ltx & s1 & Hb & H).
  exists ltx, s1. unfold withTx, runTx in H. unfold mbind at 1, M_bind at 1, try at 1 in H.
  destruct (f (s1, ltx)) as [[[]|e|] w].
  - destruct (Commit w) as [o [s2 tx2]] eqn:Ec. injection H as -> <-. by exists w, (s2, tx2).
  - unfold mbind, M_bind, try in H. by destruct (Rollback w) as [[] []].
  - by destruct w.
Qed.

Lemma appendLeaves_appendAll f leaves hs :
  MerkleLeafHash <$> leaves = Some <$> hs → appendLeaves Sum256 f leaves = appendAll Sum256 f hs.
Proof.
  revert f hs. induction leaves as [|l leaves IH]; intros f [|h hs] E; try done.
  rewrite !fmap_cons in E. injection E as E1 E2. unfold appendLeaves, appendAll in *.
  cbn [fold_left]. rewrite E1. by apply IH.
Qed.

(** A sequencing run that succeeds publishes exactly its leaves: the log of the
    tree is extended by their hashes, in order, the most recent root carries
    the Merkle tree hash of the new log, and the bucket holds the new leaves
    behind those it held before. *)
Theorem sequencing_publishes `{!JSONLaws, !MapRangeLaws Z} t L hs log leaves limit cutoff nodes r s s' :
  log_state Sum256 t L (kv (local s)) →
  MerkleLeafHash <$> leaves = Some <$> hs → Forall (.≠ []) hs → honest r →
  int64 t → Forall benign (netFaults (remote s)) → wf_remote t (remote s) →
  covers (remote s) t log → contig (Z.of_nat (length log)) leaves →
  (Z.of_nat (length log) + Z.of_nat (length leaves) < 2 ^ 63)%Z →
  ReadWriteTransaction t (sequenceTx limit cutoff leaves nodes r) s = (Ok (), s') →
  log_state Sum256 t (L ++ hs) (kv (local s')) ∧
  (∃ root front, fst (MostRecentRoot t (mkDB (kv (local s')) [])) = Ok (root, front) ∧
     RootHash root = Some (MTH Sum256 (L ++ hs)) ∧
     front = appendAll Sum256 zeroFrontier (L ++ hs)) ∧
  covers (remote s') t (log ++ leaves).
Proof.
  intros Hl Hhs Hne Hr Hi Hben Hwr Hcov Hcon Hlen Hrun.
  apply ReadWriteTransaction_Ok in Hrun as (ltx & s1 & w & w' & Hb & Hf & Hc & <-).
  pose proof (beginForTree_seq t L s ltx s1 Hl Hb) as H0. unfold sequenceTx in Hf.
  apply mbind_Ok in Hf as (dl & w1 & H1 & Hf). apply (seq_Dequeue _ _ _ _ _ H0) in H1 as [_ H1].
  apply mbind_Ok in Hf as ([] & w2 & H2 & Hf).
  apply (seq_Update _ _ _ H1) in H2 as (rem' & Hput & H2).
  apply mbind_Ok in Hf as ([] & w3 & H3 & Hf). apply (seq_SetNodes _ _ _ H2) in H3.
  apply (seq_StoreRoot _ _ _ H3) in Hf as (raw & Hm & Hroot & H4).
  apply (seq_Commit _ _ H4) in Hc as [Hrem (b & Hkv & HR & _)].
  rewrite (appendLeaves_appendAll _ _ hs Hhs) in *. unfold appendAll in Hm, Hroot.
  rewrite <-fold_left_app in Hm, Hroot. fold (appendAll Sum256 zeroFrontier (L ++ hs)) in *.
  assert (Forall (.≠ []) (L ++ hs)) as HL by (apply Forall_app; split; [apply Hl|done]).
  assert (has_root Sum256 t (L ++ hs) (kv (local w'.1))) as Hfin.
  { rewrite Hkv. by apply (root_log_state t (L ++ hs) _ b r raw). }
  split; [split; [done|by right]|]. split; [destruct (MostRecentRoot_has_root Sum256 _ _ _ Hfin) as (r' & f' & -> & ? & ?); by exists r', f'|].
  destruct (PutLeaves_log t log leaves (remote s)) as (o & r' & Hp & _ & _ & _ & Hok & _);
    try done. rewrite Hput in Hp. injection Hp as <- <-. rewrite Hrem. by apply Hok.
Qed.
End promises.

(** ** Witnesses *)

Section witnesses.
#[local] Existing Instance leafCodec.
#[local] Existing Instance subtreeCodec.
#[local] Existing Instance frontierCodec.
#[local] Existing Instance jsonCodec.
#[local] Existing Instance mapRange.
#[local] Existing Instance listRange.

Lemma toySum_ne b : toySum b ≠ [].
Proof. done. Qed.

(** A root over a given hash, in its serialized form as well. *)
Definition rootOver (h : bytes) (size rev : Z) : SignedLogRoot :=
  let raw := match LogRootV1.MarshalBinary (LogRootV1.mk size h 1 rev []) with
             | Ok b => b | _ => [] end in
  mkSignedLogRoot 1 (Some h) size rev None (Some raw) (Some [Byte.x09]).

Definition emptySystem : System := mkSystem (mkDB ∅ []) (mkRemote ∅ []) (New hour 10).

Lemma emptySystem_state : log_state toySum 1 [] (kv (local emptySystem)).
Proof. split; [constructor|]. left. split; [done|]. apply lookup_empty. Qed.

(** A client that stores the first root of a log, and one that fails. *)
Definition initTx : TxM unit := StoreSignedLogRoot toySum (rootOver (toySum []) 0 1).

Lemma initTx_client : client toySum honest hashed false initTx.
Proof.
  intros w. apply rtc_once, op_StoreSignedLogRoot.
  eexists. split; [vm_compute; reflexivity|reflexivity].
Qed.

(** One that commits it itself, and then fails. *)
Definition committingTx : TxM unit := _ ← initTx; _ ← Commit; fail ErrIO.

Lemma committingTx_client : client toySum honest hashed true committingTx.
Proof.
  intros w. unfold committingTx, mbind, M_bind.
  assert (op_step toySum honest hashed true w (initTx w).2) as H1.
  { apply op_StoreSignedLogRoot. eexists. split; [vm_compute; reflexivity|reflexivity]. }
  destruct (initTx w) as [[[]|e|] w1]; cbn in *; [|by apply rtc_once..].
  pose proof (op_Commit toySum honest hashed true w1 eq_refl) as H2.
  destruct (Commit w1) as [[[]|e|] w2]; cbn in *; by eapply rtc_l, rtc_once.
Qed.

Definition failTx : TxM unit := _ ← DequeueLeaves 10 100; fail ErrIO.

Lemma failTx_client : client toySum (λ _, True) (λ _, True) false failTx.
Proof.
  intros w. unfold failTx, mbind, M_bind.
  pose proof (op_DequeueLeaves toySum (λ _, True) (λ _, True) false 10 100 w) as Hs.
  destruct (DequeueLeaves 10 100 w) as [[] w']; cbn in *; by apply rtc_once.
Qed.

Definition queuedSystem : System := mkSystem (mkDB queueOnly []) (mkRemote ∅ []) (New hour 10).

Lemma failed_transaction_rolls_back_witness :
  fst (ReadWriteTransaction 1 failTx queuedSystem) = Err ErrIO ∧
  queue_extends queueOnly (kv (local (ReadWriteTransaction 1 failTx queuedSystem).2)).
Proof.
  assert (fst (ReadWriteTransaction 1 failTx queuedSystem) = Err ErrIO) as E
    by (vm_compute; reflexivity).
  split; [exact E|].
  apply (failed_transaction_rolls_back toySum 1 failTx queuedSystem
    (fst (ReadWriteTransaction 1 failTx queuedSystem))).
  - apply failTx_client.
  - apply surjective_pairing.
  - rewrite E. discriminate.
Defined.

Lemma transaction_append_only_witness :
  (fst (ReadWriteTransaction 1 initTx emptySystem) = Ok () ∧
   ∃ X, log_state toySum 1 ([] ++ X) (kv (local (ReadWriteTransaction 1 initTx emptySystem).2))) ∧
  (fst (ReadWriteTransaction 1 committingTx emptySystem) = Err ErrIO ∧
   ∃ X, log_state toySum 1 ([] ++ X) (kv (local (ReadWriteTransaction 1 committingTx emptySystem).2))).
Proof.
  split; (split; [vm_compute; reflexivity|]).
  - destruct (transaction_append_only toySum (CodecLaws0 := countableCodec_laws Frontier)
      (λ f _, eq_refl) toySum_ne false 1 initTx emptySystem _ _ [] initTx_client
      emptySystem_state (surjective_pairing _)) as [(X & H & _) _].
    exists X. exact H.
  - destruct (transaction_append_only toySum (CodecLaws0 := countableCodec_laws Frontier)
      (λ f _, eq_refl) toySum_ne true 1 committingTx emptySystem _ _ [] committingTx_client
      emptySystem_state (surjective_pairing _)) as [(X & H & _) _].
    exists X. exact H.
Defined.

(** A run that sequences one leaf of an empty log. *)
Definition firstRun : TxM unit :=
  sequenceTx toySum 10 100 [sampleLeaf 0] [mkNode (coordsID 0 0) (Some [Byte.x00])]
    (rootOver [Byte.x00] 1 1).

Lemma sequencing_publishes_witness :
  fst (ReadWriteTransaction 1 firstRun emptySystem) = Ok () ∧
  log_state toySum 1 ([] ++ [[Byte.x00]]) (kv (local (ReadWriteTransaction 1 firstRun emptySystem).2)) ∧
  covers (remote (ReadWriteTransaction 1 firstRun emptySystem).2) 1 ([] ++ [sampleLeaf 0]).
Proof.
  assert (fst (ReadWriteTransaction 1 firstRun emptySystem) = Ok ()) as E
    by (vm_compute; reflexivity).
  split; [exact E|].
  destruct (sequencing_publishes toySum (CodecLaws0 := countableCodec_laws Frontier)
    (λ f _, eq_refl) toySum_ne (H := jsonCodec_laws) (MapRangeLaws0 := mapRange_laws)
    1 [] [[Byte.x00]] [] [sampleLeaf 0] 10 100 [mkNode (coordsID 0 0) (Some [Byte.x00])]
    (rootOver [Byte.x00] 1 1) emptySystem (snd (ReadWriteTransaction 1 firstRun emptySystem)))
    as (H1 & _ & H2).
  - apply emptySystem_state.
  - reflexivity.
  - repeat constructor. discriminate.
  - eexists. split; [vm_compute; reflexivity|reflexivity].
  - unfold int64. lia.
  - constructor.
  - intros b raw _ H. cbn in H. by rewrite lookup_empty in H.
  - intros i l H. by rewrite lookup_nil in H.
  - clear. intros [|k] l H; simplify_eq/=. lia.
  - clear. simpl. lia.
  - apply injective_projections; [exact E|reflexivity].
  - split; [exact H1|exact H2].
Defined.
End witnesses.
