(* ===== verification/Rpc.v ===== *)
(** * Remote procedure calls without a network (src/cmd/server/client.go)

    The web server calls the log server through [trillianLogClient], which has
    a method per call of the log's API, made from one template: it hands the
    request to an interceptor, which may refuse it or run the handler, and
    checks the dynamic types of what comes back.  The interceptor is Trillian's
    (src/vendor/github.com/google/trillian/server/interceptor): it looks the
    tree up (trees/trees.go), charges the quota manager for the request, and
    gives tokens back in a goroutine when leaves were not queued. *)

From S2P Require Import Prelude Keys Trillian Frontier LevelDB Local Remote Cache Compact.
From S2P Require Import Nodes SubtreeCache Config Quota ReadTx TreeTx LogStorage.

(** ** Messages *)

(** The calls of the log's API, in the order of the generator's list. *)
Inductive method :=
  | mQueueLeaf | mAddSequencedLeaf | mGetInclusionProof | mGetInclusionProofByHash
  | mGetConsistencyProof | mGetLatestSignedLogRoot | mGetSequencedLeafCount
  | mGetEntryAndProof | mInitLog | mQueueLeaves | mAddSequencedLeaves
  | mGetLeavesByIndex | mGetLeavesByRange | mGetLeavesByHash.

#[global] Instance method_eq_dec : EqDecision method.
Proof. solve_decision. Defined.

(** [queries] of the generator. *)
Definition queries : list (method * string) := [
  (mQueueLeaf, "QueueLeaf"); (mAddSequencedLeaf, "AddSequencedLeaf");
  (mGetInclusionProof, "GetInclusionProof");
  (mGetInclusionProofByHash, "GetInclusionProofByHash");
  (mGetConsistencyProof, "GetConsistencyProof");
  (mGetLatestSignedLogRoot, "GetLatestSignedLogRoot");
  (mGetSequencedLeafCount, "GetSequencedLeafCount");
  (mGetEntryAndProof, "GetEntryAndProof"); (mInitLog, "InitLog");
  (mQueueLeaves, "QueueLeaves"); (mAddSequencedLeaves, "AddSequencedLeaves");
  (mGetLeavesByIndex, "GetLeavesByIndex"); (mGetLeavesByRange, "GetLeavesByRange");
  (mGetLeavesByHash, "GetLeavesByHash")]%string.

Definition name (m : method) : string :=
  from_option (λ p : nat * (method * string), p.2.2) ""%string
    (list_find (λ p : method * string, p.1 = m) queries).

Record LeafIndexBody := mkLeafIndexBody { lib_LeafIndex : Z; lib_TreeSize : Z }.
Record ByHashBody := mkByHashBody {
  bhb_LeafHash : slice; bhb_TreeSize : Z; bhb_OrderBySequence : bool }.
Record ConsistencyBody := mkConsistencyBody { cb_FirstTreeSize : Z; cb_SecondTreeSize : Z }.
Record RangeBody := mkRangeBody { rb_StartIndex : Z; rb_Count : Z }.
Record HashesBody := mkHashesBody { hb_LeafHash : list slice; hb_OrderBySequence : bool }.

(** The fields of a request besides the log's id and who is charged; pointers
    to leaves may be nil. *)
Definition Body (m : method) : Type :=
  match m with
  | mQueueLeaf | mAddSequencedLeaf => option LogLeaf
  | mQueueLeaves | mAddSequencedLeaves => list (option LogLeaf)
  | mGetInclusionProof | mGetEntryAndProof => LeafIndexBody
  | mGetInclusionProofByHash => ByHashBody
  | mGetConsistencyProof => ConsistencyBody
  | mGetLatestSignedLogRoot | mGetSequencedLeafCount | mInitLog => unit
  | mGetLeavesByIndex => list Z
  | mGetLeavesByRange => RangeBody
  | mGetLeavesByHash => HashesBody
  end.

(** [ChargeTo] is the list of users of the message of that name. *)
Record Req (m : method) := mkReq { LogId : Z; ChargeTo : list string; body : Body m }.
Arguments mkReq m LogId ChargeTo body : rename.
Arguments LogId {m} r : rename.
Arguments ChargeTo {m} r : rename.
Arguments body {m} r : rename.

Record Proof_ := mkProof { proof_LeafIndex : Z; Hashes : list slice }.
Record LeavesAnswer := mkLeavesAnswer { ans_Leaves : list LogLeaf; ans_Root : SignedLogRoot }.
Record EntryAnswer := mkEntryAnswer {
  ent_Proof : option Proof_; ent_Leaf : option LogLeaf; ent_Root : SignedLogRoot }.

Definition Resp (m : method) : Type :=
  match m with
  | mQueueLeaf | mAddSequencedLeaf => QueuedLogLeaf
  | mQueueLeaves | mAddSequencedLeaves => list QueuedLogLeaf
  | mGetInclusionProof | mGetConsistencyProof => option Proof_ * SignedLogRoot
  | mGetInclusionProofByHash => list Proof_ * SignedLogRoot
  | mGetLatestSignedLogRoot => SignedLogRoot
  | mGetSequencedLeafCount => Z
  | mGetEntryAndProof => EntryAnswer
  | mInitLog => option SignedLogRoot
  | mGetLeavesByIndex | mGetLeavesByRange | mGetLeavesByHash => LeavesAnswer
  end.

(** [interface{}]: nil, or a pointer to a message with its dynamic type. *)
Inductive any :=
  | anyNil
  | anyReq (m : method) (r : Req m)
  | anyResp (m : method) (r : Resp m).

(** The type assertions [temp.( *trillian.XRequest)] and [.( *trillian.XResponse)]. *)
Definition asReq (m : method) (a : any) : option (Req m) :=
  match a with
  | anyReq m' r =>
      match decide (m' = m) with left e => Some (eq_rect m' Req r m e) | right _ => None end
  | _ => None
  end.

Definition asResp (m : method) (a : any) : option (Resp m) :=
  match a with
  | anyResp m' r =>
      match decide (m' = m) with left e => Some (eq_rect m' Resp r m e) | right _ => None end
  | _ => None
  end.

(** ** The state of the server

    The storage, the quota manager, and the goroutines of the interceptor that
    have been started and have not run. *)
Record World := mkWorld {
  system : System;
  quota : QuotaManager;
  spawned : list (Z * list Spec)
}.

Definition onSys {A} (m : M System A) : M World A :=
  zoom system (λ s w, mkWorld s (quota w) (spawned w)) m.
Definition onQuota {A} (m : M QuotaManager A) : M World A :=
  zoom quota (λ q w, mkWorld (system w) q (spawned w)) m.

(** A [context.Context]: the tree it carries, and what [ctx.Err()] answers at
    the two places where the interceptor asks. *)
Record Context := mkContext {
  ctxTree : option Config.Tree;
  errAfterTree : option error;
  errAfterTokens : option error
}.

Definition Background : Context := mkContext None None None.
Definition NewContext (ctx : Context) (tree : Config.Tree) : Context :=
  mkContext (Some tree) (errAfterTree ctx) (errAfterTokens ctx).

Abbreviation Handler := (Context → any → M World any).
Abbreviation Interceptor := (Context → any → string → Handler → M World any).
Abbreviation Server := (∀ m, Context → Req m → M World (Resp m)).

(** ** The adapter *)

Record trillianLogClient := mkClient { interceptor : Interceptor; server : Server }.

Definition err_request (m : method) : error :=
  Errorf ("expected request of type *trillian." +:+ name m +:+ "Request, got %T").
Definition err_response (m : method) : error :=
  Errorf ("expected response of type *trillian." +:+ name m +:+ "Response, got %T").
Definition FullMethod (m : method) : string := "/trillian.TrillianLog/" +:+ name m.

(** The closure that each method makes. *)
Definition handler (tlc : trillianLogClient) (m : method) : Handler := λ ctx temp,
  match asReq m temp with
  | None => fail (err_request m)
  | Some req => resp ← server tlc m ctx req; mret (anyResp m resp)
  end.

(** The body of the generator's template.  Each of the fourteen methods of
    client.go is this text with the method's name put in, so they are one
    definition here, over the types that [Req] and [Resp] give the name. *)
Definition call (tlc : trillianLogClient) (m : method) (ctx : Context) (req : Req m)
    : M World (Resp m) :=
  temp ← interceptor tlc ctx (anyReq m req) (FullMethod m) (handler tlc m);
  match asResp m temp with
  | None => fail (err_response m)
  | Some resp => mret resp
  end.

Module Client.
Definition QueueLeaf tlc := call tlc mQueueLeaf.
Definition AddSequencedLeaf tlc := call tlc mAddSequencedLeaf.
Definition GetInclusionProof tlc := call tlc mGetInclusionProof.
Definition GetInclusionProofByHash tlc := call tlc mGetInclusionProofByHash.
Definition GetConsistencyProof tlc := call tlc mGetConsistencyProof.
Definition GetLatestSignedLogRoot tlc := call tlc mGetLatestSignedLogRoot.
Definition GetSequencedLeafCount tlc := call tlc mGetSequencedLeafCount.
Definition GetEntryAndProof tlc := call tlc mGetEntryAndProof.
Definition InitLog tlc := call tlc mInitLog.
Definition QueueLeaves tlc := call tlc mQueueLeaves.
Definition AddSequencedLeaves tlc := call tlc mAddSequencedLeaves.
Definition GetLeavesByIndex tlc := call tlc mGetLeavesByIndex.
Definition GetLeavesByRange tlc := call tlc mGetLeavesByRange.
Definition GetLeavesByHash tlc := call tlc mGetLeavesByHash.
End Client.

(** ** Looking trees up *)

Inductive OpType := Unknown | Admin | Query | QueueLog | SequenceLog | UpdateMap.
#[global] Instance OpType_eq_dec : EqDecision OpType.
Proof. solve_decision. Defined.
#[global] Instance TreeType_eq_dec : EqDecision TreeType.
Proof. solve_decision. Defined.

Record GetOpts := mkGetOpts { TreeTypes : list TreeType; Operation : OpType }.

(** [rules]: the states and types that an operation accepts. *)
Definition okStates (op : OpType) : list TreeState :=
  match op with
  | Unknown => []
  | Admin | Query => [UNKNOWN_TREE_STATE; ACTIVE; DRAINING; FROZEN]
  | QueueLog | UpdateMap => [ACTIVE]
  | SequenceLog => [ACTIVE; DRAINING]
  end.
Definition okTypes (op : OpType) : list TreeType :=
  match op with
  | Unknown => []
  | Admin | Query => [LOG; MAP; PREORDERED_LOG]
  | QueueLog | SequenceLog => [LOG; PREORDERED_LOG]
  | UpdateMap => [MAP]
  end.

Definition err_tree_type : error :=
  Errorf "operation not allowed for %s-type trees (wanted one of %v)".
Definition err_tree_op : error :=
  Errorf "operation: %v not allowed for tree type: %v state: %v".

(** [validate]; the codes of the two errors are left out. *)
Definition validate (o : GetOpts) (tree : Config.Tree) : outcome unit :=
  if (0 <? length (TreeTypes o))%nat && negb (bool_decide (tree_TreeType tree ∈ TreeTypes o))
  then Err err_tree_type
  else if negb (bool_decide (tree_TreeType tree ∈ okTypes (Operation o))) ||
          negb (bool_decide (tree_TreeState tree ∈ okStates (Operation o)))
  then Err err_tree_op
  else Ok ().

(** [storage.GetTree]: a read-only transaction of the admin storage. *)
Definition storage_GetTree (admin : adminStorage) (treeID : Z) : outcome Config.Tree :=
  tx ← Config.Snapshot admin;
  GetTree tx treeID.

(** [trees.GetTree]: the tree of the context if it is the one asked for.  The
    trees of this admin storage are never marked deleted. *)
Definition trees_GetTree (ctx : Context) (admin : adminStorage) (treeID : Z) (o : GetOpts)
    : outcome Config.Tree :=
  tree ← match ctxTree ctx with
         | Some tree =>
             if (TreeId tree =? treeID)%Z then Ok tree else storage_GetTree admin treeID
         | None => storage_GetTree admin treeID
         end;
  _ ← validate o tree;
  Ok tree.

(** ** The interceptors *)

Definition wordChar (c : Ascii.ascii) : bool :=
  let n := Ascii.nat_of_ascii c in
  ((48 <=? n) && (n <=? 57) || (65 <=? n) && (n <=? 90) || (n =? 95) || (97 <=? n) && (n <=? 122))%nat.
Definition dot : Ascii.ascii := Ascii.ascii_of_nat 46.
Definition slash : Ascii.ascii := Ascii.ascii_of_nat 47.

(** What stands before and behind the first [c]. *)
Fixpoint cut (c : Ascii.ascii) (s : list Ascii.ascii)
    : option (list Ascii.ascii * list Ascii.ascii) :=
  match s with
  | [] => None
  | x :: s' => if bool_decide (x = c) then Some ([], s') else
      '(a, b) ← cut c s'; Some (x :: a, b)
  end.

(** A non-empty run of characters, as [+] in the regular expressions. *)
Definition run (f : Ascii.ascii → bool) (s : list Ascii.ascii) : bool :=
  negb (length s =? 0)%nat && forallb f s.

(** [^/([\w.]+)/(\w+)$], then [^/(\w+)\.(\w+)$]: the character between the two
    groups is in neither. *)
Definition serviceName (fullMethod : string) : string :=
  match String.list_ascii_of_string fullMethod with
  | c :: rest =>
      if bool_decide (c = slash) then
        match cut slash rest, cut dot rest with
        | Some (a, b), _ =>
            if run (λ c, wordChar c || bool_decide (c = dot)) a && run wordChar b
            then String.string_of_list_ascii a else ""%string
        | None, Some (a, b) =>
            if run wordChar a && run wordChar b then String.string_of_list_ascii a else ""%string
        | None, None => ""%string
        end
      else ""%string
  | [] => ""%string
  end.

Definition enabledServices (s : string) : bool :=
  bool_decide (s ∈ ["trillian.TrillianLog"; "trillian.TrillianMap"; "trillian.TrillianAdmin";
                    "TrillianLog"; "TrillianMap"; "TrillianAdmin"]%string).

(** [rpcInfo], without the string of users that labels a metric. *)
Record rpcInfo := mkInfo {
  getTree : bool;
  readonly : bool;
  infoTreeID : Z;
  treeTypes : list TreeType;
  specs : list Spec;
  tokens : Z
}.

Definition err_unmapped : error := Errorf "newRPCInfo: unmapped request type: %T".

(** Whether a call only reads, the trees it is for, and what it costs. *)
Definition isReadonly (m : method) : bool :=
  match m with
  | mQueueLeaf | mQueueLeaves | mAddSequencedLeaf | mAddSequencedLeaves | mInitLog => false
  | _ => true
  end.

Definition typesOf (m : method) : list TreeType :=
  match m with
  | mQueueLeaf | mQueueLeaves => [LOG]
  | mAddSequencedLeaf | mAddSequencedLeaves => [PREORDERED_LOG]
  | _ => [LOG; PREORDERED_LOG]
  end.

Definition tokensOf (m : method) : Body m → Z :=
  match m with
  | mQueueLeaf | mAddSequencedLeaf => λ _, 1
  | mQueueLeaves | mAddSequencedLeaves => λ b, Z.of_nat (length b)
  | mGetInclusionProof | mGetEntryAndProof => λ _, 1
  | mGetInclusionProofByHash => λ _, 1
  | mGetConsistencyProof => λ _, 1
  | mGetLatestSignedLogRoot | mInitLog => λ _, 1
  | mGetSequencedLeafCount => λ _, 0
  | mGetLeavesByIndex => λ b, Z.of_nat (length b)
  | mGetLeavesByRange => λ b, if 1 <? rb_Count b then rb_Count b else 1
  | mGetLeavesByHash => λ b, Z.of_nat (length (hb_LeafHash b))
  end%Z.

Definition newRPCInfoForRequest (req : any) : outcome rpcInfo :=
  match req with
  | anyReq m r => Ok (mkInfo true (isReadonly m) 0 (typesOf m) [] (tokensOf m (body r)))
  | _ => Err err_unmapped
  end.

(** The specs of a call: the users it is charged to, its tree, and all. *)
Definition specsOf (k : Kind) (users : list string) (treeID : Z) : list Spec :=
  ((λ user, mkSpec User k 0 user) <$> users) ++
  [mkSpec Tree k treeID ""; mkSpec Global k 0 ""].

Definition newRPCInfo (req : any) : outcome rpcInfo :=
  info ← newRPCInfoForRequest req;
  match req with
  | anyReq m r =>
      let id := if getTree info || (0 <? tokens info)%Z then LogId r else 0%Z in
      let k := if readonly info then Read else Write in
      mret (mkInfo (getTree info) (readonly info) id (treeTypes info)
        (if (0 <? tokens info)%Z then specsOf k (ChargeTo r) id else []) (tokens info))
  | _ => mret info
  end.

Definition err_exhausted (e : error) : error := Wrapf "quota exhausted: %v" e.

(** [trillianProcessor] holds the info that [Before] leaves for [After]. *)
Record TrillianInterceptor := mkInterceptor { admin : adminStorage; quotaDryRun : bool }.

Definition Before (i : TrillianInterceptor) (ctx : Context) (req : any) (method : string)
    : M World (Context * option rpcInfo) :=
  if negb (enabledServices (serviceName method)) then mret (ctx, None)
  else
    info ← lift (newRPCInfo req);
    ctx ← (if getTree info then
             tree ← lift (trees_GetTree ctx (admin i) (infoTreeID info)
                            (mkGetOpts (treeTypes info) Admin));
             match errAfterTree ctx with
             | Some e => fail e
             | None => mret (NewContext ctx tree)
             end
           else mret ctx);
    if (0 <? tokens info)%Z && (0 <? length (specs info))%nat then
      r ← try (onQuota (GetTokens (tokens info) (specs info)));
      _ ← match r with
          | Err e => if quotaDryRun i then mret () else fail (err_exhausted e)
          | _ => mret ()
          end;
      match errAfterTokens ctx with
      | Some e => fail e
      | None => mret (ctx, Some info)
      end
    else mret (ctx, Some info).

(** A leaf that was queued: its status is missing. *)
Definition isLeafOK (leaf : QueuedLogLeaf) : bool :=
  match queued_Status leaf with None => true | Some _ => false end.

Definition notOK (leaves : list QueuedLogLeaf) : Z :=
  Z.of_nat (length (filter (λ l, isLeafOK l = false) leaves)).

(** The tokens that are given back for a response. *)
Definition returned (resp : any) : Z :=
  match resp with
  | anyResp mQueueLeaf leaf => if isLeafOK leaf then 0 else 1
  | anyResp mAddSequencedLeaves leaves => notOK leaves
  | anyResp mQueueLeaves leaves => notOK leaves
  | _ => 0
  end%Z.

(** The tokens that are given back after a call. *)
Definition givenBack (info : rpcInfo) (res : outcome any) : Z :=
  match res with
  | Err _ => tokens info
  | Ok resp => returned resp
  | Panic => 0
  end.

Definition spawn (t : Z * list Spec) : M World unit :=
  modify (λ w, mkWorld (system w) (quota w) (spawned w ++ [t])).

Definition After (info : option rpcInfo) (method : string) (res : outcome any) : M World unit :=
  if negb (enabledServices (serviceName method)) then mret ()
  else
    match info with
    | None => mret ()
    | Some info =>
        if (tokens info =? 0)%Z then mret ()
        else
          let n := givenBack info res in
          if (0 <? length (specs info))%nat && (0 <? n)%Z then spawn (n, specs info)
          else mret ()
    end.

(** The body of the goroutine: an error is logged. *)
Definition refund (t : Z * list Spec) : M World unit :=
  _ ← try (onQuota (PutTokens t.1 t.2));
  mret ().

Definition UnaryInterceptor (i : TrillianInterceptor) : Interceptor := λ ctx req info handler,
  '(ctx, ri) ← Before i ctx req info;
  r ← try (handler ctx req);
  _ ← After ri info r;
  lift r.

Definition sql_ErrNoRows : error := Errorf "sql: no rows in result set".
Definition WrapError (e : error) : error :=
  if bool_decide (e = sql_ErrNoRows) then Wrapf "rpc error: code = NotFound desc = %s" e else e.

Definition ErrorWrapper : Interceptor := λ ctx req _ handler,
  r ← try (handler ctx req);
  lift (match r with Err e => Err (WrapError e) | _ => r end).

(** [ChainUnaryServer]: each interceptor's handler is the next one. *)
Fixpoint chainHandler (chain : list Interceptor) (info : string) (h : Handler) : Handler :=
  match chain with
  | [] => h
  | i :: rest => λ ctx req, i ctx req info (chainHandler rest info h)
  end.

Definition ChainUnaryServer (chain : list Interceptor) : Interceptor := λ ctx req info h,
  chainHandler chain info h ctx req.

(** The adapter that [main] makes. *)
Definition newLogServer (a : adminStorage) (srv : Server) : trillianLogClient :=
  mkClient (ChainUnaryServer [ErrorWrapper; UnaryInterceptor (mkInterceptor a false)]) srv.

(** ** Lemmas *)

Lemma asReq_anyReq m r : asReq m (anyReq m r) = Some r.
Proof. simpl. destruct (decide (m = m)) as [e|]; [|done]. by rewrite (proof_irrel e eq_refl). Qed.

Lemma asResp_anyResp m r : asResp m (anyResp m r) = Some r.
Proof. simpl. destruct (decide (m = m)) as [e|]; [|done]. by rewrite (proof_irrel e eq_refl). Qed.

Lemma enabled m : enabledServices (serviceName (FullMethod m)) = true.
Proof. by destruct m. Qed.

Lemma tokensOf_nonneg m b : (0 ≤ tokensOf m b)%Z.
Proof. destruct m; simpl; try lia. case_match eqn:E; [apply Z.ltb_lt in E|]; lia. Qed.

(** What a call is charged. *)
Definition kindOf (m : method) : Kind := if isReadonly m then Read else Write.
Definition infoOf {m} (r : Req m) : rpcInfo :=
  mkInfo true (isReadonly m) (LogId r) (typesOf m)
    (if (0 <? tokensOf m (body r))%Z then specsOf (kindOf m) (ChargeTo r) (LogId r) else [])
    (tokensOf m (body r)).

Lemma newRPCInfo_Ok m r : newRPCInfo (anyReq m r) = Ok (infoOf r).
Proof. done. Qed.

(** [Before] on a request of the log's API. *)
Lemma Before_req a ctx m (r : Req m) w :
  Before (mkInterceptor a false) ctx (anyReq m r) (FullMethod m) w =
  match trees_GetTree ctx a (LogId r) (mkGetOpts (typesOf m) Admin) with
  | Err e => (Err e, w)
  | Panic => (Panic, w)
  | Ok tree =>
      match errAfterTree ctx with
      | Some e => (Err e, w)
      | None =>
          let ctx' := NewContext ctx tree in
          let done := match errAfterTokens ctx with
                      | Some e => Err e | None => Ok (ctx', Some (infoOf r)) end in
          if (0 <? tokensOf m (body r))%Z then
            match GetTokens (tokensOf m (body r)) (specs (infoOf r)) (quota w) with
            | (Ok _, q) => (done, mkWorld (system w) q (spawned w))
            | (Err e, q) => (Err (err_exhausted e), mkWorld (system w) q (spawned w))
            | (Panic, q) => (Panic, mkWorld (system w) q (spawned w))
            end
          else (Ok (ctx', Some (infoOf r)), w)
      end
  end.
Proof.
  unfold Before. rewrite enabled. cbn [negb]. rewrite newRPCInfo_Ok.
  erewrite mbind_step by reflexivity. cbn [getTree infoOf infoTreeID treeTypes admin].
  unfold_M. destruct (trees_GetTree _ _ _ _) as [tree|e|]; [|done..].
  destruct (errAfterTree ctx) as [e|]; [done|]. cbn [tokens specs infoOf].
  destruct (0 <? tokensOf m (body r))%Z eqn:E; [|done].
  assert ((0 <? length (specsOf (kindOf m) (ChargeTo r) (LogId r)))%nat = true) as ->.
  { apply Nat.ltb_lt. unfold specsOf. rewrite length_app. simpl. lia. }
  cbn [andb]. unfold onQuota, zoom. destruct (GetTokens _ _ _) as [[[]|e|] q]; [|done..].
  cbn [errAfterTokens NewContext]. by destruct (errAfterTokens ctx).
Qed.

Definition with_spawned (l : list (Z * list Spec)) (w : World) : World :=
  mkWorld (system w) (quota w) l.

Lemma After_req m (r : Req m) res w :
  After (Some (infoOf r)) (FullMethod m) res w =
  (Ok (), if (0 <? tokensOf m (body r))%Z && (0 <? givenBack (infoOf r) res)%Z
          then with_spawned (spawned w ++ [(givenBack (infoOf r) res, specs (infoOf r))]) w
          else w).
Proof.
  unfold After. rewrite enabled. cbn [negb tokens specs infoOf].
  pose proof (tokensOf_nonneg m (body r)). destruct (Z.ltb_spec 0 (tokensOf m (body r))).
  - rewrite (proj2 (Z.eqb_neq _ _)) by lia.
    assert ((0 <? length (specsOf (kindOf m) (ChargeTo r) (LogId r)))%nat = true) as ->.
    { apply Nat.ltb_lt. unfold specsOf. rewrite length_app. simpl. lia. }
    cbn [andb]. by destruct (0 <? givenBack _ _)%Z.
  - by rewrite (proj2 (Z.eqb_eq _ _)) by lia.
Qed.

(** ** What a call does *)

Definition errorOf {A} (o : outcome A) : outcome A :=
  match o with Err e => Err (WrapError e) | _ => o end.

(** A call without dynamic types: the request is admitted, served, and settled. *)
Definition served (a : adminStorage) (srv : Server) (m : method) (ctx : Context) (req : Req m)
    : M World (Resp m) :=
  '(ctx', _) ← Before (mkInterceptor a false) ctx (anyReq m req) (FullMethod m);
  r ← try (srv m ctx' req);
  _ ← After (Some (infoOf req)) (FullMethod m) (anyResp m <$> r);
  lift r.

Lemma Before_info a ctx m (r : Req m) w ctx' ri w' :
  Before (mkInterceptor a false) ctx (anyReq m r) (FullMethod m) w = (Ok (ctx', ri), w') →
  ri = Some (infoOf r).
Proof. rewrite Before_req. intros. repeat (case_match; simplify_eq/=; try done). Qed.

Lemma call_eq a srv m ctx req w :
  call (newLogServer a srv) m ctx req w =
  (errorOf (served a srv m ctx req w).1, (served a srv m ctx req w).2).
Proof.
  unfold call, served, newLogServer. cbn [interceptor ChainUnaryServer chainHandler].
  unfold ErrorWrapper, UnaryInterceptor at 1. unfold mbind, M_bind, try, lift, mret, M_ret.
  destruct (Before _ _ _ _ w) as [[[ctx' ri]|e|] w1] eqn:HB; cbn; try done.
  apply Before_info in HB as ->. cbn [chainHandler handler]. unfold handler. rewrite asReq_anyReq.
  cbn [server]. unfold mbind, M_bind, mret, M_ret.
  destruct (srv m ctx' req w1) as [[resp|e|] w2]; [| |done].
  all: cbn [fmap outcome_fmap]; rewrite After_req; cbn [errorOf fst snd].
  - by rewrite asResp_anyResp.
  - done.
Qed.

Lemma Before_system i ctx req method w o w' :
  Before i ctx req method w = (o, w') → system w' = system w.
Proof.
  assert (stable (λ w', system w' = system w) (Before i ctx req method)) as Hs.
  { unfold Before. case_match; [apply stable_ret|].
    assert (∀ n sp, stable (λ w', system w' = system w) (onQuota (GetTokens n sp))) as HG
      by (intros n sp; apply (stable_zoom _ (λ _, True)); done).
    stable. }
  intros H. pose proof (Hs w eq_refl) as E. by rewrite H in E.
Qed.

(** A call is refused before the storage is touched, or reaches the server. *)
Lemma call_system a srv m ctx req w o w' :
  call (newLogServer a srv) m ctx req w = (o, w') →
  (system w' = system w ∧ ∀ x, o ≠ Ok x) ∨
  ∃ ctx' w1 o1 w2, system w1 = system w ∧ srv m ctx' req w1 = (o1, w2) ∧
    system w' = system w2 ∧ o = errorOf o1.
Proof.
  rewrite call_eq. destruct (served a srv m ctx req w) as [o2 w3] eqn:Hs.
  cbn [fst snd]. intros [= <- <-]. unfold served in Hs. unfold mbind at 1, M_bind at 1 in Hs.
  destruct (Before _ _ _ _ w) as [o0 w1] eqn:HB. pose proof (Before_system _ _ _ _ _ _ _ HB) as Es.
  destruct o0 as [[ctx' ri]|e|]; [|injection Hs as <- <-; by left..].
  right. exists ctx', w1. unfold mbind, M_bind, try, lift in Hs.
  destruct (srv m ctx' req w1) as [[resp|e|] w2]; cbn [fmap outcome_fmap] in Hs;
    rewrite ?After_req in Hs; cbn [fst snd] in Hs; injection Hs as <- <-.
  1,2: eexists _, _; split; [done|split; [done|split; [|done]]]; by case_match.
  by exists Panic, w2.
Qed.

(** ** The ledger of the quota manager *)

Lemma GetTokens_specsOf n k users t qm :
  GetTokens n (specsOf k users t) qm =
  match k with
  | Read => (Ok (), qm)
  | Write =>
      match unsequenced qm !! t with
      | None => (Err err_unknown_tree, qm)
      | Some c =>
          if (maxUnsequencedLeaves qm <? wrap64 (c + n))%Z then (Err err_too_many, qm)
          else (Ok (), with_unsequenced (<[t := wrap64 (c + n)]> (unsequenced qm)) qm)
      end
  end.
Proof.
  unfold GetTokens, specsOf. induction users as [|u users IH]; [|exact IH].
  cbn [fmap list_fmap app]. destruct k; [done|]. cbn [mfold]. unfold mbind, M_bind, getTokens.
  cbn. destruct (unsequenced qm !! t) as [c|]; [|done]. by destruct (_ <? _)%Z.
Qed.

Lemma PutTokens_specsOf n k users t qm :
  PutTokens n (specsOf k users t) qm =
  match k with
  | Read => (Ok (), qm)
  | Write =>
      match unsequenced qm !! t with
      | None => (Err err_unknown_tree, qm)
      | Some c =>
          let c' := wrap64 (c - n) in
          (Ok (), with_unsequenced
                    (<[t := if (c' <? 0)%Z then 0%Z else c']> (unsequenced qm)) qm)
      end
  end.
Proof.
  unfold PutTokens, specsOf. induction users as [|u users IH]; [|exact IH].
  cbn [fmap list_fmap app]. destruct k; [done|]. cbn [mfold]. unfold mbind, M_bind, putTokens.
  cbn. by destruct (unsequenced qm !! t) as [c|].
Qed.

Lemma charge_specsOf t k users id :
  charge t (specsOf k users id) = if decide (k = Write ∧ id = t) then 1%Z else 0%Z.
Proof.
  unfold specsOf. induction users as [|u users IH].
  - cbn [fmap list_fmap app]. rewrite !charge_cons.
    rewrite (decide_False (P := limited _ ∧ _)) by (unfold limited; simpl; naive_solver).
    unfold limited at 1. unfold charge; simpl. repeat case_decide; naive_solver.
  - cbn [fmap list_fmap app]. rewrite charge_cons, IH.
    rewrite (decide_False (P := limited _ ∧ _)) by (unfold limited; simpl; naive_solver). lia.
Qed.

(** Requests, the goroutines they start, the storage and the watchers of the
    logs take their steps in any order.  A request is in flight from the moment
    it is admitted until its answer is settled; [settled] are the tokens that
    were kept for requests that ended, with their specs. *)
Record Traffic := mkTraffic {
  world : World;
  inFlight : list (Z * list Spec);
  settled : list (Z * list Spec)
}.

(** The tokens that the entries of a list hold of tree [t]. *)
Definition held (t : Z) (l : list (Z * list Spec)) : Z :=
  foldr (λ p z, p.1 * charge t p.2 + z)%Z 0%Z l.

(** What is out for tree [t]: kept for requests that ended, held by those in
    flight, and on its way back. *)
Definition out (t : Z) (tr : Traffic) : Z :=
  (held t (settled tr) + held t (inFlight tr) + held t (spawned (world tr)))%Z.

Definition entry {m} (r : Req m) : Z * list Spec := (tokens (infoOf r), specs (infoOf r)).

(** Entries that requests make; requests are shorter than 2^62, as no Go slice
    is that long. *)
Definition tidy (p : Z * list Spec) : Prop :=
  (0 ≤ p.1 < 2 ^ 62)%Z ∧ (p.2 = [] ∨ ∃ k users id, p.2 = specsOf k users id).

Section ledger.
Context `{!Codec LogLeaf, !Codec SubtreeProto, !Codec Frontier}.
Variables (a : adminStorage) (t : Z).

(** One step, other than a round of [t]'s own watcher.  A request that is
    cancelled after it was charged is neither served nor settled: its tokens
    are kept.  The answer to a request refuses no more leaves than the request
    has. *)
Inductive traffic_step : Traffic → Traffic → Prop :=
  | step_admit ctx m (r : Req m) ctx' ri w w' F U :
      (tokensOf m (body r) < 2 ^ 62)%Z →
      Before (mkInterceptor a false) ctx (anyReq m r) (FullMethod m) w = (Ok (ctx', ri), w') →
      traffic_step (mkTraffic w F U) (mkTraffic w' (entry r :: F) U)
  | step_refuse ctx m (r : Req m) e w w' F U :
      (tokensOf m (body r) < 2 ^ 62)%Z →
      errAfterTokens ctx = None ∨ quota w' = quota w →
      Before (mkInterceptor a false) ctx (anyReq m r) (FullMethod m) w = (Err e, w') →
      traffic_step (mkTraffic w F U) (mkTraffic w' F U)
  | step_cancel ctx m (r : Req m) e w w' F U :
      (tokensOf m (body r) < 2 ^ 62)%Z →
      is_Some (errAfterTokens ctx) → quota w' ≠ quota w →
      Before (mkInterceptor a false) ctx (anyReq m r) (FullMethod m) w = (Err e, w') →
      traffic_step (mkTraffic w F U) (mkTraffic w' F (entry r :: U))
  | step_storage s w F U :
      traffic_step (mkTraffic w F U) (mkTraffic (mkWorld s (quota w) (spawned w)) F U)
  | step_finish m (r : Req m) res w w' F F' U :
      (0 ≤ givenBack (infoOf r) res ≤ tokensOf m (body r))%Z →
      After (Some (infoOf r)) (FullMethod m) res w = (Ok (), w') →
      traffic_step (mkTraffic w (F ++ entry r :: F') U)
        (mkTraffic w' (F ++ F')
           ((tokensOf m (body r) - givenBack (infoOf r) res, specs (infoOf r))%Z :: U))
  | step_refund p S S' w w' F U :
      spawned w = S ++ p :: S' →
      refund p (with_spawned (S ++ S') w) = (Ok (), w') →
      traffic_step (mkTraffic w F U) (mkTraffic w' F U)
  | step_watch t' d q o w F U :
      t' ≠ t → watchOnce t' (local (system w), quota w) = (o, (d, q)) →
      traffic_step (mkTraffic w F U)
        (mkTraffic (mkWorld (with_local d (system w)) q (spawned w)) F U).

Lemma held_app l l' : held t (l ++ l') = (held t l + held t l')%Z.
Proof. induction l as [|p l IH]; simpl; lia. Qed.

Lemma held_cons p l : held t (p :: l) = (p.1 * charge t p.2 + held t l)%Z.
Proof. done. Qed.

Lemma held_nonneg l : Forall tidy l → (0 ≤ held t l)%Z.
Proof.
  induction 1 as [|p l [Hp _] _ IH]; simpl; [done|]. pose proof (charge_nonneg t p.2). nia.
Qed.

Lemma tidy_infoOf {m} (r : Req m) n : (0 ≤ n < 2 ^ 62)%Z → tidy (n, specs (infoOf r)).
Proof.
  split; [done|]. cbn. destruct (0 <? _)%Z; [right|by left]. by eexists _, _, _.
Qed.

Lemma tidy_entry {m} (r : Req m) : (tokensOf m (body r) < 2 ^ 62)%Z → tidy (entry r).
Proof. intros Hn. apply (tidy_infoOf r). split; [apply tokensOf_nonneg|exact Hn]. Qed.

(** The manager [q] has the limit [lim], and [t]'s count is [c]. *)
Definition counts (lim c : Z) (q : QuotaManager) : Prop :=
  maxUnsequencedLeaves q = lim ∧ unsequenced q !! t = Some c.

Lemma counts_insert lim c q id c' :
  counts lim c q →
  counts lim (if decide (id = t) then c' else c)
    (with_unsequenced (<[id := c']> (unsequenced q)) q).
Proof.
  intros [Hm Hc]. split; [done|]. cbn. rewrite lookup_insert. by case_decide.
Qed.

(** What a request takes. *)
Lemma GetTokens_entry {m} (r : Req m) q lim M c :
  counts lim c q → (0 ≤ c ≤ M)%Z → (lim ≤ M < 2 ^ 62)%Z → (tokensOf m (body r) < 2 ^ 62)%Z →
  match GetTokens (tokensOf m (body r)) (specs (infoOf r)) q with
  | (Ok _, q') => (c + held t [entry r] ≤ M)%Z ∧ counts lim (c + held t [entry r]) q'
  | (Err _, q') => q' = q
  | (Panic, _) => False
  end.
Proof.
  intros Hq Hc HM Hn. pose proof (tokensOf_nonneg m (body r)) as H0.
  unfold held, entry. cbn [tokens specs infoOf foldr fst snd].
  destruct (0 <? tokensOf m (body r))%Z.
  2:{ unfold charge. cbn. rewrite Z.mul_0_r, !Z.add_0_r. split; [lia|done]. }
  rewrite GetTokens_specsOf. set (n := tokensOf m (body r)) in *.
  rewrite charge_specsOf. destruct (kindOf m).
  { rewrite decide_False by naive_solver. rewrite Z.mul_0_r, !Z.add_0_r. split; [lia|done]. }
  destruct (unsequenced q !! LogId r) as [c1|] eqn:E; [|done].
  destruct (Z.ltb_spec (maxUnsequencedLeaves q) (wrap64 (c1 + n))) as [|Hle]; [done|].
  pose proof (counts_insert lim c q (LogId r) (wrap64 (c1 + n)) Hq) as Hi.
  destruct Hq as [Hm Hq]. rewrite Hm in Hle.
  destruct (decide (LogId r = t)) as [Et|Et].
  - rewrite Et in E. replace c1 with c in * by congruence.
    rewrite decide_True by done. rewrite Z.mul_1_r, Z.add_0_r.
    rewrite wrap64_small in Hi, Hle by (unfold int64; lia).
    rewrite wrap64_small by (unfold int64; lia). split; [lia|done].
  - rewrite decide_False by naive_solver. rewrite Z.mul_0_r, !Z.add_0_r. split; [lia|done].
Qed.

(** What a goroutine gives back, as far as there is something to give. *)
Lemma PutTokens_entry p q o q' lim c :
  tidy p → counts lim c q → (0 ≤ c < 2 ^ 62)%Z → PutTokens p.1 p.2 q = (o, q') →
  counts lim (Z.max 0 (c - p.1 * charge t p.2)) q'.
Proof.
  destruct p as [n sp]. unfold tidy. cbn [fst snd]. intros [H0 Hsp] Hq Hc HP.
  destruct Hsp as [->|(k & users & id & ->)].
  { injection HP as _ <-. unfold charge. cbn. by rewrite Z.mul_0_r, Z.sub_0_r, Z.max_r by lia. }
  rewrite PutTokens_specsOf in HP. rewrite charge_specsOf. destruct k.
  { injection HP as _ <-. rewrite decide_False by naive_solver.
    by rewrite Z.mul_0_r, Z.sub_0_r, Z.max_r by lia. }
  destruct (unsequenced q !! id) as [c1|] eqn:E; injection HP as _ <-; cycle 1.
  { destruct Hq as [Hm Hq]. rewrite decide_False by naive_solver congruence.
    by rewrite Z.mul_0_r, Z.sub_0_r, Z.max_r by lia. }
  pose proof (counts_insert lim c q id
    (if (wrap64 (c1 - n) <? 0)%Z then 0%Z else wrap64 (c1 - n)) Hq) as Hi.
  destruct Hq as [Hm Hq]. destruct (decide (id = t)) as [Et|Et].
  - rewrite Et in E. replace c1 with c in * by congruence. rewrite decide_True by done.
    rewrite wrap64_small in Hi |- * by (unfold int64; lia). rewrite Z.mul_1_r.
    destruct (Z.ltb_spec (c - n) 0).
    + by rewrite Z.max_l by lia.
    + by rewrite Z.max_r by lia.
  - rewrite decide_False by naive_solver. by rewrite Z.mul_0_r, Z.sub_0_r, Z.max_r by lia.
Qed.

Lemma Before_quota ctx m (r : Req m) w o w' lim M c :
  counts lim c (quota w) → (0 ≤ c ≤ M)%Z → (lim ≤ M < 2 ^ 62)%Z →
  (tokensOf m (body r) < 2 ^ 62)%Z →
  Before (mkInterceptor a false) ctx (anyReq m r) (FullMethod m) w = (o, w') →
  spawned w' = spawned w ∧
  let charged := (c + held t [entry r] ≤ M)%Z ∧ counts lim (c + held t [entry r]) (quota w') in
  match o with
  | Ok _ => charged
  | _ => quota w' = quota w ∨ is_Some (errAfterTokens ctx) ∧ charged
  end.
Proof.
  intros Hq Hc HM Hn. rewrite Before_req. pose proof (tokensOf_nonneg m (body r)) as H0.
  destruct (trees_GetTree _ _ _ _); [|intros [= <- <-]; split; [done|by left]..].
  destruct (errAfterTree ctx); [intros [= <- <-]; split; [done|by left]|]. cbv zeta.
  destruct (Z.ltb_spec 0 (tokensOf m (body r))) as [Ht|Ht].
  - pose proof (GetTokens_entry r (quota w) lim M c Hq Hc HM Hn) as HG.
    destruct (GetTokens _ _ _) as [[[]|e|] q]; [| |done].
    + destruct (errAfterTokens ctx); intros [= <- <-]; (split; [done|]); [right|]; done.
    + intros [= <- <-]. subst q. split; [done|by left].
  - intros [= <- <-]. split; [done|].
    assert (held t [entry r] = 0)%Z as ->.
    { unfold held, entry. cbn [foldr fst snd tokens infoOf].
      replace (tokensOf m (body r)) with 0%Z by lia. lia. }
    rewrite Z.add_0_r. split; [lia|done].
Qed.

Lemma refund_quota p w w' :
  refund p w = (Ok (), w') →
  spawned w' = spawned w ∧ ∃ o, PutTokens p.1 p.2 (quota w) = (o, quota w').
Proof.
  unfold refund, onQuota, zoom. unfold_M. destruct (PutTokens p.1 p.2 (quota w)) as [[|e|] q];
    intros [= <-]; (split; [done|by eexists]).
Qed.

Lemma watchOnce_counts t' lim c d q o d' q' :
  t' ≠ t → counts lim c q → watchOnce t' (d, q) = (o, (d', q')) → counts lim c q'.
Proof.
  intros Ht [Hm Hc] H.
  assert (stable (λ s : DB * QuotaManager, counts lim c s.2) (watchOnce t')) as Hs.
  { unfold watchOnce. stable; [by apply (stable_zoom _ (λ _, True))..|].
    intros [d1 q1] [Hm1 Hc1]. split; [done|]. cbn. by rewrite lookup_insert_ne. }
  pose proof (Hs (d, q) (conj Hm Hc)) as E. by rewrite H in E.
Qed.

(** The account of [t], opened with count [c0] and [h0] tokens out: what is
    paid out is paid back, except that the count does not fall below 0. *)
Definition ledger (lim c0 h0 : Z) (tr : Traffic) : Prop :=
  Forall tidy (inFlight tr) ∧ Forall tidy (settled tr) ∧ Forall tidy (spawned (world tr)) ∧
  ∃ c, counts lim c (quota (world tr)) ∧ (0 ≤ c ≤ Z.max lim c0)%Z ∧
    (c0 - h0 + out t tr ≤ c ≤ c0 + out t tr)%Z.

Lemma finish_ledger lim c0 h0 m (r : Req m) res w w' F F' U :
  (0 ≤ givenBack (infoOf r) res ≤ tokensOf m (body r))%Z →
  After (Some (infoOf r)) (FullMethod m) res w = (Ok (), w') →
  ledger lim c0 h0 (mkTraffic w (F ++ entry r :: F') U) →
  ledger lim c0 h0 (mkTraffic w' (F ++ F')
    ((tokensOf m (body r) - givenBack (infoOf r) res, specs (infoOf r))%Z :: U)).
Proof.
  intros Hb HA (HF & HU & HS & c & Hq & Hc & Hout). rewrite After_req in HA.
  cbn [world inFlight settled] in *. apply Forall_app in HF as [HF HF'].
  apply Forall_cons in HF' as [[Ht _] HF']. cbn [entry fst tokens infoOf] in Ht.
  pose proof (@tidy_infoOf m r) as Hti. change (entry r) with (tokensOf m (body r), specs (infoOf r)) in *.
  unfold ledger, out in *. cbn [world inFlight settled] in *.
  rewrite held_app, !held_cons in Hout. cbn [fst snd] in Hout.
  set (sp := specs (infoOf r)) in *. clearbody sp.
  set (g := givenBack (infoOf r) res) in *. clearbody g.
  destruct (Z.ltb_spec 0 (tokensOf m (body r))), (Z.ltb_spec 0 g);
    cbn [andb] in HA; injection HA as <-; cbn [with_spawned quota spawned];
    (split; [by apply Forall_app|]); (split; [constructor; [apply Hti; lia|done]|]).
  1: split; [apply Forall_app; split; [done|constructor; [apply Hti; lia|done]]|].
  2-4: split; [done|].
  all: exists c; split; [done|]; split; [done|]; rewrite ?held_app, ?held_cons;
    cbn [fst snd]; change (held t []) with 0%Z; try (assert (g = 0)%Z as -> by lia); lia.
Qed.

Lemma traffic_step_ledger lim c0 h0 tr tr' :
  (0 ≤ c0)%Z → (Z.max lim c0 < 2 ^ 62)%Z →
  traffic_step tr tr' → ledger lim c0 h0 tr → ledger lim c0 h0 tr'.
Proof.
  intros H0 HM Hs HL. pose proof HL as (HF & HU & HS & c & Hq & Hc & Hout).
  assert (lim ≤ Z.max lim c0 < 2 ^ 62)%Z as HM' by lia.
  destruct Hs as [ctx m r ctx' ri w w' F U Hn HB|ctx m r e w w' F U Hn He HB
                 |ctx m r e w w' F U Hn He Hne HB|s w F U|m r res w w' F F' U Hb HA
                 |p S S' w w' F U Es HR|t' d q o w F U Ht HW];
    unfold ledger, out in *; cbn [world inFlight settled system quota spawned] in *.
  - destruct (Before_quota ctx m r w _ _ lim _ c Hq Hc HM' Hn HB) as (-> & Hle & Hd).
    pose proof (tidy_entry r Hn) as He.
    assert (0 ≤ held t [entry r])%Z by (apply held_nonneg; by constructor).
    split_and!; try done; [by constructor|]. eexists. split; [exact Hd|].
    rewrite !held_cons in *. change (held t []) with 0%Z in *. lia.
  - destruct (Before_quota ctx m r w _ _ lim _ c Hq Hc HM' Hn HB) as (-> & Hd).
    assert (quota w' = quota w) as -> by (destruct He as [He|He], Hd as [Hd|[[e' Hd] _]]; congruence).
    split_and!; try done. by exists c.
  - destruct (Before_quota ctx m r w _ _ lim _ c Hq Hc HM' Hn HB) as (-> & [Hd|(_ & Hle & Hd)]); [done|].
    pose proof (tidy_entry r Hn) as Hen.
    assert (0 ≤ held t [entry r])%Z by (apply held_nonneg; by constructor).
    split_and!; try done; [by constructor|]. eexists. split; [exact Hd|].
    rewrite !held_cons in *. change (held t []) with 0%Z in *. lia.
  - split_and!; try done. by exists c.
  - by eapply finish_ledger.
  - apply refund_quota in HR as (-> & o & HP). cbn [with_spawned quota spawned] in *.
    rewrite Es in HS, Hout. apply Forall_app in HS as [HS HS']. apply Forall_cons in HS' as [Hp HS'].
    pose proof (PutTokens_entry p (quota w) o (quota w') lim c Hp Hq ltac:(lia) HP) as Hd.
    pose proof (held_nonneg _ HF). pose proof (held_nonneg _ HU). pose proof (held_nonneg _ HS).
    pose proof (held_nonneg _ HS'). pose proof (charge_nonneg t p.2). destruct Hp as [Hp _].
    split_and!; try done; [by apply Forall_app|]. eexists. split; [exact Hd|].
    rewrite ?held_app in *. rewrite held_cons in Hout. nia.
  - split_and!; try done. exists c. split; [by eapply watchOnce_counts|done].
Qed.

(** C16. No token is lost or made up.  Take a moment when the count of log [t]
    is [c0] and [h0] of its tokens are held by requests in flight or on their
    way back, as right after a round of its watcher.  From then until the next
    round, however requests, cancelled ones too, the goroutines that give
    tokens back, the storage and the watchers of other logs interleave, the
    count is [c0] plus the tokens kept for requests that ended, those of the
    requests in flight and those on their way back, less at most the [h0] that
    came from before; with [h0 = 0] it is exact.  And it never exceeds the
    limit, or [c0] where the watcher found more than that, so that no more
    leaves are queued than the limit allows. *)
Theorem quota_ledger lim c0 w F tr :
  let h0 := (held t F + held t (spawned w))%Z in
  counts lim c0 (quota w) → (0 ≤ c0)%Z → (Z.max lim c0 < 2 ^ 62)%Z →
  Forall tidy F → Forall tidy (spawned w) →
  rtc traffic_step (mkTraffic w F []) tr →
  ∃ c, unsequenced (quota (world tr)) !! t = Some c ∧ (0 ≤ c ≤ Z.max lim c0)%Z ∧
    (c0 - h0 + out t tr ≤ c ≤ c0 + out t tr)%Z ∧
    (h0 = 0 → c = c0 + out t tr)%Z.
Proof.
  intros h0 Hq H0 HM HF HS Hr.
  assert (ledger lim c0 h0 tr) as (_ & _ & _ & c & [_ Hc] & Hb & Ho).
  { assert (ledger lim c0 h0 (mkTraffic w F [])) as HL.
    { split_and!; try done. exists c0. split; [done|]. unfold out. cbn [world inFlight settled].
      pose proof (held_nonneg _ HF). pose proof (held_nonneg _ HS).
      change (held t []) with 0%Z. lia. }
    clear Hq HF HS. induction Hr as [|x y z Hxy _ IH]; [done|].
    by apply IH, (traffic_step_ledger lim c0 h0 x). }
  exists c. split; [done|]. split; [done|]. lia.
Qed.
End ledger.

(** C17. Reading is free: a call other than the five that write a log is not
    refused by the quota, whatever its count.  The answer is the server's, its
    errors wrapped, the storage and all counts are as the server left them, and
    what the call may leave to give back changes no count. *)
Theorem reads_are_free a srv m ctx (req : Req m) w tree :
  m ∉ [mQueueLeaf; mQueueLeaves; mAddSequencedLeaf; mAddSequencedLeaves; mInitLog] →
  trees_GetTree ctx a (LogId req) (mkGetOpts [LOG; PREORDERED_LOG] Admin) = Ok tree →
  errAfterTree ctx = None → errAfterTokens ctx = None →
  let r := srv m (NewContext ctx tree) req w in
  ∃ back,
    call (newLogServer a srv) m ctx req w =
      (errorOf r.1, with_spawned (spawned r.2 ++ back) r.2) ∧
    ∀ p q, p ∈ back → PutTokens p.1 p.2 q = (Ok (), q).
Proof.
  intros Hm Ht He1 He2 r.
  assert (isReadonly m = true ∧ typesOf m = [LOG; PREORDERED_LOG]) as [Hro Hty]
    by (destruct m; set_solver).
  assert (Before (mkInterceptor a false) ctx (anyReq m req) (FullMethod m) w =
    (Ok (NewContext ctx tree, Some (infoOf req)), w)) as HB.
  { rewrite Before_req, Hty, Ht, He1, He2. cbv zeta. cbn [specs infoOf].
    destruct (0 <? _)%Z; [|done]. unfold kindOf. rewrite Hro, GetTokens_specsOf.
    by destruct w. }
  rewrite call_eq. unfold served. rewrite (mbind_step _ _ _ _ _ HB). cbn [fst snd].
  unfold mbind, M_bind, try, lift. fold r. clearbody r. destruct r as [o w2]. cbn [fst snd].
  assert (∀ res, ∃ back,
    (After (Some (infoOf req)) (FullMethod m) res w2).2 = with_spawned (spawned w2 ++ back) w2 ∧
    ∀ p q, p ∈ back → PutTokens p.1 p.2 q = (Ok (), q)) as Hback.
  { intros res. rewrite After_req. cbn [snd]. destruct (0 <? tokensOf m (body req))%Z eqn:E;
      [destruct (0 <? givenBack _ _)%Z|]; cbn [andb].
    1: { eexists. split; [reflexivity|]. intros p q ->%list_elem_of_singleton.
      cbn [fst snd specs infoOf]. rewrite E. unfold kindOf. by rewrite Hro, PutTokens_specsOf. }
    all: exists []; rewrite app_nil_r; split; [by destruct w2|set_solver]. }
  assert (∀ res, (After (Some (infoOf req)) (FullMethod m) res w2).1 = Ok ()) as HA
    by (intros res; by rewrite After_req).
  destruct o as [x|e|].
  1: destruct (Hback (Ok (anyResp m x))) as (back & E & Hp); specialize (HA (Ok (anyResp m x))).
  2: destruct (Hback (Err e)) as (back & E & Hp); specialize (HA (Err e)).
  3: exists []; rewrite app_nil_r; split; [by destruct w2|set_solver].
  all: exists back; split; [|done]; cbn [fmap outcome_fmap];
    destruct (After _ _ _ w2) as [o' w3]; cbn [fst snd] in *; by subst o' w3.
Qed.

(** C18. Backpressure reaches the clients: a request to queue leaves or to write a
    log that would take the log beyond the limit is refused with the quota's
    error, and nothing has changed: the server was not called. *)
Theorem over_limit_refused a srv m ctx (req : Req m) w tree c :
  isReadonly m = false → (0 < tokensOf m (body req) < 2 ^ 62)%Z →
  trees_GetTree ctx a (LogId req) (mkGetOpts (typesOf m) Admin) = Ok tree →
  errAfterTree ctx = None →
  unsequenced (quota w) !! LogId req = Some c → (0 ≤ c < 2 ^ 62)%Z →
  (maxUnsequencedLeaves (quota w) < c + tokensOf m (body req))%Z →
  call (newLogServer a srv) m ctx req w = (Err (err_exhausted err_too_many), w).
Proof.
  intros Hro Hn Ht He Hc Hb Hmax.
  assert (served a srv m ctx req w = (Err (err_exhausted err_too_many), w)) as Hs.
  { unfold served. unfold mbind at 1, M_bind at 1. rewrite Before_req, Ht, He.
    rewrite (proj2 (Z.ltb_lt _ _)) by lia. cbv zeta. cbn [specs infoOf].
    rewrite (proj2 (Z.ltb_lt _ _)) by lia. unfold kindOf. rewrite Hro, GetTokens_specsOf, Hc.
    rewrite wrap64_small by (unfold int64; lia). rewrite (proj2 (Z.ltb_lt _ _)) by lia.
    by destruct w. }
  by rewrite call_eq, Hs.
Qed.

(** ** Witnesses *)

Definition sampleTree : Config.Tree :=
  Config.mkTree 7 ACTIVE LOG RFC6962_SHA256 SHA256 ECDSA (""%string, []) None (0, 0)%Z
    (0, 0)%Z (0, 0)%Z.
Definition sampleAdmin : adminStorage := mkAdminStorage [sampleTree].
Definition sampleQuota : QuotaManager := mkQuotaManager 3 {[ 7%Z := 1%Z ]} ∅ ∅.
Definition sampleSystem : System := mkSystem (mkDB ∅ []) (mkRemote ∅ []) (New hour 10).
Definition sampleLeaf : LogLeaf :=
  mkLogLeaf None (Some [Byte.x01]) None 0 None None None.
Definition twoLeaves : Req mQueueLeaves :=
  mkReq mQueueLeaves 7 ["alice"%string] [Some sampleLeaf; Some sampleLeaf].
Definition sampleSpecs : list Spec := specsOf Write ["alice"%string] 7.

Section witnesses.
#[local] Existing Instances leafCodec subtreeCodec frontierCodec.

(** A request for two leaves is cancelled after it was charged; another one is
    served, one of its leaves is a duplicate, and one token comes back. *)
Lemma quota_ledger_witness :
  let s := sampleSystem in
  let q c := mkQuotaManager 5 {[ 7%Z := c ]} ∅ ∅ in
  ∃ tr, rtc (traffic_step sampleAdmin 7) (mkTraffic (mkWorld s (q 1%Z) []) [] []) tr ∧
    out 7 tr = 3%Z ∧ unsequenced (quota (world tr)) !! 7%Z = Some (1 + 3)%Z.
Proof.
  intros s q.
  set (late := mkContext None None (Some (Errorf "context canceled"))).
  set (answer := [mkQueued sampleLeaf None; mkQueued sampleLeaf (Some (AlreadyExists None))]).
  assert (rtc (traffic_step sampleAdmin 7) (mkTraffic (mkWorld s (q 1%Z) []) [] [])
    (mkTraffic (mkWorld s (q 4%Z) []) [] [(1%Z, sampleSpecs); (2%Z, sampleSpecs)])) as Hr.
  { eapply rtc_l; [eapply (step_cancel _ _ late mQueueLeaves twoLeaves _ _ (mkWorld s (q 3%Z) []));
      [done|by eexists|by vm_compute|vm_compute; reflexivity]|].
    eapply rtc_l; [eapply (step_watch _ _ 8 (mkDB ∅ []) (q 3%Z)); [done|vm_compute; reflexivity]|].
    eapply rtc_l; [eapply (step_admit _ _ Background mQueueLeaves twoLeaves _ _ _
      (mkWorld s (q 5%Z) [])); [done|vm_compute; reflexivity]|].
    eapply rtc_l; [eapply (step_finish _ _ mQueueLeaves twoLeaves (Ok (anyResp mQueueLeaves answer))
      _ (mkWorld s (q 5%Z) [(1%Z, sampleSpecs)]) [] []); [done|vm_compute; reflexivity]|].
    eapply rtc_l; [eapply (step_refund _ _ (1%Z, sampleSpecs) [] [] _ (mkWorld s (q 4%Z) []));
      [reflexivity|vm_compute; reflexivity]|]. apply rtc_refl. }
  eexists. split; [exact Hr|]. split; [reflexivity|].
  destruct (quota_ledger sampleAdmin 7 5 1 (mkWorld s (q 1%Z) []) [] _
    ltac:(done) ltac:(done) ltac:(done) ltac:(constructor) ltac:(constructor) Hr)
    as (c & Hc & _ & _ & E).
  rewrite Hc. f_equal. apply E. reflexivity.
Defined.

Lemma reads_are_free_witness :
  let srv : Server := λ m, match m with
    | mGetLatestSignedLogRoot => λ _ _ w, (Ok zeroSignedLogRoot, w)
    | _ => λ _ _, panic end in
  let w := mkWorld sampleSystem (mkQuotaManager 3 {[ 7%Z := 9%Z ]} ∅ ∅) [] in
  fst (call (newLogServer sampleAdmin srv) mGetLatestSignedLogRoot Background
    (mkReq mGetLatestSignedLogRoot 7 [] tt) w) = Ok zeroSignedLogRoot.
Proof.
  intros srv w.
  destruct (reads_are_free sampleAdmin srv mGetLatestSignedLogRoot Background
    (mkReq mGetLatestSignedLogRoot 7 [] tt) w sampleTree) as (back & E & _);
    [set_solver|reflexivity..|]. rewrite E. reflexivity.
Defined.
End witnesses.

Lemma over_limit_refused_witness :
  let w := mkWorld sampleSystem (mkQuotaManager 3 {[ 7%Z := 2%Z ]} ∅ ∅) [] in
  let srv : Server := λ m _ _, panic in
  call (newLogServer sampleAdmin srv) mQueueLeaves Background twoLeaves w =
    (Err (err_exhausted err_too_many), w).
Proof.
  intros w srv. apply (over_limit_refused sampleAdmin srv mQueueLeaves Background twoLeaves w
    sampleTree 2); done.
Defined.
