(* ===== verification/Verifier.v ===== *)
(** * Verifying proofs (src/vendor/github.com/google/trillian/merkle)

    [log_verifier.go] and [hash_chainer.go]: the functions by which an auditor
    checks that a leaf is in a log and that a log was only extended, given
    tree heads and a proof.  The properties are what an auditor relies on: a
    proof that is accepted shows a fact about the tree, or a collision of the
    hash function, and the proofs of RFC 6962 are accepted. *)

From S2P Require Import Prelude Frontier Keys Compact Nodes.
From Equations Require Import Equations.

(** [hasher.Size()], of SHA-256 *)
Definition hashSize : nat := 32.

(** [bits.OnesCount64] and [bits.TrailingZeros64] of a uint64 *)
Definition OnesCount64 (x : Z) : nat := length (filter (λ i, Z.testbit x i = true) (seqZ 0 64)).
Fixpoint trailing (n : nat) (i : Z) (x : Z) : Z :=
  match n with
  | O => 64
  | S n' => if Z.testbit x i then i else trailing n' (i + 1) x
  end.
Definition TrailingZeros64 (x : Z) : Z := trailing 64 0 x.

Definition innerProofSize (index size : Z) : Z := Len64 (wrapU64 (Z.lxor index (size - 1))).

Definition decompInclProof (index size : Z) : Z * Z :=
  let inner := innerProofSize index size in
  (inner, Z.of_nat (OnesCount64 (wrapU64 index ≫ inner))).

Definition err_mismatch : error :=
  Errorf "calculated root: %v does not match expected root: %v".

Section verifier.
Context (Sum256 : bytes → bytes).

(** The loops of [hashChainer], from element [i] on. *)
Fixpoint chainInner (i : Z) (seed : slice) (proof : list slice) (index : Z) : slice :=
  match proof with
  | [] => seed
  | h :: rest =>
      let seed := if (Z.land (index ≫ i) 1 =? 0)%Z then Some (HashChildren Sum256 seed h)
                  else Some (HashChildren Sum256 h seed) in
      chainInner (i + 1) seed rest index
  end.

Fixpoint chainInnerRight (i : Z) (seed : slice) (proof : list slice) (index : Z) : slice :=
  match proof with
  | [] => seed
  | h :: rest =>
      let seed := if (Z.land (index ≫ i) 1 =? 1)%Z then Some (HashChildren Sum256 h seed)
                  else seed in
      chainInnerRight (i + 1) seed rest index
  end.

Fixpoint chainBorderRight (seed : slice) (proof : list slice) : slice :=
  match proof with
  | [] => seed
  | h :: rest => chainBorderRight (Some (HashChildren Sum256 h seed)) rest
  end.

Definition RootFromInclusionProof (leafIndex treeSize : Z) (proof : list slice) (leafHash : slice)
    : outcome slice :=
  if (leafIndex <? 0)%Z then Err (Errorf "leafIndex %d < 0")
  else if (treeSize <? 0)%Z then Err (Errorf "treeSize %d < 0")
  else if (treeSize <=? leafIndex)%Z then Err (Errorf "leafIndex is beyond treeSize: %d >= %d")
  else if negb (length (sl leafHash) =? hashSize)%nat
  then Err (Errorf "leafHash has unexpected size %d, want %d")
  else
    let '(inner, border) := decompInclProof leafIndex treeSize in
    if negb (Z.of_nat (length proof) =? inner + border)%Z
    then Err (Errorf "wrong proof size %d, want %d")
    else
      let res := chainInner 0 leafHash (take (Z.to_nat inner) proof) leafIndex in
      Ok (chainBorderRight res (drop (Z.to_nat inner) proof)).

Definition VerifyInclusionProof (leafIndex treeSize : Z) (proof : list slice)
    (root leafHash : slice) : outcome unit :=
  calcRoot ← RootFromInclusionProof leafIndex treeSize proof leafHash;
  if bytes_Equal calcRoot root then Ok () else Err err_mismatch.

(** [proof[:n]] and [proof[n:]] panic beyond the slice: the sizes were checked,
    and [inner] is not negative when the first snapshot is the smaller one. *)
Definition VerifyConsistencyProof (snapshot1 snapshot2 : Z) (root1 root2 : slice)
    (proof : list slice) : outcome unit :=
  if (snapshot1 <? 0)%Z then Err (Errorf "snapshot1 (%d) < 0 ")
  else if (snapshot2 <? snapshot1)%Z then Err (Errorf "snapshot2 (%d) < snapshot1 (%d)")
  else if (snapshot1 =? snapshot2)%Z then
    if negb (bytes_Equal root1 root2) then Err err_mismatch
    else if (0 <? length proof)%nat
    then Err (Errorf "root1 and root2 match, but proof is non-empty")
    else Ok ()
  else if (snapshot1 =? 0)%Z then
    if (0 <? length proof)%nat then Err (Errorf "expected empty proof, but got %d components")
    else Ok ()
  else
    match proof with
    | [] => Err (Errorf "empty proof")
    | first :: rest =>
        let '(inner, border) := decompInclProof (snapshot1 - 1) snapshot2 in
        let shift := TrailingZeros64 (wrapU64 snapshot1) in
        let inner := (inner - shift)%Z in
        let '(seed, start, chained) :=
          if (snapshot1 =? wrap64 (1 ≪ shift))%Z then (root1, 0%Z, proof) else (first, 1%Z, rest) in
        if negb (Z.of_nat (length proof) =? start + inner + border)%Z
        then Err (Errorf "wrong proof size %d, want %d")
        else if (inner <? 0)%Z then Panic
        else
          let mask := ((snapshot1 - 1) ≫ shift)%Z in
          let low := take (Z.to_nat inner) chained in
          let high := drop (Z.to_nat inner) chained in
          let hash1 := chainBorderRight (chainInnerRight 0 seed low mask) high in
          if negb (bytes_Equal hash1 root1) then Err err_mismatch
          else
            let hash2 := chainBorderRight (chainInner 0 seed low mask) high in
            if negb (bytes_Equal hash2 root2) then Err err_mismatch else Ok ()
    end.

(** [proof[:inner]]: the size of the proof was checked before. *)
Definition VerifiedPrefixHashFromInclusionProof (subSize size : Z) (proof : list slice)
    (root leafHash : slice) : outcome slice :=
  if (subSize <=? 0)%Z then Err (Errorf "subtree size is %d, want > 0")
  else
    let leaf := (subSize - 1)%Z in
    _ ← VerifyInclusionProof leaf size proof root leafHash;
    let inner := innerProofSize leaf size in
    let res := chainInnerRight 0 leafHash (take (Z.to_nat inner) proof) leaf in
    Ok (chainBorderRight res (drop (Z.to_nat inner) proof)).

(** ** Paths

    The sides of a node on the path from a leaf to the root: [true] when the
    node is a right child, so that its sibling is on the left. *)

Definition bits (index : Z) (n : nat) : list bool :=
  (λ i, Z.testbit index (Z.of_nat i)) <$> seq 0 n.

Definition sides (index size : Z) : list bool :=
  let '(inner, border) := decompInclProof index size in
  bits index (Z.to_nat inner) ++ replicate (Z.to_nat border) true.

Definition node (right : bool) (seed h : slice) : slice :=
  Some (if right then HashChildren Sum256 h seed else HashChildren Sum256 seed h).

(** The hash of the root, and that of the root of the tree that ends with the
    seed, along a path. *)
Definition chain (seed : slice) (path : list (bool * slice)) : slice :=
  fold_left (λ s p, node p.1 s p.2) path seed.
Definition chainLeft (seed : slice) (path : list (bool * slice)) : slice :=
  fold_left (λ s p, if p.1 : bool then node true s p.2 else s) path seed.

Lemma chain_app seed p q : chain seed (p ++ q) = chain (chain seed p) q.
Proof. apply fold_left_app. Qed.
Lemma chainLeft_app seed p q : chainLeft seed (p ++ q) = chainLeft (chainLeft seed p) q.
Proof. apply fold_left_app. Qed.

Lemma land_1 x i : (0 ≤ i)%Z → Z.land (x ≫ i) 1 = Z.b2z (Z.testbit x i).
Proof.
  intros Hi. change 1%Z with (Z.ones 1). rewrite Z.land_ones by lia.
  change (2 ^ 1)%Z with 2%Z. rewrite <-Z.bit0_mod, Z.shiftr_spec by lia. by rewrite Z.add_0_l.
Qed.

(** *** The loops follow the bits of the index *)

Definition bitsFrom (i index : Z) (n : nat) : list bool :=
  (λ j, Z.testbit index (i + Z.of_nat j)) <$> seq 0 n.

Lemma bitsFrom_S i index n :
  bitsFrom i index (S n) = Z.testbit index i :: bitsFrom (i + 1) index n.
Proof.
  unfold bitsFrom. rewrite <-cons_seq, fmap_cons, Z.add_0_r. f_equal.
  rewrite <-fmap_S_seq, <-list_fmap_compose. apply list_fmap_ext. intros j k _. simpl. f_equal. lia.
Qed.

Lemma chainInner_chain i seed proof index :
  (0 ≤ i)%Z →
  chainInner i seed proof index = chain seed (zip (bitsFrom i index (length proof)) proof).
Proof.
  revert i seed. induction proof as [|h proof IH]; intros i seed Hi; [done|].
  cbn [length chainInner]. rewrite bitsFrom_S, land_1, IH by lia. unfold chain. cbn.
  f_equal. unfold node. by destruct (Z.testbit index i).
Qed.

Lemma chainInnerRight_chain i seed proof index :
  (0 ≤ i)%Z →
  chainInnerRight i seed proof index = chainLeft seed (zip (bitsFrom i index (length proof)) proof).
Proof.
  revert i seed. induction proof as [|h proof IH]; intros i seed Hi; [done|].
  cbn [length chainInnerRight]. rewrite bitsFrom_S, land_1, IH by lia. unfold chainLeft. cbn.
  f_equal. by destruct (Z.testbit index i).
Qed.

Lemma chainBorderRight_chain seed proof :
  chainBorderRight seed proof = chain seed (zip (replicate (length proof) true) proof) ∧
  chainBorderRight seed proof = chainLeft seed (zip (replicate (length proof) true) proof).
Proof. revert seed. induction proof as [|h proof IH]; intros seed; [done|]. apply IH. Qed.

(** *** Sides of paths in trees *)

Lemma bits_bitsFrom index n : bits index n = bitsFrom 0 index n.
Proof. done. Qed.

Lemma length_bits index n : length (bits index n) = n.
Proof. unfold bits. by rewrite length_fmap, length_seq. Qed.

Lemma bits_S index n : bits index (S n) = bits index n ++ [Z.testbit index (Z.of_nat n)].
Proof. unfold bits. by rewrite seq_S, fmap_app. Qed.

Lemma bits_ext a b n :
  (∀ i, (0 ≤ i < Z.of_nat n)%Z → Z.testbit a i = Z.testbit b i) → bits a n = bits b n.
Proof.
  intros H. unfold bits. apply list_fmap_ext. intros i x Hx. apply lookup_seq in Hx. apply H. lia.
Qed.

Lemma bits_ones a k n :
  k ≤ n → (∀ i, (Z.of_nat k ≤ i < Z.of_nat n)%Z → Z.testbit a i = true) →
  bits a n = bits a k ++ replicate (n - k) true.
Proof.
  intros Hk. induction n as [|n IH]; intros H.
  - replace k with 0 by lia. done.
  - destruct (decide (k = S n)) as [->|Hne]; [by rewrite Nat.sub_diag, app_nil_r|].
    rewrite bits_S, IH by (lia || (intros; apply H; lia)). rewrite H by lia.
    replace (S n - k) with (S (n - k)) by lia. rewrite replicate_S_end. by rewrite app_assoc.
Qed.

(** A number below 2^(m+1) that is not below 2^m. *)
Lemma top_bit m a : (0 ≤ m)%Z → (0 ≤ a < 2 ^ m)%Z → (2 ^ m + a)%Z = Z.lxor (2 ^ m) a.
Proof.
  intros Hm Ha. apply Z.add_nocarry_lxor. apply Z.bits_inj'. intros i Hi.
  rewrite Z.land_spec, Z.bits_0, Z.pow2_bits_eqb by lia.
  destruct (Z.eqb_spec m i) as [->|]; [|done]. simpl.
  destruct (decide (a = 0)%Z) as [->|]; [apply Z.bits_0|].
  apply Z.bits_above_log2; [lia|]. apply Z.log2_lt_pow2; lia.
Qed.

Lemma top_bit_testbit m a i :
  (0 ≤ m)%Z → (0 ≤ a < 2 ^ m)%Z → (0 ≤ i)%Z →
  Z.testbit (2 ^ m + a) i = xorb (m =? i)%Z (Z.testbit a i).
Proof. intros. rewrite top_bit by done. by rewrite Z.lxor_spec, Z.pow2_bits_eqb by lia. Qed.

Lemma testbit_small a m i : (0 ≤ a < 2 ^ m)%Z → (0 ≤ m ≤ i)%Z → Z.testbit a i = false.
Proof.
  intros Ha Hi. destruct (decide (a = 0)%Z) as [->|]; [apply Z.bits_0|].
  apply Z.bits_above_log2; [lia|]. apply Z.log2_lt_pow2; [lia|].
  assert (2 ^ m ≤ 2 ^ i)%Z by (apply Z.pow_le_mono_r; lia). lia.
Qed.

Lemma OnesCount64_0 : OnesCount64 0 = 0.
Proof. done. Qed.

Lemma OnesCount64_top m a :
  (0 ≤ m < 64)%Z → (0 ≤ a < 2 ^ m)%Z → OnesCount64 (2 ^ m + a) = S (OnesCount64 a).
Proof.
  intros Hm Ha. unfold OnesCount64.
  assert (filter (λ i, Z.testbit (2 ^ m + a) i = true) (seqZ 0 64) ≡ₚ
    m :: filter (λ i, Z.testbit a i = true) (seqZ 0 64)) as ->; [|done].
  apply NoDup_Permutation.
  - apply NoDup_filter, NoDup_seqZ.
  - constructor; [|apply NoDup_filter, NoDup_seqZ]. rewrite list_elem_of_filter.
    rewrite (testbit_small a m m) by lia. by intros [].
  - intros i. rewrite elem_of_cons, !list_elem_of_filter, elem_of_seqZ. split.
    + intros [Hb Hi]. rewrite top_bit_testbit in Hb by lia.
      destruct (Z.eqb_spec m i); [by left|]. right. by destruct (Z.testbit a i).
    + intros [->|[Hb Hi]]; (split; [|lia]); rewrite top_bit_testbit by lia.
      * by rewrite Z.eqb_refl, (testbit_small a m m) by lia.
      * destruct (Z.eqb_spec m i) as [->|]; [|by rewrite Hb].
        by rewrite (testbit_small a i i) in Hb by lia.
Qed.

Lemma shiftr_top m a k :
  (0 ≤ k ≤ m)%Z → (0 ≤ a < 2 ^ m)%Z →
  ((2 ^ m + a) ≫ k = 2 ^ (m - k) + a ≫ k)%Z ∧ (0 ≤ a ≫ k < 2 ^ (m - k))%Z.
Proof.
  intros Hk Ha. rewrite !Z.shiftr_div_pow2 by lia.
  assert (2 ^ m = 2 ^ (m - k) * 2 ^ k)%Z as E by (rewrite <-Z.pow_add_r by lia; f_equal; lia).
  assert (0 < 2 ^ k)%Z by (apply Z.pow_pos_nonneg; lia). rewrite E. split.
  - rewrite Z.add_comm, Z.div_add by lia. lia.
  - split; [apply Z.div_pos; lia|]. apply Z.div_lt_upper_bound; lia.
Qed.

Lemma OnesCount64_ones j : j ≤ 64 → OnesCount64 (Z.ones (Z.of_nat j)) = j.
Proof.
  induction j as [|j IH]; intros Hj; [done|].
  replace (Z.ones (Z.of_nat (S j))) with (2 ^ Z.of_nat j + Z.ones (Z.of_nat j))%Z.
  - rewrite OnesCount64_top; [by rewrite IH by lia|lia|]. rewrite Z.ones_equiv.
    pose proof (Z.pow_pos_nonneg 2 (Z.of_nat j)). lia.
  - rewrite !Z.ones_equiv, Nat2Z.inj_succ, Z.pow_succ_r by lia. lia.
Qed.

Lemma wrapU64_small z : (0 ≤ z < 2 ^ 64)%Z → wrapU64 z = z.
Proof. intros. unfold wrapU64. by rewrite Z.mod_small. Qed.

Lemma lxor_range a b m : (0 ≤ m)%Z → (0 ≤ a < 2 ^ m)%Z → (0 ≤ b < 2 ^ m)%Z → (0 ≤ Z.lxor a b < 2 ^ m)%Z.
Proof.
  intros Hm Ha Hb. assert (0 ≤ Z.lxor a b)%Z as H0 by (apply Z.lxor_nonneg; lia). split; [done|].
  destruct (decide (Z.lxor a b = 0)%Z) as [->|Hne]; [lia|]. apply Z.log2_lt_pow2; [lia|].
  destruct (decide (m ≤ Z.log2 (Z.lxor a b))%Z) as [Hle|]; [|lia].
  pose proof (Z.bit_log2 (Z.lxor a b) ltac:(lia)) as Hbit.
  rewrite Z.lxor_spec, !(testbit_small _ m) in Hbit by lia. done.
Qed.

Lemma Len64_bound x : (0 ≤ x)%Z → (0 ≤ Len64 x)%Z ∧ (x < 2 ^ Len64 x)%Z.
Proof.
  intros Hx. assert (0 ≤ Len64 x)%Z as H0.
  { unfold Len64. case_match; [done|]. pose proof (Z.log2_nonneg x). lia. }
  split; [done|]. by apply Len64_le.
Qed.

Lemma innerProofSize_small index size :
  (0 ≤ index < size)%Z → (size ≤ 2 ^ 63)%Z →
  innerProofSize index size = Len64 (Z.lxor index (size - 1)).
Proof.
  intros Hi Hs. unfold innerProofSize. rewrite wrapU64_small; [done|].
  pose proof (lxor_range index (size - 1) 63). lia.
Qed.

Lemma sides_one : sides 0 1 = [].
Proof. done. Qed.

Lemma sides_perfect m index :
  (0 ≤ m ≤ 62)%Z → (0 ≤ index < 2 ^ m)%Z → sides index (2 ^ m) = bits index (Z.to_nat m).
Proof.
  intros Hm Hi. assert (2 ^ m ≤ 2 ^ 62)%Z by (apply Z.pow_le_mono_r; lia).
  unfold sides, decompInclProof. rewrite innerProofSize_small, (wrapU64_small index) by lia.
  set (x := Z.lxor index (2 ^ m - 1)). assert (0 ≤ x < 2 ^ m)%Z as Hx by (apply lxor_range; lia).
  destruct (Len64_bound x) as [H0 H1]; [lia|].
  assert (Len64 x ≤ m)%Z as Hle by (apply Len64_le; lia).
  assert (∀ i, (Len64 x ≤ i < m)%Z → Z.testbit index i = true) as Hones.
  { intros i Hi'. assert (Z.testbit x i = false) as E by (apply (testbit_small x (Len64 x)); lia).
    unfold x in E. rewrite Z.lxor_spec in E.
    replace (2 ^ m - 1)%Z with (Z.ones m) in E by (rewrite Z.ones_equiv; lia).
    rewrite Z.testbit_ones_nonneg, (proj2 (Z.ltb_lt _ _)) in E by lia.
    by destruct (Z.testbit index i). }
  assert (index ≫ Len64 x = Z.ones (m - Len64 x))%Z as ->.
  { apply Z.bits_inj'. intros i Hi'. rewrite Z.shiftr_spec, Z.testbit_ones_nonneg by lia.
    destruct (Z.ltb_spec i (m - Len64 x)); [apply Hones; lia|]. apply (testbit_small index m); lia. }
  replace (m - Len64 x)%Z with (Z.of_nat (Z.to_nat (m - Len64 x))) by lia.
  rewrite OnesCount64_ones, Nat2Z.id by lia.
  rewrite (bits_ones index (Z.to_nat (Len64 x)) (Z.to_nat m)); [f_equal; f_equal; lia|lia|].
  intros i Hi'. apply Hones. lia.
Qed.

Lemma sides_left m index size :
  (0 ≤ m ≤ 62)%Z → (0 ≤ index < 2 ^ m)%Z → (2 ^ m < size ≤ 2 ^ (m + 1))%Z →
  sides index size = sides index (2 ^ m) ++ [false].
Proof.
  intros Hm Hi Hs. rewrite sides_perfect by done.
  assert (2 ^ (m + 1) ≤ 2 ^ 63)%Z by (apply Z.pow_le_mono_r; lia).
  assert (2 ^ (m + 1) = 2 * 2 ^ m)%Z as E by (rewrite Z.pow_add_r by lia; lia).
  unfold sides, decompInclProof. rewrite innerProofSize_small, (wrapU64_small index) by lia.
  assert (Len64 (Z.lxor index (size - 1)) = m + 1)%Z as ->.
  { pose proof (lxor_range index (size - 1) (m + 1)) as Hx. apply Z.le_antisymm.
    - apply Len64_le; lia.
    - destruct (decide (m + 1 ≤ Len64 (Z.lxor index (size - 1)))%Z); [done|].
      assert (Z.lxor index (size - 1) < 2 ^ m)%Z as Hlt by (apply Len64_le; lia).
      assert (Z.testbit (Z.lxor index (size - 1)) m = false) as Hb by (apply (testbit_small _ m); lia).
      rewrite Z.lxor_spec, (testbit_small index m) in Hb by lia.
      replace (size - 1)%Z with (2 ^ m + (size - 1 - 2 ^ m))%Z in Hb by lia.
      rewrite top_bit_testbit, Z.eqb_refl, (testbit_small _ m) in Hb by lia. done. }
  replace (index ≫ (m + 1))%Z with 0%Z.
  - rewrite Z2Nat.inj_add by lia. change (Z.to_nat 1) with 1. rewrite Nat.add_1_r, bits_S, app_nil_r.
    rewrite (testbit_small index m); [done|lia|lia].
  - rewrite Z.shiftr_div_pow2 by lia. rewrite Z.div_small; lia.
Qed.

Lemma sides_right m index size :
  (0 ≤ m ≤ 62)%Z → (0 ≤ index < size)%Z → (size ≤ 2 ^ m)%Z →
  sides (2 ^ m + index) (2 ^ m + size) = sides index size ++ [true].
Proof.
  intros Hm Hi Hs. assert (2 ^ m ≤ 2 ^ 62)%Z by (apply Z.pow_le_mono_r; lia).
  unfold sides, decompInclProof.
  rewrite !innerProofSize_small, !wrapU64_small by lia.
  replace (2 ^ m + size - 1)%Z with (2 ^ m + (size - 1))%Z by lia.
  rewrite (top_bit m index), (top_bit m (size - 1)) by lia.
  replace (Z.lxor (Z.lxor (2 ^ m) index) (Z.lxor (2 ^ m) (size - 1))) with (Z.lxor index (size - 1)).
  2:{ rewrite (Z.lxor_comm (2 ^ m) index), Z.lxor_assoc, <-(Z.lxor_assoc (2 ^ m) (2 ^ m)).
      by rewrite Z.lxor_nilpotent, Z.lxor_0_l. }
  rewrite <-(top_bit m index) by lia.
  pose proof (lxor_range index (size - 1) m) as Hx.
  destruct (Len64_bound (Z.lxor index (size - 1))) as [H0 H1]; [lia|].
  assert (Len64 (Z.lxor index (size - 1)) ≤ m)%Z as Hle by (apply Len64_le; lia).
  set (k := Len64 (Z.lxor index (size - 1))) in *.
  destruct (shiftr_top m index k) as [-> Hr]; [lia|lia|].
  rewrite OnesCount64_top by lia. rewrite !Nat2Z.id, replicate_S_end, app_assoc. f_equal. f_equal.
  apply bits_ext. intros i Hi'. rewrite top_bit_testbit by lia.
  rewrite (proj2 (Z.eqb_neq _ _)) by lia. by destruct (Z.testbit index i).
Qed.

(** *** Chains in Merkle trees *)

Lemma length_sides index size :
  (0 ≤ index < size)%Z → (size ≤ 2 ^ 63)%Z →
  let '(inner, border) := decompInclProof index size in
  (0 ≤ inner)%Z ∧ (0 ≤ border)%Z ∧ Z.of_nat (length (sides index size)) = (inner + border)%Z.
Proof.
  intros Hi Hs. unfold sides, decompInclProof. rewrite innerProofSize_small by done.
  pose proof (lxor_range index (size - 1) 63) as Hx.
  destruct (Len64_bound (Z.lxor index (size - 1))) as [H0 _]; [lia|].
  split; [done|]. split; [lia|]. rewrite length_app, length_bits, length_replicate. lia.
Qed.

Lemma chain_split (f : slice → list (bool * slice) → slice) bs n seed proof :
  (∀ s p q, f s (p ++ q) = f (f s p) q) →
  length proof = length bs → n ≤ length bs →
  f (f seed (zip (take n bs) (take n proof))) (zip (drop n bs) (drop n proof)) = f seed (zip bs proof).
Proof.
  intros Hf Hl Hn. rewrite <-Hf. f_equal. rewrite <-zip_with_app.
  - by rewrite !take_drop.
  - rewrite !length_take. lia.
Qed.

(** The loops, over the whole proof. *)
Lemma loops_sides (f : slice → list (bool * slice) → slice) (inner : slice → list slice → slice)
    index size seed proof :
  (∀ s p q, f s (p ++ q) = f (f s p) q) →
  (∀ s p, inner s p = f s (zip (bits index (length p)) p)) →
  (∀ s p, chainBorderRight s p = f s (zip (replicate (length p) true) p)) →
  (0 ≤ index < size)%Z → (size ≤ 2 ^ 63)%Z → length proof = length (sides index size) →
  let n := Z.to_nat (decompInclProof index size).1 in
  chainBorderRight (inner seed (take n proof)) (drop n proof) = f seed (zip (sides index size) proof).
Proof.
  intros Hf Hin Hbo Hi Hs Hl n. pose proof (length_sides index size Hi Hs) as Hlen.
  destruct (decompInclProof index size) as [k border] eqn:E. destruct Hlen as (H1 & H2 & H3).
  cbn [fst] in n. assert (n ≤ length (sides index size)) as Hn by lia.
  rewrite <-(chain_split f (sides index size) n seed proof Hf) by done.
  rewrite Hbo, Hin, length_take, length_drop, Nat.min_l by lia.
  unfold sides in *. rewrite E in *. fold n in Hl, H3 |- *. rewrite length_app, length_bits, length_replicate in *.
  rewrite take_app_length', drop_app_length' by (by rewrite length_bits).
  repeat f_equal. lia.
Qed.

Lemma chain_sides index size seed proof :
  (0 ≤ index < size)%Z → (size ≤ 2 ^ 63)%Z → length proof = length (sides index size) →
  let n := Z.to_nat (decompInclProof index size).1 in
  chainBorderRight (chainInner 0 seed (take n proof) index) (drop n proof) =
  chain seed (zip (sides index size) proof).
Proof.
  intros. apply (loops_sides chain (λ s p, chainInner 0 s p index)); try done.
  - intros. apply chain_app.
  - intros. by rewrite chainInner_chain.
  - intros. apply chainBorderRight_chain.
Qed.

Lemma chainLeft_sides index size seed proof :
  (0 ≤ index < size)%Z → (size ≤ 2 ^ 63)%Z → length proof = length (sides index size) →
  let n := Z.to_nat (decompInclProof index size).1 in
  chainBorderRight (chainInnerRight 0 seed (take n proof) index) (drop n proof) =
  chainLeft seed (zip (sides index size) proof).
Proof.
  intros. apply (loops_sides chainLeft (λ s p, chainInnerRight 0 s p index)); try done.
  - intros. apply chainLeft_app.
  - intros. by rewrite chainInnerRight_chain.
  - intros. apply chainBorderRight_chain.
Qed.

Lemma RootFromInclusionProof_chain index size proof h :
  (0 ≤ index < size)%Z → (size ≤ 2 ^ 63)%Z →
  RootFromInclusionProof index size proof h =
    if negb (length (sl h) =? hashSize)%nat then Err (Errorf "leafHash has unexpected size %d, want %d")
    else if negb (length proof =? length (sides index size))%nat
    then Err (Errorf "wrong proof size %d, want %d")
    else Ok (chain h (zip (sides index size) proof)).
Proof.
  intros Hi Hs. unfold RootFromInclusionProof. rewrite !(proj2 (Z.ltb_ge _ _)) by lia.
  rewrite (proj2 (Z.leb_gt _ _)) by lia. destruct (length (sl h) =? hashSize)%nat; [|done]. cbn [negb].
  pose proof (length_sides index size Hi Hs) as Hlen. pose proof (chain_sides index size h proof Hi Hs) as Hc.
  destruct (decompInclProof index size) as [inner border]. destruct Hlen as (H1 & H2 & H3).
  destruct (Nat.eqb_spec (length proof) (length (sides index size))) as [E|E]; cbn [negb].
  - rewrite (proj2 (Z.eqb_eq _ _)) by lia. cbn [negb]. by rewrite <-Hc.
  - by rewrite (proj2 (Z.eqb_neq _ _)) by lia.
Qed.

Lemma MTH_node l :
  2 ≤ length l →
  MTH Sum256 l = HashChildren Sum256 (Some (MTH Sum256 (take (split_point (length l)) l)))
                   (Some (MTH Sum256 (drop (split_point (length l)) l))).
Proof. intros. rewrite MTH_split by done. by unfold HashChildren, hashDomain. Qed.

(** *** Collisions

    SHA-256 has collisions, as every function to short strings does; what a
    check relies on is that nobody finds one.  So the properties say which
    strings collide: one that the check hashes, the other one that is hashed
    for the tree. *)

Definition nodeInput (right : bool) (seed h : slice) : bytes :=
  Byte.x01 :: if right then sl h ++ sl seed else sl seed ++ sl h.

Lemma node_input right seed h : node right seed h = Some (Sum256 (nodeInput right seed h)).
Proof. by destruct right. Qed.

(** The strings hashed along a path. *)
Fixpoint inputs (seed : slice) (path : list (bool * slice)) : list bytes :=
  match path with
  | [] => []
  | p :: rest => nodeInput p.1 seed p.2 :: inputs (node p.1 seed p.2) rest
  end.

(** The strings hashed for the inner nodes of a tree. *)
Inductive treeInput (l : list bytes) : bytes → Prop :=
  | root_input :
      2 ≤ length l →
      treeInput l (nodeInput false (Some (MTH Sum256 (take (split_point (length l)) l)))
                     (Some (MTH Sum256 (drop (split_point (length l)) l))))
  | left_input x : 2 ≤ length l → treeInput (take (split_point (length l)) l) x → treeInput l x
  | right_input x : 2 ≤ length l → treeInput (drop (split_point (length l)) l) x → treeInput l x.

Definition collision (l : list bytes) (xs : list bytes) : Prop :=
  ∃ x y, x ∈ xs ∧ treeInput l y ∧ x ≠ y ∧ Sum256 x = Sum256 y.

Lemma collision_weaken l l' xs xs' :
  (∀ y, treeInput l y → treeInput l' y) → xs ⊆ xs' → collision l xs → collision l' xs'.
Proof. intros Hl Hx (x & y & ? & ? & ? & ?). exists x, y. auto. Qed.

Lemma inputs_app seed p q : inputs seed (p ++ q) = inputs seed p ++ inputs (chain seed p) q.
Proof.
  revert seed. induction p as [|[b h] p IH]; intros seed; [done|]. cbn [app inputs]. by rewrite IH.
Qed.

Lemma inputs_last seed bs b p x :
  length p = length bs →
  inputs seed (zip (bs ++ [b]) (p ++ [x])) =
  inputs seed (zip bs p) ++ [nodeInput b (chain seed (zip bs p)) x].
Proof. intros Hl. rewrite zip_with_app by done. by rewrite inputs_app. Qed.

Context (Hsize : ∀ b, length (Sum256 b) = hashSize).

Lemma length_MTH l : Forall (λ h, length h = hashSize) l → 1 ≤ length l → length (MTH Sum256 l) = hashSize.
Proof.
  intros Hl H1. destruct (decide (2 ≤ length l)).
  - rewrite MTH_node by done. apply Hsize.
  - destruct l as [|h [|]]; simpl in *; try lia. rewrite MTH_one. by inversion Hl.
Qed.

Lemma length_chain seed path : length (sl seed) = hashSize → length (sl (chain seed path)) = hashSize.
Proof.
  intros Hs. induction path as [|[b h] path IH] using rev_ind; [done|].
  rewrite chain_app. unfold chain at 1, node. cbn. destruct b; apply Hsize.
Qed.

(** The top of a tree: the split, and the sides of the two halves. *)
Lemma split_sides (n : nat) index :
  2 ≤ n → (Z.of_nat n ≤ 2 ^ 63)%Z → (0 ≤ index < Z.of_nat n)%Z →
  let k := split_point n in
  1 ≤ k < n ∧ n ≤ 2 * k ∧ (∃ m, 0 ≤ m ≤ 62 ∧ Z.of_nat k = 2 ^ m)%Z ∧
  if (index <? Z.of_nat k)%Z
  then sides index (Z.of_nat n) = sides index (Z.of_nat k) ++ [false]
  else sides index (Z.of_nat n) = sides (index - Z.of_nat k) (Z.of_nat (n - k)) ++ [true].
Proof.
  intros Hn Hmax Hi k. pose proof (split_point_bounds n Hn) as Hk. fold k in Hk.
  set (m := Nat.log2 (n - 1)). assert (k = 2 ^ m)%nat as Ek by done.
  pose proof (Nat.log2_spec (n - 1) ltac:(lia)) as [Hm1 Hm2]. fold m in Hm1, Hm2. rewrite Nat.pow_succ_r' in Hm2.
  assert (Z.of_nat k = 2 ^ Z.of_nat m)%Z as Ez by (rewrite Ek, Nat2Z.inj_pow; done).
  assert (Z.of_nat m ≤ 62)%Z as Hm.
  { apply Z.lt_succ_r. apply (Z.pow_lt_mono_r_iff 2); [lia..|]. change (Z.succ 62) with 63%Z. lia. }
  split; [done|]. split; [lia|]. split; [exists (Z.of_nat m); lia|]. rewrite Ez.
  destruct (Z.ltb_spec index (2 ^ Z.of_nat m)) as [Hlt|Hge].
  - apply sides_left; [lia|lia|]. rewrite Z.pow_add_r by lia. lia.
  - replace index with (2 ^ Z.of_nat m + (index - 2 ^ Z.of_nat m))%Z at 1 by lia.
    replace (Z.of_nat n) with (2 ^ Z.of_nat m + Z.of_nat (n - k))%Z by lia.
    apply sides_right; lia.
Qed.

(** A proof for the whole tree is one for a half, and the hash of the other. *)
Lemma proof_last {A} (proof : list A) (bs : list bool) b :
  length proof = length (bs ++ [b]) → ∃ p x, proof = p ++ [x] ∧ length p = length bs.
Proof.
  rewrite length_app. destruct proof as [|x p _] using rev_ind; simpl; [lia|].
  rewrite length_app. simpl. intros. exists p, x. split; [done|]. lia.
Qed.

Lemma chain_last seed bs b p x :
  length p = length bs →
  chain seed (zip (bs ++ [b]) (p ++ [x])) = node b (chain seed (zip bs p)) x.
Proof. intros Hl. rewrite zip_with_app by done. by rewrite chain_app. Qed.

Lemma chainLeft_last seed bs b p x :
  length p = length bs →
  chainLeft seed (zip (bs ++ [b]) (p ++ [x])) =
  if b then node true (chainLeft seed (zip bs p)) x else chainLeft seed (zip bs p).
Proof. intros Hl. rewrite zip_with_app by done. by rewrite chainLeft_app. Qed.

Abbreviation sized l := (Forall (λ h : bytes, length h = hashSize) l).

Lemma halves_sized l k : sized l → sized (take k l) ∧ sized (drop k l).
Proof. split; [by apply Forall_take|by apply Forall_drop]. Qed.

(** A node with the hash of a root has the children of the root. *)
Lemma node_root l right seed h :
  2 ≤ length l → sized l → length (sl seed) = hashSize →
  sl (node right seed h) = MTH Sum256 l →
  let k := split_point (length l) in
  (if right then sl h = MTH Sum256 (take k l) ∧ sl seed = MTH Sum256 (drop k l)
   else sl seed = MTH Sum256 (take k l) ∧ sl h = MTH Sum256 (drop k l)) ∨
  collision l [nodeInput right seed h].
Proof.
  intros H2 Hl Hs Hr k. pose proof (split_point_bounds (length l) H2) as Hk. fold k in Hk.
  destruct (halves_sized l k Hl) as [Hl1 Hl2].
  assert (length (MTH Sum256 (take k l)) = hashSize) by (apply length_MTH; [done|rewrite length_take; lia]).
  assert (length (MTH Sum256 (drop k l)) = hashSize) by (apply length_MTH; [done|rewrite length_drop; lia]).
  set (y := nodeInput false (Some (MTH Sum256 (take k l))) (Some (MTH Sum256 (drop k l)))).
  assert (Sum256 (nodeInput right seed h) = Sum256 y) as E.
  { rewrite node_input in Hr. transitivity (MTH Sum256 l); [done|]. by rewrite MTH_node. }
  destruct (decide (nodeInput right seed h = y)) as [Eq|Hne].
  - left. unfold y, nodeInput in Eq. apply (inj (cons _)) in Eq. cbn in Eq.
    destruct right; [apply app_inj_2 in Eq|apply app_inj_1 in Eq]; cbn; try done; congruence.
  - right. exists (nodeInput right seed h), y.
    split; [by left|]. split; [by apply root_input|done].
Qed.

(** A chain that ends in the root of a tree started at a leaf of it. *)
Lemma inclusion_chain l index h proof :
  sized l → (0 ≤ index < Z.of_nat (length l))%Z → (Z.of_nat (length l) ≤ 2 ^ 63)%Z →
  length (sl h) = hashSize → length proof = length (sides index (Z.of_nat (length l))) →
  let path := zip (sides index (Z.of_nat (length l))) proof in
  sl (chain h path) = MTH Sum256 l →
  l !! Z.to_nat index = Some (sl h) ∨ collision l (inputs h path).
Proof.
  remember (length l) as n eqn:En. revert l En index proof.
  induction n as [n IH] using lt_wf_ind. intros l -> index proof Hl Hi Hmax Hh Hp path Hc. unfold path in *.
  destruct (decide (2 ≤ length l)) as [H2|H1].
  2:{ destruct l as [|a [|]]; simpl in *; try lia. left. replace index with 0%Z in * by lia.
      destruct proof; [|done]. rewrite MTH_one in Hc. by rewrite <-Hc. }
  destruct (split_sides (length l) index H2 Hmax Hi) as (Hk & _ & _ & Hsides).
  set (k := split_point (length l)) in *. destruct (halves_sized l k Hl) as [Hl1 Hl2].
  assert (length (take k l) = k) as Ek by (rewrite length_take; lia).
  assert (length (drop k l) = length l - k) as Ek' by (rewrite length_drop; lia).
  destruct (Z.ltb_spec index (Z.of_nat k)) as [Hlt|Hge]; rewrite Hsides in Hp, Hc |- *;
    destruct (proof_last _ _ _ Hp) as (p & x & -> & Hp'); rewrite chain_last in Hc by done;
    rewrite inputs_last by done; apply node_root in Hc as [[Hc1 Hc2]|Hc]; try done;
    try (by apply length_chain); try (right; eapply collision_weaken, Hc; set_solver).
  - destruct (IH k ltac:(lia) (take k l) (eq_sym Ek) index p) as [Hin|Hin]; try done; [lia|lia| |].
    + left. by rewrite lookup_take_lt in Hin by lia.
    + right. eapply collision_weaken, Hin; [intros y; by apply left_input|set_solver].
  - destruct (IH (length l - k) ltac:(lia) (drop k l) (eq_sym Ek') (index - Z.of_nat k)%Z p) as [Hin|Hin];
      try done; [lia|lia| |].
    + left. rewrite lookup_drop in Hin. rewrite <-Hin. f_equal. lia.
    + right. eapply collision_weaken, Hin; [intros y; by apply right_input|set_solver].
Qed.

(** *** Extensions *)

Lemma trailing_spec n i x :
  (trailing n i x = 64 ∧ ∀ j, i ≤ j < i + Z.of_nat n → Z.testbit x j = false)%Z ∨
  (i ≤ trailing n i x < i + Z.of_nat n ∧ Z.testbit x (trailing n i x) = true ∧
   ∀ j, i ≤ j < trailing n i x → Z.testbit x j = false)%Z.
Proof.
  revert i. induction n as [|n IH]; intros i; cbn [trailing]; [left; split; [done|lia]|].
  destruct (Z.testbit x i) eqn:Eb.
  { right. split; [lia|]. split; [done|lia]. }
  destruct (IH (i + 1)%Z) as [[H1 H2]|(H1 & H2 & H3)]; [left|right].
  - split; [done|]. intros j Hj. destruct (decide (j = i)) as [->|]; [done|]. apply H2. lia.
  - split; [lia|]. split; [done|]. intros j Hj. destruct (decide (j = i)) as [->|]; [done|].
    apply H3. lia.
Qed.

Lemma TrailingZeros64_unique x t :
  (0 ≤ t < 64)%Z → Z.testbit x t = true → (∀ j, 0 ≤ j < t → Z.testbit x j = false)%Z →
  TrailingZeros64 x = t.
Proof.
  intros Ht Hb Hz. unfold TrailingZeros64.
  destruct (trailing_spec 64 0 x) as [[_ H]|(H1 & H2 & H3)]; [by rewrite H in Hb by lia|].
  destruct (Z.lt_trichotomy (trailing 64 0 x) t) as [Hlt|[He|Hgt]]; [|done|].
  - by rewrite Hz in H2 by lia.
  - by rewrite H3 in Hb by lia.
Qed.

Lemma TrailingZeros64_pow m : (0 ≤ m < 64)%Z → TrailingZeros64 (2 ^ m) = m.
Proof.
  intros Hm. apply TrailingZeros64_unique; [lia| |]; intros; rewrite Z.pow2_bits_eqb by lia.
  - by rewrite Z.eqb_refl.
  - by apply Z.eqb_neq; lia.
Qed.

(** The lowest bit of a positive number. *)
Lemma TrailingZeros64_spec x :
  (0 < x < 2 ^ 63)%Z →
  (0 ≤ TrailingZeros64 x ≤ 62)%Z ∧ Z.testbit x (TrailingZeros64 x) = true ∧
  (∀ j, 0 ≤ j < TrailingZeros64 x → Z.testbit x j = false)%Z ∧ (2 ^ TrailingZeros64 x ≤ x)%Z.
Proof.
  intros Hx. unfold TrailingZeros64.
  destruct (trailing_spec 64 0 x) as [[_ H]|(H1 & H2 & H3)].
  { pose proof (Z.log2_lt_pow2 x 63 ltac:(lia)) as Hlog. pose proof (Z.log2_nonneg x).
    pose proof (Z.bit_log2 x ltac:(lia)) as Hb. rewrite H in Hb by lia. done. }
  assert (2 ^ trailing 64 0 x ≤ x)%Z.
  { destruct (decide (2 ^ trailing 64 0 x ≤ x)%Z); [done|].
    by rewrite (testbit_small x (trailing 64 0 x)) in H2 by lia. }
  split_and!; try done; try lia. apply Z.lt_succ_r, (Z.pow_lt_mono_r_iff 2); [lia..|].
  change (Z.succ 62) with 63%Z. lia.
Qed.

Lemma TrailingZeros64_top m a :
  (0 ≤ m ≤ 62)%Z → (0 < a < 2 ^ m)%Z → TrailingZeros64 (2 ^ m + a) = TrailingZeros64 a.
Proof.
  intros Hm Ha. assert (2 ^ m ≤ 2 ^ 62)%Z by (apply Z.pow_le_mono_r; lia).
  destruct (TrailingZeros64_spec a) as (H1 & H2 & H3 & H4); [lia|].
  assert (TrailingZeros64 a < m)%Z by (apply (Z.pow_lt_mono_r_iff 2); lia).
  apply TrailingZeros64_unique; [lia| |]; intros; rewrite top_bit_testbit by lia;
    rewrite (proj2 (Z.eqb_neq _ _)) by lia; [by rewrite H2|by rewrite H3].
Qed.

(** The sides of the node that holds the end of the smaller tree. *)
Definition extensionSides (m n : Z) : list bool :=
  drop (Z.to_nat (TrailingZeros64 m)) (sides (m - 1) n).

Lemma extensionSides_pow m : (0 ≤ m ≤ 62)%Z → extensionSides (2 ^ m) (2 ^ m) = [].
Proof.
  intros Hm. unfold extensionSides. rewrite TrailingZeros64_pow, sides_perfect by lia.
  apply drop_ge. by rewrite length_bits.
Qed.

Lemma sides_long (n m : nat) :
  (0 < m ≤ n)%nat → (Z.of_nat n < 2 ^ 63)%Z →
  Z.to_nat (TrailingZeros64 (Z.of_nat m)) ≤ length (sides (Z.of_nat m - 1) (Z.of_nat n)).
Proof.
  revert m. induction n as [n IH] using lt_wf_ind. intros m Hm Hn.
  destruct (decide (2 ≤ n)) as [H2|]; [|replace m with 1 by lia; apply Nat.le_0_l].
  destruct (split_sides n (Z.of_nat m - 1) H2) as (Hk & Hk2 & (p & Hp & Ep) & Hs); [lia..|].
  set (k := split_point n) in *.
  destruct (TrailingZeros64_spec (Z.of_nat m)) as (T1 & _ & _ & T2); [lia|].
  destruct (Z.ltb_spec (Z.of_nat m - 1) (Z.of_nat k)); rewrite Hs, length_app; cbn [length].
  - rewrite Ep, sides_perfect, length_bits by lia.
    assert (TrailingZeros64 (Z.of_nat m) ≤ p)%Z by (apply (Z.pow_le_mono_r_iff 2); lia). lia.
  - destruct (decide (m - k = k)) as [Eq|Hne].
    + replace (Z.of_nat m) with (2 ^ (p + 1))%Z by (rewrite Z.pow_add_r by lia; lia).
      rewrite TrailingZeros64_pow by lia.
      replace (2 ^ (p + 1) - 1 - Z.of_nat k)%Z with (2 ^ p - 1)%Z by (rewrite Z.pow_add_r by lia; lia).
      replace (Z.of_nat (n - k)) with (2 ^ p)%Z by lia.
      rewrite sides_perfect, length_bits by lia. lia.
    + replace (Z.of_nat m) with (2 ^ p + Z.of_nat (m - k))%Z at 1 by lia.
      rewrite TrailingZeros64_top by lia.
      replace (Z.of_nat m - 1 - Z.of_nat k)%Z with (Z.of_nat (m - k) - 1)%Z by lia.
      pose proof (IH (n - k) ltac:(lia) (m - k) ltac:(lia) ltac:(lia)). lia.
Qed.

(** Below the split of the larger tree, and behind it. *)
Lemma extensionSides_left (m n : nat) :
  (0 < m < n)%nat → (Z.of_nat n < 2 ^ 63)%Z → let k := split_point n in m ≤ k →
  extensionSides (Z.of_nat m) (Z.of_nat n) = extensionSides (Z.of_nat m) (Z.of_nat k) ++ [false].
Proof.
  intros Hm Hn k Hle. destruct (split_sides n (Z.of_nat m - 1)) as (Hk & _ & _ & Hs); [lia..|].
  fold k in Hs. rewrite (proj2 (Z.ltb_lt _ _)) in Hs by lia. unfold extensionSides. rewrite Hs.
  apply drop_app_le, sides_long; lia.
Qed.

Lemma extensionSides_right (m n : nat) :
  (0 < m < n)%nat → (Z.of_nat n < 2 ^ 63)%Z → let k := split_point n in k < m →
  extensionSides (Z.of_nat m) (Z.of_nat n) =
  extensionSides (Z.of_nat (m - k)) (Z.of_nat (n - k)) ++ [true].
Proof.
  intros Hm Hn k Hlt. destruct (split_sides n (Z.of_nat m - 1)) as (Hk & Hk2 & (p & Hp & Ep) & Hs); [lia..|].
  fold k in Hk, Hk2, Ep, Hs. rewrite (proj2 (Z.ltb_ge _ _)) in Hs by lia. unfold extensionSides. rewrite Hs.
  replace (Z.of_nat m) with (2 ^ p + Z.of_nat (m - k))%Z at 1 by lia.
  rewrite TrailingZeros64_top by lia.
  replace (Z.of_nat m - 1 - Z.of_nat k)%Z with (Z.of_nat (m - k) - 1)%Z by lia.
  apply drop_app_le, sides_long; lia.
Qed.

(** A prefix that reaches behind the split is split at the same place. *)
Lemma MTH_prefix_split l m p :
  let k := split_point (length l) in
  k = 2 ^ p → k < m ≤ length l → length l ≤ 2 * k →
  MTH Sum256 (take m l) =
  HashChildren Sum256 (Some (MTH Sum256 (take k l))) (Some (MTH Sum256 (take (m - k) (drop k l)))).
Proof.
  intros k Ek Hm Hk2. assert (0 < 2 ^ p) by (apply Nat.neq_0_lt_0, Nat.pow_nonzero; done).
  assert (length (take m l) = m) as Em by (rewrite length_take; lia).
  assert (split_point m = k) as Esp.
  { destruct (Nat.le_exists_sub k m) as (d & -> & _); [lia|]. rewrite Nat.add_comm, Ek.
    apply split_point_pow. lia. }
  rewrite MTH_node by (rewrite Em; lia). rewrite Em, Esp, take_take, Nat.min_l by lia.
  rewrite take_drop_commute. by replace (k + (m - k)) with m by lia.
Qed.

(** A chain that ends in the root of a tree, started at the node that holds the
    end of a smaller tree: chaining the left siblings gives the smaller root. *)
Lemma extension_chain l m seed proof :
  sized l → (0 < m ≤ length l)%nat → (Z.of_nat (length l) < 2 ^ 63)%Z → length (sl seed) = hashSize →
  (m = length l → extensionSides (Z.of_nat m) (Z.of_nat (length l)) = []) →
  let bs := extensionSides (Z.of_nat m) (Z.of_nat (length l)) in
  length proof = length bs → sl (chain seed (zip bs proof)) = MTH Sum256 l →
  sl (chainLeft seed (zip bs proof)) = MTH Sum256 (take m l) ∨ collision l (inputs seed (zip bs proof)).
Proof.
  remember (length l) as n eqn:En. revert l En m proof.
  induction n as [n IH] using lt_wf_ind. intros l -> m proof Hl Hm Hmax Hs Hend bs Hp Hc.
  destruct (decide (m = length l)) as [E|Hne].
  { unfold bs in *. rewrite (Hend E) in *. destruct proof; [|done]. left. rewrite take_ge by lia. done. }
  destruct (split_sides (length l) (Z.of_nat m - 1)) as (Hk & Hk2 & (p & Hp62 & Ep) & _); [lia..|].
  destruct (halves_sized l (split_point (length l)) Hl) as [Hl1 Hl2].
  unfold bs in *. set (k := split_point (length l)) in *.
  assert (length (take k l) = k) as Ek by (rewrite length_take; lia).
  assert (length (drop k l) = length l - k) as Ek' by (rewrite length_drop; lia).
  destruct (decide (m ≤ k)) as [Hle|Hgt].
  - rewrite extensionSides_left in * by lia. fold k in Hp, Hc |- *.
    destruct (proof_last _ _ _ Hp) as (q & x & -> & Hq). rewrite chain_last in Hc by done.
    rewrite chainLeft_last, inputs_last by done.
    apply node_root in Hc as [[Hc _]|Hc]; try done; [|right; eapply collision_weaken, Hc; set_solver|
      lia|by apply length_chain].
    destruct (IH k ltac:(lia) (take k l) (eq_sym Ek) m q) as [Hin|Hin]; try done; [lia|lia| | |].
    + intros ->. rewrite Ep. by apply extensionSides_pow.
    + left. rewrite Hin, take_take. by rewrite Nat.min_l by lia.
    + right. eapply collision_weaken, Hin; [intros y; apply left_input; lia|set_solver].
  - rewrite extensionSides_right in * by lia. fold k in Hp, Hc |- *.
    destruct (proof_last _ _ _ Hp) as (q & x & -> & Hq). rewrite chain_last in Hc by done.
    rewrite chainLeft_last, inputs_last by done.
    apply node_root in Hc as [[Hx Hc]|Hc]; try done; [|right; eapply collision_weaken, Hc; set_solver|
      lia|by apply length_chain].
    destruct (IH (length l - k) ltac:(lia) (drop k l) (eq_sym Ek') (m - k) q) as [Hin|Hin];
      try done; [lia|lia|lia| |].
    + assert (k = 2 ^ Z.to_nat p) as Ekp by (apply Nat2Z.inj; rewrite Nat2Z.inj_pow, Z2Nat.id; lia).
      left. rewrite (MTH_prefix_split l m (Z.to_nat p)); [|done|fold k; lia|fold k; lia].
      fold k in Hx, Hc |- *. rewrite <-Hx, <-Hin. by unfold node, HashChildren.
    + right. eapply collision_weaken, Hin; [intros y; apply right_input; lia|set_solver].
Qed.

(** The same for the whole path from the last leaf of a smaller tree. *)
Lemma prefix_chain l m h proof :
  sized l → (0 < m ≤ length l)%nat → (Z.of_nat (length l) ≤ 2 ^ 63)%Z → length (sl h) = hashSize →
  let bs := sides (Z.of_nat m - 1) (Z.of_nat (length l)) in
  length proof = length bs → sl (chain h (zip bs proof)) = MTH Sum256 l →
  sl (chainLeft h (zip bs proof)) = MTH Sum256 (take m l) ∨ collision l (inputs h (zip bs proof)).
Proof.
  remember (length l) as n eqn:En. revert l En m proof.
  induction n as [n IH] using lt_wf_ind. intros l -> m proof Hl Hm Hmax Hh bs Hp Hc. unfold bs in *.
  destruct (decide (2 ≤ length l)) as [H2|H1].
  2:{ assert (length l = 1) as E1 by lia. left. rewrite take_ge by lia. rewrite E1 in Hp, Hc |- *.
      replace m with 1 in * by lia. by destruct proof. }
  destruct (split_sides (length l) (Z.of_nat m - 1)) as (Hk & Hk2 & (p & Hp62 & Ep) & Hsides); [lia..|].
  destruct (halves_sized l (split_point (length l)) Hl) as [Hl1 Hl2]. set (k := split_point (length l)) in *.
  assert (length (take k l) = k) as Ek by (rewrite length_take; lia).
  assert (length (drop k l) = length l - k) as Ek' by (rewrite length_drop; lia).
  destruct (Z.ltb_spec (Z.of_nat m - 1) (Z.of_nat k)) as [Hlt|Hge]; rewrite Hsides in Hp, Hc |- *;
    destruct (proof_last _ _ _ Hp) as (q & x & -> & Hq); rewrite chain_last in Hc by done;
    rewrite chainLeft_last, inputs_last by done; apply node_root in Hc as [[Hx Hc]|Hc]; try done;
    try (by apply length_chain); try (right; eapply collision_weaken, Hc; set_solver).
  - destruct (IH k ltac:(lia) (take k l) (eq_sym Ek) m q) as [Hin|Hin]; try done; [lia|lia| |].
    + left. rewrite Hin, take_take. by rewrite Nat.min_l by lia.
    + right. eapply collision_weaken, Hin; [intros y; apply left_input; lia|set_solver].
  - replace (Z.of_nat m - 1 - Z.of_nat k)%Z with (Z.of_nat (m - k) - 1)%Z in * by lia.
    destruct (IH (length l - k) ltac:(lia) (drop k l) (eq_sym Ek') (m - k) q) as [Hin|Hin];
      try done; [lia|lia| |].
    + assert (k = 2 ^ Z.to_nat p) as Ekp by (apply Nat2Z.inj; rewrite Nat2Z.inj_pow, Z2Nat.id; lia).
      left. rewrite (MTH_prefix_split l m (Z.to_nat p)); [|done|fold k; lia|fold k; lia].
      fold k in Hx, Hc |- *. rewrite <-Hx, <-Hin. by unfold node, HashChildren.
    + right. eapply collision_weaken, Hin; [intros y; apply right_input; lia|set_solver].
Qed.

(** *** The consistency check, along its path *)

Lemma bits_shiftr index s n :
  (0 ≤ s)%Z → Z.to_nat s ≤ n → bits (index ≫ s) (n - Z.to_nat s) = drop (Z.to_nat s) (bits index n).
Proof.
  intros Hs Hn. unfold bits. rewrite <-fmap_drop, drop_seq. simpl. apply list_eq. intros i.
  rewrite !list_lookup_fmap. destruct (decide (i < n - Z.to_nat s)).
  - rewrite !lookup_seq_lt by lia. simpl. rewrite Z.shiftr_spec by lia. do 2 f_equal. lia.
  - by rewrite !lookup_seq_ge by lia.
Qed.

(** The node the check starts from, and the siblings of its path. *)
Definition consistencyStart (m : Z) (root1 : slice) (proof : list slice) : slice * list slice :=
  match proof with
  | first :: rest =>
      if (m =? wrap64 (1 ≪ TrailingZeros64 m))%Z then (root1, proof) else (first, rest)
  | [] => (root1, [])
  end.

(** The path from the node that both trees share starts below the place where
    they part. *)
Lemma inner_covers m n :
  (0 < m < n)%Z → (n < 2 ^ 63)%Z → (TrailingZeros64 m ≤ (decompInclProof (m - 1) n).1)%Z.
Proof.
  intros Hm Hn. unfold decompInclProof, innerProofSize. cbn [fst].
  destruct (TrailingZeros64_spec m) as (T1 & T2 & T3 & T4); [lia|]. set (t := TrailingZeros64 m) in *.
  destruct (lxor_range (m - 1) (n - 1) 63) as [X1 X2]; [lia..|].
  rewrite wrapU64_small by lia. set (x := Z.lxor (m - 1) (n - 1)) in *.
  destruct (Len64_bound x X1) as [L1 L2]. destruct (Z.le_gt_cases t (Len64 x)) as [|Hlt]; [done|exfalso].
  assert (x < 2 ^ t)%Z as Hx by (eapply Z.lt_trans; [exact L2|]; apply Z.pow_lt_mono_r; lia).
  assert ((m - 1) ≫ t = (n - 1) ≫ t)%Z as E.
  { apply Z.lxor_eq. rewrite <-Z.shiftr_lxor. fold x. rewrite Z.shiftr_div_pow2 by lia.
    apply Z.div_small. lia. }
  assert (m mod 2 ^ t = 0)%Z as Hmod.
  { apply Z.bits_inj_0. intros k. destruct (Z.lt_ge_cases k t).
    - destruct (Z.lt_ge_cases k 0); [by apply Z.testbit_neg_r|]. rewrite Z.mod_pow2_bits_low by lia. apply T3. lia.
    - apply Z.mod_pow2_bits_high. lia. }
  rewrite !Z.shiftr_div_pow2 in E by lia. assert (0 < 2 ^ t)%Z by (apply Z.pow_pos_nonneg; lia).
  pose proof (Z.div_mod m (2 ^ t) ltac:(lia)) as Dm. rewrite Hmod, Z.add_0_r in Dm.
  assert (m / 2 ^ t ≤ (n - 1) / 2 ^ t)%Z by (apply Z.div_le_mono; lia).
  assert ((m - 1) / 2 ^ t < m / 2 ^ t)%Z; [|lia]. apply Z.div_lt_upper_bound; lia.
Qed.

Lemma VerifyConsistencyProof_eq (m n : Z) root1 root2 first rest :
  (0 < m < n)%Z → (n < 2 ^ 63)%Z →
  VerifyConsistencyProof m n root1 root2 (first :: rest) =
  let '(seed, chained) := consistencyStart m root1 (first :: rest) in
  let bs := extensionSides m n in
  if negb (length chained =? length bs)%nat then Err (Errorf "wrong proof size %d, want %d")
  else if negb (bytes_Equal (chainLeft seed (zip bs chained)) root1) then Err err_mismatch
  else if negb (bytes_Equal (chain seed (zip bs chained)) root2) then Err err_mismatch else Ok ().
Proof.
  intros Hm Hn. unfold VerifyConsistencyProof.
  rewrite !(proj2 (Z.ltb_ge _ _)), !(proj2 (Z.eqb_neq _ _)) by lia.
  pose proof (length_sides (m - 1) n ltac:(lia) ltac:(lia)) as Hlen. pose proof (inner_covers m n Hm Hn) as Hcov.
  unfold extensionSides, sides in *.
  destruct (decompInclProof (m - 1) n) as [inner border]. cbn [fst] in Hcov. destruct Hlen as (H1 & H2 & _).
  rewrite wrapU64_small by lia. destruct (TrailingZeros64_spec m) as (T1 & _); [lia|].
  set (t := TrailingZeros64 m) in *.
  destruct (if (m =? wrap64 (1 ≪ t))%Z then _ else _) as [[seed start] chained] eqn:Es.
  assert (consistencyStart m root1 (first :: rest) = (seed, chained)) as ->
    by (unfold consistencyStart; fold t; case_match; congruence).
  assert ((start = 0 ∧ chained = first :: rest)%Z ∨ (start = 1 ∧ chained = rest)%Z) as Hstart
    by (case_match; naive_solver).
  clear Es.
  assert (drop (Z.to_nat t) (bits (m - 1) (Z.to_nat inner) ++ replicate (Z.to_nat border) true) =
          bits ((m - 1) ≫ t) (Z.to_nat (inner - t)) ++ replicate (Z.to_nat border) true) as ->.
  { rewrite drop_app_le by (rewrite length_bits; lia). f_equal.
    rewrite <-bits_shiftr by lia. f_equal. lia. }
  set (bs := bits ((m - 1) ≫ t) (Z.to_nat (inner - t)) ++ replicate (Z.to_nat border) true) in *.
  assert (Z.of_nat (length bs) = inner - t + border)%Z as Hbs.
  { unfold bs. rewrite length_app, length_bits, length_replicate. lia. }
  assert ((Z.of_nat (length (first :: rest)) =? start + (inner - t) + border)%Z =
    (length chained =? length bs)%nat) as ->.
  { apply eq_true_iff_eq. rewrite Z.eqb_eq, Nat.eqb_eq.
    destruct Hstart as [(-> & ->)|(-> & ->)]; simpl length in *; lia. }
  destruct (Nat.eqb_spec (length chained) (length bs)) as [Hc|]; [|done]. cbn [negb].
  destruct (Z.ltb_spec (inner - t) 0); [lia|].
  rewrite <-(chain_split chain bs (Z.to_nat (inner - t)) seed chained (λ s p q, chain_app s p q)) by lia.
  rewrite <-(chain_split chainLeft bs (Z.to_nat (inner - t)) seed chained (λ s p q, chainLeft_app s p q)) by lia.
  rewrite (proj2 (chainBorderRight_chain (chainInnerRight _ _ _ _) _)).
  rewrite (proj1 (chainBorderRight_chain (chainInner _ _ _ _) _)).
  rewrite chainInner_chain, chainInnerRight_chain by done.
  rewrite !length_take, !length_drop, <-!bits_bitsFrom, Nat.min_l by lia.
  unfold bs. rewrite take_app_length', drop_app_length' by (by rewrite length_bits).
  by replace (length chained - Z.to_nat (inner - t)) with (Z.to_nat border) by lia.
Qed.

Lemma VerifyConsistencyProof_chain (m n : Z) root1 root2 proof :
  (0 < m < n)%Z → (n < 2 ^ 63)%Z →
  VerifyConsistencyProof m n root1 root2 proof = Ok () →
  let '(seed, rest) := consistencyStart m root1 proof in
    (seed = root1 ∨ seed ∈ proof) ∧
    length rest = length (extensionSides m n) ∧
    sl (chainLeft seed (zip (extensionSides m n) rest)) = sl root1 ∧
    sl (chain seed (zip (extensionSides m n) rest)) = sl root2.
Proof.
  intros Hm Hn. destruct proof as [|first rest].
  { unfold VerifyConsistencyProof. by rewrite !(proj2 (Z.ltb_ge _ _)), !(proj2 (Z.eqb_neq _ _)) by lia. }
  rewrite VerifyConsistencyProof_eq by done.
  destruct (consistencyStart m root1 (first :: rest)) as [seed chained] eqn:Es. cbn zeta.
  destruct (Nat.eqb_spec (length chained) (length (extensionSides m n))); [|done]. cbn [negb].
  unfold bytes_Equal. case_bool_decide; [|done]. case_bool_decide; [|done]. intros _. split; [|done].
  unfold consistencyStart in Es. case_match; injection Es as <- _; [by left|right; by left].
Qed.

(** The other way round: a proof whose chains end in the two roots. *)
Lemma VerifyConsistencyProof_accepts (m n : Z) root1 root2 proof seed rest :
  (0 < m < n)%Z → (n < 2 ^ 63)%Z → proof ≠ [] → consistencyStart m root1 proof = (seed, rest) →
  length rest = length (extensionSides m n) →
  sl (chainLeft seed (zip (extensionSides m n) rest)) = sl root1 →
  sl (chain seed (zip (extensionSides m n) rest)) = sl root2 →
  VerifyConsistencyProof m n root1 root2 proof = Ok ().
Proof.
  intros Hm Hn Hp Es Hl H1 H2. destruct proof as [|p proof]; [done|].
  rewrite VerifyConsistencyProof_eq, Es by done. cbn zeta. rewrite Hl, Nat.eqb_refl. unfold bytes_Equal.
  by rewrite !bool_decide_true by done.
Qed.

(** ** Proofs of RFC 6962, section 2.1.1

    The siblings of the path from a leaf to the root, from the bottom. *)

Equations? PATH (index : nat) (l : list bytes) : list bytes by wf (length l) lt :=
  PATH index [] := [];
  PATH index [h] := [];
  PATH index (h1 :: h2 :: l) :=
    let k := split_point (length (h1 :: h2 :: l)) in
    if decide (index < k)
    then PATH index (take k (h1 :: h2 :: l)) ++ [MTH Sum256 (drop k (h1 :: h2 :: l))]
    else PATH (index - k) (drop k (h1 :: h2 :: l)) ++ [MTH Sum256 (take k (h1 :: h2 :: l))].
Proof.
  all: pose proof (split_point_bounds (S (S (length l)))); rewrite ?length_take, ?length_drop;
    cbn [length] in *; lia.
Qed.

Lemma PATH_split index l :
  2 ≤ length l →
  let k := split_point (length l) in
  PATH index l =
    if decide (index < k) then PATH index (take k l) ++ [MTH Sum256 (drop k l)]
    else PATH (index - k) (drop k l) ++ [MTH Sum256 (take k l)].
Proof. destruct l as [|h1 [|h2 l]]; simpl length; try lia. intros _. by simp PATH. Qed.

Lemma PATH_chain l index h :
  l !! index = Some h → (Z.of_nat (length l) ≤ 2 ^ 63)%Z →
  let bs := sides (Z.of_nat index) (Z.of_nat (length l)) in
  length (PATH index l) = length bs ∧
  sl (chain (Some h) (zip bs (Some <$> PATH index l))) = MTH Sum256 l.
Proof.
  remember (length l) as n eqn:En. revert l En index h.
  induction n as [n IH] using lt_wf_ind. intros l -> index h Hh Hmax.
  pose proof (lookup_lt_Some _ _ _ Hh) as Hlt.
  destruct (decide (2 ≤ length l)) as [H2|].
  2:{ destruct l as [|a [|]]; simpl in *; try lia. destruct index; [|lia]. injection Hh as ->.
      simp PATH. by rewrite MTH_one. }
  destruct (split_sides (length l) (Z.of_nat index)) as (Hk & _ & _ & Hs); [lia..|].
  rewrite PATH_split, (MTH_node l) by done. set (k := split_point (length l)) in *.
  case_decide as Hd.
  - rewrite (proj2 (Z.ltb_lt _ _)) in Hs by lia. cbn zeta. rewrite Hs, fmap_app, fmap_cons, fmap_nil.
    assert (length (take k l) = k) as Ek by (rewrite length_take; lia).
    destruct (IH k ltac:(lia) (take k l) (eq_sym Ek) index h) as [IH1 IH2];
      [by rewrite lookup_take_lt|lia|].
    split; [by rewrite !length_app, IH1|]. rewrite chain_last by by rewrite length_fmap.
    unfold node, HashChildren. cbn [sl]. by rewrite IH2.
  - rewrite (proj2 (Z.ltb_ge _ _)) in Hs by lia. cbn zeta. rewrite Hs, fmap_app, fmap_cons, fmap_nil.
    replace (Z.of_nat index - Z.of_nat k)%Z with (Z.of_nat (index - k)) by lia.
    assert (length (drop k l) = length l - k) as Ek by (rewrite length_drop; lia).
    destruct (IH (length l - k) ltac:(lia) (drop k l) (eq_sym Ek) (index - k) h) as [IH1 IH2];
      [rewrite lookup_drop; rewrite <-Hh; f_equal; lia|lia|].
    split; [by rewrite !length_app, IH1|]. rewrite chain_last by by rewrite length_fmap.
    unfold node, HashChildren. cbn [sl]. by rewrite IH2.
Qed.

(** ** Properties *)

(** The strings an inclusion check hashes, and those a consistency check hashes
    for the second root. *)
Definition inclusionInputs (index size : Z) (proof : list slice) (h : slice) : list bytes :=
  inputs h (zip (sides index size) proof).
Definition consistencyInputs (m n : Z) (root1 : slice) (proof : list slice) : list bytes :=
  let '(seed, rest) := consistencyStart m root1 proof in
  inputs seed (zip (extensionSides m n) rest).

(** An accepted proof shows the leaf: what the property says, for its users. *)
Lemma VerifyInclusionProof_leaf l index proof root h :
  sized l → (0 ≤ index < Z.of_nat (length l))%Z → (Z.of_nat (length l) < 2 ^ 63)%Z →
  sl root = MTH Sum256 l →
  VerifyInclusionProof index (Z.of_nat (length l)) proof root h = Ok () →
  l !! Z.to_nat index = Some (sl h) ∨
  collision l (inclusionInputs index (Z.of_nat (length l)) proof h).
Proof.
  intros Hl Hi Hmax Hr H. unfold VerifyInclusionProof in H.
  rewrite RootFromInclusionProof_chain in H by lia.
  destruct (Nat.eqb_spec (length (sl h)) hashSize) as [Hh|]; [|done]. cbn [negb] in H.
  destruct (Nat.eqb_spec (length proof) (length (sides index (Z.of_nat (length l))))) as [Hp|];
    [|done]. cbn [negb] in H. unfold mbind, outcome_bind, bytes_Equal in H. case_bool_decide as E; [|done].
  apply (inclusion_chain l index h proof); try done; [lia|by rewrite E].
Qed.

Lemma VerifyConsistencyProof_prefix l m root1 root2 proof :
  sized l → (0 < m ≤ Z.of_nat (length l))%Z → (Z.of_nat (length l) < 2 ^ 63)%Z →
  sl root2 = MTH Sum256 l → length (sl root1) = hashSize →
  (∀ h, h ∈ proof → length (sl h) = hashSize) →
  VerifyConsistencyProof m (Z.of_nat (length l)) root1 root2 proof = Ok () →
  sl root1 = MTH Sum256 (take (Z.to_nat m) l) ∨
  collision l (consistencyInputs m (Z.of_nat (length l)) root1 proof).
Proof.
  intros Hl Hm Hmax Hr2 Hr1 Hp H.
  destruct (decide (m = Z.of_nat (length l))) as [->|Hne].
  { left. rewrite Nat2Z.id, take_ge, <-Hr2 by lia. unfold VerifyConsistencyProof in H.
    rewrite !(proj2 (Z.ltb_ge _ _)), Z.eqb_refl in H by lia. unfold bytes_Equal in H.
    by case_bool_decide. }
  apply VerifyConsistencyProof_chain in H; [|lia..]. unfold consistencyInputs.
  destruct (consistencyStart m root1 proof) as [seed rest]. destruct H as (Hseed & Hlen & H1 & H2).
  rewrite <-H1. replace m with (Z.of_nat (Z.to_nat m)) in * by lia. rewrite Nat2Z.id in *.
  apply (extension_chain l (Z.to_nat m) seed rest); try done; try lia.
  - destruct Hseed as [->|Hin]; [done|by apply Hp].
  - by rewrite H2.
Qed.

Lemma VerifyInclusionProof_path l index h :
  l !! index = Some h → length h = hashSize → (Z.of_nat (length l) < 2 ^ 63)%Z →
  VerifyInclusionProof (Z.of_nat index) (Z.of_nat (length l)) (Some <$> PATH index l)
    (Some (MTH Sum256 l)) (Some h) = Ok ().
Proof.
  intros Hh Hsz Hmax. pose proof (lookup_lt_Some _ _ _ Hh). unfold VerifyInclusionProof.
  rewrite RootFromInclusionProof_chain by lia. cbn [sl]. rewrite (proj2 (Nat.eqb_eq _ _)) by done.
  destruct (PATH_chain l index h Hh) as [H1 H2]; [lia|]. cbn [negb].
  rewrite length_fmap, H1, Nat.eqb_refl. cbn [negb]. unfold mbind, outcome_bind, bytes_Equal.
  by rewrite bool_decide_true.
Qed.

(** C21. A leaf that passes an audit is in the log: when a proof of inclusion is
    accepted for a leaf hash, an index and the root of a log, the log has that
    leaf at that index, unless a string that the check hashed and another one
    that was hashed for the tree have the same hash. *)
Theorem VerifyInclusionProof_sound l index proof root h :
  sized l → (0 ≤ index < Z.of_nat (length l))%Z → (Z.of_nat (length l) < 2 ^ 63)%Z →
  sl root = MTH Sum256 l →
  VerifyInclusionProof index (Z.of_nat (length l)) proof root h = Ok () →
  l !! Z.to_nat index = Some (sl h) ∨
  collision l (inclusionInputs index (Z.of_nat (length l)) proof h).
Proof. apply VerifyInclusionProof_leaf. Qed.

(** A verified inclusion proof also gives the root of the tree that ends with
    the leaf, unless a string that the check hashed and another one that was
    hashed for the tree have the same hash. *)
Lemma VerifiedPrefixHash_sound l m proof root h prefix :
  sized l → (Z.of_nat (length l) < 2 ^ 63)%Z → sl root = MTH Sum256 l →
  VerifiedPrefixHashFromInclusionProof (Z.of_nat m) (Z.of_nat (length l)) proof root h = Ok prefix →
  sl prefix = MTH Sum256 (take m l) ∨
  collision l (inclusionInputs (Z.of_nat m - 1) (Z.of_nat (length l)) proof h).
Proof.
  intros Hl Hmax Hr H. unfold VerifiedPrefixHashFromInclusionProof in H.
  destruct (Z.leb_spec (Z.of_nat m) 0); [done|]. unfold VerifyInclusionProof in H.
  destruct (Z.le_gt_cases (Z.of_nat m) (Z.of_nat (length l))) as [Hm|Hm].
  2:{ unfold RootFromInclusionProof in H. rewrite !(proj2 (Z.ltb_ge _ _)), (proj2 (Z.leb_le _ _)) in H by lia. done. }
  rewrite RootFromInclusionProof_chain in H by lia. cbn zeta in H.
  set (bs := sides (Z.of_nat m - 1) (Z.of_nat (length l))) in *.
  destruct (Nat.eqb_spec (length (sl h)) hashSize) as [Hh|]; [|done]. cbn [negb] in H.
  destruct (Nat.eqb_spec (length proof) (length bs)) as [Hp|]; [|done].
  cbn [negb] in H. unfold mbind, outcome_bind, bytes_Equal in H. case_bool_decide as E; [|done].
  injection H as <-. pose proof (prefix_chain l m h proof Hl ltac:(lia) ltac:(lia) Hh Hp) as Hc.
  fold bs in Hc. rewrite <-Hr, <-E in Hc. destruct (Hc eq_refl) as [Hc'|Hc']; [left|by right].
  rewrite <-Hc'. f_equal. apply chainLeft_sides; [lia..|done].
Qed.

(** The audit path of RFC 6962 of a leaf of a log is accepted. *)
Theorem VerifyInclusionProof_complete l index h :
  l !! index = Some h → length h = hashSize → (Z.of_nat (length l) < 2 ^ 63)%Z →
  VerifyInclusionProof (Z.of_nat index) (Z.of_nat (length l)) (Some <$> PATH index l)
    (Some (MTH Sum256 l)) (Some h) = Ok ().
Proof. apply VerifyInclusionProof_path. Qed.

(** C22. A log that passes an audit was only extended: when a proof of consistency
    is accepted for two tree heads and the second is the root of a log, the
    first is the root of a prefix of it, unless a string that the check hashed
    and another one that was hashed for the tree have the same hash.  The
    components of the proof and the first root must have the size of a hash,
    which the function does not check. *)
Theorem VerifyConsistencyProof_sound l m root1 root2 proof :
  sized l → (0 < m ≤ Z.of_nat (length l))%Z → (Z.of_nat (length l) < 2 ^ 63)%Z →
  sl root2 = MTH Sum256 l → length (sl root1) = hashSize →
  (∀ h, h ∈ proof → length (sl h) = hashSize) →
  VerifyConsistencyProof m (Z.of_nat (length l)) root1 root2 proof = Ok () →
  sl root1 = MTH Sum256 (take (Z.to_nat m) l) ∨
  collision l (consistencyInputs m (Z.of_nat (length l)) root1 proof).
Proof. apply VerifyConsistencyProof_prefix. Qed.

(** The sizes of the components matter: a byte moved from one component to the
    one before makes another first root acceptable, which no log of three
    leaves has unless two strings of different lengths have the same hash. *)
Lemma VerifyConsistencyProof_ambiguous a b c d0 d :
  sized [a; b; c; d0 :: d] →
  let n01 := Some (HashChildren Sum256 (Some a) (Some b)) in
  let root1 := Some (HashChildren Sum256 n01 (Some (c ++ [d0]))) in
  VerifyConsistencyProof 3 4 root1 (Some (MTH Sum256 [a; b; c; d0 :: d]))
    [Some (c ++ [d0]); Some d; n01] = Ok () ∧
  (sl root1 = MTH Sum256 [a; b; c] →
   Sum256 (nodeInput false n01 (Some (c ++ [d0]))) = Sum256 (nodeInput false n01 (Some c))).
Proof.
  intros Hs n01 root1. split.
  - unfold VerifyConsistencyProof.
    assert (MTH Sum256 [a; b; c; d0 :: d] =
      HashChildren Sum256 n01 (Some (HashChildren Sum256 (Some c) (Some (d0 :: d))))) as ->.
    { rewrite MTH_node by (simpl; lia). change (split_point _) with 2. cbn [take drop].
      rewrite !MTH_node by (simpl; lia). change (split_point _) with 1. cbn [take drop].
      by rewrite !MTH_one. }
    assert (∀ x y, sl x = sl y → negb (bytes_Equal x y) = false) as Heq.
    { intros x y E. unfold bytes_Equal. by rewrite bool_decide_true. }
    change (decompInclProof (3 - 1) 4) with (1%Z, 1%Z).
    change (TrailingZeros64 (wrapU64 3)) with 0%Z.
    change (wrap64 (1 ≪ 0)) with 1%Z. change ((3 - 1) ≫ 0)%Z with 2%Z.
    cbn -[HashChildren bytes_Equal sl negb]. rewrite Heq by done. rewrite Heq; [done|].
    change (HashChildren Sum256 n01 (Some (HashChildren Sum256 (Some (c ++ [d0])) (Some d))) =
      HashChildren Sum256 n01 (Some (HashChildren Sum256 (Some c) (Some (d0 :: d))))).
    do 2 f_equal. unfold HashChildren. do 2 f_equal. change ((c ++ [d0]) ++ d = c ++ d0 :: d).
    by rewrite <-app_assoc.
  - rewrite (MTH_node [a; b; c]) by (simpl; lia). change (split_point _) with 2. cbn [take drop].
    rewrite MTH_one, (MTH_node [a; b]) by (simpl; lia). change (split_point _) with 1. cbn [take drop].
    by rewrite !MTH_one.
Qed.
End verifier.

(** ** Witnesses

    A log of three leaves, under a function that keeps the first 32 bytes. *)

Definition toy32 (b : bytes) : bytes := take 32 (b ++ replicate 32 Byte.x00).

Lemma toy32_size b : length (toy32 b) = hashSize.
Proof. unfold toy32. rewrite length_take, length_app, length_replicate. unfold hashSize. lia. Qed.

Definition leaf32 (b : byte) : bytes := replicate 32 b.
Definition threeLeaves : list bytes := [leaf32 Byte.x0a; leaf32 Byte.x0b; leaf32 Byte.x0c].
Definition node01 : bytes :=
  HashChildren toy32 (Some (leaf32 Byte.x0a)) (Some (leaf32 Byte.x0b)).

Lemma threeLeaves_sized : Forall (λ h : bytes, length h = hashSize) threeLeaves.
Proof. repeat constructor. Qed.

Lemma VerifyInclusionProof_sound_witness :
  threeLeaves !! Z.to_nat 1 = Some (sl (Some (leaf32 Byte.x0b))) ∨
  collision toy32 threeLeaves (inclusionInputs toy32 1 3
    [Some (leaf32 Byte.x0a); Some (leaf32 Byte.x0c)] (Some (leaf32 Byte.x0b))).
Proof.
  apply (VerifyInclusionProof_sound toy32 toy32_size threeLeaves 1
    [Some (leaf32 Byte.x0a); Some (leaf32 Byte.x0c)] (Some (MTH toy32 threeLeaves)));
    [apply threeLeaves_sized|simpl; lia|simpl; lia|reflexivity|vm_compute; reflexivity].
Defined.

Lemma VerifyInclusionProof_complete_witness :
  VerifyInclusionProof toy32 2 3 (Some <$> PATH toy32 2 threeLeaves)
    (Some (MTH toy32 threeLeaves)) (Some (leaf32 Byte.x0c)) = Ok ().
Proof.
  apply (VerifyInclusionProof_complete toy32 threeLeaves 2); [reflexivity|reflexivity|simpl; lia].
Defined.

Lemma VerifyConsistencyProof_sound_witness :
  sl (Some node01) = MTH toy32 (take (Z.to_nat 2) threeLeaves) ∨
  collision toy32 threeLeaves
    (consistencyInputs toy32 2 3 (Some node01) [Some (leaf32 Byte.x0c)]).
Proof.
  apply (VerifyConsistencyProof_sound toy32 toy32_size threeLeaves 2 (Some node01)
    (Some (MTH toy32 threeLeaves)) [Some (leaf32 Byte.x0c)]);
    [apply threeLeaves_sized|simpl; lia|simpl; lia|reflexivity|apply toy32_size| |vm_compute; reflexivity].
  intros h Hh. apply list_elem_of_singleton in Hh as ->. reflexivity.
Defined.

(** The root of the first two leaves, from the audit path of the second. *)
Example prefix_of_three :
  VerifiedPrefixHashFromInclusionProof toy32 2 3 [Some (leaf32 Byte.x0a); Some (leaf32 Byte.x0c)]
    (Some (MTH toy32 threeLeaves)) (Some (leaf32 Byte.x0b)) = Ok (Some node01).
Proof. vm_compute. reflexivity. Qed.
