(* ===== verification/Paths.v ===== *)
(** * Paths through a Merkle tree

    The proofs of RFC 6962, section 2.1, are defined from the root of the tree
    down.  A server computes them from the leaf up, by the coordinates of the
    siblings it passes.  This file shows that the two are the same. *)

From S2P Require Import Prelude Frontier Keys Compact Nodes Verifier.
From Equations Require Import Equations.

(** ** Siblings *)

(** The index of the other child of the parent. *)
Definition sib (i : nat) : nat := if Nat.even i then S i else i - 1.

Lemma sib_cases i : (∃ j, i = 2 * j ∧ sib i = 2 * j + 1) ∨ (∃ j, i = 2 * j + 1 ∧ sib i = 2 * j).
Proof.
  unfold sib. destruct (Nat.even i) eqn:E.
  - apply Nat.even_spec in E as [j ->]. left. exists j. lia.
  - assert (Nat.odd i = true) as [j ->]%Nat.odd_spec by (by rewrite <-Nat.negb_even, E). right. exists j. lia.
Qed.

Lemma sib_Z i : Z.lxor (Z.of_nat i) 1 = Z.of_nat (sib i).
Proof.
  destruct (sib_cases i) as [(j & -> & ->)|(j & -> & ->)]; rewrite ?Nat2Z.inj_add, !Nat2Z.inj_mul;
    change (Z.of_nat 2) with 2%Z; change (Z.of_nat 1) with 1%Z; destruct (Z.of_nat j) eqn:E; done || lia.
Qed.

Lemma sib_sib i : sib (sib i) = i.
Proof.
  destruct (sib_cases i) as [(j & E & H)|(j & E & H)], (sib_cases (sib i)) as [(j' & E' & H')|(j' & E' & H')]; lia.
Qed.

Lemma sib_shift i k : sib (i + 2 * k) = sib i + 2 * k.
Proof.
  destruct (sib_cases i) as [(j & E & H)|(j & E & H)], (sib_cases (i + 2 * k)) as [(j' & E' & H')|(j' & E' & H')]; lia.
Qed.

Lemma sib_lt i k : i < 2 * k → sib i < 2 * k.
Proof. destruct (sib_cases i) as [(j & E & H)|(j & E & H)]; lia. Qed.

Section paths.
Context (Sum256 : bytes → bytes).
Abbreviation nodeHash := (nodeHash Sum256).
Abbreviation MTH := (MTH Sum256).

(** What a path records at a level: the sibling, where there is one. *)
Definition piece (l : list bytes) (d i : nat) : list bytes :=
  if decide (sib i * 2 ^ d < length l) then [nodeHash l d (sib i)] else [].

(** The path of [f] levels from node [i] of level [d] on. *)
Definition siblings (l : list bytes) (d f i : nat) : list bytes :=
  concat ((λ e, piece l (d + e) (i / 2 ^ e)) <$> seq 0 f).

Lemma siblings_0 l d i : siblings l d 0 i = [].
Proof. done. Qed.

Lemma siblings_cons l d f i : siblings l d (S f) i = piece l d i ++ siblings l (S d) f (i / 2).
Proof.
  unfold siblings. cbn [seq]. rewrite fmap_cons. cbn [concat]. rewrite Nat.add_0_r, Nat.pow_0_r, Nat.div_1_r.
  f_equal. rewrite <-fmap_S_seq, <-list_fmap_compose. f_equal. apply list_fmap_ext. intros _ e _. unfold compose.
  rewrite Nat.Div0.div_div, <-Nat.pow_succ_r'. f_equal. lia.
Qed.

Lemma siblings_snoc l d f i : siblings l d (S f) i = siblings l d f i ++ piece l (d + f) (i / 2 ^ f).
Proof. unfold siblings. rewrite seq_S, fmap_app, concat_app. cbn. by rewrite app_nil_r. Qed.

(** ** Halves of a tree *)

Lemma nodeHash_take l d i k :
  (i + 1) * 2 ^ d ≤ k → nodeHash (take k l) d i = nodeHash l d i.
Proof.
  intros H. unfold Compact.nodeHash. f_equal. rewrite <-(take_drop k l) at 2.
  destruct (Nat.le_gt_cases (length l) k) as [Hl|Hl]; [by rewrite (drop_ge l k), app_nil_r by done|].
  rewrite drop_app_le, take_app_le; rewrite ?length_drop, ?length_take; [done|nia..].
Qed.

Lemma nodeHash_drop l d i f :
  d ≤ f → nodeHash (drop (2 ^ f) l) d i = nodeHash l d (i + 2 ^ (f - d)).
Proof.
  intros H. unfold Compact.nodeHash. rewrite drop_drop. do 3 f_equal.
  replace f with (f - d + d) at 1 by lia. rewrite Nat.pow_add_r. lia.
Qed.
Lemma pow_pos t : 0 < 2 ^ t.
Proof. apply Nat.neq_0_lt_0, Nat.pow_nonzero. done. Qed.

Lemma pow_sub_mul d f : d ≤ f → 2 ^ (f - d) * 2 ^ d = 2 ^ f.
Proof. intros H. rewrite <-Nat.pow_add_r. f_equal. lia. Qed.

(** Below the split of a tree, and behind it. *)
Section halves.
Context (l : list bytes) (d f i : nat) (Hd : d ≤ f) (Hi : i * 2 ^ d < 2 ^ f) (Hl : 2 ^ f ≤ length l).

Lemma index_half : i < 2 ^ (f - d).
Proof.
  apply (Nat.mul_lt_mono_pos_r (2 ^ d)); [apply Nat.neq_0_lt_0, Nat.pow_nonzero; done|].
  by rewrite pow_sub_mul.
Qed.

Lemma piece_left : d < f → piece (take (2 ^ f) l) d i = piece l d i.
Proof.
  intros Hlt. pose proof index_half as Hh. replace (f - d) with (S (f - d - 1)) in Hh by lia.
  rewrite Nat.pow_succ_r' in Hh. apply sib_lt in Hh. rewrite <-Nat.pow_succ_r' in Hh.
  replace (S (f - d - 1)) with (f - d) in Hh by lia.
  assert ((sib i + 1) * 2 ^ d ≤ 2 ^ f).
  { rewrite <-(pow_sub_mul d f) by done. apply Nat.mul_le_mono_r. lia. }
  pose proof (pow_pos d). unfold piece.
  rewrite !decide_True by (rewrite ?length_take; lia). by rewrite nodeHash_take by lia.
Qed.

Lemma piece_right : d < f → piece (drop (2 ^ f) l) d i = piece l d (i + 2 ^ (f - d)).
Proof.
  intros Hlt. unfold piece. rewrite length_drop, nodeHash_drop by lia.
  pose proof (pow_sub_mul d f Hd) as Ef.
  assert (sib (i + 2 ^ (f - d)) = sib i + 2 ^ (f - d)) as ->.
  { replace (f - d) with (S (f - d - 1)) by lia. rewrite Nat.pow_succ_r'. apply sib_shift. }
  rewrite Nat.mul_add_distr_r, Ef. by destruct (decide (sib i * 2 ^ d < length l - 2 ^ f)),
    (decide (sib i * 2 ^ d + 2 ^ f < length l)); try lia.
Qed.
End halves.

Lemma div_pow_half d e f i : d + e ≤ f → i * 2 ^ d < 2 ^ f → i / 2 ^ e * 2 ^ (d + e) < 2 ^ f.
Proof.
  intros He Hi. eapply Nat.le_lt_trans; [|exact Hi]. rewrite (Nat.add_comm d e), Nat.pow_add_r, Nat.mul_assoc.
  apply Nat.mul_le_mono_r. rewrite Nat.mul_comm. apply Nat.Div0.mul_div_le.
Qed.

Lemma siblings_left l d f n i :
  d + n ≤ f → i * 2 ^ d < 2 ^ f → 2 ^ f ≤ length l → siblings (take (2 ^ f) l) d n i = siblings l d n i.
Proof.
  intros Hn Hi Hl. unfold siblings. f_equal. apply list_fmap_ext. intros k e [-> He]%lookup_seq. cbn.
  apply piece_left; [lia|by apply div_pow_half; [lia|]|done|lia].
Qed.

Lemma siblings_right l d f n i :
  d + n ≤ f → i * 2 ^ d < 2 ^ f → 2 ^ f ≤ length l →
  siblings (drop (2 ^ f) l) d n i = siblings l d n (i + 2 ^ (f - d)).
Proof.
  intros Hn Hi Hl. unfold siblings. f_equal. apply list_fmap_ext. intros k e [-> He]%lookup_seq. cbn.
  rewrite piece_right; [|lia|by apply div_pow_half; [lia|]|done|lia].
  f_equal. assert (2 ^ (f - d) = 2 ^ (f - (d + k)) * 2 ^ k) as -> by (rewrite <-Nat.pow_add_r; f_equal; lia).
  by rewrite Nat.div_add by (apply Nat.pow_nonzero; done).
Qed.

(** The last level of a path. *)
Lemma piece_top_left l f : 2 ^ f < length l → length l ≤ 2 ^ S f → piece l f 0 = [MTH (drop (2 ^ f) l)].
Proof.
  intros H1 H2. unfold piece. change (sib 0) with 1. rewrite decide_True by lia. unfold Compact.nodeHash.
  rewrite Nat.mul_1_l, take_ge; [done|]. rewrite length_drop. rewrite Nat.pow_succ_r' in H2. lia.
Qed.
Lemma piece_top_right l f : 2 ^ f < length l → piece l f 1 = [MTH (take (2 ^ f) l)].
Proof. intros H1. unfold piece. change (sib 1) with 0. by rewrite decide_True by lia. Qed.
Lemma piece_top_none l f : length l ≤ 2 ^ f → piece l f 0 = [].
Proof. intros H1. unfold piece. change (sib 0) with 1. by rewrite decide_False by lia. Qed.

Lemma siblings_none l d f : length l ≤ 2 ^ d → siblings l d f 0 = [].
Proof.
  intros H. unfold siblings. apply concat_nil_Forall, Forall_fmap, Forall_true. intros e. cbn.
  rewrite Nat.Div0.div_0_l. apply piece_top_none. etransitivity; [exact H|]. apply Nat.pow_le_mono_r; lia.
Qed.

Section step.
Context (l : list bytes) (d f i : nat) (Hd : d ≤ f) (Hi : i * 2 ^ d < 2 ^ f).

Lemma top_index : i / 2 ^ (f - d) = 0.
Proof. apply Nat.div_small, (index_half d f i Hd Hi). Qed.

Lemma siblings_more : length l ≤ 2 ^ f → siblings l d (S f - d) i = siblings l d (f - d) i.
Proof.
  intros H. replace (S f - d) with (S (f - d)) by lia. rewrite siblings_snoc, top_index.
  replace (d + (f - d)) with f by lia. by rewrite piece_top_none, app_nil_r.
Qed.

Lemma siblings_split_left :
  2 ^ f < length l → length l ≤ 2 ^ S f →
  siblings l d (S f - d) i = siblings (take (2 ^ f) l) d (f - d) i ++ [MTH (drop (2 ^ f) l)].
Proof.
  intros H1 H2. replace (S f - d) with (S (f - d)) by lia. rewrite siblings_snoc, top_index.
  replace (d + (f - d)) with f by lia. rewrite piece_top_left by done. by rewrite siblings_left by lia.
Qed.

Lemma siblings_split_right :
  2 ^ f < length l →
  siblings l d (S f - d) (i + 2 ^ (f - d)) = siblings (drop (2 ^ f) l) d (f - d) i ++ [MTH (take (2 ^ f) l)].
Proof.
  intros H1. replace (S f - d) with (S (f - d)) by lia. rewrite siblings_snoc.
  rewrite <-(Nat.mul_1_l (2 ^ (f - d))) at 2. rewrite Nat.div_add, top_index by (apply Nat.pow_nonzero; done).
  replace (d + (f - d)) with f by lia. rewrite piece_top_right by done. by rewrite siblings_right by lia.
Qed.
End step.

Lemma split_point_half n f : 2 ^ f < n → n ≤ 2 ^ S f → split_point n = 2 ^ f.
Proof.
  intros H1 H2. replace n with (2 ^ f + (n - 2 ^ f)) by lia. apply split_point_pow. rewrite Nat.pow_succ_r' in H2. lia.
Qed.

(** ** Inclusion

    The audit path is the path from the leaf. *)
Lemma PATH_siblings f : ∀ l i, i < length l → length l ≤ 2 ^ f → PATH Sum256 i l = siblings l 0 f i.
Proof.
  induction f as [|f IH]; intros l i Hi Hl.
  { destruct l as [|h [|]]; simpl in *; try lia. by simp PATH. }
  assert (∀ k, k < 2 ^ f → k * 2 ^ 0 < 2 ^ f) as H0 by (intros; rewrite Nat.pow_0_r; lia).
  destruct (Nat.le_gt_cases (length l) (2 ^ f)) as [Hle|Hgt].
  { rewrite IH by done. symmetry. rewrite <-(Nat.sub_0_r f) at 2. rewrite <-(Nat.sub_0_r (S f)) at 1.
    apply siblings_more; [lia|apply H0; lia|done]. }
  pose proof (pow_pos f). rewrite PATH_split by lia. rewrite (split_point_half _ f) by done.
  change (siblings l 0 (S f) i) with (siblings l 0 (S f - 0) i). case_decide as Hd.
  - rewrite siblings_split_left by (lia || (apply H0; lia)). rewrite Nat.sub_0_r. f_equal. apply IH; rewrite length_take; lia.
  - rewrite Nat.pow_succ_r' in Hl. replace i with (i - 2 ^ f + 2 ^ (f - 0)) at 2 by (rewrite Nat.sub_0_r; lia).
    rewrite siblings_split_right by (lia || (apply H0; lia)). rewrite Nat.sub_0_r. f_equal. apply IH; rewrite length_drop; lia.
Qed.

(** ** Consistency

    The proof of RFC 6962, section 2.1.2, that the tree over [l] extends that
    over its first [m] leaves; [b] tells that the verifier knows the root of the
    smaller tree. *)

Equations? SUBPROOF (m : nat) (l : list bytes) (b : bool) : list bytes by wf (length l) lt :=
  SUBPROOF m [] b := [];
  SUBPROOF m [h] b := if b then [] else [h];
  SUBPROOF m (h1 :: h2 :: l) b :=
    let n := length (h1 :: h2 :: l) in
    let k := split_point n in
    if decide (m = n) then if b then [] else [MTH (h1 :: h2 :: l)]
    else if decide (m ≤ k)
    then SUBPROOF m (take k (h1 :: h2 :: l)) b ++ [MTH (drop k (h1 :: h2 :: l))]
    else SUBPROOF (m - k) (drop k (h1 :: h2 :: l)) false ++ [MTH (take k (h1 :: h2 :: l))].
Proof.
  all: pose proof (split_point_bounds (S (S (length l)))); rewrite ?length_take, ?length_drop;
    cbn [length] in *; unfold k, n; lia.
Qed.
Definition PROOF (m : nat) (l : list bytes) : list bytes := SUBPROOF m l true.

Lemma SUBPROOF_all l b : 1 ≤ length l → SUBPROOF (length l) l b = if b then [] else [MTH l].
Proof.
  destruct l as [|h1 [|h2 l]]; [simpl; lia|intros _; simp SUBPROOF; by rewrite MTH_one|].
  intros _. simp SUBPROOF. cbn zeta. by rewrite decide_True by done.
Qed.

Lemma SUBPROOF_split m l b :
  2 ≤ length l → m ≠ length l →
  let k := split_point (length l) in
  SUBPROOF m l b =
    if decide (m ≤ k) then SUBPROOF m (take k l) b ++ [MTH (drop k l)]
    else SUBPROOF (m - k) (drop k l) false ++ [MTH (take k l)].
Proof.
  destruct l as [|h1 [|h2 l]]; simpl length; try lia. intros _ Hm. simp SUBPROOF. cbn zeta. by rewrite decide_False by done.
Qed.

(** A size and the last node that is full at its end: [m] is odd up to the
    level [t], at which the node has the index [2 * j]. *)
Lemma lowest_level m : 0 < m → ∃ j t, m = (2 * j + 1) * 2 ^ t.
Proof.
  induction m as [m IH] using lt_wf_ind. intros Hm. destruct (Nat.Even_or_Odd m) as [[k ->]|[k ->]].
  - destruct (IH k) as (j & t & ->); [lia..|]. exists j, (S t). rewrite Nat.pow_succ_r'. lia.
  - exists k, 0. simpl. lia.
Qed.

Lemma lowest_below j t f : (2 * j + 1) * 2 ^ t ≤ 2 ^ f → t ≤ f.
Proof.
  intros H. apply (Nat.pow_le_mono_r_iff 2); [lia|]. nia.
Qed.

Lemma lowest_pow j t f : (2 * j + 1) * 2 ^ t = 2 ^ f → j = 0.
Proof.
  intros H. pose proof (lowest_below j t f ltac:(lia)) as Ht. pose proof (pow_pos t).
  rewrite <-(pow_sub_mul t f Ht) in H. apply Nat.mul_cancel_r in H; [|lia].
  destruct (f - t) as [|n]; [simpl in H; lia|]. rewrite Nat.pow_succ_r' in H. lia.
Qed.

Lemma lowest_behind j t f :
  2 ^ f < (2 * j + 1) * 2 ^ t → (2 * j + 1) * 2 ^ t < 2 ^ S f →
  t < f ∧ ∃ j', 2 * j = 2 * j' + 2 ^ (f - t) ∧ (2 * j' + 1) * 2 ^ t = (2 * j + 1) * 2 ^ t - 2 ^ f.
Proof.
  intros H1 H2. assert (t < f) as Ht.
  { destruct (Nat.lt_ge_cases t f) as [|Hge]; [done|]. exfalso.
    pose proof (pow_sub_mul f t Hge) as E. rewrite <-E in *. rewrite Nat.pow_succ_r' in H2.
    pose proof (pow_pos f). assert ((2 * j + 1) * 2 ^ (t - f) < 2) by nia.
    pose proof (pow_pos (t - f)). assert (j = 0) as -> by nia.
    assert (2 ^ (t - f) = 1) by nia. nia. }
  split; [done|]. pose proof (pow_sub_mul t f ltac:(lia)) as E.
  replace (f - t) with (S (f - t - 1)) in * by lia. rewrite Nat.pow_succ_r' in E |- *.
  set (q := 2 ^ (f - t - 1)) in *. pose proof (pow_pos t). exists (j - q).
  assert (q ≤ j) by nia. split; [lia|]. nia.
Qed.

(** A tree of [2 ^ t] leaves is its own last node. *)
Lemma SUBPROOF_whole f l m j t b :
  m = (2 * j + 1) * 2 ^ t → m = length l → j = 0 →
  SUBPROOF m l b =
    (if b && (j =? 0)%nat then [] else [nodeHash l t (2 * j)]) ++ siblings l t (f - t) (2 * j).
Proof.
  intros Hm E ->. pose proof (pow_pos t). rewrite E, SUBPROOF_all by lia.
  rewrite Nat.mul_0_r, Nat.add_0_l, Nat.mul_1_l in *. change (0 =? 0)%nat with true. rewrite andb_true_r.
  rewrite siblings_none by lia.
  rewrite app_nil_r. destruct b; [done|]. do 2 f_equal. unfold Compact.nodeHash.
  by rewrite Nat.mul_0_l, drop_0, take_ge by lia.
Qed.

Lemma SUBPROOF_siblings f : ∀ l m j t b,
  m = (2 * j + 1) * 2 ^ t → m ≤ length l → length l ≤ 2 ^ f → m < length l ∨ m = length l ∧ j = 0 →
  SUBPROOF m l b =
    (if b && (j =? 0)%nat then [] else [nodeHash l t (2 * j)]) ++ siblings l t (f - t) (2 * j).
Proof.
  intros l m j t b Hm Hl Hf Hcase.
  destruct Hcase as [Hlt|[E Ej]]; [|by apply SUBPROOF_whole].
  revert l m j t b Hm Hl Hf Hlt. induction f as [|f IH]; intros l m j t b Hm Hl Hf Hlt.
  { pose proof (pow_pos t). simpl in Hf. nia. }
  pose proof (pow_pos t) as Ht0. pose proof (pow_pos f).
  destruct (Nat.le_gt_cases (length l) (2 ^ f)) as [Hle|Hgt].
  { rewrite (IH l m j t b) by done. f_equal. symmetry.
    apply siblings_more; [apply (lowest_below j); lia|lia|done]. }
  assert (2 ≤ length l) as H2 by lia.
  rewrite SUBPROOF_split by lia. rewrite (split_point_half _ f) by done.
  assert (length (take (2 ^ f) l) = 2 ^ f) as Ek by (rewrite length_take; lia).
  case_decide as Hd.
  - assert (t ≤ f) by (apply (lowest_below j); lia).
    assert (SUBPROOF m (take (2 ^ f) l) b = (if b && (j =? 0)%nat then [] else [nodeHash (take (2 ^ f) l) t (2 * j)])
      ++ siblings (take (2 ^ f) l) t (f - t) (2 * j)) as ->.
    { destruct (decide (m = 2 ^ f)) as [Em|]; [|apply IH; lia].
      apply SUBPROOF_whole; [done|lia|]. apply (lowest_pow j t f). lia. }
    rewrite siblings_split_left by lia. rewrite app_assoc. do 2 f_equal.
    destruct (b && (j =? 0)%nat); [done|]. by rewrite nodeHash_take by lia.
  - destruct (lowest_behind j t f) as (Htf & j' & Ej & Em'); [lia..|].
    rewrite (IH (drop (2 ^ f) l) (m - 2 ^ f) j' t false); [|lia|rewrite length_drop; lia| |rewrite length_drop; lia].
    2:{ rewrite length_drop. rewrite Nat.pow_succ_r' in Hf. lia. }
    pose proof (pow_pos (f - t)).
    destruct (Nat.eqb_spec j 0) as [->|_]; [lia|]. rewrite andb_false_r. cbn [andb].
    rewrite nodeHash_drop by lia. rewrite <-Ej, <-app_assoc. f_equal. rewrite Ej.
    rewrite siblings_split_right; [done|lia| |done]. rewrite Nat.pow_succ_r' in Hf. lia.
Qed.

Lemma SUBPROOF_chain_whole l m j t :
  m = (2 * j + 1) * 2 ^ t → m = length l → j = 0 → (Z.of_nat (length l) < 2 ^ 63)%Z →
  let seed := nodeHash l t (2 * j) in
  let bs := extensionSides (Z.of_nat m) (Z.of_nat (length l)) in
  ∃ rest, (∀ b, SUBPROOF m l b = (if b && (j =? 0)%nat then [] else [seed]) ++ rest) ∧
    length rest = length bs ∧
    sl (chain Sum256 (Some seed) (zip bs (Some <$> rest))) = MTH l ∧
    sl (chainLeft Sum256 (Some seed) (zip bs (Some <$> rest))) = MTH (take m l).
Proof.
  intros Hm E -> Hmax seed bs. rewrite Nat.mul_0_r, Nat.add_0_l, Nat.mul_1_l in Hm.
  assert (Z.of_nat m = 2 ^ Z.of_nat t)%Z as Ez by (rewrite Hm, Nat2Z.inj_pow; done).
  assert (Z.of_nat t ≤ 62)%Z.
  { apply Z.lt_succ_r, (Z.pow_lt_mono_r_iff 2); [lia..|]. change (Z.succ 62) with 63%Z. lia. }
  assert (bs = []) as -> by (unfold bs; rewrite <-E, Ez; apply extensionSides_pow; lia).
  assert (seed = MTH l) as Es.
  { unfold seed, Compact.nodeHash. by rewrite Nat.mul_0_r, Nat.mul_0_l, drop_0, take_ge by lia. }
  exists []. split.
  { intros b. pose proof (pow_pos t). rewrite E, SUBPROOF_all by lia. rewrite Es. by destruct b. }
  split; [done|]. cbn. by rewrite Es, take_ge by lia.
Qed.

(** Along its path, the proof leads to both roots. *)
Lemma SUBPROOF_chain f : ∀ l m j t,
  m = (2 * j + 1) * 2 ^ t → m ≤ length l → length l ≤ 2 ^ f → m < length l ∨ m = length l ∧ j = 0 →
  (Z.of_nat (length l) < 2 ^ 63)%Z →
  let seed := nodeHash l t (2 * j) in
  let bs := extensionSides (Z.of_nat m) (Z.of_nat (length l)) in
  ∃ rest, (∀ b, SUBPROOF m l b = (if b && (j =? 0)%nat then [] else [seed]) ++ rest) ∧
    length rest = length bs ∧
    sl (chain Sum256 (Some seed) (zip bs (Some <$> rest))) = MTH l ∧
    sl (chainLeft Sum256 (Some seed) (zip bs (Some <$> rest))) = MTH (take m l).
Proof.
  induction f as [|f IH]; intros l m j t Hm Hl Hf Hcase Hmax seed bs.
  { assert (m = length l ∧ j = 0) as [E Ej] by (pose proof (pow_pos t); simpl in Hf; nia).
    by apply SUBPROOF_chain_whole. }
  destruct (Nat.le_gt_cases (length l) (2 ^ f)) as [Hle|Hgt]; [by apply IH|].
  destruct (decide (m = length l)) as [E|Hne]; [by apply SUBPROOF_chain_whole; [..|naive_solver lia|]|].
  assert (0 < m) as Hm0 by (pose proof (pow_pos t); nia).
  pose proof (pow_pos f). assert (2 ≤ length l) as H2 by lia.
  pose proof (split_point_half _ f Hgt Hf) as Esp.
  assert (length (take (2 ^ f) l) = 2 ^ f) as Ek by (rewrite length_take; lia).
  assert (length (drop (2 ^ f) l) = length l - 2 ^ f) as Ek' by (rewrite length_drop; lia).
  assert (length l - 2 ^ f ≤ 2 ^ f) as Hf' by (rewrite Nat.pow_succ_r' in Hf; lia).
  destruct (decide (m ≤ 2 ^ f)) as [Hle|Hgt'].
  - destruct (IH (take (2 ^ f) l) m j t) as (rest & Hs & Hlen & H3 & H4); [done|lia|lia| |lia|].
    { destruct (decide (m = 2 ^ f)); [right; split; [lia|apply (lowest_pow j t f); lia]|left; lia]. }
    unfold bs, seed. rewrite extensionSides_left; rewrite ?Esp; [|lia|done|done]. rewrite Ek in *.
    rewrite nodeHash_take in * by lia. exists (rest ++ [MTH (drop (2 ^ f) l)]).
    split. { intros b. rewrite SUBPROOF_split, Esp, decide_True, Hs by lia. by rewrite app_assoc. }
    split; [by rewrite !length_app, Hlen|]. rewrite fmap_app, fmap_cons, fmap_nil.
    rewrite chain_last, chainLeft_last by (by rewrite length_fmap). rewrite H4, take_take, Nat.min_l by lia.
    split; [|done]. rewrite (MTH_node Sum256 l), Esp by done. unfold node, HashChildren. cbn [sl]. by rewrite H3.
  - destruct (lowest_behind j t f) as (Htf & j' & Ej & Em'); [lia..|].
    destruct (IH (drop (2 ^ f) l) (m - 2 ^ f) j' t) as (rest & Hs & Hlen & H3 & H4); [lia..|].
    unfold bs, seed. rewrite extensionSides_right; rewrite ?Esp; [|lia|done|lia]. rewrite Ek' in *.
    rewrite nodeHash_drop, <-Ej in * by lia. exists (rest ++ [MTH (take (2 ^ f) l)]). pose proof (pow_pos (f - t)).
    split. { intros b. rewrite SUBPROOF_split, Esp, decide_False, Hs by lia.
      destruct (Nat.eqb_spec j 0) as [->|_]; [lia|]. by rewrite andb_false_r, <-app_assoc. }
    split; [by rewrite !length_app, Hlen|]. rewrite fmap_app, fmap_cons, fmap_nil.
    rewrite chain_last, chainLeft_last by (by rewrite length_fmap).
    rewrite (MTH_node Sum256 l), Esp by done. rewrite (MTH_prefix_split _ l m f); rewrite ?Esp; [|done|lia|lia].
    unfold node, HashChildren. cbn [sl]. by rewrite H3, H4.
Qed.

Lemma TrailingZeros64_lowest j t :
  (Z.of_nat ((2 * j + 1) * 2 ^ t) < 2 ^ 63)%Z →
  TrailingZeros64 (Z.of_nat ((2 * j + 1) * 2 ^ t)) = Z.of_nat t ∧
  wrap64 (1 ≪ Z.of_nat t) = Z.of_nat (2 ^ t).
Proof.
  intros H. pose proof (pow_pos t). assert (Z.of_nat (2 ^ t) = 2 ^ Z.of_nat t)%Z as E by (by rewrite Nat2Z.inj_pow).
  assert (Z.of_nat t < 63)%Z as Ht.
  { apply (Z.pow_lt_mono_r_iff 2); [lia..|]. rewrite <-E. eapply Z.le_lt_trans; [|exact H]. apply inj_le. nia. }
  split.
  - rewrite Nat2Z.inj_mul, E. apply TrailingZeros64_unique; [lia| |]; intros;
      [rewrite Z.mul_pow2_bits, Z.sub_diag by lia|rewrite Z.mul_pow2_bits_low by lia; done].
    replace (Z.of_nat (2 * j + 1)) with (2 * Z.of_nat j + 1)%Z by lia. apply Z.testbit_odd_0.
  - rewrite Z.shiftl_mul_pow2, Z.mul_1_l, E by lia. apply wrap64_small. unfold int64.
    assert (2 ^ Z.of_nat t ≤ 2 ^ 62)%Z by (apply Z.pow_le_mono_r; lia). lia.
Qed.

(** The consistency proof of RFC 6962 of a log is accepted for its two heads. *)
Theorem VerifyConsistencyProof_complete l m :
  0 < m ≤ length l → (Z.of_nat (length l) < 2 ^ 63)%Z →
  VerifyConsistencyProof Sum256 (Z.of_nat m) (Z.of_nat (length l)) (Some (MTH (take m l))) (Some (MTH l))
    (Some <$> PROOF m l) = Ok ().
Proof.
  intros Hm Hmax. destruct (decide (m = length l)) as [->|Hne].
  { unfold PROOF. rewrite SUBPROOF_all, take_ge by lia. unfold VerifyConsistencyProof.
    rewrite !(proj2 (Z.ltb_ge _ _)), Z.eqb_refl by lia. unfold bytes_Equal. by rewrite bool_decide_true. }
  destruct (lowest_level m) as (j & t & Em); [lia|].
  destruct (SUBPROOF_chain (length l) l m j t) as (rest & Hs & Hlen & H3 & H4); [done|lia| |lia|done|].
  { apply Nat.lt_le_incl, Nat.pow_gt_lin_r. lia. }
  specialize (Hs true). cbn [andb] in Hs. pose proof (pow_pos t).
  destruct (TrailingZeros64_lowest j t) as [T1 T2]; [by rewrite <-Em; lia|]. rewrite <-Em in T1.
  unfold PROOF. rewrite Hs. destruct (Nat.eqb_spec j 0) as [->|Hj].
  - assert (nodeHash l t (2 * 0) = MTH (take m l)) as Eseed.
    { unfold Compact.nodeHash. rewrite Nat.mul_0_r, Nat.mul_0_l, drop_0. do 2 f_equal. lia. }
    rewrite Eseed in *. destruct rest as [|p rest].
    { exfalso. rewrite SUBPROOF_split in Hs by lia. case_decide; by apply app_nil in Hs as [_ ?]. }
    apply (VerifyConsistencyProof_accepts Sum256 _ _ _ _ _ (Some (MTH (take m l))) (Some <$> p :: rest));
      [lia|done|done| |by rewrite length_fmap|exact H4|exact H3].
    unfold consistencyStart. cbn [app]. rewrite fmap_cons, T1, T2, Em. by rewrite (proj2 (Z.eqb_eq _ _)) by lia.
  - apply (VerifyConsistencyProof_accepts Sum256 _ _ _ _ _ (Some (nodeHash l t (2 * j))) (Some <$> rest));
      [lia|done|done| |by rewrite length_fmap|exact H4|exact H3].
    unfold consistencyStart. cbn [app]. rewrite fmap_cons, T1, T2. by rewrite (proj2 (Z.eqb_neq _ _)) by nia.
Qed.
End paths.
