(* ===== verification/Proofs.v ===== *)
(** * Building proofs (src/vendor/github.com/google/trillian)

    [merkle/merkle_path.go] computes which nodes of the stored tree a proof is
    made of, also for a tree that the log has outgrown, where nodes of the
    right edge have to be hashed again; [server/proof_fetcher.go] reads them and
    puts the proof together.  The theorems say that the proofs are those of
    RFC 6962. *)

From S2P Require Import Prelude Frontier Keys Trillian LevelDB Local Remote Cache Compact.
From S2P Require Import Nodes SubtreeCache TreeNodes Config ReadTx TreeTx StoredTree LogStorage Quota Rpc Verifier Paths.

(** A node to fetch, and whether it takes part in hashing again. *)
Record NodeFetch := mkFetch { fetchID : NodeID; Rehash : bool }.

Definition err_snapshot : error := Errorf "%s %d > treeSize %d".
Definition err_inclusion : error → error := Wrapf "invalid parameter for inclusion proof: %v".
Definition err_consistency : error → error := Wrapf "invalid parameter for consistency proof: %v".

Definition checkSnapshot (ss treeSize : Z) : outcome unit :=
  if (ss <? 1)%Z then Err (Errorf "%s %d < 1")
  else if (treeSize <? ss)%Z then Err err_snapshot else Ok ().

(** Whether the last node of the level is stored in a tree of size [ts]. *)
Definition lastNodePresent (level ts : Z) : bool :=
  if (level =? 0)%Z then true
  else negb (Z.land (wrapU64 (ts - 1)) (wrapU64 (1 ≪ (level - 1))) =? 0)%Z.

(** The loop that moves down to a node that is stored: the level decreases and
    stays positive, so [level] rounds are enough. *)
Fixpoint skipLoop (fuel : nat) (snapshot lastNode level sibling : Z) : Z * Z :=
  match fuel with
  | O => (level, sibling)
  | S fuel =>
      if (0 <? level)%Z && (sibling =? lastNode)%Z && negb (lastNodePresent level snapshot)
      then skipLoop fuel snapshot (wrap64 (snapshot - 1) ≫ (level - 1)) (level - 1) (wrap64 (sibling * 2))
      else (level, sibling)
  end.

Definition skipMissingLevels (snapshot lastNode level node : Z) : Z * Z :=
  skipLoop (Z.to_nat level) snapshot lastNode level (Z.lxor node 1).

Definition siblingIDSkipLevels (snapshot lastNode level node maxBitLen : Z) : outcome NodeID :=
  let '(l, sibling) := skipMissingLevels snapshot lastNode level node in
  NewNodeIDForTreeCoords l sibling maxBitLen.

(** ** Hashing again

    The loops below shift a non-negative int64 to the right in every round, so
    64 rounds are enough; without them they would not return. *)

Section recompute.
Context (snapshot nodeLevel maxBitlen : Z).

(** The first loop: a copy of the node is found, or the place where hashing
    starts: [lastNode], [lastNodeAtLevel] and [level]. *)
Fixpoint recomputeUp (fuel : nat) (lastNode lastNodeAtLevel level : Z)
    : outcome (NodeFetch + Z * Z * Z) :=
  if (Z.land lastNode 1 =? 0)%Z then Ok (inr (lastNode, lastNodeAtLevel, level))
  else if (nodeLevel =? level)%Z then
    nodeID ← siblingIDSkipLevels snapshot lastNodeAtLevel level (Z.lxor lastNode 1) maxBitlen;
    Ok (inl (mkFetch nodeID false))
  else
    match fuel with
    | O => Panic
    | S fuel => recomputeUp fuel (lastNode ≫ 1) (lastNodeAtLevel ≫ 1) (level + 1)
    end.

(** The second loop, which collects the nodes to hash with. *)
Fixpoint recomputeRehash (fuel : nat) (savedNodeID : NodeID) (fetches : list NodeFetch)
    (rehash subRootEmitted : bool) (lastNode lastNodeAtLevel level : Z) : outcome (list NodeFetch) :=
  if (lastNode =? 0)%Z then Ok fetches
  else
    match fuel with
    | O => Panic
    | S fuel =>
        '(fetches, rehash, subRootEmitted) ←
          (if negb (Z.land lastNode 1 =? 0)%Z then
             nodeID ← siblingIDSkipLevels snapshot lastNodeAtLevel level
                        (Z.lxor (lastNode - 1) 1) maxBitlen;
             let emit := negb rehash && negb subRootEmitted in
             let fetches := if emit then fetches ++ [mkFetch savedNodeID true] else fetches in
             Ok (fetches ++ [mkFetch nodeID true], true, subRootEmitted || emit)
           else Ok (fetches, rehash, subRootEmitted));
        let level := (level + 1)%Z in
        if (nodeLevel =? level)%Z && negb subRootEmitted
        then Ok (fetches ++ [mkFetch savedNodeID rehash])
        else if (level =? nodeLevel)%Z then Ok fetches
        else recomputeRehash fuel savedNodeID fetches rehash subRootEmitted
               (lastNode ≫ 1) (lastNodeAtLevel ≫ 1) level
    end.

Definition recomputePastSnapshot (treeSize : Z) : outcome (list NodeFetch) :=
  if (snapshot =? treeSize)%Z then Ok []
  else if (treeSize <? snapshot)%Z
  then Err (Errorf "recomputePastSnapshot: %d does not exist for tree of size %d")
  else
    r ← recomputeUp 64 (wrap64 (snapshot - 1)) (wrap64 (treeSize - 1)) 0;
    match r with
    | inl fetch => Ok [fetch]
    | inr (lastNode, lastNodeAtLevel, level) =>
        savedNodeID ← siblingIDSkipLevels snapshot lastNodeAtLevel level (Z.lxor lastNode 1) maxBitlen;
        if (nodeLevel =? level)%Z then Ok [mkFetch savedNodeID true]
        else recomputeRehash 64 savedNodeID [] false false lastNode lastNodeAtLevel level
    end.
End recompute.

Definition checkRecomputation (fetches : list NodeFetch) : outcome unit :=
  match fetches with
  | [] => Err (Errorf "recomputePastSnapshot returned nothing")
  | [fetch] =>
      if Rehash fetch then Err (Errorf "recomputePastSnapshot returned invalid rehash: %v") else Ok ()
  | fetch :: rest =>
      if forallb (λ f, Bool.eqb (Rehash f) (Rehash fetch)) rest then Ok ()
      else Err (Errorf "recomputePastSnapshot returned mismatched rehash nodes: %v")
  end.

(** ** Paths *)

Section path.
Context (snapshot treeSize maxBitLen : Z).

Fixpoint pathLoop (fuel : nat) (node level lastNode : Z) : outcome (list NodeFetch) :=
  if (lastNode =? 0)%Z then Ok []
  else
    match fuel with
    | O => Panic
    | S fuel =>
        let sibling := Z.lxor node 1 in
        fetches ←
          (if (sibling <? lastNode)%Z then
             n ← NewNodeIDForTreeCoords level sibling maxBitLen; Ok [mkFetch n false]
           else if (sibling =? lastNode)%Z then
             if (snapshot =? treeSize)%Z then
               n ← siblingIDSkipLevels snapshot lastNode level node maxBitLen; Ok [mkFetch n false]
             else
               rehashFetches ← recomputePastSnapshot snapshot level maxBitLen treeSize;
               _ ← checkRecomputation rehashFetches;
               Ok rehashFetches
           else Ok []);
        rest ← pathLoop fuel (node ≫ 1) (level + 1) (lastNode ≫ 1);
        Ok (fetches ++ rest)
    end.

Definition pathFromNodeToRootAtSnapshot (node level : Z) : outcome (list NodeFetch) :=
  if (snapshot =? 0)%Z then Ok [] else pathLoop 64 node level (wrap64 (snapshot - 1) ≫ level).
End path.

(** The loop of [snapshotConsistency]: the node up to which both trees are the
    same, with its level. *)
Fixpoint moveUp (fuel : nat) (level node : Z) : outcome (Z * Z) :=
  if (Z.land node 1 =? 0)%Z then Ok (level, node)
  else match fuel with O => Panic | S fuel => moveUp fuel (level + 1) (node ≫ 1) end.

Definition snapshotConsistency (snapshot1 snapshot2 treeSize maxBitLen : Z) : outcome (list NodeFetch) :=
  if (snapshot1 =? snapshot2)%Z then Ok []
  else
    '(level, node) ← moveUp 64 0 (wrap64 (snapshot1 - 1));
    proof ← (if negb (node =? 0)%Z then
               n ← NewNodeIDForTreeCoords level node maxBitLen; Ok [mkFetch n false]
             else Ok []);
    p ← pathFromNodeToRootAtSnapshot snapshot2 treeSize maxBitLen node level;
    Ok (proof ++ p).

Definition CalcInclusionProofNodeAddresses (snapshot index treeSize maxBitLen : Z)
    : outcome (list NodeFetch) :=
  match checkSnapshot snapshot treeSize with
  | Err e => Err (err_inclusion e)
  | Panic => Panic
  | Ok _ =>
      if (snapshot <=? index)%Z
      then Err (Errorf "invalid parameter for inclusion proof: index %d is >= snapshot %d")
      else if (index <? 0)%Z
      then Err (Errorf "invalid parameter for inclusion proof: index %d is < 0")
      else if (maxBitLen <=? 0)%Z
      then Err (Errorf "invalid parameter for inclusion proof: maxBitLen %d <= 0")
      else pathFromNodeToRootAtSnapshot snapshot treeSize maxBitLen index 0
  end.

Definition CalcConsistencyProofNodeAddresses (snapshot1 snapshot2 treeSize maxBitLen : Z)
    : outcome (list NodeFetch) :=
  match (_ ← checkSnapshot snapshot1 treeSize; checkSnapshot snapshot2 treeSize) with
  | Err e => Err (err_consistency e)
  | Panic => Panic
  | Ok _ =>
      if (snapshot2 <? snapshot1)%Z
      then Err (Errorf "invalid parameter for consistency proof: snapshot1 %d > snapshot2 %d")
      else if (maxBitLen <=? 0)%Z
      then Err (Errorf "invalid parameter for consistency proof: maxBitLen %d <= 0")
      else snapshotConsistency snapshot1 snapshot2 treeSize maxBitLen
  end.

(** ** Putting the proof together *)

Section fetcher.
Context (Sum256 : bytes → bytes).
Context `{!Codec SubtreeProto, !MapRange bytes}.

(** [proofError] is never set.  Of [rehashNode] only the hash is used. *)
Record rehasher := mkRehasher { rehashing : bool; rehashNode : slice; proof : list slice }.

Definition emitNode (h : slice) (r : rehasher) : rehasher :=
  mkRehasher (rehashing r) (rehashNode r) (proof r ++ [h]).
Definition startRehashing (h : slice) (r : rehasher) : rehasher := mkRehasher true h (proof r).
Definition endRehashing (r : rehasher) : rehasher :=
  if rehashing r then mkRehasher false (rehashNode r) (proof r ++ [rehashNode r]) else r.

Definition process (h : slice) (rehash : bool) (r : rehasher) : rehasher :=
  if negb (rehashing r) && rehash then startRehashing h r
  else if rehashing r && negb rehash then emitNode h (endRehashing r)
  else if rehashing r && rehash
  then mkRehasher true (Some (HashChildren Sum256 h (rehashNode r))) (proof r)
  else emitNode h r.

Definition rehashedProof (leafIndex : Z) (r : rehasher) : Proof_ :=
  mkProof leafIndex (proof (endRehashing r)).

(** The check that the nodes are those asked for. *)
Fixpoint checkNodes (nodes : list Node) (fetches : list NodeFetch) : outcome unit :=
  match nodes, fetches with
  | [], _ => Ok ()
  | _ :: _, [] => Panic
  | node :: nodes, fetch :: fetches =>
      same ← Equivalent (nodeID node) (fetchID fetch);
      if same : bool then checkNodes nodes fetches
      else Err (Errorf "expected node %v at proof pos %d but got %v")
  end.

Definition fetchNodes (treeRevision : Z) (fetches : list NodeFetch) : ReadM (list Node) :=
  proofNodes ← GetMerkleNodes Sum256 treeRevision (fetchID <$> fetches);
  if negb (length proofNodes =? length fetches)%nat
  then fail (Errorf "expected %d nodes from storage but got %d")
  else _ ← lift (checkNodes proofNodes fetches); mret proofNodes.

(** The nodes and the fetches have the same length. *)
Definition fetchNodesAndBuildProof (treeRevision leafIndex : Z) (fetches : list NodeFetch)
    : ReadM Proof_ :=
  proofNodes ← fetchNodes treeRevision fetches;
  let r := fold_left (λ r p, process (Hash p.1) (Rehash p.2) r) (zip proofNodes fetches)
             (mkRehasher false None []) in
  mret (rehashedProof leafIndex r).
End fetcher.

(** ** The right edge

    The last node of a level in a tree of [m] leaves. *)
Definition lastAt (m d : nat) : nat := (m - 1) / 2 ^ d.

Lemma lastAt_S m d : lastAt m (S d) = lastAt m d / 2.
Proof. unfold lastAt. rewrite Nat.Div0.div_div. f_equal. rewrite Nat.pow_succ_r'. lia. Qed.

Lemma lastAt_bounds m d : 0 < m → lastAt m d * 2 ^ d < m ≤ (lastAt m d + 1) * 2 ^ d.
Proof.
  intros Hm. unfold lastAt. pose proof (pow_pos d).
  pose proof (Nat.div_mod_eq (m - 1) (2 ^ d)). pose proof (Nat.mod_upper_bound (m - 1) (2 ^ d)). nia.
Qed.

Lemma lastAt_unique m d q : q * 2 ^ d < m → m ≤ (q + 1) * 2 ^ d → lastAt m d = q.
Proof.
  intros H1 H2. unfold lastAt. symmetry. apply (Nat.div_unique _ _ _ (m - 1 - q * 2 ^ d)); lia.
Qed.

Lemma lastAt_le m n d : m ≤ n → lastAt m d ≤ lastAt n d.
Proof. intros. apply Nat.Div0.div_le_mono. lia. Qed.

Lemma shiftr_half x : (Z.of_nat x ≫ 1 = Z.of_nat (x / 2))%Z.
Proof. rewrite Z.shiftr_div_pow2 by lia. by rewrite Nat2Z.inj_div. Qed.

Lemma wrap64_pred m : 0 < m → (Z.of_nat m < 2 ^ 63)%Z → wrap64 (Z.of_nat m - 1) = Z.of_nat (m - 1).
Proof. intros. rewrite wrap64_small by (unfold int64; lia). lia. Qed.

Lemma shiftr_nat x d : (Z.of_nat x ≫ Z.of_nat d = Z.of_nat (x / 2 ^ d))%Z.
Proof. rewrite Z.shiftr_div_pow2 by lia. by rewrite Nat2Z.inj_div, Nat2Z.inj_pow. Qed.

Lemma land_even i : (Z.land (Z.of_nat i) 1 =? 0)%Z = Nat.even i.
Proof.
  change 1%Z with (Z.ones 1). rewrite Z.land_ones by lia. change (2 ^ 1)%Z with 2%Z.
  destruct (Nat.Even_or_Odd i) as [[j ->]|[j ->]].
  - rewrite (proj2 (Nat.even_spec _)) by (by exists j). apply Z.eqb_eq.
    rewrite Nat2Z.inj_mul, Z.mul_comm. apply Z.mod_mul. lia.
  - assert (Nat.even (2 * j + 1) = false) as ->
      by (rewrite <-Nat.negb_odd, (proj2 (Nat.odd_spec _)) by (by exists j); done).
    apply Z.eqb_neq. replace (Z.of_nat (2 * j + 1)) with (1 + Z.of_nat j * 2)%Z by lia.
    by rewrite Z.mod_add by lia.
Qed.

(** The last node of a level is stored when it has two children. *)
Lemma lastNodePresent_odd m d :
  0 < m → (Z.of_nat m < 2 ^ 63)%Z → d < 64 →
  lastNodePresent (Z.of_nat (S d)) (Z.of_nat m) = Nat.odd (lastAt m d).
Proof.
  intros Hm Hmax Hd. unfold lastNodePresent. rewrite (proj2 (Z.eqb_neq _ _)) by lia.
  rewrite wrapU64_small by lia. replace (Z.of_nat (S d) - 1)%Z with (Z.of_nat d) by lia.
  rewrite Z.shiftl_mul_pow2, Z.mul_1_l by lia.
  rewrite wrapU64_small by (split; [apply Z.pow_nonneg; lia|apply Z.pow_lt_mono_r; lia]).
  unfold lastAt. rewrite <-Nat.negb_even, <-land_even, <-shiftr_nat, land_1 by lia.
  replace (Z.of_nat (m - 1)) with (Z.of_nat m - 1)%Z by lia. f_equal.
  destruct (Z.testbit (Z.of_nat m - 1) (Z.of_nat d)) eqn:E.
  - apply Z.eqb_neq. intros H0. apply (f_equal (λ z, Z.testbit z (Z.of_nat d))) in H0.
    by rewrite Z.land_spec, E, Z.pow2_bits_true, Z.bits_0 in H0 by lia.
  - apply Z.eqb_eq, Z.bits_inj_0. intros k. rewrite Z.land_spec, Z.pow2_bits_eqb by lia.
    destruct (Z.eqb_spec (Z.of_nat d) k) as [<-|]; [by rewrite E|by rewrite andb_false_r].
Qed.

(** Nodes by their coordinates. *)
Abbreviation coords := (nat * nat * bool)%type.
Definition fetchOf (c : coords) : NodeFetch :=
  mkFetch (coordsID (Z.of_nat c.1.1) (Z.of_nat c.1.2)) c.2.

Lemma newNode n d i :
  (Z.of_nat n < 2 ^ 63)%Z → present n d i →
  NewNodeIDForTreeCoords (Z.of_nat d) (Z.of_nat i) 64 = Ok (coordsID (Z.of_nat d) (Z.of_nat i)).
Proof.
  intros Hn Hp. destruct (present_logNode n d i Hn Hp) as [[Hv _] Hi]. by apply NewNodeIDForTreeCoords_valid.
Qed.

(** The last node at the end of [m] leaves that are full up to its level. *)
Lemma present_full m n d a : m = (a + 1) * 2 ^ d → m ≤ n → present n d a.
Proof. unfold present. intros -> H. pose proof (pow_pos d). nia. Qed.

(** A node left of the last one is full. *)
Lemma present_left m n d s : 0 < m → s < lastAt m d → m ≤ n → present n d s ∧ (s + 1) * 2 ^ d ≤ m.
Proof.
  intros Hm Hs Hn. pose proof (lastAt_bounds m d Hm). pose proof (pow_pos d).
  assert ((s + 1) * 2 ^ d ≤ lastAt m d * 2 ^ d) by (apply Nat.mul_le_mono_r; lia).
  split; [unfold present; nia|lia].
Qed.

(** ** Skipping levels *)

Lemma skipLoop_none fuel snapshot lastNode level sibling :
  (sibling ≠ lastNode ∨ lastNodePresent level snapshot = true)%Z →
  skipLoop fuel snapshot lastNode level sibling = (level, sibling).
Proof.
  intros H. destruct fuel; [done|]. cbn [skipLoop].
  destruct H as [Hne| ->]; [rewrite (proj2 (Z.eqb_neq _ _)) by done|]; by rewrite ?andb_false_r.
Qed.

(** The id of a node left of the right edge, or of one that is full. *)
Lemma siblingID_none m n d lastNode s :
  (Z.of_nat n < 2 ^ 63)%Z → present n d s →
  (Z.of_nat s ≠ lastNode ∨ lastNodePresent (Z.of_nat d) m = true)%Z →
  siblingIDSkipLevels m lastNode (Z.of_nat d) (Z.lxor (Z.of_nat s) 1) 64 = Ok (coordsID (Z.of_nat d) (Z.of_nat s)).
Proof.
  intros Hn Hp H. unfold siblingIDSkipLevels, skipMissingLevels. rewrite sib_Z, sib_Z, sib_sib.
  rewrite skipLoop_none by done. by apply (newNode n).
Qed.

Lemma below_64 x : (Z.of_nat x < 2 ^ 63)%Z → x < 2 ^ 64.
Proof.
  intros H. apply Nat2Z.inj_lt. rewrite Nat2Z.inj_pow. change (Z.of_nat 2 ^ Z.of_nat 64)%Z with (2 * 2 ^ 63)%Z. lia.
Qed.

Section tree.
Context (Sum256 : bytes → bytes) (L : list bytes) (m : nat).
Abbreviation n := (length L).
Context (Hm : 0 < m) (Hmn : m ≤ n) (Hn : (Z.of_nat n < 2 ^ 63)%Z).
Abbreviation l := (take m L).
Abbreviation nodeHash := (nodeHash Sum256).
Abbreviation value c := (nodeHash L c.1.1 c.1.2).

Lemma length_l : length l = m.
Proof. rewrite length_take. lia. Qed.

(** The hash of the last node of a level. *)
Lemma last_up d : Nat.even (lastAt m d) = true → nodeHash l (S d) (lastAt m (S d)) = nodeHash l d (lastAt m d).
Proof.
  intros He. apply Nat.even_spec in He as [q Hq]. rewrite lastAt_S, Hq. pose proof (lastAt_bounds m d Hm) as Hb.
  rewrite Hq in Hb. rewrite (Nat.mul_comm 2 q), Nat.div_mul by done. unfold Compact.nodeHash. f_equal.
  replace (q * 2 ^ S d) with (q * 2 * 2 ^ d) by (rewrite Nat.pow_succ_r'; lia).
  set (x := drop (q * 2 * 2 ^ d) l).
  assert (length x = m - q * 2 * 2 ^ d) as Hx by (unfold x; rewrite length_drop, length_l; done).
  rewrite !(take_ge x) by (rewrite Hx, ?Nat.pow_succ_r'; lia). done.
Qed.

Lemma last_up_odd d :
  Nat.odd (lastAt m d) = true →
  nodeHash l (S d) (lastAt m (S d)) =
  HashChildren Sum256 (Some (nodeHash L d (lastAt m d - 1))) (Some (nodeHash l d (lastAt m d))).
Proof.
  intros Ho. apply Nat.odd_spec in Ho as [q Hq]. rewrite lastAt_S, Hq. pose proof (lastAt_bounds m d Hm) as Hb.
  rewrite Hq in Hb. rewrite Nat.add_sub. replace ((2 * q + 1) / 2) with q by (rewrite Nat.add_comm, Nat.mul_comm, Nat.div_add by done; done).
  pose proof (pow_pos d). rewrite <-(nodeHash_take Sum256 L d (2 * q) m) by lia.
  unfold Compact.nodeHash. set (x := drop (2 * q * 2 ^ d) l).
  replace (q * 2 ^ S d) with (2 * q * 2 ^ d) by (rewrite Nat.pow_succ_r'; lia). fold x.
  replace (drop ((2 * q + 1) * 2 ^ d) l) with (drop (2 ^ d) x) by (unfold x; rewrite drop_drop; f_equal; lia).
  assert (length x = m - 2 * q * 2 ^ d) as Hx by (unfold x; rewrite length_drop, length_l; done).
  rewrite (take_ge (drop (2 ^ d) x)) by (rewrite length_drop; lia).
  rewrite (take_ge x) by (rewrite Hx, Nat.pow_succ_r'; lia).
  rewrite <-(take_drop (2 ^ d) x) at 1.
  rewrite (MTH_app Sum256 d); [done|rewrite length_take; lia|rewrite length_drop; lia].
Qed.

(** Skipping from the last node of a level to one that is stored. *)
Lemma skipLoop_last d :
  present n 0 (n - 1) → m = n → d < 64 →
  ∃ d', skipLoop d (Z.of_nat m) (Z.of_nat (lastAt m d)) (Z.of_nat d) (Z.of_nat (lastAt m d)) =
          (Z.of_nat d', Z.of_nat (lastAt m d')) ∧
    present n d' (lastAt m d') ∧ nodeHash l d' (lastAt m d') = nodeHash l d (lastAt m d).
Proof.
  intros H0 E. induction d as [|d IH]; intros Hd.
  { exists 0. split; [done|]. split; [|done]. unfold lastAt. rewrite Nat.pow_0_r, Nat.div_1_r. by rewrite E. }
  cbn [skipLoop]. rewrite (proj2 (Z.ltb_lt _ _)), Z.eqb_refl, lastNodePresent_odd by lia. cbn [andb].
  destruct (Nat.odd (lastAt m d)) eqn:Eo; cbn [negb].
  - exists (S d). split; [done|]. split; [|done]. apply Nat.odd_spec in Eo as [q Hq].
    pose proof (lastAt_bounds m d Hm) as Hb. rewrite lastAt_S. rewrite Hq in *.
    replace ((2 * q + 1) / 2) with q by (rewrite Nat.add_comm, Nat.mul_comm, Nat.div_add by done; done).
    unfold present. rewrite Nat.pow_succ_r'. pose proof (pow_pos d). nia.
  - assert (Nat.even (lastAt m d) = true) as Ee by (rewrite <-Nat.negb_odd, Eo; done).
    rewrite (last_up d Ee). replace (Z.of_nat (S d) - 1)%Z with (Z.of_nat d) by lia.
    rewrite wrap64_pred, shiftr_nat by lia. fold (lastAt m d).
    assert (wrap64 (Z.of_nat (lastAt m (S d)) * 2) = Z.of_nat (lastAt m d)) as ->.
    { apply Nat.even_spec in Ee as [q Hq]. rewrite lastAt_S, Hq, (Nat.mul_comm 2 q), Nat.div_mul by done.
      pose proof (lastAt_bounds m d Hm) as Hb. pose proof (pow_pos d).
      rewrite wrap64_small; [lia|]. unfold int64. nia. }
    apply IH. lia.
Qed.

(** *** What the rehasher makes of fetches *)

Definition run (cs : list coords) (r : rehasher) : rehasher :=
  fold_left (λ r c, process Sum256 (Some (value c)) c.2 r) cs r.
Definition flat (r : rehasher) : list slice := proof (endRehashing r).
Definition plain (cs : list coords) : Prop := Forall (λ c, c.2 = false) cs.
Definition yields (cs : list coords) (hs : list bytes) : Prop :=
  ∀ r, rehashing r = false → flat (run cs r) = proof r ++ (Some <$> hs).
(** All of [cs] is hashed to the node [h]. *)
Definition rehashes (cs : list coords) (h : bytes) : Prop :=
  Forall (λ c, c.2 = true) cs ∧ 2 ≤ length cs ∧
  ∀ r, rehashing r = false → run cs r = mkRehasher true (Some h) (proof r).
Definition fetchable (cs : list coords) : Prop := Forall (λ c, present n c.1.1 c.1.2) cs.

Lemma run_app cs cs' r : run (cs ++ cs') r = run cs' (run cs r).
Proof. apply fold_left_app. Qed.

Lemma run_cons c cs r : run (c :: cs) r = run cs (process Sum256 (Some (value c)) c.2 r).
Proof. done. Qed.

Lemma process_plain h r : process Sum256 h false r = mkRehasher false (rehashNode r) (flat r ++ [h]).
Proof. destruct r as [[] ? ?]; reflexivity. Qed.

Lemma run_plain cs : plain cs → ∀ r,
  flat (run cs r) = flat r ++ (Some <$> ((λ c, value c) <$> cs)) ∧
  (rehashing r = false → run cs r = mkRehasher false (rehashNode r) (proof r ++ (Some <$> ((λ c, value c) <$> cs)))).
Proof.
  induction 1 as [|c cs Hc _ IH]; intros r.
  { change (run [] r) with r. rewrite !app_nil_r. split; [done|]. intros E. destruct r. cbn in *. by subst. }
  rewrite run_cons, Hc, process_plain, !fmap_cons. destruct (IH (mkRehasher false (rehashNode r) (flat r ++ [Some (value c)]))) as [H1 H2].
  rewrite H1. split; [unfold flat at 1; cbn; by rewrite <-app_assoc|]. intros Hr. rewrite H2 by done.
  cbn [rehashNode proof]. unfold flat, endRehashing. rewrite Hr. by rewrite <-app_assoc.
Qed.

Lemma yields_plain cs : plain cs → yields cs ((λ c, value c) <$> cs).
Proof. intros Hp r Hr. rewrite (proj1 (run_plain cs Hp r)). unfold flat, endRehashing. by rewrite Hr. Qed.

Lemma yields_app_l cs cs' hs : plain cs → yields cs' hs → yields (cs ++ cs') (((λ c, value c) <$> cs) ++ hs).
Proof.
  intros Hp Hy r Hr. rewrite run_app, (proj2 (run_plain cs Hp r) Hr), Hy by done. cbn [proof].
  by rewrite (fmap_app Some), app_assoc.
Qed.

Lemma yields_app_r cs hs cs' : yields cs hs → plain cs' → yields (cs ++ cs') (hs ++ ((λ c, value c) <$> cs')).
Proof. intros Hy Hp r Hr. rewrite run_app, (proj1 (run_plain cs' Hp _)), Hy by done. by rewrite (fmap_app Some), app_assoc. Qed.

Lemma rehashes_yields cs h : rehashes cs h → yields cs [h].
Proof. intros (_ & _ & H) r Hr. by rewrite H. Qed.

Lemma all_rehash cs :
  Forall (λ c, c.2 = true) cs → forallb (λ f, Bool.eqb (Rehash f) true) (fetchOf <$> cs) = true.
Proof.
  intros Hc. rewrite Forall_forall in Hc. apply forallb_forall. intros x Hin%list_elem_of_In.
  apply list_elem_of_fmap in Hin as (c & -> & Hin). change (Rehash (fetchOf c)) with c.2. by rewrite (Hc _ Hin).
Qed.

Lemma rehashes_check cs h : rehashes cs h → checkRecomputation (fetchOf <$> cs) = Ok ().
Proof.
  intros (Ht & Hl & _). destruct cs as [|c [|c' cs]]; [simpl in Hl; lia..|]. apply Forall_cons in Ht as [Hc Ht].
  apply all_rehash in Ht. rewrite !fmap_cons in *. unfold checkRecomputation.
  change (Rehash (fetchOf c)) with c.2. by rewrite Hc, Ht.
Qed.

(** One more node to hash with. *)
Lemma rehashes_snoc cs d :
  rehashes cs (nodeHash l d (lastAt m d)) → Nat.odd (lastAt m d) = true →
  rehashes (cs ++ [(d, lastAt m d - 1, true)]) (nodeHash l (S d) (lastAt m (S d))).
Proof.
  intros (Ht & Hl & Hr) Ho. split; [by apply Forall_app; split; [|repeat constructor]|].
  split; [rewrite length_app; lia|]. intros r Hf. rewrite run_app, Hr by done. cbn.
  by rewrite (last_up_odd d Ho).
Qed.

Lemma rehashes_two t d a :
  nodeHash L t a = nodeHash l d (lastAt m d) → Nat.odd (lastAt m d) = true →
  rehashes [(t, a, true); (d, lastAt m d - 1, true)] (nodeHash l (S d) (lastAt m (S d))).
Proof.
  intros E Ho. split; [by repeat constructor|]. split; [simpl; lia|]. intros [rh h p] Hr. cbn in Hr. subst rh.
  cbn. by rewrite (last_up_odd d Ho), E.
Qed.

(** *** The loops of [recomputePastSnapshot] *)

Lemma lastAt_nonzero d e : e ≤ d → lastAt m d ≠ 0 → lastAt m e ≠ 0.
Proof.
  intros He Hd E. pose proof (lastAt_bounds m d Hm). pose proof (lastAt_bounds m e Hm) as Hb. rewrite E in Hb.
  pose proof (Nat.pow_le_mono_r 2 e d ltac:(done) He). nia.
Qed.

Lemma lastAt_full e a : m = (a + 1) * 2 ^ e → lastAt m e = a.
Proof. intros E. pose proof (pow_pos e). apply lastAt_unique; nia. Qed.

Lemma full_present e a :
  m = (a + 1) * 2 ^ e → e ≤ 64 → lastNodePresent (Z.of_nat e) (Z.of_nat m) = true.
Proof.
  intros E He. destruct e as [|e]; [done|]. rewrite lastNodePresent_odd by lia.
  assert (lastAt m e = 2 * a + 1) as -> by (apply lastAt_full; rewrite E, Nat.pow_succ_r'; lia).
  apply Nat.odd_spec. by exists a.
Qed.

Lemma full_id e a :
  m = (a + 1) * 2 ^ e → e < 64 →
  siblingIDSkipLevels (Z.of_nat m) (Z.of_nat (lastAt n e)) (Z.of_nat e) (Z.lxor (Z.of_nat a) 1) 64 =
    Ok (coordsID (Z.of_nat e) (Z.of_nat a)).
Proof.
  intros E He. apply (siblingID_none _ n); [done|by apply (present_full m)|]. right. apply (full_present e a); [done|lia].
Qed.

Lemma recomputeUp_spec d f : ∀ e a,
  m = (a + 1) * 2 ^ e → e ≤ d → d < 64 → a < 2 ^ f →
  let r := recomputeUp (Z.of_nat m) (Z.of_nat d) 64 f (Z.of_nat a) (Z.of_nat (lastAt n e)) (Z.of_nat e) in
  (r = Ok (inl (fetchOf (d, lastAt m d, false))) ∧ m = (lastAt m d + 1) * 2 ^ d) ∨
  ∃ t, r = Ok (inr (Z.of_nat (lastAt m t), Z.of_nat (lastAt n t), Z.of_nat t)) ∧ t ≤ d ∧
    m = (lastAt m t + 1) * 2 ^ t ∧ Nat.even (lastAt m t) = true.
Proof.
  induction f as [|f IH]; intros e a Hma He Hd Hf r; unfold r; cbn [recomputeUp]; rewrite land_even.
  { assert (a = 0) as -> by (simpl in Hf; lia). right. exists e. by rewrite (lastAt_full e 0). }
  destruct (Nat.even a) eqn:Ea.
  { right. exists e. by rewrite (lastAt_full e a). }
  assert (Nat.odd a = true) as [q Hq]%Nat.odd_spec by (by rewrite <-Nat.negb_even, Ea).
  destruct (Z.eqb_spec (Z.of_nat d) (Z.of_nat e)) as [E|Hne].
  - apply Nat2Z.inj in E as ->. left. rewrite (lastAt_full e a), full_id by (done || lia). done.
  - rewrite !shiftr_half, <-lastAt_S. replace (Z.of_nat e + 1)%Z with (Z.of_nat (S e)) by lia.
    assert (a / 2 = q) as -> by (rewrite Hq, Nat.add_comm, Nat.mul_comm, Nat.div_add by done; done).
    apply IH; [rewrite Hma, Hq, Nat.pow_succ_r'; lia|lia|done|]. rewrite Nat.pow_succ_r' in Hf. lia.
Qed.

(** The left sibling of the last node, which is full. *)
Lemma left_id e :
  lastAt m e ≠ 0 → Nat.odd (lastAt m e) = true →
  siblingIDSkipLevels (Z.of_nat m) (Z.of_nat (lastAt n e)) (Z.of_nat e) (Z.lxor (Z.of_nat (lastAt m e) - 1) 1) 64 =
    Ok (coordsID (Z.of_nat e) (Z.of_nat (lastAt m e - 1))) ∧ present n e (lastAt m e - 1).
Proof.
  intros H0 Ho. destruct (present_left m n e (lastAt m e - 1)) as [Hp _]; [lia..|].
  replace (Z.of_nat (lastAt m e) - 1)%Z with (Z.of_nat (lastAt m e - 1)) by lia. split; [|done].
  apply (siblingID_none _ n); [done|done|]. left. pose proof (lastAt_le m n e Hmn). lia.
Qed.

Lemma recomputeRehash_emitted d saved f : ∀ e cs,
  e < d → lastAt m d ≠ 0 → d - e ≤ f → fetchable cs → rehashes cs (nodeHash l e (lastAt m e)) →
  ∃ cs', recomputeRehash (Z.of_nat m) (Z.of_nat d) 64 f saved (fetchOf <$> cs) true true
      (Z.of_nat (lastAt m e)) (Z.of_nat (lastAt n e)) (Z.of_nat e) = Ok (fetchOf <$> cs') ∧
    fetchable cs' ∧ rehashes cs' (nodeHash l d (lastAt m d)).
Proof.
  induction f as [|f IH]; intros e cs He Hd Hf Hst Hcs; [lia|]. pose proof (lastAt_nonzero d e ltac:(lia) Hd) as H0.
  cbn [recomputeRehash]. rewrite (proj2 (Z.eqb_neq _ _)) by lia. rewrite land_even.
  assert (∃ cs', (if negb (Nat.even (lastAt m e)) then
      nodeID ← siblingIDSkipLevels (Z.of_nat m) (Z.of_nat (lastAt n e)) (Z.of_nat e)
                 (Z.lxor (Z.of_nat (lastAt m e) - 1) 1) 64;
      Ok ((fetchOf <$> cs) ++ [mkFetch nodeID true], true, true)
    else Ok (fetchOf <$> cs, true, true)) = Ok (fetchOf <$> cs', true, true) ∧
    fetchable cs' ∧ rehashes cs' (nodeHash l (S e) (lastAt m (S e)))) as (cs1 & E & Hst1 & Hcs1).
  { destruct (Nat.even (lastAt m e)) eqn:Ee; cbn [negb].
    - exists cs. by rewrite (last_up e Ee).
    - assert (Nat.odd (lastAt m e) = true) as Ho by (by rewrite <-Nat.negb_even, Ee).
      destruct (left_id e H0 Ho) as [-> Hp]. exists (cs ++ [(e, lastAt m e - 1, true)]).
      split; [by rewrite fmap_app|]. split; [by apply Forall_app; split; [|repeat constructor]|]. by apply rehashes_snoc. }
  cbn [negb andb orb]. rewrite E. clear E. unfold_O. cbn [negb andb orb]. rewrite andb_false_r.
  replace (Z.of_nat e + 1)%Z with (Z.of_nat (S e)) by lia.
  destruct (Z.eqb_spec (Z.of_nat (S e)) (Z.of_nat d)) as [E|Hne].
  - apply Nat2Z.inj in E as <-. by exists cs1.
  - rewrite !shiftr_half, <-!lastAt_S. apply IH; [lia|done|lia|done|done].
Qed.

Lemma recomputeRehash_start d t a f : ∀ e,
  e < d → lastAt m d ≠ 0 → d - e ≤ f → present n t a → nodeHash L t a = nodeHash l e (lastAt m e) →
  ∃ cs, recomputeRehash (Z.of_nat m) (Z.of_nat d) 64 f (coordsID (Z.of_nat t) (Z.of_nat a)) [] false false
      (Z.of_nat (lastAt m e)) (Z.of_nat (lastAt n e)) (Z.of_nat e) = Ok (fetchOf <$> cs) ∧
    fetchable cs ∧ checkRecomputation (fetchOf <$> cs) = Ok () ∧ yields cs [nodeHash l d (lastAt m d)].
Proof.
  induction f as [|f IH]; intros e He Hd Hf Hp Eh; [lia|]. pose proof (lastAt_nonzero d e ltac:(lia) Hd) as H0.
  cbn [recomputeRehash]. rewrite (proj2 (Z.eqb_neq _ _)) by lia. rewrite land_even.
  replace (Z.of_nat e + 1)%Z with (Z.of_nat (S e)) by lia.
  destruct (Nat.even (lastAt m e)) eqn:Ee; cbn [negb andb orb].
  - unfold_O. cbn [negb andb]. rewrite <-(last_up e Ee) in Eh.
    destruct (Z.eqb_spec (Z.of_nat d) (Z.of_nat (S e))) as [E|Hne]; cbn [andb].
    + apply Nat2Z.inj in E as ->. exists [(t, a, false)]. split; [done|]. split; [by repeat constructor|].
      split; [done|]. rewrite <-Eh. by apply (yields_plain [(t, a, false)]); repeat constructor.
    + rewrite (proj2 (Z.eqb_neq _ _)) by lia. rewrite !shiftr_half, <-!lastAt_S. by apply IH; [lia|..|lia| |].
  - assert (Nat.odd (lastAt m e) = true) as Ho by (by rewrite <-Nat.negb_even, Ee).
    destruct (left_id e H0 Ho) as [-> Hp']. unfold_O. cbn [negb andb orb app]. rewrite andb_false_r.
    pose proof (rehashes_two t e a Eh Ho) as Hcs.
    assert (fetchable [(t, a, true); (e, lastAt m e - 1, true)]) as Hst by by repeat constructor.
    destruct (Z.eqb_spec (Z.of_nat (S e)) (Z.of_nat d)) as [E|Hne].
    + apply Nat2Z.inj in E as <-. exists [(t, a, true); (e, lastAt m e - 1, true)]. split; [done|]. split; [done|].
      split; [by eapply rehashes_check|by apply rehashes_yields].
    + rewrite !shiftr_half, <-!lastAt_S.
      destruct (recomputeRehash_emitted d (coordsID (Z.of_nat t) (Z.of_nat a)) f (S e) _ ltac:(lia) Hd ltac:(lia) Hst Hcs)
        as (cs' & E & Hst' & Hcs'). exists cs'. split; [exact E|]. split; [done|].
      split; [by eapply rehashes_check|by apply rehashes_yields].
Qed.

Lemma lastAt_level d : lastAt m d ≠ 0 → d < 63.
Proof.
  intros H0. pose proof (lastAt_bounds m d Hm). pose proof (pow_pos d). assert (2 ^ d < m) by nia.
  apply Nat2Z.inj_lt, (Z.pow_lt_mono_r_iff 2); [lia..|]. change (Z.of_nat 63) with 63%Z.
  assert (Z.of_nat (2 ^ d) = 2 ^ Z.of_nat d)%Z as <- by (by rewrite Nat2Z.inj_pow). lia.
Qed.

(** The last node of a level in an earlier tree is hashed from stored nodes. *)
Lemma recompute_last d :
  m ≠ n → Nat.odd (lastAt m d) = true →
  ∃ cs, recomputePastSnapshot (Z.of_nat m) (Z.of_nat d) 64 (Z.of_nat n) = Ok (fetchOf <$> cs) ∧
    fetchable cs ∧ checkRecomputation (fetchOf <$> cs) = Ok () ∧ yields cs [nodeHash l d (lastAt m d)].
Proof.
  intros Hne Ho. assert (lastAt m d ≠ 0) as H0 by (by intros E; rewrite E in Ho).
  pose proof (lastAt_level d H0) as Hd. unfold recomputePastSnapshot.
  rewrite (proj2 (Z.eqb_neq _ _)), (proj2 (Z.ltb_ge _ _)), !wrap64_pred by lia.
  assert (n - 1 = lastAt n 0) as -> by (unfold lastAt; by rewrite Nat.pow_0_r, Nat.div_1_r).
  destruct (recomputeUp_spec d 64 0 (m - 1)) as [[E Hfull]|(t & E & Htd & Hfull & Ev)];
    [rewrite Nat.pow_0_r; lia|lia|lia|apply below_64; lia|..]; change (Z.of_nat 0) with 0%Z in E; rewrite E; unfold_O.
  - exists [(d, lastAt m d, false)]. split; [done|]. split; [repeat constructor; by apply (present_full m)|].
    split; [done|]. rewrite nodeHash_take by lia. by apply (yields_plain [(d, lastAt m d, false)]); repeat constructor.
  - rewrite (full_id t (lastAt m t) Hfull) by lia.
    destruct (Z.eqb_spec (Z.of_nat d) (Z.of_nat t)) as [Edt|Hdt].
    { apply Nat2Z.inj in Edt as ->. by rewrite <-Nat.negb_even, Ev in Ho. }
    apply recomputeRehash_start; [lia|done|lia|by apply (present_full m)|]. by rewrite nodeHash_take by lia.
Qed.

(** *** The path to the root *)

Lemma piece_edge d : lastAt m d ≠ 0 → let s := sib (lastAt m d) in
  (s = lastAt m d + 1 ∧ piece Sum256 l d (lastAt m d) = []) ∨
  (s < lastAt m d ∧ piece Sum256 l d (lastAt m d) = [nodeHash L d s] ∧ present n d s).
Proof.
  intros H0 s. pose proof (lastAt_bounds m d Hm) as Hb. pose proof (pow_pos d).
  unfold piece. fold s. rewrite length_l.
  assert (s = lastAt m d + 1 ∨ s < lastAt m d) as [E|Hlt]
    by (unfold s; destruct (sib_cases (lastAt m d)) as [(j & ? & ->)|(j & ? & ->)]; lia).
  - left. split; [done|]. by rewrite E, decide_False by lia.
  - right. destruct (present_left m n d s Hm Hlt Hmn) as [Hp Hle]. split; [done|].
    rewrite decide_True by lia. by rewrite nodeHash_take by lia.
Qed.

Lemma pathLoop_edge f : ∀ d,
  m ≤ 2 ^ (d + f) →
  ∃ cs, pathLoop (Z.of_nat m) (Z.of_nat n) 64 f (Z.of_nat (lastAt m d)) (Z.of_nat d) (Z.of_nat (lastAt m d)) =
      Ok (fetchOf <$> cs) ∧ plain cs ∧ fetchable cs ∧
    (λ c, value c) <$> cs = siblings Sum256 l d f (lastAt m d).
Proof.
  induction f as [|f IH]; intros d Hf; destruct (decide (lastAt m d = 0)) as [E0|H0].
  1,3: exists []; rewrite E0; split; [done|]; split; [constructor|]; split; [constructor|];
    symmetry; apply siblings_none; rewrite length_l; pose proof (lastAt_bounds m d Hm) as Hb; rewrite E0 in Hb; lia.
  { pose proof (lastAt_bounds m d Hm) as Hb. rewrite Nat.add_0_r in Hf. nia. }
  cbn [pathLoop]. rewrite (proj2 (Z.eqb_neq _ _)), sib_Z, siblings_cons, shiftr_half by lia. rewrite <-lastAt_S.
  replace (Z.of_nat d + 1)%Z with (Z.of_nat (S d)) by lia.
  destruct (IH (S d)) as (cs & E & Hpl & Hst & Hv); [by rewrite Nat.add_succ_l, <-Nat.add_succ_r|].
  destruct (piece_edge d H0) as [[Es ->]|(Hlt & -> & Hp)].
  - rewrite (proj2 (Z.ltb_ge _ _)), (proj2 (Z.eqb_neq _ _)) by lia. unfold_O. rewrite E. by exists cs.
  - rewrite (proj2 (Z.ltb_lt _ _)), (newNode n) by (done || lia). unfold_O. rewrite E.
    exists ((d, sib (lastAt m d), false) :: cs). split; [done|]. split; [by constructor|]. split; [by constructor|].
    by rewrite fmap_cons, Hv.
Qed.

(** The fetches for the last node of a level, in the current tree or an earlier
    one. *)
Lemma last_fetch d i :
  lastAt m d ≠ 0 → sib i = lastAt m d → Nat.odd (lastAt m d) = true →
  ∃ cs, (if (Z.of_nat m =? Z.of_nat n)%Z then
           id ← siblingIDSkipLevels (Z.of_nat m) (Z.of_nat (lastAt m d)) (Z.of_nat d) (Z.of_nat i) 64;
           Ok [mkFetch id false]
         else
           rehashFetches ← recomputePastSnapshot (Z.of_nat m) (Z.of_nat d) 64 (Z.of_nat n);
           _ ← checkRecomputation rehashFetches;
           Ok rehashFetches) = Ok (fetchOf <$> cs) ∧ fetchable cs ∧ yields cs [nodeHash l d (lastAt m d)].
Proof.
  intros H0 Es Ho. pose proof (lastAt_level d H0). destruct (Z.eqb_spec (Z.of_nat m) (Z.of_nat n)) as [E|Hne].
  - apply Nat2Z.inj in E. unfold siblingIDSkipLevels, skipMissingLevels. rewrite sib_Z, Es, Nat2Z.id.
    destruct (skipLoop_last d) as (d' & -> & Hp & Eh); [unfold present; simpl; lia|done|lia|].
    rewrite (newNode n) by done. exists [(d', lastAt m d', false)]. split; [done|].
    split; [by repeat constructor|]. rewrite <-Eh. rewrite take_ge by lia.
    by apply (yields_plain [(d', lastAt m d', false)]); repeat constructor.
  - destruct (recompute_last d) as (cs & -> & Hst & Hck & Hy); [lia|done|]. unfold_O. rewrite Hck. by exists cs.
Qed.

Lemma pathLoop_spec f : ∀ d i,
  i ≤ lastAt m d → m ≤ 2 ^ (d + f) →
  ∃ cs, pathLoop (Z.of_nat m) (Z.of_nat n) 64 f (Z.of_nat i) (Z.of_nat d) (Z.of_nat (lastAt m d)) =
      Ok (fetchOf <$> cs) ∧ fetchable cs ∧ yields cs (siblings Sum256 l d f i).
Proof.
  induction f as [|f IH]; intros d i Hi Hf; (destruct (decide (i = lastAt m d)) as [->|Hne];
    [destruct (pathLoop_edge _ d Hf) as (cs & E & Hpl & Hst & Hv); exists cs; split; [exact E|]; split; [done|];
     rewrite <-Hv; by apply yields_plain|]).
  { pose proof (lastAt_bounds m d Hm) as Hb. rewrite Nat.add_0_r in Hf. pose proof (pow_pos d). nia. }
  assert (lastAt m d ≠ 0) as H0 by lia. cbn [pathLoop].
  rewrite (proj2 (Z.eqb_neq _ _)), sib_Z, siblings_cons, !shiftr_half by lia. rewrite <-lastAt_S.
  replace (Z.of_nat d + 1)%Z with (Z.of_nat (S d)) by lia.
  assert (m ≤ 2 ^ (S d + f)) as Hf' by (by rewrite Nat.add_succ_l, <-Nat.add_succ_r).
  pose proof (lastAt_bounds m d Hm) as Hb. pose proof (pow_pos d).
  assert (sib i ≤ lastAt m d) as Hs by (destruct (sib_cases i) as [(j & ? & ->)|(j & ? & ->)]; lia).
  unfold piece. rewrite length_l, decide_True by nia.
  destruct (decide (sib i = lastAt m d)) as [Es|Hns].
  - assert (i / 2 = lastAt m (S d) ∧ Nat.odd (lastAt m d) = true) as [-> Ho].
    { rewrite lastAt_S, <-Es. destruct (sib_cases i) as [(j & -> & E)|(j & -> & E)]; [|lia]. rewrite E. split.
      - rewrite (Nat.mul_comm 2 j), Nat.div_mul, Nat.add_comm, Nat.div_add by done. done.
      - apply Nat.odd_spec. by exists j. }
    rewrite Es, (proj2 (Z.ltb_ge _ _)), Z.eqb_refl by lia.
    destruct (pathLoop_edge f (S d) Hf') as (cs' & E' & Hpl & Hst' & Hv). rewrite E', <-Hv.
    destruct (last_fetch d i H0 Es Ho) as (cs & E & Hst & Hy). rewrite E. unfold_O.
    exists (cs ++ cs'). split; [by rewrite fmap_app|]. split; [by apply Forall_app|]. by apply yields_app_r.
  - rewrite (proj2 (Z.ltb_lt _ _)) by lia. destruct (present_left m n d (sib i) Hm ltac:(lia) Hmn) as [Hp Hle].
    rewrite (newNode n) by done. unfold_O.
    destruct (IH (S d) (i / 2)) as (cs & -> & Hst & Hy);
      [rewrite lastAt_S; by apply Nat.Div0.div_le_mono|done|].
    exists ((d, sib i, false) :: cs). split; [done|]. split; [by constructor|]. rewrite nodeHash_take by lia.
    apply (yields_app_l [(d, sib i, false)]); [by repeat constructor|done].
Qed.

Lemma path_fetches d i :
  i ≤ lastAt m d →
  ∃ cs, pathFromNodeToRootAtSnapshot (Z.of_nat m) (Z.of_nat n) 64 (Z.of_nat i) (Z.of_nat d) = Ok (fetchOf <$> cs) ∧
    fetchable cs ∧ yields cs (siblings Sum256 l d 64 i).
Proof.
  intros Hi. unfold pathFromNodeToRootAtSnapshot. rewrite (proj2 (Z.eqb_neq _ _)), wrap64_pred, shiftr_nat by lia.
  fold (lastAt m d). apply pathLoop_spec; [done|]. pose proof (below_64 m ltac:(lia)).
  rewrite Nat.pow_add_r. pose proof (pow_pos d). nia.
Qed.
End tree.

(** ** The proofs are those of RFC 6962 *)

Section addresses.
Context (Sum256 : bytes → bytes) (L : list bytes) (m : nat).
Abbreviation n := (length L).
Context (Hmn : m ≤ n) (Hn : (Z.of_nat n < 2 ^ 63)%Z).
Abbreviation l := (take m L).

Lemma inclusion_fetches i :
  i < m →
  ∃ cs, CalcInclusionProofNodeAddresses (Z.of_nat m) (Z.of_nat i) (Z.of_nat n) 64 = Ok (fetchOf <$> cs) ∧
    fetchable L cs ∧ yields Sum256 L cs (PATH Sum256 i l).
Proof.
  intros Hi. unfold CalcInclusionProofNodeAddresses, checkSnapshot.
  rewrite !(proj2 (Z.ltb_ge _ _)), !(proj2 (Z.leb_gt _ _)) by lia.
  assert (length l = m) as Hl by (rewrite length_take; lia).
  rewrite (PATH_siblings Sum256 64) by (rewrite Hl; first [done|apply Nat.lt_le_incl, below_64; lia]).
  apply (path_fetches Sum256 L m ltac:(lia) Hmn Hn 0). unfold lastAt. rewrite Nat.pow_0_r, Nat.div_1_r. lia.
Qed.

Lemma moveUp_spec m1 f : ∀ e a,
  m1 = (a + 1) * 2 ^ e → a < 2 ^ f →
  ∃ j t, moveUp f (Z.of_nat e) (Z.of_nat a) = Ok (Z.of_nat t, Z.of_nat (2 * j)) ∧ m1 = (2 * j + 1) * 2 ^ t.
Proof.
  induction f as [|f IH]; intros e a E Hf; cbn [moveUp]; rewrite land_even.
  { assert (a = 0) as -> by (simpl in Hf; lia). by exists 0, e. }
  destruct (Nat.Even_or_Odd a) as [[j Ej]|[j Ej]].
  - rewrite (proj2 (Nat.even_spec _)) by (by exists j). exists j, e. rewrite Ej in *. done.
  - assert (Nat.even a = false) as -> by (rewrite <-Nat.negb_odd, (proj2 (Nat.odd_spec _)) by (by exists j); done).
    rewrite shiftr_half. assert (a / 2 = j) as -> by (rewrite Ej, Nat.add_comm, Nat.mul_comm, Nat.div_add by done; done).
    replace (Z.of_nat e + 1)%Z with (Z.of_nat (S e)) by lia. rewrite Nat.pow_succ_r' in Hf.
    apply IH; [rewrite E, Ej, Nat.pow_succ_r'; lia|lia].
Qed.

Lemma consistency_fetches m1 :
  0 < m1 ≤ m →
  ∃ cs, CalcConsistencyProofNodeAddresses (Z.of_nat m1) (Z.of_nat m) (Z.of_nat n) 64 = Ok (fetchOf <$> cs) ∧
    fetchable L cs ∧ yields Sum256 L cs (PROOF Sum256 m1 l).
Proof.
  intros Hm1. unfold CalcConsistencyProofNodeAddresses, checkSnapshot.
  rewrite !(proj2 (Z.ltb_ge _ _)) by lia. unfold_O. rewrite (proj2 (Z.leb_gt _ _)) by lia.
  assert (length l = m) as Hl by (rewrite length_take; lia). unfold snapshotConsistency, PROOF.
  destruct (Z.eqb_spec (Z.of_nat m1) (Z.of_nat m)) as [E|Hne].
  { apply Nat2Z.inj in E as ->. exists []. split; [done|]. split; [constructor|].
    replace (SUBPROOF Sum256 m l true) with (SUBPROOF Sum256 (length l) l true) by (by rewrite Hl).
    rewrite SUBPROOF_all by lia. apply (yields_plain Sum256 L []). constructor. }
  rewrite wrap64_pred by lia. change 0%Z with (Z.of_nat 0).
  destruct (moveUp_spec m1 64 0 (m1 - 1)) as (j & t & -> & Em1); [rewrite Nat.pow_0_r; lia|apply below_64; lia|].
  unfold_O. pose proof (pow_pos t).
  assert (present n t (2 * j) ∧ nodeHash Sum256 l t (2 * j) = nodeHash Sum256 L t (2 * j)) as [Hp Eh].
  { split; [apply (present_full m1); lia|]. apply nodeHash_take. lia. }
  destruct (path_fetches Sum256 L m ltac:(lia) Hmn Hn t (2 * j)) as (cs & Ep & Hst & Hy).
  { apply Nat.div_le_lower_bound; [lia|]. nia. }
  assert (m ≤ 2 ^ (64 + t)).
  { pose proof (below_64 m ltac:(lia)). rewrite Nat.pow_add_r. nia. }
  rewrite (SUBPROOF_siblings Sum256 (64 + t) l m1 j t true) by (rewrite ?Hl; lia).
  rewrite Nat.add_sub. destruct (Nat.eqb_spec j 0) as [->|Hj].
  - rewrite Ep. by exists cs.
  - rewrite (proj2 (Z.eqb_neq _ _)), (newNode n) by (done || lia). rewrite Ep.
    exists ((t, 2 * j, false) :: cs). split; [done|]. split; [by constructor|]. cbn [andb]. rewrite Eh.
    apply (yields_app_l Sum256 L [(t, 2 * j, false)]); [by repeat constructor|done].
Qed.
End addresses.

(** ** Reading the nodes of a proof *)

Section reading.
Context (Sum256 : bytes → bytes).
Context `{!Codec SubtreeProto, !MapRange bytes, !MapRangeLaws bytes}.
Context (m : kvmap) (t rev : Z) (L : list bytes) (Hsto : stores Sum256 L m t rev).
Context (Hn : (Z.of_nat (length L) < 2 ^ 63)%Z).
Abbreviation populate := (populateLogSubtreeNodes Sum256).

(** A snapshot that reads the tree over [L]. *)
Record snapshot_of (tx : readOnlyLogTreeTX) : Prop := {
  sn_tree : treeID tx = t;
  sn_rev : TreeRevision (root tx) = rev;
  sn_cache : cache_for populate (dbStore m t rev) (treeNode Sum256 L) (subtreeCache tx)
}.

Lemma stored_nodes (tx : readOnlyLogTreeTX) cs :
  snapshot_of tx → fetchable L cs →
  nodesOf populate (dbStore m t rev) (subtreeCache tx) ((λ c : coords, (Z.of_nat c.1.1, Z.of_nat c.1.2)) <$> cs) =
  (λ c : coords, mkNode (coordsID (Z.of_nat c.1.1) (Z.of_nat c.1.2)) (Some (nodeHash Sum256 L c.1.1 c.1.2))) <$> cs.
Proof.
  intros [_ _ Hc]. induction 1 as [|[[d i] b] cs Hp _ IH]; [done|]. rewrite !fmap_cons, <-IH.
  unfold nodesOf. cbn [omap list_omap fst snd]. destruct (present_logNode _ _ _ Hn Hp) as [Hx _].
  rewrite (abs_for _ _ (treeNode Sum256 L)) by done. unfold treeNode. by rewrite decide_True by done.
Qed.

Lemma checkNodes_Ok cs :
  fetchable L cs →
  checkNodes ((λ c : coords, mkNode (coordsID (Z.of_nat c.1.1) (Z.of_nat c.1.2)) (Some (nodeHash Sum256 L c.1.1 c.1.2))) <$> cs)
    (fetchOf <$> cs) = Ok ().
Proof.
  induction 1 as [|[[d i] b] cs Hp _ IH]; [done|]. rewrite !fmap_cons. cbn [checkNodes nodeID fetchOf fetchID fst snd].
  destruct (present_logNode _ _ _ Hn Hp) as [[Hv _] _]. unfold Equivalent. rewrite String_NodeID_coords by done.
  unfold_O. by rewrite bool_decide_true.
Qed.

Lemma processed cs : ∀ r,
  fold_left (λ r p, process Sum256 (Hash p.1) (Rehash p.2) r)
    (zip ((λ c : coords, mkNode (coordsID (Z.of_nat c.1.1) (Z.of_nat c.1.2)) (Some (nodeHash Sum256 L c.1.1 c.1.2))) <$> cs)
       (fetchOf <$> cs)) r = run Sum256 L cs r.
Proof. induction cs as [|c cs IH]; intros r; [done|]. apply IH. Qed.

Lemma fetchNodesAndBuildProof_Ok cs hs leafIndex s tx :
  local s = mkDB m [] → snapshot_of tx → fetchable L cs → yields Sum256 L cs hs →
  ∃ c', fetchNodesAndBuildProof Sum256 rev leafIndex (fetchOf <$> cs) (s, tx) =
      (Ok (mkProof leafIndex (Some <$> hs)), (s, with_subtreeCache c' tx)) ∧
    snapshot_of (with_subtreeCache c' tx).
Proof.
  intros Hdb Htx Hst Hy. pose proof Htx as [H1 H2 Hc].
  assert (Forall logNode ((λ c : coords, (Z.of_nat c.1.1, Z.of_nat c.1.2)) <$> cs)) as Hx.
  { apply Forall_fmap. eapply Forall_impl; [exact Hst|]. intros [[d i] b] Hp. by apply (present_logNode (length L)). }
  destruct (cache_for_read populate (dbStore m t rev) (getSubtrees t rev) (mkDB m []) (stores_storage _ _ _ _ _ Hsto)
    _ _ _ Hc Hx) as (c' & E & Hc' & _).
  rewrite (stored_nodes tx) in E by done. exists c'. split; [|by split].
  unfold fetchNodesAndBuildProof, fetchNodes.
  assert (fetchID <$> (fetchOf <$> cs) = logID <$> ((λ c : coords, (Z.of_nat c.1.1, Z.of_nat c.1.2)) <$> cs)) as ->
    by (rewrite <-!list_fmap_compose; done).
  erewrite (mbind_step (GetMerkleNodes Sum256 rev _ ≫= _)).
  2:{ erewrite mbind_step.
      2:{ unfold GetMerkleNodes. erewrite mbind_step by reflexivity. unfold onSubtrees, zoom. cbn [fst snd].
          rewrite Hdb, H1, E. reflexivity. }
      rewrite !length_fmap, Nat.eqb_refl. cbn [negb].
      rewrite checkNodes_Ok by done. erewrite mbind_step by reflexivity. reflexivity. }
  rewrite processed. unfold rehashedProof. fold (flat (run Sum256 L cs (mkRehasher false None []))).
  rewrite (Hy (mkRehasher false None [])) by done. cbn [proof app].
  rewrite <-Hdb. by destruct s.
Qed.
End reading.
