(* ===== verification/Server.v ===== *)
(** * The server (src/cmd/server/main.go)

    What [main] does before it starts to listen: it wires the storage, the
    quota manager and the log server together and initializes the logs that
    have no root yet; and the handlers of its web server.  The calls it makes
    on the log server are those of Trillian
    (src/vendor/github.com/google/trillian/server/log_rpc_server.go), which
    run on the storage of this development; the signing key and the CT front end
    are parameters. *)

From S2P Require Import Prelude Keys Trillian Frontier Fsm LevelDB Local Remote Cache.
From S2P Require Import Compact Nodes SubtreeCache Config Quota ReadTx TreeTx LogStorage Rpc Proofs.

(** ** The log server *)

(** *** Validation *)

Definition err_leaf : error := Errorf "%v empty".
Definition err_leaf_value : error := Errorf "%v.LeafValue: empty".
Definition err_leaf_index : error := Errorf "%v.LeafIndex: %v, want >= 0".
Definition err_leaves : error := Errorf "%v.Leaves empty".
Definition err_leaf_order : error := Errorf "%v.Leaves[%v].LeafIndex=%v, want %v".

Definition validateLogLeaf (leaf : option LogLeaf) : outcome unit :=
  match leaf with
  | None => Err err_leaf
  | Some leaf =>
      if (length (sl (LeafValue leaf)) =? 0)%nat then Err err_leaf_value
      else if (LeafIndex leaf <? 0)%Z then Err err_leaf_index
      else Ok ()
  end.

Fixpoint eachValid (leaves : list (option LogLeaf)) : outcome unit :=
  match leaves with
  | [] => Ok ()
  | leaf :: rest =>
      _ ← wrapf "%v.Leaves[%v]%v" (validateLogLeaf leaf);
      eachValid rest
  end.

Definition validateLogLeaves (leaves : list (option LogLeaf)) : outcome unit :=
  if (length leaves =? 0)%nat then Err err_leaves else eachValid leaves.

(** The leaves behind the pointers: a nil pointer panics. *)
Fixpoint derefs (leaves : list (option LogLeaf)) : outcome (list LogLeaf) :=
  match leaves with
  | [] => Ok []
  | None :: _ => Panic
  | Some leaf :: rest => ls ← derefs rest; mret (leaf :: ls)
  end.

(** The loop that checks that indexes are consecutive. *)
Fixpoint eachNext (nextIndex : Z) (leaves : list LogLeaf) : outcome unit :=
  match leaves with
  | [] => Ok ()
  | leaf :: rest =>
      if negb (LeafIndex leaf =? nextIndex)%Z then Err err_leaf_order
      else eachNext (wrap64 (nextIndex + 1)) rest
  end.

Definition validateAddSequencedLeaves (leaves : list (option LogLeaf)) : outcome unit :=
  _ ← validateLogLeaves leaves;
  ls ← derefs leaves;
  match ls with [] => Panic | leaf :: _ => eachNext (LeafIndex leaf) ls end.

Fixpoint anyNegative (indexes : list Z) : bool :=
  match indexes with [] => false | i :: rest => (i <? 0)%Z || anyNegative rest end.

Definition validateGetLeavesByIndex (indexes : list Z) : outcome unit :=
  if (length indexes =? 0)%nat then Err (Errorf "GetLeavesByIndexRequest.LeafIndex empty")
  else if anyNegative indexes
  then Err (Errorf "GetLeavesByIndexRequest.LeafIndex[%v]: %v, want >= 0")
  else Ok ().

Definition validateGetLeavesByRange (b : RangeBody) : outcome unit :=
  if (rb_StartIndex b <? 0)%Z
  then Err (Errorf "GetLeavesByRangeRequest.StartIndex: %v, want >= 0")
  else if (rb_Count b <=? 0)%Z
  then Err (Errorf "GetLeavesByRangeRequest.Count: %v, want > 0")
  else Ok ().

Definition validateGetLeavesByHash (b : HashesBody) : outcome unit :=
  if (length (hb_LeafHash b) =? 0)%nat then Err (Errorf "GetLeavesByHashRequest.LeafHash empty")
  else if existsb (λ h, length (sl h) =? 0)%nat (hb_LeafHash b)
  then Err (Wrapf "GetLeavesByHashRequest.LeafHash[%v]: %v" (Errorf "leaf hash empty"))
  else Ok ().

Definition validateGetInclusionProof (b : LeafIndexBody) : outcome unit :=
  if (lib_TreeSize b <=? 0)%Z
  then Err (Errorf "GetInclusionProofRequest.TreeSize: %v, want > 0")
  else if (lib_LeafIndex b <? 0)%Z
  then Err (Errorf "GetInclusionProofRequest.LeafIndex: %v, want >= 0")
  else if (lib_TreeSize b <=? lib_LeafIndex b)%Z
  then Err (Errorf "GetInclusionProofRequest.LeafIndex: %v >= TreeSize: %v, want < ")
  else Ok ().

Definition validateGetInclusionProofByHash (b : ByHashBody) : outcome unit :=
  if (bhb_TreeSize b <=? 0)%Z
  then Err (Errorf "GetInclusionProofByHashRequest.TreeSize: %v, want > 0")
  else if (length (sl (bhb_LeafHash b)) =? 0)%nat
  then Err (Wrapf "GetInclusionProofByHashRequest.LeafHash: %v" (Errorf "leaf hash empty"))
  else Ok ().

Definition validateGetConsistencyProof (b : ConsistencyBody) : outcome unit :=
  if (cb_FirstTreeSize b <=? 0)%Z
  then Err (Errorf "GetConsistencyProofRequest.FirstTreeSize: %v, want > 0")
  else if (cb_SecondTreeSize b <=? 0)%Z
  then Err (Errorf "GetConsistencyProofRequest.SecondTreeSize: %v, want > 0")
  else if (cb_SecondTreeSize b <? cb_FirstTreeSize b)%Z
  then Err (Errorf "GetConsistencyProofRequest.FirstTreeSize: %v < GetConsistencyProofRequest.SecondTreeSize: %v, want >= ")
  else Ok ().

Definition validateGetEntryAndProof (b : LeafIndexBody) : outcome unit :=
  if (lib_TreeSize b <=? 0)%Z
  then Err (Errorf "GetEntryAndProofRequest.TreeSize: %v, want > 0")
  else if (lib_LeafIndex b <? 0)%Z
  then Err (Errorf "GetEntryAndProofRequest.LeafIndex: %v, want >= 0")
  else if (lib_TreeSize b <=? lib_LeafIndex b)%Z
  then Err (Errorf "GetEntryAndProofRequest.LeafIndex: %v >= TreeSize: %v, want < ")
  else Ok ().

(** *** Calls *)

Definition optsLogInit : GetOpts := mkGetOpts [LOG; PREORDERED_LOG] Admin.
Definition optsLogRead : GetOpts := mkGetOpts [LOG; PREORDERED_LOG] Query.
Definition optsLogWrite : GetOpts := mkGetOpts [LOG] QueueLog.
Definition optsPreorderedLogWrite : GetOpts := mkGetOpts [PREORDERED_LOG] SequenceLog.

Definition err_hasher : error := Errorf "LogHasher(%s) is an unknown hasher".

Section server.
Context (Sum256 : bytes → bytes).
Context `{!Codec LogLeaf, !Codec SubtreeProto, !Codec Frontier, !Codec (list LogLeaf)}.
Context `{!MapRange bytes, !MapRange Z}.
(** [keys.NewSigner] on a tree's private key, with the check that it fits the
    tree: a function that signs. *)
Context (NewSigner : Config.Tree → outcome (bytes → outcome bytes)).
Context (a : adminStorage).

(** Only the hasher of RFC 6962 is registered. *)
Definition getTreeAndHasher (ctx : Context) (treeID : Z) (o : GetOpts) : outcome Config.Tree :=
  tree ← trees_GetTree ctx a treeID o;
  match tree_HashStrategy tree with
  | RFC6962_SHA256 => Ok tree
  | _ => Err err_hasher
  end.

(** [hashLeaves] sets the hashes of the leaves. *)
Definition hashLeaf (leaf : LogLeaf) : LogLeaf :=
  let h := Some (HashLeaf Sum256 (sl (LeafValue leaf))) in
  mkLogLeaf h (LeafValue leaf) (ExtraData leaf) (LeafIndex leaf)
    (if (length (sl (LeafIdentityHash leaf)) =? 0)%nat then h else LeafIdentityHash leaf)
    (QueueTimestamp leaf) (IntegrateTimestamp leaf).

Definition hashLeaves (leaves : list LogLeaf) : list LogLeaf := hashLeaf <$> leaves.

Section calls.
(** What the clock and the sources of randomness yield during the call. *)
Context (now : Z) (env : nat → leafEnv).

Definition srvQueueLeaves (ctx : Context) (logID : Z) (leaves : list (option LogLeaf))
    : M World (list QueuedLogLeaf) :=
  _ ← lift (validateLogLeaves leaves);
  _ ← lift (getTreeAndHasher ctx logID optsLogWrite);
  leaves ← lift (derefs leaves);
  onSys (LogStorage.QueueLeaves env logID (hashLeaves leaves) now).

Definition err_count : error := Errorf "unexpected count of leaves %d".

Definition srvQueueLeaf (ctx : Context) (logID : Z) (leaf : option LogLeaf)
    : M World QueuedLogLeaf :=
  _ ← lift (validateLogLeaf leaf);
  rsp ← srvQueueLeaves ctx logID [leaf];
  match rsp with [q] => mret q | _ => fail err_count end.

Definition srvAddSequencedLeaves (ctx : Context) (logID : Z) (leaves : list (option LogLeaf))
    : M World (list QueuedLogLeaf) :=
  _ ← lift (validateAddSequencedLeaves leaves);
  _ ← lift (getTreeAndHasher ctx logID optsPreorderedLogWrite);
  ls ← lift (derefs leaves);
  out ← onSys (LogStorage.AddSequencedLeaves logID (hashLeaves ls) now);
  if negb (length out =? length leaves)%nat
  then fail (Errorf "AddSequencedLeaves returned %d leaves, want: %d")
  else mret out.

Definition srvAddSequencedLeaf (ctx : Context) (logID : Z) (leaf : option LogLeaf)
    : M World QueuedLogLeaf :=
  _ ← lift (validateLogLeaf leaf);
  rsp ← srvAddSequencedLeaves ctx logID [leaf];
  match rsp with [q] => mret q | _ => fail (Errorf "expected 1 leaf, got %d") end.

(** Reads run on a snapshot that is closed afterwards. *)
Definition onSnapshot {A} (m : ReadM A) (tx : readOnlyLogTreeTX) : M System A := λ s,
  let '(o, (s', _)) := m (s, tx) in (o, s').

Definition withSnapshot {A} (logID : Z) (m : ReadM A) : M System A :=
  tx ← SnapshotForTree logID;
  onSnapshot m tx.

Definition readLog {A} (ctx : Context) (logID : Z) (m : ReadM A) : M World A :=
  _ ← lift (trees_GetTree ctx a logID optsLogRead);
  onSys (withSnapshot logID m).

Definition srvGetLatestSignedLogRoot (ctx : Context) (logID : Z) : M World SignedLogRoot :=
  readLog ctx logID (signedRoot ← LatestSignedLogRoot; _ ← rolt_Commit; mret signedRoot).

Definition srvGetSequencedLeafCount (ctx : Context) (logID : Z) : M World Z :=
  readLog ctx logID (leafCount ← GetSequencedLeafCount; _ ← rolt_Commit; mret leafCount).

Definition srvGetLeavesByIndex (ctx : Context) (logID : Z) (indexes : list Z)
    : M World LeavesAnswer :=
  _ ← lift (validateGetLeavesByIndex indexes);
  readLog ctx logID
    (leaves ← ReadTx.GetLeavesByIndex Sum256 indexes;
     _ ← rolt_Commit;
     root ← LatestSignedLogRoot;
     mret (mkLeavesAnswer leaves root)).

Definition srvGetLeavesByRange (ctx : Context) (logID : Z) (b : RangeBody)
    : M World LeavesAnswer :=
  _ ← lift (validateGetLeavesByRange b);
  readLog ctx logID
    (slr ← LatestSignedLogRoot;
     root ← lift (wrapf "Could not read current log root: %v"
                    (LogRootV1.UnmarshalBinary (sl (LogRoot slr))));
     leaves ← (if (rb_StartIndex b <? wrap64 (LogRootV1.TreeSize root))%Z
               then ReadTx.GetLeavesByRange Sum256 (rb_StartIndex b) (rb_Count b)
               else mret []);
     _ ← rolt_Commit;
     mret (mkLeavesAnswer leaves slr)).

Definition srvGetLeavesByHash (ctx : Context) (logID : Z) (b : HashesBody)
    : M World LeavesAnswer :=
  _ ← lift (validateGetLeavesByHash b);
  readLog ctx logID
    (leaves ← ReadTx.GetLeavesByHash (hb_LeafHash b) (hb_OrderBySequence b);
     root ← LatestSignedLogRoot;
     _ ← rolt_Commit;
     mret (mkLeavesAnswer leaves root)).

(** The calls that build proofs, on the tree of the snapshot. *)
Definition proofMaxBitLen : Z := 64.

Definition getInclusionProofForLeafIndex (snapshot leafIndex treeSize : Z) : ReadM Proof_ :=
  proofNodeIDs ← lift (CalcInclusionProofNodeAddresses snapshot leafIndex treeSize proofMaxBitLen);
  rev ← ReadRevision;
  fetchNodesAndBuildProof Sum256 rev leafIndex proofNodeIDs.

Definition readRoot : ReadM (SignedLogRoot * LogRootV1.t) :=
  slr ← LatestSignedLogRoot;
  root ← lift (wrapf "Could not read current log root: %v" (LogRootV1.UnmarshalBinary (sl (LogRoot slr))));
  mret (slr, root).

Definition proveLog {A} (ctx : Context) (logID : Z) (m : ReadM A) : M World A :=
  _ ← lift (getTreeAndHasher ctx logID optsLogRead);
  onSys (withSnapshot logID m).

Definition srvGetInclusionProof (ctx : Context) (logID : Z) (b : LeafIndexBody)
    : M World (option Proof_ * SignedLogRoot) :=
  _ ← lift (validateGetInclusionProof b);
  proveLog ctx logID
    ('(slr, root) ← readRoot;
     if (LogRootV1.TreeSize root <? wrapU64 (lib_TreeSize b))%Z then mret (None, slr)
     else
       proof ← getInclusionProofForLeafIndex (lib_TreeSize b) (lib_LeafIndex b)
                 (wrap64 (LogRootV1.TreeSize root));
       _ ← rolt_Commit;
       mret (Some proof, slr)).

Definition srvGetInclusionProofByHash (ctx : Context) (logID : Z) (b : ByHashBody)
    : M World (list Proof_ * SignedLogRoot) :=
  _ ← lift (validateGetInclusionProofByHash b);
  proveLog ctx logID
    (leaves ← ReadTx.GetLeavesByHash [bhb_LeafHash b] (bhb_OrderBySequence b);
     '(slr, root) ← readRoot;
     proofs ← mfold (λ proofs leaf,
       if (bhb_TreeSize b <=? LeafIndex leaf)%Z then mret proofs
       else
         proof ← getInclusionProofForLeafIndex (bhb_TreeSize b) (LeafIndex leaf)
                   (wrap64 (LogRootV1.TreeSize root));
         mret (proofs ++ [proof])) [] leaves;
     _ ← rolt_Commit;
     if (length proofs <? 1)%nat then fail (Errorf "No leaf found for hash: %x in tree size %v")
     else mret (proofs, slr)).

Definition srvGetConsistencyProof (ctx : Context) (logID : Z) (b : ConsistencyBody)
    : M World (option Proof_ * SignedLogRoot) :=
  _ ← lift (validateGetConsistencyProof b);
  proveLog ctx logID
    ('(slr, root) ← readRoot;
     if (LogRootV1.TreeSize root <? wrapU64 (cb_SecondTreeSize b))%Z then mret (None, slr)
     else
       nodeFetches ← lift (CalcConsistencyProofNodeAddresses (cb_FirstTreeSize b)
                             (cb_SecondTreeSize b) (wrap64 (LogRootV1.TreeSize root)) proofMaxBitLen);
       rev ← ReadRevision;
       proof ← fetchNodesAndBuildProof Sum256 rev 0 nodeFetches;
       _ ← rolt_Commit;
       mret (Some proof, slr)).

Definition srvGetEntryAndProof (ctx : Context) (logID : Z) (b : LeafIndexBody)
    : M World EntryAnswer :=
  _ ← lift (validateGetEntryAndProof b);
  proveLog ctx logID
    ('(slr, root) ← readRoot;
     let size := wrap64 (LogRootV1.TreeSize root) in
     let treeSize := if (size <? lib_TreeSize b)%Z && (lib_LeafIndex b <? size)%Z then size
                     else lib_TreeSize b in
     if (treeSize <=? size)%Z then
       proof ← getInclusionProofForLeafIndex treeSize (lib_LeafIndex b) size;
       leaves ← ReadTx.GetLeavesByIndex Sum256 [lib_LeafIndex b];
       match leaves with
       | [leaf] => _ ← rolt_Commit; mret (mkEntryAnswer (Some proof) (Some leaf) slr)
       | _ => fail (Errorf "expected one leaf from storage but got: %d")
       end
     else _ ← rolt_Commit; mret (mkEntryAnswer None None slr)).

(** [trees.Signer]: the signing function of a tree. *)
Definition trees_Signer (tree : Config.Tree) : outcome (bytes → outcome bytes) :=
  match tree_SignatureAlgorithm tree with
  | ANONYMOUS => Err (Errorf "signature algorithm not supported: %s")
  | _ =>
      match tree_HashAlgorithm tree with
      | SHA256 => NewSigner tree
      | _ => Err (Errorf "unexpected hash algorithm: %s")
      end
  end.

Definition SignLogRoot (sign : bytes → outcome bytes) (treeID : Z) (r : LogRootV1.t)
    : outcome SignedLogRoot :=
  logRoot ← LogRootV1.MarshalBinary r;
  signature ← sign logRoot;
  mret (mkSignedLogRoot (wrap64 (LogRootV1.TimestampNanos r)) (Some (LogRootV1.RootHash r))
    (wrap64 (LogRootV1.TreeSize r)) (wrap64 (LogRootV1.Revision r))
    (Some (SerializeKeyHint treeID)) (Some logRoot) (Some signature)).

Definition err_initialised : error := Errorf "log is already initialised".

(** The root of an empty log, signed; the errors that come before the store. *)
Definition firstRoot (tree : Config.Tree) : outcome SignedLogRoot :=
  sign ← wrapf "Signer() :%v" (trees_Signer tree);
  SignLogRoot sign (TreeId tree)
    (LogRootV1.mk 0 (EmptyRoot Sum256) (wrapU64 now) 0 []).

(** The closure that [InitLog] runs in a transaction. *)
Definition initTx (tree : Config.Tree) : TxM unit :=
  latestRoot ← onRead LatestSignedLogRoot;
  match LogRoot latestRoot with
  | Some _ => fail err_initialised
  | None =>
      newRoot ← lift (firstRoot tree);
      wrapErr "StoreSignedLogRoot(): %v" (StoreSignedLogRoot Sum256 newRoot)
  end.

(** [newRoot] is the root that the closure signed when the transaction
    succeeds; [ErrTreeNeedsInit] means that the closure did not run.  A key signs
    by a function here, so signing again gives the closure's root; the code keeps
    it in a variable, and its ECDSA signatures are randomised.  Nothing that is
    proved depends on which signature it is. *)
Definition srvInitLog (ctx : Context) (logID : Z) : M World (option SignedLogRoot) :=
  tree ← lift (wrapf "getTreeAndHasher(): %v" (getTreeAndHasher ctx logID optsLogInit));
  r ← try (onSys (LogStorage.ReadWriteTransaction logID (initTx tree)));
  match r with
  | Err ErrTreeNeedsInit => mret None
  | Err e => fail e
  | Panic => panic
  | Ok _ => newRoot ← lift (firstRoot tree); mret (Some newRoot)
  end.

Definition rpcServer : Server := λ m,
  match m return Context → Req m → M World (Resp m) with
  | mQueueLeaf => λ ctx req, srvQueueLeaf ctx (LogId req) (body req)
  | mAddSequencedLeaf => λ ctx req, srvAddSequencedLeaf ctx (LogId req) (body req)
  | mGetLatestSignedLogRoot => λ ctx req, srvGetLatestSignedLogRoot ctx (LogId req)
  | mGetSequencedLeafCount => λ ctx req, srvGetSequencedLeafCount ctx (LogId req)
  | mInitLog => λ ctx req, srvInitLog ctx (LogId req)
  | mQueueLeaves => λ ctx req, srvQueueLeaves ctx (LogId req) (body req)
  | mAddSequencedLeaves => λ ctx req, srvAddSequencedLeaves ctx (LogId req) (body req)
  | mGetLeavesByIndex => λ ctx req, srvGetLeavesByIndex ctx (LogId req) (body req)
  | mGetLeavesByRange => λ ctx req, srvGetLeavesByRange ctx (LogId req) (body req)
  | mGetLeavesByHash => λ ctx req, srvGetLeavesByHash ctx (LogId req) (body req)
  | mGetInclusionProof => λ ctx req, srvGetInclusionProof ctx (LogId req) (body req)
  | mGetInclusionProofByHash => λ ctx req, srvGetInclusionProofByHash ctx (LogId req) (body req)
  | mGetConsistencyProof => λ ctx req, srvGetConsistencyProof ctx (LogId req) (body req)
  | mGetEntryAndProof => λ ctx req, srvGetEntryAndProof ctx (LogId req) (body req)
  end.
End calls.

(** ** Start-up *)

(** [logServer] as it is when the clock and the randomness are these. *)
Definition logServer (now : Z) (env : nat → leafEnv) : trillianLogClient :=
  newLogServer a (rpcServer now env).

Definition err_init (e : error) : error := Wrapf "failed to initialize log: %#v: %v" e.
Definition err_check_init (e : error) : error :=
  Wrapf "failed to check if log is initialized: %#v: %v" e.

(** What [main] does first for each log: an error exits the process. *)
Definition ensureInit (now : Z) (env : nat → leafEnv) (logID : Z) : M World unit :=
  r ← try (Client.GetLatestSignedLogRoot (logServer now env) Background
             (mkReq mGetLatestSignedLogRoot logID [] tt));
  match r with
  | Err ErrTreeNeedsInit =>
      r' ← try (Client.InitLog (logServer now env) Background (mkReq mInitLog logID [] tt));
      match r' with
      | Err e => fail (err_init e)
      | _ => mret ()
      end
  | Err e => fail (err_check_init e)
  | _ => mret ()
  end.

(** The loop over the logs; [clock i] is what the clock and the randomness
    yield for log [i].  [ctfe] stands for [ctfe.ValidateLogConfig] and
    [ctfe.SetUpInstance]: the paths of the log and their handlers. *)
Context {H : Type} (ctfe : LogConfig → outcome (list (string * H))).

Fixpoint setupLogs (clock : nat → Z * (nat → leafEnv)) (i : nat) (cfgs : list LogConfig)
    : M World (list (string * H)) :=
  match cfgs with
  | [] => mret []
  | logConfig :: rest =>
      _ ← ensureInit (clock i).1 (clock i).2 (Config.LogId logConfig);
      handlers ← lift (ctfe logConfig);
      more ← setupLogs clock (S i) rest;
      mret (handlers ++ more)
  end.

End server.

Section main.
Context (Sum256 : bytes → bytes).
Context `{!Codec LogLeaf, !Codec SubtreeProto, !Codec Frontier, !Codec (list LogLeaf)}.
Context `{!MapRange bytes, !MapRange Z}.
Context (NewSigner : Config.Tree → outcome (bytes → outcome bytes)).
Context {H : Type} (ctfe : LogConfig → outcome (list (string * H))).

(** The loop that has the quota manager watch every log. *)
Definition watchLogs (cfgs : list LogConfig) : M QuotaManager unit :=
  mfold (λ _ logConfig, WatchLog (Config.LogId logConfig)) () cfgs.

(** [main] up to where it starts to listen, on databases that were opened: the
    routes of the logs, and the state the server starts in.  The watchers'
    goroutines are [Quota.watchOnce]. *)
Definition startup (cfg : Config) (clock : nat → Z * (nat → leafEnv)) (s : System)
    : outcome (list (string * H)) * World :=
  let s := if (LeafCacheSize cfg =? 0)%Z then s else (SetLeafCacheSize (LeafCacheSize cfg) s).2 in
  let qm := (watchLogs (LogConfigs cfg) (NewQuotaManager (MaxUnsequencedLeaves cfg))).2 in
  setupLogs Sum256 NewSigner (AdminStorage cfg) ctfe clock 0 (LogConfigs cfg)
    (mkWorld s qm []).
End main.

(** ** The web server *)

Record Request := mkRequest { Method : string; Path : string; Header : gmap string string }.

(** What is written to the client, and the counter of requests by data center. *)
Record ResponseWriter := mkRW {
  rwHeader : gmap string string;
  rwStatus : option Z;
  rwBody : list string;
  reqsByColo : gmap string Z
}.

Abbreviation HTTPHandler := (Request → M ResponseWriter unit).

Definition setHeader (k v : string) : M ResponseWriter unit :=
  modify (λ rw, mkRW (<[k := v]> (rwHeader rw)) (rwStatus rw) (rwBody rw) (reqsByColo rw)).
Definition incColo (colo : string) : M ResponseWriter unit :=
  modify (λ rw, mkRW (rwHeader rw) (rwStatus rw) (rwBody rw)
    (<[colo := default 0 (reqsByColo rw !! colo) + 1]> (reqsByColo rw))%Z).
Definition WriteHeader (code : Z) : M ResponseWriter unit :=
  modify (λ rw, mkRW (rwHeader rw) (Some (default code (rwStatus rw))) (rwBody rw) (reqsByColo rw)).
Definition Fprintf (text : string) : M ResponseWriter unit :=
  modify (λ rw, mkRW (rwHeader rw) (Some (default 200%Z (rwStatus rw))) (rwBody rw ++ [text])
    (reqsByColo rw)).
Definition newline : string := String.String (Ascii.ascii_of_nat 10) "".
Definition Fprintln (line : string) : M ResponseWriter unit := Fprintf (line +:+ newline).

(** [strings.HasSuffix] *)
Definition HasSuffix (s suffix : string) : bool :=
  let n := (String.length s - String.length suffix)%nat in
  (String.length suffix <=? String.length s)%nat &&
  bool_decide (String.substring n (String.length suffix) s = suffix).

(** What stands behind the first dash: [ray[i+1:]]. *)
Definition coloOf (ray : string) : option string :=
  (λ p, String.string_of_list_ascii p.2) <$>
    cut (Ascii.ascii_of_nat 45) (String.list_ascii_of_string ray).

(** [cacheHandler] with its inner handler. *)
Definition ServeHTTP (inner : HTTPHandler) : HTTPHandler := λ req,
  let ray := default "" (Header req !! "Cf-Ray")%string in
  _ ← (if bool_decide (ray = "")%string then mret ()
       else match coloOf ray with Some colo => incColo colo | None => mret () end);
  _ ← (if bool_decide (Method req = "GET")%string then
         if bool_decide (Path req = "/")%string
         then setHeader "Cache-Control" "public, max-age=14400"
         else if HasSuffix (Path req) "/ct/v1/get-sth"
         then setHeader "Cache-Control" "public, max-age=3600"
         else if HasSuffix (Path req) "/ct/v1/get-roots"
         then setHeader "Cache-Control" "public, max-age=14400"
         else setHeader "Cache-Control" "no-cache"
       else mret ());
  inner req.

(** The handlers of the front pages of the server and of its metrics. *)
Definition frontPage (greeting : string) : HTTPHandler := λ req,
  if bool_decide (Path req = "/")%string then Fprintln greeting
  else _ ← WriteHeader 404; Fprintln "404 not found".

Definition rootHandler : HTTPHandler :=
  frontPage "Hello, I'm a certificate transparency log! Who are you?".
Definition metricsRootHandler : HTTPHandler :=
  frontPage "Hello, I'm a certificate transparency log's metrics and debugging server! Who are you?".
Definition versionHandler (Version GoVersion : string) : HTTPHandler := λ _,
  Fprintf ("Version: " +:+ Version +:+ ", GoVersion: " +:+ GoVersion).

(** ** Lemmas *)

Section startup.
Context (Sum256 : bytes → bytes).
Context `{!Codec LogLeaf, !Codec SubtreeProto, !Codec Frontier, !Codec (list LogLeaf)}.
Context `{!MapRange bytes, !MapRange Z}.
Context (NewSigner : Config.Tree → outcome (bytes → outcome bytes)).
Context (a : adminStorage).
Context `{!CodecLaws Frontier}.
Context (Hcanon : ∀ f, solid f → canon f = f).
Context (Hsum : ∀ b, Sum256 b ≠ []).

Lemma SignLogRoot_reads sign t r s :
  LogRootV1.wf r → SignLogRoot sign t r = Ok s →
  LogRootV1.UnmarshalBinary (sl (LogRoot s)) = Ok r ∧ RootHash s = Some (LogRootV1.RootHash r) ∧
  is_Some (LogRoot s).
Proof.
  intros Hwf H. unfold SignLogRoot in H. inv_binds H. injection H as <-. cbn.
  split; [|by eauto]. pose proof (LogRootV1_read_back r [] Hwf) as Hr. rewrite Hcall in Hr.
  by rewrite app_nil_r in Hr.
Qed.

Lemma SignLogRoot_honest sign t r s :
  LogRootV1.wf r → SignLogRoot sign t r = Ok s →
  honest s ∧ RootHash s = Some (LogRootV1.RootHash r) ∧ is_Some (LogRoot s).
Proof.
  intros Hwf (Hu & Hh & Hs)%(SignLogRoot_reads sign t r s Hwf). split; [|done].
  exists r. by rewrite Hh.
Qed.

Lemma firstRoot_honest now tree s :
  firstRoot Sum256 NewSigner now tree = Ok s →
  honest s ∧ RootHash s = Some (Sum256 []) ∧ is_Some (LogRoot s).
Proof.
  unfold firstRoot. intros H. apply outcome_bind_Ok in H as (sign & _ & H).
  eapply SignLogRoot_honest in H; [exact H|].
  unfold LogRootV1.wf, wrapU64. cbn. pose proof (Z.mod_pos_bound now (2 ^ 64)). lia.
Qed.

(** *** The call that initializes a log *)

Lemma onRead_root w : onRead LatestSignedLogRoot w = (Ok (root (rolt w.2)), w).
Proof. by destruct w as [? [[] ? ? ?]]. Qed.

Lemma wrapErr_state {S A} fmt (m : M S A) s : (wrapErr fmt m s).2 = (m s).2.
Proof. unfold wrapErr. unfold_M. by destruct (m s) as [[|e|] s']. Qed.

Lemma wrapErr_returns {S A} fmt (m : M S A) s x s' :
  wrapErr fmt m s = (Ok x, s') ↔ m s = (Ok x, s').
Proof. unfold wrapErr. unfold_M. destruct (m s) as [[|e|] s1]; naive_solver. Qed.

Lemma closure_client now tree : client Sum256 honest hashed false (initTx Sum256 NewSigner now tree).
Proof.
  intros w. unfold initTx. rewrite (mbind_step _ _ _ _ _ (onRead_root w)).
  destruct (LogRoot _); [apply rtc_refl|]. unfold mbind, M_bind, lift.
  destruct (firstRoot Sum256 NewSigner now tree) as [r|e|] eqn:Er; [|apply rtc_refl..].
  apply firstRoot_honest in Er as (Hr & _). rewrite wrapErr_state.
  by apply rtc_once, op_StoreSignedLogRoot.
Qed.

Lemma initTx_StoreRoot now tree w w' :
  initTx Sum256 NewSigner now tree w = (Ok (), w') →
  ∃ r, honest r ∧ StoreSignedLogRoot Sum256 r w = (Ok (), w').
Proof.
  unfold initTx. rewrite (mbind_step _ _ _ _ _ (onRead_root w)).
  destruct (LogRoot _); [done|]. unfold mbind, M_bind, lift.
  destruct (firstRoot Sum256 NewSigner now tree) as [r|e|] eqn:Er; [|done..].
  apply firstRoot_honest in Er as (Hr & _). rewrite wrapErr_returns. by exists r.
Qed.

(** The logs [Ls] are those of the rows, and the trees [R] have their roots. *)
Definition intact (Ls : Z → list bytes) (R : list Z) (m : kvmap) : Prop :=
  (∀ t, int64 t → log_state Sum256 t (Ls t) m) ∧
  ∀ t, t ∈ R → int64 t ∧ has_root Sum256 t (Ls t) m.

Lemma intact_tail Ls t R m : intact Ls (t :: R) m → intact Ls R m.
Proof. intros [H1 H2]. split; [done|]. intros t' Ht'. apply H2. by right. Qed.

Lemma has_root_rows t L m m' :
  (∀ name, m' !! keyS typ_r t name = m !! keyS typ_r t name) →
  has_root Sum256 t L m → has_root Sum256 t L m'.
Proof. intros E H. unfold has_root in *. by rewrite !E. Qed.

Lemma intact_queue_closed Ls R : queue_closed (intact Ls R).
Proof.
  intros m t v raw [H1 H2].
  assert (∀ t' name, <[keyB typ_l t v := raw]> m !! keyS typ_r t' name = m !! keyS typ_r t' name)
    as E by (intros; apply lookup_insert_ne; symmetry; by apply keyS_root_keyB).
  split; [intros t' Ht'; by apply (log_state_rows Sum256 t' _ m), H1|].
  intros t' Ht'. destruct (H2 t' Ht'). split; [done|]. by apply (has_root_rows t' _ m).
Qed.

(** A batch that holds one root, of the log as it is. *)
Lemma intact_root Ls R t m b r raw :
  intact Ls R m → int64 t → rootOps b = rootPuts t r raw → honest r →
  marshal (appendAll Sum256 zeroFrontier (Ls t)) = Ok raw →
  sl (RootHash r) = sl (Head Sum256 (appendAll Sum256 zeroFrontier (Ls t))) →
  intact Ls (t :: R) (apply_batch m b).
Proof.
  intros [H1 H2] Ht HR Hr Hm Hh.
  assert (has_root Sum256 t (Ls t) (apply_batch m b)) as Hroot.
  { apply (root_log_state Sum256 Hcanon Hsum t (Ls t) m b r raw); try done. by apply H1. }
  assert (∀ t' name, int64 t' → t' ≠ t →
    apply_batch m b !! keyS typ_r t' name = m !! keyS typ_r t' name) as E.
  { intros t' name Ht' Hne. rewrite (apply_batch_rowOps isRootKey) by done. rewrite HR.
    unfold apply_batch, rootPuts. cbn [fold_left apply_op].
    by rewrite !lookup_insert_ne by (by apply keyS_other). }
  split.
  - intros t' Ht'. destruct (decide (t' = t)) as [->|Hne].
    + split; [by apply (H1 t)|by right].
    + apply (log_state_rows Sum256 t' _ m); [|by apply H1]. intros name. by apply E.
  - intros t' Hin. destruct (decide (t' = t)) as [->|Hne]; [done|].
    apply elem_of_cons in Hin as [?|Hin]; [done|]. destruct (H2 t' Hin) as [Ht' Hr'].
    split; [done|]. apply (has_root_rows t' _ m); [|done]. intros name. by apply E.
Qed.

Lemma InitLog_intact Ls R t now tree s o s' :
  intact Ls R (kv (local s)) → int64 t →
  LogStorage.ReadWriteTransaction t (initTx Sum256 NewSigner now tree) s = (o, s') →
  intact Ls (if decide (o = Ok ()) then t :: R else R) (kv (local s')).
Proof.
  intros Hi Ht Hrun. case_decide as Ho.
  2:{ eapply (failed_transaction_rows Sum256 honest hashed t _ s o s' (intact Ls R));
        [apply closure_client|done..|apply intact_queue_closed|done]. }
  subst o. apply (ReadWriteTransaction_Ok) in Hrun as (ltx & s1 & w & w' & Hb & Hf & Hc & <-).
  pose proof (beginForTree_seq Sum256 t (Ls t) s ltx s1 (proj1 Hi t Ht) Hb) as H0.
  apply initTx_StoreRoot in Hf as (r & Hr & Hf).
  apply (seq_StoreRoot Sum256 _ _ _ H0) in Hf as (raw & Hm & Hh & H1).
  apply (seq_Commit _ _ H1) in Hc as [_ (b & -> & HR & _)].
  by apply (intact_root Ls R t _ b r raw).
Qed.

(** *** The calls of the loop *)

Lemma MostRecentRoot_stored t d p d' :
  MostRecentRoot t d = (Ok p, d') → is_Some (kv d !! keyS typ_r t "root").
Proof.
  unfold MostRecentRoot, db_Get, io, next_fault. unfold_M. destruct d as [m fs].
  set (k := keyS typ_r t "root"). clearbody k. cbn.
  destruct fs as [|[?|] [|[?|] fs]]; cbn; try done; by destruct (m !! k).
Qed.

Lemma has_root_stored t L m :
  log_state Sum256 t L m → is_Some (m !! keyS typ_r t "root") → has_root Sum256 t L m.
Proof. intros [_ [[_ E]|H]] Hs; [|done]. rewrite E in Hs. by destruct Hs. Qed.

(** Code that keeps the rows of the local database. *)
Abbreviation rows w := (kv (local (system w))).

Lemma SnapshotForTree_rows t s o s' :
  SnapshotForTree t s = (o, s') →
  kv (local s') = kv (local s) ∧
  ∀ tx, o = Ok tx → is_Some (kv (local s) !! keyS typ_r t "root").
Proof.
  unfold SnapshotForTree. rewrite NewLogSubtreeCache_Ok. erewrite mbind_step by reflexivity.
  pose proof (stable_MostRecentRoot (λ m, m = kv (local s)) t (local s) eq_refl) as Hk.
  unfold mbind, M_bind, sysLocal, zoom.
  destruct (MostRecentRoot t (local s)) as [[[r f]|e|] d] eqn:E; cbn in Hk |- *;
    intros [= <- <-]; (split; [done|]); [|done..].
  intros _ _. by eapply MostRecentRoot_stored.
Qed.

Lemma GetLatest_rows ctx t w o w' :
  srvGetLatestSignedLogRoot a ctx t w = (o, w') →
  rows w' = rows w ∧ ∀ r, o = Ok r → is_Some (rows w !! keyS typ_r t "root").
Proof.
  unfold srvGetLatestSignedLogRoot, readLog. unfold mbind at 1, M_bind at 1, lift.
  destruct (trees_GetTree _ _ _ _); [|by intros [= <- <-]..].
  unfold onSys, zoom, withSnapshot, mbind at 1, M_bind at 1.
  destruct (SnapshotForTree t (system w)) as [o1 s1] eqn:E. apply SnapshotForTree_rows in E as [Hk Hs].
  destruct o1 as [tx|e|]; cbn; intros [= <- <-]; cbn; (split; [done|]); [|done..].
  intros _ _. by apply (Hs tx).
Qed.

(** The transaction of [InitLog] never reports an uninitialized tree: keys do
    not fail with that error. *)
Context `{!MapRangeLaws bytes}.
Context (HSigner : ∀ tree sign b, NewSigner tree = Ok sign → sign b ≠ Err ErrTreeNeedsInit).

Lemma trees_Signer_Ok tree sign : trees_Signer NewSigner tree = Ok sign → NewSigner tree = Ok sign.
Proof.
  unfold trees_Signer. destruct (tree_SignatureAlgorithm tree), (tree_HashAlgorithm tree); done.
Qed.

Lemma SignLogRoot_error sign t r :
  (∀ b, sign b ≠ Err ErrTreeNeedsInit) → SignLogRoot sign t r ≠ Err ErrTreeNeedsInit.
Proof.
  intros Hs. unfold SignLogRoot. destruct (LogRootV1.MarshalBinary r) as [b|e|] eqn:E; [|intros [= ->]|done].
  - specialize (Hs b). unfold_O. destruct (sign b); congruence.
  - revert E. unfold LogRootV1.MarshalBinary, LogRootV1.write_vec. unfold_O.
    destruct (128 <? _)%Z; [done|]. by destruct (65535 <? _)%Z.
Qed.

Lemma firstRoot_error now tree : firstRoot Sum256 NewSigner now tree ≠ Err ErrTreeNeedsInit.
Proof.
  unfold firstRoot. destruct (trees_Signer NewSigner tree) as [sign|e|] eqn:Et; [|done..].
  apply SignLogRoot_error. intros b. by apply (HSigner tree), trees_Signer_Ok.
Qed.

Lemma beginForTree_ok t s ltx s1 :
  beginForTree t s = (Ok ltx, s1) →
  subtreeCache (rolt ltx) = mkSubtreeCache logStrataInfo ∅ ∅ ∧ queuedLeaves ltx = false.
Proof.
  unfold beginForTree. rewrite NewLogSubtreeCache_Ok. erewrite mbind_step by reflexivity.
  unfold mbind, M_bind, try, sysLocal, zoom. destruct (MostRecentRoot t (local s)) as [[[r f]|e|] d];
    cbn; [by intros [= <- <-]| |done].
  destruct e; cbn; try done. by intros [= <- <-].
Qed.

Lemma beginForTree_error t s s1 : beginForTree t s ≠ (Err ErrTreeNeedsInit, s1).
Proof.
  unfold beginForTree. rewrite NewLogSubtreeCache_Ok. erewrite mbind_step by reflexivity.
  unfold mbind, M_bind, try, sysLocal, zoom. destruct (MostRecentRoot t (local s)) as [[[r f]|e|] d];
    cbn; [done| |done]. by destruct e.
Qed.

Lemma onFsm_emit st w o w' :
  onFsm (emit st) w = (o, w') →
  w'.1 = w.1 ∧ rolt w'.2 = rolt w.2 ∧ queuedLeaves w'.2 = queuedLeaves w.2 ∧
  (o = Ok () ∨ o = Err illegal_transition).
Proof.
  unfold onFsm, zoom, emit. destruct w as [s tx]. cbn.
  repeat case_match; simplify_eq/=; intros [= <- <-]; naive_solver.
Qed.

Lemma StoreSignedLogRoot_cache r w w' :
  StoreSignedLogRoot Sum256 r w = (Ok (), w') →
  rolt w'.2 = rolt w.2 ∧ queuedLeaves w'.2 = queuedLeaves w.2.
Proof.
  unfold StoreSignedLogRoot. intros H. apply mbind_Ok in H as ([] & w1 & He & H).
  apply onFsm_emit in He as (_ & E1 & E2 & _). rewrite <-E1, <-E2.
  apply mbind_Ok in H as (w2 & ? & [= <- <-] & H). case_match; [done|].
  unfold onTx, zoom in H. destruct (StoreRoot _ _ _ _) as [o1 ltx]. by injection H as _ <-.
Qed.

(** Committing a transaction without subtrees. *)
Lemma Commit_no_subtrees w o w' :
  subtreeCache (rolt w.2) = mkSubtreeCache logStrataInfo ∅ ∅ →
  Commit w = (o, w') → o ≠ Err ErrTreeNeedsInit.
Proof.
  intros Hc. unfold Commit. unfold mbind at 1, M_bind at 1.
  destruct (onFsm (emit sCommit) w) as [o1 w1] eqn:He.
  apply onFsm_emit in He as (_ & E1 & _ & [->| ->]); [|by intros [= <- <-]].
  erewrite mbind_step by reflexivity. destruct (queuedLeaves w1.2); [by intros [= <- <-]|].
  unfold mbind at 1, M_bind at 1, onCacheTx, zoom. rewrite E1, Hc. unfold Flush.
  erewrite mbind_step by reflexivity.
  assert (map_range (∅ : gmap bytes SubtreeProto) = []) as Er.
  { apply Permutation_nil_r. etrans; [apply map_range_perm|]. by rewrite map_to_list_empty. }
  unfold onCache, mbind at 1, M_bind at 1, zoom. cbn [fst snd subtrees]. rewrite Er. cbn.
  unfold mbind, M_bind, onDBTx, zoom. cbn [fst snd].
  destruct (Local.Commit _) as [o2 [d2 ltx2]] eqn:Ec. apply Commit_spec in Ec.
  destruct Ec as [(-> & _)|(-> & _)]; by intros [= <- <-].
Qed.

Lemma initTx_error now tree w : (initTx Sum256 NewSigner now tree w).1 ≠ Err ErrTreeNeedsInit.
Proof.
  unfold initTx. rewrite (mbind_step _ _ _ _ _ (onRead_root w)). destruct (LogRoot _); [done|].
  unfold mbind, M_bind, lift. pose proof (firstRoot_error now tree) as He.
  destruct (firstRoot Sum256 NewSigner now tree) as [r|e|]; [|cbn; congruence|done].
  unfold wrapErr. unfold_M. by destruct (StoreSignedLogRoot _ _ _) as [[[]|e|] w'].
Qed.

Lemma InitLog_error t now tree s s' :
  LogStorage.ReadWriteTransaction t (initTx Sum256 NewSigner now tree) s ≠ (Err ErrTreeNeedsInit, s').
Proof.
  unfold LogStorage.ReadWriteTransaction. unfold mbind at 1, M_bind at 1. intros H.
  destruct (beginForTree t s) as [[ltx|e|] s1] eqn:Eb; [|by injection H as -> ->; eapply beginForTree_error|done].
  apply beginForTree_ok in Eb as [Hc _]. unfold withTx, runTx, mbind at 1, M_bind at 1, try at 1 in H.
  pose proof (initTx_error now tree (s1, ltx)) as He.
  destruct (initTx _ _ _ _ (s1, ltx)) as [[[]|e|] w] eqn:Ei; cbn [fst] in He.
  - apply initTx_StoreRoot in Ei as (r & _ & Hs). apply StoreSignedLogRoot_cache in Hs as [E _].
    cbn [snd] in E. destruct (Commit w) as [o1 [s2 tx2]] eqn:Ec.
    apply Commit_no_subtrees in Ec; [|by rewrite E]. congruence.
  - unfold mbind, M_bind, try, fail in H. destruct (Rollback w) as [[[]|?|] [s2 tx2]]; congruence.
  - by destruct w.
Qed.

Definition is_Ok {A} (o : outcome A) : bool := match o with Ok _ => true | _ => false end.

Lemma InitLog_rows Ls R now ctx t w o w' :
  intact Ls R (rows w) → int64 t →
  srvInitLog Sum256 NewSigner a now ctx t w = (o, w') →
  intact Ls (if is_Ok o then t :: R else R) (rows w').
Proof.
  intros Hi Ht. unfold srvInitLog. unfold mbind at 1, M_bind at 1, lift.
  destruct (wrapf _ (getTreeAndHasher a ctx t optsLogInit)) as [tree|e|]; [|by intros [= <- <-]..].
  unfold mbind at 1, M_bind at 1, try, onSys, zoom.
  destruct (LogStorage.ReadWriteTransaction t _ (system w)) as [o1 s1] eqn:E.
  pose proof (InitLog_intact Ls R t now tree _ _ _ Hi Ht E) as Hi'.
  destruct o1 as [[]|e|]; cbn.
  - rewrite decide_True in Hi' by done. destruct (firstRoot Sum256 NewSigner now tree) as [r|e|] eqn:Er; cbn; intros [= <- <-];
      [done|by apply (intact_tail Ls t)..].
  - rewrite decide_False in Hi' by done. destruct e; intros [= <- <-]; try done.
    by destruct (InitLog_error t now tree (system w) s1).
  - rewrite decide_False in Hi' by done. by intros [= <- <-].
Qed.

Lemma ensureInit_rows Ls R now env t w o w' :
  intact Ls R (rows w) → int64 t →
  ensureInit Sum256 NewSigner a now env t w = (o, w') →
  intact Ls (if is_Ok o then t :: R else R) (rows w').
Proof.
  intros Hi Ht. unfold ensureInit, Client.GetLatestSignedLogRoot, logServer.
  unfold mbind at 1, M_bind at 1, try at 1. destruct (call _ _ _ _ w) as [o1 w1] eqn:E1.
  apply call_system in E1.
  assert (rows w1 = rows w ∧ ∀ r, o1 = Ok r → is_Some (rows w !! keyS typ_r t "root")) as [Hk Hs].
  { destruct E1 as [[-> Hn]|(ctx' & w2 & o2 & w3 & E2 & Hsrv & E3 & ->)].
    - split; [done|]. intros r ->. by destruct (Hn r).
    - apply GetLatest_rows in Hsrv as [Hk Hs]. rewrite E3, Hk, E2. split; [done|].
      intros r Hr. rewrite <-E2. destruct o2 as [r'| |]; [by apply (Hs r')|done|done]. }
  clear E1. rewrite <-Hk in Hi. destruct o1 as [r|e|].
  - intros [= <- <-]. cbn. destruct Hi as [H1 H2]. split; [done|]. intros t' Hin.
    apply elem_of_cons in Hin as [->|Hin]; [|by apply H2]. split; [done|].
    apply has_root_stored; [by apply H1|]. rewrite Hk. by apply (Hs r).
  - destruct e; try by intros [= <- <-].
    unfold Client.InitLog, mbind at 1, M_bind at 1, try at 1.
    destruct (call _ _ _ _ w1) as [o1 w4] eqn:E1. apply call_system in E1.
    assert (intact Ls (if is_Ok o1 then t :: R else R) (rows w4)) as Hi'.
    { destruct E1 as [[-> Hn]|(ctx' & w2 & o2 & w3 & E2 & Hsrv & -> & ->)].
      - destruct o1 as [r| |]; [by destruct (Hn r)|done|done].
      - rewrite <-E2 in Hi. apply (InitLog_rows Ls R) in Hsrv; [|done..]. by destruct o2. }
    by destruct o1 as [r| |]; cbn; intros [= <- <-].
  - by intros [= <- <-].
Qed.

Lemma setupLogs_rows {H} (ctfe : LogConfig → outcome (list (string * H))) Ls clock cfgs :
  ∀ i R w o w', intact Ls R (rows w) → Forall (λ lc, int64 (Config.LogId lc)) cfgs →
  setupLogs Sum256 NewSigner a ctfe clock i cfgs w = (o, w') →
  ∃ R', intact Ls R' (rows w') ∧ R ⊆ R' ∧
    (is_Ok o = true → ∀ lc, lc ∈ cfgs → Config.LogId lc ∈ R').
Proof.
  induction cfgs as [|lc cfgs IH]; intros i R w o w' Hi Hc Hrun.
  { injection Hrun as <- <-. exists R. split; [done|]. split; [done|]. intros _ lc Hlc.
    by apply elem_of_nil in Hlc. }
  apply Forall_cons in Hc as [Ht Hc]. cbn [setupLogs] in Hrun. unfold mbind at 1, M_bind at 1 in Hrun.
  destruct (ensureInit _ _ _ _ _ _ w) as [o1 w1] eqn:E.
  apply (ensureInit_rows Ls R) in E; [|done..].
  destruct o1 as [[]|e|]; cbn [is_Ok] in E; [|injection Hrun as <- <-; by exists R..].
  unfold mbind at 1, M_bind at 1, lift in Hrun.
  destruct (ctfe lc) as [hs|e|]; [|injection Hrun as <- <-; eexists; split; [exact E|]; set_solver..].
  unfold mbind, M_bind in Hrun.
  destruct (setupLogs _ _ _ _ _ _ _ w1) as [o2 w2] eqn:E2.
  apply (IH _ _ _ _ _ E Hc) in E2 as (R' & Hi' & HR & Hok). exists R'.
  assert (w' = w2 ∧ is_Ok o = is_Ok o2) as [-> ->] by (destruct o2; by injection Hrun as <- <-).
  split; [done|]. split; [set_solver|]. intros Ho lc' Hlc. specialize (Hok Ho).
  apply elem_of_cons in Hlc as [->|Hlc]; [|by apply Hok]. set_solver.
Qed.
End startup.

(** ** Properties *)

Section properties.
Context (Sum256 : bytes → bytes).
Context `{!Codec LogLeaf, !Codec SubtreeProto, !Codec Frontier, !Codec (list LogLeaf)}.
Context `{!MapRange bytes, !MapRange Z, !CodecLaws Frontier, !MapRangeLaws bytes}.
Context (NewSigner : Config.Tree → outcome (bytes → outcome bytes)).
Context {H : Type} (ctfe : LogConfig → outcome (list (string * H))).
Context (Hcanon : ∀ f, solid f → canon f = f) (Hsum : ∀ b, Sum256 b ≠ []).
Context (HSigner : ∀ tree sign b, NewSigner tree = Ok sign → sign b ≠ Err ErrTreeNeedsInit).

(** C12. Starting the server initializes the logs and loses none: whatever happens
    on the way, every log is the log it was; and when the server starts to
    listen, every configured log has a signed root, whose hash is the Merkle
    tree hash of the log, the hash of no leaves for a new one. *)
Theorem startup_initializes Ls cfg clock s o w' :
  (∀ t, int64 t → log_state Sum256 t (Ls t) (kv (local s))) →
  Forall (λ lc, int64 (Config.LogId lc)) (LogConfigs cfg) →
  startup Sum256 NewSigner ctfe cfg clock s = (o, w') →
  (∀ t, int64 t → log_state Sum256 t (Ls t) (kv (local (system w')))) ∧
  (is_Ok o = true → ∀ lc, lc ∈ LogConfigs cfg →
     has_root Sum256 (Config.LogId lc) (Ls (Config.LogId lc)) (kv (local (system w')))).
Proof.
  intros Hl Hc Hrun. unfold startup in Hrun.
  eapply (setupLogs_rows Sum256 NewSigner _ Hcanon Hsum HSigner ctfe Ls clock _ 0 [])
    in Hrun as (R & [H1 H2] & _ & Hok); [|split|done].
  - split; [exact H1|]. intros Ho lc Hlc. by apply H2, Hok.
  - cbn [system]. by case_match.
  - intros t Ht. by apply elem_of_nil in Ht.
Qed.
End properties.

(** *** What may be cached *)

Lemma string_length_app p q :
  String.length (p +:+ q) = (String.length p + String.length q)%nat.
Proof. induction p as [|c p IH]; [done|]. simpl. by f_equal. Qed.

Lemma substring_all s : String.substring 0 (String.length s) s = s.
Proof. induction s as [|c s IH]; [done|]. simpl. by rewrite IH. Qed.

Lemma substring_app p q :
  String.substring (String.length p) (String.length q) (p +:+ q) = q.
Proof. induction p as [|c p IH]; [apply substring_all|exact IH]. Qed.

Lemma substring_split n s :
  (n ≤ String.length s)%nat →
  s = String.substring 0 n s +:+ String.substring n (String.length s - n) s.
Proof.
  revert n. induction s as [|c s IH]; intros [|n] Hn; simpl in *; try done; try lia.
  - by rewrite substring_all.
  - change (String.String c s = String.String c
      (String.substring 0 n s +:+ String.substring n (String.length s - n) s)).
    f_equal. apply IH. lia.
Qed.

Lemma HasSuffix_spec s suffix : HasSuffix s suffix = true ↔ ∃ p, s = p +:+ suffix.
Proof.
  unfold HasSuffix. rewrite andb_true_iff, bool_decide_eq_true, Nat.leb_le. split.
  - intros [Hl E]. exists (String.substring 0 (String.length s - String.length suffix) s).
    rewrite <-E at 2.
    replace (String.length suffix) with (String.length s - (String.length s - String.length suffix))%nat
      at 3 by lia. apply substring_split. lia.
  - intros [p ->]. rewrite string_length_app. split; [lia|].
    replace (_ + _ - _)%nat with (String.length p) by lia. apply substring_app.
Qed.

(** The pages that may be cached, by the suffixes of their paths. *)
Definition cacheable (path : string) : Prop :=
  path = "/"%string ∨ (∃ p, path = p +:+ "/ct/v1/get-sth") ∨ (∃ p, path = p +:+ "/ct/v1/get-roots").

(** The value that is set for a path that is read. *)
Definition cacheControl (path : string) : string :=
  if bool_decide (path = "/"%string) then "public, max-age=14400"
  else if HasSuffix path "/ct/v1/get-sth" then "public, max-age=3600"
  else if HasSuffix path "/ct/v1/get-roots" then "public, max-age=14400"
  else "no-cache".

Lemma cacheControl_spec path :
  (cacheControl path = "no-cache"%string ∨ ∃ age, cacheControl path = "public, max-age=" +:+ age) ∧
  (cacheControl path ≠ "no-cache"%string ↔ cacheable path).
Proof.
  pose proof (HasSuffix_spec path "/ct/v1/get-sth") as Hsth.
  pose proof (HasSuffix_spec path "/ct/v1/get-roots") as Hroots.
  unfold cacheControl, cacheable. case_bool_decide as Ep; [split; [right; by eexists|naive_solver]|].
  destruct (HasSuffix _ "/ct/v1/get-sth"); [split; [right; by eexists|naive_solver]|].
  destruct (HasSuffix _ "/ct/v1/get-roots"); [split; [right; by eexists|naive_solver]|].
  split; [by left|naive_solver].
Qed.

(** The handler counts the request, sets the header, and hands over. *)
Lemma ServeHTTP_inner inner req rw :
  ∃ colos, ServeHTTP inner req rw = inner req
    (mkRW (if decide (Method req = "GET"%string)
           then <["Cache-Control"%string := cacheControl (Path req)]> (rwHeader rw)
           else rwHeader rw) (rwStatus rw) (rwBody rw) colos).
Proof.
  unfold ServeHTTP, cacheControl. destruct rw as [h st b colos].
  set (ray := default ""%string (Header req !! "Cf-Ray"%string)).
  destruct (bool_decide (ray = ""%string)), (coloOf ray); eexists;
    case_bool_decide; rewrite ?decide_True, ?decide_False by done;
    repeat case_match; reflexivity.
Qed.

(** Only the front page, the newest tree head and the accepted roots may be
    cached, and only when they are read: every other answer to a GET says that
    it must not be, and nothing is said about answers to other methods.  The
    inner handler answers every request, once, and sees nothing else changed. *)
Theorem cacheHandler_policy inner req rw :
  ∃ rw', ServeHTTP inner req rw = inner req rw' ∧
    rwStatus rw' = rwStatus rw ∧ rwBody rw' = rwBody rw ∧
    (Method req ≠ "GET"%string → rwHeader rw' = rwHeader rw) ∧
    (Method req = "GET"%string → ∃ v,
       rwHeader rw' = <["Cache-Control"%string := v]> (rwHeader rw) ∧
       (v = "no-cache"%string ∨ ∃ age, v = "public, max-age=" +:+ age) ∧
       (v ≠ "no-cache"%string ↔ cacheable (Path req))).
Proof.
  destruct (ServeHTTP_inner inner req rw) as [colos ->]. eexists. split; [reflexivity|].
  cbn [rwStatus rwBody rwHeader]. split; [done|]. split; [done|].
  split; intros E; [by rewrite decide_False|]. rewrite decide_True by done.
  eexists. split; [done|]. apply cacheControl_spec.
Qed.

(** ** Witnesses *)

Section witnesses.
#[local] Existing Instance leafCodec.
#[local] Existing Instance subtreeCodec.
#[local] Existing Instance frontierCodec.
#[local] Existing Instance jsonCodec.
#[local] Existing Instance mapRange.
#[local] Existing Instance listRange.

Definition sampleCfg : Config :=
  mkConfig "" "" "" "" "" "" "" "" "" 5 10 0 0 (mkSignerConfig 1 1 1)
    [mkLogConfig 7 "log" [] None None None (""%string, [])] sampleAdmin.
Definition sampleSigner : Config.Tree → outcome (bytes → outcome bytes) :=
  λ _, Ok (λ b, Ok [Byte.x07]).
Definition sampleClock : nat → Z * (nat → leafEnv) :=
  λ _, (1%Z, λ _, mkLeafEnv 0 0 None (λ _, None)).
Definition sampleFrontend : LogConfig → outcome (list (string * unit)) :=
  λ _, Ok [("/log/ct/v1/get-sth"%string, tt)].
Definition started : outcome (list (string * unit)) * World :=
  startup toySum sampleSigner sampleFrontend sampleCfg sampleClock sampleSystem.

Lemma startup_initializes_witness :
  fst started = Ok [("/log/ct/v1/get-sth"%string, tt)] ∧
  has_root toySum 7 [] (kv (local (system (snd started)))).
Proof.
  assert (fst started = Ok [("/log/ct/v1/get-sth"%string, tt)]) as E by (vm_compute; reflexivity).
  split; [exact E|].
  destruct (startup_initializes toySum (CodecLaws0 := countableCodec_laws Frontier)
    (MapRangeLaws0 := listRangeLaws) sampleSigner sampleFrontend (λ f _, eq_refl) toySum_ne
    (λ tree sign b Hs, ltac:(injection Hs as <-; discriminate)) (λ _, []) sampleCfg sampleClock
    sampleSystem (fst started) (snd started)) as [_ Hr].
  - intros t _. split; [constructor|]. left. split; [reflexivity|]. apply lookup_empty.
  - repeat constructor. unfold int64. cbn. lia.
  - apply surjective_pairing.
  - apply (Hr ltac:(rewrite E; reflexivity) (mkLogConfig 7 "log" [] None None None (""%string, []))).
    left.
Defined.
End witnesses.
