(* ===== verification/Sequencer.v ===== *)
(** * The sequencer (src/vendor/github.com/google/trillian)

    [log/sequencer.go] and [server/sequencer_manager.go]: what the server's
    main loop does for every log.  In one transaction, [IntegrateBatch] takes
    queued leaves, numbers them, adds them to the compact tree it rebuilds from
    stored nodes, hands the leaves, the nodes and the new signed root to the
    storage, and commits.  It is the main client of read-write transactions.
    The signer of ct-log gives no tokens back (its quota manager is
    [quota.Noop()]), and metrics are not modelled. *)

From S2P Require Import Prelude Keys Trillian Frontier Fsm LevelDB Local Remote Cache Compact.
From S2P Require Import Nodes SubtreeCache Config ReadTx TreeTx LogStorage Quota Rpc Server.

(** ** Timestamps and durations (golang/protobuf/ptypes) *)

Definition err_timestamp : error := Errorf "timestamp: %v".
Definition validateTimestamp (ts : Timestamp) : outcome unit :=
  let '(seconds, nanos) := ts in
  if (seconds <? -62135596800)%Z || (253402300800 <=? seconds)%Z ||
     (nanos <? 0)%Z || (1000000000 <=? nanos)%Z
  then Err err_timestamp else Ok ().

(** Of a time in nanoseconds since 1970. *)
Definition TimestampProto (now : Z) : outcome Timestamp :=
  let ts := (now `div` 1000000000, now `mod` 1000000000)%Z in
  _ ← validateTimestamp ts; mret ts.

Definition err_duration : error := Errorf "duration: %v".
Definition maxSeconds : Z := 315576000000.
Definition ptypes_Duration (d : Duration) : outcome Z :=
  let '(seconds, nanos) := d in
  if (seconds <? - maxSeconds)%Z || (maxSeconds <? seconds)%Z ||
     (nanos <=? -1000000000)%Z || (1000000000 <=? nanos)%Z ||
     ((seconds <? 0) && (0 <? nanos) || (0 <? seconds) && (nanos <? 0))%Z
  then Err err_duration
  else
    let d := wrap64 (seconds * 1000000000) in
    if negb (godiv d 1000000000 =? seconds)%Z then Err err_duration
    else if (nanos =? 0)%Z then Ok d
    else
      let d := wrap64 (d + nanos) in
      if negb (bool_decide (d < 0 ↔ nanos < 0)%Z) then Err err_duration else Ok d.

(** The leaf with the time it was integrated at. *)
Definition with_IntegrateTimestamp (ts : Timestamp) (l : LogLeaf) : LogLeaf :=
  mkLogLeaf (MerkleLeafHash l) (LeafValue l) (ExtraData l) (LeafIndex l) (LeafIdentityHash l)
    (QueueTimestamp l) (Some ts).

(** What the clock yields during a run, in nanoseconds: at the start, when no
    leaf was found, for each leaf, and for the root. *)
Record Clock := mkClock { startTime : Z; idleTime : Z; leafTime : nat → Z; rootTime : Z }.

Definition maxTreeDepth : Z := 64.

Definition err_one_node : error :=
  Errorf "%x: Did not retrieve one node while loading compact Merkle tree, got %#v for ID %v@%v".
Definition err_leaf_seq : error := Errorf "got invalid leaf index: %v, want: %v".
Definition err_tree_type : error := Errorf "IntegrateBatch not supported for TreeType %v".
Definition err_write_revision : error := Errorf "%v: got writeRevision of %v, but expected %v".
Definition err_root_timestamp : error :=
  Errorf "refusing to sign root with timestamp earlier than previous root (%d <= %d)".

Section sequencer.
Context (Sum256 : bytes → bytes).
Context `{!Codec LogLeaf, !Codec SubtreeProto, !Codec Frontier, !Codec (list LogLeaf)}.
Context `{!MapRange bytes, !MapRange Z}.

(** ** Rebuilding the tree *)

(** The callback of [NewTreeWithState]: one node from storage. *)
Definition fetchNode (revision : Z) (depth index : Z) : TxM slice :=
  id ← lift (NewNodeIDForTreeCoords depth index maxTreeDepth);
  nodes ← onRead (GetMerkleNodes Sum256 (wrap64 revision) [id]);
  match nodes with
  | [n] => mret (Hash n)
  | _ => fail err_one_node
  end.

Definition buildMerkleTreeFromStorageAtRoot (r : LogRootV1.t) : TxM Compact.Tree :=
  NewTreeWithState Sum256 (wrap64 (LogRootV1.TreeSize r)) (fetchNode (LogRootV1.Revision r))
    (Some (LogRootV1.RootHash r)).

Definition initMerkleTreeFromStorage (r : LogRootV1.t) : TxM Compact.Tree :=
  if (LogRootV1.TreeSize r =? 0)%Z then mret (NewTree Sum256)
  else buildMerkleTreeFromStorageAtRoot r.

(** ** Growing the tree

    The nodes to write are collected in a map by their identifier. *)
Abbreviation NodeMap := (gmap bytes Node).

Definition putNode (depth index : Z) (h : slice) : M NodeMap unit :=
  id ← lift (NewNodeIDForTreeCoords depth index maxTreeDepth);
  key ← lift (String_NodeID id);
  modify (<[key := mkNode id h]>).

(** The check of the queue timestamp, for which the merge delay is measured. *)
Definition checkQueueTimestamp (ts : option Timestamp) : outcome unit :=
  match ts with
  | Some ts => if negb (ts.1 =? 0)%Z then validateTimestamp ts else Ok ()
  | None => Ok ()
  end.

(** The loop over the leaves, which it gives their integration timestamps; [i]
    counts them. *)
Fixpoint updateCompactTree (now : nat → Z) (i : nat) (leaves : list LogLeaf)
    : M (Compact.Tree * NodeMap) (list LogLeaf) :=
  match leaves with
  | [] => mret []
  | leaf :: rest =>
      seq ← AddLeafHash Sum256 putNode (MerkleLeafHash leaf);
      if negb (LeafIndex leaf =? seq)%Z then fail err_leaf_seq
      else
        ts ← lift (TimestampProto (now i));
        _ ← lift (checkQueueTimestamp (QueueTimestamp leaf));
        _ ← zoom snd (λ m p, (p.1, m)) (putNode 0 seq (MerkleLeafHash leaf));
        rest ← updateCompactTree now (S i) rest;
        mret (with_IntegrateTimestamp ts leaf :: rest)
  end.

(** The nodes of the map, in the order of [range]; their revision is that of
    the transaction that stores them. *)
Definition buildNodesFromNodeMap (m : NodeMap) : list Node := (map_range m).*2.

(** ** Sequencing tasks *)

Definition numberLeaves (treeSize : Z) (leaves : list LogLeaf) : list LogLeaf :=
  imap (λ i leaf, with_LeafIndex (wrap64 (treeSize + Z.of_nat i)) leaf) leaves.

Definition fetch (tt : TreeType) (treeSize limit cutoff : Z) : TxM (list LogLeaf) :=
  match tt with
  | LOG => leaves ← DequeueLeaves limit cutoff; mret (numberLeaves treeSize leaves)
  | PREORDERED_LOG => DequeueLeaves limit cutoff
  | _ => fail err_tree_type
  end.

Definition update (tt : TreeType) (leaves : list LogLeaf) : TxM unit :=
  match tt with
  | LOG => UpdateSequencedLeaves Sum256 leaves
  | _ => mret ()
  end.

(** ** A batch *)

Section batch.
Context (clk : Clock) (tree : Config.Tree) (sign : bytes → outcome bytes).

(** No leaf was found, and the root is not too old yet. *)
Definition idle (r : LogRootV1.t) (maxRootDuration : Z) : bool :=
  let interval := wrap64 (idleTime clk - wrap64 (LogRootV1.TimestampNanos r)) in
  (maxRootDuration =? 0)%Z || (interval <? maxRootDuration)%Z.

(** Storing the grown tree and its root; [leaves] are the ones just added. *)
Definition storeBatch (r : LogRootV1.t) (newVersion : Z) (mt : Compact.Tree) (nodes : NodeMap)
    (leaves : list LogLeaf) : TxM unit :=
  _ ← update (tree_TreeType tree) leaves;
  _ ← SetMerkleNodes Sum256 (buildNodesFromNodeMap nodes);
  let newLogRoot := LogRootV1.mk (wrapU64 (Size mt)) (sl (CurrentRoot mt))
    (wrapU64 (rootTime clk)) (wrapU64 newVersion) [] in
  if (LogRootV1.TimestampNanos newLogRoot <=? LogRootV1.TimestampNanos r)%Z
  then fail err_root_timestamp
  else
    newSLR ← lift (SignLogRoot sign (TreeId tree) newLogRoot);
    StoreSignedLogRoot Sum256 newSLR.

(** The code also tests [currentRoot.RootHash == nil].  [UnmarshalBinary]
    makes the slice ([reflect.MakeSlice] in tls.go), so it is never nil after
    a success; a [LogRootV1] has bytes there and not a [slice]. *)
Definition integrate (limit guardWindow maxRootDuration : Z) : TxM unit :=
  sth ← onRead LatestSignedLogRoot;
  currentRoot ← lift (LogRootV1.UnmarshalBinary (sl (LogRoot sth)));
  leaves ← fetch (tree_TreeType tree) (wrap64 (LogRootV1.TreeSize currentRoot)) limit
             (wrap64 (startTime clk - guardWindow));
  if (length leaves =? 0)%nat && idle currentRoot maxRootDuration then mret ()
  else
    mt ← initMerkleTreeFromStorage currentRoot;
    newVersion ← WriteRevision;
    if negb (newVersion =? wrap64 (LogRootV1.Revision currentRoot + 1))%Z
    then fail err_write_revision
    else
      '(leaves, (mt, nodes)) ←
        lift (match updateCompactTree (leafTime clk) 0 leaves (mt, ∅) with
              | (Ok leaves, p) => Ok (leaves, p)
              | (Err e, _) => Err e
              | (Panic, _) => Panic
              end);
      storeBatch currentRoot newVersion mt nodes leaves.

(** The number of leaves that it also returns goes to logs and metrics. *)
Definition IntegrateBatch (limit guardWindow maxRootDuration : Z) : M System unit :=
  ReadWriteTransaction (TreeId tree) (integrate limit guardWindow maxRootDuration).

(** [SignRoot] signs the tree as it is. *)
Definition signRootTx : TxM unit :=
  sth ← onRead LatestSignedLogRoot;
  currentRoot ← lift (LogRootV1.UnmarshalBinary (sl (LogRoot sth)));
  mt ← initMerkleTreeFromStorage currentRoot;
  let newLogRoot := LogRootV1.mk (wrapU64 (Size mt)) (sl (CurrentRoot mt))
    (wrapU64 (rootTime clk)) (wrapU64 (LogRootV1.Revision currentRoot + 1)) [] in
  newSLR ← lift (SignLogRoot sign (TreeId tree) newLogRoot);
  StoreSignedLogRoot Sum256 newSLR.
Definition SignRoot : M System unit := ReadWriteTransaction (TreeId tree) signRootTx.
End batch.

(** ** The sequencer manager *)

Context (NewSigner : Config.Tree → outcome (bytes → outcome bytes)).
Context (a : adminStorage).

Definition seqOpts : GetOpts := mkGetOpts [LOG; PREORDERED_LOG] SequenceLog.

(** Signers are cached, which does not show: a signer is a function of the
    tree. *)
Definition ExecutePass (clk : Clock) (guardWindow batchSize : Z) (logID : Z) : M System unit :=
  tree ← lift (wrapf "error retrieving log %v: %v" (trees_GetTree Background a logID seqOpts));
  _ ← lift (match tree_HashStrategy tree with
            | RFC6962_SHA256 => Ok ()
            | _ => Err (Wrapf "error getting hasher for log %v: %v" err_hasher)
            end);
  sign ← lift (wrapf "error getting signer for log %v: %v" (trees_Signer NewSigner tree));
  let maxRootDuration :=
    match ptypes_Duration (tree_MaxRootDuration tree) with Ok d => d | _ => 0%Z end in
  wrapErr "failed to integrate batch for %v: %v"
    (IntegrateBatch clk tree sign batchSize guardWindow maxRootDuration).
End sequencer.

(** ** What a batch publishes *)

(** The head of the log of tree [t] with the leaf hashes [L]: its root row holds
    [r], whose hash and size are those of the log. *)
Definition head_of (Sum256 : bytes → bytes) `{!Codec Frontier} (t : Z) (L : list bytes)
    (r : LogRootV1.t) (m : kvmap) : Prop :=
  log_state Sum256 t L m ∧ LogRootV1.TreeSize r = Z.of_nat (length L) ∧
  ∃ raw, m !! keyS typ_r t "root" = Some raw ∧ LogRootV1.UnmarshalBinary raw = Ok r.

(** The leaves as they are stored: numbered from [n], with the times at which
    they were integrated. *)
Definition timestampOf (now : Z) : Timestamp := (now `div` 1000000000, now `mod` 1000000000)%Z.
Definition stampLeaves (now : nat → Z) (leaves : list LogLeaf) : list LogLeaf :=
  imap (λ i leaf, with_IntegrateTimestamp (timestampOf (now i)) leaf) leaves.

Section batches.
Context (Sum256 : bytes → bytes).
Context `{!Codec LogLeaf, !Codec SubtreeProto, !Codec Frontier, !Codec (list LogLeaf)}.
Context `{!MapRange bytes, !MapRange Z}.

(** *** The parts of a run *)

Lemma MostRecentRoot_head t L r d :
  head_of Sum256 t L r (kv d) →
  match MostRecentRoot t d with
  | (Ok (sth, _), _) =>
      LogRootV1.UnmarshalBinary (sl (LogRoot sth)) = Ok r ∧
      TreeRevision sth = wrap64 (LogRootV1.Revision r) ∧ TreeSize sth = wrap64 (LogRootV1.TreeSize r)
  | (Err e, _) => e ≠ ErrTreeNeedsInit
  | (Panic, _) => False
  end.
Proof.
  destruct d as [m fs]. cbn [kv]. intros ((_ & Hroot) & _ & raw & Hrow & Hu).
  unfold has_root in Hroot. unfold MostRecentRoot, db_Get, io, next_fault. unfold_M.
  set (k1 := keyS typ_r t "root") in *. set (k2 := keyS typ_r t "sig") in *.
  set (k3 := keyS typ_r t "frontier") in *. clearbody k1 k2 k3.
  destruct Hroot as [[_ H]|(rr & sg & fr & l & H1 & H2 & H3 & H4 & H5 & H6)]; [congruence|].
  rewrite Hrow in H1. injection H1 as <-.
  destruct fs as [|[?|] [|[?|] [|[?|] [|[?|] fs]]]]; cbn; rewrite ?Hrow; cbn; rewrite ?H2; cbn;
    rewrite ?H3; cbn; rewrite ?Hu; cbn; rewrite ?take_app_length, ?H6; cbn; done.
Qed.

Lemma beginForTree_head t L r s ltx s1 :
  head_of Sum256 t L r (kv (local s)) → beginForTree t s = (Ok ltx, s1) →
  LogRootV1.UnmarshalBinary (sl (LogRoot (root (rolt ltx)))) = Ok r ∧
  TreeRevision (root (rolt ltx)) = wrap64 (LogRootV1.Revision r).
Proof.
  intros Hh%MostRecentRoot_head H. unfold beginForTree in H. rewrite NewLogSubtreeCache_Ok in H.
  erewrite mbind_step in H by reflexivity.
  unfold mbind, M_bind, try, sysLocal, zoom in H. cbn [fst snd] in H.
  destruct (MostRecentRoot t (local s)) as [[[sth f]|e|] d]; [| |done].
  - injection H as <- _. destruct Hh as (H1 & H2 & _). by split.
  - by destruct e.
Qed.

(** Reading nodes changes nothing that is committed. *)
Lemma seq_GetMerkleNodes t f R D I m rem rev ids :
  stable (seq_state t f R D I m rem) (onRead (GetMerkleNodes Sum256 rev ids)).
Proof.
  intros w [Ht Hf HR HD HI HO Hq Hk Hr]. unfold onRead, zoom, GetMerkleNodes.
  erewrite mbind_step by reflexivity. unfold onSubtrees, zoom. cbn [fst snd].
  pose proof (stable_GetNodes (λ d, kv d = m) (populateLogSubtreeNodes Sum256) ids
    (getSubtrees (treeID (rolt w.2)) rev) (stable_GetSubtrees (λ k, k = m) _ _)
    (subtreeCache (rolt w.2), local w.1) Hk) as Hst.
  destruct (GetNodes _ _ _ _) as [o [sc d]]. by split.
Qed.

Lemma stable_fetchLoop {S} (P : S → Prop) f n depth sz ns :
  (∀ d i, stable P (f d i)) → stable P (fetchLoop f n depth sz ns).
Proof.
  intros Hf. revert depth sz ns. induction n as [|n IH]; intros depth sz ns; cbn [fetchLoop]; [apply stable_ret|].
  apply stable_bind; [|intros ?; apply IH]. case_match; [|apply stable_ret].
  apply stable_bind; [apply Hf|intros ?; apply stable_ret].
Qed.

Lemma stable_NewTreeWithState {S} (P : S → Prop) sz f h :
  (∀ d i, stable P (f d i)) → stable P (NewTreeWithState Sum256 sz f h).
Proof.
  intros Hf. unfold NewTreeWithState. apply stable_bind.
  - case_match; [apply stable_ret|]. apply stable_bind; [by apply stable_fetchLoop|intros ?; apply stable_lift].
  - intros mt. case_match; [apply stable_fail|apply stable_ret].
Qed.

Lemma seq_initMerkleTree t f R D I m rem r :
  stable (seq_state t f R D I m rem) (initMerkleTreeFromStorage Sum256 r).
Proof.
  unfold initMerkleTreeFromStorage, buildMerkleTreeFromStorageAtRoot.
  case_match; [apply stable_ret|]. apply stable_NewTreeWithState. intros d i. unfold fetchNode.
  apply stable_bind; [apply stable_lift|intros id].
  apply stable_bind; [apply seq_GetMerkleNodes|intros ns].
  destruct ns as [|? []]; apply stable_ret || apply stable_fail.
Qed.

(** *** Sizes *)

Lemma recalculateRoot_size {S} f mt (s : S) mt' s' :
  recalculateRoot Sum256 f mt s = (Ok mt', s') → tree_size mt' = tree_size mt.
Proof.
  unfold recalculateRoot. case_match; [by intros [= <- _]|].
  intros (h & s1 & _ & [= <- _])%mbind_Ok. done.
Qed.

Lemma AddLeafHash_size {S} f h mt (s : S) seq mt' s' :
  AddLeafHash Sum256 f h (mt, s) = (Ok seq, (mt', s')) → tree_size mt' = wrap64 (tree_size mt + 1).
Proof.
  unfold AddLeafHash. destruct (addLeafBody _ _ _ _ _) as [[x|e|] [ns s1]]; [| |done].
  all: destruct (recalculateRoot _ _ _ _) as [[mt1|e1|] s2] eqn:E; intros H; simplify_eq; try done.
  apply recalculateRoot_size in E. by rewrite E.
Qed.

Lemma initMerkleTree_size r w mt w' :
  initMerkleTreeFromStorage Sum256 r w = (Ok mt, w') → int64 (LogRootV1.TreeSize r) →
  tree_size mt = LogRootV1.TreeSize r.
Proof.
  intros H Hi. unfold initMerkleTreeFromStorage in H.
  destruct (Z.eqb_spec (LogRootV1.TreeSize r) 0) as [->|_]; [by injection H as <- _|].
  unfold buildMerkleTreeFromStorageAtRoot, NewTreeWithState in H. rewrite wrap64_small in H by done.
  apply mbind_Ok in H as (mt1 & w1 & H1 & H). case_match; [done|]. injection H as -> _.
  case_match; [by injection H1 as <- _|].
  apply mbind_Ok in H1 as (ns & w2 & _ & H1). unfold lift in H1.
  destruct (recalculateRoot _ _ _ _) as [o u] eqn:E. cbn in H1.
  destruct o; injection H1 as H1 _; simplify_eq. by apply recalculateRoot_size in E.
Qed.

(** *** The loop over the leaves *)

Lemma TimestampProto_Ok now ts : TimestampProto now = Ok ts → ts = timestampOf now.
Proof. unfold TimestampProto. intros ([] & _ & [= <-])%outcome_bind_Ok. done. Qed.

Lemma updateCompactTree_Ok now i leaves mt nm leaves' mt' nm' :
  updateCompactTree Sum256 now i leaves (mt, nm) = (Ok leaves', (mt', nm')) →
  (0 ≤ tree_size mt)%Z → (tree_size mt + Z.of_nat (length leaves) < 2 ^ 63)%Z →
  leaves' = stampLeaves (λ k, now (i + k)) leaves ∧
  tree_size mt' = (tree_size mt + Z.of_nat (length leaves))%Z.
Proof.
  revert i mt nm leaves' mt' nm'. induction leaves as [|leaf leaves IH]; intros i mt nm leaves' mt' nm' H Hpos Hlen;
    cbn [updateCompactTree] in H.
  { injection H as <- <- _. split; [done|simpl; lia]. }
  apply mbind_Ok in H as (seq & [mt1 nm1] & Ha & H). apply AddLeafHash_size in Ha.
  case_match; [done|]. apply mbind_Ok in H as (ts & ? & Hts & H). apply mbind_Ok in H as ([] & ? & Hq & H).
  unfold lift in Hts, Hq. injection Hts as Hts <-. injection Hq as _ <-.
  apply mbind_Ok in H as ([] & [mt2 nm2] & Hp & H). unfold zoom in Hp. cbn [fst snd] in Hp.
  destruct (putNode _ _ _ nm1) as [o nm3]. injection Hp as -> <- _.
  apply mbind_Ok in H as (rest & [mt3 nm4] & Hrest & H). injection H as <- <- _.
  cbn [length] in Hlen. rewrite wrap64_small in Ha by (unfold int64; lia).
  apply IH in Hrest as [-> Hsz]; [|lia..]. rewrite Hsz, Ha. split; [|simpl; lia].
  apply TimestampProto_Ok in Hts as ->. unfold stampLeaves. rewrite imap_cons, Nat.add_0_r.
  f_equal. apply imap_ext. intros k l _. cbn. by rewrite Nat.add_succ_r.
Qed.

(** *** The leaves of a batch *)

Definition hashesOf (leaves : list LogLeaf) : list bytes := (λ l, sl (MerkleLeafHash l)) <$> leaves.

Lemma stamped_hashes now n leaves :
  Forall hashed leaves →
  MerkleLeafHash <$> stampLeaves now (numberLeaves n leaves) = Some <$> hashesOf leaves ∧
  Forall (.≠ []) (hashesOf leaves).
Proof.
  intros H. unfold stampLeaves, numberLeaves, hashesOf. split.
  - apply list_eq. intros k. rewrite !list_lookup_fmap, !list_lookup_imap.
    destruct (leaves !! k) as [l|] eqn:El; [|done]. cbn.
    by destruct (Forall_lookup_1 _ _ _ _ H El) as (h & -> & _).
  - apply Forall_fmap. eapply Forall_impl; [exact H|]. intros l (h & Hh & Hne). cbn. by rewrite Hh.
Qed.

Lemma stamped_contig now n leaves :
  (0 ≤ n)%Z → (n + Z.of_nat (length leaves) < 2 ^ 63)%Z →
  contig n (stampLeaves now (numberLeaves n leaves)).
Proof.
  intros Hn Hlen k l Hl. unfold stampLeaves, numberLeaves in Hl.
  rewrite !list_lookup_imap in Hl. destruct (leaves !! k) as [leaf|] eqn:E; [|done]. cbn in Hl.
  injection Hl as <-. cbn. apply lookup_lt_Some in E. apply wrap64_small. unfold int64. lia.
Qed.

Lemma length_stamped now n leaves : length (stampLeaves now (numberLeaves n leaves)) = length leaves.
Proof. unfold stampLeaves, numberLeaves. by rewrite !length_imap. Qed.

Lemma hashesOf_stamped now n leaves : hashesOf (stampLeaves now (numberLeaves n leaves)) = hashesOf leaves.
Proof.
  unfold hashesOf, stampLeaves, numberLeaves. apply list_eq. intros k.
  rewrite !list_lookup_fmap, !list_lookup_imap. by destruct (leaves !! k).
Qed.

(** *** A batch *)

Context (clk : Clock) (tree : Config.Tree) (sign : bytes → outcome bytes).
Context (Hlog : tree_TreeType tree = LOG).
Abbreviation t := (TreeId tree).

(** The root that a batch signs. *)
Definition batchRoot (newVersion : Z) (mt : Compact.Tree) : LogRootV1.t :=
  LogRootV1.mk (wrapU64 (Size mt)) (sl (CurrentRoot mt)) (wrapU64 (rootTime clk))
    (wrapU64 newVersion) [].

Lemma wrapU64_range z : (0 ≤ wrapU64 z < 2 ^ 64)%Z.
Proof. apply Z.mod_pos_bound. lia. Qed.

Lemma storeBatch_Ok f D m rem r newVersion mt nodes leaves w w' :
  seq_state t f [] D [] m rem w →
  storeBatch Sum256 clk tree sign r newVersion mt nodes leaves w = (Ok (), w') →
  ∃ rem' slr raw, let f' := appendLeaves Sum256 f leaves in
    Remote.PutLeaves t leaves rem = (Ok (), rem') ∧ marshal f' = Ok raw ∧
    sl (RootHash slr) = sl (Head Sum256 f') ∧ honest slr ∧
    seq_state t f' (rootPuts t slr raw) D (indexOps t (indexRows leaves)) m rem' w' ∧
    LogRootV1.UnmarshalBinary (sl (LogRoot slr)) = Ok (batchRoot newVersion mt) ∧
    (LogRootV1.TimestampNanos r < LogRootV1.TimestampNanos (batchRoot newVersion mt))%Z.
Proof.
  intros Hw H. unfold storeBatch, update in H. rewrite Hlog in H.
  apply mbind_Ok in H as ([] & w1 & H1 & H).
  apply (seq_Update _ _ _ _ Hw) in H1 as (rem' & Hput & H1).
  apply mbind_Ok in H as ([] & w2 & H2 & H). apply (seq_SetNodes _ _ _ _ H1) in H2.
  fold (batchRoot newVersion mt) in H. cbv zeta in H.
  destruct (Z.leb_spec (LogRootV1.TimestampNanos (batchRoot newVersion mt)) (LogRootV1.TimestampNanos r)); [done|].
  apply mbind_Ok in H as (slr & w3 & Hs & H). unfold lift in Hs. injection Hs as Hs <-.
  assert (LogRootV1.wf (batchRoot newVersion mt)) as Hwf by (split_and!; apply wrapU64_range).
  pose proof (SignLogRoot_reads _ _ _ _ Hwf Hs) as (Hu & _).
  apply (SignLogRoot_honest _ _ _ _ Hwf) in Hs as (Hh & _).
  apply (seq_StoreRoot _ _ _ _ H2) in H as (raw & Hm & Hroot & H3).
  exists rem', slr, raw. by split_and!.
Qed.

(** A run that succeeds: nothing to do, or the batch it stored. *)
Lemma integrate_Ok limit guard maxDuration r f m rem w w' :
  seq_state t f [] [] [] m rem w →
  LogRootV1.UnmarshalBinary (sl (LogRoot (root (rolt w.2)))) = Ok r →
  (LogRootV1.TreeSize r + Z.of_nat (length (dequeues t m limit (wrap64 (startTime clk - guard)))) < 2 ^ 63)%Z →
  (0 ≤ LogRootV1.TreeSize r)%Z →
  integrate Sum256 clk tree sign limit guard maxDuration w = (Ok (), w') →
  let es := dequeues t m limit (wrap64 (startTime clk - guard)) in
  ∃ leaves, Forall2 (λ e l, unmarshal e.2 = Ok l) es leaves ∧
    ((leaves = [] ∧ idle clk r maxDuration = true ∧ seq_state t f [] [] [] m rem w') ∨
     ∃ w1 mt nm, (leaves = [] → idle clk r maxDuration = false) ∧
       seq_state t f [] (BDelete <$> es.*1) [] m rem w1 ∧
       Size mt = (LogRootV1.TreeSize r + Z.of_nat (length leaves))%Z ∧
       storeBatch Sum256 clk tree sign r (wrap64 (LogRootV1.Revision r + 1)) mt nm
         (stampLeaves (leafTime clk) (numberLeaves (LogRootV1.TreeSize r) leaves)) w1 = (Ok (), w')).
Proof.
  intros Hw Hu Hlen Hpos H es. unfold integrate in H.
  rewrite (mbind_step _ _ _ _ _ (onRead_root w)) in H.
  apply mbind_Ok in H as (r0 & w0 & Hr & H). unfold lift in Hr. rewrite Hu in Hr. injection Hr as <- <-.
  unfold fetch in H. rewrite Hlog in H.
  apply mbind_Ok in H as (nls & w1 & Hd & H). apply mbind_Ok in Hd as (leaves & w1' & Hd & [= <- ->]).
  apply (seq_Dequeue _ _ _ _ _ Hw) in Hd as [HF H1]. fold es in HF, H1, Hlen. cbn [app] in H1.
  exists leaves. split; [done|]. pose proof (Forall2_length _ _ _ HF) as Hes.
  rewrite wrap64_small in H by (unfold int64; lia).
  unfold numberLeaves in H at 1. rewrite length_imap in H.
  destruct ((length leaves =? 0)%nat && idle clk r maxDuration) eqn:Ei.
  { left. injection H as <-. apply andb_true_iff in Ei as [->%Nat.eqb_eq%nil_length_inv Ei].
    inversion HF as [E|]; subst. by rewrite <-E in H1. }
  right. apply mbind_Ok in H as (mt & w2 & Hmt & H).
  pose proof (seq_initMerkleTree _ _ _ _ _ _ _ r _ H1) as H2. rewrite Hmt in H2. cbn [snd] in H2.
  apply initMerkleTree_size in Hmt; [|unfold int64; lia].
  apply mbind_Ok in H as (nv & w3 & [= <- <-] & H).
  destruct (Z.eqb_spec (writeRevision (rolt w2.2)) (wrap64 (LogRootV1.Revision r + 1))) as [Hv|]; [|done].
  cbn [negb] in H. rewrite Hv in H.
  apply mbind_Ok in H as ([leaves' [mt' nm]] & w3 & Hup & H). unfold lift in Hup.
  destruct (updateCompactTree _ _ _ _ _) as [[ls|e|] [mt1 nm1]] eqn:Eu; simplify_eq.
  fold (numberLeaves (LogRootV1.TreeSize r) leaves) in Eu.
  assert (length (numberLeaves (LogRootV1.TreeSize r) leaves) = length leaves) as El by apply length_imap.
  apply updateCompactTree_Ok in Eu as [-> Hsz]; [|lia..].
  exists w3, mt', nm. split; [by intros ->|]. split; [done|]. split; [unfold Size; lia|done].
Qed.

(** ** Properties *)

Context `{!CodecLaws Frontier, !JSONLaws, !MapRangeLaws Z}.
Context (Hcanon : ∀ f, solid f → canon f = f).
Context (Hsum : ∀ b, Sum256 b ≠ []).

(** A run that dequeues the rows [es] and commits: the queue loses them, and
    nothing else. *)
Lemma committed_queue (es : list (bytes * bytes)) m b k :
  rowOps isQueueKey b = BDelete <$> es.*1 → isQueueKey k = true →
  apply_batch m b !! k = if decide (k ∈ es.*1) then None else m !! k.
Proof. intros E Hk. by rewrite (apply_batch_rowOps isQueueKey), E, apply_batch_deletes. Qed.

Lemma committed_index I m b k :
  rowOps isIndexKey b = I → isIndexKey k = true → apply_batch m b !! k = apply_batch m I !! k.
Proof. intros E Hk. by rewrite (apply_batch_rowOps isIndexKey), E. Qed.

Lemma committed_foreign m b k :
  rowOps (isForeignKey t) b = [] → isForeignKey t k = true → apply_batch m b !! k = m !! k.
Proof. intros E Hk. by rewrite (apply_batch_rowOps (isForeignKey t)), E. Qed.

Lemma committed_head L r m b :
  head_of Sum256 t L r m → rootOps b = [] → head_of Sum256 t L r (apply_batch m b).
Proof.
  intros (Hl & Hs & raw & Hrow & Hu) E.
  assert (∀ name, apply_batch m b !! keyS typ_r t name = m !! keyS typ_r t name) as Eb
    by (intros name; by rewrite (apply_batch_rowOps isRootKey), E).
  split; [by eapply log_state_rows|]. split; [done|]. exists raw. by rewrite Eb.
Qed.

(** The leaves of a batch, as they join a log of [n] leaves. *)
Definition integrated (n : nat) (leaves : list LogLeaf) : list LogLeaf :=
  stampLeaves (leafTime clk) (numberLeaves (Z.of_nat n) leaves).

(** What a run does to the queue, the indexes, other trees, the log and the
    bucket. *)
Definition published (limit guard maxDuration : Z) (L : list bytes) (r : LogRootV1.t)
    (log leaves : list LogLeaf) (s s' : System) : Prop :=
  let es := dequeues t (kv (local s)) limit (wrap64 (startTime clk - guard)) in
  Forall2 (λ e l, unmarshal e.2 = Ok l) es leaves ∧
  (∀ k, isQueueKey k = true →
     kv (local s') !! k = if decide (k ∈ es.*1) then None else kv (local s) !! k) ∧
  (∀ k, isIndexKey k = true →
     kv (local s') !! k =
     apply_batch (kv (local s)) (indexOps t (indexRows (integrated (length L) leaves))) !! k) ∧
  (∀ k, isForeignKey t k = true → kv (local s') !! k = kv (local s) !! k) ∧
  elsewhere t (objects (remote s)) (remote s') ∧
  (leaves = [] ∧ idle clk r maxDuration = true ∧
     head_of Sum256 t L r (kv (local s')) ∧ remote s' = remote s ∨
   (leaves = [] → idle clk r maxDuration = false) ∧
   ∃ r', head_of Sum256 t (L ++ hashesOf leaves) r' (kv (local s')) ∧
     (LogRootV1.TimestampNanos r < LogRootV1.TimestampNanos r')%Z ∧
     LogRootV1.TimestampNanos r' = wrapU64 (rootTime clk) ∧
     LogRootV1.Revision r' = wrapU64 (LogRootV1.Revision r + 1) ∧
     covers (remote s') t (log ++ integrated (length L) leaves)).

Lemma wrapU64_wrap64 z : wrapU64 (wrap64 z) = wrapU64 z.
Proof.
  unfold wrapU64, wrap64. rewrite Zminus_mod_idemp_l. f_equal. lia.
Qed.

Lemma batch_publishes limit guard maxDuration L r log s s' :
  head_of Sum256 t L r (kv (local s)) → int64 t →
  (∀ k v leaf, (k, v) ∈ dequeues t (kv (local s)) limit (wrap64 (startTime clk - guard)) →
     unmarshal v = Ok leaf → hashed leaf) →
  (Z.of_nat (length L) +
     Z.of_nat (length (dequeues t (kv (local s)) limit (wrap64 (startTime clk - guard)))) < 2 ^ 63)%Z →
  Forall benign (netFaults (remote s)) → wf_remote t (remote s) →
  covers (remote s) t log → length log = length L →
  IntegrateBatch Sum256 clk tree sign limit guard maxDuration s = (Ok (), s') →
  wf_remote t (remote s') ∧ (netFaults (remote s) = [] → netFaults (remote s') = []) ∧
  ∃ leaves, published limit guard maxDuration L r log leaves s s'.
Proof.
  intros Hh Hi Hdec Hlen Hben Hwr Hcov Hlog' Hrun. unfold IntegrateBatch in Hrun.
  apply ReadWriteTransaction_Ok in Hrun as (ltx & s1 & w & w' & Hb & Hf & Hc & <-).
  pose proof Hh as (Hl & Hs & _).
  pose proof (beginForTree_seq Sum256 t L s ltx s1 Hl Hb) as H0.
  apply (beginForTree_head t L r) in Hb as [Hu _]; [|done]. rewrite <-Hs in Hlen.
  eapply integrate_Ok in Hf as (leaves & HF & Hcase); [|exact H0|exact Hu|exact Hlen|lia].
  destruct Hcase as [(-> & Hidle & H1)|(w1 & mt & nm & Hbusy & H1 & Hsz & Hst)].
  { inversion HF as [E|]; subst. apply (seq_Commit _ _ H1) in Hc as [Hrem (b & Hkv & HR & HD & HI & HO)].
    rewrite Hrem. split; [done|]. split; [done|]. exists []. split; [by rewrite <-E|]. rewrite Hkv, <-E.
    split; [intros k Hk; by apply committed_queue|].
    split; [intros k Hk; by apply committed_index|].
    split; [intros k Hk; by apply committed_foreign|]. split; [by rewrite Hrem|]. left. by split_and!; [..|apply committed_head|]. }
  apply (storeBatch_Ok _ _ _ _ _ _ _ _ _ _ _ H1) in Hst
    as (rem' & slr & raw & Hput & Hm & Hroot & Hhon & H2 & Hread & Hts).
  apply (seq_Commit _ _ H2) in Hc as [Hrem (b & Hkv & HR & HD & HI & HO)]. rewrite Hrem.
  pose proof (Forall2_length _ _ _ HF) as Hes.
  destruct (PutLeaves_log t log (stampLeaves (leafTime clk) (numberLeaves (LogRootV1.TreeSize r) leaves))
    (remote s)) as (o & r' & Hp & Hwr' & _ & _ & Hok & Hnet); rewrite ?Hlog', <-?Hs, ?length_stamped; try done.
  { apply stamped_contig; lia. }
  { lia. }
  rewrite Hput in Hp. injection Hp as <- <-. split; [done|]. split; [by apply Hnet|].
  exists leaves. split; [done|]. rewrite Hkv.
  split; [intros k Hk; by apply committed_queue|].
  split; [intros k Hk; apply committed_index; [|done]; by rewrite HI, Hs|].
  split; [intros k Hk; by apply committed_foreign|].
  split; [rewrite Hrem; by eapply PutLeaves_elsewhere|]. right. split; [done|].
  exists (batchRoot (wrap64 (LogRootV1.Revision r + 1)) mt).
  assert (Forall hashed leaves) as Hhashed.
  { apply Forall_forall. intros leaf (i & Hi')%list_elem_of_lookup_1.
    destruct (Forall2_lookup_r _ _ _ _ _ HF Hi') as ([k v] & He & Hv).
    eapply Hdec; [by eapply list_elem_of_lookup_2|done]. }
  destruct (stamped_hashes (leafTime clk) (LogRootV1.TreeSize r) leaves Hhashed) as [Hhs Hne].
  rewrite (appendLeaves_appendAll _ _ _ _ Hhs) in *. unfold appendAll in Hm, Hroot.
  rewrite <-fold_left_app in Hm, Hroot. fold (appendAll Sum256 zeroFrontier (L ++ hashesOf leaves)) in *.
  split; [|split; [done|split; [done|split]]].
  - assert (Forall (.≠ []) (L ++ hashesOf leaves)) as HL by (apply Forall_app; split; [apply Hl|done]).
    split; [split; [done|right; by eapply root_log_state]|]. split.
    + cbn. unfold wrapU64. rewrite length_app, Hsz. unfold hashesOf. rewrite length_fmap, Z.mod_small by lia. lia.
    + exists (sl (LogRoot slr)). split; [|done]. by eapply rootPuts_rows.
  - cbn. apply wrapU64_wrap64.
  - rewrite Hrem. unfold integrated. rewrite <-Hs. by apply Hok.
Qed.

(** C2. A batch of the sequencer: a run that succeeds has taken the oldest leaves of
    the queue up to the cutoff, and removed their rows and no other row from
    it; the log is extended by exactly these leaves, in order, numbered from
    its size; the bucket holds them behind the leaves it held, and their hashes
    are in the indexes; the new root is the Merkle tree hash of the new log, with
    its size, the next revision and a later timestamp.  The rows and the objects
    of other logs are left alone.  Only when there are no leaves and the root is fresh
    is nothing written.  Whatever the stored nodes are: a run that rebuilds
    another tree from them fails. *)
Theorem IntegrateBatch_publishes limit guard maxDuration L r log s s' :
  head_of Sum256 t L r (kv (local s)) → int64 t →
  (∀ k v leaf, (k, v) ∈ dequeues t (kv (local s)) limit (wrap64 (startTime clk - guard)) →
     unmarshal v = Ok leaf → hashed leaf) →
  (Z.of_nat (length L) +
     Z.of_nat (length (dequeues t (kv (local s)) limit (wrap64 (startTime clk - guard)))) < 2 ^ 63)%Z →
  Forall benign (netFaults (remote s)) → wf_remote t (remote s) →
  covers (remote s) t log → length log = length L →
  IntegrateBatch Sum256 clk tree sign limit guard maxDuration s = (Ok (), s') →
  ∃ leaves, published limit guard maxDuration L r log leaves s s'.
Proof. intros. by eapply batch_publishes. Qed.
End batches.

(** ** Witnesses *)

Section witnesses.
#[local] Existing Instance leafCodec.
#[local] Existing Instance subtreeCodec.
#[local] Existing Instance frontierCodec.
#[local] Existing Instance jsonCodec.
#[local] Existing Instance mapRange.
#[local] Existing Instance listRange.

Definition seqTree : Config.Tree :=
  mkTree 1 ACTIVE LOG RFC6962_SHA256 SHA256 ECDSA (""%string, []) None (0, 0)%Z (0, 0)%Z (0, 0)%Z.
Definition seqSign : bytes → outcome bytes := λ _, Ok [Byte.x07].
Definition clockAt (now : Z) : Clock := mkClock now now (λ _, now) now.

(** A log that was initialized, with one leaf queued. *)
Definition seqMap : kvmap :=
  apply_batch queueOnly (rootPuts 1 (rootOver (toySum []) 0 0)
    (match marshal (zeroFrontier) with Ok raw => raw | _ => [] end)).
Definition seqSystem : System := mkSystem (mkDB seqMap []) (mkRemote ∅ []) (New hour 10).

Definition batch1 : outcome unit * System :=
  IntegrateBatch toySum (clockAt 2000000000) seqTree seqSign 10 0 0 seqSystem.

Lemma seqSystem_head : head_of toySum 1 [] (LogRootV1.mk 0 (toySum []) 1 0 []) (kv (local seqSystem)).
Proof.
  split; [|split; [done|eexists; split; vm_compute; reflexivity]]. split; [constructor|]. right.
  eexists _, _, _, _. repeat split; vm_compute; reflexivity.
Qed.

Lemma IntegrateBatch_publishes_witness :
  fst batch1 = Ok () ∧
  ∃ leaves, published toySum (clockAt 2000000000) seqTree 10 0 0 []
    (LogRootV1.mk 0 (toySum []) 1 0 []) [] leaves seqSystem (snd batch1).
Proof.
  assert (fst batch1 = Ok ()) as E by (vm_compute; reflexivity).
  split; [exact E|].
  assert (dequeues 1 (kv (local seqSystem)) 10 2000000000 =
    [(queueRow 1 10 [Byte.x00; Byte.x00; Byte.x00; Byte.x01], pos_bytes (encode (exampleLeaf Byte.x01)))]) as Ed
    by (vm_compute; reflexivity).
  apply (IntegrateBatch_publishes toySum (clockAt 2000000000) seqTree seqSign eq_refl
    (CodecLaws0 := countableCodec_laws Frontier) (H := jsonCodec_laws) (MapRangeLaws0 := mapRange_laws)
    (λ f _, eq_refl) toySum_ne 10 0 0 [] (LogRootV1.mk 0 (toySum []) 1 0 []) [] seqSystem (snd batch1)).
  - exact seqSystem_head.
  - exact int64_1.
  - intros k v leaf Hin Hu. change (dequeues _ _ _ _) with (dequeues 1 (kv (local seqSystem)) 10 2000000000) in Hin.
    rewrite Ed in Hin.
    apply list_elem_of_singleton in Hin. injection Hin as -> ->.
    vm_compute in Hu. injection Hu as <-. exists [Byte.x01]. by split.
  - change (dequeues _ _ _ _) with (dequeues 1 (kv (local seqSystem)) 10 2000000000).
    rewrite Ed. simpl. lia.
  - constructor.
  - intros b raw _ H. cbn in H. by rewrite lookup_empty in H.
  - intros i l H. by rewrite lookup_nil in H.
  - reflexivity.
  - apply injective_projections; [exact E|reflexivity].
Defined.

(** Several batches, of a growing log whose tree is rebuilt from stored nodes
    each time. *)
Definition enqueue (s : System) (h : byte) : System :=
  with_local (mkDB (<[queueRow 1 (b2z h) [Byte.x00; Byte.x00; Byte.x00; h] :=
    pos_bytes (encode (exampleLeaf h))]> (kv (local s))) []) s.
Definition runBatch (now : Z) (hs : list byte) (s : System) : outcome unit * System :=
  IntegrateBatch toySum (clockAt now) seqTree seqSign 10 0 0 (fold_left enqueue hs s).

Example three_batches :
  let '(o1, s1) := runBatch 2000000000 [Byte.x02; Byte.x03] seqSystem in
  let '(o2, s2) := runBatch 3000000000 [Byte.x04; Byte.x05; Byte.x06] s1 in
  let '(o3, s3) := runBatch 4000000000 [Byte.x07] s2 in
  [o1; o2; o3] = [Ok (); Ok (); Ok ()] ∧
  RootHash ∘ fst <$> fst (MostRecentRoot 1 (local s3)) =
    Ok (Some (MTH toySum ((λ h, [h]) <$> [Byte.x02; Byte.x03; Byte.x01; Byte.x04; Byte.x05; Byte.x06; Byte.x07]))).
Proof. vm_compute. by split. Qed.
End witnesses.
