(* ===== verification/Growth.v ===== *)
(** * What a batch stores

    The log grows: a batch of the sequencer ([Sequencer]) that meets no faults
    succeeds, and leaves the database ready for the next one.  The file follows
    the nodes of the tree from the compact tree that reports them through the
    node map, the subtree cache and the batch to the rows of subtrees. *)

From S2P Require Import Prelude Keys Trillian Frontier Fsm LevelDB Local Remote Cache Compact.
From S2P Require Import Nodes SubtreeCache TreeNodes Config ReadTx TreeTx StoredTree LogStorage Quota Rpc Server Sequencer.

(** ** The node map *)

Section nodemap.
Context (Sum256 : bytes → bytes).

(** What [putNode] does on a node of a log. *)
Definition keepPut (d i : Z) (h : slice) (m : gmap bytes Node) : gmap bytes Node :=
  <[nodeKey d i := mkNode (coordsID d i) h]> m.

(** Every entry is a node of a log with a hash, under its key. *)
Definition collected (m : gmap bytes Node) : Prop :=
  ∀ key n, m !! key = Some n → ∃ (d i : nat) h, logNode (Z.of_nat d, Z.of_nat i) ∧
    key = nodeKey (Z.of_nat d) (Z.of_nat i) ∧ n = mkNode (coordsID (Z.of_nat d) (Z.of_nat i)) (Some h).

(** The nodes of [m], and those of [F] where it has none. *)
Definition nodesWith (F : nat → nat → slice) (m : gmap bytes Node) (d i : nat) : slice :=
  match m !! nodeKey (Z.of_nat d) (Z.of_nat i) with Some n => Hash n | None => F d i end.

Lemma putNode_keepPut d i h m :
  logNode (d, i) → int64 i → putNode d i h m = (Ok (), keepPut d i h m).
Proof.
  intros [Hv _] Hi. unfold putNode, maxTreeDepth. rewrite NewNodeIDForTreeCoords_valid by done.
  erewrite mbind_step by reflexivity. rewrite String_NodeID_coords by done. by erewrite mbind_step by reflexivity.
Qed.

Lemma collected_keepPut (d i : nat) h m :
  logNode (Z.of_nat d, Z.of_nat i) → collected m → collected (keepPut (Z.of_nat d) (Z.of_nat i) (Some h) m).
Proof.
  intros Hx Hm key n. unfold keepPut. rewrite lookup_insert. case_decide as E; [|apply Hm].
  intros [= <-]. by exists d, i, h.
Qed.

Lemma nodesWith_keepPut F (d i : nat) h m d' i' :
  logNode (Z.of_nat d, Z.of_nat i) → logNode (Z.of_nat d', Z.of_nat i') →
  nodesWith F (keepPut (Z.of_nat d) (Z.of_nat i) h m) d' i' =
  if decide ((Z.of_nat d', Z.of_nat i') = (Z.of_nat d, Z.of_nat i)) then h else nodesWith F m d' i'.
Proof.
  intros [Hv _] [Hv' _]. unfold nodesWith, keepPut. rewrite lookup_insert. case_decide as E.
  - apply nodeKey_inj in E as [-> ->]; [|done..]. by rewrite decide_True.
  - rewrite decide_False; [done|]. intros [= E1 E2]. by rewrite E1, E2 in E.
Qed.

Lemma putNode_accepts all :
  (Z.of_nat (length all) < 2 ^ 63)%Z → accepts Sum256 keepPut collected putNode all.
Proof.
  intros Hl d i h m Hm (d0 & i0 & [= -> ->] & Hp & _ & [= ->]).
  destruct (present_logNode _ _ _ Hl Hp) as [Hx Hi]. split; [by apply putNode_keepPut|by apply collected_keepPut].
Qed.

Lemma keepPut_tracks F all :
  (Z.of_nat (length all) < 2 ^ 63)%Z →
  tracks Sum256 keepPut collected (nodesWith F) (λ d i, logNode (Z.of_nat d, Z.of_nat i)) all.
Proof.
  intros Hl d i h m d' i' _ (d0 & i0 & [= -> ->] & Hp & _) Hx'.
  destruct (present_logNode _ _ _ Hl Hp) as [Hx _]. by apply nodesWith_keepPut.
Qed.

(** The loop over the leaves: the tree grows by them, and the nodes that changed
    are in the map. *)
Lemma updateCompactTree_run now F leaves : ∀ i hs L mt nm,
  tree_of Sum256 L mt → MerkleLeafHash <$> leaves = Some <$> hs →
  contig (Z.of_nat (length L)) leaves → (Z.of_nat (length L) + Z.of_nat (length leaves) < 2 ^ 63)%Z →
  (∀ k, validateTimestamp (timestampOf (now k)) = Ok ()) →
  Forall (λ l, checkQueueTimestamp (QueueTimestamp l) = Ok ()) leaves → collected nm →
  (∀ d i, logNode (Z.of_nat d, Z.of_nat i) → nodesWith F nm d i = treeNode Sum256 L d i) →
  ∃ leaves' mt' nm', updateCompactTree Sum256 now i leaves (mt, nm) = (Ok leaves', (mt', nm')) ∧
    tree_of Sum256 (L ++ hs) mt' ∧ collected nm' ∧
    ∀ d i, logNode (Z.of_nat d, Z.of_nat i) → nodesWith F nm' d i = treeNode Sum256 (L ++ hs) d i.
Proof.
  induction leaves as [|leaf leaves IH]; intros i hs L mt nm Htree Hhs Hcon Hlen Hnow Hq Hnm HA.
  { destruct hs; [|done]. rewrite app_nil_r. by exists [], mt, nm. }
  destruct hs as [|h hs]; [done|]. rewrite !fmap_cons in Hhs. injection Hhs as Hh Hhs.
  cbn [length] in Hlen. apply Forall_cons in Hq as [Hq0 Hq].
  assert (Z.of_nat (length (L ++ [h])) < 2 ^ 63)%Z as Hl1 by (rewrite length_app; simpl; lia).
  destruct (AddLeafHash_nodes Sum256 keepPut collected (nodesWith F) _ putNode mt L h nm
    (putNode_accepts _ Hl1) (keepPut_tracks F _ Hl1) Hnm Htree ltac:(lia) HA) as (mt1 & nm1 & Hadd & Ht1 & Hnm1 & HA1).
  cbn [updateCompactTree]. rewrite Hh. erewrite mbind_step by exact Hadd.
  pose proof (Hcon 0 leaf eq_refl) as Hidx. rewrite Z.add_0_r in Hidx. rewrite Hidx, Z.eqb_refl. cbn [negb].
  unfold TimestampProto. fold (timestampOf (now i)). rewrite (Hnow i). erewrite mbind_step by reflexivity.
  rewrite Hq0. erewrite mbind_step by reflexivity.
  destruct (present_logNode (length (L ++ [h])) 0 (length L)) as [Hx Hi]; [done| |].
  { unfold present. rewrite length_app. simpl. lia. }
  erewrite mbind_step by (unfold zoom; cbn [fst snd]; rewrite (putNode_keepPut 0) by done; reflexivity).
  cbn [fst snd]. set (nm2 := keepPut 0 _ _ nm1).
  assert (treeNode Sum256 (L ++ [h]) 0 (length L) = Some h) as Eleaf.
  { rewrite treeNode_perfect by (rewrite length_app; simpl; lia).
    rewrite (nodeHash_eq _ L [h]) by (simpl; lia). by rewrite MTH_one. }
  destruct (IH (S i) hs (L ++ [h]) mt1 nm2) as (rest & mt' & nm' & Hrun & Ht' & Hnm' & HA'); try done.
  - intros k l Hl. rewrite length_app. cbn [length]. rewrite (Hcon (S k) l Hl). lia.
  - rewrite length_app. cbn [length]. lia.
  - by apply (collected_keepPut 0).
  - intros d j Hd. unfold nm2. rewrite (nodesWith_keepPut F 0) by done.
    case_decide as E; [|by apply HA1]. injection E as E1 E2.
    assert (d = 0) as -> by lia. assert (j = length L) as -> by lia. done.
  - erewrite mbind_step by exact Hrun. eexists _, mt', nm'. split; [reflexivity|].
    by rewrite <-app_assoc in *.
Qed.
End nodemap.

(** ** A transaction under way *)

Section run.
Context (Sum256 : bytes → bytes).
Context `{!Codec LogLeaf, !Codec SubtreeProto, !Codec Frontier, !Codec (list LogLeaf)}.
Context `{!CodecLaws SubtreeProto, !CodecLaws Frontier, !JSONLaws}.
Context `{!MapRange bytes, !MapRangeLaws bytes, !MapRange Z, !MapRangeLaws Z}.
Context (t rev : Z) (m : kvmap) (L : list bytes).
Context (Hsto : stores Sum256 L m t rev).
Context (Ht : int64 t) (Hrev : (0 ≤ rev)%Z) (Hrev' : (rev + 1 < 2 ^ 63)%Z).
Abbreviation populate := (populateLogSubtreeNodes Sum256).

(** No disk fault is to come, the state machine is in [q], the cache holds the
    nodes [F], and no row of a subtree is in the batch. *)
Record running (q : fsmState) (F : nat → nat → slice) (w : System * logTreeTX) : Prop := {
  run_fsm : state (tx_fsm w.2) = q;
  run_db : local w.1 = mkDB m [];
  run_tree : treeID (rolt w.2) = t;
  run_rev : TreeRevision (root (rolt w.2)) = rev;
  run_cache : cache_for populate (dbStore m t rev) F (subtreeCache (rolt w.2));
  run_wf : tx_wf (localTx w.2);
  run_rows : writes isSubtreeKey [] (localTx w.2);
  run_queued : queuedLeaves w.2 = false;
  run_dirty : q = sBegin ∨ q = sDequeueLeaves → dirtyPrefixes (subtreeCache (rolt w.2)) = ∅
}.

Lemma run_emit q st F w :
  running q F w → st ∈ fsmTransitions q →
  ∃ w', onFsm (emit st) w = (Ok (), w') ∧ running st F w' ∧ w'.1 = w.1 ∧ rolt w'.2 = rolt w.2.
Proof.
  intros [H1 H2 H3 H4 H5 H6 H7 H8 H9] Hst. unfold onFsm, zoom.
  assert (emit st (tx_fsm w.2) = (Ok (), mkFsm st)) as -> by (apply emit_Ok; rewrite H1; auto).
  eexists. split; [reflexivity|]. split; [|done]. split; try done.
  intros Hq. apply H9. unfold fsmTransitions in Hst. destruct q; set_solver.
Qed.

(** *** Dequeueing *)

Lemma run_Dequeue F limit cutoff w :
  running sBegin F w → (∀ k v, (k, v) ∈ queued m t cutoff → ∃ l : LogLeaf, unmarshal v = Ok l) →
  ∃ ls w', DequeueLeaves limit cutoff w = (Ok ls, w') ∧ running sDequeueLeaves F w'.
Proof.
  intros Hw Hq. destruct (run_emit _ sDequeueLeaves F w Hw) as (w1 & He & [H1 H2 H3 H4 H5 H6 H7 H8 H9] & _); [by right; left|].
  unfold DequeueLeaves. erewrite mbind_step by exact He. erewrite mbind_step by reflexivity.
  unfold onDBTx, zoom. rewrite H2, H3. destruct H7 as (b & Hb & Hrows).
  destruct (localTx w1.2) as [ob] eqn:El. cbn in Hb. subst ob.
  destruct (DequeueLeaves_total t (TreeSize (root (rolt w1.2))) cutoff limit m b Hq) as (ls & [b'] & HD).
  rewrite HD. exists ls. eexists. split; [reflexivity|].
  apply DequeueLeaves_Ok in HD as (_ & Hb' & _). cbn in Hb'. subst b'. cbn [kv] in *.
  set (es := take (Z.to_nat limit) (queued m t cutoff)).
  split; cbn; try done.
  - apply wf_batch_app. split; [exact H6|]. intros k v (k' & ? & _)%list_elem_of_fmap. done.
  - exists (b ++ (BDelete <$> es.*1)). split; [done|]. rewrite rowOps_app, Hrows. cbn [app].
    apply rowOps_none. rewrite !Forall_fmap, Forall_forall. intros [k v] Hin. cbn.
    apply subseteq_take, queue_range_key in Hin as [Hin _]. destruct k as [|c k]; [done|].
    cbn in Hin |- *. by apply bool_decide_eq_true in Hin as ->.
Qed.

(** *** Rebuilding the tree *)

Lemma run_read q F cs w :
  running q F w → Forall logNode cs →
  ∃ w', onRead (GetMerkleNodes Sum256 rev (logID <$> cs)) w =
    (Ok (nodesOf populate (dbStore m t rev) (subtreeCache (rolt w.2)) cs), w') ∧ running q F w'.
Proof.
  intros [H1 H2 H3 H4 H5 H6 H7 H8 H9] Hcs. unfold onRead, zoom, GetMerkleNodes.
  erewrite mbind_step by reflexivity. unfold onSubtrees, zoom. cbn [fst snd]. rewrite H2, H3.
  destruct (cache_for_read populate (dbStore m t rev) (getSubtrees t rev) (mkDB m []) (stores_storage _ _ _ _ _ Hsto)
    F (subtreeCache (rolt w.2)) cs H5 Hcs) as (c' & E & Hc' & Hd).
  rewrite E. eexists. split; [reflexivity|]. split; try done. cbn. by rewrite Hd.
Qed.

Lemma run_fetch q :
  (Z.of_nat (length L) < 2 ^ 63)%Z →
  fetches Sum256 (running q (treeNode Sum256 L)) (fetchNode Sum256 rev) L.
Proof.
  intros HL d i w Hw Hin. assert (present (length L) d i) as Hp.
  { unfold present. pose proof (Nat.pow_nonzero 2 d). nia. }
  destruct (present_logNode _ _ _ HL Hp) as [Hx Hi]. unfold fetchNode, maxTreeDepth.
  rewrite NewNodeIDForTreeCoords_valid by (done || apply Hx). erewrite mbind_step by reflexivity.
  rewrite wrap64_small by (unfold int64; lia).
  destruct (run_read q _ [(Z.of_nat d, Z.of_nat i)] w Hw) as (w' & E & Hw'); [by constructor|].
  erewrite mbind_step by exact E. unfold nodesOf. cbn [omap list_omap fst snd].
  rewrite (abs_for populate (dbStore m t rev) (treeNode Sum256 L)) by (done || apply Hw).
  rewrite treeNode_perfect by done. by exists w'.
Qed.

Lemma run_init q r w :
  running q (treeNode Sum256 L) w → (Z.of_nat (length L) < 2 ^ 63)%Z →
  LogRootV1.TreeSize r = Z.of_nat (length L) → LogRootV1.RootHash r = MTH Sum256 L →
  LogRootV1.Revision r = rev →
  ∃ mt w', initMerkleTreeFromStorage Sum256 r w = (Ok mt, w') ∧ tree_of Sum256 L mt ∧
    running q (treeNode Sum256 L) w'.
Proof.
  intros Hw HL Hs Hh Hr. unfold initMerkleTreeFromStorage, buildMerkleTreeFromStorageAtRoot. rewrite Hs.
  destruct (Z.eqb_spec (Z.of_nat (length L)) 0) as [Hz|Hz].
  { assert (L = []) as -> by (apply nil_length_inv; lia). eexists _, w. split; [reflexivity|].
    split; [apply tree_of_NewTree|done]. }
  rewrite wrap64_small by (unfold int64; lia). rewrite Hh, Hr.
  destruct (NewTreeWithState_resumes Sum256 _ (fetchNode Sum256 rev) L w (run_fetch q HL) Hw) as (mt & w' & E & Hmt & Hw').
  by exists mt, w'.
Qed.

(** *** Storing the leaves *)

Lemma run_Update F leaves rem' w :
  running sDequeueLeaves F w → Remote.PutLeaves t leaves (remote w.1) = (Ok (), rem') →
  Forall (λ l, seq_fits (LeafIndex l)) leaves →
  ∃ w', UpdateSequencedLeaves Sum256 leaves w = (Ok (), w') ∧ running sUpdateSequencedLeaves F w'.
Proof.
  intros Hw Hput Hfit. destruct (run_emit _ sUpdateSequencedLeaves F w Hw) as (w1 & He & Hw1 & E1 & _); [by left|].
  destruct Hw1 as [H1 H2 H3 H4 H5 H6 H7 H8 H9].
  unfold UpdateSequencedLeaves. erewrite mbind_step by exact He. erewrite mbind_step by reflexivity.
  erewrite mbind_step by (unfold onSystem, sysRemote, zoom; rewrite E1, H3, Hput; reflexivity).
  erewrite mbind_step by reflexivity. unfold onTx, zoom. cbn [fst snd rolt localTx tx_fsm queuedLeaves]. rewrite H3.
  set (rows := zip (zip (LeafIndex <$> leaves) (MerkleLeafHash <$> leaves)) (LeafIdentityHash <$> leaves)).
  assert (rows.*1.*1 = LeafIndex <$> leaves ∧ rows.*1.*2 = MerkleLeafHash <$> leaves ∧
    rows.*2 = LeafIdentityHash <$> leaves) as (R1 & R2 & R3).
  { unfold rows. rewrite !fst_zip, !snd_zip by (rewrite ?length_zip_with, !length_fmap; lia). done. }
  pose proof H7 as (b & Hb & _). destruct (localTx w1.2) as [ob] eqn:El. cbn in Hb. subst ob.
  pose proof (PutLeaves_Ok t rows b) as Hp. rewrite R1, R2, R3 in Hp.
  assert (Forall (λ r, seq_fits r.1.1) rows) as Hrows.
  { assert (Forall seq_fits rows.*1.*1) as Hf by (rewrite R1, Forall_fmap; exact Hfit).
    rewrite !Forall_fmap in Hf. exact Hf. }
  specialize (Hp Hrows).
  pose proof (stable_PutLeaves (P := isSubtreeKey) t [] (LeafIndex <$> leaves) (MerkleLeafHash <$> leaves)
    (LeafIdentityHash <$> leaves) _ H7) as Hst.
  pose proof (local_step_inv _ _ (step_PutLeaves t (LeafIndex <$> leaves) (MerkleLeafHash <$> leaves)
    (LeafIdentityHash <$> leaves) (mkDB m []) _ _ _ Ht Hp) (conj (sto_db _ _ _ _ _ Hsto) H6)) as [_ Hwf].
  rewrite Hp in Hst |- *. eexists. split; [reflexivity|]. cbn [fst snd] in *. split; cbn; try done.
  by rewrite E1 in H2.
Qed.

(** *** Storing the nodes *)

Lemma run_SetNode F (d i : nat) h w :
  running sSetMerkleNodes F w → logNode (Z.of_nat d, Z.of_nat i) → h ≠ [] →
  ∃ w', onRead (onSubtrees (SetNodeHash populate (coordsID (Z.of_nat d) (Z.of_nat i)) (Some h)
      (rolt_getSubtree (treeID (rolt w.2)) (writeRevision (rolt w.2))))) w = (Ok (), w') ∧
    running sSetMerkleNodes (updNode F d i h) w'.
Proof.
  intros [H1 H2 H3 H4 H5 H6 H7 H8 H9] Hx Hh. unfold onRead, onSubtrees, zoom. cbn [fst snd]. rewrite H2, H3.
  unfold writeRevision. rewrite H4, wrap64_small by (unfold int64; lia).
  destruct (cache_for_set populate (dbStore m t rev) (getSubtrees t rev) (mkDB m []) (stores_storage _ _ _ _ _ Hsto)
    F (subtreeCache (rolt w.2)) d i h (rolt_getSubtree t (rev + 1))) as (c' & E & Hc'); [by eapply stores_next|done..|].
  rewrite E. eexists. split; [reflexivity|]. split; try done. by intros [?|?].
Qed.

(** The nodes of a list, by their coordinates and hashes. *)
Definition nodeList (ns : list (nat * nat * bytes)) : list Node :=
  (λ n, mkNode (coordsID (Z.of_nat n.1.1) (Z.of_nat n.1.2)) (Some n.2)) <$> ns.

Lemma run_SetNodes F ns w :
  running sUpdateSequencedLeaves F w →
  Forall (λ n, logNode (Z.of_nat n.1.1, Z.of_nat n.1.2) ∧ n.2 ≠ []) ns →
  ∃ w', SetMerkleNodes Sum256 (nodeList ns) w = (Ok (), w') ∧ running sSetMerkleNodes (updNodes F ns) w'.
Proof.
  intros Hw Hns. destruct (run_emit _ sSetMerkleNodes F w Hw) as (w1 & He & Hw1 & _); [by left|].
  unfold SetMerkleNodes. erewrite mbind_step by exact He. clear He Hw w. cbv zeta.
  revert F w1 Hw1. induction Hns as [|[[d i] h] ns [Hx Hh] _ IH]; intros F w Hw; [by exists w|].
  unfold nodeList. rewrite fmap_cons. cbn [fst snd].
  destruct (run_SetNode F d i h w Hw Hx Hh) as (w1 & E & Hw1).
  destruct (IH _ w1 Hw1) as (w' & Hrun & Hw'). exists w'. split; [|done].
  erewrite mfold_step; [exact Hrun|]. erewrite mbind_step by reflexivity. exact E.
Qed.
(** *** Storing the root and committing *)

Lemma run_StoreRoot F r w :
  running sSetMerkleNodes F w → sl (RootHash r) = sl (Head Sum256 (front (rolt w.2))) →
  (∃ raw, marshal (front (rolt w.2)) = Ok raw) →
  ∃ w', StoreSignedLogRoot Sum256 r w = (Ok (), w') ∧ running sStoreSignedLogRoot F w'.
Proof.
  intros Hw Hr [raw Hm]. destruct (run_emit _ sStoreSignedLogRoot F w Hw) as (w1 & He & Hw1 & E1 & E2); [by left|].
  destruct Hw1 as [H1 H2 H3 H4 H5 H6 H7 H8 H9].
  unfold StoreSignedLogRoot. erewrite mbind_step by exact He. erewrite mbind_step by reflexivity.
  unfold bytes_Equal. rewrite E2, bool_decide_true by done. cbn [negb]. rewrite E2 in H3. rewrite H3.
  unfold onTx, zoom. pose proof H7 as (b & Hb & _). destruct (localTx w1.2) as [ob] eqn:El. cbn in Hb. subst ob.
  pose proof (StoreRoot_other isSubtreeKey [] t r (front (rolt w.2)) _ (λ _, eq_refl) H7) as Hrows.
  destruct (StoreRoot t r (front (rolt w.2)) (mkLocalTx (Some b))) as [o ltx'] eqn:Es.
  assert (o = Ok ()) as ->.
  { unfold StoreRoot in Es. rewrite Hm in Es. by injection Es as <- _. }
  pose proof (local_step_inv _ _ (step_StoreRoot t r (front (rolt w.2)) (mkDB m []) _ _ _ Ht Es)
    (conj (sto_db _ _ _ _ _ Hsto) H6)) as [_ Hwf].
  eexists. split; [reflexivity|]. cbn [fst snd] in *. split; cbn; try done.
  by rewrite E2.
Qed.

Context (Hmarshal : ∀ st : SubtreeProto, ∃ raw, marshal st = Ok raw).

Lemma run_Commit q F w :
  running q F w → sCommit ∈ fsmTransitions q →
  ∃ w' m' ts, Commit w = (Ok (), w') ∧ local w'.1 = mkDB m' [] ∧ wf_db m' ∧
    ts ≡ₚ toWrite (subtreeCache (rolt w.2)) (map_to_list (subtrees (subtreeCache (rolt w.2)))) ∧
    ∀ r px, m' !! rowKey t r px = apply_batch m (subtreePuts t (rev + 1) ts) !! rowKey t r px.
Proof.
  intros Hw Hq. destruct (run_emit _ sCommit F w Hw Hq) as (w1 & He & [H1 H2 H3 H4 H5 H6 H7 H8 H9] & _ & E2).
  unfold Commit. erewrite mbind_step by exact He. erewrite mbind_step by reflexivity. rewrite H8.
  destruct H7 as (b & Hb & Hrows). destruct (localTx w1.2) as [ob] eqn:El. cbn in Hb. subst ob.
  pose proof (cf_wf _ _ _ _ H5) as Hwf. rewrite E2 in *.
  set (c := subtreeCache (rolt w.2)) in *.
  destruct (Flush_spec c (mkLocalTx (Some b)) (storeSubtrees (rolt w.2)) Hwf) as (ts & c' & Hts & _ & _ & Hfl).
  assert (Forall (λ st, length (sl (Prefix st)) ≤ 7) ts) as Hlen.
  { rewrite Forall_forall. intros st Hst. rewrite Hts in Hst. apply elem_of_toWrite in Hst; [|done].
    destruct Hst as (px & v & _ & _ & _ & -> & Hl). exact Hl. }
  assert (Flush prepareLogSubtreeWrite (storeSubtrees (rolt w.2)) (c, mkLocalTx (Some b)) =
    (Ok (), (c', mkLocalTx (Some (b ++ subtreePuts t (rev + 1) ts))))) as Hfl'.
  { rewrite Hfl. destruct ts as [|st ts]; [by rewrite app_nil_r|].
    rewrite storeSubtrees_Ok by done. unfold writeRevision. rewrite H3, H4, wrap64_small by (unfold int64; lia). done. }
  erewrite mbind_step.
  2:{ unfold onCacheTx, zoom. rewrite E2, El. fold c. rewrite Hfl'. reflexivity. }
  erewrite mbind_step.
  2:{ unfold onDBTx, zoom. cbn [fst snd localTx]. rewrite H2. reflexivity. }
  cbn [fst snd]. eexists _, (apply_batch m (b ++ subtreePuts t (rev + 1) ts)), ts. split; [reflexivity|].
  split; [done|]. split; [|split; [done|]].
  - apply wf_db_apply_batch; [apply Hsto|]. apply wf_batch_app. split; [exact H6|].
    apply wf_subtreePuts; [done|lia|done].
  - intros r px. rewrite (apply_batch_rowOps isSubtreeKey) by apply rowKey_selected.
    rewrite rowOps_app, Hrows. cbn [app]. by rewrite <-(apply_batch_rowOps isSubtreeKey) by apply rowKey_selected.
Qed.
End run.

(** ** From the node map to the cache *)

Section nodes.
Context (Sum256 : bytes → bytes) `{!MapRange bytes, !MapRangeLaws bytes}.
Context (Hsum : ∀ b, Sum256 b ≠ []).
#[local] Instance present_dec3 n d i : Decision (present n d i).
Proof. unfold present. apply _. Defined.

Lemma treeNode_ne L d i h : Forall (.≠ []) L → treeNode Sum256 L d i = Some h → h ≠ [].
Proof.
  unfold treeNode. intros HL. case_decide; [|done]. intros [= <-]. apply (MTH_prop Sum256 (.≠ [])); [done|].
  by apply Forall_take, Forall_drop.
Qed.

Lemma nodeList_of l :
  Forall (λ x : bytes * Node, ∃ (d i : nat) h, logNode (Z.of_nat d, Z.of_nat i) ∧
    x.1 = nodeKey (Z.of_nat d) (Z.of_nat i) ∧ x.2 = mkNode (coordsID (Z.of_nat d) (Z.of_nat i)) (Some h)) l →
  ∃ ns, l.*2 = nodeList ns ∧ l.*1 = (λ n, nodeKey (Z.of_nat n.1.1) (Z.of_nat n.1.2)) <$> ns ∧
    Forall (λ n : nat * nat * bytes, logNode (Z.of_nat n.1.1, Z.of_nat n.1.2)) ns.
Proof.
  induction 1 as [|[key n] l (d & i & h & Hx & Ek & En) _ (ns & E1 & E2 & E3)]; [by exists []|].
  cbn [fst snd] in *. subst. exists ((d, i, h) :: ns). unfold nodeList in *. rewrite !fmap_cons, E1, E2.
  split; [done|]. split; [done|]. by constructor.
Qed.

(** The nodes of a map, written one by one: those of the map, and [F] elsewhere. *)
Lemma written_nodes F L m :
  collected m → Forall (.≠ []) L →
  (∀ d i, logNode (Z.of_nat d, Z.of_nat i) → nodesWith F m d i = treeNode Sum256 L d i) →
  ∃ ns, buildNodesFromNodeMap m = nodeList ns ∧
    Forall (λ n, logNode (Z.of_nat n.1.1, Z.of_nat n.1.2) ∧ n.2 ≠ []) ns ∧
    ∀ d i, logNode (Z.of_nat d, Z.of_nat i) → updNodes F ns d i = treeNode Sum256 L d i.
Proof.
  intros Hm HL HF. destruct (nodeList_of (map_range m)) as (ns & E1 & E2 & Hx).
  { rewrite Forall_forall. intros [key n] Hin. rewrite map_range_perm in Hin. apply elem_of_map_to_list in Hin.
    destruct (Hm _ _ Hin) as (d & i & h & H). by exists d, i, h. }
  assert (∀ key n, (key, n) ∈ map_range m ↔ m !! key = Some n) as Hmem
    by (intros; rewrite map_range_perm; apply elem_of_map_to_list).
  assert (∀ d i h, (d, i, h) ∈ ns → logNode (Z.of_nat d, Z.of_nat i) ∧ treeNode Sum256 L d i = Some h) as Hns.
  { intros d i h Hin. rewrite Forall_forall in Hx. pose proof (Hx _ Hin) as Hd. cbn in Hd. split; [done|].
    apply list_elem_of_lookup_1 in Hin as [k Hk].
    pose proof (f_equal (.!! k) E1) as L1. pose proof (f_equal (.!! k) E2) as L2. unfold nodeList in L1.
    cbv beta in L1, L2. rewrite !list_lookup_fmap, Hk in L1. rewrite !list_lookup_fmap, Hk in L2. destruct (map_range m !! k) as [[key n]|] eqn:Ek; [|done].
    cbn in L1, L2. injection L1 as ->. injection L2 as ->. apply list_elem_of_lookup_2, Hmem in Ek.
    rewrite <-HF by done. unfold nodesWith. by rewrite Ek. }
  exists ns. split; [done|]. split.
  - rewrite Forall_forall. intros [[d i] h] Hin. destruct (Hns _ _ _ Hin) as [? Hh]. split; [done|].
    by eapply treeNode_ne.
  - intros d i Hd. rewrite (lookup_updNodes F (treeNode Sum256 L)) by (intros; by apply Hns).
    case_decide as Hin; [done|]. rewrite <-HF by done. unfold nodesWith.
    destruct (m !! nodeKey (Z.of_nat d) (Z.of_nat i)) as [n|] eqn:Em; [|done]. destruct Hin.
    apply Hmem in Em. assert (nodeKey (Z.of_nat d) (Z.of_nat i) ∈ (map_range m).*1) as Hk
      by (apply list_elem_of_fmap; by eexists (_, _)).
    rewrite E2 in Hk. apply list_elem_of_fmap in Hk as ([[d' i'] h'] & Ek & Hin). cbn in Ek.
    rewrite Forall_forall in Hx. apply nodeKey_inj in Ek as [E3 E4]; [|apply Hd|apply (Hx _ Hin)].
    apply list_elem_of_fmap. exists (d', i', h'). split; [|done]. cbn. f_equal; lia.
Qed.
End nodes.

(** ** A batch without faults *)

Section growth.
Context (Sum256 : bytes → bytes).
Context `{!Codec LogLeaf, !Codec SubtreeProto, !Codec Frontier, !Codec (list LogLeaf)}.
Context `{!CodecLaws SubtreeProto, !CodecLaws Frontier, !JSONLaws}.
Context `{!MapRange bytes, !MapRangeLaws bytes, !MapRange Z, !MapRangeLaws Z}.
Context (Hsubtree : ∀ st : SubtreeProto, ∃ raw, marshal st = Ok raw).
Context (Hfix : ∀ st : SubtreeProto,
  is_Some (Prefix st) → SubtreeRootHash st = None → fixPrefix (canon st) = st).
Context (Hfrontier : ∀ f : Frontier, ∃ raw, marshal f = Ok raw).
Context (Hcanon : ∀ f, solid f → canon f = f).
Context (Hsum : ∀ b, Sum256 b ≠ []) (Hshort : ∀ b, length (Sum256 b) ≤ 128).
Context (tree : Config.Tree) (sign : bytes → outcome bytes).
Context (Hlog : tree_TreeType tree = LOG) (Hsign : ∀ b, ∃ sg, sign b = Ok sg).
Abbreviation t := (TreeId tree).
Context (Ht : int64 t).
Abbreviation nodesOfTree L := (treeNode Sum256 L).
Abbreviation short := (Forall (λ h : bytes, length h ≤ 128)).

Lemma running_ext rev m q F G w :
  (∀ d i, logNode (Z.of_nat d, Z.of_nat i) → F d i = G d i) →
  running Sum256 t rev m q F w → running Sum256 t rev m q G w.
Proof.
  intros HF [H1 H2 H3 H4 [C1 C2 C3] H6 H7 H8 H9]. split; try done. split; try done.
  intros px Hl. apply (subtree_for_ext F); [|by apply C2]. intros e j Hin.
  destruct (place_coords px e j Hl Hin) as (Hx & _). by apply HF.
Qed.

Lemma SignLogRoot_Ok r : length (LogRootV1.RootHash r) ≤ 128 → LogRootV1.Metadata r = [] →
  ∃ slr, SignLogRoot sign t r = Ok slr ∧ RootHash slr = Some (LogRootV1.RootHash r).
Proof.
  intros Hl Hm. unfold SignLogRoot, LogRootV1.MarshalBinary, LogRootV1.write_vec. rewrite Hm.
  destruct (Z.ltb_spec 128 (Z.of_nat (length (LogRootV1.RootHash r)))); [lia|]. unfold_O. cbn [length].
  change (65535 <? Z.of_nat 0)%Z with false. cbv iota.
  match goal with |- context [sign ?b] => destruct (Hsign b) as [sg ->] end. by eexists.
Qed.

Section one.
Context (clk : Clock).

Section batch.
Context (m : kvmap) (rem : Remote) (L : list bytes) (log : list LogLeaf) (r : LogRootV1.t).
Abbreviation rev := (LogRootV1.Revision r).
Context (Hsto : stores Sum256 L m t rev) (Hrev : (0 ≤ rev)%Z) (Hrev' : (rev + 1 < 2 ^ 63)%Z).
Context (Hnet : netFaults rem = []) (Hrem : wf_remote t rem) (Hcov : covers rem t log).
Context (Hlen : length log = length L).
Context (Htime : (LogRootV1.TimestampNanos r < wrapU64 (rootTime clk))%Z).

Lemma storeBatch_runs D hs leaves mt nm w :
  seq_state t (appendAll Sum256 zeroFrontier L) [] D [] m rem w →
  running Sum256 t rev m sDequeueLeaves (nodesOfTree L) w →
  MerkleLeafHash <$> leaves = Some <$> hs → contig (Z.of_nat (length L)) leaves →
  (Z.of_nat (length L) + Z.of_nat (length leaves) < 2 ^ 55)%Z →
  Forall (.≠ []) (L ++ hs) → short (L ++ hs) → tree_of Sum256 (L ++ hs) mt → collected nm →
  (∀ d i, logNode (Z.of_nat d, Z.of_nat i) → nodesWith (nodesOfTree L) nm d i = nodesOfTree (L ++ hs) d i) →
  ∃ w', storeBatch Sum256 clk tree sign r (rev + 1) mt nm leaves w = (Ok (), w') ∧
    running Sum256 t rev m sStoreSignedLogRoot (nodesOfTree (L ++ hs)) w'.
Proof.
  intros Hseq Hw Hhs Hcon Hbound Hne Hsh Hmt Hnm HF. unfold storeBatch, update. rewrite Hlog.
  destruct (PutLeaves_log t log leaves rem) as (o & rem' & Hput & _ & _ & _ & _ & Ho);
    [done|by rewrite Hnet|done|done|by rewrite Hlen|lia|]. destruct (Ho Hnet) as [-> _].
  destruct (run_Update Sum256 t rev m L Hsto Ht Hrev Hrev' (nodesOfTree L) leaves rem' w Hw) as (w1 & E1 & Hw1).
  { by rewrite (ss_remote _ _ _ _ _ _ _ _ Hseq). }
  { rewrite Forall_forall. intros l (k & Hk)%list_elem_of_lookup_1. unfold seq_fits. rewrite (Hcon _ _ Hk).
    apply lookup_lt_Some in Hk. lia. }
  erewrite mbind_step by exact E1. apply (seq_Update Sum256 _ _ _ Hseq) in E1 as (rem1 & _ & Hseq1).
  destruct (written_nodes Sum256 Hsum (nodesOfTree L) (L ++ hs) nm Hnm Hne HF) as (ns & En & Hns & HFn).
  rewrite En.
  destruct (run_SetNodes Sum256 t rev m L Hsto Ht Hrev Hrev' (nodesOfTree L) ns w1 Hw1 Hns) as (w2 & E2 & Hw2).
  erewrite mbind_step by exact E2. apply (seq_SetNodes Sum256 _ _ _ Hseq1) in E2 as Hseq2.
  apply (running_ext _ _ _ _ _ _ HFn) in Hw2.
  set (root := LogRootV1.mk _ _ _ _ _). cbv zeta. cbn [LogRootV1.TimestampNanos root].
  destruct (Z.leb_spec (wrapU64 (rootTime clk)) (LogRootV1.TimestampNanos r)); [lia|].
  destruct Hmt as (_ & _ & Hroot).
  destruct (SignLogRoot_Ok root) as (slr & Es & Er); [|done|].
  { cbn. unfold CurrentRoot. rewrite Hroot. cbn. by apply (MTH_prop Sum256 (λ h, length h ≤ 128)). }
  rewrite Es. erewrite mbind_step by reflexivity.
  assert (front (rolt w2.2) = appendAll Sum256 zeroFrontier (L ++ hs)) as Hfront.
  { rewrite (ss_front _ _ _ _ _ _ _ _ Hseq2), (appendLeaves_appendAll _ _ _ _ Hhs). unfold appendAll. by rewrite fold_left_app. }
  apply (run_StoreRoot Sum256 t rev m L Hsto Ht Hrev Hrev' (nodesOfTree (L ++ hs)) slr w2 Hw2); [|by rewrite Hfront].
  rewrite Er, Hfront. cbn. unfold CurrentRoot. rewrite Hroot.
  by rewrite (commits_Head Sum256 _ (L ++ hs)) by apply (appendAll_commits Sum256 _ []), commits_zero.
Qed.
(** The leaves a batch may find: they have hashes and timestamps. *)
Definition queueable (leaf : LogLeaf) : Prop :=
  (∃ h, MerkleLeafHash leaf = Some h ∧ h ≠ [] ∧ length h ≤ 128) ∧
  checkQueueTimestamp (QueueTimestamp leaf) = Ok ().

Lemma integrate_runs limit cutoff guard maxDuration w :
  cutoff = wrap64 (startTime clk - guard) →
  seq_state t (appendAll Sum256 zeroFrontier L) [] [] [] m rem w →
  running Sum256 t rev m sBegin (nodesOfTree L) w →
  LogRootV1.UnmarshalBinary (sl (LogRoot (root (rolt w.2)))) = Ok r →
  LogRootV1.TreeSize r = Z.of_nat (length L) → LogRootV1.RootHash r = MTH Sum256 L →
  Forall (.≠ []) L → short L →
  (∀ k v, (k, v) ∈ queued m t cutoff → ∃ leaf, unmarshal v = Ok leaf ∧ queueable leaf) →
  (∀ k, validateTimestamp (timestampOf (leafTime clk k)) = Ok ()) →
  (Z.of_nat (length L) + Z.of_nat (length (dequeues t m limit cutoff)) < 2 ^ 55)%Z →
  ∃ w' leaves, integrate Sum256 clk tree sign limit guard maxDuration w = (Ok (), w') ∧
    Forall2 (λ e l, unmarshal e.2 = Ok l) (dequeues t m limit cutoff) leaves ∧
    short (L ++ hashesOf leaves) ∧
    (leaves = [] ∧ idle clk r maxDuration = true ∧ running Sum256 t rev m sDequeueLeaves (nodesOfTree L) w' ∨
     (leaves = [] → idle clk r maxDuration = false) ∧
     running Sum256 t rev m sStoreSignedLogRoot (nodesOfTree (L ++ hashesOf leaves)) w').
Proof.
  intros -> Hseq Hw Hu Hs Hh Hne Hsh Hq Hclk Hbound. unfold integrate.
  rewrite (mbind_step _ _ _ _ _ (onRead_root w)). rewrite Hu. erewrite mbind_step by reflexivity.
  unfold fetch. rewrite Hlog, Hs, (wrap64_small (Z.of_nat (length L))) by (unfold int64; lia).
  set (cutoff := wrap64 (startTime clk - guard)) in *.
  destruct (run_Dequeue Sum256 t rev m L Hsto Ht Hrev Hrev' (nodesOfTree L) limit cutoff w Hw) as (leaves & w1 & E1 & Hw1).
  { intros k v (leaf & ? & _)%Hq. by exists leaf. }
  erewrite mbind_step by (erewrite mbind_step by exact E1; reflexivity).
  apply (seq_Dequeue _ _ _ _ _ Hseq) in E1 as [HF Hseq1]. cbn [app] in Hseq1.
  assert (Forall queueable leaves) as Hleaves.
  { apply Forall_forall. intros leaf (i & Hi)%list_elem_of_lookup_1.
    destruct (Forall2_lookup_r _ _ _ _ _ HF Hi) as ([k v] & He & Hv).
    destruct (Hq k v) as (leaf' & Hv' & Hl'); [by eapply subseteq_take, list_elem_of_lookup_2|].
    cbn in Hv. congruence. }
  assert (Forall hashed leaves) as Hhashed.
  { eapply Forall_impl; [exact Hleaves|]. intros l ((h & ? & ? & _) & _). by exists h. }
  assert (short (L ++ hashesOf leaves)) as Hsh'.
  { apply Forall_app. split; [done|]. apply Forall_fmap. eapply Forall_impl; [exact Hleaves|].
    intros l ((h & Eh & _ & Hl) & _). cbn. by rewrite Eh. }
  pose proof (Forall2_length _ _ _ HF) as Hes. unfold numberLeaves at 1. rewrite length_imap.
  destruct ((length leaves =? 0)%nat && idle clk r maxDuration) eqn:Ei.
  { exists w1, leaves. split; [done|]. split; [done|]. split; [done|]. left.
    by apply andb_true_iff in Ei as [->%Nat.eqb_eq%nil_length_inv Ei]. }
  destruct (run_init Sum256 t rev m L Hsto Hrev Hrev' _ r w1 Hw1) as (mt & w2 & E2 & Hmt & Hw2); [lia|done..|].
  erewrite mbind_step by exact E2.
  pose proof (seq_initMerkleTree Sum256 _ _ _ _ _ _ _ r _ Hseq1) as Hseq2. rewrite E2 in Hseq2. cbn [snd] in Hseq2.
  erewrite mbind_step by reflexivity. unfold writeRevision. rewrite (run_rev _ _ _ _ _ _ _ Hw2), Z.eqb_refl. cbn [negb].
  rewrite (wrap64_small (rev + 1)) by (unfold int64; lia).
  set (nls := numberLeaves (Z.of_nat (length L)) leaves).
  destruct (stamped_hashes (λ _, 0%Z) (Z.of_nat (length L)) leaves Hhashed) as [_ Hnehs].
  assert (MerkleLeafHash <$> nls = Some <$> hashesOf leaves) as Hhs.
  { apply list_eq. intros k. unfold nls, numberLeaves, hashesOf. rewrite !list_lookup_fmap, list_lookup_imap.
    destruct (leaves !! k) as [l|] eqn:El; [|done]. cbn. by destruct (Forall_lookup_1 _ _ _ _ Hhashed El) as (h & -> & _). }
  assert (length nls = length leaves) as Hnls by apply length_imap.
  destruct (updateCompactTree_run Sum256 (leafTime clk) (nodesOfTree L) nls 0 (hashesOf leaves) L mt ∅)
    as (ls' & mt' & nm' & E3 & Hmt' & Hnm' & HF'); try done.
  { intros k l Hl. unfold nls, numberLeaves in Hl. rewrite list_lookup_imap in Hl.
    destruct (leaves !! k) as [leaf|] eqn:El; [|done]. injection Hl as <-. cbn. apply lookup_lt_Some in El.
    apply wrap64_small. unfold int64. lia. }
  { rewrite Hnls. lia. }
  { apply Forall_forall. intros l (k & Hk)%list_elem_of_lookup_1. unfold nls, numberLeaves in Hk.
    rewrite list_lookup_imap in Hk. destruct (leaves !! k) as [leaf|] eqn:El; [|done]. injection Hk as <-.
    apply (Forall_lookup_1 _ _ _ _ Hleaves El). }
  rewrite E3. erewrite mbind_step by reflexivity. cbv beta iota.
  apply updateCompactTree_Ok in E3 as [-> _]; [|by rewrite (proj1 (proj2 Hmt)); lia..].
  destruct (stamped_hashes (leafTime clk) (Z.of_nat (length L)) leaves Hhashed) as [Hst _].
  destruct (storeBatch_runs (BDelete <$> (dequeues t m limit cutoff).*1) (hashesOf leaves)
    (stampLeaves (leafTime clk) nls) mt' nm' w2) as (w3 & E4 & Hw3); try done.
  { apply stamped_contig; lia. }
  { unfold nls. rewrite length_stamped. lia. }
  { by apply Forall_app. }
  exists w3, leaves. split; [exact E4|]. split; [done|]. split; [done|]. right. split; [|done].
  intros ->. exact Ei.
Qed.
End batch.

(** *** The indexes *)

(** The last leaf with a hash, and the row that the index has for it. *)
Definition lastWith (sel : LogLeaf → slice) (h : bytes) (log : list LogLeaf) : option LogLeaf :=
  last (filter (λ l, sl (sel l) = h) log).
Definition indexRow (l : LogLeaf) : bytes := match encodeSeq (LeafIndex l) with Ok raw => raw | _ => [] end.

(** The indexes lead from a hash to the number of the last leaf with it. *)
Definition indexed (log : list LogLeaf) (m : kvmap) : Prop := ∀ h,
  m !! keyB typ_m t h = indexRow <$> lastWith MerkleLeafHash h log ∧
  m !! keyB typ_i t h = indexRow <$> lastWith LeafIdentityHash h log.

Lemma last_filter_fmap {A B} (f : A → B) (P : B → Prop) `{!∀ x, Decision (P x)} l :
  last (filter P (f <$> l)) = f <$> last (filter (λ x, P (f x)) l).
Proof.
  induction l as [|x l IH] using rev_ind; [done|]. rewrite fmap_app, !filter_app, !last_app, IH.
  cbn [fmap list_fmap]. rewrite !filter_cons, !filter_nil. by case_decide.
Qed.

(** What a batch makes of the indexes. *)
Lemma indexed_batch log leaves m m' :
  indexed log m → (∀ k, isIndexKey k = true → m' !! k = apply_batch m (indexOps t (indexRows leaves)) !! k) →
  indexed (log ++ leaves) m'.
Proof.
  intros Hm Hm' h. destruct (Hm h) as [H1 H2].
  rewrite !Hm', (index_lookup t typ_m (λ r, r.1.2)), (index_lookup t typ_i snd), H1, H2 by tauto.
  unfold indexRows, lastWith. rewrite !last_filter_fmap, !filter_app, !last_app. cbn [fst snd].
  split; by destruct (last (filter _ leaves)).
Qed.

(** *** The state between batches *)

(** The log [log] of the tree, with the hashes [L], is at [r]: its head, its nodes,
    its indexes and its leaves are stored, and no fault is to come. *)
Record ready (L : list bytes) (log : list LogLeaf) (r : LogRootV1.t) (s : System) : Prop := {
  rdy_faults : faults (local s) = [];
  rdy_head : head_of Sum256 t L r (kv (local s));
  rdy_tree : stores Sum256 L (kv (local s)) t (LogRootV1.Revision r);
  rdy_net : netFaults (remote s) = [];
  rdy_remote : wf_remote t (remote s);
  rdy_log : covers (remote s) t log;
  rdy_hashes : hashesOf log = L;
  rdy_numbers : contig 0 log;
  rdy_index : indexed log (kv (local s));
  rdy_short : short L
}.

Lemma ready_length L log r s : ready L log r s → length log = length L.
Proof. intros Hs. rewrite <-(rdy_hashes _ _ _ _ Hs). unfold hashesOf. by rewrite length_fmap. Qed.

(** What is ready stays ready when other trees change. *)
Lemma ready_untouched L log r s s' :
  untouched t s s' → wf_db (kv (local s')) → faults (local s') = [] → netFaults (remote s') = [] →
  (0 ≤ LogRootV1.Revision r < 2 ^ 63)%Z → ready L log r s → ready L log r s'.
Proof.
  intros [Hrows Hobj] Hwf Hf Hn Hr [H1 H2 H3 H4 H5 H6 H7 H8 H9 H10]. split; try done.
  - destruct H2 as (Hl & Hs & raw & Hrow & Hu). split; [|split; [done|exists raw; split; [|done]]].
    + by apply (log_state_rows Sum256 t L (kv (local s))); [intros name; apply (Hrows typ_r (str name))|].
    + pose proof (Hrows typ_r (str "root") eq_refl) as E. unfold keyB in E. unfold keyS. by rewrite E.
  - apply (stores_same Sum256 L (kv (local s))); [done..| |done]. intros k px. by apply (Hrows typ_s).
  - intros b raw Hb. rewrite Hobj. by apply H5.
  - intros i l Hi. rewrite <-(H6 i l Hi). unfold storedLeaf. by rewrite (stored_objects (remote s) (remote s')).
  - intros h. rewrite !Hrows by done. apply H9.
Qed.

Lemma untouched_queue s s' cutoff :
  untouched t s s' → queued (kv (local s')) t cutoff = queued (kv (local s)) t cutoff.
Proof.
  intros [Hrows _]. unfold queued. rewrite (range_delete (kv (local s)) _ _ _ 0); [done|].
  intros k H1 H2. rewrite decide_False by apply not_elem_of_nil. unfold queueStart, queueLimit, keyB in *.
  apply blt_ble in H2. destruct (between_prefix _ _ _ _ H1 H2) as [u ->]. by apply (Hrows typ_l).
Qed.

Lemma head_of_root L r m :
  head_of Sum256 t L r m → has_root Sum256 t L m ∧ LogRootV1.RootHash r = MTH Sum256 L.
Proof.
  intros ([_ Hl] & _ & raw & Hrow & Hu). destruct Hl as [[_ ?]|Hroot]; [congruence|]. split; [done|].
  destruct Hroot as (raw' & sg & fr & l & H1 & _ & _ & H4 & H5 & _). congruence.
Qed.

Lemma begin_runs L log r s :
  ready L log r s → (0 ≤ LogRootV1.Revision r)%Z → (LogRootV1.Revision r + 1 < 2 ^ 63)%Z →
  ∃ ltx, beginForTree t s = (Ok ltx, s) ∧
    running Sum256 t (LogRootV1.Revision r) (kv (local s)) sBegin (nodesOfTree L) (s, ltx).
Proof.
  intros Hs Hr Hr'. pose proof (proj1 (head_of_root _ _ _ (rdy_head _ _ _ _ Hs))) as Hroot.
  destruct s as [[m fs] rem lc]. pose proof (rdy_faults _ _ _ _ Hs) as Hf. cbn in Hf. subst fs. cbn [local kv] in *.
  destruct (MostRecentRoot_has_root Sum256 t L m Hroot) as (sth & f & Hm & _).
  assert (beginForTree t (mkSystem (mkDB m []) rem lc) =
    (Ok (mkLTX (mkROLT (mkSubtreeCache logStrataInfo ∅ ∅) t sth f false) (mkFsm sBegin) Begin false),
     mkSystem (mkDB m []) rem lc)) as Hb.
  { unfold beginForTree. rewrite NewLogSubtreeCache_Ok. erewrite mbind_step by reflexivity.
    unfold mbind, M_bind, try, sysLocal, zoom. cbn [fst snd local]. by rewrite Hm. }
  eexists. split; [exact Hb|]. pose proof (beginForTree_head Sum256 t L r _ _ _ (rdy_head _ _ _ _ Hs) Hb) as [_ Hrev].
  cbn [rolt root] in Hrev. rewrite wrap64_small in Hrev by (unfold int64; lia).
  split; try done.
  - apply new_cache_for. intros px Hl. eapply stored_at_view, (sto_at _ _ _ _ _ (rdy_tree _ _ _ _ Hs) px Hl).
  - apply wf_batch_nil.
  - by exists [].
Qed.

Lemma transaction_runs f s ltx w w' :
  beginForTree t s = (Ok ltx, s) → f (s, ltx) = (Ok (), w) → Commit w = (Ok (), w') →
  ReadWriteTransaction t f s = (Ok (), w'.1).
Proof.
  intros Hb Hf Hc. unfold ReadWriteTransaction. erewrite mbind_step by exact Hb.
  unfold withTx, runTx. unfold mbind at 1, M_bind at 1, try at 1. rewrite Hf, Hc. by destruct w'.
Qed.

(** A run and its commit: the leaves it took, and what it stored. *)
Lemma batch_runs limit guard maxDuration L log r s :
  let m := kv (local s) in let es := dequeues t m limit (wrap64 (startTime clk - guard)) in
  ready L log r s → (0 ≤ LogRootV1.Revision r)%Z → (LogRootV1.Revision r + 1 < 2 ^ 63)%Z →
  (∀ k v, (k, v) ∈ queued m t (wrap64 (startTime clk - guard)) →
     ∃ leaf, unmarshal v = Ok leaf ∧ queueable leaf) →
  (∀ k, validateTimestamp (timestampOf (leafTime clk k)) = Ok ()) →
  (LogRootV1.TimestampNanos r < wrapU64 (rootTime clk))%Z →
  (Z.of_nat (length L) + Z.of_nat (length es) < 2 ^ 55)%Z →
  ∃ s' leaves, IntegrateBatch Sum256 clk tree sign limit guard maxDuration s = (Ok (), s') ∧
    Forall2 (λ e l, unmarshal e.2 = Ok l) es leaves ∧ short (L ++ hashesOf leaves) ∧
    faults (local s') = [] ∧
    (leaves = [] ∧ idle clk r maxDuration = true ∧
       stores Sum256 L (kv (local s')) t (LogRootV1.Revision r) ∨
     (leaves = [] → idle clk r maxDuration = false) ∧
       stores Sum256 (L ++ hashesOf leaves) (kv (local s')) t (LogRootV1.Revision r + 1)).
Proof.
  intros m es Hs Hr Hr' Hq Hclk Htime Hbound. pose proof (rdy_head _ _ _ _ Hs) as Hhead.
  destruct (head_of_root _ _ _ Hhead) as [_ Hhash]. pose proof Hhead as ([Hne _] & Hsize & _).
  pose proof (rdy_tree _ _ _ _ Hs : stores Sum256 L m t _) as Hsto.
  destruct (begin_runs L log r s Hs Hr Hr') as (ltx & Hb & Hw). fold m in Hw.
  pose proof (beginForTree_seq Sum256 t L s ltx s (proj1 Hhead) Hb) as Hseq. fold m in Hseq.
  pose proof (beginForTree_head Sum256 t L r s ltx s Hhead Hb) as [Hu _].
  destruct (integrate_runs m (remote s) L log r Hsto Hr Hr' (rdy_net _ _ _ _ Hs) (rdy_remote _ _ _ _ Hs)
    (rdy_log _ _ _ _ Hs) (ready_length _ _ _ _ Hs) Htime limit _ guard maxDuration (s, ltx) eq_refl Hseq Hw Hu
    Hsize Hhash Hne (rdy_short _ _ _ _ Hs) Hq Hclk Hbound) as (w & leaves & Hf & HF & Hsh & Hcase).
  assert (∃ q F, running Sum256 t (LogRootV1.Revision r) m q F w ∧ sCommit ∈ fsmTransitions q) as (q & F & Hq1 & Hq2).
  { destruct Hcase as [(_ & _ & Hw')|[_ Hw']]; eexists _, _; (split; [exact Hw'|]); set_solver. }
  destruct (run_Commit Sum256 t _ m L Hsto Ht Hr Hr' Hsubtree q F w Hq1 Hq2) as (w' & m' & ts & Hc & Hdb & Hwf & Hts & Hrows).
  exists w'.1, leaves. split; [by eapply transaction_runs|]. rewrite Hdb. cbn [kv faults].
  split; [done|]. split; [done|]. split; [done|]. destruct Hcase as [(-> & Hidle & Hw')|[Hbusy Hw']].
  - left. split; [done|]. split; [done|]. apply (stores_same Sum256 L m); [done|done|lia| |done].
    rewrite toWrite_clean in Hts by (apply (run_dirty _ _ _ _ _ _ _ Hw'); by right).
    apply Permutation_nil_r in Hts as ->. exact Hrows.
  - right. split; [done|].
    eapply (stores_commit Sum256 Hsubtree Hfix L (hashesOf leaves) m m' t _ (subtreeCache (rolt w.2)) ts); try done; apply Hw'.
Qed.

Lemma Forall2_unmarshal (es : list (bytes * bytes)) (ls ls' : list LogLeaf) :
  Forall2 (λ e l, unmarshal e.2 = Ok l) es ls → Forall2 (λ e l, unmarshal e.2 = Ok l) es ls' → ls = ls'.
Proof.
  intros Hls. revert ls'. induction Hls as [|e l es ls Hl _ IH]; intros ls' H'.
  - by apply Forall2_nil_inv_l in H'.
  - apply Forall2_cons_inv_l in H' as (l' & ls'' & Hl' & H' & ->). f_equal; [congruence|by apply IH].
Qed.

Lemma batch_grows limit guard maxDuration L log r s :
  ready L log r s → (0 ≤ LogRootV1.Revision r)%Z → (LogRootV1.Revision r + 1 < 2 ^ 63)%Z →
  (∀ k v, (k, v) ∈ queued (kv (local s)) t (wrap64 (startTime clk - guard)) →
     ∃ leaf, unmarshal v = Ok leaf ∧ queueable leaf) →
  (∀ k, validateTimestamp (timestampOf (leafTime clk k)) = Ok ()) →
  (LogRootV1.TimestampNanos r < wrapU64 (rootTime clk))%Z →
  (Z.of_nat (length L) +
     Z.of_nat (length (dequeues t (kv (local s)) limit (wrap64 (startTime clk - guard)))) < 2 ^ 55)%Z →
  ∃ s' leaves r', IntegrateBatch Sum256 clk tree sign limit guard maxDuration s = (Ok (), s') ∧
    published Sum256 clk tree limit guard maxDuration L r log leaves s s' ∧
    ready (L ++ hashesOf leaves)
      (log ++ integrated clk (length L) leaves) r' s' ∧
    (r' = r ∨ LogRootV1.Revision r' = (LogRootV1.Revision r + 1)%Z ∧
       LogRootV1.TimestampNanos r' = wrapU64 (rootTime clk)).
Proof.
  intros Hs Hr Hr' Hq Hclk Htime Hbound. pose proof (rdy_head _ _ _ _ Hs) as Hhead.
  destruct (batch_runs limit guard maxDuration L log r s Hs Hr Hr' Hq Hclk Htime Hbound)
    as (s' & leaves & Hrun & HF & Hsh & Hfl & Hcase).
  destruct (batch_publishes Sum256 clk tree sign Hlog Hcanon Hsum limit guard maxDuration L r log s s')
    as (Hwr & Hnf & leaves' & Hpub); try done; try apply Hs; try by apply (ready_length _ _ _ _ Hs).
  { intros k v leaf Hin Hv. destruct (Hq k v) as (leaf' & Hv' & (h & ? & ? & _) & _); [by eapply subseteq_take|].
    exists h. split; [|done]. congruence. }
  { lia. }
  { by rewrite (rdy_net _ _ _ _ Hs). }
  pose proof (Forall2_unmarshal _ _ _ HF (proj1 Hpub)) as <-.
  exists s', leaves. specialize (Hnf (rdy_net _ _ _ _ Hs)). pose proof Hpub as (_ & _ & Hidx & _ & _ & Hout).
  apply (indexed_batch log) in Hidx; [|apply Hs].
  assert (contig 0 (log ++ integrated clk (length L) leaves)) as Hnum.
  { apply contig_app; [apply Hs|]. rewrite (ready_length _ _ _ _ Hs). apply stamped_contig; [lia|].
    rewrite <-(Forall2_length _ _ _ HF). lia. }
  assert (hashesOf (log ++ integrated clk (length L) leaves) =
    L ++ hashesOf leaves) as Hlen.
  { unfold hashesOf at 1. rewrite fmap_app. f_equal; [by apply (rdy_hashes _ _ _ _ Hs)|apply hashesOf_stamped]. }
  destruct Hout as [(-> & Hidle & Hhead' & Hrem)|(Hbusy & r' & Hhead' & _ & Hts & Hrev & Hcov)].
  - exists r. split; [exact Hrun|]. split; [exact Hpub|]. destruct Hcase as [(_ & _ & Hsto)|[Hn _]]; [|by rewrite Hn in Hidle].
    change (integrated clk _ []) with (@nil LogLeaf) in *. change (hashesOf []) with (@nil bytes) in *.
    rewrite !app_nil_r in *. split; [|by left]. split; try done. rewrite Hrem. apply Hs.
  - exists r'. split; [exact Hrun|]. split; [exact Hpub|]. destruct Hcase as [(-> & Hidle & _)|[_ Hsto]]; [by rewrite Hbusy in Hidle|].
    assert (LogRootV1.Revision r' = (LogRootV1.Revision r + 1)%Z) as Hrev1
      by (rewrite Hrev; unfold wrapU64; by rewrite Z.mod_small by lia).
    split; [|by right]. split; try done. by rewrite Hrev1.
Qed.

(** Other trees are left alone. *)
Lemma published_untouched limit guard maxDuration L r log leaves s s' t' :
  int64 t' → t' ≠ t →
  published Sum256 clk tree limit guard maxDuration L r log leaves s s' → untouched t' s s'.
Proof.
  intros Ht' Hne (_ & _ & _ & Hk & Ho & _). split.
  - intros typ u Hb. apply Hk, isForeignKey_other; [done|done|congruence|done].
  - intros b. by apply Ho.
Qed.

(** The queue loses its first entries. *)
Lemma published_queue limit guard maxDuration L r log leaves s s' :
  published Sum256 clk tree limit guard maxDuration L r log leaves s s' →
  let cutoff := wrap64 (startTime clk - guard) in
  queued (kv (local s')) t cutoff = drop (Z.to_nat limit) (queued (kv (local s)) t cutoff).
Proof.
  intros (_ & Hq & _) cutoff. apply range_delete. intros k H1 H2. rewrite Hq; [done|].
  destruct (queue_range_key {[k := []]} t cutoff k []) as [Hk _]; [|done].
  apply elem_of_range. by rewrite lookup_singleton_eq.
Qed.

(** C3. A batch that meets no faults: it succeeds, publishes the oldest queued
    leaves, and leaves the log ready for the next batch; that is, with its head
    and leaves, all nodes of the Merkle tree of the longer log are stored at the
    revision of the new root, and can be read back. *)
Theorem IntegrateBatch_grows limit guard maxDuration L log r s :
  ready L log r s → (0 ≤ LogRootV1.Revision r)%Z → (LogRootV1.Revision r + 1 < 2 ^ 63)%Z →
  (∀ k v, (k, v) ∈ queued (kv (local s)) t (wrap64 (startTime clk - guard)) →
     ∃ leaf, unmarshal v = Ok leaf ∧ queueable leaf) →
  (∀ k, validateTimestamp (timestampOf (leafTime clk k)) = Ok ()) →
  (LogRootV1.TimestampNanos r < wrapU64 (rootTime clk))%Z →
  (Z.of_nat (length L) +
     Z.of_nat (length (dequeues t (kv (local s)) limit (wrap64 (startTime clk - guard)))) < 2 ^ 55)%Z →
  ∃ s' leaves r', IntegrateBatch Sum256 clk tree sign limit guard maxDuration s = (Ok (), s') ∧
    published Sum256 clk tree limit guard maxDuration L r log leaves s s' ∧
    ready (L ++ hashesOf leaves)
      (log ++ integrated clk (length L) leaves) r' s'.
Proof.
  intros Hs Hr Hr' Hq Hclk Htime Hbound.
  destruct (batch_grows limit guard maxDuration L log r s Hs Hr Hr' Hq Hclk Htime Hbound)
    as (s' & leaves & r' & ? & ? & ? & _). by exists s', leaves, r'.
Qed.
End one.

(** Leaves may be queued, to any log, between batches. *)
Lemma ready_queue L log r s t' ts noise raw :
  ready L log r s → (0 ≤ LogRootV1.Revision r < 2 ^ 63)%Z → int64 t' → (0 ≤ ts < 2 ^ 63)%Z → length noise = 4 →
  ready L log r (with_local (mkDB (<[queueRow t' ts noise := raw]> (kv (local s))) []) s).
Proof.
  intros [H1 H2 H3 H4 H5 H6 H7 H8 H9 H10] Hr Ht' Hts Hn. split; try done; cbn [with_local local kv].
  - destruct H2 as (Hl & Hs & raw' & Hrow & Hu). split; [by apply log_state_queue|]. split; [done|].
    exists raw'. split; [|done]. rewrite lookup_insert_ne; [done|]. symmetry. by apply keyS_root_keyB.
  - apply (stores_same Sum256 L (kv (local s))); [|done|done| |done].
    + intros k v. rewrite lookup_insert. case_decide; [|apply H3]. subst. intros _. by apply wf_leaf.
    + intros k px. rewrite lookup_insert_ne; [done|]. intros E. by apply (f_equal isSubtreeKey) in E.
  - intros h. rewrite !lookup_insert_ne by (intros E; by apply (f_equal isIndexKey) in E). apply H9.
Qed.

(** *** Batch after batch *)

(** What the main loop does for one log while no leaves are queued. *)
Fixpoint batches (limit guard maxDuration : Z) (clks : list Clock) : M System unit :=
  match clks with
  | [] => mret ()
  | clk :: clks => _ ← IntegrateBatch Sum256 clk tree sign limit guard maxDuration;
                   batches limit guard maxDuration clks
  end.

(** Clocks that go on from [now], all with the same cutoff for leaves. *)
Fixpoint ticking (cutoff guard now : Z) (clks : list Clock) : Prop :=
  match clks with
  | [] => True
  | clk :: clks => wrap64 (startTime clk - guard) = cutoff ∧ (now < wrapU64 (rootTime clk))%Z ∧
      (∀ k, validateTimestamp (timestampOf (leafTime clk k)) = Ok ()) ∧
      ticking cutoff guard (wrapU64 (rootTime clk)) clks
  end.

Lemma ticking_le cutoff guard now now' clks :
  (now ≤ now')%Z → ticking cutoff guard now' clks → ticking cutoff guard now clks.
Proof. destruct clks; [done|]. intros Hle (? & ? & ?). split_and!; naive_solver lia. Qed.

(** What a leaf is about; the log fills in the rest. *)
Definition content (l : LogLeaf) : bytes * bytes * bytes * bytes * option Timestamp :=
  (sl (MerkleLeafHash l), sl (LeafValue l), sl (ExtraData l), sl (LeafIdentityHash l), QueueTimestamp l).

Lemma content_stamped now n leaves :
  content <$> stampLeaves now (numberLeaves n leaves) = content <$> leaves.
Proof.
  unfold stampLeaves, numberLeaves. apply list_eq. intros k.
  rewrite !list_lookup_fmap, !list_lookup_imap. by destruct (leaves !! k).
Qed.

Lemma content_json l : content (jsonLeaf l) = content l.
Proof. destruct l as [[[]|] [[]|] [[]|] ? [[]|] ? ?]; reflexivity. Qed.

Lemma batches_drain limit guard maxDuration cutoff clks : ∀ L log r s,
  ready L log r s → (0 ≤ LogRootV1.Revision r)%Z →
  (LogRootV1.Revision r + Z.of_nat (length clks) < 2 ^ 63)%Z →
  ticking cutoff guard (LogRootV1.TimestampNanos r) clks →
  (∀ k v, (k, v) ∈ queued (kv (local s)) t cutoff → ∃ leaf, unmarshal v = Ok leaf ∧ queueable leaf) →
  (Z.of_nat (length L) + Z.of_nat (length (queued (kv (local s)) t cutoff)) < 2 ^ 55)%Z →
  length (queued (kv (local s)) t cutoff) ≤ length clks * Z.to_nat limit →
  ∃ s' leaves log' r', batches limit guard maxDuration clks s = (Ok (), s') ∧
    Forall2 (λ e l, unmarshal e.2 = Ok l) (queued (kv (local s)) t cutoff) leaves ∧
    ready (L ++ hashesOf leaves) log' r' s' ∧ (0 ≤ LogRootV1.Revision r' < 2 ^ 63)%Z ∧
    content <$> log' = content <$> (log ++ leaves) ∧ queued (kv (local s')) t cutoff = [].
Proof.
  induction clks as [|clk clks IH]; intros L log r s Hs Hr Hr' Htick Hq Hbound Hn.
  { apply Nat.le_0_r, nil_length_inv in Hn. rewrite Hn. exists s, [], log, r. cbn in *. rewrite !app_nil_r. split_and!; try done; lia. }
  destruct Htick as (Hcut & Htime & Hclk & Htick). cbn [length] in *.
  set (q := queued (kv (local s)) t cutoff) in *.
  assert (length (dequeues t (kv (local s)) limit cutoff) ≤ length q) as Hd
    by (unfold dequeues; fold q; rewrite length_take; lia).
  destruct (batch_grows clk limit guard maxDuration L log r s) as (s1 & leaves1 & r1 & E1 & Hpub & Hs1 & Hr1);
    rewrite ?Hcut; try done; try lia.
  pose proof (published_queue _ _ _ _ _ _ _ _ _ _ Hpub) as Hq1. cbv zeta in Hq1. rewrite Hcut in Hq1. fold q in Hq1.
  destruct Hpub as [HF1 _]. rewrite Hcut in HF1. unfold dequeues in HF1. fold q in HF1.
  pose proof (Forall2_length _ _ _ HF1) as Hlen1. rewrite length_take in Hlen1.
  destruct (IH (L ++ hashesOf leaves1) _ r1 s1 Hs1) as (s' & leaves2 & log' & r' & E2 & HF2 & Hs' & Hrev & Hlog' & Hq').
  { destruct Hr1 as [->|[-> _]]; lia. }
  { destruct Hr1 as [->|[-> _]]; lia. }
  { destruct Hr1 as [->|[_ ->]]; [|done]. eapply ticking_le; [|exact Htick]. lia. }
  { intros k v Hin. rewrite Hq1 in Hin. by apply (Hq k v), (subseteq_drop (Z.to_nat limit)). }
  { rewrite Hq1, length_drop, length_app. unfold hashesOf. rewrite length_fmap. lia. }
  { rewrite Hq1, length_drop. lia. }
  rewrite Hq1 in HF2. exists s', (leaves1 ++ leaves2), log', r'. split; [cbn [batches]; by erewrite mbind_step by exact E1|].
  split; [rewrite <-(take_drop (Z.to_nat limit) q); by apply Forall2_app|].
  split; [unfold hashesOf in *; by rewrite fmap_app, app_assoc|]. split; [done|]. split; [|done].
  unfold integrated in Hlog'. by rewrite Hlog', app_assoc, !fmap_app, content_stamped.
Qed.
(** Every queued leaf is published: batches one after another, none of which
    meets a fault, all succeed, and as soon as they are enough to take all
    leaves that were queued up to the cutoff, the queue is empty up to the
    cutoff and the log is longer by exactly these leaves, in the order of the
    queue. *)
Theorem batches_drain_queue limit guard maxDuration cutoff clks  L log r s :
  ready L log r s → (0 ≤ LogRootV1.Revision r)%Z →
  (LogRootV1.Revision r + Z.of_nat (length clks) < 2 ^ 63)%Z →
  ticking cutoff guard (LogRootV1.TimestampNanos r) clks →
  (∀ k v, (k, v) ∈ queued (kv (local s)) t cutoff → ∃ leaf, unmarshal v = Ok leaf ∧ queueable leaf) →
  (Z.of_nat (length L) + Z.of_nat (length (queued (kv (local s)) t cutoff)) < 2 ^ 55)%Z →
  length (queued (kv (local s)) t cutoff) ≤ length clks * Z.to_nat limit →
  ∃ s' leaves log' r', batches limit guard maxDuration clks s = (Ok (), s') ∧
    Forall2 (λ e l, unmarshal e.2 = Ok l) (queued (kv (local s)) t cutoff) leaves ∧
    ready (L ++ hashesOf leaves) log' r' s' ∧
    content <$> log' = content <$> (log ++ leaves) ∧ queued (kv (local s')) t cutoff = [].
Proof.
  intros Hs Hr Hr' Htick Hq Hbound Hn.
  destruct (batches_drain limit guard maxDuration cutoff clks L log r s Hs Hr Hr' Htick Hq Hbound Hn)
    as (s' & leaves & log' & r' & ? & ? & ? & _ & ? & ?). by exists s', leaves, log', r'.
Qed.

End growth.

(** ** Witnesses *)

(** A database without subtrees stores the empty tree. *)
Lemma stores_empty Sum256 `{!Codec SubtreeProto} m t rev :
  wf_db m → int64 t → (0 ≤ rev < 2 ^ 63)%Z → (∀ k, isSubtreeKey k = true → m !! k = None) →
  stores Sum256 [] m t rev.
Proof.
  intros Hm Ht Hr Hnone. split; [done| |].
  - intros px Hl. unfold stored_at. pose proof (rowOf_newest m t rev px Hm Ht Hr Hl) as Hrow.
    destruct (rowOf m t rev px) as [raw|].
    { destruct Hrow as (r & _ & Hrow & _). by rewrite Hnone in Hrow. }
    split; [done|..]; intros key h; cbn; rewrite lookup_empty; (split; [done|]).
    + intros (j & _ & _ & E). unfold nodeAt in E. by rewrite treeNode_nil in E.
    + intros (e & j & _ & _ & _ & E). unfold nodeAt in E. by rewrite treeNode_nil in E.
  - intros r px _ _. by apply Hnone.
Qed.

Section witnesses.
#[local] Existing Instance leafCodec.
#[local] Existing Instance subtreeCodec.
#[local] Existing Instance frontierCodec.
#[local] Existing Instance jsonCodec.
#[local] Existing Instance mapRange.
#[local] Existing Instance listRange.
#[local] Existing Instance listRangeLaws.

(** A log that was initialized, with leaves queued. *)
Definition queuedLog (hs : list byte) : System := fold_left enqueue hs seqSystem.
Definition firstHead : LogRootV1.t := LogRootV1.mk 0 (toySum []) 1 0 [].

Lemma seqMap_wf : wf_db seqMap.
Proof.
  apply wf_db_apply_batch; [apply queueOnly_wf|].
  intros k v Hin. unfold rootPuts in Hin. rewrite !elem_of_cons in Hin.
  destruct Hin as [[= -> _]|[[= -> _]|[[= -> _]|Hin]]]; [apply wf_root, int64_1..|by apply not_elem_of_nil in Hin].
Qed.

Lemma seqMap_no_subtrees k : isSubtreeKey k = true → seqMap !! k = None.
Proof.
  intros Hk. assert (map_Forall (λ k _, isSubtreeKey k = false) seqMap) as Hall
    by (apply (bool_decide_unpack _); vm_compute; exact I).
  destruct (seqMap !! k) eqn:E; [|done]. apply Hall in E. congruence.
Qed.

Lemma seqMap_no_indexes k : isIndexKey k = true → seqMap !! k = None.
Proof.
  intros Hk. assert (map_Forall (λ k _, isIndexKey k = false) seqMap) as Hall
    by (apply (bool_decide_unpack _); vm_compute; exact I).
  destruct (seqMap !! k) eqn:E; [|done]. apply Hall in E. congruence.
Qed.

Lemma seqSystem_ready : ready toySum seqTree [] [] firstHead seqSystem.
Proof.
  split; try done.
  - exact seqSystem_head.
  - apply stores_empty; [apply seqMap_wf|apply int64_1|cbn; lia|apply seqMap_no_subtrees].
  - intros h. by rewrite !seqMap_no_indexes.
Qed.

Lemma queuedLog_ready hs s :
  ready toySum seqTree [] [] firstHead s → ready toySum seqTree [] [] firstHead (fold_left enqueue hs s).
Proof.
  revert s. induction hs as [|h hs IH]; intros s Hs; [done|]. apply IH. pose proof (b2z_range h).
  by apply (ready_queue toySum seqTree int64_1); [|cbn; lia|exact int64_1|lia|].
Qed.

Lemma exampleLeaf_queueable h : queueable (exampleLeaf h).
Proof. split; [exists [h]; by split_and!; [| |simpl; lia]|done]. Qed.

(** The leaves of a queue of examples. *)
Lemma examples_queueable (rows : list (bytes * bytes)) (hs : list byte) :
  rows.*2 = (λ h, pos_bytes (encode (exampleLeaf h))) <$> hs →
  ∀ k v, (k, v) ∈ rows → ∃ leaf, unmarshal v = Ok leaf ∧ queueable leaf.
Proof.
  intros E k v Hin. assert (v ∈ rows.*2) as Hv by (apply list_elem_of_fmap; by exists (k, v)).
  rewrite E in Hv. apply list_elem_of_fmap in Hv as (h & -> & _). exists (exampleLeaf h).
  split; [|apply exampleLeaf_queueable]. by apply (unmarshal_marshal (CodecLaws := countableCodec_laws LogLeaf) (exampleLeaf h)).
Qed.

Lemma subtree_fix (st : SubtreeProto) :
  is_Some (Prefix st) → SubtreeRootHash st = None → fixPrefix (canon st) = st.
Proof. intros [px Hp] _. change (canon st) with st. unfold fixPrefix. by rewrite Hp. Qed.

(** Three leaves in the queue. *)
Definition threeQueued : System := queuedLog [Byte.x02; Byte.x03].

Lemma three_rows :
  (queued (kv (local threeQueued)) (TreeId seqTree) 2000000000).*2 =
  (λ h, pos_bytes (encode (exampleLeaf h))) <$> [Byte.x02; Byte.x03; Byte.x01].
Proof. vm_compute. reflexivity. Qed.

Lemma length_three : length (queued (kv (local threeQueued)) (TreeId seqTree) 2000000000) = 3.
Proof. by rewrite <-(length_fmap snd), three_rows. Qed.

Lemma IntegrateBatch_grows_witness :
  ∃ s' leaves r',
    IntegrateBatch toySum (clockAt 2000000000) seqTree seqSign 10 0 0 threeQueued = (Ok (), s') ∧
    published toySum (clockAt 2000000000) seqTree 10 0 0 [] firstHead [] leaves threeQueued s' ∧
    ready toySum seqTree ([] ++ hashesOf leaves)
      ([] ++ integrated (clockAt 2000000000) 0 leaves) r' s'.
Proof.
  destruct (IntegrateBatch_grows toySum (CodecLaws0 := countableCodec_laws SubtreeProto)
    (CodecLaws1 := countableCodec_laws Frontier) (H := jsonCodec_laws) (MapRangeLaws0 := listRangeLaws)
    (MapRangeLaws1 := mapRange_laws) (λ st, ex_intro _ _ eq_refl) subtree_fix (λ f, ex_intro _ _ eq_refl)
    (λ f _, eq_refl) toySum_ne (λ b, ltac:(simpl; lia)) seqTree seqSign eq_refl (λ b, ex_intro _ _ eq_refl) int64_1
    (clockAt 2000000000) 10 0 0 [] [] firstHead threeQueued) as (s' & leaves & r' & H1 & H2 & H3).
  - apply queuedLog_ready, seqSystem_ready.
  - cbn. lia.
  - cbn. lia.
  - by eapply examples_queueable, three_rows.
  - done.
  - vm_compute. done.
  - unfold dequeues. rewrite length_take. change (wrap64 _) with 2000000000%Z. rewrite length_three. simpl. lia.
  - exists s', leaves, r'. split; [exact H1|]. split; [exact H2|exact H3].
Defined.

(** Two batches of two leaves each, for three leaves. *)
Definition twoClocks : list Clock :=
  [clockAt 2000000000; mkClock 2000000000 2000000000 (λ _, 2000000000%Z) 3000000000].

Lemma batches_drain_queue_witness :
  ∃ s' leaves log' r',
    batches toySum seqTree seqSign 2 0 0 twoClocks threeQueued = (Ok (), s') ∧ length leaves = 3 ∧
    ready toySum seqTree ([] ++ hashesOf leaves) log' r' s' ∧ content <$> log' = content <$> leaves ∧
    queued (kv (local s')) 1 2000000000 = [].
Proof.
  destruct (batches_drain_queue toySum (CodecLaws0 := countableCodec_laws SubtreeProto)
    (CodecLaws1 := countableCodec_laws Frontier) (H := jsonCodec_laws) (MapRangeLaws0 := listRangeLaws)
    (MapRangeLaws1 := mapRange_laws) (λ st, ex_intro _ _ eq_refl) subtree_fix (λ f, ex_intro _ _ eq_refl)
    (λ f _, eq_refl) toySum_ne (λ b, ltac:(simpl; lia)) seqTree seqSign eq_refl (λ b, ex_intro _ _ eq_refl) int64_1
    2 0 0 2000000000 twoClocks [] [] firstHead threeQueued) as (s' & leaves & log' & r' & H1 & H2 & H3 & H4 & H5).
  - apply queuedLog_ready, seqSystem_ready.
  - cbn. lia.
  - cbn. lia.
  - by repeat split.
  - by eapply examples_queueable, three_rows.
  - rewrite length_three. simpl. lia.
  - rewrite length_three. simpl. lia.
  - exists s', leaves, log', r'. split; [exact H1|]. apply Forall2_length in H2. rewrite length_three in H2.
    split; [by rewrite <-H2|]. split; [exact H3|]. split; [exact H4|exact H5].
Defined.
End witnesses.
