(* ===== verification/Arrivals.v ===== *)
(** * Leaves that arrive

    What requests do to the shared storage while the sequencer is between two
    batches and nothing fails: [arriving].  The calls that queue leaves
    ([LogStorage]) do no more than that. *)

From S2P Require Import Prelude Keys Trillian Frontier Fsm LevelDB Local Remote Cache Compact.
From S2P Require Import Nodes SubtreeCache TreeNodes Config ReadTx TreeTx StoredTree LogStorage Quota Rpc Server Sequencer Growth.

Section arrivals.
Context `{!Codec LogLeaf, !Codec SubtreeProto, !Codec Frontier, !Codec (list LogLeaf)}.
Context (c : Z).

(** Leaves are queued, to any log, later than [c]; and the cache of leaves
    changes. *)
Inductive arriving : System → System → Prop :=
  | arr_queue t ts noise raw leaf s :
      int64 t → (c < ts < 2 ^ 63)%Z → length noise = 4 → unmarshal raw = Ok leaf → queueable leaf →
      arriving s (with_local (mkDB (<[queueRow t ts noise := raw]> (kv (local s))) (faults (local s))) s)
  | arr_cache lc s : arriving s (mkSystem (local s) (remote s) lc).

(** ** Reading without faults *)

Section reading.
Context (d0 : DB) (Hd : faults d0 = []).

Lemma quiet_io : stable (.= d0) io.
Proof. intros d ->. unfold io, next_fault. unfold_M. by rewrite Hd. Qed.
Hint Resolve quiet_io : ctlog.

Lemma quiet_db_Get k : stable (.= d0) (db_Get k).
Proof. unfold db_Get. stable. Qed.
Hint Resolve quiet_db_Get : ctlog.

Lemma quiet_MostRecentRoot t : stable (.= d0) (MostRecentRoot t).
Proof. unfold MostRecentRoot. stable. Qed.

Lemma quiet_GetSequence t hs : stable (.= d0) (GetSequenceByIdentityHash t hs).
Proof. unfold GetSequenceByIdentityHash. apply stable_wrapErr. unfold getSequenceBy. stable. Qed.
End reading.

Lemma quiet_getBatch r0 t b : netFaults r0 = [] → stable (.= r0) (getBatch t b).
Proof.
  intros Hr. unfold getBatch, http_Get. apply stable_bind; [|intros []; stable].
  apply stable_bind; [|intros f; stable]. intros r ->. unfold next_net. by rewrite Hr.
Qed.

Lemma quiet_getLoop r0 t fuel : netFaults r0 = [] → ∀ seqs, stable (.= r0) (getLoop fuel t seqs).
Proof.
  intros Hr. induction fuel as [|fuel IH]; intros [|seq ss]; cbn [getLoop];
    try apply stable_ret; [apply stable_panic|]. apply stable_bind; [by apply quiet_getBatch|intros data].
  case_match; [apply stable_fail|]. apply stable_bind; [apply stable_lift|intros [out rest]].
  apply stable_bind; [apply IH|intros ?; apply stable_ret].
Qed.

Lemma quiet_GetLeaves r0 t seqs : netFaults r0 = [] → stable (.= r0) (GetLeaves t seqs).
Proof.
  intros Hr. unfold GetLeaves. case_match; [apply stable_ret|].
  apply stable_bind; [by apply quiet_getLoop|intros ?; apply stable_ret].
Qed.

(** ** Queueing *)

Section queueing.
Context (s0 : System).

(** What has happened since [s0] is that leaves arrived. *)
Definition since (s : System) : Prop :=
  rtc arriving s0 s ∧ faults (local s) = [] ∧ netFaults (remote s) = [].

Lemma since_reads {A} (x : M DB A) : (∀ d, faults d = [] → stable (.= d) x) → stable since (sysLocal x).
Proof.
  intros Hx s (H1 & H2 & H3). unfold sysLocal, zoom. specialize (Hx _ H2 (local s) eq_refl).
  destruct (x (local s)) as [o d]. cbn in Hx. subst d. by destruct s.
Qed.

Lemma since_reads_remote {A} (x : M Remote A) : (∀ r, netFaults r = [] → stable (.= r) x) → stable since (sysRemote x).
Proof.
  intros Hx s (H1 & H2 & H3). unfold sysRemote, zoom. specialize (Hx _ H3 (remote s) eq_refl).
  destruct (x (remote s)) as [o d]. cbn in Hx. subst d. by destruct s.
Qed.

Lemma since_addLeaf env t leaf : stable since (addLeaf env t leaf).
Proof.
  intros s (H1 & H2 & H3). unfold addLeaf, zoom. destruct (Set_ _ _ _ _ _ (leafCache s)) as [o lc].
  split; [|done]. eapply rtc_r; [exact H1|]. apply arr_cache.
Qed.

Context (Hc : (0 ≤ c)%Z).

(** A leaf that the sequencer can take once it is stored. *)
Definition storable (leaf : LogLeaf) : Prop :=
  ∀ raw, marshal leaf = Ok raw → ∃ leaf', unmarshal raw = Ok leaf' ∧ queueable leaf'.

Lemma since_LocalQueue rand t ts leaf :
  int64 t → (c < ts < 2 ^ 63)%Z → (∀ i n, rand i = Some n → length n = 4) → storable leaf →
  stable since (sysLocal (Local.QueueLeaves rand t ts [leaf])).
Proof.
  intros Ht Hts Hrand Hl s (H1 & H2 & H3). unfold sysLocal, zoom, Local.QueueLeaves. unfold mbind at 1, M_bind at 1, lift.
  cbn [queueBatch]. unfold_O. destruct (marshal leaf) as [raw|e|] eqn:Em; [|by destruct s; split..].
  destruct (rand 0) as [nz|] eqn:En; [|by destruct s; split]. unfold db_Write, io, next_fault. unfold_M. rewrite H2.
  cbn [snd kv faults apply_batch fold_left apply_op]. rewrite rowkeyLeaf_noise by by eapply Hrand.
  split; [|done]. destruct (Hl raw Em) as (leaf' & Hraw & Hleaf').
  pose proof (arr_queue t ts nz raw leaf' s Ht Hts (Hrand 0 nz En) Hraw Hleaf') as Ha.
  by eapply rtc_r.
Qed.

(** What a call sees of the source of randomness: four bytes for the key of a
    leaf. *)
Definition noisy (env : leafEnv) : Prop := ∀ i n, noise env i = Some n → length n = 4.

Lemma since_queueLeaf env tx leaf ts :
  int64 (treeID tx) → (c < ts < 2 ^ 63)%Z → noisy env → storable leaf →
  stable since (queueLeaf env tx leaf ts).
Proof.
  intros Ht Hts Henv Hl. unfold queueLeaf. apply stable_bind; [apply stable_get|intros s]. case_match; [apply stable_ret|].
  apply stable_bind.
  { unfold getSequenceByIdentityHash. apply stable_bind; [apply since_reads; intros; by apply quiet_GetSequence|].
    intros []; [apply stable_panic|apply stable_ret]. }
  intros seq. case_match.
  - apply stable_bind; [apply since_reads_remote; intros; by apply quiet_GetLeaves|]. intros [[] ?]; [apply stable_panic|apply stable_ret].
  - apply stable_bind; [by apply since_LocalQueue|intros _]. apply stable_bind; [apply since_addLeaf|intros _; apply stable_ret].
Qed.

Lemma since_queueLoop env tx ts leaves : ∀ i,
  int64 (treeID tx) → (c < ts < 2 ^ 63)%Z → (∀ i, noisy (env i)) → Forall storable leaves →
  stable since (queueLoop env i tx leaves ts).
Proof.
  induction leaves as [|leaf leaves IH]; intros i Ht Hts Henv Hl; cbn [queueLoop]; [apply stable_ret|].
  apply Forall_cons in Hl as [Hl Hls]. apply stable_bind; [by apply since_queueLeaf|intros l].
  apply stable_bind; [by apply IH|intros ?; apply stable_ret].
Qed.

Lemma since_QueueLeaves env t leaves ts :
  int64 t → (c < ts < 2 ^ 63)%Z → (∀ i, noisy (env i)) → Forall storable leaves →
  stable since (LogStorage.QueueLeaves env t leaves ts).
Proof.
  intros. unfold LogStorage.QueueLeaves. apply stable_bind; [apply since_reads; intros; by apply quiet_MostRecentRoot|].
  intros [root ?]. apply stable_bind; [by apply since_queueLoop|intros ?; apply stable_ret].
Qed.
End queueing.

(** ** Requests *)

Section requests.
Context `{!CodecLaws LogLeaf}.
Context (Hcanon : ∀ leaf : LogLeaf, queueable leaf → queueable (canon leaf)).
Context (Sum256 : bytes → bytes) (Hsum : ∀ b, Sum256 b ≠ []) (Hshort : ∀ b, length (Sum256 b) ≤ 128).
Context (a : adminStorage).

Lemma storable_hashLeaf leaf :
  checkQueueTimestamp (QueueTimestamp leaf) = Ok () → storable (hashLeaf Sum256 leaf).
Proof.
  intros Hts raw Hraw. exists (canon (hashLeaf Sum256 leaf)). split; [by apply unmarshal_marshal|].
  apply Hcanon. split; [|exact Hts]. eexists. split; [done|]. split; [apply Hsum|apply Hshort].
Qed.

Lemma derefs_Forall (P : LogLeaf → Prop) leaves ls :
  derefs leaves = Ok ls → (∀ leaf, Some leaf ∈ leaves → P leaf) → Forall P ls.
Proof.
  revert ls. induction leaves as [|[leaf|] leaves IH]; intros ls E Hl; [by injection E as <-| |done].
  cbn [derefs] in E. revert E. unfold_O. destruct (derefs leaves) as [ls'|e|]; [|done..]. intros [= <-].
  constructor; [apply Hl; by left|]. apply IH; [done|]. intros l Hin. apply Hl. by right.
Qed.

(** A request to queue leaves, with whatever answer, does no more to a storage
    without faults than that leaves arrive. *)
Lemma srvQueueLeaves_arriving now env ctx logID leaves w :
  int64 logID → (c < now < 2 ^ 63)%Z → (∀ i, noisy (env i)) →
  (∀ leaf, Some leaf ∈ leaves → checkQueueTimestamp (QueueTimestamp leaf) = Ok ()) →
  faults (local (system w)) = [] → netFaults (remote (system w)) = [] →
  rtc arriving (system w) (system (srvQueueLeaves Sum256 a now env ctx logID leaves w).2).
Proof.
  intros Ht Hts Henv Hl H1 H2.
  assert (stable (λ w', since (system w) (system w')) (srvQueueLeaves Sum256 a now env ctx logID leaves)) as Hst.
  { unfold srvQueueLeaves. apply stable_bind; [apply stable_lift|intros _]. apply stable_bind; [apply stable_lift|intros _].
    apply (stable_bind_post _ (λ ls w', Forall storable (hashLeaves Sum256 ls) ∧ since (system w) (system w'))).
    - intros w' Hw'. unfold lift. destruct (derefs leaves) as [ls|e|] eqn:E; [|done..]. split; [|done].
      apply Forall_fmap. eapply Forall_impl; [exact (derefs_Forall (λ l, checkQueueTimestamp (QueueTimestamp l) = Ok ()) leaves ls E Hl)|].
      intros l. apply storable_hashLeaf.
    - intros ls w' [Hls Hw']. revert w' Hw'. change (stable (λ w', since (system w) (system w'))
        (onSys (LogStorage.QueueLeaves env logID (hashLeaves Sum256 ls) now))).
      apply (stable_zoom _ (since (system w))); [done..|]. by apply since_QueueLeaves. }
  apply (Hst w). split; [apply rtc_refl|done].
Qed.
End requests.
End arrivals.
