(* ===== verification/Serving.v ===== *)
(** * Serving the log

    What the calls of the log server answer when the log is [ready]: the leaves
    of the log, and the proofs of RFC 6962 for its tree and for every earlier
    one.  With [Growth], leaves that were queued come to be served. *)

From S2P Require Import Prelude Keys Trillian Frontier Fsm LevelDB Local Remote Cache Compact.
From S2P Require Import Nodes SubtreeCache TreeNodes Config ReadTx TreeTx StoredTree LogStorage Quota Rpc.
From S2P Require Import Verifier Paths Proofs Server Sequencer Growth.

Section serving.
Context (Sum256 : bytes → bytes).
Context `{!Codec LogLeaf, !Codec SubtreeProto, !Codec Frontier, !Codec (list LogLeaf)}.
Context `{!CodecLaws SubtreeProto, !CodecLaws Frontier, !JSONLaws}.
Context `{!MapRange bytes, !MapRangeLaws bytes, !MapRange Z, !MapRangeLaws Z}.
Context (Hsubtree : ∀ st : SubtreeProto, ∃ raw, marshal st = Ok raw).
Context (Hfix : ∀ st : SubtreeProto,
  is_Some (Prefix st) → SubtreeRootHash st = None → fixPrefix (canon st) = st).
Context (Hfrontier : ∀ f : Frontier, ∃ raw, marshal f = Ok raw).
Context (Hcanon : ∀ f, solid f → canon f = f).
Context (Hsum : ∀ b, Sum256 b ≠ []) (Hshort : ∀ b, length (Sum256 b) ≤ 128).
Context (tree : Config.Tree) (sign : bytes → outcome bytes).
Context (Hlog : tree_TreeType tree = LOG) (Hsign : ∀ b, ∃ sg, sign b = Ok sg).
Abbreviation t := (TreeId tree).
Context (Ht : int64 t).
Abbreviation nodesOfTree L := (treeNode Sum256 L).
Abbreviation short := (Forall (λ h : bytes, length h ≤ 128)).

Abbreviation ready := (Growth.ready Sum256 tree).

(** ** Snapshots of the log *)

(** The snapshot of a log that is ready: its root, its size, and its nodes. *)
Record log_snapshot (L : list bytes) (log : list LogLeaf) (r : LogRootV1.t) (s : System)
    (tx : readOnlyLogTreeTX) : Prop := {
  ls_nodes : snapshot_of Sum256 (kv (local s)) t (LogRootV1.Revision r) L tx;
  ls_root : LogRootV1.UnmarshalBinary (sl (LogRoot (root tx))) = Ok r;
  ls_size : TreeSize (root tx) = Z.of_nat (length log)
}.

Section snapshot.
Context (L : list bytes) (log : list LogLeaf) (r : LogRootV1.t) (s : System).
Context (Hs : ready L log r s) (Hr : (0 ≤ LogRootV1.Revision r < 2 ^ 63)%Z).
Context (Hlen : (Z.of_nat (length log) < 2 ^ 63)%Z).

Lemma ready_db : local s = mkDB (kv (local s)) [].
Proof. rewrite <-(rdy_faults _ _ _ _ _ _ Hs). by destruct (local s). Qed.

Lemma ready_root :
  ∃ sth f, MostRecentRoot t (local s) = (Ok (sth, f), local s) ∧
    LogRootV1.UnmarshalBinary (sl (LogRoot sth)) = Ok r ∧ TreeRevision sth = LogRootV1.Revision r ∧
    TreeSize sth = Z.of_nat (length log).
Proof.
  pose proof (rdy_head _ _ _ _ _ _ Hs) as Hhead. pose proof (head_of_root Sum256 tree _ _ _ Hhead) as [Hroot _].
  pose proof (ready_length _ _ _ _ _ _ Hs) as Hll. pose proof (MostRecentRoot_head Sum256 t L r (local s) Hhead) as Hm.
  destruct (MostRecentRoot_has_root Sum256 t L _ Hroot) as (sth & f & E & _ & _).
  rewrite <-ready_db in E. rewrite E in Hm. destruct Hm as (Hu & Hrev & Hsize).
  rewrite wrap64_small in Hrev by (unfold int64; lia).
  destruct Hhead as (_ & Hsz & _). rewrite Hsz, wrap64_small, <-Hll in Hsize by (unfold int64; lia).
  by exists sth, f.
Qed.

Lemma ready_snapshot : ∃ tx, SnapshotForTree t s = (Ok tx, s) ∧ log_snapshot L log r s tx.
Proof.
  pose proof (rdy_tree _ _ _ _ _ _ Hs) as Hsto. destruct ready_root as (sth & f & E & Hu & Hrev & Hsize).
  exists (mkROLT (mkSubtreeCache logStrataInfo ∅ ∅) t sth f false). split.
  { unfold SnapshotForTree. rewrite NewLogSubtreeCache_Ok. erewrite mbind_step by reflexivity.
    erewrite mbind_step by (unfold sysLocal, zoom; rewrite E; reflexivity). destruct s; reflexivity. }
  split; [split|..]; try done. apply new_cache_for. intros px Hpx. by apply stored_at_view, (sto_at _ _ _ _ _ Hsto).
Qed.

(** Its leaves can be read, also after other reads. *)
Lemma snapshot_leaves tx indexes :
  log_snapshot L log r s tx → Forall (inLog log) indexes →
  ∃ leaves c', ReadTx.GetLeavesByIndex Sum256 indexes (s, tx) = (Ok leaves, (s, with_subtreeCache c' tx)) ∧
    Forall2 (logLeafAt log) (sortSeqs indexes) leaves.
Proof.
  intros [[H1 H2 H3] _ Hsz] Hin. pose proof (rdy_tree _ _ _ _ _ _ Hs) as Hsto.
  apply (GetLeavesByIndex_serves Sum256 (kv (local s))); try done; rewrite ?H1; try apply Hs.
  - split; [apply ready_db|apply H3|rewrite H1, H2; by apply (stores_rows Sum256 L)|lia].
  - intros i l Hl. unfold treeHash. rewrite H1, H2. pose proof (lookup_lt_Some _ _ _ Hl).
    destruct (present_logNode (length log) 0 i) as [Hx _]; [done|unfold present; simpl; lia|].
    rewrite (abs_for _ _ (nodesOfTree L) _ 0) by done.
    apply treeNode_leaf. rewrite <-(rdy_hashes _ _ _ _ _ _ Hs). unfold hashesOf. by rewrite list_lookup_fmap, Hl.
Qed.

(** Its proofs are built. *)
Lemma snapshot_builds tx leafIndex cs hs :
  log_snapshot L log r s tx → fetchable L cs → yields Sum256 L cs hs →
  ∃ c', fetchNodesAndBuildProof Sum256 (LogRootV1.Revision r) leafIndex (fetchOf <$> cs) (s, tx) =
      (Ok (mkProof leafIndex (Some <$> hs)), (s, with_subtreeCache c' tx)) ∧
    log_snapshot L log r s (with_subtreeCache c' tx).
Proof.
  intros [Hn Hu Hsz] Hst Hy. rewrite (ready_length _ _ _ _ _ _ Hs) in Hlen.
  destruct (fetchNodesAndBuildProof_Ok Sum256 (kv (local s)) t (LogRootV1.Revision r) L (rdy_tree _ _ _ _ _ _ Hs) Hlen
    cs hs leafIndex s tx ready_db Hn Hst Hy) as (c' & E & Hn').
  exists c'. split; [exact E|]. by split.
Qed.

Lemma snapshot_inclusion tx i m :
  log_snapshot L log r s tx → i < m ≤ length L →
  ∃ c', getInclusionProofForLeafIndex Sum256 (Z.of_nat m) (Z.of_nat i) (Z.of_nat (length L)) (s, tx) =
      (Ok (mkProof (Z.of_nat i) (Some <$> PATH Sum256 i (take m L))), (s, with_subtreeCache c' tx)) ∧
    log_snapshot L log r s (with_subtreeCache c' tx).
Proof.
  intros Hx Hi. pose proof (ready_length _ _ _ _ _ _ Hs) as Hll.
  destruct (inclusion_fetches Sum256 L m ltac:(lia) ltac:(lia) i ltac:(lia)) as (cs & E & Hst & Hy).
  destruct (snapshot_builds tx (Z.of_nat i) cs _ Hx Hst Hy) as (c' & Eb & Hx').
  exists c'. split; [|done]. unfold getInclusionProofForLeafIndex, proofMaxBitLen. rewrite E.
  erewrite mbind_step by reflexivity. erewrite mbind_step by (unfold ReadRevision; erewrite mbind_step; reflexivity).
  cbn [snd]. by rewrite (sn_rev _ _ _ _ _ _ (ls_nodes _ _ _ _ _ Hx)).
Qed.
End snapshot.
(** ** The calls *)

Lemma validateGetLeavesByIndex_Ok log indexes :
  indexes ≠ [] → Forall (inLog log) indexes → validateGetLeavesByIndex indexes = Ok ().
Proof.
  intros Hne Hin. unfold validateGetLeavesByIndex. destruct indexes as [|i indexes]; [done|]. cbn [length Nat.eqb].
  replace (anyNegative (i :: indexes)) with false; [done|]. symmetry. clear Hne.
  induction Hin as [|j js [Hj _] _ IH]; [done|]. cbn [anyNegative]. rewrite IH. by destruct (Z.ltb_spec j 0); [lia|].
Qed.

Lemma below_size x n : x ≤ n → (Z.of_nat n < 2 ^ 63)%Z → (Z.of_nat n <? wrapU64 (Z.of_nat x))%Z = false.
Proof. intros Hx Hn. rewrite wrapU64_small by lia. apply Z.ltb_ge. lia. Qed.

Section serve.
Context (a : adminStorage) (ctx : Context) (tr : Config.Tree).
Context (Htree : trees_GetTree ctx a t optsLogRead = Ok tr).

Lemma withSnapshot_runs {A} (x : ReadM A) tx o tx' w :
  SnapshotForTree t (system w) = (Ok tx, system w) → x (system w, tx) = (o, (system w, tx')) →
  onSys (withSnapshot t x) w = (o, w).
Proof.
  intros Hsn Hx. unfold onSys, zoom, withSnapshot. erewrite mbind_step by exact Hsn. unfold onSnapshot. rewrite Hx.
  by destruct w.
Qed.

Lemma readLog_runs {A} (x : ReadM A) tx o tx' w :
  SnapshotForTree t (system w) = (Ok tx, system w) → x (system w, tx) = (o, (system w, tx')) →
  readLog a ctx t x w = (o, w).
Proof.
  intros Hsn Hx. unfold readLog. rewrite Htree. erewrite mbind_step by reflexivity. by eapply withSnapshot_runs.
Qed.

Section log.
Context (L : list bytes) (log : list LogLeaf) (r : LogRootV1.t) (w : World).
Context (Hs : ready L log r (system w)) (Hr : (0 ≤ LogRootV1.Revision r < 2 ^ 63)%Z).
Context (Hlen : (Z.of_nat (length log) < 2 ^ 63)%Z).

(** What was integrated is served: [GetLeavesByIndex] answers a request for
    indexes of the log with the leaves at these indexes, in index order, and
    with the root of the log, and changes nothing. *)
Lemma ready_serves indexes :
  indexes ≠ [] → Forall (inLog log) indexes →
  ∃ leaves slr, srvGetLeavesByIndex Sum256 a ctx t indexes w = (Ok (mkLeavesAnswer leaves slr), w) ∧
    Forall2 (logLeafAt log) (sortSeqs indexes) leaves ∧
    LogRootV1.UnmarshalBinary (sl (LogRoot slr)) = Ok r.
Proof.
  intros Hne Hin. destruct (ready_snapshot _ _ _ _ Hs Hr Hlen) as (tx & Hsn & Hx).
  destruct (snapshot_leaves _ _ _ _ Hs Hlen tx indexes Hx Hin) as (leaves & c' & E & HF).
  exists leaves, (root tx). split; [|split; [done|apply Hx]].
  unfold srvGetLeavesByIndex. rewrite (validateGetLeavesByIndex_Ok log) by done. erewrite mbind_step by reflexivity.
  eapply readLog_runs; [exact Hsn|]. erewrite mbind_step by exact E. reflexivity.
Qed.

Lemma Sorted_seqZ start n : Sorted Z.le (seqZ start n).
Proof.
  remember (Z.to_nat n) as k eqn:Ek. revert start n Ek. induction k as [|k IH]; intros start n Ek.
  { by rewrite seqZ_nil by lia. }
  rewrite seqZ_cons by lia. constructor; [apply IH; lia|]. destruct (decide (Z.pred n ≤ 0)%Z).
  - by rewrite seqZ_nil.
  - rewrite seqZ_cons by lia. constructor. lia.
Qed.

Lemma sortSeqs_seqZ start n : sortSeqs (seqZ start n) = seqZ start n.
Proof. unfold sortSeqs. by rewrite bool_decide_true by apply Sorted_seqZ. Qed.

(** A range of the log, as far as it goes. *)
Lemma ready_range start count :
  (0 ≤ start < 2 ^ 62)%Z → (0 < count)%Z → (8 * count ≤ 2 ^ 48)%Z →
  ∃ leaves slr, srvGetLeavesByRange Sum256 a ctx t (mkRangeBody start count) w = (Ok (mkLeavesAnswer leaves slr), w) ∧
    Forall2 (logLeafAt log) (seqZ start (Z.min count (Z.of_nat (length log) - start))) leaves ∧
    LogRootV1.UnmarshalBinary (sl (LogRoot slr)) = Ok r.
Proof.
  intros Hst Hc Hcap. destruct (ready_snapshot _ _ _ _ Hs Hr Hlen) as (tx & Hsn & Hx).
  pose proof (ready_length _ _ _ _ _ _ Hs) as Hll. pose proof (rdy_head _ _ _ _ _ _ Hs) as (_ & Hsz & _).
  set (indexes := seqZ start (Z.min count (Z.of_nat (length log) - start))).
  assert (∃ leaves tx', (if (start <? Z.of_nat (length log))%Z then ReadTx.GetLeavesByRange Sum256 start count
      else mret []) (system w, tx) = (Ok leaves, (system w, tx')) ∧ root tx' = root tx ∧
      Forall2 (logLeafAt log) indexes leaves) as (leaves & tx' & E & Hroot & HF).
  { destruct (Z.ltb_spec start (Z.of_nat (length log))).
    - destruct (snapshot_leaves _ _ _ _ Hs Hlen tx indexes Hx) as (leaves & c' & E & HF).
      { apply Forall_forall. intros i Hi%elem_of_seqZ. unfold inLog. lia. }
      exists leaves, (with_subtreeCache c' tx). rewrite GetLeavesByRange_reads by (rewrite ?(ls_size _ _ _ _ _ Hx); unfold int64; lia).
      rewrite (ls_size _ _ _ _ _ Hx). unfold indexes in HF. rewrite sortSeqs_seqZ in HF. done.
    - exists [], tx. split; [done|]. split; [done|]. unfold indexes. rewrite seqZ_nil by lia. constructor. }
  exists leaves, (root tx). split; [|split; [done|apply Hx]].
  unfold srvGetLeavesByRange, validateGetLeavesByRange. cbn [rb_StartIndex rb_Count].
  rewrite (proj2 (Z.ltb_ge _ _)), (proj2 (Z.leb_gt _ _)) by lia. erewrite mbind_step by reflexivity.
  eapply readLog_runs; [exact Hsn|]. erewrite mbind_step by reflexivity. cbn [snd].
  rewrite (ls_root _ _ _ _ _ Hx). erewrite mbind_step by reflexivity.
  rewrite Hsz, <-Hll, wrap64_small by (unfold int64; lia). erewrite mbind_step by exact E. reflexivity.
Qed.

(** *** Proofs *)

Context (Hhash : tree_HashStrategy tr = RFC6962_SHA256).

Lemma proveLog_runs {A} (x : ReadM A) tx o tx' :
  SnapshotForTree t (system w) = (Ok tx, system w) → x (system w, tx) = (o, (system w, tx')) →
  proveLog a ctx t x w = (o, w).
Proof.
  intros Hsn Hx. assert (getTreeAndHasher a ctx t optsLogRead = Ok tr) as E
    by (unfold getTreeAndHasher; rewrite Htree; unfold_O; by rewrite Hhash).
  unfold proveLog. rewrite E. erewrite mbind_step by reflexivity. by eapply withSnapshot_runs.
Qed.

Lemma readRoot_runs tx :
  log_snapshot L log r (system w) tx → readRoot (system w, tx) = (Ok (root tx, r), (system w, tx)).
Proof. intros [_ Hu _]. unfold readRoot, LatestSignedLogRoot. unfold_M. cbn [snd]. by rewrite Hu. Qed.

Lemma ready_size : LogRootV1.TreeSize r = Z.of_nat (length L) ∧ (Z.of_nat (length L) < 2 ^ 63)%Z.
Proof. split; [apply (rdy_head _ _ _ _ _ _ Hs)|]. by rewrite <-(ready_length _ _ _ _ _ _ Hs). Qed.

Section snapshot.
Context (tx : readOnlyLogTreeTX) (Hsn : SnapshotForTree t (system w) = (Ok tx, system w)).
Context (Hx : log_snapshot L log r (system w) tx).

(** A proof of inclusion, in the tree of the log or in an earlier one. *)
Lemma ready_inclusion i m :
  i < m ≤ length L →
  srvGetInclusionProof Sum256 a ctx t (mkLeafIndexBody (Z.of_nat i) (Z.of_nat m)) w =
    (Ok (Some (mkProof (Z.of_nat i) (Some <$> PATH Sum256 i (take m L))), root tx), w).
Proof.
  intros Hi. destruct ready_size as [Esz HL].
  destruct (snapshot_inclusion _ _ _ _ Hs Hlen tx i m Hx Hi) as (c' & E & _).
  unfold srvGetInclusionProof, validateGetInclusionProof. cbn [lib_TreeSize lib_LeafIndex].
  rewrite !(proj2 (Z.leb_gt _ _)), (proj2 (Z.ltb_ge _ _)) by lia. erewrite mbind_step by reflexivity.
  eapply proveLog_runs; [exact Hsn|]. erewrite mbind_step by by apply readRoot_runs. cbv beta iota.
  rewrite Esz, below_size by (done || lia). rewrite wrap64_small by (unfold int64; lia).
  erewrite mbind_step by exact E. reflexivity.
Qed.

(** A leaf together with the proof that it is in the tree. *)
Lemma ready_entry i m :
  i < m ≤ length L →
  ∃ leaf, srvGetEntryAndProof Sum256 a ctx t (mkLeafIndexBody (Z.of_nat i) (Z.of_nat m)) w =
      (Ok (mkEntryAnswer (Some (mkProof (Z.of_nat i) (Some <$> PATH Sum256 i (take m L)))) (Some leaf) (root tx)), w) ∧
    logLeafAt log (Z.of_nat i) leaf.
Proof.
  intros Hi. destruct ready_size as [Esz HL].
  pose proof (ready_length _ _ _ _ _ _ Hs) as Hll.
  destruct (snapshot_inclusion _ _ _ _ Hs Hlen tx i m Hx Hi) as (c' & E & Hx').
  destruct (snapshot_leaves _ _ _ _ Hs Hlen _ [Z.of_nat i] Hx') as (leaves & c2 & E2 & HF).
  { repeat constructor; lia. }
  change (sortSeqs [Z.of_nat i]) with [Z.of_nat i] in HF.
  apply Forall2_cons_inv_l in HF as (leaf & ls & Hleaf & HF & ->). apply Forall2_nil_inv_l in HF as ->.
  exists leaf. split; [|done].
  unfold srvGetEntryAndProof, validateGetEntryAndProof. cbn [lib_TreeSize lib_LeafIndex].
  rewrite !(proj2 (Z.leb_gt _ _)), (proj2 (Z.ltb_ge (Z.of_nat i) 0)) by lia. erewrite mbind_step by reflexivity.
  eapply proveLog_runs; [exact Hsn|]. erewrite mbind_step by by apply readRoot_runs. cbv beta iota.
  rewrite Esz. cbn zeta. rewrite wrap64_small by (unfold int64; lia).
  rewrite (proj2 (Z.ltb_ge _ (Z.of_nat m))) by lia. cbn [andb]. rewrite (proj2 (Z.leb_le _ _)) by lia.
  erewrite mbind_step by exact E. erewrite mbind_step by exact E2. reflexivity.
Qed.

Lemma ready_consistency m1 m :
  0 < m1 ≤ m → m ≤ length L →
  srvGetConsistencyProof Sum256 a ctx t (mkConsistencyBody (Z.of_nat m1) (Z.of_nat m)) w =
    (Ok (Some (mkProof 0 (Some <$> PROOF Sum256 m1 (take m L))), root tx), w).
Proof.
  intros Hm1 Hm. destruct ready_size as [Esz HL].
  destruct (consistency_fetches Sum256 L m Hm HL m1 Hm1) as (cs & E & Hst & Hy).
  destruct (snapshot_builds _ _ _ _ Hs Hlen tx 0 cs _ Hx Hst Hy) as (c' & Eb & _).
  unfold srvGetConsistencyProof, validateGetConsistencyProof. cbn [cb_FirstTreeSize cb_SecondTreeSize].
  rewrite !(proj2 (Z.leb_gt _ _)), (proj2 (Z.ltb_ge _ _)) by lia. erewrite mbind_step by reflexivity.
  eapply proveLog_runs; [exact Hsn|]. erewrite mbind_step by by apply readRoot_runs. cbv beta iota.
  rewrite Esz, below_size by (done || lia). rewrite wrap64_small by (unfold int64; lia).
  unfold proofMaxBitLen. rewrite E. erewrite mbind_step by reflexivity.
  erewrite mbind_step by (unfold ReadRevision; erewrite mbind_step; reflexivity). cbn [snd].
  rewrite (sn_rev _ _ _ _ _ _ (ls_nodes _ _ _ _ _ Hx)). erewrite mbind_step by exact Eb. reflexivity.
Qed.
End snapshot.

(** C8. A log proves what it contains: asked for a leaf of its tree or of an earlier
    one, the server returns the leaf and the audit path of RFC 6962, changes
    nothing, and the verifier accepts the path for the root of that tree. *)
Theorem entry_proved i m :
  i < m ≤ length L →
  ∃ leaf slr proof, srvGetEntryAndProof Sum256 a ctx t (mkLeafIndexBody (Z.of_nat i) (Z.of_nat m)) w =
      (Ok (mkEntryAnswer (Some (mkProof (Z.of_nat i) proof)) (Some leaf) slr), w) ∧
    srvGetInclusionProof Sum256 a ctx t (mkLeafIndexBody (Z.of_nat i) (Z.of_nat m)) w =
      (Ok (Some (mkProof (Z.of_nat i) proof), slr), w) ∧
    proof = Some <$> PATH Sum256 i (take m L) ∧ logLeafAt log (Z.of_nat i) leaf ∧
    LogRootV1.UnmarshalBinary (sl (LogRoot slr)) = Ok r ∧
    (length (sl (MerkleLeafHash leaf)) = hashSize →
     VerifyInclusionProof Sum256 (Z.of_nat i) (Z.of_nat m) proof (Some (MTH Sum256 (take m L)))
       (MerkleLeafHash leaf) = Ok ()).
Proof.
  intros Hi. destruct (ready_snapshot _ _ _ _ Hs Hr Hlen) as (tx & Hsn & Hx). pose proof ready_size as [_ HL].
  destruct (ready_entry tx Hsn Hx i m Hi) as (leaf & E & Hleaf).
  exists leaf, (root tx), (Some <$> PATH Sum256 i (take m L)). split; [exact E|].
  split; [by apply ready_inclusion|]. split; [done|]. split; [done|]. split; [apply Hx|]. intros Hsize.
  destruct Hleaf as (_ & l0 & Hl0 & ->). rewrite Nat2Z.id in Hl0.
  assert (MerkleLeafHash (jsonLeaf l0) = Some (sl (MerkleLeafHash l0))) as ->
    by (revert Hsize; cbn; by destruct (MerkleLeafHash l0) as [[]|]).
  assert (length (take m L) = m) as El by (rewrite length_take; lia). rewrite <-El at 1.
  apply VerifyInclusionProof_path; [|by revert Hsize; cbn; destruct (MerkleLeafHash l0) as [[]|]|lia].
  rewrite lookup_take_lt by lia. rewrite <-(rdy_hashes _ _ _ _ _ _ Hs). unfold hashesOf. by rewrite list_lookup_fmap, Hl0.
Qed.

(** C9. A log proves that it was only extended: asked for two sizes up to its own,
    the server returns the consistency proof of RFC 6962, changes nothing, and
    the verifier accepts it for the roots of the two trees. *)
Theorem consistency_proved m1 m :
  0 < m1 ≤ m → m ≤ length L →
  ∃ slr proof, srvGetConsistencyProof Sum256 a ctx t (mkConsistencyBody (Z.of_nat m1) (Z.of_nat m)) w =
      (Ok (Some (mkProof 0 proof), slr), w) ∧
    proof = Some <$> PROOF Sum256 m1 (take m L) ∧ LogRootV1.UnmarshalBinary (sl (LogRoot slr)) = Ok r ∧
    VerifyConsistencyProof Sum256 (Z.of_nat m1) (Z.of_nat m) (Some (MTH Sum256 (take m1 L)))
      (Some (MTH Sum256 (take m L))) proof = Ok ().
Proof.
  intros Hm1 Hm. destruct (ready_snapshot _ _ _ _ Hs Hr Hlen) as (tx & Hsn & Hx). destruct ready_size as [_ HL].
  exists (root tx), (Some <$> PROOF Sum256 m1 (take m L)). split; [by apply ready_consistency|].
  split; [done|]. split; [apply Hx|].
  assert (length (take m L) = m) as El by (rewrite length_take; lia).
  pose proof (VerifyConsistencyProof_complete Sum256 (take m L) m1) as Hv.
  rewrite El, take_take, Nat.min_l in Hv by lia. apply Hv; lia.
Qed.
End log.

(** C7. Queued leaves come to be served: once batches without faults were enough
    to take all leaves that were queued up to the cutoff, [GetLeavesByIndex]
    answers a request for any of their places in the log, which are those of the
    queue behind the leaves that the log had, with what was queued. *)
Theorem queued_leaves_served limit guard maxDuration cutoff clks L log r s :
  ready L log r s → (0 ≤ LogRootV1.Revision r)%Z →
  (LogRootV1.Revision r + Z.of_nat (length clks) < 2 ^ 63)%Z →
  ticking cutoff guard (LogRootV1.TimestampNanos r) clks →
  (∀ k v, (k, v) ∈ queued (kv (local s)) t cutoff → ∃ leaf, unmarshal v = Ok leaf ∧ queueable leaf) →
  (Z.of_nat (length L) + Z.of_nat (length (queued (kv (local s)) t cutoff)) < 2 ^ 55)%Z →
  length (queued (kv (local s)) t cutoff) ≤ length clks * Z.to_nat limit →
  ∃ s', batches Sum256 tree sign limit guard maxDuration clks s = (Ok (), s') ∧
    ∀ k e w, queued (kv (local s)) t cutoff !! k = Some e → system w = s' →
    ∃ leaf leaf' slr, unmarshal e.2 = Ok leaf ∧ content leaf' = content leaf ∧
      srvGetLeavesByIndex Sum256 a ctx t [Z.of_nat (length log + k)] w = (Ok (mkLeavesAnswer [leaf'] slr), w).
Proof.
  intros Hs Hr Hr' Htick Hq Hbound Hn.
  destruct (batches_drain Sum256 Hsubtree Hfix Hfrontier Hcanon Hsum Hshort tree sign Hlog Hsign Ht limit guard maxDuration cutoff clks L log r s
    Hs Hr Hr' Htick Hq Hbound Hn) as (s' & leaves & log' & r' & E & HF & Hs' & Hrev & Hlog' & _).
  exists s'. split; [exact E|]. intros k e w Hk <-. destruct (Forall2_lookup_l _ _ _ _ _ HF Hk) as (leaf & Hl & Hu).
  assert (content <$> log' !! (length log + k) = Some (content leaf)) as Hc.
  { rewrite <-list_lookup_fmap, Hlog', list_lookup_fmap, lookup_app_r by lia.
    by rewrite Nat.add_comm, Nat.add_sub, Hl. }
  destruct (log' !! (length log + k)) as [l|] eqn:El; [|done]. apply (inj Some) in Hc.
  pose proof (lookup_lt_Some _ _ _ El). pose proof (Forall2_length _ _ _ HF).
  assert (length log' = length L + length leaves) as Hlen.
  { rewrite (ready_length _ _ _ _ _ _ Hs'). unfold hashesOf. by rewrite length_app, length_fmap. }
  destruct (ready_serves _ log' r' w Hs' Hrev ltac:(lia) [Z.of_nat (length log + k)]) as (ls & slr & Hsrv & HF2 & _);
    [done|repeat constructor; lia|].
  change (sortSeqs [Z.of_nat (length log + k)]) with [Z.of_nat (length log + k)] in HF2.
  apply Forall2_cons_inv_l in HF2 as (leaf' & ls' & (_ & l0 & Hl0 & ->) & HF2 & ->).
  apply Forall2_nil_inv_l in HF2 as ->. rewrite Nat2Z.id, El in Hl0. injection Hl0 as <-.
  exists leaf, (jsonLeaf l), slr. split; [done|]. split; [by rewrite content_json|exact Hsrv].
Qed.
End serve.
End serving.

(** ** Witnesses *)

Section witnesses.
#[local] Existing Instance leafCodec.
#[local] Existing Instance subtreeCodec.
#[local] Existing Instance frontierCodec.
#[local] Existing Instance jsonCodec.
#[local] Existing Instance mapRange.
#[local] Existing Instance listRange.
#[local] Existing Instance listRangeLaws.

(** The second leaf of the queue, served at index 1. *)
Lemma queued_leaves_served_witness :
  ∃ s', batches toySum seqTree seqSign 2 0 0 twoClocks threeQueued = (Ok (), s') ∧
    ∀ w, system w = s' → ∃ leaf slr, content leaf = content (exampleLeaf Byte.x03) ∧
      srvGetLeavesByIndex toySum (mkAdminStorage [seqTree]) Background 1 [1%Z] w =
        (Ok (mkLeavesAnswer [leaf] slr), w).
Proof.
  destruct (queued_leaves_served toySum (CodecLaws0 := countableCodec_laws SubtreeProto)
    (CodecLaws1 := countableCodec_laws Frontier) (H := jsonCodec_laws) (MapRangeLaws0 := listRangeLaws)
    (MapRangeLaws1 := mapRange_laws) (λ st, ex_intro _ _ eq_refl) subtree_fix (λ f, ex_intro _ _ eq_refl)
    (λ f _, eq_refl) toySum_ne (λ b, ltac:(simpl; lia)) seqTree seqSign eq_refl (λ b, ex_intro _ _ eq_refl) int64_1
    (mkAdminStorage [seqTree]) Background seqTree eq_refl
    2 0 0 2000000000 twoClocks [] [] firstHead threeQueued) as (s' & H1 & H2).
  - apply queuedLog_ready, seqSystem_ready.
  - cbn. lia.
  - cbn. lia.
  - by repeat split.
  - by eapply examples_queueable, three_rows.
  - rewrite length_three. simpl. lia.
  - rewrite length_three. simpl. lia.
  - exists s'. split; [exact H1|]. intros w Hw.
    pose proof (f_equal (.!! 1) three_rows) as Erow. rewrite list_lookup_fmap in Erow.
    destruct (queued (kv (local threeQueued)) (TreeId seqTree) 2000000000 !! 1) as [e|] eqn:Ee; [|done].
    destruct (H2 1 e w Ee Hw) as (leaf & leaf' & slr & Hu & Hc & Hsrv). exists leaf', slr. split; [|exact Hsrv].
    rewrite Hc. f_equal. apply (inj Some) in Erow. rewrite Erow in Hu.
    pose proof (unmarshal_marshal (CodecLaws := countableCodec_laws LogLeaf) (exampleLeaf Byte.x03) _ eq_refl) as Hx.
    assert (Ok leaf = Ok (exampleLeaf Byte.x03)) as [= ->] by (rewrite <-Hu; exact Hx). reflexivity.
Defined.

(** The leaves of a queue of examples are these examples. *)
Lemma examples_unmarshal (rows : list (bytes * bytes)) (hs : list byte) :
  rows.*2 = (λ h, pos_bytes (encode (exampleLeaf h))) <$> hs →
  Forall2 (λ e l, unmarshal e.2 = Ok l) rows (exampleLeaf <$> hs).
Proof.
  intros E. apply Forall2_same_length_lookup_2.
  { by rewrite length_fmap, <-(length_fmap snd), E, length_fmap. }
  intros i e l He Hl. apply (f_equal (.!! i)) in E. rewrite !list_lookup_fmap, He in E.
  rewrite list_lookup_fmap in Hl. destruct (hs !! i) as [h|]; [|done]. injection Hl as <-. cbn in E. injection E as ->.
  by apply (unmarshal_marshal (CodecLaws := countableCodec_laws LogLeaf) (exampleLeaf h)).
Qed.

(** The log of three leaves after these batches. *)
Definition threeHashes : list bytes := [[Byte.x02]; [Byte.x03]; [Byte.x01]].

Lemma three_ready :
  ∃ w log r, ready toySum seqTree threeHashes log r (system w) ∧
    content <$> log = (λ h, content (exampleLeaf h)) <$> [Byte.x02; Byte.x03; Byte.x01] ∧
    (0 ≤ LogRootV1.Revision r < 2 ^ 63)%Z ∧ (Z.of_nat (length log) < 2 ^ 55)%Z.
Proof.
  destruct (batches_drain toySum (CodecLaws0 := countableCodec_laws SubtreeProto)
    (CodecLaws1 := countableCodec_laws Frontier) (H := jsonCodec_laws) (MapRangeLaws0 := listRangeLaws)
    (MapRangeLaws1 := mapRange_laws) (λ st, ex_intro _ _ eq_refl) subtree_fix (λ f, ex_intro _ _ eq_refl)
    (λ f _, eq_refl) toySum_ne (λ b, ltac:(simpl; lia)) seqTree seqSign eq_refl (λ b, ex_intro _ _ eq_refl) int64_1
    2 0 0 2000000000 twoClocks [] [] firstHead threeQueued) as (s' & leaves & log & r & _ & H2 & H3 & H4 & H5 & _).
  - apply queuedLog_ready, seqSystem_ready.
  - cbn. lia.
  - cbn. lia.
  - by repeat split.
  - by eapply examples_queueable, three_rows.
  - rewrite length_three. simpl. lia.
  - rewrite length_three. simpl. lia.
  - pose proof (Forall2_unmarshal _ _ _ H2 (examples_unmarshal _ _ three_rows)) as ->.
    exists (mkWorld s' (mkQuotaManager 0 ∅ ∅ ∅) []), log, r. split; [exact H3|]. split; [exact H5|]. split; [exact H4|].
    rewrite (ready_length _ _ _ _ _ _ H3). simpl. lia.
Qed.

Lemma entry_proved_witness :
  ∃ w L leaf slr, length L = 3 ∧
    srvGetEntryAndProof toySum (mkAdminStorage [seqTree]) Background 1 (mkLeafIndexBody 0 2) w =
      (Ok (mkEntryAnswer (Some (mkProof 0 (Some <$> PATH toySum 0 (take 2 L)))) (Some leaf) slr), w).
Proof.
  destruct three_ready as (w & log & r & H1 & _ & H3 & H4). pose proof (Z.lt_trans _ _ (2 ^ 63) H4 eq_refl) as H5.
  destruct (entry_proved toySum (H := jsonCodec_laws) (MapRangeLaws0 := listRangeLaws) seqTree
    (mkAdminStorage [seqTree]) Background seqTree eq_refl threeHashes log r w H1 H3 H5 eq_refl 0 2)
    as (leaf & slr & proof & E & _ & -> & _).
  - simpl. lia.
  - exists w, threeHashes, leaf, slr. split; [reflexivity|exact E].
Defined.

Lemma consistency_proved_witness :
  ∃ w L slr, length L = 3 ∧
    srvGetConsistencyProof toySum (mkAdminStorage [seqTree]) Background 1 (mkConsistencyBody 1 2) w =
      (Ok (Some (mkProof 0 (Some <$> PROOF toySum 1 (take 2 L))), slr), w).
Proof.
  destruct three_ready as (w & log & r & H1 & _ & H3 & H4). pose proof (Z.lt_trans _ _ (2 ^ 63) H4 eq_refl) as H5.
  destruct (consistency_proved toySum (MapRangeLaws0 := listRangeLaws) seqTree
    (mkAdminStorage [seqTree]) Background seqTree eq_refl threeHashes log r w H1 H3 H5 eq_refl 1 2)
    as (slr & proof & E & -> & _).
  - lia.
  - simpl. lia.
  - exists w, threeHashes, slr. split; [reflexivity|exact E].
Defined.
End witnesses.
