(* ===== verification/ByHash.v ===== *)
(** * Looking leaves up by their hashes

    The indexes of a log that is [ready] ([Growth]) lead from a Merkle hash or an
    identity hash to the last leaf that has it.  With them the calls that are
    given a hash instead of an index are answered, and a leaf that the log
    already has is not queued a second time. *)

From S2P Require Import Prelude Keys Trillian Frontier Fsm LevelDB Local Remote Cache Compact.
From S2P Require Import Nodes SubtreeCache TreeNodes Config ReadTx TreeTx StoredTree LogStorage Quota Rpc.
From S2P Require Import Verifier Paths Proofs Server Sequencer Growth Serving.

(** ** The last leaf with a hash *)

Section lasts.
Context (sel : LogLeaf → slice).

Lemma lastWith_snoc h log l :
  lastWith sel h (log ++ [l]) = if decide (sl (sel l) = h) then Some l else lastWith sel h log.
Proof.
  unfold lastWith. rewrite filter_app, last_app, filter_cons, filter_nil. by case_decide.
Qed.

Lemma lastWith_Some h log l :
  lastWith sel h log = Some l → contig 0 log →
  ∃ i, log !! i = Some l ∧ LeafIndex l = Z.of_nat i ∧ sl (sel l) = h ∧
    ∀ j l', log !! j = Some l' → sl (sel l') = h → j ≤ i.
Proof.
  intros Hl Hnum. assert (∃ i, log !! i = Some l ∧ sl (sel l) = h ∧
    ∀ j l', log !! j = Some l' → sl (sel l') = h → j ≤ i) as (i & Hi & Hh & Hj).
  { clear Hnum. induction log as [|x log IH] using rev_ind; [done|]. rewrite lastWith_snoc in Hl. case_decide as Hx.
    - injection Hl as ->. exists (length log). rewrite lookup_app_r, Nat.sub_diag by done.
      split; [done|]. split; [done|]. intros j l' Hj%lookup_lt_Some _. rewrite length_app in Hj. simpl in Hj. lia.
    - destruct (IH Hl) as (i & Hi & Hh & Hmax). exists i. split; [by apply lookup_app_l_Some|]. split; [done|].
      intros j l' [Hj|[_ Hj]]%lookup_app_Some Hl'; [by eapply Hmax|].
      by apply list_lookup_singleton_Some in Hj as [_ ->]. }
  exists i. split; [done|]. split; [by rewrite (Hnum _ _ Hi)|]. by split.
Qed.

Lemma lastWith_None h log :
  lastWith sel h log = None ↔ Forall (λ l, sl (sel l) ≠ h) log.
Proof.
  unfold lastWith. rewrite last_None. split.
  - intros E. apply Forall_forall. intros l Hl Hh. eapply not_elem_of_nil. rewrite <-E. by apply list_elem_of_filter.
  - induction 1 as [|l log Hl _ IH]; [done|]. by rewrite filter_cons, decide_False.
Qed.

Lemma lastWith_at h log i l :
  contig 0 log → log !! i = Some l → sl (sel l) = h →
  (∀ j l', log !! j = Some l' → sl (sel l') = h → j ≤ i) → lastWith sel h log = Some l.
Proof.
  intros Hnum Hi Hh Hmax. destruct (lastWith sel h log) as [l'|] eqn:E.
  - destruct (lastWith_Some _ _ _ E Hnum) as (i' & Hi' & _ & Hh' & Hmax').
    assert (i' = i) as -> by (apply Nat.le_antisymm; [by eapply Hmax|by eapply Hmax']). congruence.
  - apply lastWith_None in E. by destruct (Forall_lookup_1 _ _ _ _ E Hi).
Qed.
End lasts.

(** The number that an index is asked for: that of the last leaf, or -1. *)
Definition numberWith (sel : LogLeaf → slice) (h : bytes) (log : list LogLeaf) : Z :=
  default (-1)%Z (LeafIndex <$> lastWith sel h log).

Lemma getSequenceBy_indexed typ sel t log m h :
  m !! keyB typ t (sl h) = indexRow <$> lastWith sel (sl h) log →
  contig 0 log → (Z.of_nat (length log) ≤ 2 ^ 55)%Z →
  getSequenceBy typ t [h] (mkDB m []) = (Ok [numberWith sel (sl h) log], mkDB m []).
Proof.
  intros Hrow Hnum Hlen. unfold getSequenceBy, io, next_fault, numberWith. erewrite mbind_step by reflexivity.
  cbn [mfold]. unfold mbind, M_bind, try, db_Get, io, next_fault. unfold_M. cbn. rewrite Hrow.
  destruct (lastWith sel (sl h) log) as [l|] eqn:El; [|done].
  destruct (lastWith_Some sel _ _ _ El Hnum) as (i & Hi & En & _). apply lookup_lt_Some in Hi.
  destruct (encodeSeq_fits (LeafIndex l)) as (raw & Er & Hd); [unfold seq_fits; lia|].
  cbn. unfold indexRow. by rewrite Er, Hd.
Qed.

(** ** Looking up *)

Section lookup.
Context (Sum256 : bytes → bytes).
Context `{!Codec LogLeaf, !Codec SubtreeProto, !Codec Frontier, !Codec (list LogLeaf)}.
Context `{!JSONLaws, !MapRange bytes, !MapRangeLaws bytes, !MapRange Z}.
Context (tree : Config.Tree).
Abbreviation t := (TreeId tree).
Abbreviation ready := (Growth.ready Sum256 tree).

Section log.
Context (L : list bytes) (log : list LogLeaf) (r : LogRootV1.t) (s : System).
Context (Hs : ready L log r s) (Hlen : (Z.of_nat (length log) ≤ 2 ^ 55)%Z).

Lemma ready_sequences h :
  GetSequenceByMerkleHash t [h] (local s) = (Ok [numberWith MerkleLeafHash (sl h) log], local s) ∧
  GetSequenceByIdentityHash t [h] (local s) = (Ok [numberWith LeafIdentityHash (sl h) log], local s).
Proof.
  pose proof (rdy_index _ _ _ _ _ _ Hs (sl h)) as [H1 H2]. pose proof (rdy_numbers _ _ _ _ _ _ Hs) as Hnum.
  rewrite (ready_db Sum256 tree L log r s Hs).
  split; apply wrapErr_step; [by apply (getSequenceBy_indexed typ_m)|by apply (getSequenceBy_indexed typ_i)].
Qed.

(** The bucket has the leaf that an index leads to. *)
Lemma ready_leaf sel h l :
  lastWith sel h log = Some l →
  (∃ i, log !! i = Some l ∧ LeafIndex l = Z.of_nat i) ∧ sl (sel l) = h ∧
  GetLeaves t [LeafIndex l] (remote s) = (Ok ([jsonLeaf l], [LeafIndex l]), remote s).
Proof.
  intros Hl. destruct (lastWith_Some sel h log l Hl (rdy_numbers _ _ _ _ _ _ Hs)) as (i & Hi & En & Hh & _).
  split; [by exists i|]. split; [done|]. pose proof (lookup_lt_Some _ _ _ Hi).
  destruct (GetLeaves_log t log [LeafIndex l] (remote s)) as (o & r' & E & _ & _ & Hok & Hout);
    [by rewrite (rdy_net _ _ _ _ _ _ Hs)|apply Hs..|lia|repeat constructor; lia|].
  destruct (Hok (rdy_net _ _ _ _ _ _ Hs)) as [-> [[out seqs] ->]].
  destruct (Hout _ _ eq_refl) as (Hp & _ & HF). apply Permutation_singleton_r in Hp as ->.
  apply Forall2_cons_inv_l in HF as (leaf & ls & (_ & l0 & Hl0 & ->) & HF & ->). apply Forall2_nil_inv_l in HF as ->.
  rewrite En, Nat2Z.id, Hi in Hl0. injection Hl0 as <-. exact E.
Qed.

(** The leaf of the log with a Merkle hash, if there is one. *)
Lemma GetLeavesByHash_finds tx h order :
  log_snapshot Sum256 tree L log r s tx → treeID tx = t →
  ReadTx.GetLeavesByHash [h] order (s, tx) =
    (Ok (option_list (jsonLeaf <$> lastWith MerkleLeafHash (sl h) log)), (s, tx)).
Proof.
  intros Hx Ht. unfold ReadTx.GetLeavesByHash. erewrite mbind_step by reflexivity. cbn [snd].
  erewrite mbind_step by (unfold onLocal, zoom; cbn [fst snd]; rewrite Ht, (proj1 (ready_sequences h)); reflexivity).
  rewrite (ls_size _ _ _ _ _ _ _ Hx). cbn [fst snd].
  assert (with_local (local s) s = s) as -> by (by destruct s). unfold numberWith.
  destruct (lastWith MerkleLeafHash (sl h) log) as [l|] eqn:El; cbn [fmap option_fmap option_map from_option option_list].
  - destruct (ready_leaf _ _ _ El) as ((i & Hi & En) & Hh & Hg). pose proof (lookup_lt_Some _ _ _ Hi).
    assert (outside (Z.of_nat (length log)) (LeafIndex l) = false) as Ho.
    { unfold outside. rewrite En. apply orb_false_iff. split; [apply Z.ltb_ge|apply Z.leb_gt]; lia. }
    rewrite filter_cons, filter_nil, decide_True by done. unfold id.
    erewrite mbind_step by (unfold onRemote, zoom; cbn [fst snd]; rewrite Ht, Hg; reflexivity).
    cbn [zip zip_with verifyHashes]. rewrite Ho. cbn [fst snd].
    assert (with_remote (remote s) s = s) as -> by (by destruct s).
    assert (bytes_Equal h (MerkleLeafHash (jsonLeaf l)) = true) as Eh.
    { unfold bytes_Equal. rewrite bool_decide_true; [done|]. rewrite <-Hh. cbn. by destruct (MerkleLeafHash l) as [[]|]. }
    change (indexLeaf [jsonLeaf l] (Z.of_nat 0)) with (Ok (jsonLeaf l)).
    erewrite mbind_step by (unfold lift; unfold_O; rewrite Eh; reflexivity). reflexivity.
  - erewrite mbind_step by reflexivity. cbn. by destruct s.
Qed.

(** A leaf that the log has, but for the first one ([queueLeaf_index0]), is not
    queued again: whoever adds it gets the one that the log has. *)
Lemma queueLeaf_finds env tx leaf l ts :
  treeID tx = t → TreeSize (root tx) = Z.of_nat (length log) →
  getLeafByIdentityHash env t (LeafIdentityHash leaf) s = None →
  lastWith LeafIdentityHash (sl (LeafIdentityHash leaf)) log = Some l → (0 < LeafIndex l)%Z →
  queueLeaf env tx leaf ts s = (Ok (Some (jsonLeaf l)), s).
Proof.
  intros Ht Hsz Hc Hl Hpos. destruct (ready_leaf _ _ _ Hl) as ((i & Hi & En) & _ & Hg).
  pose proof (lookup_lt_Some _ _ _ Hi).
  assert (with_local (local s) s = s ∧ with_remote (remote s) s = s) as [Ed Er] by (by destruct s).
  assert (getSequenceByIdentityHash tx (LeafIdentityHash leaf) s = (Ok (LeafIndex l), s)) as Hseq.
  { unfold getSequenceByIdentityHash. rewrite Ht.
    erewrite mbind_step by (unfold sysLocal, zoom; rewrite (proj2 (ready_sequences _)), Ed; reflexivity).
    unfold numberWith. by rewrite Hl. }
  unfold queueLeaf. rewrite Ht. erewrite mbind_step by reflexivity. rewrite Hc. erewrite mbind_step by exact Hseq.
  rewrite Hsz, (proj2 (Z.ltb_lt _ _) Hpos), (proj2 (Z.ltb_lt _ _)) by lia. cbn [andb].
  erewrite mbind_step by (unfold sysRemote, zoom; rewrite Hg, Er; reflexivity). reflexivity.
Qed.

Lemma QueueLeaves_finds env leaf l ts :
  (0 ≤ LogRootV1.Revision r < 2 ^ 63)%Z →
  getLeafByIdentityHash (env 0) t (LeafIdentityHash leaf) s = None →
  lastWith LeafIdentityHash (sl (LeafIdentityHash leaf)) log = Some l → (0 < LeafIndex l)%Z →
  LogStorage.QueueLeaves env t [leaf] ts s = (Ok [queuedLeaf leaf (Some (jsonLeaf l))], s).
Proof.
  intros Hr Hc Hl Hpos. destruct (ready_root Sum256 tree L log r s Hs Hr ltac:(lia)) as (sth & f & E & _ & _ & Hsz).
  unfold LogStorage.QueueLeaves. erewrite mbind_step by (unfold sysLocal, zoom; rewrite E; reflexivity).
  assert (with_local (local s) s = s) as -> by (by destruct s). cbn [queueLoop].
  erewrite mbind_step by (erewrite mbind_step by (by apply queueLeaf_finds); reflexivity). reflexivity.
Qed.
End log.

(** ** The calls that are given a hash *)

Section serve.
Context (a : adminStorage) (ctx : Context) (tr : Config.Tree).
Context (Htree : trees_GetTree ctx a t optsLogRead = Ok tr) (Hhash : tree_HashStrategy tr = RFC6962_SHA256).
Context (L : list bytes) (log : list LogLeaf) (r : LogRootV1.t) (w : World).
Context (Hs : ready L log r (system w)) (Hr : (0 ≤ LogRootV1.Revision r < 2 ^ 63)%Z).
Context (Hlen : (Z.of_nat (length log) ≤ 2 ^ 55)%Z).

(** The leaf with a hash, and nothing when there is none. *)
Lemma leaf_by_hash tx h order :
  SnapshotForTree t (system w) = (Ok tx, system w) → log_snapshot Sum256 tree L log r (system w) tx → sl h ≠ [] →
  srvGetLeavesByHash a ctx t (mkHashesBody [h] order) w =
    (Ok (mkLeavesAnswer (option_list (jsonLeaf <$> lastWith MerkleLeafHash (sl h) log)) (root tx)), w).
Proof.
  intros Hsn Hx Hne. unfold srvGetLeavesByHash, validateGetLeavesByHash.
  cbn [hb_LeafHash hb_OrderBySequence length Nat.eqb existsb orb].
  rewrite (proj2 (Nat.eqb_neq _ _)) by (by rewrite length_zero_iff_nil). cbn [orb]. erewrite mbind_step by reflexivity.
  eapply readLog_runs; [done|exact Hsn|].
  erewrite mbind_step by (apply (GetLeavesByHash_finds L log r); [done|lia|done|apply (sn_tree _ _ _ _ _ _ (ls_nodes _ _ _ _ _ _ _ Hx))]).
  reflexivity.
Qed.

(** The proofs for the leaf that was found, if it is in the tree. *)
Definition proofsFor (m : nat) (found : option LogLeaf) : list Proof_ :=
  match found with
  | Some l =>
      if decide (LeafIndex l < Z.of_nat m)%Z
      then [mkProof (LeafIndex l) (Some <$> PATH Sum256 (Z.to_nat (LeafIndex l)) (take m L))] else []
  | None => []
  end.

Lemma found_proved tx m h :
  log_snapshot Sum256 tree L log r (system w) tx → m ≤ length L →
  let found := lastWith MerkleLeafHash h log in
  ∃ tx', mfold (λ proofs leaf,
      if (Z.of_nat m <=? LeafIndex leaf)%Z then mret proofs
      else
        proof ← getInclusionProofForLeafIndex Sum256 (Z.of_nat m) (LeafIndex leaf) (wrap64 (LogRootV1.TreeSize r));
        mret (proofs ++ [proof])) [] (option_list (jsonLeaf <$> found)) (system w, tx) =
    (Ok (proofsFor m found), (system w, tx')).
Proof.
  intros Hx Hm found. destruct (ready_size Sum256 tree L log r w Hs ltac:(lia)) as [Esz HL].
  unfold proofsFor. destruct found as [l|] eqn:El; [|by exists tx].
  destruct (ready_leaf L log r (system w) Hs Hlen _ _ _ El) as ((i & Hi & En) & _). pose proof (lookup_lt_Some _ _ _ Hi).
  change (option_list (jsonLeaf <$> Some l)) with [jsonLeaf l]. cbn [mfold].
  change (LeafIndex (jsonLeaf l)) with (LeafIndex l).
  rewrite En, Esz, wrap64_small by (unfold int64; lia). case_decide as Hlt.
  - rewrite (proj2 (Z.leb_gt _ _)) by lia. rewrite Nat2Z.id.
    destruct (snapshot_inclusion Sum256 tree L log r (system w) Hs ltac:(lia) tx i m Hx ltac:(lia)) as (c' & E & _).
    erewrite mbind_step by (erewrite mbind_step by exact E; reflexivity). by eexists.
  - rewrite (proj2 (Z.leb_le _ _)) by lia. by exists tx.
Qed.

(** The proof for the last leaf with a hash, and an error when there is none
    in the tree that is asked for. *)
Lemma proof_by_hash tx h order m :
  SnapshotForTree t (system w) = (Ok tx, system w) → log_snapshot Sum256 tree L log r (system w) tx →
  sl h ≠ [] → 0 < m ≤ length L →
  srvGetInclusionProofByHash Sum256 a ctx t (mkByHashBody h (Z.of_nat m) order) w =
    (match proofsFor m (lastWith MerkleLeafHash (sl h) log) with
     | [] => Err (Errorf "No leaf found for hash: %x in tree size %v")
     | proofs => Ok (proofs, root tx)
     end, w).
Proof.
  intros Hsn Hx Hne Hm. destruct (found_proved tx m (sl h) Hx ltac:(lia)) as (tx' & Ef). unfold srvGetInclusionProofByHash, validateGetInclusionProofByHash.
  cbn [bhb_LeafHash bhb_TreeSize bhb_OrderBySequence].
  rewrite (proj2 (Z.leb_gt _ _)), (proj2 (Nat.eqb_neq _ _)) by (lia || by rewrite length_zero_iff_nil).
  erewrite mbind_step by reflexivity. eapply (proveLog_runs _ _ _ _ Htree _ Hhash); [exact Hsn|].
  erewrite mbind_step by (apply (GetLeavesByHash_finds L log r); [done|lia|done|apply (sn_tree _ _ _ _ _ _ (ls_nodes _ _ _ _ _ _ _ Hx))]).
  erewrite mbind_step by (by eapply readRoot_runs). cbv beta iota. erewrite mbind_step by exact Ef.
  erewrite mbind_step by reflexivity. by destruct (proofsFor m _).
Qed.

(** C10. A log proves what it contains to those who know only a hash: asked for the
    Merkle hash of a leaf, the server finds the last leaf that has it, returns
    this leaf and its audit path of RFC 6962 in the tree that is asked for, and
    the verifier accepts the path. *)
Theorem hash_proved i m h order :
  L !! i = Some h → (∀ j, L !! j = Some h → j ≤ i) → i < m ≤ length L →
  ∃ leaf slr proof,
    srvGetLeavesByHash a ctx t (mkHashesBody [Some h] order) w = (Ok (mkLeavesAnswer [leaf] slr), w) ∧
    srvGetInclusionProofByHash Sum256 a ctx t (mkByHashBody (Some h) (Z.of_nat m) order) w =
      (Ok ([mkProof (Z.of_nat i) proof], slr), w) ∧
    logLeafAt log (Z.of_nat i) leaf ∧ proof = Some <$> PATH Sum256 i (take m L) ∧
    LogRootV1.UnmarshalBinary (sl (LogRoot slr)) = Ok r ∧
    (length h = hashSize →
     VerifyInclusionProof Sum256 (Z.of_nat i) (Z.of_nat m) proof (Some (MTH Sum256 (take m L))) (Some h) = Ok ()).
Proof.
  intros Hi Hlast Hm. destruct (ready_snapshot Sum256 tree L log r (system w) Hs Hr ltac:(lia)) as (tx & Hsn & Hx).
  destruct (ready_size Sum256 tree L log r w Hs ltac:(lia)) as [_ HL].
  pose proof (rdy_hashes _ _ _ _ _ _ Hs) as HLlog. pose proof (rdy_numbers _ _ _ _ _ _ Hs) as Hnum.
  assert (∀ j l, log !! j = Some l → L !! j = Some (sl (MerkleLeafHash l))) as Hhash_at
    by (intros j l Hj; rewrite <-HLlog; unfold hashesOf; by rewrite list_lookup_fmap, Hj).
  assert (h ≠ []) as Hne by (destruct (rdy_head _ _ _ _ _ _ Hs) as ([HF _] & _); by eapply (Forall_lookup_1 _ _ _ _ HF)).
  destruct (log !! i) as [l|] eqn:El.
  2:{ apply lookup_ge_None in El. rewrite (ready_length _ _ _ _ _ _ Hs) in El. apply lookup_lt_Some in Hi. lia. }
  assert (lastWith MerkleLeafHash h log = Some l) as Hl.
  { apply lastWith_at with (i := i); try done; [apply Hhash_at in El; congruence|].
    intros j l' Hj Hh. apply Hlast. by rewrite (Hhash_at _ _ Hj), Hh. }
  exists (jsonLeaf l), (root tx), (Some <$> PATH Sum256 i (take m L)).
  split; [rewrite (leaf_by_hash tx) by done; cbn [sl default from_option id]; by rewrite Hl|].
  split.
  { rewrite (proof_by_hash tx) by (done || lia). cbn [sl default from_option id]. rewrite Hl. unfold proofsFor.
    rewrite (Hnum _ _ El), decide_True by lia. by rewrite Z.add_0_l, Nat2Z.id. }
  split; [split; [lia|]; exists l; by rewrite Nat2Z.id|]. split; [done|]. split; [apply Hx|]. intros Hsize.
  assert (length (take m L) = m) as Em by (rewrite length_take; lia). rewrite <-Em at 1.
  apply VerifyInclusionProof_path; [by rewrite lookup_take_lt by lia|done|lia].
Qed.

(** A hash that the log does not have is not found. *)
Lemma hash_unknown h order m :
  h ≠ [] → h ∉ L → 0 < m ≤ length L →
  ∃ slr,
    srvGetLeavesByHash a ctx t (mkHashesBody [Some h] order) w = (Ok (mkLeavesAnswer [] slr), w) ∧
    srvGetInclusionProofByHash Sum256 a ctx t (mkByHashBody (Some h) (Z.of_nat m) order) w =
      (Err (Errorf "No leaf found for hash: %x in tree size %v"), w).
Proof.
  intros Hne Hnot Hm. destruct (ready_snapshot Sum256 tree L log r (system w) Hs Hr ltac:(lia)) as (tx & Hsn & Hx).
  assert (lastWith MerkleLeafHash h log = None) as Hl.
  { apply lastWith_None, Forall_forall. intros l Hin Hh. apply Hnot. rewrite <-(rdy_hashes _ _ _ _ _ _ Hs).
    apply list_elem_of_fmap. by exists l. }
  exists (root tx). rewrite (leaf_by_hash tx), (proof_by_hash tx) by done. cbn [sl default from_option id].
  by rewrite Hl.
Qed.
End serve.

(** C11. A leaf that the log has is not queued again, but for the first one: when a
    leaf is queued whose identity hash a leaf of the log has, and the cache of
    recently queued leaves does not know it, the caller gets the last leaf of
    the log with that hash, and nothing is stored. *)
Theorem integrated_not_queued L log r s env leaf l i ts :
  ready L log r s → (0 ≤ LogRootV1.Revision r < 2 ^ 63)%Z → (Z.of_nat (length log) ≤ 2 ^ 55)%Z →
  log !! i = Some l → 0 < i → sl (LeafIdentityHash l) = sl (LeafIdentityHash leaf) →
  (∀ j l', log !! j = Some l' → sl (LeafIdentityHash l') = sl (LeafIdentityHash leaf) → j ≤ i) →
  getLeafByIdentityHash (env 0) t (LeafIdentityHash leaf) s = None →
  LogStorage.QueueLeaves env t [leaf] ts s =
    (Ok [mkQueued (jsonLeaf l) (Some (AlreadyExists (LeafIdentityHash (jsonLeaf l))))], s).
Proof.
  intros Hs Hr Hlen Hi Hpos Hid Hlast Hc. pose proof (rdy_numbers _ _ _ _ _ _ Hs) as Hnum.
  apply (QueueLeaves_finds L log r s Hs Hlen env leaf l ts Hr Hc).
  - by apply (lastWith_at _ _ _ i).
  - rewrite (Hnum _ _ Hi). lia.
Qed.
End lookup.

(** ** Witnesses *)

Section witnesses.
#[local] Existing Instance leafCodec.
#[local] Existing Instance subtreeCodec.
#[local] Existing Instance frontierCodec.
#[local] Existing Instance jsonCodec.
#[local] Existing Instance mapRange.
#[local] Existing Instance listRange.
#[local] Existing Instance listRangeLaws.

Lemma hash_proved_witness :
  ∃ w leaf slr,
    srvGetLeavesByHash (mkAdminStorage [seqTree]) Background 1 (mkHashesBody [Some [Byte.x03]] false) w =
      (Ok (mkLeavesAnswer [leaf] slr), w) ∧
    srvGetInclusionProofByHash toySum (mkAdminStorage [seqTree]) Background 1 (mkByHashBody (Some [Byte.x03]) 3 false) w =
      (Ok ([mkProof 1 (Some <$> PATH toySum 1 threeHashes)], slr), w).
Proof.
  destruct three_ready as (w & log & r & H1 & _ & H3 & H4).
  destruct (hash_proved toySum (MapRangeLaws0 := listRangeLaws) seqTree
    (mkAdminStorage [seqTree]) Background seqTree eq_refl eq_refl threeHashes log r w H1 H3 (Z.lt_le_incl _ _ H4)
    1 3 [Byte.x03] false) as (leaf & slr & proof & E1 & E2 & _ & -> & _).
  - reflexivity.
  - intros [|[|[|j]]] Hj; [lia|lia|discriminate|discriminate].
  - simpl. lia.
  - exists w, leaf, slr. split; [exact E1|exact E2].
Defined.

(** The same log, with an empty cache: its second leaf is queued again. *)
Lemma integrated_not_queued_witness :
  ∃ s l, content l = content (exampleLeaf Byte.x03) ∧
    LogStorage.QueueLeaves (λ _, env_at 5) 1 [exampleLeaf Byte.x03] 5 s =
      (Ok [mkQueued (jsonLeaf l) (Some (AlreadyExists (LeafIdentityHash (jsonLeaf l))))], s).
Proof.
  destruct three_ready as (w & log & r & H1 & H2 & H3 & H4).
  set (s := mkSystem (local (system w)) (remote (system w)) (New 0 1)).
  assert (Growth.ready toySum seqTree threeHashes log r s) as Hs by (destruct H1; by split).
  assert (∀ j l', log !! j = Some l' → sl (LeafIdentityHash l') = [Byte.x03] → j = 1) as Hid.
  { intros j l' Hj Hh. pose proof (f_equal (.!! j) H2) as E. rewrite !list_lookup_fmap, Hj in E.
    apply (f_equal (fmap (λ c, c.1.2))) in E. cbn [fmap option_fmap option_map content fst snd] in E.
    rewrite Hh in E. destruct j as [|[|[|j]]]; [discriminate|reflexivity|discriminate|discriminate]. }
  assert (∃ l, log !! 1 = Some l ∧ content l = content (exampleLeaf Byte.x03)) as (l & Hl & Hc).
  { pose proof (f_equal (.!! 1) H2) as E. rewrite !list_lookup_fmap in E.
    destruct (log !! 1) as [l|]; [|discriminate]. injection E as E. exists l. split; [reflexivity|].
    unfold content. cbn. congruence. }
  exists s, l. split; [exact Hc|].
  apply (integrated_not_queued toySum seqTree threeHashes log r s (λ _, env_at 5) (exampleLeaf Byte.x03) l 1 5 Hs H3
    (Z.lt_le_incl _ _ H4) Hl).
  - lia.
  - apply (f_equal (λ c, c.1.2)) in Hc. exact Hc.
  - intros j l' Hj Hh. rewrite (Hid j l' Hj Hh). lia.
  - reflexivity.
Defined.
End witnesses.
