(* ===== verification/Election.v ===== *)
(** * Mastership (src/vendor/github.com/google/trillian/util/election)

    [election.go], [tracker.go] and [runner.go]: for every log, a goroutine (a
    runner) takes part in an election and tells a tracker, which they all share,
    whether this process is the master of the log.  A runner that decides to
    resign queues a resignation, and the main loop ([Scheduler]) executes it
    while it works on no log.  The elections are an interface with the
    implementation ct-log uses, [NoopElection]; a runner is a step machine, a
    step reaching from one blocking call to the next.  Logging and the gauge that
    the tracker sets are not modelled. *)

From S2P Require Import Prelude Keys.

(** ** Sorting and searching strings *)

(** [sort.Strings] *)
Definition sort_Strings (ss : list bytes) : list bytes := merge_sort ble ss.

(** [sort.Search]: the first place in [i, j) where [f] holds, by bisection; each
    round halves the interval. *)
Fixpoint searchLoop (fuel : nat) (f : nat → bool) (i j : nat) : nat :=
  match fuel with
  | O => i
  | S fuel =>
      if (i <? j)%nat then
        let h := Nat.div2 (i + j) in
        if f h then searchLoop fuel f i h else searchLoop fuel f (S h) j
      else i
  end.
Definition sort_Search (n : nat) (f : nat → bool) : nat := searchLoop n f 0 n.

(** [sort.SearchStrings] *)
Definition sort_SearchStrings (a : list bytes) (x : bytes) : nat :=
  sort_Search (length a) (λ i, bool_decide (ble x (default [] (a !! i)))).

(** ** The tracker *)

Module MasterTracker.
Record t := mk { masterFor : gmap bytes bool; masterCount : Z }.

Definition NewMasterTracker (ids : list bytes) : t :=
  mk (fold_left (λ mf id, <[id := false]> mf) ids ∅) 0.

Definition Set_ (id : bytes) (val : bool) (mt : t) : t :=
  let existing := default false (masterFor mt !! id) in
  mk (<[id := val]> (masterFor mt))
     (if val && negb existing then masterCount mt + 1
      else if negb val && existing then masterCount mt - 1
      else masterCount mt)%Z.

Definition Count (mt : t) : Z := masterCount mt.

Definition Held `{!MapRange bytes} (mt : t) : list bytes :=
  sort_Strings (filter (λ id, default false (masterFor mt !! id) = true) (map_range (masterFor mt)).*1).

Definition IDs `{!MapRange bytes} (mt : t) : list bytes := sort_Strings (map_range (masterFor mt)).*1.

(** The inner loop of [HeldInfo]; [show] is what it has found. *)
Fixpoint showID (show id : bytes) (held : list bytes) : bytes :=
  match held with
  | [] => show
  | h :: held =>
      let show := if decide (h = id) then id else show in
      if decide (ble id h) then show else showID show id held
  end.

Definition HeldInfo (held ids : list bytes) : bytes :=
  (fold_left (λ '(result, prefix) id,
     (result ++ prefix ++ showID (replicate (length id) Byte.x2e) id held, [Byte.x20]))
     ids ([], [])).1.

Definition String_ `{!MapRange bytes} (mt : t) : bytes := HeldInfo (Held mt) (IDs mt).

(** This process is the master for [id]. *)
Definition holds (mt : t) (id : bytes) : Prop := masterFor mt !! id = Some true.
#[global] Instance holds_dec mt id : Decision (holds mt id).
Proof. unfold holds. apply _. Defined.

(** The count is that of the ids that are held. *)
Definition wf (mt : t) : Prop :=
  masterCount mt = Z.of_nat (size (filter (λ e, e.2 = true) (masterFor mt))).
End MasterTracker.
Import (notations) MasterTracker.
Abbreviation holds := MasterTracker.holds.

(** ** Elections *)

(** [MasterElection], the interface of an election; its operations may fail, and
    change what they like of the state [E] of the election. *)
Class MasterElection (E : Type) := {
  Start : M E unit;
  WaitForMastership : M E unit;
  IsMaster : M E bool;
  Resign : M E unit;
  Close : M E unit;
  GetCurrentMaster : M E bytes
}.

Record NoopElection := mkNoop { resourceID : bytes; instanceID : bytes }.
#[global] Instance noopElection : MasterElection NoopElection := {
  Start := mret ();
  WaitForMastership := mret ();
  IsMaster := mret true;
  Resign := mret ();
  Close := mret ();
  GetCurrentMaster := (ne ← get; mret (instanceID ne))
}.

(** [NoopFactory.NewElection] *)
Definition NoopFactory_NewElection (InstanceID resourceID : bytes) : outcome NoopElection :=
  Ok (mkNoop resourceID InstanceID).

(** ** The configuration of runners *)

(** Durations are nanoseconds in an int64. *)
Record RunnerConfig := mkRunnerConfig {
  PreElectionPause : Z;
  MasterCheckInterval : Z;
  MasterHoldInterval : Z;
  ResignOdds : Z
}.

Definition MinPreElectionPause : Z := 10000000.
Definition MinMasterCheckInterval : Z := 50000000.
Definition MinMasterHoldInterval : Z := 10000000000.

Definition fixupRunnerConfig (cfg : RunnerConfig) : RunnerConfig :=
  mkRunnerConfig
    (if (PreElectionPause cfg <? MinPreElectionPause)%Z then MinPreElectionPause else PreElectionPause cfg)
    (if (MasterCheckInterval cfg <? MinMasterCheckInterval)%Z then MinMasterCheckInterval
     else MasterCheckInterval cfg)
    (if (MasterHoldInterval cfg <? MinMasterHoldInterval)%Z then MinMasterHoldInterval
     else MasterHoldInterval cfg)
    (if (ResignOdds cfg <? 1)%Z then 1 else ResignOdds cfg)%Z.

(** [now.Sub(since)]: the difference, as far as a duration reaches. *)
Definition time_Sub (now since : Z) : Z := Z.max (- 2 ^ 63) (Z.min (2 ^ 63 - 1) (now - since)).

(** [rand.Intn(n)] makes of a random number one below [n]. *)
Definition rand_Intn (r n : Z) : outcome Z := if (n <=? 0)%Z then Panic else Ok (r `mod` n)%Z.

(** ** Runners *)

Inductive runnerPC :=
  | Pausing                   (* before the election starts *)
  | Waiting                   (* before [WaitForMastership] *)
  | Holding (masterSince : Z) (* asleep between two checks *)
  | Resigning                 (* before the resignation is queued *)
  | Blocked                   (* waits until the resignation is executed *)
  | Stopped.
#[global] Instance runnerPC_eqdec : EqDecision runnerPC.
Proof. solve_decision. Defined.

Record Runner (E : Type) := mkRunner { pc : runnerPC; election : E }.
Arguments mkRunner {E}.
Arguments pc {E}.
Arguments election {E}.

(** What the runners and the main loop share: the tracker, which the main loop
    makes first, the runners, and the channel of resignations (ids of runners),
    which holds a hundred. *)
Record Elections (E : Type) := mkElections {
  tracker : option MasterTracker.t;
  electionRunner : gmap bytes (Runner E);
  pendingResignations : list bytes
}.
Arguments mkElections {E}.
Arguments tracker {E}.
Arguments electionRunner {E}.
Arguments pendingResignations {E}.

(** What a step of a runner finds: whether its context was cancelled while it
    slept, the time, and a random number. *)
Record RunnerEnv := mkRunnerEnv { cancelled : bool; env_now : Z; env_rand : Z }.

Section runners.
Context {E : Type} `{!MasterElection E}.
Context (cfg : RunnerConfig).

Definition with_tracker (tr : option MasterTracker.t) (w : Elections E) : Elections E :=
  mkElections tr (electionRunner w) (pendingResignations w).
Definition with_runner (id : bytes) (r : Runner E) (w : Elections E) : Elections E :=
  mkElections (tracker w) (<[id := r]> (electionRunner w)) (pendingResignations w).
Definition with_pending (p : list bytes) (w : Elections E) : Elections E :=
  mkElections (tracker w) (electionRunner w) p.

(** [er.tracker.Set(er.id, val)] *)
Definition setMaster (id : bytes) (val : bool) : M (Elections E) unit :=
  w ← get;
  match tracker w with
  | Some mt => put (with_tracker (Some (MasterTracker.Set_ id val mt)) w)
  | None => panic
  end.

Definition goto (id : bytes) (p : runnerPC) : M (Elections E) unit :=
  modify (λ w, match electionRunner w !! id with
               | Some r => with_runner id (mkRunner p (election r)) w
               | None => w
               end).

(** A call of the election of a runner, whose error the caller looks at. *)
Definition callElection {A} (id : bytes) (m : M E A) : M (Elections E) (outcome A) :=
  w ← get;
  match electionRunner w !! id with
  | Some r =>
      let '(o, el) := m (election r) in
      _ ← put (with_runner id (mkRunner (pc r) el) w);
      match o with Panic => panic | _ => mret o end
  | None => panic
  end.

Definition ShouldResign (masterSince : Z) (env : RunnerEnv) : outcome bool :=
  let duration := time_Sub (env_now env) masterSince in
  if (duration <? MasterHoldInterval cfg)%Z then Ok false
  else if (ResignOdds cfg <=? 0)%Z then Ok true
  else n ← rand_Intn (env_rand env) (ResignOdds cfg); mret (n =? 0)%Z.

(** The deferred [Close] of a runner that returns. *)
Definition shutdownRunner (id : bytes) : M (Elections E) unit :=
  _ ← callElection id Close;
  goto id Stopped.

(** [pending <- r]: blocks while the channel is full. *)
Definition queueResignation (id : bytes) : M (Elections E) unit :=
  w ← get;
  if (length (pendingResignations w) <? 100)%nat then
    _ ← put (with_pending (pendingResignations w ++ [id]) w);
    goto id Blocked
  else mret ().

(** [Run], from one blocking call to the next. *)
Definition runnerStep (id : bytes) (env : RunnerEnv) : M (Elections E) unit :=
  w ← get;
  match pc <$> electionRunner w !! id with
  | Some Pausing =>
      _ ← lift (rand_Intn (env_rand env) (PreElectionPause cfg));
      if cancelled env then goto id Stopped
      else
        r ← callElection id Start;
        match r with Ok _ => goto id Waiting | _ => goto id Stopped end
  | Some Waiting =>
      r ← callElection id WaitForMastership;
      match r with
      | Ok _ => _ ← setMaster id true; goto id (Holding (env_now env))
      | _ => shutdownRunner id
      end
  | Some (Holding masterSince) =>
      if cancelled env then shutdownRunner id
      else
        r ← callElection id IsMaster;
        match r with
        | Ok true =>
            resign ← lift (ShouldResign masterSince env);
            if (resign : bool) then _ ← setMaster id false; goto id Resigning else mret ()
        | Ok false => _ ← setMaster id false; goto id Waiting
        | _ => goto id Waiting
        end
  | Some Resigning => queueResignation id
  | Some Blocked | Some Stopped | None => mret ()
  end.

(** [Resignation.Execute]; its last line lets the runner go on, which waits for
    it. *)
Definition Execute (id : bytes) : M (Elections E) unit :=
  _ ← callElection id Resign;
  _ ← callElection id Start;
  goto id Waiting.

(** The main loop takes the next resignation from the channel. *)
Definition nextResignation : M (Elections E) unit :=
  w ← get;
  match pendingResignations w with
  | id :: ids => _ ← put (with_pending ids w); Execute id
  | [] => mret ()
  end.
End runners.

(** ** Lemmas *)

(** *** Searching *)

Lemma searchLoop_first f n : ∀ fuel i j,
  j - i ≤ fuel → i ≤ j → j ≤ n → (∀ k, k < i → f k = false) →
  (∀ a b, a ≤ b → b < n → f a = true → f b = true) →
  let r := searchLoop fuel f i j in
  i ≤ r ≤ j ∧ (∀ k, k < r → f k = false) ∧ (r < j → f r = true).
Proof.
  induction fuel as [|fuel IH]; intros i j Hn Hij Hj Hlow Hmono; cbn [searchLoop].
  { split_and!; [lia..|done|lia]. }
  destruct (Nat.ltb_spec i j) as [Hlt|]; [|split_and!; [lia..|done|lia]].
  pose proof (Nat.div2_div (i + j)) as Ed. pose proof (Nat.div_mod_eq (i + j) 2).
  pose proof (Nat.mod_upper_bound (i + j) 2 ltac:(lia)). rewrite Ed.
  destruct (f ((i + j) / 2)) eqn:Ef.
  - destruct (IH i ((i + j) / 2)) as (H1 & H2 & H3); [lia..|done|done|]. split_and!; [lia..|done|].
    intros _. destruct (decide (searchLoop fuel f i ((i + j) / 2) < (i + j) / 2)) as [Hl|]; [by apply H3|].
    by replace (searchLoop fuel f i ((i + j) / 2)) with ((i + j) / 2) by lia.
  - destruct (IH (S ((i + j) / 2)) j) as (H1 & H2 & H3); [lia..| |done|split_and!; [lia..|done|done]].
    intros k Hk. destruct (f k) eqn:Efk; [|done]. by rewrite (Hmono k ((i + j) / 2)) in Ef by (lia || done).
Qed.

Lemma sort_Strings_sorted ss : StronglySorted ble (sort_Strings ss).
Proof. apply StronglySorted_merge_sort; apply _. Qed.

Lemma elem_of_sort_Strings ss x : x ∈ sort_Strings ss ↔ x ∈ ss.
Proof. unfold sort_Strings. by rewrite merge_sort_Permutation. Qed.

Lemma sorted_strings_lookup (a : list bytes) i j x y :
  StronglySorted ble a → a !! i = Some x → a !! j = Some y → i ≤ j → ble x y.
Proof.
  intros Ha. revert i j. induction Ha as [|z a Ha IH Hz]; intros i j Hi Hj Hle; [by rewrite lookup_nil in Hi|].
  destruct i as [|i], j as [|j]; simplify_eq/=; try lia.
  - done.
  - rewrite Forall_forall in Hz. by eapply Hz, list_elem_of_lookup_2.
  - apply (IH i j); [done..|lia].
Qed.

(** In a sorted list, a string is found where it is, and nowhere if it is not. *)
Lemma sort_SearchStrings_found a x :
  StronglySorted ble a → (a !! sort_SearchStrings a x = Some x ↔ x ∈ a).
Proof.
  intros Ha. split; [apply list_elem_of_lookup_2|]. intros (k & Hk)%list_elem_of_lookup_1.
  unfold sort_SearchStrings, sort_Search. pose proof (lookup_lt_Some _ _ _ Hk) as Hlk.
  set (f := λ i, bool_decide (ble x (default [] (a !! i)))).
  destruct (searchLoop_first f (length a) (length a) 0 (length a)) as (H1 & H2 & H3); [lia..| |].
  { intros i j Hij Hj. unfold f. rewrite !bool_decide_eq_true. intros Hi.
    destruct (lookup_lt_is_Some_2 a i) as [y Ey]; [lia|]. destruct (lookup_lt_is_Some_2 a j) as [z Ez]; [lia|].
    rewrite Ey in Hi. rewrite Ez. etrans; [exact Hi|]. by eapply sorted_strings_lookup. }
  set (r := searchLoop (length a) f 0 (length a)) in *.
  assert (r ≤ k) as Hrk.
  { destruct (decide (r ≤ k)) as [|Hkr]; [done|]. specialize (H2 k ltac:(lia)). unfold f in H2.
    rewrite Hk in H2. by apply bool_decide_eq_false in H2. }
  specialize (H3 ltac:(lia)). unfold f in H3. destruct (lookup_lt_is_Some_2 a r) as [y Ey]; [lia|].
  rewrite Ey in *. apply bool_decide_eq_true in H3. f_equal. apply (anti_symm ble); [|done].
  by eapply (sorted_strings_lookup a r k).
Qed.

(** *** The tracker *)

Module TrackerFacts.
Import MasterTracker.

Lemma holds_Set id v mt id' :
  holds (Set_ id v mt) id' ↔ if decide (id' = id) then v = true else holds mt id'.
Proof. unfold holds, Set_. cbn. rewrite lookup_insert. case_decide; subst; case_decide; naive_solver. Qed.

Lemma wf_New ids : wf (NewMasterTracker ids).
Proof.
  unfold wf, NewMasterTracker. cbn [masterFor masterCount].
  assert (filter (λ e, e.2 = true) (fold_left (λ mf id, <[id:=false]> mf) ids (∅ : gmap bytes bool)) = ∅) as ->.
  { assert (∀ ids (m : gmap bytes bool), filter (λ e, e.2 = true) m = ∅ →
      filter (λ e, e.2 = true) (fold_left (λ mf id, <[id:=false]> mf) ids m) = ∅) as H; [|by apply H, map_filter_empty].
    clear. induction ids as [|id ids IH]; intros m Hm; [done|]. apply IH.
    rewrite map_filter_insert_False by done. apply map_empty. intros id'.
    rewrite map_lookup_filter_None, lookup_delete_None. right. intros v [_ Hv]%lookup_delete_Some Ev.
    pose proof (proj2 (map_lookup_filter_Some (λ e, e.2 = true) m id' v) (conj Hv Ev)) as E. by rewrite Hm in E. }
  by rewrite map_size_empty.
Qed.

Lemma held_lookup mt id :
  filter (λ e, e.2 = true) (masterFor mt) !! id = if decide (holds mt id) then Some true else None.
Proof.
  case_decide as Hh.
  - by apply map_lookup_filter_Some.
  - apply map_lookup_filter_None. unfold holds in Hh. destruct (masterFor mt !! id) as [[]|]; [done|right|by left].
    by intros ? [= <-].
Qed.

Lemma wf_Set id v mt : wf mt → wf (Set_ id v mt).
Proof.
  unfold wf, Set_. cbn [masterFor masterCount]. intros ->. pose proof (held_lookup mt id) as Hl.
  assert (default false (masterFor mt !! id) = bool_decide (holds mt id)) as ->.
  { case_bool_decide as Hh; unfold holds in Hh; [by rewrite Hh|]. by destruct (masterFor mt !! id) as [[]|]. }
  destruct v; [rewrite map_filter_insert_True by done|
    rewrite map_filter_insert_False, map_filter_delete by done];
    rewrite ?map_size_insert, ?map_size_delete, Hl; case_decide as Hh;
    rewrite ?(bool_decide_true _ Hh), ?(bool_decide_false _ Hh); cbn; try lia.
  pose proof (map_size_ne_0_lookup_2 (filter (λ e, e.2 = true) (masterFor mt)) id) as Hn.
  rewrite Hl in Hn. specialize (Hn ltac:(by eexists)). lia.
Qed.

Section held.
Context `{!MapRange bytes, !MapRangeLaws bytes}.

Lemma map_range_keys {V} (m : gmap bytes V) id : id ∈ (map_range m).*1 ↔ is_Some (m !! id).
Proof.
  rewrite map_range_perm, list_elem_of_fmap. split.
  - intros ([k v] & -> & Hin%elem_of_map_to_list). by eexists.
  - intros [v Hv]. exists (id, v). split; [done|]. by apply elem_of_map_to_list.
Qed.

Lemma NoDup_range_keys {V} (m : gmap bytes V) : NoDup (map_range m).*1.
Proof. rewrite map_range_perm. apply NoDup_fst_map_to_list. Qed.

Lemma elem_of_Held mt id : id ∈ Held mt ↔ holds mt id.
Proof.
  unfold Held, holds. rewrite elem_of_sort_Strings, list_elem_of_filter, map_range_keys.
  destruct (masterFor mt !! id) as [[]|]; cbn; split; naive_solver.
Qed.

Lemma NoDup_Held mt : NoDup (Held mt).
Proof. unfold Held, sort_Strings. rewrite merge_sort_Permutation. apply NoDup_filter, NoDup_range_keys. Qed.

Lemma length_Held mt : wf mt → Z.of_nat (length (Held mt)) = Count mt.
Proof.
  intros Hwf. unfold Count. rewrite Hwf. f_equal. rewrite <-length_map_to_list.
  rewrite <-(length_fmap fst (map_to_list _)). apply Permutation_length, NoDup_Permutation.
  - apply NoDup_Held.
  - apply NoDup_fst_map_to_list.
  - intros id. rewrite elem_of_Held, list_elem_of_fmap. pose proof (held_lookup mt id) as Hl. split.
    + intros Hh. rewrite decide_True in Hl by done. exists (id, true). split; [done|]. by apply elem_of_map_to_list.
    + intros ([k v] & -> & Hin%elem_of_map_to_list). cbn in *. rewrite Hl in Hin. by case_decide.
Qed.
End held.

(** The text for an id is the id itself when it is held, and dots otherwise. *)
Lemma showID_held show id held :
  StronglySorted ble held → showID show id held = if decide (id ∈ held) then id else show.
Proof.
  intros Hs. revert show. induction Hs as [|h held Hs IH Hh]; intros show; cbn [showID]; [done|].
  destruct (decide (h = id)) as [->|Hne].
  - rewrite (decide_True (P := id ∈ id :: held)) by by left. by rewrite decide_True by reflexivity.
  - destruct (decide (ble id h)) as [Hle|Hle].
    + rewrite decide_False; [done|]. intros [->|Hin]%elem_of_cons; [done|]. rewrite Forall_forall in Hh.
      apply Hne, (anti_symm ble); [by apply Hh|done].
    + rewrite IH. repeat case_decide; try done; exfalso; rewrite ?elem_of_cons in *; naive_solver.
Qed.
End TrackerFacts.

(** *** Runners and resignations *)

(** Code that reports no errors. *)
Definition errorless {S A} (m : M S A) : Prop := ∀ s e, fst (m s) ≠ Err e.

Lemma errorless_bind {S A B} (m : M S A) (f : A → M S B) :
  errorless m → (∀ x, errorless (f x)) → errorless (m ≫= f).
Proof.
  intros Hm Hf s e. specialize (Hm s e). unfold mbind, M_bind. destruct (m s) as [[x|e'|] s']; cbn in *; [apply Hf|congruence|done].
Qed.

Section reachable.
Context {E : Type} `{!MasterElection E}.
Context (cfg : RunnerConfig).

(** What the runners (in environments [P]) and the main loop do, in any order:
    the tracker is made, runners are started, take steps, and resign.  A panic
    ends the process. *)
Inductive elections_step (P : RunnerEnv → Prop) : Elections E → Elections E → Prop :=
  | es_tracker ids w :
      tracker w = None →
      elections_step P w (with_tracker (Some (MasterTracker.NewMasterTracker ids)) w)
  | es_start id el w :
      tracker w ≠ None → electionRunner w !! id = None →
      elections_step P w (with_runner id (mkRunner Pausing el) w)
  | es_runner id env w o w' :
      P env → runnerStep cfg id env w = (o, w') → o ≠ Panic → elections_step P w w'
  | es_resign w o w' : nextResignation w = (o, w') → o ≠ Panic → elections_step P w w'.

Definition noElections : Elections E := mkElections None ∅ [].

(** This process is the master for [id]. *)
Definition masters (w : Elections E) (id : bytes) : Prop :=
  ∃ mt, tracker w = Some mt ∧ holds mt id.

(** A runner that is asleep between two checks holds its log; one that has not
    waited for mastership yet, or has resigned, does not. *)
Definition pc_agrees (mt : MasterTracker.t) (id : bytes) (p : runnerPC) : Prop :=
  match p with
  | Holding _ => holds mt id
  | Pausing | Resigning | Blocked => ¬ holds mt id
  | Waiting | Stopped => True
  end.

Record elections_inv (w : Elections E) : Prop := {
  ei_none : tracker w = None → electionRunner w = ∅;
  ei_count : ∀ mt, tracker w = Some mt → MasterTracker.wf mt;
  ei_pc : ∀ mt id r, tracker w = Some mt → electionRunner w !! id = Some r → pc_agrees mt id (pc r);
  ei_held : ∀ mt id, tracker w = Some mt → holds mt id → is_Some (electionRunner w !! id);
  ei_nodup : NoDup (pendingResignations w);
  ei_pending : ∀ id, id ∈ pendingResignations w ↔ pc <$> electionRunner w !! id = Some Blocked
}.

(** A runner moves on, and tells the tracker or queues a resignation. *)
Lemma elections_inv_move w mt id r p el mt' ps :
  elections_inv w → tracker w = Some mt → electionRunner w !! id = Some r → MasterTracker.wf mt' →
  (∀ id', id' ≠ id → holds mt' id' ↔ holds mt id') → pc_agrees mt' id p →
  NoDup ps → (∀ id', id' ≠ id → id' ∈ ps ↔ id' ∈ pendingResignations w) → (id ∈ ps ↔ p = Blocked) →
  elections_inv (mkElections (Some mt') (<[id := mkRunner p el]> (electionRunner w)) ps).
Proof.
  intros [H1 H2 H3 H4 H5 H6] Et Er Hwf Hother Hp Hnd Hps Hid.
  split; cbn; [done| | | |done|].
  - by intros ? [= <-].
  - intros ? id' r' [= <-]. rewrite lookup_insert. case_decide as Ei; [by intros [= <-]; subst|]. intros Hr'.
    specialize (H3 mt id' r' Et Hr'). pose proof (Hother id' ltac:(congruence)) as Ho.
    unfold pc_agrees in *. destruct (pc r'); tauto.
  - intros ? id' [= <-] Hh. rewrite lookup_insert. case_decide; [by eexists|]. apply (H4 mt id' Et).
    by apply Hother; [congruence|].
  - intros id'. rewrite lookup_insert. case_decide as Ei.
    + subst. rewrite Hid. cbn. split; congruence.
    + rewrite Hps by congruence. apply H6.
Qed.
Lemma elections_inv_tracker w id r :
  elections_inv w → electionRunner w !! id = Some r → ∃ mt, tracker w = Some mt.
Proof.
  intros Hw Hr. destruct (tracker w) as [mt|] eqn:Et; [by eexists|]. by rewrite (ei_none _ Hw Et) in Hr.
Qed.

Lemma not_pending w id r :
  elections_inv w → electionRunner w !! id = Some r → pc r ≠ Blocked → id ∉ pendingResignations w.
Proof. intros Hw Hr Hp. rewrite (ei_pending _ Hw), Hr. intros [= ?]. done. Qed.

Lemma elections_inv_goto w mt id r p el :
  elections_inv w → tracker w = Some mt → electionRunner w !! id = Some r → pc r ≠ Blocked → p ≠ Blocked →
  pc_agrees mt id p → elections_inv (with_runner id (mkRunner p el) w).
Proof.
  intros Hw Et Hr Hb Hp Ha. unfold with_runner. rewrite Et.
  apply (elections_inv_move w mt id r); try done; [by apply Hw|by apply Hw|].
  pose proof (not_pending w id r Hw Hr Hb). tauto.
Qed.

Lemma elections_inv_set w mt id r p el v :
  elections_inv w → tracker w = Some mt → electionRunner w !! id = Some r → pc r ≠ Blocked → p ≠ Blocked →
  pc_agrees (MasterTracker.Set_ id v mt) id p →
  elections_inv (with_tracker (Some (MasterTracker.Set_ id v mt)) (with_runner id (mkRunner p el) w)).
Proof.
  intros Hw Et Hr Hb Hp Ha. unfold with_tracker, with_runner. cbn [electionRunner pendingResignations].
  apply (elections_inv_move w mt id r); try done.
  - apply TrackerFacts.wf_Set. by apply (ei_count _ Hw).
  - intros id' Hne. by rewrite TrackerFacts.holds_Set, decide_False.
  - apply Hw.
  - pose proof (not_pending w id r Hw Hr Hb). tauto.
Qed.

Lemma callElection_eq {A} id (m : M E A) (w : Elections E) r o el :
  electionRunner w !! id = Some r → m (election r) = (o, el) →
  callElection id m w =
    (match o with Panic => Panic | _ => Ok o end, with_runner id (mkRunner (pc r) el) w).
Proof. intros Hr Hm. unfold callElection. unfold_M. rewrite Hr, Hm. by destruct o. Qed.

Lemma callElection_Ok {A} id (m : M E A) (w : Elections E) r a el :
  electionRunner w !! id = Some r → m (election r) = (Ok a, el) →
  callElection id m w = (Ok (Ok a), with_runner id (mkRunner (pc r) el) w).
Proof. intros Hr Hm. by rewrite (callElection_eq id m w r (Ok a) el). Qed.

Lemma goto_eq id p (w : Elections E) r :
  electionRunner w !! id = Some r → goto id p w = (Ok (), with_runner id (mkRunner p (election r)) w).
Proof. intros Hr. unfold goto. unfold_M. by rewrite Hr. Qed.

Lemma lookup_with_runner id r (w : Elections E) : electionRunner (with_runner id r w) !! id = Some r.
Proof. apply lookup_insert_eq. Qed.

Lemma with_runner_twice id r r' (w : Elections E) : with_runner id r (with_runner id r' w) = with_runner id r w.
Proof. unfold with_runner. cbn. by rewrite insert_insert_eq. Qed.

Lemma setMaster_goto id v p (w : Elections E) mt r :
  tracker w = Some mt → electionRunner w !! id = Some r →
  (_ ← setMaster id v; goto id p) w =
    (Ok (), with_tracker (Some (MasterTracker.Set_ id v mt)) (with_runner id (mkRunner p (election r)) w)).
Proof. intros Et Hr. unfold setMaster, goto. unfold_M. rewrite Et. cbn. by rewrite Hr. Qed.
(** What a runner does after a call of its election. *)
Lemma after_call {A B} id (m : M E A) (k : outcome A → M (Elections E) B) w r o w' :
  electionRunner w !! id = Some r → (r0 ← callElection id m; k r0) w = (o, w') → o ≠ Panic →
  ∃ o0 el, o0 ≠ Panic ∧ k o0 (with_runner id (mkRunner (pc r) el) w) = (o, w').
Proof.
  intros Hr H Ho. destruct (m (election r)) as [o0 el] eqn:Em.
  unfold mbind, M_bind in H. rewrite (callElection_eq id m w r o0 el Hr Em) in H.
  destruct o0 as [a|e|]; [exists (Ok a), el; by split|exists (Err e), el; by split|congruence].
Qed.

Lemma runnerStep_inv id env w o w' :
  elections_inv w → runnerStep cfg id env w = (o, w') → o ≠ Panic → elections_inv w'.
Proof.
  intros Hw H Ho. unfold runnerStep in H. erewrite mbind_step in H by reflexivity.
  destruct (electionRunner w !! id) as [r|] eqn:Hr; cbn [fmap option_fmap option_map] in H; [|by injection H as _ <-].
  destruct (elections_inv_tracker w id r Hw Hr) as [mt Et]. pose proof (ei_pc _ Hw mt id r Et Hr) as Hpc.
  assert (∀ p el, pc r ≠ Blocked → p ≠ Blocked → pc_agrees mt id p →
    elections_inv (with_runner id (mkRunner p el) w)) as Hgoto by (intros; by eapply elections_inv_goto).
  assert (∀ p el v, pc r ≠ Blocked → p ≠ Blocked → pc_agrees (MasterTracker.Set_ id v mt) id p →
    elections_inv (with_tracker (Some (MasterTracker.Set_ id v mt)) (with_runner id (mkRunner p el) w))) as Hset
    by (intros; by eapply elections_inv_set).
  assert (∀ p el p' w', goto id p (with_runner id (mkRunner p' el) w) = (o, w') →
    w' = with_runner id (mkRunner p el) w) as Eg.
  { intros p el p' w0. rewrite (goto_eq _ _ _ _ (lookup_with_runner _ _ _)), with_runner_twice. by intros [= _ <-]. }
  assert (∀ v p el p' w', (_ ← setMaster id v; goto id p) (with_runner id (mkRunner p' el) w) = (o, w') →
    w' = with_tracker (Some (MasterTracker.Set_ id v mt)) (with_runner id (mkRunner p el) w)) as Es.
  { intros v p el p' w0. rewrite (setMaster_goto id v p (with_runner id (mkRunner p' el) w) mt _ Et (lookup_with_runner _ _ _)), with_runner_twice.
    by intros [= _ <-]. }
  assert (∀ el p' w', pc r ≠ Blocked → shutdownRunner id (with_runner id (mkRunner p' el) w) = (o, w') →
    elections_inv w') as Hstop.
  { intros el p' w0 Hb H0. apply (after_call _ _ _ _ _ _ _ (lookup_with_runner _ _ _)) in H0 as (o1 & el1 & _ & H0); [|done].
    rewrite with_runner_twice in H0. apply Eg in H0 as ->. by apply Hgoto. }
  destruct (pc r) as [| |since| | |] eqn:Ep; rewrite ?Ep in Hpc; try by injection H as _ <-.
  - destruct (rand_Intn _ _) as [n| |]; [|unfold_M; congruence..].
    unfold mbind at 1, M_bind at 1, lift in H. destruct (cancelled env).
    { rewrite (goto_eq _ _ _ _ Hr) in H. injection H as _ <-. by apply Hgoto. }
    apply (after_call _ _ _ _ _ _ _ Hr) in H as (o0 & el & _ & H); [|done].
    destruct o0; apply Eg in H as ->; by apply Hgoto.
  - apply (after_call _ _ _ _ _ _ _ Hr) in H as (o0 & el & _ & H); [|done].
    destruct o0; [|by apply Hstop in H..]. apply Es in H as ->. apply Hset; [done..|].
    apply TrackerFacts.holds_Set. by rewrite decide_True.
  - destruct (cancelled env).
    { apply (after_call _ _ _ _ _ _ _ Hr) in H as (o0 & el & _ & H); [|done]. apply Eg in H as ->. by apply Hgoto. }
    apply (after_call _ _ _ _ _ _ _ Hr) in H as (o0 & el & Ho0 & H); [|done]. destruct o0 as [[]|e|]; [| | |done].
    + unfold mbind at 1, M_bind at 1, lift in H. destruct (ShouldResign _ _ _) as [[]|e|]; [| | |congruence].
      * apply Es in H as ->. apply Hset; [done..|]. cbn. rewrite TrackerFacts.holds_Set, decide_True by done. done.
      * injection H as _ <-. rewrite Ep. by apply Hgoto.
      * injection H as _ <-. rewrite Ep. by apply Hgoto.
    + apply Es in H as ->. by apply Hset.
    + apply Eg in H as ->. by apply Hgoto.
  - unfold queueResignation in H. erewrite mbind_step in H by reflexivity. case_match; [|by injection H as _ <-].
    erewrite mbind_step in H by reflexivity. rewrite (goto_eq id Blocked (with_pending _ w) r Hr) in H. injection H as _ <-.
    unfold with_runner, with_pending. cbn. rewrite Et. pose proof (not_pending w id r Hw Hr ltac:(by rewrite Ep)) as Hn.
    apply (elections_inv_move w mt id r); try done; [by apply Hw| | |].
    + apply NoDup_app. split; [apply Hw|]. split; [|apply NoDup_singleton]. intros x Hx ->%list_elem_of_singleton. done.
    + intros id' Hne. rewrite elem_of_app, list_elem_of_singleton. tauto.
    + rewrite elem_of_app, list_elem_of_singleton. tauto.
Qed.

Lemma errorless_callElection {A} id (m : M E A) : errorless (callElection id m).
Proof.
  intros w e. unfold callElection. unfold_M. destruct (electionRunner w !! id) as [r|]; [|done].
  by destruct (m (election r)) as [[] ?].
Qed.

Lemma errorless_goto id p : errorless (goto (E := E) id p).
Proof. done. Qed.
Lemma errorless_setMaster id v : errorless (setMaster (E := E) id v).
Proof. intros w e. unfold setMaster. unfold_M. by destruct (tracker w). Qed.

Lemma errorless_shutdown id : errorless (shutdownRunner id).
Proof. apply errorless_bind; [apply errorless_callElection|intros _; apply errorless_goto]. Qed.
#[local] Hint Resolve errorless_callElection errorless_goto errorless_setMaster errorless_shutdown : ctlog.

(** The steps of a runner report no errors: those of elections are dealt with. *)
Lemma runnerStep_errorless id env : errorless (runnerStep cfg id env).
Proof.
  unfold runnerStep. apply errorless_bind; [done|]. intros w.
  destruct (pc <$> electionRunner w !! id) as [[| |since| | |]|]; try done.
  - apply errorless_bind; [intros s e; unfold rand_Intn, lift; by case_match|intros _].
    case_match; [done|]. apply errorless_bind; [auto with ctlog|]. by intros [].
  - apply errorless_bind; [auto with ctlog|]. intros []; [|auto with ctlog..].
    apply errorless_bind; auto with ctlog.
  - case_match; [auto with ctlog|]. apply errorless_bind; [auto with ctlog|].
    intros [[]|e|]; auto with ctlog; apply errorless_bind; auto with ctlog.
    + intros s e. unfold lift, ShouldResign, rand_Intn. repeat case_match; try done.
    + intros []; [|done]. apply errorless_bind; auto with ctlog.
  - unfold queueResignation. apply errorless_bind; [done|]. intros w'. by case_match.
Qed.

Lemma nextResignation_inv w o w' :
  elections_inv w → nextResignation w = (o, w') → o ≠ Panic → elections_inv w'.
Proof.
  intros Hw H Ho. unfold nextResignation in H. erewrite mbind_step in H by reflexivity.
  destruct (pendingResignations w) as [|id ids] eqn:Ep; [by injection H as _ <-|].
  erewrite mbind_step in H by reflexivity. unfold Execute in H.
  pose proof (ei_pending _ Hw id) as Hid. rewrite Ep in Hid. destruct (electionRunner w !! id) as [r|] eqn:Hr;
    [|destruct Hid as [Hid _]; by specialize (Hid ltac:(by left))].
  destruct (elections_inv_tracker w id r Hw Hr) as [mt Et].
  assert (electionRunner (with_pending ids w) !! id = Some r) as Hr' by done.
  destruct (after_call _ _ _ _ _ _ _ Hr' H Ho) as (o0 & el & _ & H1). clear H.
  destruct (after_call _ _ _ _ _ _ _ (lookup_with_runner _ _ _) H1 Ho) as (o1 & el1 & _ & H2).
  rewrite with_runner_twice, (goto_eq _ _ _ _ (lookup_with_runner _ _ _)), with_runner_twice in H2. injection H2 as _ <-.
  unfold with_runner, with_pending. cbn. rewrite Et. pose proof (ei_nodup _ Hw) as Hnd. rewrite Ep in Hnd.
  apply NoDup_cons in Hnd as [Hn Hnd]. apply (elections_inv_move w mt id r); try done; [by apply Hw|].
  intros id' Hne. rewrite Ep, elem_of_cons. tauto.
Qed.

Lemma elections_step_inv P w w' : elections_step P w w' → elections_inv w → elections_inv w'.
Proof.
  intros [ids w0 Et|id el w0 Et Hr|id env w0 o w1 _ H Ho|w0 o w1 H Ho] Hw;
    [| |by eapply runnerStep_inv|by eapply nextResignation_inv].
  - pose proof (ei_none _ Hw Et) as Er.
    split; cbn; try done; [intros ? [= <-]; apply TrackerFacts.wf_New| | |apply Hw|apply Hw].
    + intros mt id r _. by rewrite Er.
    + intros mt id [= <-] Hh. exfalso. clear -Hh. unfold holds, MasterTracker.holds, MasterTracker.NewMasterTracker in Hh. cbn in Hh.
      assert (∀ ids (m : gmap bytes bool), m !! id ≠ Some true →
        fold_left (λ mf i, <[i:=false]> mf) ids m !! id ≠ Some true) as H; [|exact (H ids ∅ ltac:(by rewrite lookup_empty) Hh)].
      clear. induction ids as [|i ids IH]; intros m Hm; [done|]. apply IH. rewrite lookup_insert. by case_decide.
  - destruct (tracker w0) as [mt|] eqn:Emt; [|done].
    assert (¬ holds mt id) as Hn by (intros Hh; destruct (ei_held _ Hw mt id Emt Hh); congruence).
    destruct Hw as [H1 H2 H3 H4 H5 H6]. split; unfold with_runner; cbn; rewrite ?Emt; try done.
    + intros ? [= <-]. by apply H2.
    + intros ? id' r [= <-]. rewrite lookup_insert. case_decide; [by intros [= <-]; subst|]. by apply H3.
    + intros ? id' [= <-] Hh. rewrite lookup_insert. case_decide; [by eexists|]. by apply (H4 mt).
    + intros id'. rewrite lookup_insert. case_decide; [|by apply H6]. subst. rewrite H6, Hr. by split.
Qed.

Lemma elections_rtc_inv P w w' : rtc (elections_step P) w w' → elections_inv w → elections_inv w'.
Proof. induction 1; eauto using elections_step_inv. Qed.

Lemma noElections_inv : elections_inv noElections.
Proof.
  split; try done; [constructor|]. intros id. cbn. rewrite lookup_empty. split; [by intros ?%elem_of_nil|done].
Qed.

(** *** How a log comes to be held *)

Lemma tracker_call {A} id (m : M E A) tr :
  stable (λ w : Elections E, tracker w = tr) (callElection id m).
Proof.
  intros w Hw. unfold callElection. unfold_M. destruct (electionRunner w !! id) as [r|]; [|done].
  by destruct (m (election r)) as [[] ?].
Qed.

Lemma tracker_goto id p tr : stable (λ w : Elections E, tracker w = tr) (goto id p).
Proof. intros w Hw. unfold goto. unfold_M. cbn. by case_match. Qed.

Lemma tracker_shutdown id tr : stable (λ w : Elections E, tracker w = tr) (shutdownRunner id).
Proof. apply stable_bind; [apply tracker_call|intros _; apply tracker_goto]. Qed.

Lemma tracker_queue id tr : stable (λ w : Elections E, tracker w = tr) (queueResignation id).
Proof.
  intros w Hw. unfold queueResignation. erewrite mbind_step by reflexivity. case_match; [|done].
  erewrite mbind_step by reflexivity. by apply tracker_goto.
Qed.

Lemma tracker_kept {A} (m : M (Elections E) A) (w w1 : Elections E) o w' :
  (∀ tr, stable (λ w : Elections E, tracker w = tr) m) → m w1 = (o, w') → tracker w1 = tracker w →
  tracker w' = tracker w.
Proof. intros Hm H E1. specialize (Hm _ w1 E1). by rewrite H in Hm. Qed.

Lemma tracker_set id v p (w w1 : Elections E) o w' :
  tracker w1 = tracker w → (_ ← setMaster id v; goto id p) w1 = (o, w') → o ≠ Panic →
  ∃ mt, tracker w = Some mt ∧ tracker w' = Some (MasterTracker.Set_ id v mt).
Proof.
  intros E1 H Ho. unfold setMaster, get in H. unfold mbind, M_bind in H. rewrite E1 in H.
  destruct (tracker w) as [mt|]; [|by injection H as <- _]. exists mt. split; [done|].
  pose proof (tracker_goto id p _ (with_tracker (Some (MasterTracker.Set_ id v mt)) w1) eq_refl) as Hg.
  cbn in H. by rewrite H in Hg.
Qed.

(** The runner of [id] has waited for mastership and has been given it. *)
Definition given (id : bytes) (w : Elections E) : Prop :=
  ∃ r el, electionRunner w !! id = Some r ∧ pc r = Waiting ∧
    WaitForMastership (election r) = (Ok (), el).

(** A step of a runner leaves the tracker alone, or gives its log up, or is the
    one in which its wait for mastership ends. *)
Lemma runnerStep_tracker id env (w : Elections E) o w' :
  runnerStep cfg id env w = (o, w') → o ≠ Panic →
  tracker w' = tracker w ∨
  (∃ mt, tracker w = Some mt ∧ tracker w' = Some (MasterTracker.Set_ id false mt)) ∨
  given id w ∧ o = Ok ().
Proof.
  intros H Ho. unfold runnerStep in H. erewrite mbind_step in H by reflexivity.
  destruct (electionRunner w !! id) as [r|] eqn:Hr; cbn [fmap option_fmap option_map] in H;
    [|by injection H as _ <-; left].
  destruct (pc r) as [| |since| | |] eqn:Ep; try by injection H as _ <-; left.
  - left. refine (tracker_kept _ w w o w' (λ tr, _) H eq_refl). apply stable_bind.
    { intros w1 Hw1. unfold lift. by destruct (rand_Intn _ _). }
    intros _. case_match; [apply tracker_goto|]. apply stable_bind; [apply tracker_call|].
    intros []; apply tracker_goto.
  - destruct (WaitForMastership (election r)) as [o0 el] eqn:Em.
    unfold mbind at 1, M_bind at 1 in H. rewrite (callElection_eq _ _ _ _ _ _ Hr Em) in H.
    destruct o0 as [[]|e|]; cbn in H; [|left; by apply (tracker_kept _ w _ o w' (tracker_shutdown id) H)|congruence].
    right. right. split; [by exists r, el|]. destruct o as [[]|e|]; [done| |done].
    by edestruct (errorless_bind (setMaster id true) (λ _, goto id (Holding (env_now env)))
      (errorless_setMaster _ _) (λ _, errorless_goto _ _)); rewrite H.
  - destruct (cancelled env); [left; by apply (tracker_kept _ w w o w' (tracker_shutdown id) H)|].
    destruct (IsMaster (election r)) as [o0 el] eqn:Em.
    unfold mbind at 1, M_bind at 1 in H. rewrite (callElection_eq _ _ _ _ _ _ Hr Em) in H.
    destruct o0 as [[]|e|]; cbn in H; [| | |congruence].
    + unfold mbind at 1, M_bind at 1, lift in H. destruct (ShouldResign _ _ _) as [[]|e|]; [| | |congruence].
      * right. left. by eapply tracker_set; [|exact H|].
      * left. by injection H as _ <-.
      * left. by injection H as _ <-.
    + right. left. by eapply tracker_set; [|exact H|].
    + left. by apply (tracker_kept _ w _ o w' (tracker_goto id Waiting) H).
  - left. by apply (tracker_kept _ w w o w' (tracker_queue id) H).
Qed.

Lemma nextResignation_tracker (w : Elections E) o w' : nextResignation w = (o, w') → tracker w' = tracker w.
Proof.
  intros H. unfold nextResignation in H. erewrite mbind_step in H by reflexivity.
  destruct (pendingResignations w) as [|id ids]; [by injection H as _ <-|].
  erewrite mbind_step in H by reflexivity.
  assert (stable (λ w1 : Elections E, tracker w1 = tracker w) (Execute id)) as Hs.
  { apply stable_bind; [apply tracker_call|intros _]. apply stable_bind; [apply tracker_call|intros _].
    apply tracker_goto. }
  specialize (Hs (with_pending ids w) eq_refl). by rewrite H in Hs.
Qed.

Lemma holds_Set_false id mt i : holds (MasterTracker.Set_ id false mt) i → holds mt i.
Proof. rewrite TrackerFacts.holds_Set. by case_decide. Qed.

Lemma holds_Set_other id v mt i : i ≠ id → holds (MasterTracker.Set_ id v mt) i ↔ holds mt i.
Proof. intros Hne. by rewrite TrackerFacts.holds_Set, decide_False. Qed.

(** The step by which a log comes to be held. *)
Lemma newly_held P (w w' : Elections E) id :
  elections_inv w → elections_step P w w' → masters w' id →
  masters w id ∨ given id w ∧ ∃ env, P env ∧ runnerStep cfg id env w = (Ok (), w').
Proof.
  intros Hw Hs (mt' & Et' & Hh). pose proof (elections_step_inv P w w' Hs Hw) as Hw'.
  destruct Hs as [ids w Et|i el w Et Hr|i env w o w' HP H Ho|w o w' H Ho].
  - destruct (ei_held _ Hw' mt' id Et' Hh) as [r Hr']. cbn in Hr'. by rewrite (ei_none _ Hw Et) in Hr'.
  - left. by exists mt'.
  - destruct (runnerStep_tracker i env w o w' H Ho) as [E1|[(mt & E1 & E2)|[Hg ->]]].
    + left. exists mt'. by rewrite <-E1.
    + left. exists mt. split; [done|]. rewrite E2 in Et'. injection Et' as <-. by apply (holds_Set_false i).
    + destruct (decide (id = i)) as [->|Hne]; [by right; split; [|exists env]|left].
      destruct Hg as (r & el & Hr & Ep & Em). destruct (elections_inv_tracker w i r Hw Hr) as [mt Et].
      exists mt. split; [done|]. unfold runnerStep in H. erewrite mbind_step in H by reflexivity.
      rewrite Hr in H. cbn [fmap option_fmap option_map] in H. rewrite Ep in H.
      unfold mbind at 1, M_bind at 1 in H. rewrite (callElection_eq _ _ _ _ _ _ Hr Em) in H. cbn in H.
      rewrite (setMaster_goto i true (Holding (env_now env)) (with_runner _ _ w) mt _ Et
        (lookup_with_runner _ _ _)) in H.
      injection H as <-. cbn in Et'. injection Et' as <-. by apply (holds_Set_other i true).
  - left. exists mt'. by rewrite <-(nextResignation_tracker w o w' H).
Qed.

(** [id] has been held since its runner was given mastership. *)
Definition won (P : RunnerEnv → Prop) (id : bytes) (w : Elections E) : Prop :=
  ∃ w1 env w2, rtc (elections_step P) noElections w1 ∧ given id w1 ∧ P env ∧
    runnerStep cfg id env w1 = (Ok (), w2) ∧
    rtc (λ x y, elections_step P x y ∧ masters x id ∧ masters y id) w2 w.

Lemma masters_won P w id : rtc (elections_step P) noElections w → masters w id → won P id w.
Proof.
  intros Hr. pattern w. eapply rtc_ind_r; [| |exact Hr]; clear w Hr.
  { intros (mt & Et & _). done. }
  intros w w' Hr Hs IH Hm'. pose proof (elections_rtc_inv P _ _ Hr noElections_inv) as Hw.
  destruct (newly_held P w w' id Hw Hs Hm') as [Hm|(Hg & env & HP & Hstep)].
  - destruct (IH Hm) as (w1 & env & w2 & H1 & H2 & H3 & H4 & H5). exists w1, env, w2.
    split_and!; try done. eapply rtc_r; [exact H5|done].
  - exists w, env, w'. by split_and!.
Qed.

(** C15. Runners, the tracker and the main loop, whatever elections answer and
    however their steps interleave: the count of the tracker is the number of
    logs that are held; a log that is held has a runner, which waited for
    mastership, was given it by the election, and has held the log in every state
    since then; and the resignations in the channel are those of distinct
    runners that wait for them, whose logs are not held, so that no pass works
    on a log while its resignation is executed. *)
Theorem masters_reachable P w :
  rtc (elections_step P) noElections w →
  (∀ mt, tracker w = Some mt → MasterTracker.wf mt) ∧
  (∀ id, masters w id → won P id w ∧
     ∃ r, electionRunner w !! id = Some r ∧
       (pc r = Waiting ∨ (∃ since, pc r = Holding since) ∨ pc r = Stopped)) ∧
  NoDup (pendingResignations w) ∧
  ∀ id, id ∈ pendingResignations w →
    pc <$> electionRunner w !! id = Some Blocked ∧
    ∀ mt, tracker w = Some mt → ¬ holds mt id.
Proof.
  intros Hr. pose proof (λ id, masters_won P w id Hr) as Hwon.
  pose proof (elections_rtc_inv P _ _ Hr noElections_inv) as Hw.
  split; [apply Hw|]. split; [|split; [apply Hw|]].
  - intros id Hm. split; [by apply Hwon|]. destruct Hm as (mt & Et & Hh).
    destruct (ei_held _ Hw mt id Et Hh) as [r Er]. exists r. split; [done|].
    pose proof (ei_pc _ Hw mt id r Et Er) as Hp. destruct (pc r) as [| |since| | |]; try done; eauto.
  - intros id Hid. apply (ei_pending _ Hw) in Hid as Hb. split; [done|]. intros mt Et.
    destruct (electionRunner w !! id) as [r|] eqn:Er; [|done]. pose proof (ei_pc _ Hw mt id r Et Er) as Hp.
    injection Hb as E0. by rewrite E0 in Hp.
Qed.
End reachable.

(** A runner that waits for its resignation to be executed goes on only then: not
    when its context is cancelled. *)
Lemma runnerStep_blocked {E} `{!MasterElection E} cfg id env (w : Elections E) r :
  electionRunner w !! id = Some r → pc r = Blocked → runnerStep cfg id env w = (Ok (), w).
Proof. intros Hr Hp. unfold runnerStep. erewrite mbind_step by reflexivity. rewrite Hr. cbn. by rewrite Hp. Qed.

Lemma fixupRunnerConfig_positive cfg :
  (0 < PreElectionPause (fixupRunnerConfig cfg))%Z ∧ (0 < ResignOdds (fixupRunnerConfig cfg))%Z.
Proof.
  unfold fixupRunnerConfig, MinPreElectionPause. cbn [PreElectionPause ResignOdds].
  destruct (Z.ltb_spec (PreElectionPause cfg) 10000000), (Z.ltb_spec (ResignOdds cfg) 1); lia.
Qed.

(** *** Elections that every runner wins *)

(** What other goroutines do between two steps of the main loop: runners take
    steps, in the order given. *)
Definition runRunners {E} `{!MasterElection E} (cfg : RunnerConfig) (evs : list (bytes * RunnerEnv))
    : M (Elections E) unit :=
  mfold (λ _ '(id, env), runnerStep cfg id env) () evs.

Lemma runRunners_errorless {E} `{!MasterElection E} cfg evs : errorless (runRunners (E := E) cfg evs).
Proof.
  unfold runRunners. induction evs as [|[id env] evs IH]; [done|]. cbn [mfold].
  apply errorless_bind; [apply runnerStep_errorless|intros []; exact IH].
Qed.

Lemma runRunners_steps {E} `{!MasterElection E} cfg (P : RunnerEnv → Prop) evs : ∀ (w : Elections E) o w',
  runRunners cfg evs w = (o, w') → o ≠ Panic → Forall (P ∘ snd) evs → rtc (elections_step cfg P) w w'.
Proof.
  induction evs as [|[id env] evs IH]; intros w o w' H Ho Hevs; [by injection H as _ <-|].
  apply Forall_cons in Hevs as [Henv Hevs]. unfold runRunners in H. cbn [mfold] in H.
  destruct (runnerStep cfg id env w) as [[[]|e|] w1] eqn:E1; unfold mbind, M_bind in H; rewrite E1 in H.
  - eapply rtc_l; [by eapply es_runner|]. by apply (IH w1 o w').
  - injection H as <- <-. apply rtc_once. by eapply es_runner.
  - by injection H as <- _.
Qed.

(** Runners are not cancelled, and the clock is short of the year 2262, when
    nanoseconds since 1970 are too many for an int64. *)
Definition steady (env : RunnerEnv) : Prop := cancelled env = false ∧ (0 ≤ env_now env < 2 ^ 63 - 1)%Z.

Section noop.
Context (cfg : RunnerConfig).
Context (Hpause : (0 < PreElectionPause cfg)%Z) (Hhold : MasterHoldInterval cfg = (2 ^ 63 - 1)%Z).
Abbreviation Elections := (Elections NoopElection).

(** Steps to take before the log is held. *)
Definition rank (p : runnerPC) : nat :=
  match p with Pausing => 2 | Waiting => 1 | _ => 0 end.

Definition onTheWay (p : runnerPC) : Prop :=
  match p with
  | Pausing | Waiting => True
  | Holding since => (0 ≤ since)%Z
  | _ => False
  end.

(** No runner has stopped or resigned. *)
Record undisputed (w : Elections) : Prop := {
  un_inv : elections_inv w;
  un_pending : pendingResignations w = [];
  un_pc : ∀ id r, electionRunner w !! id = Some r → onTheWay (pc r)
}.

(** The same runners are there, and no log is given up. *)
Record onward (w w' : Elections) : Prop := {
  on_tracker : tracker w' = None ↔ tracker w = None;
  on_runners : ∀ id, is_Some (electionRunner w' !! id) ↔ is_Some (electionRunner w !! id);
  on_masters : ∀ id, masters w id → masters w' id
}.

#[global] Instance onward_preorder : PreOrder onward.
Proof.
  split; [by split|]. intros w1 w2 w3 [H1 H2 H3] [H4 H5 H6]. split; [by rewrite H4| |naive_solver].
  intros id. by rewrite H5.
Qed.

Lemma ShouldResign_never since env : (0 ≤ since)%Z → steady env → ShouldResign cfg since env = Ok false.
Proof.
  intros Hs [_ Hn]. unfold ShouldResign, time_Sub. rewrite Hhold.
  destruct (Z.ltb_spec (Z.max (- 2 ^ 63) (Z.min (2 ^ 63 - 1) (env_now env - since))) (2 ^ 63 - 1)); [done|lia].
Qed.

Lemma runnerStep_noop id env (w : Elections) r mt :
  electionRunner w !! id = Some r → tracker w = Some mt → steady env → onTheWay (pc r) →
  runnerStep cfg id env w = (Ok (),
    match pc r with
    | Pausing => with_runner id (mkRunner Waiting (election r)) w
    | Waiting => with_tracker (Some (MasterTracker.Set_ id true mt))
                   (with_runner id (mkRunner (Holding (env_now env)) (election r)) w)
    | _ => w
    end).
Proof.
  intros Hr Et Henv Hp. pose proof Henv as [Hc _]. unfold runnerStep. erewrite mbind_step by reflexivity.
  rewrite Hr. cbn [fmap option_fmap option_map]. destruct r as [p el]. cbn [pc election] in *.
  destruct p as [| |since| | |]; try done; rewrite ?Hc.
  - unfold rand_Intn. destruct (Z.leb_spec (PreElectionPause cfg) 0); [lia|]. erewrite mbind_step by reflexivity.
    erewrite mbind_step by (eapply callElection_Ok; [exact Hr|reflexivity]). cbv beta iota. by rewrite (goto_eq _ _ _ _ (lookup_with_runner _ _ _)), with_runner_twice.
  - erewrite mbind_step by (eapply callElection_Ok; [exact Hr|reflexivity]). cbv beta iota.
    rewrite (setMaster_goto _ _ _ (with_runner _ _ w) mt _ Et (lookup_with_runner _ _ _)). by rewrite with_runner_twice.
  - erewrite mbind_step by (eapply callElection_Ok; [exact Hr|reflexivity]). cbv beta iota. rewrite ShouldResign_never by done.
    erewrite mbind_step by reflexivity. unfold with_runner. cbn. rewrite insert_id by done. by destruct w.
Qed.

Lemma masters_holds (w : Elections) mt id : tracker w = Some mt → masters w id ↔ holds mt id.
Proof. intros Et. unfold masters. rewrite Et. naive_solver. Qed.

Lemma runnerStep_onward id env w :
  undisputed w → steady env →
  ∃ w', runnerStep cfg id env w = (Ok (), w') ∧ undisputed w' ∧ onward w w' ∧
    ∀ i r, electionRunner w !! i = Some r → ∃ r', electionRunner w' !! i = Some r' ∧
      rank (pc r') ≤ rank (pc r) - (if decide (i = id) then 1 else 0).
Proof.
  intros Hw Henv. destruct (electionRunner w !! id) as [r|] eqn:Hr.
  2:{ exists w. split; [unfold runnerStep; erewrite mbind_step by reflexivity; by rewrite Hr|].
      split; [done|]. split; [done|]. intros i r Hi. exists r. split; [done|]. case_decide; [congruence|lia]. }
  destruct (elections_inv_tracker w id r (un_inv _ Hw) Hr) as [mt Et].
  pose proof (un_pc _ Hw id r Hr) as Hp. pose proof (runnerStep_noop id env w r mt Hr Et Henv Hp) as Hstep.
  eexists. split; [exact Hstep|]. pose proof (runnerStep_inv cfg id env w _ _ (un_inv _ Hw) Hstep ltac:(done)) as Hinv.
  assert (∀ p w', (∀ i, electionRunner w' !! i = if decide (i = id) then Some (mkRunner p (election r)) else electionRunner w !! i) →
    elections_inv w' → pendingResignations w' = [] → (tracker w' = None ↔ tracker w = None) →
    (∀ i, masters w i → masters w' i) → onTheWay p → rank p ≤ rank (pc r) - 1 →
    undisputed w' ∧ onward w w' ∧ ∀ i r, electionRunner w !! i = Some r → ∃ r', electionRunner w' !! i = Some r' ∧
      rank (pc r') ≤ rank (pc r) - (if decide (i = id) then 1 else 0)) as Hmove.
  { clear Hstep Hinv. intros p w' Hl Hi Hps Ht Hm Hp' Hrank. split; [split; [done|done|]|split; [split; [done| |done]|]].
    - intros i r'. rewrite Hl. case_decide; [by intros [= <-]|apply (un_pc _ Hw)].
    - intros i. rewrite Hl. case_decide; [subst; rewrite Hr|]; split; done || by eexists.
    - intros i r' Hi'. rewrite Hl. case_decide; [subst|by exists r'; split; [|lia]].
      eexists. split; [done|]. cbn. rewrite Hr in Hi'. by injection Hi' as <-. }
  destruct r as [p el]. cbn [pc election] in *. destruct p as [| |since| | |]; try done.
  - apply (Hmove Waiting); try done; [|apply Hw]. intros i. cbn. rewrite lookup_insert.
    repeat case_decide; congruence.
  - apply (Hmove (Holding (env_now env))); try done; [|apply Hw|by cbn; rewrite Et| |apply Henv].
    + intros i. cbn. rewrite lookup_insert. repeat case_decide; congruence.
    + intros i Hm. eexists. split; [done|]. apply TrackerFacts.holds_Set. case_decide; [done|].
      by apply (masters_holds w mt).
  - apply (Hmove (Holding since)); try done; [|apply Hw]. intros i. case_decide; congruence.
Qed.

(** After two steps of its runner, whatever other runners do in between, a log is
    held, and stays so. *)
Lemma runRunners_onward evs : ∀ w,
  undisputed w → Forall (steady ∘ snd) evs →
  ∃ w', runRunners cfg evs w = (Ok (), w') ∧ undisputed w' ∧ onward w w' ∧
    ∀ i r, electionRunner w !! i = Some r → ∃ r', electionRunner w' !! i = Some r' ∧
      rank (pc r') ≤ rank (pc r) - length (filter (λ e, e.1 = i) evs).
Proof.
  induction evs as [|[id env] evs IH]; intros w Hw Hevs.
  { exists w. split_and!; try done. intros i r Hr. exists r. split; [done|]. cbn. lia. }
  apply Forall_cons in Hevs as [Henv Hevs]. cbn in Henv.
  destruct (runnerStep_onward id env w Hw Henv) as (w1 & E1 & Hw1 & Ho1 & Hr1).
  destruct (IH w1 Hw1 Hevs) as (w2 & E2 & Hw2 & Ho2 & Hr2). exists w2.
  split; [unfold runRunners; cbn [mfold]; by erewrite mbind_step by exact E1|].
  split; [done|]. split; [by etrans|]. intros i r Hr. destruct (Hr1 i r Hr) as (r1 & Hr1' & Hle1).
  destruct (Hr2 i r1 Hr1') as (r2 & Hr2' & Hle2). exists r2. split; [done|].
  rewrite filter_cons. cbn [fst]. repeat case_decide; subst; cbn [length] in *; congruence || lia.
Qed.

Lemma rank_masters w id r :
  undisputed w → electionRunner w !! id = Some r → rank (pc r) = 0 → masters w id.
Proof.
  intros Hw Hr Hrank. destruct (elections_inv_tracker w id r (un_inv _ Hw) Hr) as [mt Et]. exists mt.
  split; [done|]. pose proof (ei_pc _ (un_inv _ Hw) mt id r Et Hr). pose proof (un_pc _ Hw id r Hr).
  by destruct (pc r).
Qed.
(** Steps of the runner of [id] before its log is held; a runner that is not
    there yet has two before it. *)
Definition stepsLeft (w : Elections) (id : bytes) : nat :=
  match electionRunner w !! id with Some r => rank (pc r) | None => 2 end.

(** The steps of a runner among those of all. *)
Definition stepsOf (id : bytes) (evs : list (bytes * RunnerEnv)) : nat :=
  length (filter (λ e, e.1 = id) evs).

Lemma stepsLeft_masters w id : undisputed w → stepsLeft w id = 0 → masters w id.
Proof.
  unfold stepsLeft. intros Hw. destruct (electionRunner w !! id) as [r|] eqn:Hr; [|done].
  by apply rank_masters.
Qed.

Lemma stepsLeft_run w w' id n :
  is_Some (electionRunner w !! id) →
  (∀ r, electionRunner w !! id = Some r → ∃ r', electionRunner w' !! id = Some r' ∧
     rank (pc r') ≤ rank (pc r) - n) →
  stepsLeft w' id ≤ stepsLeft w id - n ∧ is_Some (electionRunner w' !! id).
Proof.
  intros [r Hr] H. destruct (H r Hr) as (r' & Hr' & Hle). unfold stepsLeft. rewrite Hr, Hr'. by eauto.
Qed.
End noop.

(** *** Runners that are cancelled *)

Section cancel.
Context (cfg : RunnerConfig) (Hpause : (0 < PreElectionPause cfg)%Z).
Abbreviation Elections := (Elections NoopElection).

(** Steps to take before a cancelled runner returns. *)
Definition stopRank (p : runnerPC) : nat :=
  match p with Waiting => 2 | Stopped => 0 | _ => 1 end.

(** A runner that does not wait for its resignation to be executed. *)
Definition stoppable (p : runnerPC) : Prop :=
  match p with Resigning | Blocked => False | _ => True end.

Lemma runnerStep_cancelled id env (w : Elections) r mt :
  electionRunner w !! id = Some r → tracker w = Some mt → cancelled env = true → stoppable (pc r) →
  ∃ r' w', runnerStep cfg id env w = (Ok (), w') ∧ electionRunner w' = <[id := r']> (electionRunner w) ∧
    stoppable (pc r') ∧ stopRank (pc r') ≤ stopRank (pc r) - 1.
Proof.
  intros Hr Et Hc Hp. unfold runnerStep. erewrite mbind_step by reflexivity. rewrite Hr.
  cbn [fmap option_fmap option_map]. destruct r as [p el]. cbn [pc election] in *.
  destruct p as [| |since| | |]; try done; rewrite ?Hc.
  - unfold rand_Intn. destruct (Z.leb_spec (PreElectionPause cfg) 0); [lia|]. erewrite mbind_step by reflexivity.
    rewrite (goto_eq _ _ _ _ Hr). eexists _, _. split; [reflexivity|]. split; [done|]. by cbn.
  - erewrite mbind_step by (eapply callElection_Ok; [exact Hr|reflexivity]). cbv beta iota.
    rewrite (setMaster_goto _ _ _ (with_runner _ _ w) mt _ Et (lookup_with_runner _ _ _)), with_runner_twice.
    eexists _, _. split; [reflexivity|]. split; [done|]. by cbn.
  - unfold shutdownRunner. erewrite mbind_step by (eapply callElection_Ok; [exact Hr|reflexivity]).
    rewrite (goto_eq _ _ _ _ (lookup_with_runner _ _ _)), with_runner_twice. eexists _, _. split; [reflexivity|].
    split; [done|]. cbn. split; [done|lia].
  - eexists _, w. split; [done|]. split; [by rewrite insert_id|done].
Qed.

(** After two steps of its own, whatever the others do, a cancelled runner has
    returned. *)
Lemma runRunners_stop evs : ∀ (w : Elections),
  elections_inv w → (∀ id r, electionRunner w !! id = Some r → stoppable (pc r)) →
  Forall (λ e, cancelled e.2 = true) evs →
  ∃ w', runRunners cfg evs w = (Ok (), w') ∧
    ∀ id r', electionRunner w' !! id = Some r' → ∃ r, electionRunner w !! id = Some r ∧
      stoppable (pc r') ∧ stopRank (pc r') ≤ stopRank (pc r) - length (filter (λ e, e.1 = id) evs).
Proof.
  induction evs as [|[id env] evs IH]; intros w Hw Hp Hevs.
  { exists w. split; [done|]. intros id r Hr. exists r. split_and!; [done|by eapply Hp|cbn; lia]. }
  apply Forall_cons in Hevs as [Hc Hevs]. cbn in Hc. unfold runRunners. cbn [mfold].
  destruct (electionRunner w !! id) as [r|] eqn:Hr.
  - destruct (elections_inv_tracker w id r Hw Hr) as [mt Et].
    destruct (runnerStep_cancelled id env w r mt Hr Et Hc (Hp _ _ Hr)) as (r1 & w1 & E1 & Er1 & Hp1 & Hrank).
    destruct (IH w1) as (w2 & E2 & H2); [by eapply runnerStep_inv| |done|].
    { intros i ri. rewrite Er1, lookup_insert. case_decide; [by intros [= <-]|apply Hp]. }
    exists w2. split; [by erewrite mbind_step by exact E1|]. intros i r2 Hr2.
    destruct (H2 i r2 Hr2) as (ri & Hri & Hp2 & Hle). rewrite Er1, lookup_insert in Hri. rewrite filter_cons.
    cbn [fst]. destruct (decide (id = i)) as [->|Hne].
    + injection Hri as <-. exists r. split; [done|]. split; [done|]. cbn [length]. lia.
    + by exists ri.
  - assert (runnerStep cfg id env w = (Ok (), w)) as E1
      by (unfold runnerStep; erewrite mbind_step by reflexivity; by rewrite Hr).
    destruct (IH w Hw Hp Hevs) as (w2 & E2 & H2). exists w2. split; [by erewrite mbind_step by exact E1|].
    intros i r2 Hr2. destruct (H2 i r2 Hr2) as (ri & Hri & Hp2 & Hle). exists ri. split; [done|]. split; [done|].
    rewrite filter_cons. cbn [fst]. by rewrite decide_False by congruence.
Qed.
End cancel.

(** ** Witnesses *)

Section witnesses.
Definition oneID : bytes := [Byte.x31].
Definition churn : RunnerConfig := fixupRunnerConfig (mkRunnerConfig 0 0 0 1).
Definition envAt (now : Z) : RunnerEnv := mkRunnerEnv false now 0.

(** A runner that became the master and resigned once it might. *)
Definition resigned : Elections NoopElection :=
  snd (runRunners churn ((λ now, (oneID, envAt now)) <$> [0; 0; 1000000000; 20000000000; 20000000000]%Z)
    (with_runner oneID (mkRunner Pausing (mkNoop oneID oneID))
       (with_tracker (Some (MasterTracker.NewMasterTracker [oneID])) noElections))).

Lemma masters_reachable_witness :
  pendingResignations resigned = [oneID] ∧
  ∀ mt, tracker resigned = Some mt → ¬ holds mt oneID.
Proof.
  split; [vm_compute; reflexivity|].
  destruct (masters_reachable churn (λ _, True) resigned) as (_ & _ & _ & H).
  - eapply rtc_l; [by apply (es_tracker _ _ [oneID])|].
    eapply rtc_l; [by apply (es_start _ _ oneID (mkNoop oneID oneID))|].
    eapply runRunners_steps; [apply surjective_pairing|by vm_compute|]. repeat constructor.
  - intros mt. apply H. vm_compute. by left.
Defined.
End witnesses.
