(* ===== verification/Isolation.v ===== *)
(** * What a batch touches

    Whatever happens to a batch of the sequencer ([Sequencer]), calls of the disk
    or the network that fail, forged answers, stored rows that do not decode, it
    changes nothing of other logs: neither their rows nor their objects in the
    bucket.  The file follows every operation of a run for the rows of other trees
    in the batch and for the bucket. *)

From S2P Require Import Prelude Keys Trillian Frontier Fsm LevelDB Local Remote Cache Compact.
From S2P Require Import Nodes SubtreeCache Config ReadTx TreeTx LogStorage Quota Rpc Server Sequencer.

Section isolation.
Context (Sum256 : bytes → bytes).
Context `{!Codec LogLeaf, !Codec SubtreeProto, !Codec Frontier, !Codec (list LogLeaf)}.
Context `{!MapRange bytes, !MapRange Z}.
Context (t : Z) (Ht : int64 t) (O : gmap bytes bytes).

(** A transaction of [t] whose batch has no rows of other trees, while the objects
    of other logs are those of [O]. *)
Definition own (w : System * logTreeTX) : Prop :=
  treeID (rolt w.2) = t ∧ writes (isForeignKey t) [] (localTx w.2) ∧ elsewhere t O (remote w.1).

Lemma own_onFsm {A} (x : M fsm A) : stable own (onFsm x).
Proof. intros w Hw. unfold onFsm, zoom. by destruct (x (tx_fsm w.2)). Qed.

Lemma own_onRead {A} (x : ReadM A) :
  (∀ i, stable (λ p : System * readOnlyLogTreeTX, identity p.2 = i) x) →
  stable (λ p : System * readOnlyLogTreeTX, elsewhere t O (remote p.1)) x → stable own (onRead x).
Proof.
  intros Hi Hr w (H1 & H2 & H3). unfold onRead, zoom.
  specialize (Hi (identity (rolt w.2)) (w.1, rolt w.2) eq_refl). specialize (Hr (w.1, rolt w.2) H3).
  destruct (x (w.1, rolt w.2)) as [o [s' tx']]. cbn [fst snd] in *. injection Hi as Et _. by split; cbn; [congruence|].
Qed.

Lemma own_subtrees {A} (x : M (SubtreeCache * DB) A) : stable own (onRead (onSubtrees x)).
Proof.
  apply own_onRead; [intros i; apply frame_onSubtrees|]. intros p Hp. unfold onSubtrees, zoom.
  by destruct (x (subtreeCache p.2, local p.1)).
Qed.

Lemma own_batch (x : M LocalTx unit) :
  stable (writes (isForeignKey t) []) x → stable own (onTx x).
Proof. intros Hx w (H1 & H2 & H3). unfold onTx, zoom. specialize (Hx _ H2). by destruct (x (localTx w.2)). Qed.

Lemma own_get {A} (k : System * logTreeTX → TxM A) :
  (∀ w, treeID (rolt w.2) = t → stable own (k w)) → stable own (w ← get; k w).
Proof. intros Hk w Hw. erewrite mbind_step by reflexivity. apply Hk; [apply Hw|done]. Qed.

Lemma own_Dequeue limit cutoff : stable own (DequeueLeaves limit cutoff).
Proof.
  unfold DequeueLeaves. apply stable_bind; [apply own_onFsm|intros _]. apply own_get. intros w0 -> w (H1 & H2 & H3).
  unfold onDBTx, zoom.
  pose proof (DequeueLeaves_writes (isForeignKey t) [] t (TreeSize (root (rolt w0.2))) cutoff limit
    (local w.1, localTx w.2) (λ m, queue_range_own m t cutoff) H2) as Hw.
  by destruct (Local.DequeueLeaves _ _ _ _ _) as [o [d ltx]].
Qed.

Lemma own_Update leaves : stable own (UpdateSequencedLeaves Sum256 leaves).
Proof.
  unfold UpdateSequencedLeaves. apply stable_bind; [apply own_onFsm|intros _]. apply own_get. intros w0 ->.
  apply stable_bind.
  - intros w (H1 & H2 & H3). unfold onSystem, sysRemote, zoom.
    pose proof (stable_Remote_PutLeaves t O leaves Ht _ H3) as Hp. by destruct (Remote.PutLeaves _ _ _).
  - intros _. apply stable_bind; [by apply stable_modify|intros _]. apply own_batch, stable_PutLeaves. apply _.
Qed.

Lemma own_SetNodes nodes : stable own (SetMerkleNodes Sum256 nodes).
Proof.
  unfold SetMerkleNodes. apply stable_bind; [apply own_onFsm|intros _]. apply stable_mfold. intros _ n.
  apply stable_bind; [apply stable_get|intros w]. apply own_subtrees.
Qed.

Lemma own_StoreRoot r : stable own (StoreSignedLogRoot Sum256 r).
Proof.
  unfold StoreSignedLogRoot. apply stable_bind; [apply own_onFsm|intros _]. apply own_get. intros w ->.
  case_match; [apply stable_fail|]. apply own_batch. intros tx Htx. by apply StoreRoot_other; [apply isForeignKey_root|].
Qed.

Lemma own_initMerkleTree r : stable own (initMerkleTreeFromStorage Sum256 r).
Proof.
  unfold initMerkleTreeFromStorage, buildMerkleTreeFromStorageAtRoot.
  case_match; [apply stable_ret|]. apply stable_NewTreeWithState. intros d i. unfold fetchNode.
  apply stable_bind; [apply stable_lift|intros id]. apply stable_bind.
  - apply own_onRead; [intros j; apply frame_GetMerkleNodes|]. unfold GetMerkleNodes. apply stable_bind; [apply stable_get|].
    intros w p Hp. unfold onSubtrees, zoom. by destruct (GetNodes _ _ _ _).
  - intros ns. destruct ns as [|? []]; apply stable_ret || apply stable_fail.
Qed.

(** ** A run *)

(** What every operation of a run keeps, the run keeps. *)
Lemma stable_integrate (P : System * logTreeTX → Prop) clk tree sign limit guard maxDuration :
  stable P (onRead LatestSignedLogRoot) → (∀ l c, stable P (DequeueLeaves l c)) →
  (∀ r, stable P (initMerkleTreeFromStorage Sum256 r)) →
  (∀ ls, stable P (UpdateSequencedLeaves Sum256 ls)) → (∀ ns, stable P (SetMerkleNodes Sum256 ns)) →
  (∀ r, stable P (StoreSignedLogRoot Sum256 r)) →
  stable P (integrate Sum256 clk tree sign limit guard maxDuration).
Proof.
  intros Hroot Hdeq Hinit Hupd Hset Hstore. unfold integrate.
  apply stable_bind; [exact Hroot|intros sth]. apply stable_bind; [apply stable_lift|intros r].
  apply stable_bind.
  { unfold fetch. destruct (tree_TreeType tree); [apply stable_fail| |apply stable_fail|apply Hdeq].
    apply stable_bind; [apply Hdeq|intros ?; apply stable_ret]. }
  intros leaves. case_match; [apply stable_ret|]. apply stable_bind; [apply Hinit|intros mt].
  apply stable_bind; [apply stable_bind; [apply stable_get|intros ?; apply stable_ret]|intros nv].
  case_match; [apply stable_fail|]. apply stable_bind; [apply stable_lift|intros [ls [mt' nm]]].
  unfold storeBatch. apply stable_bind.
  { unfold update. destruct (tree_TreeType tree); apply stable_ret || apply Hupd. }
  intros _. apply stable_bind; [apply Hset|intros _]. cbv zeta. case_match; [apply stable_fail|].
  apply stable_bind; [apply stable_lift|intros slr]. apply Hstore.
Qed.

(** Until it is committed, a run leaves the rows alone. *)
Lemma integrate_rows Q clk tree sign limit guard maxDuration :
  stable (λ w : System * logTreeTX, Q (kv (local w.1))) (integrate Sum256 clk tree sign limit guard maxDuration).
Proof.
  apply stable_integrate.
  - apply stable_onRead, stable_bind; [apply stable_get|intros ?; apply stable_ret].
  - intros l c. apply stable_DequeueLeaves.
  - intros r. unfold initMerkleTreeFromStorage, buildMerkleTreeFromStorageAtRoot.
    case_match; [apply stable_ret|]. apply stable_NewTreeWithState. intros d i. unfold fetchNode.
    apply stable_bind; [apply stable_lift|intros id]. apply stable_bind; [apply stable_onRead, stable_GetMerkleNodes|].
    intros ns. destruct ns as [|? []]; apply stable_ret || apply stable_fail.
  - intros ls. apply stable_UpdateSequencedLeaves.
  - intros ns. apply stable_SetMerkleNodes.
  - intros r. apply stable_StoreSignedLogRoot.
Qed.

Lemma integrate_own clk tree sign limit guard maxDuration :
  stable own (integrate Sum256 clk tree sign limit guard maxDuration).
Proof.
  apply stable_integrate; intros; auto using own_Dequeue, own_initMerkleTree, own_Update, own_SetNodes, own_StoreRoot.
  apply own_onRead; [intros i|]; (apply stable_bind; [apply stable_get|intros ?; apply stable_ret]).
Qed.

(** A commit writes the batch, which has rows of this tree only. *)
Lemma own_Commit w o w' :
  own w → Commit w = (o, w') →
  (∀ k, isForeignKey t k = true → kv (local w'.1) !! k = kv (local w.1) !! k) ∧
  elsewhere t O (remote w'.1).
Proof.
  intros Hw H. unfold Commit in H. destruct w as [s tx]. unfold mbind at 1, M_bind at 1 in H.
  pose proof (own_onFsm (emit sCommit) (s, tx) Hw) as Hw1. unfold onFsm, zoom in H, Hw1. cbn [fst snd] in H, Hw1.
  destruct (emit sCommit (tx_fsm tx)) as [[[]|e|] m']; [|by injection H as <- <-; split; [|apply Hw]..].
  cbn [snd] in Hw1. clear Hw. destruct Hw1 as (H1 & H2 & H3).
  erewrite mbind_step in H by reflexivity. cbn [fst snd queuedLeaves localTx rolt] in *.
  destruct (queuedLeaves tx); [by injection H as <- <-|].
  unfold mbind at 1, M_bind at 1 in H. unfold onCacheTx, zoom in H. cbn [fst snd rolt localTx] in H.
  assert (writes (isForeignKey t) [] (Flush prepareLogSubtreeWrite (storeSubtrees (rolt tx))
    (subtreeCache (rolt tx), localTx tx)).2.2) as Hb.
  { assert (SkipsSubtrees (treeID (rolt tx)) (isForeignKey t)) by (rewrite H1; apply _).
    by apply (stable_Flush (writes (isForeignKey t) []) prepareLogSubtreeWrite (storeSubtrees (rolt tx)) (stable_storeSubtrees _ [])). }
  destruct (Flush _ _ _) as [[[]|e|] [sc ltx]]; cbn [fst snd] in *; [|by injection H as <- <-..].
  unfold mbind, M_bind, onDBTx, zoom in H. cbn [fst snd localTx] in H.
  destruct (Local.Commit (local s, ltx)) as [o1 [d2 ltx2]] eqn:Ec. apply Commit_spec in Ec. cbn [fst snd] in Ec.
  assert (∀ k, isForeignKey t k = true → kv d2 !! k = kv (local s) !! k) as Hk.
  { destruct Ec as [(_ & -> & _)|(_ & -> & _)]; [|done]. destruct Hb as (b & -> & E). intros k Hk.
    cbn [default from_option id]. by rewrite (apply_batch_rowOps (isForeignKey t)), E. }
  destruct o1 as [[]|e|]; injection H as <- <-; done.
Qed.
End isolation.

(** ** Batches and passes *)

Section passes.
Context (Sum256 : bytes → bytes).
Context `{!Codec LogLeaf, !Codec SubtreeProto, !Codec Frontier, !Codec (list LogLeaf)}.
Context `{!MapRange bytes, !MapRange Z}.

Lemma beginForTree_own t s o s1 :
  beginForTree t s = (o, s1) →
  kv (local s1) = kv (local s) ∧ remote s1 = remote s ∧ ∀ ltx, o = Ok ltx → own t (objects (remote s)) (s1, ltx).
Proof.
  unfold beginForTree. rewrite NewLogSubtreeCache_Ok. erewrite mbind_step by reflexivity. intros H.
  pose proof (stable_MostRecentRoot (λ m, m = kv (local s)) t (local s) eq_refl) as Hkv.
  unfold mbind, M_bind, try, sysLocal, zoom in H. cbn [fst snd] in H.
  destruct (MostRecentRoot t (local s)) as [[[r f]|e|] d]; cbn [snd] in *; [|destruct e|];
    injection H as <- <-; (split; [done|split; [done|]]); try done; intros ltx [= <-]; (split; [done|]);
    (split; [by exists []|done]).
Qed.

Lemma Rollback_system w : (Rollback w).2.1 = w.1.
Proof. unfold Rollback, onFsm, setClosed, zoom. unfold_M. by destruct (emit sRollback (tx_fsm w.2)) as [[[]|e|] m]. Qed.

(** A batch touches its own log only: whatever calls fail and whatever the
    bucket and the database answer, the rows of every other tree and its objects
    in the bucket are as they were. *)
Lemma IntegrateBatch_isolated clk tree sign limit guard maxDuration s o s' t' :
  int64 (TreeId tree) → int64 t' → t' ≠ TreeId tree →
  IntegrateBatch Sum256 clk tree sign limit guard maxDuration s = (o, s') → untouched t' s s'.
Proof.
  intros Ht Ht' Hne H. unfold IntegrateBatch, ReadWriteTransaction in H. unfold mbind at 1, M_bind at 1 in H.
  set (t := TreeId tree) in *.
  assert (∀ s2, (∀ k, isForeignKey t k = true → kv (local s2) !! k = kv (local s) !! k) →
    elsewhere t (objects (remote s)) (remote s2) → untouched t' s s2) as Hun.
  { intros s2 Hk He. split; [|intros b; by apply He]. intros typ u Hb. apply Hk. by apply isForeignKey_other. }
  destruct (beginForTree t s) as [o0 s1] eqn:Eb. apply beginForTree_own in Eb as (Hkv & Hrem & Hown).
  destruct o0 as [ltx|e|]; [|injection H as <- <-; by apply Hun; rewrite ?Hkv, ?Hrem..]. specialize (Hown ltx eq_refl).
  unfold withTx, runTx in H. unfold mbind at 1, M_bind at 1, try at 1 in H.
  pose proof (integrate_own Sum256 t Ht (objects (remote s)) clk tree sign limit guard maxDuration _ Hown) as Hf.
  pose proof (integrate_rows Sum256 (λ m, m = kv (local s)) clk tree sign limit guard maxDuration (s1, ltx) Hkv) as Hr.
  destruct (integrate _ _ _ _ _ _ _ (s1, ltx)) as [[[]|e|] w]; cbn [snd] in *.
  - destruct (Commit w) as [o1 [s2 tx2]] eqn:Ec. injection H as <- <-.
    apply (own_Commit t (objects (remote s))) in Ec as [Hk He]; [|done]. apply (Hun s2); [|done]. by rewrite <-Hr.
  - assert (untouched t' s w.1) as Hw by (apply Hun; [by rewrite Hr|apply Hf]).
    pose proof (Rollback_system w) as Hs. unfold mbind, M_bind, try in H.
    destruct (Rollback w) as [[[]|?|] [s2 tx2]]; cbn [snd fst] in *; injection H as <- <-; by rewrite Hs.
  - destruct w as [s2 tx2]. injection H as <- <-. apply Hun; [by cbn in Hr; rewrite Hr|apply Hf].
Qed.
End passes.
