(* ===== verification/Scheduler.v ===== *)
(** * The main loop (src/vendor/github.com/google/trillian/server/log_operation_manager.go)

    The program ends in [OperationLoop]: again and again it lists the active logs,
    starts a runner ([Election]) for every new one, finds out which logs this
    process is the master for, runs the sequencer ([Sequencer]) on each of them,
    and executes resignations.  A round of the loop is a function of what happens
    around it ([Round]): what requests do to the shared storage, the steps that
    runners take, the clocks, and whether the context has ended.  The executor is
    that of one worker, which is what ct-log asks for.  The gauges, the counters,
    the log and the time between two rounds are not modelled. *)

From S2P Require Import Prelude Keys Trillian Frontier Fsm LevelDB Local Remote Cache Compact Nodes SubtreeCache TreeNodes Config.
From S2P Require Import ReadTx TreeTx StoredTree LogStorage Quota Rpc Server Sequencer Growth Election.

(** ** Integers as strings (strconv) *)

Definition FormatInt (z : Z) : bytes := fmtZ 10 z.

Definition err_syntax : error := Errorf "strconv.ParseInt: parsing %q: invalid syntax".
Definition err_range : error := Errorf "strconv.ParseInt: parsing %q: value out of range".

(** The digits of a [uint64]. *)
Fixpoint parseDigits (n : Z) (s : bytes) : outcome Z :=
  match s with
  | [] => Ok n
  | c :: s =>
      let d := (b2z c - 48)%Z in
      if ((d <? 0) || (9 <? d))%Z then Err err_syntax
      else if (2 ^ 64 <=? n * 10 + d)%Z then Err err_range
      else parseDigits (n * 10 + d)%Z s
  end.

(** [strconv.ParseInt(s, 10, 64)] *)
Definition ParseInt (s : bytes) : outcome Z :=
  let '(neg, digits) :=
    match s with
    | c :: rest =>
        if bool_decide (c = Byte.x2d) then (true, rest)
        else if bool_decide (c = Byte.x2b) then (false, rest) else (false, s)
    | [] => (false, [])
    end in
  match digits with
  | [] => Err err_syntax
  | _ =>
      n ← parseDigits 0 digits;
      if negb neg && (2 ^ 63 <=? n)%Z then Err err_range
      else if neg && (2 ^ 63 <? n)%Z then Err err_range
      else Ok (if (neg : bool) then (- n)%Z else n)
  end.

(** ** The manager *)

(** What of the manager changes; [logNames] is the cache of [logName], and
    [lastHeld] is nil before the first pass. *)
Record LogOperationManager (E : Type) := mkManager {
  elections : Elections E;
  lastHeld : option (list Z);
  logNames : gmap Z bytes
}.
Arguments mkManager {E}.
Arguments elections {E}.
Arguments lastHeld {E}.
Arguments logNames {E}.

Definition NewLogOperationManager {E} : LogOperationManager E := mkManager noElections None ∅.

Section manager.
Context (Sum256 : bytes → bytes).
Context `{!Codec LogLeaf, !Codec SubtreeProto, !Codec Frontier, !Codec (list LogLeaf)}.
Context `{!MapRange bytes, !MapRange Z}.
Context (NewSigner : Config.Tree → outcome (bytes → outcome bytes)).
Context (a : adminStorage).
Context {E : Type} `{!MasterElection E}.
Context (NewElection : option (bytes → outcome E)) (cfg : RunnerConfig).
Abbreviation Manager := (LogOperationManager E).

Definition onElections {A} (m : M (Elections E) A) : M Manager A :=
  zoom elections (λ e l, mkManager e (lastHeld l) (logNames l)) m.

(** The transaction reads the configuration; closing it at the end has no
    effect. *)
Definition getActiveLogIDs : outcome (list Z) :=
  tx ← wrapf "failed to create transaction: %v" (LogStorage.Snapshot a);
  let '(logIDs, tx) := GetActiveLogIDs tx in
  logIDs ← wrapf "failed to get active logIDs: %v" logIDs;
  _ ← wrapf "failed to commit: %v" (rol_Commit tx).1;
  mret logIDs.

(** The name of a log, which the trees of this configuration do not have. *)
Definition logName (logID : Z) : M Manager bytes :=
  l ← get;
  match logNames l !! logID with
  | Some name => mret name
  | None =>
      match storage_GetTree a logID with
      | Ok _ =>
          let name := str "<log-" ++ FormatInt logID ++ str ">" in
          _ ← put (mkManager (elections l) (lastHeld l) (<[logID := name]> (logNames l)));
          mret name
      | Err _ => mret (str "<err>")
      | Panic => panic
      end
  end.

Definition heldInfo (logIDs : list Z) : M Manager bytes :=
  names ← mfold (λ names logID, name ← logName logID; mret (names ++ [name])) [] logIDs;
  mret (fold_left (λ result name, result ++ str " " ++ name) (sort_Strings names) (str "master for:")).

(** The process has no status to set; what was held last is remembered. *)
Definition updateHeldIDs (logIDs activeIDs : list Z) : M Manager unit :=
  _ ← heldInfo logIDs;
  modify (λ l, if bool_decide (lastHeld l = Some logIDs) then l
               else mkManager (elections l) (Some logIDs) (logNames l)).

(** The tracker is made by the first pass. *)
Definition ensureTracker (ids : list bytes) : M (Elections E) unit :=
  modify (λ w, match tracker w with
               | None => with_tracker (Some (MasterTracker.NewMasterTracker ids)) w
               | Some _ => w
               end).

(** A runner for a log that has none. *)
Definition startRunner (newElection : bytes → outcome E) (id : bytes) : M (Elections E) unit :=
  w ← get;
  match electionRunner w !! id with
  | Some _ => mret ()
  | None =>
      match newElection id with
      | Ok el => put (with_runner id (mkRunner Pausing el) w)
      | Err e => fail (Wrapf "failed to create election for %v: %v" e)
      | Panic => panic
      end
  end.

(** The loop over the ids that are held; [all] is sorted. *)
Fixpoint heldIDs (all held : list bytes) : outcome (list Z) :=
  match held with
  | [] => Ok []
  | s :: held =>
      if negb (bool_decide (all !! sort_SearchStrings all s = Some s)) then heldIDs all held
      else
        match ParseInt s with
        | Ok id => ids ← heldIDs all held; mret (id :: ids)
        | Err _ => Err (Errorf "failed to parse logID %v as int64")
        | Panic => Panic
        end
  end.

(** [evs] are the steps that runners take before the tracker is asked. *)
Definition masterFor (evs : list (bytes * RunnerEnv)) (allIDs : list Z) : M (Elections E) (list Z) :=
  match NewElection with
  | None => mret allIDs
  | Some newElection =>
      let allStringIDs := FormatInt <$> allIDs in
      _ ← ensureTracker allStringIDs;
      _ ← mfold (λ _ id, startRunner newElection id) () allStringIDs;
      _ ← runRunners cfg evs;
      w ← get;
      match tracker w with
      | Some mt => lift (heldIDs (sort_Strings allStringIDs) (MasterTracker.Held mt))
      | None => panic
      end
  end.

(** ** A pass *)

Section pass.
Context (guardWindow batchSize : Z).

(** The executor, with one worker: the jobs one after another, failed ones
    included; it returns how many succeeded and failed.  Every job has its
    clock. *)
Definition executor_run (clks : Z → Clock) (jobs : list Z) : M System (nat * nat) :=
  mfold (λ '(succeeded, failed) logID,
    r ← try (ExecutePass Sum256 NewSigner a (clks logID) guardWindow batchSize logID);
    match r with
    | Ok _ => mret (S succeeded, failed)
    | _ => mret (succeeded, S failed)
    end) (0, 0) jobs.

Definition onManager {A} (m : M Manager A) : M (Manager * System) A := zoom fst (λ l w, (l, w.2)) m.
Definition onStorage {A} (m : M System A) : M (Manager * System) A := zoom snd (λ s w, (w.1, s)) m.

Definition getLogsAndExecutePass (evs : list (bytes * RunnerEnv)) (clks : Z → Clock)
    : M (Manager * System) unit :=
  activeIDs ← lift (wrapf "failed to list active log IDs: %v" getActiveLogIDs);
  logIDs ← onManager (onElections
    (wrapErr "failed to determine log IDs we're master for: %v" (masterFor evs activeIDs)));
  _ ← onManager (updateHeldIDs logIDs activeIDs);
  _ ← onStorage (executor_run clks logIDs);
  mret ().

(** An error is only logged. *)
Definition OperationSingle (evs : list (bytes * RunnerEnv)) (clks : Z → Clock)
    : M (Manager * System) unit :=
  _ ← try (getLogsAndExecutePass evs clks);
  mret ().

(** ** The loop *)

(** What happens around a round: what requests do to the storage before it, the
    steps of runners before the tracker is asked and after the pass, the clocks,
    and whether the context has ended by the end of the pass or of the sleep. *)
Record Round := mkRound {
  traffic : System → System;
  stepsBefore : list (bytes * RunnerEnv);
  clocks : Z → Clock;
  doneAfterPass : bool;
  stepsAfter : list (bytes * RunnerEnv);
  doneInSleep : bool
}.

(** The loop goes on, it is over, or it waits for the end of the context. *)
Inductive loopState := Looping | ShutDown | AwaitingDone.

(** The inner loop, which executes the resignations in the channel. *)
Definition executeResignations : M (Elections E) unit :=
  w ← get;
  mfold (λ _ _, nextResignation) () (pendingResignations w).

(** One round.  After an error the loop receives from [ctx.Done()], which blocks
    until the context has ended. *)
Definition loopRound (r : Round) : M (Manager * System) loopState :=
  _ ← onStorage (modify (traffic r));
  err ← try (getLogsAndExecutePass (stepsBefore r) (clocks r));
  match err with
  | Ok _ =>
      if doneAfterPass r then mret ShutDown
      else
        _ ← onManager (onElections (runRunners cfg (stepsAfter r)));
        _ ← onManager (onElections executeResignations);
        mret (if doneInSleep r then ShutDown else Looping)
  | _ => mret (if doneAfterPass r then ShutDown else AwaitingDone)
  end.

Fixpoint OperationLoop (rounds : list Round) : M (Manager * System) loopState :=
  match rounds with
  | [] => mret Looping
  | r :: rounds =>
      st ← loopRound r;
      match st with Looping => OperationLoop rounds | _ => mret st end
  end.
End pass.

(** When the loop is over, the contexts of all runners are cancelled, and the
    manager waits for them to return: [evs] are the steps they take meanwhile, and
    the result is whether it stops waiting. *)
Definition awaitRunners (evs : list (bytes * RunnerEnv)) : M (Elections E) bool :=
  _ ← runRunners cfg ((λ '(id, env), (id, mkRunnerEnv true (env_now env) (env_rand env))) <$> evs);
  w ← get;
  mret (bool_decide (map_Forall (λ _ r, pc r = Stopped) (electionRunner w))).
End manager.

(** ** The configuration of ct-log (src/cmd/server/main.go) *)

(** What [NewRunner] makes of the configuration. *)
Definition mainElectionConfig : RunnerConfig :=
  fixupRunnerConfig (mkRunnerConfig 10000000 1000000000 (2 ^ 63 - 1) 1).

Definition signerElectionFactory : option (bytes → outcome NoopElection) :=
  Some (NoopFactory_NewElection (str "signer")).

(** ** Lemmas *)

(** *** Integers as strings *)

Lemma parseDigits_app n s1 s2 : parseDigits n (s1 ++ s2) = (m ← parseDigits n s1; parseDigits m s2).
Proof.
  revert n. induction s1 as [|c s1 IH]; intros n; [done|]. cbn [app parseDigits].
  case_match; [done|]. case_match; [done|]. apply IH.
Qed.

Lemma parseDigits_digit n d :
  (0 ≤ d < 10)%Z → (n * 10 + d < 2 ^ 64)%Z → parseDigits n [hexdigit d] = Ok (n * 10 + d)%Z.
Proof.
  intros Hd Hn. cbn [parseDigits]. rewrite b2z_hexdigit by lia.
  destruct (Z.ltb_spec d 10); [|lia]. replace (48 + d - 48)%Z with d by lia.
  destruct (Z.ltb_spec d 0), (Z.ltb_spec 9 d), (Z.leb_spec (2 ^ 64) (n * 10 + d)); done || lia.
Qed.

Lemma parseDigits_digits fuel z :
  (0 ≤ z < 10 ^ Z.of_nat fuel)%Z → (z < 2 ^ 64)%Z → parseDigits 0 (hexdigit <$> digits fuel 10 z) = Ok z.
Proof.
  revert z. induction fuel as [|fuel IH]; intros z Hz H64.
  { cbn in *. f_equal. lia. }
  cbn [digits]. destruct (Z.ltb_spec z 10) as [Hl|Hl].
  { rewrite <-(Z.add_0_l z) at 2. by apply (parseDigits_digit 0 z); lia. }
  pose proof (Z.div_mod z 10). pose proof (Z.mod_pos_bound z 10).
  rewrite fmap_app, parseDigits_app, IH.
  - unfold_O. change (hexdigit <$> [z `mod` 10]%Z) with [hexdigit (z `mod` 10)].
    rewrite parseDigits_digit by lia. f_equal. lia.
  - rewrite Nat2Z.inj_succ, Z.pow_succ_r in Hz by lia. split; [apply Z.div_pos; lia|].
    apply Z.div_lt_upper_bound; lia.
  - lia.
Qed.

Lemma digits_ne fuel base z : digits (S fuel) base z ≠ [].
Proof. cbn [digits]. case_match; [done|]. by intros [_ ?]%app_eq_nil. Qed.

(** What [FormatInt] writes, [ParseInt] reads. *)
Lemma ParseInt_FormatInt z : int64 z → ParseInt (FormatInt z) = Ok z.
Proof.
  unfold int64. intros Hz. unfold FormatInt, fmtZ.
  pose proof (parseDigits_digits 64 (Z.abs z)) as Hp. pose proof (pow_base_64 10 ltac:(lia)) as H64.
  specialize (Hp ltac:(lia) ltac:(lia)). pose proof (digits_ne 63 10 (Z.abs z)) as Hne.
  pose proof (fmtZ_digits 10 (Z.abs z)) as Hminus. rewrite Z.abs_involutive in Hminus.
  assert (Byte.x2b ∉ hexdigit <$> digits 64 10 (Z.abs z)) as Hplus.
  { intros (d & E & Hd)%list_elem_of_fmap. pose proof (digits_range 64 10 (Z.abs z) ltac:(lia) ltac:(lia)) as Hr.
    rewrite Forall_forall in Hr. specialize (Hr d Hd). cbn beta in Hr. apply (f_equal b2z) in E. rewrite b2z_hexdigit in E by lia.
    change (b2z Byte.x2b) with 43%Z in E. case_match; lia. }
  destruct (digits 64 10 (Z.abs z)) as [|d ds]; [done|]. rewrite fmap_cons in *.
  destruct (Z.ltb_spec z 0) as [Hneg|Hpos].
  - cbn [app]. unfold ParseInt. rewrite bool_decide_true by done. rewrite Hp. unfold_O. cbn [negb andb].
    destruct (Z.ltb_spec (2 ^ 63) (Z.abs z)); [lia|]. f_equal. lia.
  - cbn [app]. unfold ParseInt. rewrite bool_decide_false by (intros E; eapply Hminus; [lia|left; reflexivity|]; rewrite <-E; by left).
    rewrite bool_decide_false by (intros E; apply Hplus; rewrite <-E; by left).
    rewrite Hp. unfold_O. cbn [negb andb]. destruct (Z.leb_spec (2 ^ 63) (Z.abs z)); [lia|]. f_equal. lia.
Qed.

Lemma FormatInt_inj x y : int64 x → int64 y → FormatInt x = FormatInt y → x = y.
Proof. intros. eapply (fmtZ_inj 10); eauto; lia. Qed.

(** *** The logs that are held *)

Section held.
Context `{!MapRange bytes, !MapRangeLaws bytes}.

Lemma heldIDs_spec allIDs held :
  Forall int64 allIDs →
  ∃ ids, heldIDs (sort_Strings (FormatInt <$> allIDs)) held = Ok ids ∧
    FormatInt <$> ids = filter (.∈ FormatInt <$> allIDs) held ∧ ∀ t, t ∈ ids → t ∈ allIDs.
Proof.
  intros Hall. induction held as [|s held (ids & E & Hids & Hsub)].
  { exists []. split_and!; [done..|by intros ? ?%not_elem_of_nil]. }
  cbn [heldIDs].
  rewrite filter_cons. pose proof (sort_SearchStrings_found _ s (sort_Strings_sorted (FormatInt <$> allIDs))) as Hs.
  rewrite elem_of_sort_Strings in Hs. destruct (decide (s ∈ FormatInt <$> allIDs)) as [Hin|Hn].
  - rewrite bool_decide_true by by apply Hs. cbn [negb]. apply list_elem_of_fmap in Hin as (t & -> & Ht).
    rewrite Forall_forall in Hall. rewrite ParseInt_FormatInt by by apply Hall. rewrite E. unfold_O.
    exists (t :: ids). split; [done|]. split; [by rewrite fmap_cons, Hids|]. set_solver.
  - rewrite bool_decide_false by by rewrite Hs. by exists ids.
Qed.

(** The ids of the logs that are held and listed. *)
Lemma heldIDs_exact allIDs mt :
  Forall int64 allIDs →
  ∃ ids, heldIDs (sort_Strings (FormatInt <$> allIDs)) (MasterTracker.Held mt) = Ok ids ∧ NoDup ids ∧
    ∀ t, t ∈ ids ↔ t ∈ allIDs ∧ holds mt (FormatInt t).
Proof.
  intros Hall. destruct (heldIDs_spec allIDs (MasterTracker.Held mt) Hall) as (ids & E & Hids & Hsub). exists ids.
  split; [done|]. assert (NoDup (FormatInt <$> ids)) as Hnd.
  { rewrite Hids. apply NoDup_filter, TrackerFacts.NoDup_Held. }
  split; [by eapply NoDup_fmap_1|]. intros t. split.
  - intros Ht. split; [by apply Hsub|]. assert (FormatInt t ∈ FormatInt <$> ids) as Hf by by apply list_elem_of_fmap_2.
    rewrite Hids in Hf. apply list_elem_of_filter in Hf as [_ Hf]. by apply TrackerFacts.elem_of_Held.
  - intros [Ht Hh]. assert (FormatInt t ∈ FormatInt <$> ids) as Hf.
    { rewrite Hids. apply list_elem_of_filter. split; [by apply list_elem_of_fmap_2|]. by apply TrackerFacts.elem_of_Held. }
    apply list_elem_of_fmap in Hf as (t' & Ef & Ht'). rewrite Forall_forall in Hall.
    apply FormatInt_inj in Ef as ->; [done|by apply Hall|by apply Hall, Hsub].
Qed.
End held.

(** *** Starting runners *)

Section runners.
Context {E : Type} `{!MasterElection E}.
Context (newElection : bytes → outcome E) (cfg : RunnerConfig).

(** A run of [startRunner]: new runners for the ids that had none, and nothing
    else. *)
Record started (w w' : Elections E) : Prop := {
  st_steps P : rtc (elections_step cfg P) w w';
  st_tracker : tracker w' = tracker w;
  st_pending : pendingResignations w' = pendingResignations w;
  st_old id r : electionRunner w !! id = Some r → electionRunner w' !! id = Some r;
  st_new id r : electionRunner w' !! id = Some r → electionRunner w !! id = Some r ∨ pc r = Pausing
}.

#[local] Instance started_preorder : PreOrder started.
Proof.
  split; [split; [done..|by left]|]. intros w1 w2 w3 [H1 H2 H3 H4 H5] [H6 H7 H8 H9 H10].
  split; [intros P; by transitivity w2|congruence|congruence|auto|]. intros id r Hr. apply H10 in Hr as [Hr|Hr]; auto.
Qed.

Lemma startRunner_started id w :
  tracker w ≠ None →
  ∃ o w', startRunner newElection id w = (o, w') ∧ started w w' ∧
    match o with
    | Ok _ => is_Some (electionRunner w' !! id)
    | Err _ => ∃ e, newElection id = Err e
    | Panic => newElection id = Panic
    end.
Proof.
  intros Ht. unfold startRunner. unfold_M. destruct (electionRunner w !! id) as [r|] eqn:Er.
  { eexists _, w. split; [done|]. split; [done|]. by rewrite Er. }
  destruct (newElection id) as [el|e|] eqn:Ee; cbn.
  - eexists _, _. split; [done|]. split; [split; try done; cbn|].
    + intros P. apply rtc_once. by apply es_start.
    + intros i r Hi. rewrite lookup_insert_ne; [done|congruence].
    + intros i r. rewrite lookup_insert. case_decide; [intros [= <-]; by right|by left].
    + cbn. by rewrite lookup_insert_eq.
  - eexists _, w. split; [done|]. split; [done|]. by eexists.
  - eexists _, w. by split.
Qed.

Lemma startRunners_started ids : ∀ w,
  tracker w ≠ None →
  ∃ o w', mfold (λ _ id, startRunner newElection id) () ids w = (o, w') ∧ started w w' ∧
    match o with
    | Ok _ => ∀ id, id ∈ ids → is_Some (electionRunner w' !! id)
    | Err _ => ∃ id e, id ∈ ids ∧ newElection id = Err e
    | Panic => ∃ id, id ∈ ids ∧ newElection id = Panic
    end.
Proof.
  induction ids as [|id ids IH]; intros w Ht.
  { eexists _, w. split; [done|]. split; [done|]. by intros ? ?%not_elem_of_nil. }
  destruct (startRunner_started id w Ht) as (o & w1 & E1 & Hs1 & Ho). cbn [mfold]. unfold mbind, M_bind. rewrite E1.
  destruct o as [[]|e|].
  - destruct (IH w1) as (o & w2 & E2 & Hs2 & Ho2); [by rewrite (st_tracker _ _ Hs1)|].
    exists o, w2. split; [done|]. split; [by etrans|]. destruct o as [[]|e|]; [|set_solver..].
    intros i [->|Hi]%elem_of_cons; [|by apply Ho2]. destruct Ho as [r Hr]. exists r. by apply (st_old _ _ Hs2).
  - exists (Err e), w1. split; [done|]. split; [done|]. destruct Ho as [e' He']. exists id, e'. split; [by left|done].
  - exists Panic, w1. split; [done|]. split; [done|]. exists id. split; [by left|done].
Qed.
End runners.

(** *** Masters *)

Section masters.
Context `{!MapRange bytes, !MapRangeLaws bytes}.
Context {E : Type} `{!MasterElection E}.
Context (newElection : bytes → outcome E) (cfg : RunnerConfig).

(** The tracker, made if there is none. *)
Lemma ensureTracker_step ids (w : Elections E) :
  ∃ w', ensureTracker ids w = (Ok (), w') ∧ tracker w' ≠ None ∧
    electionRunner w' = electionRunner w ∧ pendingResignations w' = pendingResignations w ∧
    (tracker w ≠ None → w' = w) ∧ ∀ P, rtc (elections_step cfg P) w w'.
Proof.
  unfold ensureTracker, modify. destruct (tracker w) as [mt|] eqn:Et.
  - exists w. split_and!; try done. by rewrite Et.
  - eexists. split_and!; try done. intros P. apply rtc_once. by apply es_tracker.
Qed.

(** The parts of [masterFor]. *)
Lemma masterFor_parts evs allIDs (w : Elections E) :
  ∃ w0 (o1 : outcome unit) w1, ensureTracker (FormatInt <$> allIDs) w = (Ok (), w0) ∧ tracker w0 ≠ None ∧
    electionRunner w0 = electionRunner w ∧ pendingResignations w0 = pendingResignations w ∧
    (tracker w ≠ None → w0 = w) ∧ (∀ P, rtc (elections_step cfg P) w w0) ∧
    started cfg w0 w1 ∧
    masterFor (Some newElection) cfg evs allIDs w =
      match o1 with
      | Ok _ => (_ ← runRunners cfg evs; w ← get;
                 match tracker w with
                 | Some mt => lift (heldIDs (sort_Strings (FormatInt <$> allIDs)) (MasterTracker.Held mt))
                 | None => panic
                 end) w1
      | Err e => (Err e, w1)
      | Panic => (Panic, w1)
      end ∧
    match o1 with
    | Ok _ => ∀ t, t ∈ allIDs → is_Some (electionRunner w1 !! FormatInt t)
    | Err _ => ∃ t e, t ∈ allIDs ∧ newElection (FormatInt t) = Err e
    | Panic => ∃ t, t ∈ allIDs ∧ newElection (FormatInt t) = Panic
    end.
Proof.
  destruct (ensureTracker_step (FormatInt <$> allIDs) w) as (w0 & E0 & Ht & Hr & Hp & Hsame & Hs).
  destruct (startRunners_started newElection cfg (FormatInt <$> allIDs) w0 Ht) as (o1 & w1 & E1 & Hst & Ho).
  exists w0, o1, w1. split_and!; try done.
  - unfold masterFor. erewrite mbind_step by exact E0. unfold mbind at 1, M_bind at 1. rewrite E1. by destruct o1.
  - destruct o1 as [[]|e|].
    + intros t Ht'. apply Ho. by apply list_elem_of_fmap_2.
    + destruct Ho as (id & e' & (t & -> & Hin)%list_elem_of_fmap & He). eauto.
    + destruct Ho as (id & (t & -> & Hin)%list_elem_of_fmap & He). eauto.
Qed.

(** The steps before the tracker is asked are steps of the runners. *)
Lemma masterFor_inv evs allIDs w o w' :
  elections_inv w → masterFor (Some newElection) cfg evs allIDs w = (o, w') → o ≠ Panic → elections_inv w'.
Proof.
  intros Hw H Ho.
  destruct (masterFor_parts evs allIDs w) as (w0 & o1 & w1 & _ & Ht & _ & _ & _ & Hs0 & Hs1 & Em & Ho1).
  rewrite Em in H. assert (elections_inv w1) as Hw1.
  { eapply elections_rtc_inv; [apply (st_steps _ _ _ Hs1 (λ _, True))|].
    by eapply elections_rtc_inv; [apply (Hs0 (λ _, True))|]. }
  destruct o1 as [[]|e|]; [|by injection H as _ <-|by injection H as <- _].
  destruct (runRunners cfg evs w1) as [o2 w2] eqn:E2. unfold mbind, M_bind in H. rewrite E2 in H.
  destruct o2 as [[]|e|]; [|by pose proof (runRunners_errorless cfg evs w1 e) as Hn; rewrite E2 in Hn|by injection H as <- _].
  assert (w' = w2) as -> by (unfold get in H; destruct (tracker w2); unfold lift, panic in H; by injection H).
  eapply elections_rtc_inv, Hw1. eapply (runRunners_steps cfg (λ _, True)); [exact E2|done|].
  by apply Forall_forall.
Qed.

Lemma masterFor_exact evs allIDs w o w' :
  Forall int64 allIDs → masterFor (Some newElection) cfg evs allIDs w = (o, w') →
  match o with
  | Ok ids => NoDup ids ∧ ∀ t, t ∈ ids ↔ t ∈ allIDs ∧ masters w' (FormatInt t)
  | Err _ => ∃ t e, t ∈ allIDs ∧ newElection (FormatInt t) = Err e
  | Panic => True
  end.
Proof.
  intros Hall H. destruct o as [ids|e|]; [| |done];
    destruct (masterFor_parts evs allIDs w) as (w0 & o1 & w1 & _ & Ht & _ & _ & _ & Hs0 & Hs1 & Em & Ho1); rewrite Em in H.
  - destruct o1 as [[]|e|]; [|done..]. unfold mbind at 1, M_bind at 1 in H.
    destruct (runRunners cfg evs w1) as [[[]|e|] w2]; [|done..]. unfold mbind, M_bind, get in H.
    destruct (tracker w2) as [mt|] eqn:Et; [|done]. unfold lift in H. injection H as H <-.
    destruct (heldIDs_exact allIDs mt Hall) as (ids' & E' & Hnd & Hids). rewrite E' in H. injection H as <-.
    split; [done|]. intros t. rewrite Hids. unfold masters. rewrite Et. naive_solver.
  - destruct o1 as [[]|e1|]; [|exact Ho1|done]. unfold mbind at 1, M_bind at 1 in H.
    destruct (runRunners cfg evs w1) as [[[]|e1|] w2] eqn:E2.
    + unfold mbind, M_bind, get in H. destruct (tracker w2) as [mt|]; [|done]. unfold lift in H. injection H as H _.
      destruct (heldIDs_exact allIDs mt Hall) as (ids' & E' & _). congruence.
    + pose proof (runRunners_errorless cfg evs w1 e1) as Hn. by rewrite E2 in Hn.
    + done.
Qed.

(** C14. Which logs a pass is for: whatever elections answer and runners do
    meanwhile, [masterFor] returns, once each, exactly the listed logs whose
    mastership the tracker holds at that time; the ids survive the way through
    their decimal strings and the search in the sorted list, and the only error
    is that of making an election. *)
Theorem masterFor_held evs allIDs w o w' :
  Forall int64 allIDs → masterFor (Some newElection) cfg evs allIDs w = (o, w') →
  match o with
  | Ok ids => NoDup ids ∧ ∀ t, t ∈ ids ↔ t ∈ allIDs ∧ masters w' (FormatInt t)
  | Err _ => ∃ t e, t ∈ allIDs ∧ newElection (FormatInt t) = Err e
  | Panic => True
  end.
Proof. apply masterFor_exact. Qed.
End masters.

(** *** Masters in ct-log *)

Section mainMasters.
Context `{!MapRange bytes, !MapRangeLaws bytes}.
Abbreviation cfg := mainElectionConfig.

Lemma mainElectionConfig_ok : (0 < PreElectionPause cfg)%Z ∧ MasterHoldInterval cfg = (2 ^ 63 - 1)%Z.
Proof. by split. Qed.

(** [masterFor] in ct-log: it does not fail, nothing is given up, and the runners of
    the listed logs have taken the steps they were given. *)
Lemma masterFor_main evs allIDs w :
  undisputed w → Forall int64 allIDs → Forall (steady ∘ snd) evs →
  ∃ ids w', masterFor signerElectionFactory cfg evs allIDs w = (Ok ids, w') ∧ undisputed w' ∧ NoDup ids ∧
    (∀ t, t ∈ ids ↔ t ∈ allIDs ∧ masters w' (FormatInt t)) ∧
    (∀ id, masters w id → masters w' id) ∧
    ∀ t, t ∈ allIDs →
      stepsLeft w' (FormatInt t) ≤ stepsLeft w (FormatInt t) - stepsOf (FormatInt t) evs ∧
      is_Some (electionRunner w' !! FormatInt t).
Proof.
  intros Hw Hall Hevs. destruct mainElectionConfig_ok as [Hpause Hhold].
  destruct (masterFor_parts (NoopFactory_NewElection (str "signer")) cfg evs allIDs w)
    as (w0 & o1 & w1 & _ & Ht & Er & Ep & Hsame & Hs0 & Hs1 & Em & Ho1).
  destruct o1 as [[]|e|]; [|by destruct Ho1 as (? & ? & _ & ?)|by destruct Ho1 as (? & _ & ?)].
  assert (undisputed w1) as Hw1.
  { split.
    - eapply elections_rtc_inv; [apply (st_steps _ _ _ Hs1 (λ _, True))|].
      by eapply elections_rtc_inv; [apply (Hs0 (λ _, True))|apply Hw].
    - rewrite (st_pending _ _ _ Hs1), Ep. apply Hw.
    - intros id r [Hr|Hr]%(st_new _ _ _ Hs1); [|by rewrite Hr]. rewrite Er in Hr. by apply (un_pc _ Hw id). }
  destruct (runRunners_onward cfg Hpause Hhold evs w1 Hw1 Hevs) as (w2 & E2 & Hw2 & Hon & Hrank).
  assert (tracker w2 ≠ None) as Ht2 by (rewrite (on_tracker _ _ Hon), (st_tracker _ _ _ Hs1); done).
  destruct (tracker w2) as [mt|] eqn:Et2; [|done]. destruct (heldIDs_exact allIDs mt Hall) as (ids & Ei & Hnd & Hids).
  exists ids, w2. unfold signerElectionFactory. rewrite Em. erewrite mbind_step by exact E2.
  erewrite mbind_step by reflexivity. rewrite Et2, Ei. split; [done|]. split; [done|]. split; [done|]. split; [|split].
  - intros t. rewrite Hids. by rewrite (masters_holds w2 mt).
  - intros id Hm. apply (on_masters _ _ Hon). destruct Hm as (mt0 & Et0 & Hh). exists mt0. split; [|done].
    rewrite (st_tracker _ _ _ Hs1), Hsame; [done|congruence].
  - intros t Hin. destruct (stepsLeft_run w1 w2 (FormatInt t) (stepsOf (FormatInt t) evs)) as [Hle Hr2];
      [by apply Ho1|apply Hrank|]. split; [|done].
    assert (stepsLeft w1 (FormatInt t) ≤ stepsLeft w (FormatInt t)); [|lia].
    destruct (Ho1 t Hin) as [r Hr]. unfold stepsLeft. rewrite Hr, <-Er.
    destruct (electionRunner w0 !! FormatInt t) as [r0|] eqn:Hr0.
    + apply (st_old _ _ _ Hs1) in Hr0. rewrite Hr in Hr0. by injection Hr0 as ->.
    + apply (st_new _ _ _ Hs1) in Hr as [Hr|Hr]; [congruence|by rewrite Hr].
Qed.
End mainMasters.
