(* ===== verification/MainLoop.v ===== *)
(** * What the main loop achieves

    The main loop ([Scheduler]) followed through its rounds: while requests go on
    queueing leaves, every log that is active comes to be held by this process,
    every pass runs a batch ([Growth]) on each of them, and the leaves that are
    queued by some time are published round by round, oldest first, whatever is
    queued behind them. *)

From S2P Require Import Prelude Keys Trillian Frontier Fsm LevelDB Local Remote Cache Compact Nodes SubtreeCache TreeNodes Config.
From S2P Require Import ReadTx TreeTx StoredTree LogStorage Quota Rpc Server Sequencer Growth Arrivals Election Isolation Scheduler.

(** ** The older part of a queue *)

Lemma filter_prefix {A} (R : relation A) (P : A → Prop) `{!∀ x, Decision (P x)} l :
  StronglySorted R l → (∀ x y, R x y → P y → P x) → ∃ rest, l = filter P l ++ rest ∧ Forall (λ x, ¬ P x) rest.
Proof.
  intros Hs HP. induction Hs as [|x l Hs (rest & E & Hrest) Hx]; [by exists []|].
  rewrite filter_cons. destruct (decide (P x)) as [Hp|Hn].
  - exists rest. split; [cbn; by rewrite <-E|done].
  - assert (Forall (λ y, ¬ P y) l) as Hall by (eapply Forall_impl; [exact Hx|]; intros y Hxy Hy; eauto).
    exists (x :: l). split; [|by constructor].
    assert (filter P l = []) as ->; [|done]. clear -Hall. induction Hall as [|y l Hy _ IH]; [done|].
    by rewrite filter_cons, decide_False.
Qed.

(** The queue up to a cutoff comes first in the queue up to a later one. *)
Lemma queued_prefix m t c c' :
  (0 ≤ c ≤ c')%Z → (c' < 2 ^ 63 - 1)%Z →
  ∃ rest, queued m t c' = queued m t c ++ rest ∧ Forall (λ e, ¬ blt e.1 (queueLimit t c)) rest.
Proof.
  intros Hc Hc'.
  assert (ble (queueLimit t c) (queueLimit t c')) as Hle.
  { unfold queueLimit, keyB. rewrite ble_app, !rowkeyLeaf_eq, !wrap64_small by (unfold int64; lia).
    unfold ble. rewrite bytes_Compare_app_same_len by by rewrite !length_be_bytes.
    rewrite bytes_Compare_be_bytes by lia. destruct (Z.compare_spec (c + 1) (c' + 1)); [|done|lia].
    rewrite bytes_Compare_refl. done. }
  destruct (filter_prefix key_le (λ e, blt e.1 (queueLimit t c)) (queued m t c')) as (rest & E & Hrest).
  { apply Sorted_range. }
  { intros [k1 v1] [k2 v2] H1 H2. unfold key_le in H1. cbn in *. by eapply ble_blt_trans. }
  exists rest. split; [|done]. rewrite E at 1. f_equal. unfold queued, range_entries.
  rewrite list_filter_filter. apply list_filter_iff. intros [k v]. cbn. split; [tauto|].
  intros [H1 H2]. split; [done|]. split; [done|]. by eapply blt_ble_trans.
Qed.

(** Leaves queued for later do not show in it. *)
Lemma queued_insert_later m t t' c ts noise raw :
  int64 t → int64 t' → (0 ≤ c < ts)%Z → (ts < 2 ^ 63)%Z → length noise = 4 →
  queued (<[queueRow t' ts noise := raw]> m) t c = queued m t c.
Proof.
  intros Ht Ht' Hc Hts Hn. unfold queued. rewrite (range_delete m _ _ _ 0); [done|].
  intros k H1 H2. rewrite decide_False by apply not_elem_of_nil. apply lookup_insert_ne. intros <-.
  destruct (decide (t' = t)) as [->|Hne].
  - apply queueLimit_blt in H2; [lia..|done].
  - assert ((queueRow t' ts noise, []) ∈ queued {[queueRow t' ts noise := []]} t c) as Hin.
    { apply elem_of_range. by rewrite lookup_singleton_eq. }
    apply queue_range_own in Hin. unfold queueRow in Hin. by rewrite isForeignKey_other in Hin.
Qed.

(** Deleting the first rows of the queue up to a later cutoff deletes as many of
    the older ones. *)
Lemma queued_delete m m' t c c' n :
  (0 ≤ c ≤ c')%Z → (c' < 2 ^ 63 - 1)%Z →
  (∀ k, isQueueKey k = true →
     m' !! k = if decide (k ∈ (take n (queued m t c')).*1) then None else m !! k) →
  queued m' t c = drop n (queued m t c).
Proof.
  intros Hc Hc' Hm. destruct (queued_prefix m t c c' Hc Hc') as (rest & E & Hrest).
  apply range_delete. fold (queued m t c). intros k H1 H2.
  assert (isQueueKey k = true) as Hk.
  { apply (queue_range_key {[k := []]} t c k []), elem_of_range. by rewrite lookup_singleton_eq. }
  rewrite (Hm k Hk), E, take_app, fmap_app. apply decide_ext. rewrite elem_of_app.
  split; [intros [|Hin]; [done|]|by left]. exfalso. apply list_elem_of_fmap in Hin as ([k' v] & -> & Hin).
  apply subseteq_take in Hin. rewrite Forall_forall in Hrest. by apply (Hrest _ Hin).
Qed.

Lemma dequeues_older m t limit c c' :
  (0 ≤ c ≤ c')%Z → (c' < 2 ^ 63 - 1)%Z →
  ∃ es, dequeues t m limit c' = take (Z.to_nat limit) (queued m t c) ++ es ∧
    (Z.to_nat limit ≤ length (queued m t c) → es = []).
Proof.
  intros Hc Hc'. destruct (queued_prefix m t c c' Hc Hc') as (rest & E & _).
  exists (take (Z.to_nat limit - length (queued m t c)) rest). unfold dequeues. rewrite E, take_app.
  split; [done|]. intros Hle. by replace (Z.to_nat limit - length (queued m t c)) with 0 by lia.
Qed.

(** ** One log *)

Section loop.
Context (Sum256 : bytes → bytes).
Context `{!Codec LogLeaf, !Codec SubtreeProto, !Codec Frontier, !Codec (list LogLeaf)}.
Context `{!CodecLaws SubtreeProto, !CodecLaws Frontier, !JSONLaws}.
Context `{!MapRange bytes, !MapRangeLaws bytes, !MapRange Z, !MapRangeLaws Z}.
Context (Hsubtree : ∀ st : SubtreeProto, ∃ raw, marshal st = Ok raw).
Context (Hfix : ∀ st : SubtreeProto,
  is_Some (Prefix st) → SubtreeRootHash st = None → fixPrefix (canon st) = st).
Context (Hfrontier : ∀ f : Frontier, ∃ raw, marshal f = Ok raw).
Context (Hcanon : ∀ f, solid f → canon f = f).
Context (Hsum : ∀ b, Sum256 b ≠ []) (Hshort : ∀ b, length (Sum256 b) ≤ 128).
Context (guard limit c : Z) (Hc : (0 ≤ c)%Z).
Abbreviation n := (Z.to_nat limit).

(** Where a log starts: its leaves, the leaves in its queue up to [c], and a
    bound for the revision of its root. *)
Record Start := mkStart { startLog : list LogLeaf; startQueue : list LogLeaf; startRevision : Z }.

(** The log of [tree] after [k] passes: it is ready, the queue up to [c] has lost
    [k] times [limit] leaves, and the log has gained them, in order, and others
    only when there were no more of them.  [now] bounds the time of its root. *)
Record progress (tree : Config.Tree) (st : Start) (k : nat) (now : Z) (s : System)
    (log : list LogLeaf) (r : LogRootV1.t) (newer : list LogLeaf) : Prop := {
  pr_ready : ready Sum256 tree (hashesOf log) log r s;
  pr_revision : (0 ≤ LogRootV1.Revision r ≤ startRevision st + Z.of_nat k)%Z;
  pr_time : (LogRootV1.TimestampNanos r ≤ now)%Z;
  pr_log : content <$> log = content <$> (startLog st ++ take (k * n) (startQueue st) ++ newer);
  pr_newer : k * n < length (startQueue st) → newer = [];
  pr_queue : Forall2 (λ e l, unmarshal e.2 = Ok l) (queued (kv (local s)) (TreeId tree) c)
               (drop (k * n) (startQueue st));
  pr_decodes : ∀ c' key v, (key, v) ∈ queued (kv (local s)) (TreeId tree) c' →
                 ∃ leaf, unmarshal v = Ok leaf ∧ queueable leaf;
  pr_length : length log ≤ length (startLog st) + k * n
}.

(** The clock of a batch: the cutoff is not before [c], and the root is newer than
    [now]. *)
Definition ticks (clk : Clock) (now : Z) : Prop :=
  (c ≤ wrap64 (startTime clk - guard) < 2 ^ 63 - 1)%Z ∧ (now < wrapU64 (rootTime clk))%Z ∧
  ∀ k, validateTimestamp (timestampOf (leafTime clk k)) = Ok ().

Lemma batch_progress tree sign clk maxDuration st k now s log r newer :
  tree_TreeType tree = LOG → (∀ b, ∃ sg, sign b = Ok sg) → int64 (TreeId tree) →
  ticks clk now → progress tree st k now s log r newer →
  (startRevision st + Z.of_nat k + 1 < 2 ^ 63)%Z →
  (Z.of_nat (length (startLog st)) + Z.of_nat (S k * n) < 2 ^ 55)%Z →
  ∃ s' log' r' newer', IntegrateBatch Sum256 clk tree sign limit guard maxDuration s = (Ok (), s') ∧
    progress tree st (S k) (wrapU64 (rootTime clk)) s' log' r' newer' ∧
    ∀ t', int64 t' → t' ≠ TreeId tree → untouched t' s s'.
Proof.
  intros Hlog Hsign Ht (Hcut & Htime & Hclk) [H1 H2 H3 H4 H5 H6 H7 H8] Hrev Hbound.
  set (t := TreeId tree) in *. set (cut := wrap64 (startTime clk - guard)) in *.
  destruct (dequeues_older (kv (local s)) t limit c cut) as (es & Ees & Hes); [lia..|].
  assert (length (dequeues t (kv (local s)) limit cut) ≤ n) as Hdn
    by (unfold dequeues; rewrite length_take; lia).
  destruct (batch_grows Sum256 Hsubtree Hfix Hfrontier Hcanon Hsum Hshort tree sign Hlog Hsign Ht clk limit guard
    maxDuration (hashesOf log) log r s H1) as (s' & leaves & r' & Hrun & Hpub & Hs' & Hr'); fold t cut; try lia; try done.
  { apply (H7 cut). }
  { unfold hashesOf. rewrite length_fmap. lia. }
  pose proof Hpub as (HF & Hq & _). fold t cut in HF, Hq. cbv zeta in Hq.
  rewrite Ees in HF. apply Forall2_app_inv_l in HF as (l1 & l2 & HF1 & HF2 & ->).
  pose proof (Forall2_take _ _ _ n H6) as HF1'. pose proof (Forall2_unmarshal _ _ _ HF1 HF1') as ->.
  pose proof (Forall2_length _ _ _ H6) as Hlen. pose proof (Forall2_length _ _ _ HF1) as Hlen1.
  pose proof (Forall2_length _ _ _ HF2) as Hlen2. rewrite Ees, length_app in Hdn.
  exists s', (log ++ integrated clk (length (hashesOf log)) (take n (drop (k * n) (startQueue st)) ++ l2)), r', (newer ++ l2).
  split; [exact Hrun|]. split; [|intros t' Ht' Hne; by eapply published_untouched].
  assert (hashesOf (log ++ integrated clk (length (hashesOf log)) (take n (drop (k * n) (startQueue st)) ++ l2)) =
    hashesOf log ++ hashesOf (take n (drop (k * n) (startQueue st)) ++ l2)) as Ehs.
  { unfold hashesOf at 1. rewrite fmap_app. f_equal. apply hashesOf_stamped. }
  split; rewrite ?Ehs; try done.
  - destruct Hr' as [->|[-> _]]; lia.
  - destruct Hr' as [->|[_ ->]]; lia.
  - rewrite fmap_app, H4. unfold integrated. rewrite content_stamped, <-fmap_app. f_equal.
    replace (S k * n) with (k * n + n) by lia. rewrite <-take_take_drop, <-!app_assoc. f_equal. f_equal.
    destruct (decide (k * n < length (startQueue st))) as [Hlt|Hge]; [by rewrite (H5 Hlt)|].
    by rewrite (drop_ge (startQueue st)), take_nil by lia.
  - intros Hlt. rewrite H5 by lia. rewrite length_drop in Hlen. cbn [app].
    assert (es = []) as E0 by (apply Hes; lia). rewrite E0 in Hlen2. by apply nil_length_inv.
  - rewrite (queued_delete (kv (local s)) _ t c cut n); [|lia..|exact Hq].
    replace (S k * n) with (k * n + n) by lia. rewrite <-drop_drop. by apply Forall2_drop.
  - intros c' key v Hin. apply (H7 c' key v). destruct (queue_range_key _ _ _ _ _ Hin) as [Hk _].
    apply elem_of_range in Hin as (Hv & ? & ?). apply elem_of_range. split; [|done]. rewrite (Hq key Hk) in Hv.
    by case_decide.
  - rewrite length_app. unfold integrated. rewrite length_stamped, length_app, <-Hlen1, <-Hlen2. lia.
Qed.

(** What happens to other logs changes nothing. *)
Lemma progress_untouched tree st k now s s' log r newer :
  int64 (TreeId tree) → (startRevision st + Z.of_nat k < 2 ^ 63)%Z →
  untouched (TreeId tree) s s' → wf_db (kv (local s')) → faults (local s') = [] → netFaults (remote s') = [] →
  progress tree st k now s log r newer → progress tree st k now s' log r newer.
Proof.
  intros Ht Hrev Hun Hwf Hf Hn [H1 H2 H3 H4 H5 H6 H7 H8]. split; try done.
  - apply (ready_untouched Sum256 tree Ht _ _ _ s s'); try done. lia.
  - by rewrite (untouched_queue tree s s' c Hun).
  - intros c' key v. rewrite (untouched_queue tree s s' c' Hun). apply H7.
Qed.

Lemma progress_arriving tree st k now s s' log r newer :
  int64 (TreeId tree) → (startRevision st + Z.of_nat k < 2 ^ 63)%Z →
  rtc (arriving c) s s' → progress tree st k now s log r newer → progress tree st k now s' log r newer.
Proof.
  intros Ht Hrev. induction 1 as [s|s1 s2 s3 Hs _ IH]; [done|]. intros [H1 H2 H3 H4 H5 H6 H7 H8]. apply IH.
  destruct Hs as [t ts noise raw leaf s Ht' Hts Hn Hraw Hleaf|lc s].
  2:{ split; try done. destruct H1 as [R1 R2 R3 R4 R5 R6 R7 R8 R9 R10]. by split. }
  split; try done.
  - rewrite (rdy_faults _ _ _ _ _ _ H1). apply (ready_queue Sum256 tree Ht); try done; lia.
  - cbn [with_local local kv]. by rewrite queued_insert_later by (done || lia).
  - cbn [with_local local kv]. intros c' key v (Hv & Hl)%elem_of_range. rewrite lookup_insert in Hv. case_decide; [|].
    + injection Hv as <-. by exists leaf.
    + apply (H7 c' key v). by apply elem_of_range.
Qed.

(** A log with nothing in its queue up to [c] is where it would be after a pass. *)
Lemma progress_idle tree st k now now' s log r newer :
  startQueue st = [] → (now ≤ now')%Z →
  progress tree st k now s log r newer → progress tree st (S k) now' s log r newer.
Proof.
  intros Hst Hnow [H1 H2 H3 H4 H5 H6 H7 H8]. rewrite Hst in *. rewrite !take_nil, !drop_nil in *.
  split; try done; rewrite ?Hst, ?take_nil, ?drop_nil; cbn [length]; try done; lia.
Qed.

(** ** A pass *)

Context (NewSigner : Config.Tree → outcome (bytes → outcome bytes)) (a : adminStorage).

(** A log that the sequencer can run on. *)
Record operable (tree : Config.Tree) : Prop := {
  op_found : findTree (as_trees a) (TreeId tree) = Ok tree;
  op_int64 : int64 (TreeId tree);
  op_type : tree_TreeType tree = LOG;
  op_state : tree_TreeState tree = ACTIVE;
  op_hasher : tree_HashStrategy tree = RFC6962_SHA256;
  op_signer : ∃ sign, trees_Signer NewSigner tree = Ok sign ∧ ∀ b, ∃ sg, sign b = Ok sg
}.

Lemma ExecutePass_operable tree clk :
  operable tree → ∃ sign maxDuration, (∀ b, ∃ sg, sign b = Ok sg) ∧
    ∀ s s', IntegrateBatch Sum256 clk tree sign limit guard maxDuration s = (Ok (), s') →
      ExecutePass Sum256 NewSigner a clk guard limit (TreeId tree) s = (Ok (), s').
Proof.
  intros [H1 H2 H3 H4 H5 (sign & H6 & H7)].
  exists sign, (match ptypes_Duration (tree_MaxRootDuration tree) with Ok d => d | _ => 0%Z end). split; [done|].
  assert (trees_GetTree Background a (TreeId tree) seqOpts = Ok tree) as E1.
  { unfold trees_GetTree, storage_GetTree, GetTree, validate. cbn. rewrite H1. unfold_O. by rewrite H3, H4. }
  intros s s' E. unfold ExecutePass. rewrite E1. erewrite mbind_step by reflexivity. rewrite H5.
  erewrite mbind_step by reflexivity. rewrite H6. erewrite mbind_step by reflexivity.
  unfold wrapErr, mbind, M_bind, try. by rewrite E.
Qed.

(** A log at its start and what is known of the time of its root. *)
Abbreviation Member := (Config.Tree * Start * Z)%type.
Abbreviation memberID := (λ m : Member, TreeId m.1.1).

Section pass.
Context (clks : Z → Clock).

Definition advanced (k : nat) (s : System) (m : Member) : Prop :=
  ∃ log r newer, progress m.1.1 m.1.2 k m.2 s log r newer.

(** The member after a pass. *)
Definition ticked (m : Member) : Member := (m.1, wrapU64 (rootTime (clks (memberID m)))).

(** Another log's batch leaves a log where it was. *)
Lemma advanced_other k j s s1 m m1 now st log r newer :
  int64 (memberID m) → memberID m ≠ TreeId m1 → (startRevision m.1.2 + Z.of_nat k < 2 ^ 63)%Z →
  (∀ t', int64 t' → t' ≠ TreeId m1 → untouched t' s s1) → progress m1 st j now s1 log r newer →
  advanced k s m → advanced k s1 m.
Proof.
  intros Ht Hne Hrev Hun Hp (log' & r' & newer' & Hm). exists log', r', newer'.
  pose proof (pr_ready _ _ _ _ _ _ _ _ Hp) as Hr.
  apply (progress_untouched _ _ _ _ s s1); [done|done|by apply Hun| |by apply Hr|by apply Hr|done].
  apply (rdy_tree _ _ _ _ _ _ Hr).
Qed.

(** What the next pass needs to know of a member. *)
Definition ready_to_tick (k : nat) (m : Member) : Prop :=
  operable m.1.1 ∧ ticks (clks (memberID m)) m.2 ∧ (startRevision m.1.2 + Z.of_nat k + 1 < 2 ^ 63)%Z ∧
  (Z.of_nat (length (startLog m.1.2)) + Z.of_nat (S k * n) < 2 ^ 55)%Z.

(** The executor: every job advances its log. *)
Lemma executor_run_advances k todo : ∀ dn s sn,
  NoDup (memberID <$> todo ++ dn) → Forall (ready_to_tick k) (todo ++ dn) →
  Forall (advanced k s) todo → Forall (advanced (S k) s) (ticked <$> dn) →
  ∃ sn' s', mfold (λ '(succeeded, failed) logID,
      r ← try (ExecutePass Sum256 NewSigner a (clks logID) guard limit logID);
      match r with Ok _ => mret (S succeeded, failed) | _ => mret (succeeded, S failed) end)
      sn (memberID <$> todo) s = (Ok sn', s') ∧
    Forall (advanced (S k) s') (ticked <$> todo ++ dn).
Proof.
  induction todo as [|m todo IH]; intros dn s sn Hnd Hm Htodo Hdn.
  { by exists sn, s. }
  apply Forall_cons in Htodo as [(log & r & newer & Hp) Htodo].
  pose proof Hm as [(Hop & Hclk & Hrev & Hlen) Hrest]%Forall_cons.
  destruct (ExecutePass_operable m.1.1 (clks (memberID m)) Hop) as (sign & maxDuration & Hsign & Hexec).
  destruct (batch_progress m.1.1 sign (clks (memberID m)) maxDuration m.1.2 k m.2 s log r newer)
    as (s1 & log1 & r1 & newer1 & Hrun & Hp1 & Hun); try done; try apply Hop.
  rewrite <-app_comm_cons, fmap_cons in Hnd. pose proof Hnd as [Hn _]%NoDup_cons.
  assert (∀ x j, x ∈ todo ++ dn → j ≤ S k → ∀ x', x'.1 = x.1 → advanced j s x' → advanced j s1 x') as Hother.
  { intros x j Hx Hj x' Ex. rewrite Forall_forall in Hrest. destruct (Hrest x Hx) as (Hopx & _ & Hrevx & _).
    eapply advanced_other; [rewrite Ex; apply Hopx| |rewrite Ex; lia|exact Hun|exact Hp1].
    rewrite Ex. intros E. apply Hn. rewrite <-E. by apply (list_elem_of_fmap_2 memberID). }
  destruct (IH (m :: dn) s1 (S sn.1, sn.2)) as (sn' & s' & E & Hall).
  - rewrite <-Permutation_middle. done.
  - rewrite <-Permutation_middle. done.
  - rewrite Forall_forall in Htodo. apply Forall_forall. intros x Hx. apply (Hother x k); [set_solver|lia|done|by apply Htodo].
  - rewrite fmap_cons. constructor; [by exists log1, r1, newer1|]. rewrite Forall_fmap, Forall_forall in Hdn.
    apply Forall_fmap, Forall_forall. intros x Hx. apply (Hother x (S k)); [set_solver|lia|done|by apply Hdn].
  - exists sn', s'. split; [|by rewrite <-Permutation_middle in Hall].
    rewrite fmap_cons. cbn [mfold]. destruct sn as [sc fl]. unfold mbind at 1, M_bind at 1.
    unfold mbind at 1, M_bind at 1, try at 1. rewrite (Hexec s s1 Hrun). exact E.
Qed.

(** *** What surrounds the executor *)

Lemma logName_elections {E} id (l : LogOperationManager E) :
  ∃ name l', logName a id l = (Ok name, l') ∧ elections l' = elections l.
Proof.
  unfold logName. erewrite mbind_step by reflexivity. destruct (logNames l !! id) as [name|]; [by exists name, l|].
  destruct (storage_GetTree a id) as [tr|e|] eqn:Et; [eexists _, _; by split|by exists (str "<err>"), l|].
  exfalso. revert Et. unfold storage_GetTree, GetTree, Config.Snapshot. unfold_O. cbn.
  induction (as_trees a) as [|tr ts IH]; cbn [findTree]; [done|]. by case_match.
Qed.

Lemma updateHeldIDs_elections {E} ids act (l : LogOperationManager E) :
  ∃ l', updateHeldIDs a ids act l = (Ok (), l') ∧ elections l' = elections l.
Proof.
  assert (∀ names, ∃ names' l', mfold (λ names logID, name ← logName a logID; mret (names ++ [name])) names ids l =
    (Ok names', l') ∧ elections l' = elections l) as Hnames.
  { clear. revert l. induction ids as [|id ids IH]; intros l names; [by exists names, l|].
    destruct (logName_elections id l) as (name & l1 & E1 & El1).
    destruct (IH l1 (names ++ [name])) as (names' & l' & E2 & El2). exists names', l'. split; [|congruence].
    cbn [mfold]. unfold mbind at 1, M_bind at 1. unfold mbind, M_bind. by rewrite E1. }
  destruct (Hnames []) as (names & l' & En & El). unfold updateHeldIDs, heldInfo.
  eexists. split; [|].
  - erewrite mbind_step by (erewrite mbind_step by exact En; reflexivity). reflexivity.
  - by case_bool_decide.
Qed.

Lemma getActiveLogIDs_eq :
  getActiveLogIDs a = Ok (TreeId <$> filter (λ tr, tree_TreeState tr = ACTIVE) (as_trees a)).
Proof.
  unfold getActiveLogIDs, LogStorage.Snapshot, Config.Snapshot. unfold_O. cbn [wrapf].
  destruct (GetActiveLogIDs_active (adminTx_iface (mkAdminTx (as_trees a))) (as_trees a) eq_refl) as (E1 & E2 & _).
  rewrite E1. cbn [wrapf]. by rewrite E2.
Qed.

Lemma advanced_idle k s m :
  startQueue m.1.2 = [] → ready_to_tick k m → advanced k s m → advanced (S k) s (ticked m).
Proof.
  intros Hst (_ & (_ & Htick & _) & _) (log & r & newer & Hp). exists log, r, newer.
  apply (progress_idle _ _ _ m.2); [done| |exact Hp]. cbn. lia.
Qed.

(** The log of a member is held, or will be when a pass asks for masters, because
    its runner will have taken two steps. *)
Definition elect (e : Elections NoopElection) (evs : list (bytes * RunnerEnv)) (m : Member) : Prop :=
  masters e (FormatInt (memberID m)) ∨ 2 ≤ stepsOf (FormatInt (memberID m)) evs.

(** A pass: the logs that are held, or whose runner has taken two steps by then, are
    held, and every log advances, if only because nothing was to be done. *)
Lemma pass_advances k evs members (l : LogOperationManager NoopElection) s :
  (λ m : Member, m.1.1) <$> members = filter (λ tr, tree_TreeState tr = ACTIVE) (as_trees a) →
  NoDup (memberID <$> members) → Forall (ready_to_tick k) members → Forall (advanced k s) members →
  undisputed (elections l) → Forall (steady ∘ snd) evs →
  (∀ m, m ∈ members → elect (elections l) evs m ∨ startQueue m.1.2 = []) →
  ∃ l' s', getLogsAndExecutePass Sum256 NewSigner a signerElectionFactory mainElectionConfig guard limit evs clks (l, s) =
      (Ok (), (l', s')) ∧
    undisputed (elections l') ∧
    (∀ m, m ∈ members →
       (elect (elections l) evs m → masters (elections l') (FormatInt (memberID m))) ∧
       stepsLeft (elections l') (FormatInt (memberID m)) ≤
         stepsLeft (elections l) (FormatInt (memberID m)) - stepsOf (FormatInt (memberID m)) evs ∧
       is_Some (electionRunner (elections l') !! FormatInt (memberID m))) ∧
    Forall (advanced (S k) s') (ticked <$> members).
Proof.
  intros Hact Hnd Hticks Hadv Hl Hevs Hheld.
  assert (TreeId <$> filter (λ tr, tree_TreeState tr = ACTIVE) (as_trees a) = memberID <$> members) as Eids
    by (by rewrite <-Hact, <-list_fmap_compose).
  assert (Forall int64 (memberID <$> members)) as Hint.
  { apply Forall_fmap. eapply Forall_impl; [exact Hticks|]. intros m (Hop & _). apply Hop. }
  destruct (masterFor_main evs (memberID <$> members) (elections l) Hl Hint Hevs)
    as (ids & e' & Em & He' & Hndi & Hids & Hkeep & Hnew).
  assert (∀ m, m ∈ members → elect (elections l) evs m → masters e' (FormatInt (memberID m))) as Hall.
  { intros m Hm [Hh|Hh]; [by apply Hkeep|]. apply stepsLeft_masters; [done|].
    destruct (Hnew (memberID m)) as [Hle _]; [by apply (list_elem_of_fmap_2 memberID)|].
    assert (stepsLeft (elections l) (FormatInt (memberID m)) ≤ 2); [|lia].
    unfold stepsLeft. destruct (electionRunner (elections l) !! _) as [r|]; [|done]. by destruct (pc r); cbn; lia. }
  set (held := filter (λ m, memberID m ∈ ids) members). set (rest := filter (λ m, ¬ memberID m ∈ ids) members).
  assert (members ≡ₚ held ++ rest) as Hsplit by (symmetry; apply filter_app_complement).
  assert (ids ≡ₚ memberID <$> held) as Hperm.
  { apply NoDup_Permutation; [done| |].
    { rewrite Hsplit, fmap_app in Hnd. by apply NoDup_app in Hnd as [? _]. }
    intros t. rewrite list_elem_of_fmap. split.
    - intros Ht. pose proof (proj1 (Hids t) Ht) as [(m & -> & Hm)%list_elem_of_fmap _].
      exists m. split; [done|]. by apply list_elem_of_filter.
    - intros (m & -> & [Hm _]%list_elem_of_filter). exact Hm. }
  destruct (Permutation_map_inv _ _ Hperm) as (members' & Eids' & Hmem').
  destruct (updateHeldIDs_elections ids (memberID <$> members) (mkManager e' (lastHeld l) (logNames l))) as (l' & El' & Ee').
  assert (members ≡ₚ members' ++ rest) as Hsplit' by (by rewrite <-Hmem').
  destruct (executor_run_advances k members' rest s (0, 0)) as (sn & s' & Ex & Hadv').
  { by rewrite <-Hsplit'. }
  { by rewrite <-Hsplit'. }
  { rewrite Hsplit' in Hadv. by apply Forall_app in Hadv as [? _]. }
  { apply Forall_fmap, Forall_forall. intros m [Hn Hm]%list_elem_of_filter. rewrite Forall_forall in Hadv, Hticks.
    apply advanced_idle; [|by apply Hticks|by apply Hadv]. destruct (Hheld m Hm) as [He|]; [|done].
    destruct Hn. apply Hids. split; [by apply (list_elem_of_fmap_2 memberID)|by apply Hall]. }
  rewrite <-Hsplit' in Hadv'.
  exists l', s'. split.
  - unfold getLogsAndExecutePass. rewrite getActiveLogIDs_eq, Eids. erewrite mbind_step by reflexivity.
    assert (onManager (onElections (wrapErr "failed to determine log IDs we're master for: %v"
      (masterFor signerElectionFactory mainElectionConfig evs (memberID <$> members)))) (l, s) =
      (Ok ids, (mkManager e' (lastHeld l) (logNames l), s))) as E1.
    { unfold onManager, onElections, zoom, wrapErr, mbind, M_bind, try. cbn [fst]. by rewrite Em. }
    erewrite mbind_step by exact E1.
    assert (onManager (updateHeldIDs a ids (memberID <$> members)) (mkManager e' (lastHeld l) (logNames l), s) =
      (Ok (), (l', s))) as E2 by (unfold onManager, zoom; cbn [fst]; by rewrite El').
    erewrite mbind_step by exact E2.
    assert (onStorage (executor_run Sum256 NewSigner a guard limit clks ids) (l', s) = (Ok sn, (l', s'))) as E3.
    { unfold onStorage, zoom, executor_run. cbn [snd]. 
      assert (ids = memberID <$> members') as -> by (rewrite Eids'; by apply list_fmap_ext). by rewrite Ex. }
    by erewrite mbind_step by exact E3.
  - rewrite Ee'. split; [done|]. split; [|done]. intros m Hm. split; [by apply Hall|].
    apply Hnew. by apply (list_elem_of_fmap_2 memberID).
Qed.
End pass.

(** ** The loop *)

(** A round in which nothing fails and the context goes on. *)
Definition quiet (r : Round) : Prop :=
  (∀ s, rtc (arriving c) s (traffic r s)) ∧ Forall (steady ∘ snd) (stepsBefore r) ∧
  Forall (steady ∘ snd) (stepsAfter r) ∧ doneAfterPass r = false ∧ doneInSleep r = false.

(** Every log has a clock that goes on from round to round. *)
Fixpoint on_time (rounds : list Round) (members : list Member) : Prop :=
  match rounds with
  | [] => True
  | r :: rounds =>
      Forall (λ m, ticks (clocks r (memberID m)) m.2) members ∧ on_time rounds (ticked (clocks r) <$> members)
  end.

(** A log at the time of its last root in the rounds. *)
Fixpoint lastTick (rounds : list Round) (m : Member) : Member :=
  match rounds with
  | [] => m
  | r :: rounds => lastTick rounds (ticked (clocks r) m)
  end.

Lemma lastTick_fst rounds m : (lastTick rounds m).1 = m.1.
Proof. revert m. induction rounds as [|r rounds IH]; intros m; [done|]. cbn [lastTick]. by rewrite IH. Qed.

(** The runner of a log takes two steps before the first pass asks for masters. *)
Definition elected_first (rounds : list Round) (id : Z) : Prop :=
  match rounds with
  | r :: _ => 2 ≤ length (filter (λ e, e.1 = FormatInt id) (stepsBefore r))
  | [] => False
  end.

(** The steps that the runner of a log takes in the rounds. *)
Fixpoint runnerSteps (rounds : list Round) (id : Z) : nat :=
  match rounds with
  | [] => 0
  | r :: rounds =>
      stepsOf (FormatInt id) (stepsBefore r) + stepsOf (FormatInt id) (stepsAfter r) + runnerSteps rounds id
  end.

(** What the rounds do for the mastership of a log: none is given up, those that are
    elected at first are held, and runners take their steps. *)
Definition mastered (rounds : list Round) (e e' : Elections NoopElection) (id : Z) : Prop :=
  (masters e (FormatInt id) ∨ elected_first rounds id → masters e' (FormatInt id)) ∧
  stepsLeft e' (FormatInt id) ≤ stepsLeft e (FormatInt id) - runnerSteps rounds id.

Abbreviation mainRound := (loopRound Sum256 NewSigner a signerElectionFactory mainElectionConfig guard limit).
Abbreviation mainLoop := (OperationLoop Sum256 NewSigner a signerElectionFactory mainElectionConfig guard limit).

(** A log is held, or will be by the first pass, or has nothing in its queue. *)
Definition in_hand (rounds : list Round) (e : Elections NoopElection) (m : Member) : Prop :=
  (masters e (FormatInt (memberID m)) ∨ elected_first rounds (memberID m)) ∨ startQueue m.1.2 = [].

Lemma round_advances k r members l s :
  (λ m : Member, m.1.1) <$> members = filter (λ tr, tree_TreeState tr = ACTIVE) (as_trees a) →
  NoDup (memberID <$> members) → Forall (ready_to_tick (clocks r) k) members → Forall (advanced k s) members →
  undisputed (elections l) → quiet r →
  (∀ m, m ∈ members → in_hand [r] (elections l) m) →
  ∃ l' s', mainRound r (l, s) = (Ok Looping, (l', s')) ∧
    undisputed (elections l') ∧
    (∀ m, m ∈ members → mastered [r] (elections l) (elections l') (memberID m)) ∧
    Forall (advanced (S k) s') (ticked (clocks r) <$> members).
Proof.
  intros Hact Hnd Hticks Hadv Hl (Htr & Hev1 & Hev2 & Hd1 & Hd2) Hheld.
  assert (Forall (advanced k (traffic r s)) members) as Hadv1.
  { rewrite Forall_forall in Hadv, Hticks. apply Forall_forall. intros m Hm.
    destruct (Hadv m Hm) as (log & rt & newer & Hp). destruct (Hticks m Hm) as (Hop & _ & Hrev & _).
    exists log, rt, newer. eapply progress_arriving; [apply Hop|lia|apply Htr|exact Hp]. }
  destruct (pass_advances (clocks r) k (stepsBefore r) members l (traffic r s) Hact Hnd Hticks Hadv1 Hl Hev1 Hheld)
    as (l1 & s1 & Epass & Hl1 & Hm1 & Hadv2).
  destruct mainElectionConfig_ok as [Hpause Hhold].
  destruct (runRunners_onward mainElectionConfig Hpause Hhold (stepsAfter r) (elections l1) Hl1 Hev2) as (e2 & E2 & He2 & Hon & Hrank).
  exists (mkManager e2 (lastHeld l1) (logNames l1)), s1. split; [|split; [exact He2|split; [|exact Hadv2]]].
  2:{ intros m Hm. destruct (Hm1 m Hm) as (Hh & Hle & Hr). split; [by intros He; apply (on_masters _ _ Hon), Hh|].
      destruct (stepsLeft_run (elections l1) e2 (FormatInt (memberID m)) (stepsOf (FormatInt (memberID m)) (stepsAfter r)))
        as [Hle2 _]; [done|apply Hrank|]. cbn [runnerSteps elections]. lia. }
  unfold loopRound. erewrite mbind_step by reflexivity. unfold mbind at 1, M_bind at 1, try at 1.
  cbn [fst snd]. rewrite Epass, Hd1.
  assert (onManager (onElections (runRunners mainElectionConfig (stepsAfter r))) (l1, s1) =
    (Ok (), (mkManager e2 (lastHeld l1) (logNames l1), s1))) as E3
    by (unfold onManager, onElections, zoom; cbn [fst]; by rewrite E2).
  erewrite mbind_step by exact E3.
  assert (onManager (onElections executeResignations) (mkManager e2 (lastHeld l1) (logNames l1), s1) =
    (Ok (), (mkManager e2 (lastHeld l1) (logNames l1), s1))) as E4.
  { unfold onManager, onElections, zoom, executeResignations, mbind, M_bind, get. cbn [fst elections].
    by rewrite (un_pending _ He2). }
  erewrite mbind_step by exact E4. by rewrite Hd2.
Qed.

Lemma mastered_cons r rounds e e1 e2 id :
  mastered [r] e e1 id → mastered rounds e1 e2 id → mastered (r :: rounds) e e2 id.
Proof.
  intros [H1 H2] [H3 H4]. split; [intros Hh; apply H3; left; by apply H1|]. cbn [runnerSteps] in *. lia.
Qed.

Lemma loop_advances rounds : ∀ k members l s,
  (λ m : Member, m.1.1) <$> members = filter (λ tr, tree_TreeState tr = ACTIVE) (as_trees a) →
  NoDup (memberID <$> members) → Forall (λ m : Member, operable m.1.1 ∧
    (startRevision m.1.2 + Z.of_nat (k + length rounds) < 2 ^ 63)%Z ∧
    (Z.of_nat (length (startLog m.1.2)) + Z.of_nat ((k + length rounds) * n) < 2 ^ 55)%Z) members →
  Forall (advanced k s) members → undisputed (elections l) → Forall quiet rounds → on_time rounds members →
  (∀ m, m ∈ members → in_hand rounds (elections l) m) →
  ∃ l' s', mainLoop rounds (l, s) = (Ok Looping, (l', s')) ∧ undisputed (elections l') ∧
    (∀ m, m ∈ members → mastered rounds (elections l) (elections l') (memberID m)) ∧
    Forall (advanced (k + length rounds) s') (lastTick rounds <$> members).
Proof.
  induction rounds as [|r rounds IH]; intros k members l s Hact Hnd Hok Hadv Hl Hq Htime Hheld.
  { exists l, s. rewrite Nat.add_0_r. split_and!; try done; [|by rewrite list_fmap_id].
    intros m Hm. split; [by intros [?|[]]|]. cbn [runnerSteps]. lia. }
  apply Forall_cons in Hq as [Hq Hqs]. destruct Htime as [Htime Htimes]. cbn [length] in *.
  destruct (round_advances k r members l s) as (l1 & s1 & E1 & Hl1 & Hm1 & Hadv1); try done.
  { rewrite Forall_forall in Hok, Htime. apply Forall_forall. intros m Hm. destruct (Hok m Hm) as (? & ? & ?).
    split; [done|]. split; [by apply Htime|]. split; [lia|]. assert (S k * n ≤ (k + S (length rounds)) * n) by nia. lia. }
  assert (fst <$> (ticked (clocks r) <$> members) = fst <$> members) as Efst by (by rewrite <-list_fmap_compose).
  destruct (IH (S k) (ticked (clocks r) <$> members) l1 s1) as (l' & s' & E2 & Hl' & Hm' & Hadv2); try done.
  - by rewrite <-list_fmap_compose.
  - by rewrite <-list_fmap_compose.
  - apply Forall_fmap. eapply Forall_impl; [exact Hok|]. intros m Hm. unfold compose, ticked. cbn [fst snd].
    by replace (S k + length rounds) with (k + S (length rounds)) by lia.
  - intros m (m0 & -> & Hm0)%list_elem_of_fmap. destruct (Hheld m0 Hm0) as [He|He]; [left; left|by right].
    by apply (Hm1 m0 Hm0).
  - exists l', s'. rewrite Nat.add_succ_r, <-Nat.add_succ_l.
    split; [cbn [OperationLoop]; by erewrite mbind_step by exact E1|]. split; [done|].
    split; [|by rewrite <-list_fmap_compose in Hadv2]. intros m Hm.
    eapply mastered_cons; [by apply Hm1|]. apply (Hm' (ticked (clocks r) m)). by apply list_elem_of_fmap_2.
Qed.

(** The log of a member at the start: ready, with what its queue holds up to a
    time. *)
Definition starting (upto : Z) (s : System) (m : Member) : Prop :=
  operable m.1.1 ∧
  (∃ r, ready Sum256 m.1.1 (hashesOf (startLog m.1.2)) (startLog m.1.2) r s ∧
     (0 ≤ LogRootV1.Revision r ≤ startRevision m.1.2)%Z ∧ (LogRootV1.TimestampNanos r ≤ m.2)%Z) ∧
  Forall2 (λ e l, unmarshal e.2 = Ok l) (queued (kv (local s)) (memberID m) upto) (startQueue m.1.2) ∧
  ∀ c' key v, (key, v) ∈ queued (kv (local s)) (memberID m) c' →
    ∃ leaf, unmarshal v = Ok leaf ∧ queueable leaf.

Lemma starting_advanced s m : starting c s m → advanced 0 s m.
Proof.
  intros (_ & (r & H1 & H2 & H3) & H4 & H5). exists (startLog m.1.2), r, [].
  split; cbn [Nat.mul]; rewrite ?take_0, ?drop_0, ?app_nil_r; try done; lia.
Qed.

(** What a log has gained after [k] rounds, and that the next round may start
    from there. *)
Record gained (k : nat) (s : System) (m : Member) (log newer : list LogLeaf) : Prop := {
  ga_log : content <$> log =
    content <$> (startLog m.1.2 ++ take (k * n) (startQueue m.1.2) ++ newer);
  ga_newer : k * n < length (startQueue m.1.2) → newer = [];
  ga_queue : Forall2 (λ e l, unmarshal e.2 = Ok l) (queued (kv (local s)) (memberID m) c)
    (drop (k * n) (startQueue m.1.2));
  ga_length : length log ≤ length (startLog m.1.2) + k * n;
  ga_next upto q :
    Forall2 (λ e l, unmarshal e.2 = Ok l) (queued (kv (local s)) (memberID m) upto) q →
    starting upto s (m.1.1, mkStart log q (startRevision m.1.2 + Z.of_nat k), m.2)
}.

(** Everything that [main_loop_publishes] says, and what becomes of logs that are
    not held, while nothing is in their queues. *)
Lemma loop_publishes rounds members l s :
  (λ m : Member, m.1.1) <$> members = filter (λ tr, tree_TreeState tr = ACTIVE) (as_trees a) →
  NoDup (memberID <$> members) → Forall (starting c s) members → undisputed (elections l) →
  Forall (λ m : Member, (startRevision m.1.2 + Z.of_nat (length rounds) < 2 ^ 63)%Z ∧
    (Z.of_nat (length (startLog m.1.2)) + Z.of_nat (length rounds * n) < 2 ^ 55)%Z) members →
  Forall quiet rounds → on_time rounds members →
  (∀ m, m ∈ members → in_hand rounds (elections l) m) →
  ∃ l' s', mainLoop rounds (l, s) = (Ok Looping, (l', s')) ∧ undisputed (elections l') ∧
    ∀ m, m ∈ members →
      mastered rounds (elections l) (elections l') (memberID m) ∧
      ∃ log newer, gained (length rounds) s' (lastTick rounds m) log newer.
Proof.
  intros Hact Hnd Hstart Hl Hbound Hq Htime Hheld.
  destruct (loop_advances rounds 0 members l s Hact Hnd) as (l' & s' & E & Hl' & Hm' & Hadv); try done.
  { rewrite Forall_forall in Hstart, Hbound. apply Forall_forall. intros m Hm.
    destruct (Hstart m Hm) as [Hop _]. destruct (Hbound m Hm). by split_and!. }
  { eapply Forall_impl; [exact Hstart|]. apply starting_advanced. }
  exists l', s'. split; [done|]. split; [done|]. intros m Hm. split; [by apply Hm'|].
  rewrite Forall_forall in Hadv, Hstart. destruct (Hadv (lastTick rounds m)) as (log & r & newer & [H1 H2 H3 H4 H5 H6 H7 H8]);
    [by apply list_elem_of_fmap_2|]. exists log, newer.
  split; rewrite ?lastTick_fst in *; try done. intros upto q Hq'. split; [by apply (Hstart m)|]. split; [|by split].
  exists r. split; [done|]. by split.
Qed.

(** C5. The main loop: as long as nothing fails, every active log is held from the
    first pass on for which its runner took two steps, no round is left out, and
    after [k] rounds every log has the leaves it had, then the first [k] times
    [limit] of those that were queued by the time [c], in the order of the queue,
    and behind them only leaves that were queued later and for which there was
    room; whatever is queued meanwhile, and whichever logs there are.  So every
    leaf that is queued is published after as many rounds as it has batches
    before it; and what is reached is a state the same holds of. *)
Theorem main_loop_publishes rounds members l s :
  (λ m : Member, m.1.1) <$> members = filter (λ tr, tree_TreeState tr = ACTIVE) (as_trees a) →
  NoDup (memberID <$> members) → Forall (starting c s) members → undisputed (elections l) →
  Forall (λ m : Member, (startRevision m.1.2 + Z.of_nat (length rounds) < 2 ^ 63)%Z ∧
    (Z.of_nat (length (startLog m.1.2)) + Z.of_nat (length rounds * n) < 2 ^ 55)%Z) members →
  Forall quiet rounds → on_time rounds members →
  (∀ m, m ∈ members → masters (elections l) (FormatInt (memberID m)) ∨ elected_first rounds (memberID m)) →
  ∃ l' s', mainLoop rounds (l, s) = (Ok Looping, (l', s')) ∧ undisputed (elections l') ∧
    ∀ m, m ∈ members →
      masters (elections l') (FormatInt (memberID m)) ∧ ∃ log newer, gained (length rounds) s' (lastTick rounds m) log newer.
Proof.
  intros Hact Hnd Hstart Hl Hbound Hq Htime Hheld.
  destruct (loop_publishes rounds members l s) as (l' & s' & E & Hl' & Hall); try done.
  { intros m Hm. left. by apply Hheld. }
  exists l', s'. split; [done|]. split; [done|]. intros m Hm. destruct (Hall m Hm) as [[Hh _] Hg].
  split; [by apply Hh, Hheld|done].
Qed.
End loop.

(** ** Whatever fails *)

Section faults.
Context (Sum256 : bytes → bytes).
Context `{!Codec LogLeaf, !Codec SubtreeProto, !Codec Frontier, !Codec (list LogLeaf)}.
Context `{!MapRange bytes, !MapRangeLaws bytes, !MapRange Z}.
Context (NewSigner : Config.Tree → outcome (bytes → outcome bytes)) (a : adminStorage).

Lemma findTree_TreeId ts id tree : findTree ts id = Ok tree → TreeId tree = id.
Proof.
  induction ts as [|tr ts IH]; cbn [findTree]; [done|].
  destruct (Z.eqb_spec (TreeId tr) id); [by intros [= <-]|done].
Qed.

Lemma ExecutePass_isolated clk guard batchSize logID s o s' t' :
  int64 logID → int64 t' → t' ≠ logID →
  ExecutePass Sum256 NewSigner a clk guard batchSize logID s = (o, s') → untouched t' s s'.
Proof.
  intros Ht Ht' Hne H. unfold ExecutePass in H.
  destruct (trees_GetTree Background a logID seqOpts) as [tree|e|] eqn:Et; [|by injection H as _ <-..].
  assert (TreeId tree = logID) as Eid.
  { unfold trees_GetTree, storage_GetTree, GetTree, Config.Snapshot in Et. cbn [ctxTree] in Et. unfold_O. cbn in Et.
    destruct (findTree (as_trees a) logID) as [tr| |] eqn:Ef; [|done..].
    destruct (validate seqOpts tr); [|done..]. injection Et as <-. by eapply findTree_TreeId. }
  erewrite mbind_step in H by reflexivity. unfold mbind at 1, M_bind at 1, lift at 1 in H.
  destruct (match tree_HashStrategy tree with RFC6962_SHA256 => Ok () | _ => _ end) as [[]|e|]; [|by injection H as _ <-..].
  destruct (trees_Signer NewSigner tree) as [sign|e|]; [|by injection H as _ <-..].
  erewrite mbind_step in H by reflexivity. unfold wrapErr, mbind, M_bind, try in H.
  destruct (IntegrateBatch _ _ _ _ _ _ _ s) as [o1 s1] eqn:Er.
  assert (s' = s1) as -> by (destruct o1; by injection H).
  apply (IntegrateBatch_isolated Sum256 _ _ _ _ _ _ _ _ _ t') in Er; [done|by rewrite Eid|done|by rewrite Eid].
Qed.

(** The jobs of a pass change nothing of logs that are not among them. *)
Lemma executor_run_isolated clks guard batchSize t' jobs : ∀ s sn o s',
  Forall int64 jobs → int64 t' → t' ∉ jobs →
  mfold (λ '(succeeded, failed) logID,
      r ← try (ExecutePass Sum256 NewSigner a (clks logID) guard batchSize logID);
      match r with Ok _ => mret (S succeeded, failed) | _ => mret (succeeded, S failed) end) sn jobs s = (o, s') →
  untouched t' s s'.
Proof.
  induction jobs as [|id jobs IH]; intros s [sc fl] o s' Hjobs Ht' Hn H.
  { by injection H as <- <-. }
  apply Forall_cons in Hjobs as [Hid Hjobs]. apply not_elem_of_cons in Hn as [Hne Hn]. cbn [mfold] in H.
  unfold mbind at 1, M_bind at 1 in H. unfold mbind at 1, M_bind at 1, try at 1 in H.
  destruct (ExecutePass _ _ _ _ _ _ _ s) as [o1 s1] eqn:Ee.
  apply (ExecutePass_isolated _ _ _ _ _ _ _ t') in Ee; [|done..].
  destruct o1 as [[]|e|]; [| |by injection H as <- <-];
    (apply IH in H; [|done..]; by transitivity s1).
Qed.

(** The executor does not stop at a job that fails: a run that ends has taken
    the jobs one after another, each on what the one before it left. *)
Definition turn (clks : Z → Clock) (guard batchSize : Z) (s : System) (logID : Z) : System :=
  (ExecutePass Sum256 NewSigner a (clks logID) guard batchSize logID s).2.

Lemma executor_run_turns clks guard batchSize jobs : ∀ s sn sn' s',
  mfold (λ '(succeeded, failed) logID,
      r ← try (ExecutePass Sum256 NewSigner a (clks logID) guard batchSize logID);
      match r with Ok _ => mret (S succeeded, failed) | _ => mret (succeeded, S failed) end) sn jobs s = (Ok sn', s') →
  s' = fold_left (turn clks guard batchSize) jobs s.
Proof.
  induction jobs as [|id jobs IH]; intros s [sc fl] sn' s' H; [by injection H as <- <-|].
  cbn [mfold fold_left] in *. unfold turn at 2.
  unfold mbind at 1, M_bind at 1 in H. unfold mbind at 1, M_bind at 1, try at 1 in H.
  destruct (ExecutePass _ _ _ _ _ _ _ s) as [[[]|e|] s1]; [| |done]; by apply IH in H.
Qed.

Lemma executor_run_errorless clks guard batchSize jobs :
  errorless (executor_run Sum256 NewSigner a guard batchSize clks jobs).
Proof.
  unfold executor_run. generalize (0, 0). induction jobs as [|id jobs IH]; intros sn; [done|]. cbn [mfold].
  apply errorless_bind; [|exact IH]. destruct sn as [sc fl]. apply errorless_bind.
  - intros s e. unfold try. by destruct (ExecutePass _ _ _ _ _ _ _ s) as [[] ?].
  - by intros [].
Qed.

(** C6. A pass touches only what it is for: whatever calls fail, whatever the
    bucket and the database answer and however runners go on, the rows and the
    objects of a log that is not active, or not held, are as they were.  One log's
    failure keeps no other log from its turn: a pass that ends has run the
    sequencer once on each log that is active and held, one after another,
    whatever came of the ones before.  The pass itself fails only when an election
    cannot be made, which does not happen in ct-log. *)
Theorem pass_isolated {E} `{!MasterElection E} newElection cfg guard batchSize evs clks
    (l l' : LogOperationManager E) s s' o t' :
  Forall (λ tr, int64 (TreeId tr)) (as_trees a) → int64 t' →
  getLogsAndExecutePass Sum256 NewSigner a (Some newElection) cfg guard batchSize evs clks (l, s) = (o, (l', s')) →
  (¬ ((∃ tr, tr ∈ as_trees a ∧ TreeId tr = t' ∧ tree_TreeState tr = ACTIVE) ∧ masters (elections l') (FormatInt t')) →
   untouched t' s s') ∧
  (o = Ok () → ∃ ids, NoDup ids ∧
     (∀ t, t ∈ ids ↔ (∃ tr, tr ∈ as_trees a ∧ TreeId tr = t ∧ tree_TreeState tr = ACTIVE) ∧
        masters (elections l') (FormatInt t)) ∧
     s' = fold_left (turn clks guard batchSize) ids s) ∧
  ∀ e, o = Err e → ∃ tr e', tr ∈ as_trees a ∧ newElection (FormatInt (TreeId tr)) = Err e'.
Proof.
  intros Hint Ht' H. unfold getLogsAndExecutePass in H. rewrite getActiveLogIDs_eq in H.
  erewrite mbind_step in H by reflexivity. set (act := TreeId <$> filter (λ tr, tree_TreeState tr = ACTIVE) (as_trees a)) in *.
  assert (Forall int64 act) as Hact.
  { apply Forall_fmap, Forall_forall. intros tr [_ Htr]%list_elem_of_filter. rewrite Forall_forall in Hint. by apply Hint. }
  unfold mbind at 1, M_bind at 1 in H. unfold onManager at 1, onElections at 1, zoom, wrapErr, mbind at 1, M_bind at 1, try in H.
  cbn [fst snd] in H. destruct (masterFor (Some newElection) cfg evs act (elections l)) as [[ids|e|] e'] eqn:Em.
  2:{ pose proof (masterFor_exact newElection cfg evs act _ _ _ Hact Em) as (t & e2 & Hin & He2).
      injection H as <- <- <-. split; [done|]. split; [done|]. intros _ _. apply list_elem_of_fmap in Hin as (tr & -> & [_ Htr]%list_elem_of_filter).
      by exists tr, e2. }
  2:{ injection H as <- <- <-. by split_and!. }
  pose proof (masterFor_exact newElection cfg evs act _ _ _ Hact Em) as [Hnd Hids].
  destruct (updateHeldIDs_elections a ids act (mkManager e' (lastHeld l) (logNames l))) as (l1 & El1 & Ee1).
  unfold lift in H. unfold mbind at 1, M_bind at 1 in H. cbn [fst snd] in H. unfold onManager at 1, zoom in H.
  cbn [fst snd] in H. rewrite El1 in H. unfold mbind, M_bind, onStorage, zoom in H. cbn [fst snd] in H.
  pose proof (executor_run_errorless clks guard batchSize ids s) as Hok.
  destruct (executor_run _ _ _ _ _ _ ids s) as [o1 s1] eqn:Ex. unfold executor_run in Ex.
  assert (l' = l1 ∧ s' = s1 ∧ (∀ e, o = Err e → o1 = Err e) ∧
    (o = Ok () → ∃ sn, o1 = Ok sn)) as (-> & -> & Ho & Hsn) by (destruct o1; injection H as <- <- <-; naive_solver).
  assert (Forall int64 ids) as Hids64 by (rewrite Forall_forall in *; intros t [Hin _]%Hids; by apply Hact).
  assert (∀ t, t ∈ act ↔ ∃ tr, tr ∈ as_trees a ∧ TreeId tr = t ∧ tree_TreeState tr = ACTIVE) as Hactive.
  { intros t. unfold act. rewrite list_elem_of_fmap. setoid_rewrite list_elem_of_filter. naive_solver. }
  split; [|split].
  - intros Hn. apply (executor_run_isolated clks guard batchSize t' ids s (0, 0) o1 s1); [done..| |exact Ex].
    intros [Hin Hm]%Hids. apply Hn. rewrite Ee1. split; [by apply Hactive|done].
  - intros [sn ->]%Hsn. exists ids. split; [done|]. split; [|by apply executor_run_turns in Ex].
    intros t. by rewrite Hids, Hactive, Ee1.
  - intros e He. by destruct (Hok e), (Ho e He).
Qed.

(** After an error, a loop whose context goes on never runs another round: it
    waits for the end of the context, and does not log the error even then. *)
Lemma OperationLoop_error {E} `{!MasterElection E} factory cfg guard batchSize r rounds
    (w w' : LogOperationManager E * System) e :
  getLogsAndExecutePass Sum256 NewSigner a factory cfg guard batchSize (stepsBefore r) (clocks r)
    (w.1, traffic r w.2) = (Err e, w') →
  doneAfterPass r = false →
  OperationLoop Sum256 NewSigner a factory cfg guard batchSize (r :: rounds) w = (Ok AwaitingDone, w').
Proof.
  intros H Hd. cbn [OperationLoop]. unfold mbind at 1, M_bind at 1. unfold loopRound.
  erewrite mbind_step by reflexivity. unfold mbind, M_bind, try. cbn [fst snd]. by rewrite H, Hd.
Qed.
End faults.

(** ** Witnesses *)

Section witnesses.
#[local] Existing Instance leafCodec.
#[local] Existing Instance subtreeCodec.
#[local] Existing Instance frontierCodec.
#[local] Existing Instance jsonCodec.
#[local] Existing Instance mapRange.
#[local] Existing Instance listRange.
#[local] Existing Instance listRangeLaws.

Lemma examples_decode (rows : list (bytes * bytes)) (hs : list byte) :
  rows.*2 = (λ h, pos_bytes (encode (exampleLeaf h))) <$> hs →
  Forall2 (λ e l, unmarshal e.2 = Ok l) rows (exampleLeaf <$> hs).
Proof.
  revert hs. induction rows as [|[k v] rows IH]; intros [|h hs] E; try done.
  injection E as -> E. constructor; [|by apply IH].
  by apply (unmarshal_marshal (CodecLaws := countableCodec_laws LogLeaf) (exampleLeaf h)).
Qed.

(** The admin storage of one log, and a signer. *)
Definition oneAdmin : adminStorage := mkAdminStorage [seqTree].
Definition toySigner : Config.Tree → outcome (bytes → outcome bytes) := λ _, Ok seqSign.

(** A leaf is queued at a time. *)
Definition arrive (ts : Z) (h : byte) (s : System) : System :=
  with_local (mkDB (<[queueRow 1 ts [Byte.x00; Byte.x00; Byte.x00; h] :=
    pos_bytes (encode (exampleLeaf h))]> (kv (local s))) (faults (local s))) s.

(** Two rounds: in the first one the runner becomes the master; before the second
    one a leaf arrives. *)
Definition twoRounds : list Round :=
  [mkRound id [(FormatInt 1, envAt 0); (FormatInt 1, envAt 0)] (λ _, clockAt 2000000000) false [] false;
   mkRound (arrive 11 Byte.x0b) [] (λ _, mkClock 2000000000 2000000000 (λ _, 2000000000%Z) 3000000000)
     false [(FormatInt 1, envAt 5)] false].
Definition threeLeaves : list LogLeaf := exampleLeaf <$> [Byte.x02; Byte.x03; Byte.x01].
Definition oneMember : list (Config.Tree * Start * Z) := [(seqTree, mkStart [] threeLeaves 0, 1%Z)].

Lemma three_decodes c' key v :
  (key, v) ∈ queued (kv (local threeQueued)) 1 c' → ∃ leaf, unmarshal v = Ok leaf ∧ queueable leaf.
Proof.
  intros Hin. destruct (queue_range_key _ _ _ _ _ Hin) as [Hk _]. apply elem_of_range in Hin as [Hv _].
  assert (map_Forall (λ k v, isQueueKey k = true →
    v ∈ (λ h, pos_bytes (encode (exampleLeaf h))) <$> [Byte.x02; Byte.x03; Byte.x01]) (kv (local threeQueued))) as Hall
    by (apply (bool_decide_unpack _); vm_compute; exact I).
  specialize (Hall key v Hv Hk). apply list_elem_of_fmap in Hall as (h & -> & _). exists (exampleLeaf h).
  split; [|apply exampleLeaf_queueable]. by apply (unmarshal_marshal (CodecLaws := countableCodec_laws LogLeaf) (exampleLeaf h)).
Qed.

Lemma oneMember_starting : Forall (starting toySum toySigner oneAdmin 10 threeQueued) oneMember.
Proof.
  constructor; [|constructor]. split; [|split; [|split]].
  - split; try done. exists seqSign. split; [done|]. intros b. by eexists.
  - exists firstHead. split; [apply queuedLog_ready, seqSystem_ready|]. split; [cbn; lia|]. vm_compute. done.
  - apply examples_decode. vm_compute. reflexivity.
  - exact three_decodes.
Qed.

Lemma twoRounds_quiet : Forall (quiet 10) twoRounds.
Proof.
  constructor; [|constructor; [|constructor]]; (split; [intros s|split; [repeat constructor; cbn; lia|split; [repeat constructor; cbn; lia|done]]]).
  - apply rtc_refl.
  - apply rtc_once, (arr_queue _ _ _ _ _ (exampleLeaf Byte.x0b)); [exact int64_1|lia|done| |apply exampleLeaf_queueable].
    by apply (unmarshal_marshal (CodecLaws := countableCodec_laws LogLeaf) (exampleLeaf Byte.x0b)).
Qed.

Lemma main_loop_publishes_witness :
  ∃ l' s' log newer,
    OperationLoop toySum toySigner oneAdmin signerElectionFactory mainElectionConfig 0 2 twoRounds
      (NewLogOperationManager, threeQueued) = (Ok Looping, (l', s')) ∧
    content <$> log = content <$> (threeLeaves ++ newer) ∧ queued (kv (local s')) 1 10 = [].
Proof.
  destruct (main_loop_publishes toySum (CodecLaws0 := countableCodec_laws SubtreeProto)
    (CodecLaws1 := countableCodec_laws Frontier) (H := jsonCodec_laws) (MapRangeLaws0 := listRangeLaws)
    (MapRangeLaws1 := mapRange_laws) (λ st, ex_intro _ _ eq_refl) subtree_fix (λ f, ex_intro _ _ eq_refl)
    (λ f _, eq_refl) toySum_ne (λ b, ltac:(simpl; lia)) 0 2 10 ltac:(lia) toySigner oneAdmin twoRounds oneMember
    NewLogOperationManager threeQueued) as (l' & s' & E & Hall).
  - reflexivity.
  - apply NoDup_singleton.
  - exact oneMember_starting.
  - split; [apply noElections_inv|done|]. intros id r Hr. cbn in Hr. by rewrite lookup_empty in Hr.
  - repeat constructor.
  - exact twoRounds_quiet.
  - split; [|split; [|done]]; (constructor; [|constructor]); (split; [|split; [|done]]); vm_compute; done.
  - intros m ->%list_elem_of_singleton. right. vm_compute. lia.
  - destruct Hall as [_ Hall]. destruct (Hall (seqTree, mkStart [] threeLeaves 0, 1%Z)) as (_ & log & newer & [Hlog _ Hq _ _]); [by left|].
    exists l', s', log, newer. split; [exact E|]. split; [exact Hlog|]. by apply Forall2_nil_inv_r in Hq.
Defined.

(** A pass in which the disk fails. *)
Definition faultySystem : System :=
  mkSystem (mkDB (kv (local threeQueued)) [None; Some 0; None; Some 0]) (remote threeQueued) (leafCache threeQueued).
Definition faultyPass : outcome unit * (LogOperationManager NoopElection * System) :=
  getLogsAndExecutePass toySum toySigner oneAdmin signerElectionFactory mainElectionConfig 0 2
    [(FormatInt 1, envAt 0); (FormatInt 1, envAt 0)] (λ _, clockAt 2000000000) (NewLogOperationManager, faultySystem).

Lemma pass_isolated_witness :
  fst faultyPass = Ok () ∧ untouched 2 faultySystem (snd (snd faultyPass)).
Proof.
  split; [vm_compute; reflexivity|].
  apply (pass_isolated toySum toySigner oneAdmin (NoopFactory_NewElection (str "signer")) mainElectionConfig 0 2
    [(FormatInt 1, envAt 0); (FormatInt 1, envAt 0)] (λ _, clockAt 2000000000) NewLogOperationManager
    (fst (snd faultyPass)) faultySystem (snd (snd faultyPass)) (fst faultyPass) 2).
  - constructor; [exact int64_1|constructor].
  - split; [done|]. cbn. lia.
  - rewrite <-!surjective_pairing. reflexivity.
  - intros [(tr & Hin & E & _) _]. change (tr ∈ [seqTree]) in Hin. by apply list_elem_of_singleton in Hin as ->.
Defined.

Lemma masterFor_held_witness :
  let r := masterFor signerElectionFactory mainElectionConfig
    [(FormatInt 12, envAt 0); (FormatInt 7, envAt 0); (FormatInt 12, envAt 0)] [7; 12]%Z noElections in
  fst r = Ok [12]%Z ∧ ¬ masters (snd r) (FormatInt 7).
Proof.
  cbv zeta. assert (fst (masterFor signerElectionFactory mainElectionConfig
    [(FormatInt 12, envAt 0); (FormatInt 7, envAt 0); (FormatInt 12, envAt 0)] [7; 12]%Z noElections) = Ok [12]%Z) as E
    by (vm_compute; reflexivity).
  split; [exact E|]. intros Hm.
  pose proof (masterFor_held (MapRangeLaws0 := listRangeLaws) (NoopFactory_NewElection (str "signer")) mainElectionConfig
    [(FormatInt 12, envAt 0); (FormatInt 7, envAt 0); (FormatInt 12, envAt 0)] [7; 12]%Z noElections _ _
    ltac:(repeat constructor; done) (surjective_pairing _)) as H. fold signerElectionFactory in H. rewrite E in H.
  destruct H as [_ H]. assert (7 ∈ [12])%Z as H7 by (apply H; split; [left|exact Hm]).
  by apply list_elem_of_singleton in H7.
Defined.
End witnesses.
