(* ===== verification/Shutdown.v ===== *)
(** * The end of the main loop

    The context of the main loop is cancelled by a signal; the loop ends after the
    pass, or the sleep, in which that happens ([Scheduler.OperationLoop]), cancels
    the runners and waits for them ([Scheduler.awaitRunners]).  In ct-log, whatever
    happens to the storage meanwhile, it ends, and the wait too. *)

From S2P Require Import Prelude Keys Trillian Frontier Fsm LevelDB Local Remote Cache Compact Nodes SubtreeCache TreeNodes Config.
From S2P Require Import ReadTx TreeTx StoredTree LogStorage Quota Rpc Server Sequencer Growth Election Scheduler MainLoop.

Section shutdown.
Context (Sum256 : bytes → bytes).
Context `{!Codec LogLeaf, !Codec SubtreeProto, !Codec Frontier, !Codec (list LogLeaf)}.
Context `{!MapRange bytes, !MapRangeLaws bytes, !MapRange Z}.
Context (NewSigner : Config.Tree → outcome (bytes → outcome bytes)) (a : adminStorage).
Context (Hint : Forall (λ tr, int64 (TreeId tr)) (as_trees a)).
Context (guard limit : Z).
Abbreviation pass := (getLogsAndExecutePass Sum256 NewSigner a signerElectionFactory mainElectionConfig guard limit).
Abbreviation mainRound := (loopRound Sum256 NewSigner a signerElectionFactory mainElectionConfig guard limit).
Abbreviation mainLoop := (OperationLoop Sum256 NewSigner a signerElectionFactory mainElectionConfig guard limit).

(** A pass of ct-log does not fail, and has no runner stop or resign. *)
Lemma pass_undisputed evs clks (l l' : LogOperationManager NoopElection) s s' o :
  undisputed (elections l) → Forall (steady ∘ snd) evs → pass evs clks (l, s) = (o, (l', s')) → o ≠ Panic →
  o = Ok () ∧ undisputed (elections l').
Proof.
  intros Hl Hevs H Ho. unfold getLogsAndExecutePass in H. rewrite getActiveLogIDs_eq in H.
  erewrite mbind_step in H by reflexivity. set (act := TreeId <$> filter (λ tr, tree_TreeState tr = ACTIVE) (as_trees a)) in *.
  assert (Forall int64 act) as Hact.
  { apply Forall_fmap, Forall_forall. intros tr [_ Htr]%list_elem_of_filter. rewrite Forall_forall in Hint. by apply Hint. }
  destruct (masterFor_main evs act (elections l) Hl Hact Hevs) as (ids & e' & Em & He' & _).
  unfold mbind at 1, M_bind at 1 in H. unfold onManager at 1, onElections at 1, zoom, wrapErr, mbind at 1, M_bind at 1, try in H.
  cbn [fst snd] in H. rewrite Em in H.
  destruct (updateHeldIDs_elections a ids act (mkManager e' (lastHeld l) (logNames l))) as (l1 & El1 & Ee1).
  unfold lift in H. unfold mbind at 1, M_bind at 1 in H. cbn [fst snd] in H. unfold onManager at 1, zoom in H.
  cbn [fst snd] in H. rewrite El1 in H. unfold mbind, M_bind, onStorage, zoom in H. cbn [fst snd] in H.
  pose proof (executor_run_errorless Sum256 NewSigner a clks guard limit ids s) as Hok.
  destruct (executor_run _ _ _ _ _ _ ids s) as [[sn|e|] s1].
  - injection H as <- <- _. by rewrite Ee1.
  - by destruct (Hok e).
  - by injection H as <- _.
Qed.

(** Whether the context ends in a round. *)
Definition ends (r : Round) : bool := doneAfterPass r || doneInSleep r.

Definition steadyRound (r : Round) : Prop :=
  Forall (steady ∘ snd) (stepsBefore r) ∧ Forall (steady ∘ snd) (stepsAfter r).

Lemma round_undisputed r l l' s s' o :
  undisputed (elections l) → steadyRound r → mainRound r (l, s) = (o, (l', s')) → o ≠ Panic →
  o = Ok (if ends r then ShutDown else Looping) ∧ undisputed (elections l').
Proof.
  intros Hl [Hev1 Hev2] H Ho. unfold loopRound in H. erewrite mbind_step in H by reflexivity.
  unfold mbind at 1, M_bind at 1, try at 1 in H. cbn [fst snd] in H.
  destruct (pass (stepsBefore r) (clocks r) (l, traffic r s)) as [o1 [l1 s1]] eqn:Epass.
  assert (o1 ≠ Panic) as Ho1 by (intros ->; by injection H as <- _).
  destruct (pass_undisputed _ _ _ _ _ _ _ Hl Hev1 Epass Ho1) as [-> Hl1]. unfold ends.
  destruct (doneAfterPass r); [injection H as <- <- _; by split|].
  destruct mainElectionConfig_ok as [Hpause Hhold].
  destruct (runRunners_onward mainElectionConfig Hpause Hhold (stepsAfter r) (elections l1) Hl1 Hev2) as (e2 & E2 & He2 & _).
  erewrite mbind_step in H by (unfold onManager, onElections, zoom; cbn [fst]; rewrite E2; reflexivity).
  erewrite mbind_step in H.
  2:{ unfold onManager, onElections, zoom, executeResignations, mbind, M_bind, get. cbn [fst snd elections].
      rewrite (un_pending _ He2). reflexivity. }
  injection H as <- <- _. by split.
Qed.

(** The loop ends with the first round in which its context ends. *)
Lemma loop_undisputed rounds : ∀ l l' s s' o,
  undisputed (elections l) → Forall steadyRound rounds → mainLoop rounds (l, s) = (o, (l', s')) → o ≠ Panic →
  o = Ok (if existsb ends rounds then ShutDown else Looping) ∧ undisputed (elections l').
Proof.
  induction rounds as [|r rounds IH]; intros l l' s s' o Hl Hr H Ho; [by injection H as <- <- _|].
  apply Forall_cons in Hr as [Hr Hrs]. cbn [OperationLoop existsb] in *. unfold mbind, M_bind in H.
  destruct (mainRound r (l, s)) as [o1 [l1 s1]] eqn:E1.
  assert (o1 ≠ Panic) as Ho1 by (intros ->; by injection H as <- _).
  destruct (round_undisputed _ _ _ _ _ _ Hl Hr E1 Ho1) as [-> Hl1].
  destruct (ends r); [injection H as <- <- _; by split|]. by eapply IH.
Qed.

(** C13. The program comes to its end when it is told to: whatever calls fail and
    requests do, no round of the main loop fails for good; the loop ends with the
    first round in which its context ends, and goes on before; and the runners,
    cancelled then, have all returned after two steps each, in whatever order they
    run, so that waiting for them ends. *)
Theorem loop_shuts_down rounds l l' s s' o evs :
  undisputed (elections l) → Forall steadyRound rounds →
  mainLoop rounds (l, s) = (o, (l', s')) → o ≠ Panic →
  (∀ id, is_Some (electionRunner (elections l') !! id) → 2 ≤ length (filter (λ e, e.1 = id) evs)) →
  o = Ok (if existsb ends rounds then ShutDown else Looping) ∧
  ∃ e, awaitRunners mainElectionConfig evs (elections l') = (Ok true, e).
Proof.
  intros Hl Hr H Ho Hevs. destruct (loop_undisputed _ _ _ _ _ _ Hl Hr H Ho) as [Eo Hl']. split; [done|].
  destruct mainElectionConfig_ok as [Hpause _].
  set (evs' := (λ '(id, env), (id, mkRunnerEnv true (env_now env) (env_rand env))) <$> evs).
  destruct (runRunners_stop mainElectionConfig Hpause evs' (elections l')) as (e & Ee & Hstop).
  - apply Hl'.
  - intros id r Hir. pose proof (un_pc _ Hl' id r Hir). by destruct (pc r).
  - apply Forall_fmap, Forall_forall. by intros [].
  - exists e. unfold awaitRunners. erewrite mbind_step by exact Ee. erewrite mbind_step by reflexivity.
    rewrite bool_decide_true; [done|]. intros id r' Hr'. destruct (Hstop id r' Hr') as (r & Hir & Hp & Hle).
    assert (length (filter (λ e, e.1 = id) evs') = length (filter (λ e, e.1 = id) evs)) as En.
    { clear. subst evs'. induction evs as [|[i env] evs IH]; [done|]. rewrite fmap_cons, !filter_cons. cbn [fst].
      case_decide; cbn [length]; by rewrite IH. }
    specialize (Hevs id ltac:(by eexists)). assert (stopRank (pc r) ≤ 2) by (destruct (pc r); cbn; lia).
    assert (stopRank (pc r') = 0) as Hz by lia. by destruct (pc r').
Qed.
End shutdown.

(** ** Witness *)

Section witnesses.
#[local] Existing Instance leafCodec.
#[local] Existing Instance subtreeCodec.
#[local] Existing Instance frontierCodec.
#[local] Existing Instance jsonCodec.
#[local] Existing Instance mapRange.
#[local] Existing Instance listRange.
#[local] Existing Instance listRangeLaws.

(** Two rounds, told to end in the sleep after the first one, in whose pass the
    disk fails. *)
Definition endRound (e : bool) : Round :=
  mkRound id [(FormatInt 1, envAt 5); (FormatInt 1, envAt 6)] (λ _, clockAt 2000000000) false [] e.

Definition endedLoop : outcome loopState * (LogOperationManager NoopElection * System) :=
  OperationLoop toySum toySigner oneAdmin signerElectionFactory mainElectionConfig 0 2
    [endRound true; endRound false] (NewLogOperationManager, faultySystem).

Lemma loop_shuts_down_witness :
  fst endedLoop = Ok ShutDown ∧ electionRunner (elections (snd endedLoop).1) !! FormatInt 1 ≠ None ∧
  ∃ e, awaitRunners mainElectionConfig [(FormatInt 1, envAt 9); (FormatInt 1, envAt 9)]
    (elections (snd endedLoop).1) = (Ok true, e).
Proof.
  assert (fst endedLoop = Ok ShutDown) as E by (vm_compute; reflexivity).
  split; [exact E|]. split; [vm_compute; discriminate|].
  destruct (loop_shuts_down toySum (MapRangeLaws0 := listRangeLaws) toySigner oneAdmin
    ltac:(constructor; [exact int64_1|constructor]) 0 2 [endRound true; endRound false] NewLogOperationManager
    (snd endedLoop).1 faultySystem (snd endedLoop).2 (fst endedLoop)
    [(FormatInt 1, envAt 9); (FormatInt 1, envAt 9)]) as [_ H].
  - split; [apply noElections_inv|done|]. intros id r Hr. cbn in Hr. by rewrite lookup_empty in Hr.
  - repeat constructor; cbn; lia.
  - rewrite <-!surjective_pairing. reflexivity.
  - rewrite E. discriminate.
  - intros id Hid. assert (map_Forall (λ id _, id = FormatInt 1) (electionRunner (elections (snd endedLoop).1))) as Hm
      by (apply (bool_decide_unpack _); vm_compute; exact I).
    destruct Hid as [r Hr]. rewrite (Hm id r Hr). vm_compute. lia.
  - exact H.
Defined.
End witnesses.
