(* ===== verification/Boot.v ===== *)
(** * A server that starts from nothing

    What start-up ([Server.startup]) leaves behind on an empty database and an
    empty bucket, and the program from there on: [main], start-up and the main
    loop, and that it publishes what is queued to it. *)

From S2P Require Import Prelude Keys Trillian Frontier Fsm LevelDB Local Remote Cache Compact Nodes SubtreeCache TreeNodes Config.
From S2P Require Import ReadTx TreeTx StoredTree LogStorage Quota Rpc Server Sequencer Growth Arrivals Election Isolation Scheduler MainLoop.

(** ** Databases that hold roots of empty logs only *)

Section booted.
Context (Sum256 : bytes → bytes) `{!Codec Frontier}.

(** Nothing fails; there are roots of logs without leaves, not newer than [now],
    and nothing else. *)
Record booted (now : Z) (s : System) : Prop := {
  bo_faults : faults (local s) = [];
  bo_net : netFaults (remote s) = [];
  bo_objects : objects (remote s) = ∅;
  bo_db : wf_db (kv (local s));
  bo_keys k : is_Some (kv (local s) !! k) → isRootKey k = true;
  bo_log t : int64 t → log_state Sum256 t [] (kv (local s));
  bo_root t raw : int64 t → kv (local s) !! keyS typ_r t "root" = Some raw →
    ∃ r, LogRootV1.UnmarshalBinary raw = Ok r ∧ LogRootV1.TreeSize r = 0%Z ∧
      LogRootV1.Revision r = 0%Z ∧ (LogRootV1.TimestampNanos r ≤ now)%Z
}.

Definition fresh (s : System) : Prop :=
  faults (local s) = [] ∧ netFaults (remote s) = [] ∧ objects (remote s) = ∅ ∧ kv (local s) = ∅.

Lemma fresh_booted now s : fresh s → booted now s.
Proof.
  intros (H1 & H2 & H3 & H4). split; try done; rewrite H4.
  - intros k v Hv. by rewrite lookup_empty in Hv.
  - intros k [v Hv]. by rewrite lookup_empty in Hv.
  - intros t _. split; [constructor|]. left. split; [done|apply lookup_empty].
  - intros t raw _ Hv. by rewrite lookup_empty in Hv.
Qed.

Lemma booted_cache now s lc : booted now s → booted now (mkSystem (local s) (remote s) lc).
Proof. intros []. by split. Qed.

Lemma booted_none now s k : booted now s → isRootKey k = false → kv (local s) !! k = None.
Proof.
  intros Hs Hk. destruct (kv (local s) !! k) as [v|] eqn:E; [|done].
  pose proof (bo_keys _ _ Hs k ltac:(by eexists)). congruence.
Qed.
End booted.

Section boot.
Context (Sum256 : bytes → bytes).
Context `{!Codec LogLeaf, !Codec SubtreeProto, !Codec Frontier, !Codec (list LogLeaf)}.
Context `{!MapRange bytes, !MapRangeLaws bytes, !MapRange Z, !CodecLaws Frontier}.
Context (Hcanon : ∀ f, solid f → canon f = f) (Hsum : ∀ b, Sum256 b ≠ []).
Context (NewSigner : Config.Tree → outcome (bytes → outcome bytes)) (a : adminStorage).
Context (HSigner : ∀ tree sign b, NewSigner tree = Ok sign → sign b ≠ Err ErrTreeNeedsInit).

(** ** The transaction of [InitLog] *)

Lemma firstRoot_reads now tree s :
  firstRoot Sum256 NewSigner now tree = Ok s →
  LogRootV1.UnmarshalBinary (sl (LogRoot s)) = Ok (LogRootV1.mk 0 (Sum256 []) (wrapU64 now) 0 []).
Proof.
  unfold firstRoot. intros H. apply outcome_bind_Ok in H as (sign & _ & H).
  eapply SignLogRoot_reads in H; [apply H|].
  unfold LogRootV1.wf, wrapU64. cbn. pose proof (Z.mod_pos_bound now (2 ^ 64)). lia.
Qed.

(** A batch with a first root. *)
Lemma booted_rootPuts bound now tree t s r raw :
  booted Sum256 bound s → int64 t → (wrapU64 now ≤ bound)%Z →
  firstRoot Sum256 NewSigner now tree = Ok r → marshal (appendAll Sum256 zeroFrontier []) = Ok raw →
  booted Sum256 bound (with_local (mkDB (apply_batch (kv (local s)) (rootPuts t r raw)) []) s).
Proof.
  intros [H1 H2 H3 H4 H5 H6 H7] Ht Hnow Hr Hraw. pose proof (firstRoot_reads now tree r Hr) as Hreads.
  apply firstRoot_honest in Hr as (Hhonest & Hh & _).
  assert (∀ t' name, int64 t' → t' ≠ t →
    apply_batch (kv (local s)) (rootPuts t r raw) !! keyS typ_r t' name = kv (local s) !! keyS typ_r t' name) as Hother.
  { intros t' name Ht' Hne. unfold apply_batch, rootPuts. cbn [fold_left apply_op].
    by rewrite !lookup_insert_ne by (by apply keyS_other). }
  split; try done; cbn [with_local local kv].
  - apply wf_db_apply_batch; [done|]. intros k v Hin. unfold rootPuts in Hin. rewrite !elem_of_cons in Hin.
    destruct Hin as [[= -> _]|[[= -> _]|[[= -> _]|Hin]]]; [by apply wf_root..|by apply not_elem_of_nil in Hin].
  - intros k Hk. unfold apply_batch, rootPuts in Hk. cbn [fold_left apply_op] in Hk.
    rewrite !lookup_insert in Hk. repeat (case_decide; [by subst|]). by apply H5.
  - intros t' Ht'. destruct (decide (t' = t)) as [->|Hne].
    + destruct (intact_root Sum256 Hcanon Hsum (λ _, []) [] t (kv (local s)) (rootPuts t r raw) r raw) as [Hlog _]; try done.
      * split; [exact H6|]. intros ? Hin. by apply not_elem_of_nil in Hin.
      * rewrite Hh. done.
      * by apply Hlog.
    + apply (log_state_rows Sum256 t' _ (kv (local s))); [|by apply H6]. intros name. by apply Hother.
  - intros t' raw' Ht'. destruct (decide (t' = t)) as [->|Hne].
    + unfold apply_batch, rootPuts. cbn [fold_left apply_op].
      rewrite !lookup_insert_ne by (by apply keyS_name). rewrite lookup_insert_eq. intros [= <-].
      eexists. split; [exact Hreads|]. by cbn.
    + rewrite Hother by done. by apply H7.
Qed.

Lemma MostRecentRoot_LogRoot t d p d' : MostRecentRoot t d = (Ok p, d') → is_Some (LogRoot p.1).
Proof.
  unfold MostRecentRoot. intros H. repeat (apply mbind_Ok in H as (? & ? & _ & H)).
  injection H as <- _. by eexists.
Qed.

Lemma Local_Commit_quiet d ltx :
  faults d = [] →
  Local.Commit (d, ltx) = (Ok (), (mkDB (apply_batch (kv d) (default [] (batch ltx))) [], mkLocalTx None)).
Proof. destruct d as [m fs]. cbn. by intros ->. Qed.

(** Committing a batch when no node was touched. *)
Lemma Commit_batch s t b st :
  faults (local s) = [] → st = sStoreSignedLogRoot →
  ∃ tx, TreeTx.Commit (s, mkLTX (mkROLT (mkSubtreeCache logStrataInfo ∅ ∅) t zeroSignedLogRoot zeroFrontier false)
      (mkFsm st) (mkLocalTx (Some b)) false) =
    (Ok (), (with_local (mkDB (apply_batch (kv (local s)) b) []) s, tx)).
Proof.
  intros Hf ->. unfold TreeTx.Commit. erewrite mbind_step by reflexivity. erewrite mbind_step by reflexivity.
  cbn [snd queuedLeaves].
  assert (map_range (∅ : gmap bytes SubtreeProto) = []) as Er.
  { apply Permutation_nil_r. etrans; [apply map_range_perm|]. by rewrite map_to_list_empty. }
  erewrite mbind_step.
  2:{ unfold onCacheTx, zoom. cbn [fst snd rolt localTx tx_fsm queuedLeaves subtreeCache]. unfold Flush.
      erewrite mbind_step by reflexivity. unfold onCache, mbind, M_bind, zoom. cbn [fst snd subtrees]. rewrite Er. reflexivity. }
  erewrite mbind_step by (unfold onDBTx, zoom; cbn [fst snd localTx]; rewrite Local_Commit_quiet by done; reflexivity).
  by eexists.
Qed.

Lemma InitLog_booted bound now tree t s s' :
  booted Sum256 bound s → int64 t → (wrapU64 now ≤ bound)%Z →
  LogStorage.ReadWriteTransaction t (initTx Sum256 NewSigner now tree) s = (Ok (), s') → booted Sum256 bound s'.
Proof.
  intros Hs Ht Hnow (ltx & s1 & w & w' & Hb & Hf & Hc & <-)%ReadWriteTransaction_Ok.
  unfold beginForTree in Hb. rewrite NewLogSubtreeCache_Ok in Hb. erewrite mbind_step in Hb by reflexivity.
  unfold mbind at 1, M_bind at 1, try, sysLocal, zoom in Hb.
  pose proof (quiet_MostRecentRoot (local s) (bo_faults _ _ _ Hs) t (local s) eq_refl) as Hd.
  destruct (MostRecentRoot t (local s)) as [o d] eqn:Em. cbn in Hd. subst d.
  unfold initTx in Hf. rewrite (mbind_step _ _ _ _ _ (onRead_root (s1, ltx))) in Hf. cbn [snd] in Hf.
  destruct (LogRoot (root (rolt ltx))) eqn:Er; [done|].
  assert (s1 = s ∧ ltx = mkLTX (mkROLT (mkSubtreeCache logStrataInfo ∅ ∅) t zeroSignedLogRoot zeroFrontier false)
    (mkFsm sBegin) (mkLocalTx (Some [])) false) as [-> ->].
  { destruct o as [p|e|]; [|destruct e; try done|done].
    - apply MostRecentRoot_LogRoot in Em as [? Em]. destruct p as [r f]. injection Hb as <- _. cbn in *. congruence.
    - injection Hb as <- <-. split; [by destruct s|done]. }
  apply mbind_Ok in Hf as (r & w1 & Hr & Hf). injection Hr as Hr <-. rewrite wrapErr_returns in Hf.
  unfold StoreSignedLogRoot in Hf. erewrite mbind_step in Hf by reflexivity. erewrite mbind_step in Hf by reflexivity.
  cbn [fst snd rolt front treeID] in Hf. case_match; [done|]. unfold onTx, zoom in Hf.
  cbn [fst snd rolt localTx tx_fsm queuedLeaves] in Hf. unfold StoreRoot in Hf.
  destruct (marshal zeroFrontier) as [raw|e|] eqn:Eraw; [|done..]. injection Hf as <-.
  destruct (Commit_batch s t (rootPuts t r raw) sStoreSignedLogRoot (bo_faults _ _ _ Hs) eq_refl) as [tx Hc'].
  cbn [app] in Hc. rewrite !dupSlice_id in Hc. fold (rootPuts t r raw) in Hc.
  rewrite Hc' in Hc. injection Hc as <-. by apply (booted_rootPuts bound now tree).
Qed.

(** ** Start-up *)

Lemma GetLatest_booted bound ctx t w o w' :
  booted Sum256 bound (system w) → srvGetLatestSignedLogRoot a ctx t w = (o, w') → system w' = system w.
Proof.
  intros Hs. unfold srvGetLatestSignedLogRoot, readLog. unfold mbind at 1, M_bind at 1, lift.
  destruct (trees_GetTree _ _ _ _); [|by intros [= _ <-]..].
  unfold onSys, zoom, withSnapshot, mbind at 1, M_bind at 1, SnapshotForTree.
  rewrite NewLogSubtreeCache_Ok. erewrite mbind_step by reflexivity. unfold mbind at 1, M_bind at 1, sysLocal, zoom.
  pose proof (quiet_MostRecentRoot (local (system w)) (bo_faults _ _ _ Hs) t (local (system w)) eq_refl) as Hd.
  destruct (MostRecentRoot t (local (system w))) as [o1 d]. cbn in Hd. subst d.
  destruct o1 as [[r f]|e|]; cbn; intros [= _ <-]; cbn; by destruct (system w).
Qed.

Lemma srvInitLog_booted bound now ctx t w x w' :
  booted Sum256 bound (system w) → int64 t → (wrapU64 now ≤ bound)%Z →
  srvInitLog Sum256 NewSigner a now ctx t w = (Ok x, w') → booted Sum256 bound (system w').
Proof.
  intros Hs Ht Hnow Hsrv. unfold srvInitLog in Hsrv. unfold mbind at 1, M_bind at 1, lift in Hsrv.
  destruct (wrapf "getTreeAndHasher(): %v" (getTreeAndHasher a ctx t optsLogInit)) as [tree|e|]; [|by injection Hsrv..].
  unfold mbind at 1, M_bind at 1, try, onSys, zoom in Hsrv.
  destruct (LogStorage.ReadWriteTransaction t _ (system w)) as [o1 s1] eqn:E.
  destruct o1 as [[]|e|]; [| |by injection Hsrv].
  - eapply InitLog_booted in E; [|done..]. destruct (firstRoot Sum256 NewSigner now tree); cbn in Hsrv; by injection Hsrv as _ <-.
  - destruct e; try by injection Hsrv. exfalso. by eapply InitLog_error.
Qed.

Lemma ensureInit_booted bound now env t w w' :
  booted Sum256 bound (system w) → int64 t → (wrapU64 now ≤ bound)%Z →
  ensureInit Sum256 NewSigner a now env t w = (Ok (), w') → booted Sum256 bound (system w').
Proof.
  intros Hs Ht Hnow. unfold ensureInit, Client.GetLatestSignedLogRoot, logServer.
  unfold mbind at 1, M_bind at 1, try at 1. destruct (call _ _ _ _ w) as [o1 w1] eqn:E1.
  assert (system w1 = system w) as Hk.
  { apply call_system in E1 as [[-> _]|(ctx' & w2 & o2 & w3 & E2 & Hsrv & E3 & _)]; [done|].
    rewrite E3, <-E2. eapply GetLatest_booted; [|exact Hsrv]. by rewrite E2. }
  rewrite <-Hk in Hs. destruct o1 as [r|e|]; [by intros [= <-]| |done]. destruct e; try done.
  unfold Client.InitLog, mbind at 1, M_bind at 1, try at 1.
  destruct (call _ _ _ _ w1) as [o1 w4] eqn:E2.
  assert (∀ x, o1 = Ok x → booted Sum256 bound (system w4)) as Hok.
  { apply call_system in E2 as [[_ Hn]|(ctx' & w2 & o2 & w3 & E3 & Hsrv & -> & ->)]; [intros x Hx; by destruct (Hn x)|].
    intros x Hx. destruct o2 as [x2|e|]; [|by destruct e|done]. rewrite <-E3 in Hs. by eapply srvInitLog_booted. }
  destruct o1 as [x|e|]; cbn; intros [= <-]. by apply (Hok x).
Qed.

Lemma setupLogs_booted {H} (ctfe : LogConfig → outcome (list (string * H))) bound clock cfgs :
  (∀ i, (wrapU64 (clock i).1 ≤ bound)%Z) → Forall (λ lc, int64 (Config.LogId lc)) cfgs → ∀ i w hs w',
  booted Sum256 bound (system w) → setupLogs Sum256 NewSigner a ctfe clock i cfgs w = (Ok hs, w') →
  booted Sum256 bound (system w').
Proof.
  intros Hclock Hc. induction Hc as [|lc cfgs Ht _ IH]; intros i w hs w' Hs Hrun; [by injection Hrun as _ <-|].
  cbn [setupLogs] in Hrun. apply mbind_Ok in Hrun as ([] & w1 & E & Hrun).
  apply mbind_Ok in Hrun as (hs1 & w2 & E2 & Hrun). injection E2 as _ <-.
  apply mbind_Ok in Hrun as (more & w3 & E3 & Hrun). injection Hrun as _ <-.
  eapply IH; [|exact E3]. by eapply ensureInit_booted.
Qed.

(** ** Start-up comes to its end *)

(** A tree that start-up may set up: it is neither deleted nor deprecated, and its
    key signs. *)
Definition startable (tree : Config.Tree) : Prop :=
  findTree (as_trees a) (TreeId tree) = Ok tree ∧ int64 (TreeId tree) ∧ tree_TreeType tree = LOG ∧
  tree_HashStrategy tree = RFC6962_SHA256 ∧ tree_TreeState tree ∈ okStates Admin ∧
  ∃ sign, trees_Signer NewSigner tree = Ok sign ∧ ∀ b, ∃ sg, sign b = Ok sg.

Lemma startable_validate tree op :
  startable tree → op = Admin ∨ op = Query → validate (mkGetOpts [LOG; PREORDERED_LOG] op) tree = Ok ().
Proof.
  intros (_ & _ & Hty & _ & Hst & _) Hop. unfold validate. cbn [TreeTypes Operation]. rewrite Hty.
  assert (okStates op = okStates Admin) as -> by (by destruct Hop as [->| ->]). rewrite (bool_decide_true _ Hst).
  by destruct Hop as [->| ->].
Qed.

Lemma startable_GetTree tree op ctx :
  startable tree → op = Admin ∨ op = Query → ctxTree ctx = None ∨ ctxTree ctx = Some tree →
  trees_GetTree ctx a (TreeId tree) (mkGetOpts [LOG; PREORDERED_LOG] op) = Ok tree.
Proof.
  intros Hs Hop Hctx. unfold trees_GetTree, storage_GetTree, GetTree, Config.Snapshot. cbn [mbind outcome_bind trees].
  unfold_O. pose proof (startable_validate tree op Hs Hop) as Hv. pose proof (proj1 Hs) as Hf.
  destruct Hctx as [->| ->]; [|rewrite Z.eqb_refl; cbn; by rewrite Hv]. cbn. rewrite Hf. cbn. by rewrite Hv.
Qed.

(** A call that the quota admits is the server's. *)
Lemma call_admitted srv m (req : Req m) w tree q :
  trees_GetTree Background a (LogId req) (mkGetOpts (typesOf m) Admin) = Ok tree →
  (0 < tokensOf m (body req))%Z →
  GetTokens (tokensOf m (body req)) (specsOf (kindOf m) (ChargeTo req) (LogId req)) (quota w) = (Ok (), q) →
  ∃ l, call (newLogServer a srv) m Background req w =
    (errorOf (srv m (NewContext Background tree) req (mkWorld (system w) q (spawned w))).1,
     with_spawned l (srv m (NewContext Background tree) req (mkWorld (system w) q (spawned w))).2).
Proof.
  intros Ht Hn Hq.
  assert (Before (mkInterceptor a false) Background (anyReq m req) (FullMethod m) w =
    (Ok (NewContext Background tree, Some (infoOf req)), mkWorld (system w) q (spawned w))) as HB.
  { rewrite Before_req, Ht. cbn [errAfterTree errAfterTokens Background specs infoOf]. cbv zeta.
    by rewrite (proj2 (Z.ltb_lt _ _) Hn), Hq. }
  rewrite call_eq. unfold served. rewrite (mbind_step _ _ _ _ _ HB). cbn [fst snd].
  unfold mbind, M_bind, try, lift. destruct (srv m _ req _) as [o w2]. cbn [fst snd].
  destruct o as [x|e|]; cbn [fmap outcome_fmap]; [| |exists (spawned w2); by destruct w2];
    rewrite After_req; cbn [fst snd]; (case_match; [by eexists|exists (spawned w2); by destruct w2]).
Qed.

Lemma booted_MostRecentRoot bound s t :
  booted Sum256 bound s → int64 t →
  (∃ p, MostRecentRoot t (local s) = (Ok p, local s)) ∨
  MostRecentRoot t (local s) = (Err ErrTreeNeedsInit, local s).
Proof.
  intros Hs Ht. pose proof (bo_faults _ _ _ Hs) as Hf. destruct (bo_log _ _ _ Hs t Ht) as [_ Hl].
  destruct (local s) as [m fs]. cbn [faults kv] in *. subst fs. destruct Hl as [[_ Hl]|Hl].
  - right. unfold MostRecentRoot, db_Get, io, next_fault. unfold_M.
    set (k1 := keyS typ_r t "root") in *. clearbody k1. cbn. by rewrite Hl.
  - left. destruct (MostRecentRoot_has_root Sum256 t [] m Hl) as (r & f & E & _). by eexists.
Qed.

Lemma GetLatest_runs bound tree ctx w :
  booted Sum256 bound (system w) → startable tree → ctxTree ctx = Some tree →
  ∃ o, srvGetLatestSignedLogRoot a ctx (TreeId tree) w = (o, w) ∧
    ((∃ x, o = Ok x) ∨
     o = Err ErrTreeNeedsInit ∧
     MostRecentRoot (TreeId tree) (local (system w)) = (Err ErrTreeNeedsInit, local (system w))).
Proof.
  intros Hs Htree Hctx. unfold srvGetLatestSignedLogRoot, readLog, optsLogRead.
  rewrite startable_GetTree by (try done; by right). erewrite mbind_step by reflexivity.
  unfold onSys, zoom, withSnapshot, mbind at 1, M_bind at 1, SnapshotForTree.
  rewrite NewLogSubtreeCache_Ok. erewrite mbind_step by reflexivity. unfold mbind at 1, M_bind at 1, sysLocal, zoom.
  destruct (booted_MostRecentRoot bound (system w) (TreeId tree) Hs (proj1 (proj2 Htree))) as [[[r f] ->]| ->]; cbn;
    (eexists; split; [by destruct w as [[] ? ?]|]); [left; by eexists|by right].
Qed.

(** *** The log's first root *)

Context (Hfrontier : ∀ f : Frontier, ∃ raw, marshal f = Ok raw) (Hshort : ∀ b, length (Sum256 b) ≤ 128).

Lemma firstRoot_runs now tree : startable tree → ∃ r, firstRoot Sum256 NewSigner now tree = Ok r.
Proof.
  intros (_ & _ & _ & _ & _ & sign & Hsign & Hsg). unfold firstRoot. rewrite Hsign. cbn [wrapf].
  unfold SignLogRoot, LogRootV1.MarshalBinary, LogRootV1.write_vec, EmptyRoot. cbn [LogRootV1.RootHash LogRootV1.Metadata].
  pose proof (Hshort []) as Hlen. rewrite (proj2 (Z.ltb_ge 128 _)) by lia. unfold_O. cbn -[be_bytes]. change (65535 <? Z.of_nat 0)%Z with false. cbn match.
  match goal with |- context [sign ?b] => destruct (Hsg b) as [sg ->] end. by eexists.
Qed.

Lemma InitLog_commits now tree s :
  faults (local s) = [] → startable tree →
  MostRecentRoot (TreeId tree) (local s) = (Err ErrTreeNeedsInit, local s) →
  ∃ s', LogStorage.ReadWriteTransaction (TreeId tree) (initTx Sum256 NewSigner now tree) s = (Ok (), s').
Proof.
  intros Hf Htree Hm. destruct (firstRoot_runs now tree Htree) as [r Hr].
  pose proof (firstRoot_honest Sum256 NewSigner now tree r Hr) as (_ & Hh & _).
  destruct (Hfrontier zeroFrontier) as [raw Hraw].
  set (t := TreeId tree) in *. set (ltx := λ st b, mkLTX (mkROLT (mkSubtreeCache logStrataInfo ∅ ∅) t zeroSignedLogRoot zeroFrontier false)
    (mkFsm st) (mkLocalTx (Some b)) false).
  assert (beginForTree t s = (Ok (ltx sBegin []), s)) as Hb.
  { unfold beginForTree. rewrite NewLogSubtreeCache_Ok. erewrite mbind_step by reflexivity.
    unfold mbind, M_bind, try, sysLocal, zoom. rewrite Hm. cbn. by destruct s. }
  assert (initTx Sum256 NewSigner now tree (s, ltx sBegin []) =
    (Ok (), (s, ltx sStoreSignedLogRoot (rootPuts t r raw)))) as Hi.
  { unfold initTx. rewrite (mbind_step _ _ _ _ _ (onRead_root _)). cbn [LogRoot root rolt snd ltx zeroSignedLogRoot].
    unfold mbind at 1, M_bind at 1, lift. rewrite Hr. apply wrapErr_returns. unfold StoreSignedLogRoot.
    erewrite mbind_step by reflexivity. erewrite mbind_step by reflexivity. cbn [fst snd rolt front treeID ltx].
    assert (bytes_Equal (RootHash r) (Head Sum256 zeroFrontier) = true) as ->.
    { rewrite Hh, (commits_Head Sum256 _ _ (commits_zero Sum256)). by apply bool_decide_true. }
    unfold onTx, zoom. cbn [fst snd rolt localTx tx_fsm queuedLeaves ltx negb]. unfold StoreRoot.
    rewrite Hraw. unfold rootPuts. by rewrite !dupSlice_id. }
  destruct (Commit_batch s t (rootPuts t r raw) sStoreSignedLogRoot Hf eq_refl) as [tx Hc].
  unfold LogStorage.ReadWriteTransaction. rewrite (mbind_step _ _ _ _ _ Hb). unfold withTx, runTx.
  unfold mbind at 1, M_bind at 1, try. rewrite Hi. unfold ltx. rewrite Hc. by eexists.
Qed.

Lemma srvInitLog_runs bound now tree ctx w :
  booted Sum256 bound (system w) → startable tree → ctxTree ctx = Some tree →
  MostRecentRoot (TreeId tree) (local (system w)) = (Err ErrTreeNeedsInit, local (system w)) →
  ∃ x s', srvInitLog Sum256 NewSigner a now ctx (TreeId tree) w = (Ok x, mkWorld s' (quota w) (spawned w)).
Proof.
  intros Hs Htree Hctx Hm. pose proof (proj1 (proj2 (proj2 (proj2 Htree)))) as Hhash.
  destruct (InitLog_commits now tree (system w) (bo_faults _ _ _ Hs) Htree Hm) as [s' E].
  destruct (firstRoot_runs now tree Htree) as [r Hr].
  unfold srvInitLog, getTreeAndHasher, optsLogInit. rewrite startable_GetTree by (try done; first [by left | by right]).
  unfold_O. rewrite Hhash. cbn [wrapf]. unfold mbind, M_bind, lift, try, onSys, zoom. rewrite E, Hr.
  by eexists _, s'.
Qed.

(** *** All logs *)

(** The quota manager knows the tree and has room for one write. *)
Definition admits (q : QuotaManager) (t : Z) : Prop :=
  unsequenced q !! t = Some 0%Z ∧ (1 ≤ maxUnsequencedLeaves q)%Z.

Lemma admits_InitLog q t (users : list string) :
  admits q t →
  GetTokens 1 (specsOf Write users t) q = (Ok (), with_unsequenced (<[t := 1%Z]> (unsequenced q)) q).
Proof.
  intros [Hc Hmax]. rewrite GetTokens_specsOf, Hc. cbv zeta. change (wrap64 (0 + 1)) with 1%Z.
  by rewrite (proj2 (Z.ltb_ge _ _) Hmax).
Qed.

Lemma ensureInit_runs bound now env tree w :
  booted Sum256 bound (system w) → startable tree → admits (quota w) (TreeId tree) →
  ∃ w', ensureInit Sum256 NewSigner a now env (TreeId tree) w = (Ok (), w') ∧
    ∀ t, t ≠ TreeId tree → admits (quota w) t → admits (quota w') t.
Proof.
  intros Hs Htree Hq. unfold ensureInit, Client.GetLatestSignedLogRoot, logServer.
  destruct (call_admitted (rpcServer Sum256 NewSigner a now env) mGetLatestSignedLogRoot
    (mkReq mGetLatestSignedLogRoot (TreeId tree) [] tt) w tree (quota w)) as [l E1];
    [apply startable_GetTree; first [done | by left]|done|by rewrite GetTokens_specsOf|].
  cbn [rpcServer LogId] in E1.
  destruct (GetLatest_runs bound tree (NewContext Background tree) (mkWorld (system w) (quota w) (spawned w)))
    as (o & E2 & Ho); [done..|]. rewrite E2 in E1. cbn [fst snd] in E1.
  unfold mbind at 1, M_bind at 1, try at 1. rewrite E1.
  destruct Ho as [[x ->]|[-> Hm]]; [eexists; split; [done|]; by intros t _|]. cbn [errorOf]. unfold WrapError.
  rewrite bool_decide_false by done. unfold Client.InitLog, mbind at 1, M_bind at 1, try at 1.
  set (w1 := with_spawned _ _). pose proof (admits_InitLog (quota w) (TreeId tree) [] Hq) as Hg.
  destruct (call_admitted (rpcServer Sum256 NewSigner a now env) mInitLog (mkReq mInitLog (TreeId tree) [] tt) w1 tree _
    (startable_GetTree tree Admin Background Htree ltac:(by left) ltac:(by left)) ltac:(done) Hg) as [l' E3].
  cbn [rpcServer LogId] in E3.
  edestruct (srvInitLog_runs bound now tree (NewContext Background tree)) as (x & s' & E4);
    [..|rewrite E4 in E3]; [done..|]. cbn [fst snd errorOf] in E3. rewrite E3. eexists. split; [done|].
  intros t Hne [Hc Hmax]. split; [|done]. cbn. by rewrite lookup_insert_ne.
Qed.

Lemma setupLogs_runs {H} (ctfe : LogConfig → outcome (list (string * H))) bound clock cfgs :
  (∀ i, (wrapU64 (clock i).1 ≤ bound)%Z) → NoDup (Config.LogId <$> cfgs) → ∀ i w,
  (∀ lc, lc ∈ cfgs → (∃ tree, TreeId tree = Config.LogId lc ∧ startable tree) ∧ ∃ hs, ctfe lc = Ok hs) →
  booted Sum256 bound (system w) → (∀ lc, lc ∈ cfgs → admits (quota w) (Config.LogId lc)) →
  ∃ hs w', setupLogs Sum256 NewSigner a ctfe clock i cfgs w = (Ok hs, w').
Proof.
  intros Hclock. induction cfgs as [|lc cfgs IH]; intros Hnd i w Hcfgs Hs Hq; [by eexists _, _|].
  rewrite fmap_cons, NoDup_cons in Hnd. destruct Hnd as [Hn Hnd].
  destruct (Hcfgs lc) as [(tree & Eid & Htree) [hs Hhs]]; [by left|].
  destruct (ensureInit_runs bound (clock i).1 (clock i).2 tree w) as (w1 & E & Hw1);
    [done..|rewrite Eid; apply Hq; by left|]. rewrite Eid in E, Hw1.
  destruct (IH Hnd (S i) w1) as (more & w' & Emore).
  - intros lc' Hlc'. apply Hcfgs. by right.
  - eapply ensureInit_booted; [| |apply Hclock|exact E]; [done|]. rewrite <-Eid. apply Htree.
  - intros lc' Hlc'. apply Hw1; [|apply Hq; by right]. intros E'. apply Hn. rewrite <-E'. by apply list_elem_of_fmap_2.
  - cbn [setupLogs]. rewrite (mbind_step _ _ _ _ _ E). unfold mbind, M_bind, lift. rewrite Hhs, Emore. by eexists _, w'.
Qed.

Lemma watchLogs_admits cfgs : ∀ q,
  (1 ≤ maxUnsequencedLeaves q)%Z →
  (∀ lc, lc ∈ cfgs → admits (watchLogs cfgs q).2 (Config.LogId lc)) ∧
  ∀ t, admits q t → admits (watchLogs cfgs q).2 t.
Proof.
  unfold watchLogs. induction cfgs as [|lc cfgs IH]; intros q Hmax; [split; [by intros lc ?%not_elem_of_nil|done]|].
  cbn [mfold]. unfold WatchLog at 1 4. erewrite mbind_step by reflexivity.
  destruct (IH (with_unsequenced (<[Config.LogId lc := 0%Z]> (unsequenced q)) q) Hmax) as [H1 H2]. split.
  - intros lc' [->|Hin]%elem_of_cons; [|by apply H1]. apply H2. split; [apply lookup_insert_eq|done].
  - intros t [Hc _]. apply H2. split; [|done]. cbn. rewrite lookup_insert. by case_decide.
Qed.
End boot.

(** ** The program *)

Section program.
Context (Sum256 : bytes → bytes).
Context `{!Codec LogLeaf, !Codec SubtreeProto, !Codec Frontier, !Codec (list LogLeaf)}.
Context `{!MapRange bytes, !MapRange Z, !Lib}.
Context (NewSigner : Config.Tree → outcome (bytes → outcome bytes)).
Context {Handler : Type} (ctfe : LogConfig → outcome (list (string * Handler))).

Abbreviation cfgLoop cfg := (OperationLoop Sum256 NewSigner (AdminStorage cfg) signerElectionFactory mainElectionConfig
  (GuardWindow (Signer cfg)) (Config.BatchSize (Signer cfg))).

(** The configuration, start-up, and the main loop.  [glog.Exit] ends the process
    with the error.  Opening the databases and the two listeners, which may fail
    and exit as well, is taken to have succeeded; the goroutines of the web server,
    the metrics and the signals are what [rounds] says about the traffic and about
    the end of the context between the steps of the loop. *)
Definition main (configFile : string) (clock : nat → Z * (nat → leafEnv)) (rounds : list Round) (s : System)
    : outcome loopState * (LogOperationManager NoopElection * System) :=
  match FromFile configFile with
  | Ok cfg =>
      match startup Sum256 NewSigner ctfe cfg clock s with
      | (Ok _, w) => cfgLoop cfg rounds (NewLogOperationManager, system w)
      | (Err e, w) => (Err e, (NewLogOperationManager, system w))
      | (Panic, w) => (Panic, (NewLogOperationManager, system w))
      end
  | Err e => (Err e, (NewLogOperationManager, s))
  | Panic => (Panic, (NewLogOperationManager, s))
  end.
End program.

(** ** From start-up to the main loop *)

Section bridge.
Context (Sum256 : bytes → bytes).
Context `{!Codec LogLeaf, !Codec SubtreeProto, !Codec Frontier, !Codec (list LogLeaf)}.
Context `{!MapRange bytes, !MapRangeLaws bytes, !MapRange Z}.
Context (NewSigner : Config.Tree → outcome (bytes → outcome bytes)) (a : adminStorage).

Lemma booted_queued bound s t upto : booted Sum256 bound s → queued (kv (local s)) t upto = [].
Proof.
  intros Hs. destruct (queued (kv (local s)) t upto) as [|[k v] l] eqn:E; [done|]. exfalso.
  assert ((k, v) ∈ queued (kv (local s)) t upto) as Hin by (rewrite E; by left).
  destruct (queue_range_key _ _ _ _ _ Hin) as [Hk _]. apply elem_of_range in Hin as [Hv _].
  assert (isRootKey k = false) as Hr by (destruct k as [|b k]; [done|]; unfold isQueueKey in Hk; apply bool_decide_eq_true in Hk; by subst).
  by rewrite (booted_none Sum256 bound s k Hs Hr) in Hv.
Qed.

(** A configured log is where the main loop may start. *)
Lemma booted_starting bound s tree upto :
  booted Sum256 bound s → has_root Sum256 (TreeId tree) [] (kv (local s)) → operable NewSigner a tree →
  starting Sum256 NewSigner a upto s (tree, mkStart [] [] 0, bound).
Proof.
  intros Hs (raw & sig & front & l & Hraw & _) Hop. pose proof (op_int64 _ _ _ Hop) as Ht.
  split; [exact Hop|]. split; [|split].
  2:{ cbn [fst snd startQueue]. rewrite (booted_queued bound) by done. constructor. }
  2:{ intros c' key v. rewrite (booted_queued bound) by done. by intros ?%not_elem_of_nil. }
  destruct (bo_root _ _ _ Hs _ raw Ht Hraw) as (r & Hr & Hsize & Hrev & Htime). exists r. cbn [fst snd startLog startRevision].
  split; [|split; [lia|exact Htime]]. split; try apply Hs; try done.
  - split; [by apply (bo_log _ _ _ Hs)|]. split; [done|]. by exists raw.
  - apply stores_empty; [apply Hs|done|lia|]. intros k Hk. apply (booted_none Sum256 bound s k Hs).
    destruct k as [|b k]; [done|]. unfold isSubtreeKey in Hk. apply bool_decide_eq_true in Hk. by subst.
  - intros b raw' _ Hb. rewrite (bo_objects _ _ _ Hs), lookup_empty in Hb. done.
  - intros h. rewrite !(booted_none Sum256 bound s _ Hs) by (by rewrite isRootKey_keyB). done.
Qed.

Lemma OperationLoop_app {E} `{!MasterElection E} factory cfg guard limit rounds1 rounds2
    (w w1 : LogOperationManager E * System) :
  OperationLoop Sum256 NewSigner a factory cfg guard limit rounds1 w = (Ok Looping, w1) →
  OperationLoop Sum256 NewSigner a factory cfg guard limit (rounds1 ++ rounds2) w =
    OperationLoop Sum256 NewSigner a factory cfg guard limit rounds2 w1.
Proof.
  revert w. induction rounds1 as [|r rounds1 IH]; intros w E1; [by injection E1 as <-|].
  cbn [app OperationLoop] in *. unfold mbind, M_bind in *.
  destruct (loopRound _ _ _ _ _ _ _ r w) as [[[]|e|] w2]; [by apply IH|done..].
Qed.
End bridge.

(** Whether a log is on time depends on its id and its time. *)
Lemma on_time_ext guard c rounds : ∀ ms ms' : list (Config.Tree * Start * Z),
  Forall2 (λ m m', m.1.1 = m'.1.1 ∧ m.2 = m'.2) ms ms' → on_time guard c rounds ms → on_time guard c rounds ms'.
Proof.
  induction rounds as [|r rounds IH]; intros ms ms' Hms; [done|]. intros [H1 H2]. split.
  - clear -Hms H1. induction Hms as [|m m' ms ms' [E1 E2] _ IH]; [constructor|].
    apply Forall_cons in H1 as [H1 H3]. constructor; [by rewrite <-E1, <-E2|by apply IH].
  - eapply IH, H2. apply Forall2_fmap. eapply Forall2_impl; [exact Hms|]. intros m m' [E1 E2]. cbn. by rewrite E1.
Qed.

Lemma Forall_choose {A B} (P : A → B → Prop) l : (∀ x, x ∈ l → ∃ y, P x y) → ∃ ys, Forall2 P l ys.
Proof.
  induction l as [|x l IH]; intros Hl; [by exists []|]. destruct (Hl x) as [y Hy]; [by left|].
  destruct IH as [ys Hys]; [intros z Hz; apply Hl; by right|]. exists (y :: ys). by constructor.
Qed.

(** ** Properties *)

Section properties.
Context (Sum256 : bytes → bytes).
Context `{!Codec LogLeaf, !Codec SubtreeProto, !Codec Frontier, !Codec (list LogLeaf)}.
Context `{!CodecLaws SubtreeProto, !CodecLaws Frontier, !JSONLaws}.
Context `{!MapRange bytes, !MapRangeLaws bytes, !MapRange Z, !MapRangeLaws Z, !Lib}.
Context (Hsubtree : ∀ st : SubtreeProto, ∃ raw, marshal st = Ok raw).
Context (Hfix : ∀ st : SubtreeProto,
  is_Some (Prefix st) → SubtreeRootHash st = None → fixPrefix (canon st) = st).
Context (Hfrontier : ∀ f : Frontier, ∃ raw, marshal f = Ok raw).
Context (Hcanon : ∀ f, solid f → canon f = f).
Context (Hsum : ∀ b, Sum256 b ≠ []) (Hshort : ∀ b, length (Sum256 b) ≤ 128).
Context (NewSigner : Config.Tree → outcome (bytes → outcome bytes)).
Context (HSigner : ∀ tree sign b, NewSigner tree = Ok sign → sign b ≠ Err ErrTreeNeedsInit).
Context {Handler : Type} (ctfe : LogConfig → outcome (list (string * Handler))).
Abbreviation Member := (Config.Tree * Start * Z)%type.

(** The logs that are active, at the start of a server, whose clock shows no later
    time than [bound]. *)
Definition newMember (bound : Z) (tree : Config.Tree) : Member := (tree, mkStart [] [] 0, bound).
Definition activeLogs (cfg : Config) : list Config.Tree :=
  filter (λ tr, tree_TreeState tr = ACTIVE) (as_trees (AdminStorage cfg)).

(** The database after start-up. *)
Lemma startup_booted cfg clock bound s hs w :
  fresh s → Forall (λ lc, int64 (Config.LogId lc)) (LogConfigs cfg) → (∀ i, (wrapU64 (clock i).1 ≤ bound)%Z) →
  startup Sum256 NewSigner ctfe cfg clock s = (Ok hs, w) →
  booted Sum256 bound (system w) ∧
  ∀ lc, lc ∈ LogConfigs cfg → has_root Sum256 (Config.LogId lc) [] (kv (local (system w))).
Proof.
  intros Hs Hc Hclock Hrun. pose proof Hs as (_ & _ & _ & Hkv). unfold startup in Hrun. cbv zeta in Hrun.
  match type of Hrun with setupLogs _ _ _ _ _ _ _ ?w0 = _ => set (w0' := w0) in Hrun end.
  assert (booted Sum256 bound (system w0') ∧ kv (local (system w0')) = ∅) as [Hb Hk].
  { apply (fresh_booted Sum256 bound) in Hs. subst w0'. cbn [system]. case_match; [by split|].
    split; [|done]. by apply booted_cache. }
  split; [by eapply setupLogs_booted|].
  apply (setupLogs_rows Sum256 NewSigner _ Hcanon Hsum HSigner ctfe (λ _, []) clock _ 0 []) in Hrun as (R & [_ H2] & _ & Hok);
    [|split|done].
  - intros lc Hlc. by apply H2, Hok.
  - intros t Ht. by apply (bo_log _ _ _ Hb).
  - intros t Ht. by apply not_elem_of_nil in Ht.
Qed.

Abbreviation cfgLoop cfg := (OperationLoop Sum256 NewSigner (AdminStorage cfg) signerElectionFactory mainElectionConfig
  (GuardWindow (Signer cfg)) (Config.BatchSize (Signer cfg))).
Abbreviation batch cfg := (Z.to_nat (Config.BatchSize (Signer cfg))).

(** The queue of a log, decoded. *)
Definition waiting (s : System) (t upto : Z) (q : list LogLeaf) : Prop :=
  Forall2 (λ e l, unmarshal e.2 = Ok l) (queued (kv (local s)) t upto) q.

Lemma waiting_exists s t upto :
  (∀ c' key v, (key, v) ∈ queued (kv (local s)) t c' → ∃ leaf, unmarshal v = Ok leaf ∧ queueable leaf) →
  ∃ q, waiting s t upto q.
Proof.
  intros Hq. apply (Forall_choose (λ e l, unmarshal e.2 = Ok l)). intros [k v] Hin.
  destruct (Hq upto k v Hin) as (leaf & Hl & _). by exists leaf.
Qed.

(** Every leaf that is queued to the running server is published: the rounds
    [rounds1] start from an empty server, and by the time of the rounds [rounds2]
    the leaves [q] are queued. *)
Record served (cfg : Config) (k : nat) (c : Z) (s1 s2 : System) (tr : Config.Tree)
    (log1 q log2 newer : list LogLeaf) : Prop := {
  se_before : ∃ r, ready Sum256 tr (hashesOf log1) log1 r s1;
  se_waiting : waiting s1 (TreeId tr) c q;
  se_after : ∃ r, ready Sum256 tr (hashesOf log2) log2 r s2;
  se_log : content <$> log2 = content <$> (log1 ++ take (k * batch cfg) q ++ newer);
  se_newer : k * batch cfg < length q → newer = [];
  se_empty : length q ≤ k * batch cfg → queued (kv (local s2)) (TreeId tr) c = []
}.

(** Start-up comes to its end. *)
Definition serviceable (tree : Config.Tree) : Prop :=
  tree_TreeState tree ∈ okStates Admin ∧
  ∃ sign, trees_Signer NewSigner tree = Ok sign ∧ ∀ b, ∃ sg, sign b = Ok sg.

Lemma FromFile_room path cfg : FromFile path = Ok cfg → (1 ≤ MaxUnsequencedLeaves cfg)%Z.
Proof.
  unfold FromFile. intros Hcfg. inv_binds Hcfg. injection Hcfg as <-. cbn [MaxUnsequencedLeaves].
  unfold checkFile in Hcall1. inv_binds Hcall1. apply ensure_Ok in Hcall15. lia.
Qed.

Lemma elem_of_activeLogs cfg tr :
  tr ∈ activeLogs cfg → tr ∈ as_trees (AdminStorage cfg) ∧ tree_TreeState tr = ACTIVE.
Proof. intros [? ?]%list_elem_of_filter. done. Qed.

Lemma NoDup_activeLogs cfg : NoDup (TreeId <$> as_trees (AdminStorage cfg)) → NoDup (TreeId <$> activeLogs cfg).
Proof.
  unfold activeLogs. induction (as_trees (AdminStorage cfg)) as [|tr ts IH]; [done|]. rewrite fmap_cons, NoDup_cons.
  intros [Hn Hnd]. rewrite filter_cons. case_decide; [|by apply IH]. rewrite fmap_cons, NoDup_cons. split; [|by apply IH].
  intros (tr' & E & [_ Hin]%list_elem_of_filter)%list_elem_of_fmap. apply Hn. rewrite E. by apply list_elem_of_fmap_2.
Qed.

(** The logs of a configuration can be set up. *)
Lemma configured_startable path cfg tr :
  FromFile path = Ok cfg → Forall (λ lc, int64 (Config.LogId lc)) (LogConfigs cfg) →
  tr ∈ as_trees (AdminStorage cfg) → serviceable tr →
  startable NewSigner (AdminStorage cfg) tr ∧ ∃ lc, lc ∈ LogConfigs cfg ∧ Config.LogId lc = TreeId tr.
Proof.
  intros (Eids & Hnd & Htrees)%FromFile_trees Hint Hin [Hstate Hsign].
  assert (TreeId tr ∈ Config.LogId <$> LogConfigs cfg) as (lc & Eid & Hlc)%list_elem_of_fmap
    by (rewrite <-Eids; by apply list_elem_of_fmap_2).
  rewrite Forall_forall in Htrees. rewrite Forall_forall in Hint. destruct (Htrees tr Hin) as [Htype Hhash].
  split; [|by exists lc]. split_and!; try done; [|rewrite Eid; by apply Hint..].
  apply findTree_Ok; [by rewrite Eids|done].
Qed.

Lemma startable_operable a tr : startable NewSigner a tr → tree_TreeState tr = ACTIVE → operable NewSigner a tr.
Proof. by intros (? & ? & ? & ? & _ & ?) ?. Qed.

Lemma startup_runs path cfg clock bound s :
  FromFile path = Ok cfg → Forall (λ lc, int64 (Config.LogId lc)) (LogConfigs cfg) →
  (∀ tr, tr ∈ as_trees (AdminStorage cfg) → serviceable tr) → (∀ lc, lc ∈ LogConfigs cfg → ∃ hs, ctfe lc = Ok hs) →
  fresh s → (∀ i, (wrapU64 (clock i).1 ≤ bound)%Z) →
  ∃ hs w, startup Sum256 NewSigner ctfe cfg clock s = (Ok hs, w).
Proof.
  intros Hcfg Hint Htrees Hctfe Hs Hclock. pose proof (FromFile_room path cfg Hcfg) as Hroom.
  pose proof (FromFile_trees path cfg Hcfg) as (Eids & Hnd & _). apply (fresh_booted Sum256 bound) in Hs.
  unfold startup. cbv zeta. eapply (setupLogs_runs Sum256 Hcanon Hsum NewSigner _ HSigner Hfrontier Hshort ctfe bound);
    [done..| | |].
  - intros lc Hlc. split; [|by apply Hctfe].
    assert (Config.LogId lc ∈ TreeId <$> as_trees (AdminStorage cfg)) as (tr & Eid & Hin)%list_elem_of_fmap
      by (rewrite Eids; by apply list_elem_of_fmap_2).
    exists tr. split; [done|]. by apply (configured_startable path cfg tr Hcfg Hint Hin), Htrees.
  - cbn [system]. case_match; [done|]. by apply booted_cache.
  - cbn [quota]. by apply watchLogs_admits.
Qed.

(** Where the logs are after the first rounds, with all that is in their queues up
    to [c]. *)
Definition restarted (cfg : Config) (rounds : list Round) (c : Z) (s : System) (m1 m2 : Member) : Prop :=
  m2.1.1 = m1.1.1 ∧ m2.2 = (lastTick rounds m1).2 ∧
  starting Sum256 NewSigner (AdminStorage cfg) c s m2 ∧
  startRevision m2.1.2 = (startRevision m1.1.2 + Z.of_nat (length rounds))%Z ∧
  length (startLog m2.1.2) ≤ length (startLog m1.1.2) + length rounds * batch cfg.

Lemma gained_restarted cfg rounds c0 c s m1 log newer :
  gained Sum256 (Config.BatchSize (Signer cfg)) c0 NewSigner (AdminStorage cfg) (length rounds) s (lastTick rounds m1) log newer →
  ∃ m2, restarted cfg rounds c s m1 m2.
Proof.
  intros [_ _ Hqueue Hlength Hnext]. rewrite lastTick_fst in *.
  destruct (waiting_exists s (TreeId m1.1.1) c) as [q Hq]; [by destruct (Hnext c0 _ Hqueue) as (_ & _ & _ & Hdec)|].
  eexists. split; [|split; [|split; [exact (Hnext c q Hq)|]]]; done.
Qed.

Lemma gained_served cfg k c s1 s2 m2 m2' log newer :
  starting Sum256 NewSigner (AdminStorage cfg) c s1 m2 → m2'.1 = m2.1 →
  gained Sum256 (Config.BatchSize (Signer cfg)) c NewSigner (AdminStorage cfg) k s2 m2' log newer →
  served cfg k c s1 s2 m2.1.1 (startLog m2.1.2) (startQueue m2.1.2) log newer.
Proof.
  intros (_ & (r1 & Hr1 & _) & Hq & _) Em [Hlog Hnewer Hqueue _ Hnext]. rewrite Em in *. split; try done.
  - by exists r1.
  - destruct (Hnext c _ Hqueue) as (_ & (r2 & Hr2 & _) & _). by exists r2.
  - intros Hle. rewrite drop_ge in Hqueue by done. by apply Forall2_nil_inv_r in Hqueue.
Qed.

(** Both phases of the loop, from any start at which nothing is queued: the runners
    get through in the first one. *)
Lemma loop_serves cfg c0 c s l rounds1 rounds2 members1 :
  (0 ≤ c0)%Z → (0 ≤ c)%Z → (λ m : Member, m.1.1) <$> members1 = activeLogs cfg → NoDup (TreeId <$> activeLogs cfg) →
  Forall (starting Sum256 NewSigner (AdminStorage cfg) c0 s) members1 → undisputed (elections l) →
  Forall (λ m : Member, startRevision m.1.2 + Z.of_nat (length rounds1 + length rounds2) < 2 ^ 63 ∧
    Z.of_nat (length (startLog m.1.2)) + Z.of_nat ((length rounds1 + length rounds2) * batch cfg) < 2 ^ 55)%Z members1 →
  Forall (quiet c0) rounds1 → Forall (quiet c) rounds2 →
  on_time (GuardWindow (Signer cfg)) c0 rounds1 members1 →
  on_time (GuardWindow (Signer cfg)) c rounds2 (lastTick rounds1 <$> members1) →
  (∀ m, m ∈ members1 → startQueue m.1.2 = [] ∧
     stepsLeft (elections l) (FormatInt (TreeId m.1.1)) ≤ runnerSteps rounds1 (TreeId m.1.1)) →
  ∃ l1 s1 l2 s2,
    cfgLoop cfg rounds1 (l, s) = (Ok Looping, (l1, s1)) ∧ cfgLoop cfg rounds2 (l1, s1) = (Ok Looping, (l2, s2)) ∧
    ∀ tr, tr ∈ activeLogs cfg → ∃ log1 q log2 newer, served cfg (length rounds2) c s1 s2 tr log1 q log2 newer.
Proof.
  intros Hc0 Hc Hact Hnd Hstart Hl Hbound Hq1 Hq2 Htime1 Htime2 Hheld. rewrite Forall_forall in Hbound.
  assert (∀ ms : list Member, (λ m : Member, m.1.1) <$> ms = activeLogs cfg → NoDup ((λ m : Member, TreeId m.1.1) <$> ms)) as Hnds.
  { intros ms Ems. rewrite <-Ems, <-list_fmap_compose in Hnd. exact Hnd. }
  destruct (loop_publishes Sum256 Hsubtree Hfix Hfrontier Hcanon Hsum Hshort (GuardWindow (Signer cfg))
    (Config.BatchSize (Signer cfg)) c0 Hc0 NewSigner (AdminStorage cfg) rounds1 members1 l s)
    as (l1 & s1 & E1 & Hl1 & Hall1); try done; [by apply Hnds| |by intros m Hm; right; apply Hheld|].
  { apply Forall_forall. intros m Hm. destruct (Hbound m Hm). split; [lia|nia]. }
  destruct (Forall_choose (λ m1 m2, m1 ∈ members1 ∧ restarted cfg rounds1 c s1 m1 m2) members1) as [members2 Hmembers].
  { intros m1 Hm1. destruct (Hall1 m1 Hm1) as (_ & log1 & newer & Hg). destruct (gained_restarted _ _ _ c _ _ _ _ Hg) as [m2 Hm2].
    by exists m2. }
  assert ((λ m : Member, m.1.1) <$> members2 = activeLogs cfg) as Eact2.
  { rewrite <-Hact. clear -Hmembers. induction Hmembers as [|m1 m2 ms1 ms2 (_ & E & _) _ IH]; [done|]. by rewrite !fmap_cons, E, IH. }
  assert (∀ m2, m2 ∈ members2 → ∃ m1, m1 ∈ members1 ∧ restarted cfg rounds1 c s1 m1 m2) as Hm2.
  { intros m2 [k Hk]%list_elem_of_lookup. destruct (Forall2_lookup_r _ _ _ _ _ Hmembers Hk) as (m1 & _ & Hm). by exists m1. }
  destruct (loop_publishes Sum256 Hsubtree Hfix Hfrontier Hcanon Hsum Hshort (GuardWindow (Signer cfg))
    (Config.BatchSize (Signer cfg)) c Hc NewSigner (AdminStorage cfg) rounds2 members2 l1 s1)
    as (l2 & s2 & E2 & _ & Hall2); try done; [by apply Hnds|..].
  { apply Forall_forall. intros m (m1 & _ & _ & _ & Hst & _)%Hm2. exact Hst. }
  { apply Forall_forall. intros m (m1 & Hm1 & _ & _ & _ & Er & Hl')%Hm2. destruct (Hbound m1 Hm1). rewrite Er. split; [lia|nia]. }
  { eapply on_time_ext, Htime2. apply Forall2_fmap_l. eapply Forall2_impl; [exact Hmembers|].
    intros m1 m2 (_ & E & En & _). unfold compose. by rewrite lastTick_fst, E, En. }
  { intros m (m1 & Hm1 & E & _)%Hm2. left. left. rewrite E. apply stepsLeft_masters; [done|].
    destruct (Hall1 m1 Hm1) as [[_ Hsteps] _], (Hheld m1 Hm1) as [_ Hdue]. lia. }
  exists l1, s1, l2, s2. split; [exact E1|]. split; [exact E2|].
  intros tr Htr. rewrite <-Eact2 in Htr. apply list_elem_of_fmap in Htr as (m2 & -> & Hin).
  destruct (Hm2 m2 Hin) as (m1 & _ & _ & _ & Hst & _). destruct (Hall2 m2 Hin) as (_ & log2 & newer & Hg).
  exists (startLog m2.1.2), (startQueue m2.1.2), log2, newer. eapply gained_served; [exact Hst|apply lastTick_fst|exact Hg].
Qed.

(** C4. A server that starts from nothing publishes everything that is queued to
    it: with an accepted configuration, whose logs may be used, have a front end
    and a key that signs, and without faults, the program gets through its
    start-up and runs every round of its main loop; when every runner has taken its
    two steps at some time in the first rounds, whatever leaves requests have
    queued to the active logs by the end of them, with whichever requests in
    between, after [k] further rounds every log has been extended by the first [k]
    batches of what was in its queue, in order, and its queue is empty once that
    was all. *)
Theorem fresh_server_publishes path cfg clock bound c s rounds1 rounds2 :
  FromFile path = Ok cfg → Forall (λ lc, int64 (Config.LogId lc)) (LogConfigs cfg) →
  (∀ tr, tr ∈ as_trees (AdminStorage cfg) → serviceable tr) → (∀ lc, lc ∈ LogConfigs cfg → ∃ hs, ctfe lc = Ok hs) →
  fresh s → (∀ i, (wrapU64 (clock i).1 ≤ bound)%Z) → (0 ≤ c)%Z →
  Forall (quiet 0) rounds1 → Forall (quiet c) rounds2 →
  on_time (GuardWindow (Signer cfg)) 0 rounds1 (newMember bound <$> activeLogs cfg) →
  on_time (GuardWindow (Signer cfg)) c rounds2 (lastTick rounds1 <$> (newMember bound <$> activeLogs cfg)) →
  (∀ tr, tr ∈ activeLogs cfg → 2 ≤ runnerSteps rounds1 (TreeId tr)) →
  (Z.of_nat (length rounds1 + length rounds2) < 2 ^ 63)%Z →
  (Z.of_nat ((length rounds1 + length rounds2) * batch cfg) < 2 ^ 55)%Z →
  ∃ l1 s1 l2 s2,
    main Sum256 NewSigner ctfe path clock rounds1 s = (Ok Looping, (l1, s1)) ∧
    main Sum256 NewSigner ctfe path clock (rounds1 ++ rounds2) s = (Ok Looping, (l2, s2)) ∧
    ∀ tr, tr ∈ activeLogs cfg →
      ∃ log1 q log2 newer, served cfg (length rounds2) c s1 s2 tr log1 q log2 newer.
Proof.
  intros Hcfg Hint Htrees Hctfe Hs Hclock Hc Hq1 Hq2 Htime1 Htime2 Hsteps Hrev Hlen.
  destruct (startup_runs path cfg clock bound s) as (hs & w & Hstart); [done..|].
  destruct (startup_booted cfg clock bound s hs w Hs Hint Hclock Hstart) as [Hb Hroot].
  assert (NoDup (TreeId <$> activeLogs cfg)) as Hnd.
  { apply NoDup_activeLogs. apply FromFile_trees in Hcfg as (-> & Hnd & _). exact Hnd. }
  destruct (loop_serves cfg 0 c (system w) NewLogOperationManager rounds1 rounds2 (newMember bound <$> activeLogs cfg))
    as (l1 & s1 & l2 & s2 & E1 & E2 & Hall); try done.
  - rewrite <-list_fmap_compose. apply list_fmap_id.
  - apply Forall_fmap, Forall_forall. intros tr [Hin Hact]%elem_of_activeLogs.
    destruct (configured_startable path cfg tr Hcfg Hint Hin (Htrees tr Hin)) as [Hst (lc & Hlc & Eid)].
    apply (booted_starting Sum256 NewSigner _ bound); [done| |by apply startable_operable]. rewrite <-Eid. by apply Hroot.
  - split; [apply noElections_inv|done|]. intros id r Hr. cbn in Hr. by rewrite lookup_empty in Hr.
  - apply Forall_fmap, Forall_forall. intros tr _. cbn. split; [lia|]. exact Hlen.
  - intros m (tr & -> & Htr)%list_elem_of_fmap. split; [done|]. etrans; [|by apply Hsteps]. done.
  - exists l1, s1, l2, s2. unfold main. rewrite Hcfg, Hstart. split; [exact E1|]. split; [|exact Hall].
    by rewrite (OperationLoop_app _ _ _ _ _ _ _ _ _ _ _ E1).
Qed.
End properties.

(** ** Witness *)

Section witnesses.
#[local] Existing Instance leafCodec.
#[local] Existing Instance subtreeCodec.
#[local] Existing Instance frontierCodec.
#[local] Existing Instance jsonCodec.
#[local] Existing Instance mapRange.
#[local] Existing Instance listRange.
#[local] Existing Instance listRangeLaws.
#[local] Existing Instance exampleLib.

Definition exampleCfg : Config :=
  match FromFile "config.yml" with Ok cfg => cfg | _ => sampleCfg end.
Definition emptySystem : System := mkSystem (mkDB ∅ []) (mkRemote ∅ []) (New hour 10).

(** A leaf is queued to the log, at a time. *)
Definition post (ts : Z) (h : byte) (s : System) : System :=
  with_local (mkDB (<[queueRow 7 ts [Byte.x00; Byte.x00; Byte.x00; h] :=
    pos_bytes (encode (exampleLeaf h))]> (kv (local s))) (faults (local s))) s.

(** One round in which a leaf arrives, and in which the runner is elected only after
    the pass; and two more. *)
Definition roundOne : list Round :=
  [mkRound (post 11 Byte.x0b) [(FormatInt 7, envAt 0)] (λ _, clockAt 2000000000)
     false [(FormatInt 7, envAt 5)] false].
Definition roundsThen : list Round :=
  [mkRound (post 30 Byte.x0c) [] (λ _, mkClock 2000000000 2000000000 (λ _, 2000000000%Z) 3000000000) false [] false;
   mkRound id [] (λ _, mkClock 3000000000 3000000000 (λ _, 3000000000%Z) 4000000000) false [] false].

Lemma post_quiet c ts h evs clks evs' :
  (c < ts < 2 ^ 63)%Z → Forall (steady ∘ snd) evs → Forall (steady ∘ snd) evs' →
  quiet c (mkRound (post ts h) evs clks false evs' false).
Proof.
  intros Hts Hevs Hevs'. split; [|by split_and!]. intros s. apply rtc_once, (arr_queue _ _ _ _ _ (exampleLeaf h));
    [by split; [done|cbn; lia]|done|done| |apply exampleLeaf_queueable].
  by apply (unmarshal_marshal (CodecLaws := countableCodec_laws LogLeaf) (exampleLeaf h)).
Qed.

Lemma fresh_server_publishes_witness :
  ∃ l1 s1 l2 s2,
    main toySum sampleSigner sampleFrontend "config.yml" sampleClock roundOne emptySystem = (Ok Looping, (l1, s1)) ∧
    main toySum sampleSigner sampleFrontend "config.yml" sampleClock (roundOne ++ roundsThen) emptySystem =
      (Ok Looping, (l2, s2)) ∧
    ∀ tr, tr ∈ activeLogs exampleCfg → ∃ log1 q log2 newer, served toySum exampleCfg 2 20 s1 s2 tr log1 q log2 newer.
Proof.
  assert (activeLogs exampleCfg = as_trees (AdminStorage exampleCfg)) as Eact by (vm_compute; reflexivity).
  apply (fresh_server_publishes toySum (CodecLaws0 := countableCodec_laws SubtreeProto)
    (CodecLaws1 := countableCodec_laws Frontier) (H := jsonCodec_laws) (MapRangeLaws0 := listRangeLaws)
    (MapRangeLaws1 := mapRange_laws) (λ st, ex_intro _ _ eq_refl) subtree_fix (λ f, ex_intro _ _ eq_refl)
    (λ f _, eq_refl) toySum_ne (λ b, ltac:(simpl; lia)) sampleSigner
    (λ tree sign b Hs, ltac:(injection Hs as <-; discriminate)) sampleFrontend "config.yml" exampleCfg sampleClock 1 20
    emptySystem).
  - vm_compute. reflexivity.
  - constructor; [|constructor]. unfold int64. vm_compute. split; [discriminate|reflexivity].
  - intros tr ->%list_elem_of_singleton. split; [vm_compute; by right; left|]. eexists. split; [vm_compute; reflexivity|].
    intros b. by eexists.
  - intros lc _. by eexists.
  - done.
  - intros i. vm_compute. discriminate.
  - lia.
  - constructor; [|constructor]. apply post_quiet; [lia|repeat constructor; cbn; lia..].
  - constructor; [|constructor; [|constructor]]; [apply post_quiet; [lia|constructor..]|].
    split; [intros s; apply rtc_refl|]. by split_and!.
  - rewrite Eact. split; [|done]. constructor; [|constructor]. split; [|split; [|done]]; vm_compute; try done; by split.
  - rewrite Eact. split; [|split; [|done]]; (constructor; [|constructor]); (split; [|split; [|done]]); vm_compute; try done; by split.
  - intros tr Htr. rewrite Eact in Htr. apply list_elem_of_singleton in Htr as ->. vm_compute. lia.
  - vm_compute. reflexivity.
  - vm_compute. reflexivity.
Defined.
End witnesses.
