(* ===== verification/Drand.v ===== *)
(** * Deterministic randomness (src/cmd/admin/ct-log-tester)

    [internal/drand/drand.go] is the source of randomness of the test
    certificates: AES in counter mode under the hash of a seed, behind a reader
    that returns nothing for reads of one byte.  The standard library makes
    such reads at random, to keep programs from relying on the bytes it
    consumes; the property is that they do not disturb the stream.
    [generate.go] makes the n-th certificate from it. *)

From S2P Require Import Prelude.
From stdpp Require Import pretty.

(** ** Readers

    [Read(p)] fills a prefix of [p] and returns its length; none of the readers
    here returns an error. *)

Definition devZero_Read (p : bytes) : bytes * nat :=
  (replicate (length p) Byte.x00, length p).

Definition xor_byte (a b : byte) : byte := z2b (Z.lxor (b2z a) (b2z b)).

(** [aes.NewCipher] accepts keys of three sizes; the block function is a
    parameter, its blocks have 16 bytes. *)
Definition BlockSize : nat := 16.

(** The state of [cipher.StreamReader] over a counter-mode stream: the block
    function under its key, and the number of bytes of the key stream used. *)
Record Reader := mkReader { block : bytes → bytes; used : nat }.

(** Byte [i] of the key stream: the counter starts at the initial vector, which
    is zero, and is incremented for every block. *)
Definition keyByte (block : bytes → bytes) (i : nat) : byte :=
  nth (i mod BlockSize) (block (be_bytes BlockSize (Z.of_nat (i / BlockSize)))) Byte.x00.

Definition keyStream (block : bytes → bytes) (i n : nat) : bytes := keyByte block <$> seq i n.

Definition XORKeyStream (src : bytes) : M Reader bytes := λ r,
  (Ok (zip_with xor_byte src (keyStream (block r) (used r) (length src))),
   mkReader (block r) (used r + length src)).

(** [cipher.StreamReader.Read] over [devZero] *)
Definition StreamReader_Read (p : bytes) : M Reader (bytes * nat) :=
  let '(p', n) := devZero_Read p in
  dst ← XORKeyStream (take n p');
  mret (dst ++ drop n p', n).

Definition undoAGL_Read (p : bytes) : M Reader (bytes * nat) :=
  if (length p =? 1)%nat then mret (p, 0) else StreamReader_Read p.

Section drand.
Context (Sum256 : bytes → bytes) (Encrypt : bytes → bytes → bytes).

Definition NewCipher (key : bytes) : outcome (bytes → bytes) :=
  if bool_decide (length key ∈ [16; 24; 32]) then Ok (Encrypt key)
  else Err (Errorf "crypto/aes: invalid key size %d").

Definition NewReader (seed : bytes) : outcome Reader :=
  block ← NewCipher (Sum256 seed); mret (mkReader block 0).

(** ** Making certificates (generate.go) *)

(** The name of the n-th certificate: [cert${n}.com]. *)
Definition certName (n : Z) : string := ("cert" +:+ pretty n +:+ ".com")%string.

(** The fields of a certificate template that vary, and those that do not by
    name; times are seconds. *)
Record Template := mkTemplate {
  SerialNumber : Z; Organization : list string; NotBefore : Z; NotAfter : Z;
  KeyUsage : list string; ExtKeyUsage : list string;
  BasicConstraintsValid : bool; DNSNames : list string }.

(** What the libraries for keys and certificates do with a reader: [rand_Int]
    is [crypto/rand.Int], and [string_bytes] the bytes of a string. *)
Context {PrivateKey PublicKey : Type}.
Context (GenerateKey : M Reader PrivateKey) (Public : PrivateKey → PublicKey).
Context (rand_Int : Z → M Reader Z).
Context (CreateCertificate : Template → bytes → PublicKey → PrivateKey → M Reader bytes).

Definition string_bytes (s : string) : bytes :=
  (λ a, z2b (Z.of_nat (Ascii.nat_of_ascii a))) <$> String.list_ascii_of_string s.

(** [log.Fatalf] on an error *)
Definition fatal_on {S A} (format : string) (m : M S A) : M S A := λ s,
  match m s with
  | (Err e, s') => (Err (Wrapf format e), s')
  | r => r
  end.

Definition generateNthCert (notBefore : Z) (caCert : bytes) (caKey : PrivateKey) (n : Z)
    : outcome (list bytes) :=
  match NewReader (string_bytes ("cert " +:+ pretty n)%string) with
  | Err e => Err (Wrapf "failed to create random stream: %v" e)
  | Panic => Panic
  | Ok r => fst ((
      priv ← fatal_on "failed to generate private key: %v" GenerateKey;
      serialNumber ← fatal_on "failed to generate serial number: %v" (rand_Int (1 ≪ 128));
      let template := mkTemplate serialNumber ["Acme Co"%string] notBefore (notBefore + 72 * 3600)
        ["KeyEncipherment"; "DigitalSignature"]%string ["ServerAuth"%string] true [certName n] in
      derBytes ← fatal_on "failed to create certificate: %v"
        (CreateCertificate template caCert (Public priv) caKey);
      mret [derBytes]) r)
  end.
End drand.

(** ** Sequences of reads *)

(** Reads into the buffers [ps], and the bytes they deliver. *)
Fixpoint reads (ps : list bytes) : M Reader (list bytes) :=
  match ps with
  | [] => mret []
  | p :: ps =>
      '(p', n) ← undoAGL_Read p;
      rest ← reads ps;
      mret (take n p' :: rest)
  end.

(** The buffers that are not of one byte. *)
Definition longReads (ps : list bytes) : list bytes := filter (λ p, length p ≠ 1) ps.

Lemma xor_zero b : xor_byte Byte.x00 b = b.
Proof. unfold xor_byte. change (b2z Byte.x00) with 0%Z. by rewrite Z.lxor_0_l, z2b_b2z. Qed.

Lemma length_keyStream block i n : length (keyStream block i n) = n.
Proof. unfold keyStream. by rewrite length_fmap, length_seq. Qed.

Lemma xor_zeros ks : zip_with xor_byte (replicate (length ks) Byte.x00) ks = ks.
Proof. induction ks as [|k ks IH]; [done|]. simpl. by rewrite xor_zero, IH. Qed.

Lemma StreamReader_Read_eq p r :
  StreamReader_Read p r =
  (Ok (keyStream (block r) (used r) (length p), length p), mkReader (block r) (used r + length p)).
Proof.
  unfold StreamReader_Read, devZero_Read, XORKeyStream. unfold_M.
  rewrite take_ge, drop_ge, app_nil_r, !length_replicate by (by rewrite length_replicate).
  do 3 f_equal. rewrite <-(length_keyStream (block r) (used r) (length p)) at 1. apply xor_zeros.
Qed.

Lemma keyStream_app block i m n :
  keyStream block i (m + n) = keyStream block i m ++ keyStream block (i + m) n.
Proof. unfold keyStream. by rewrite seq_app, fmap_app. Qed.

(** C33. Reads of one byte, which the standard library makes at random, do not
    disturb the randomness of the test certificates: every sequence of reads
    succeeds, and the reads of other sizes deliver the same consecutive bytes
    of the key stream, and leave the reader in the same state, as if those of
    one byte had not been made; those deliver nothing. *)
Theorem reads_ignore_single_bytes ps r :
  ∃ out,
    reads ps r = (Ok out, mkReader (block r) (used r + sum_list (length <$> longReads ps))) ∧
    concat out = keyStream (block r) (used r) (sum_list (length <$> longReads ps)) ∧
    (∀ i p, ps !! i = Some p → out !! i ≠ None ∧ (length p = 1 → out !! i = Some [])) ∧
    reads (longReads ps) r =
      (Ok ((λ q : bytes * bytes, q.2) <$> filter (λ q, length q.1 ≠ 1) (zip ps out)),
       mkReader (block r) (used r + sum_list (length <$> longReads ps))).
Proof.
  revert r. induction ps as [|p ps IH]; intros [f u]; cbn [block used].
  - exists []. rewrite Nat.add_0_r. repeat split; done.
  - cbn [reads]. unfold undoAGL_Read at 1. destruct (Nat.eqb_spec (length p) 1) as [H1|H1].
    + destruct (IH (mkReader f u)) as (out & Hr & Hc & Hi & Hl). cbn [block used] in *.
      assert (longReads (p :: ps) = longReads ps) as -> by (unfold longReads; by rewrite filter_cons_False by tauto).
      exists ([] :: out). repeat split; [unfold_M; by rewrite Hr|done| | |].
      * destruct i; [done|]. by apply (Hi i p0).
      * destruct i; [done|]. by apply (Hi i p0).
      * cbn [zip zip_with]. rewrite filter_cons_False by (simpl; tauto). done.
    + destruct (IH (mkReader f (u + length p))) as (out & Hr & Hc & Hi & Hl). cbn [block used] in *.
      assert (longReads (p :: ps) = p :: longReads ps) as -> by (unfold longReads; by rewrite filter_cons_True).
      rewrite fmap_cons. cbn [sum_list]. rewrite Nat.add_assoc. cbn [reads].
      unfold undoAGL_Read at 1. rewrite (proj2 (Nat.eqb_neq _ _)) by done.
      exists (keyStream f u (length p) :: out).
      assert (take (length p) (keyStream f u (length p)) = keyStream f u (length p)) as Et
        by (apply take_ge; by rewrite length_keyStream).
      repeat split.
      * unfold_M. rewrite StreamReader_Read_eq. cbn. by rewrite Hr, Et.
      * cbn [concat]. by rewrite Hc, keyStream_app.
      * destruct i; [done|]. by apply (Hi i p0).
      * destruct i; [naive_solver|]. by apply (Hi i p0).
      * cbn [zip zip_with]. rewrite filter_cons_True, fmap_cons by done.
        unfold_M. rewrite StreamReader_Read_eq. cbn. by rewrite Hl, Et.
Qed.
