(* ===== verification/Tester.v ===== *)
(** * The log auditor (src/cmd/admin/ct-log-tester)

    [main.go] grows a fresh log in four steps and checks, with the functions of
    [checks.go] and the client of [log_client.go], that the log serves what was
    added and proves it.  The log server, the clock and the random numbers are
    an interface, [LogServer]; the state [W] is all that they depend on.

    A function that finds a fault ends the process with a message ([fatalf],
    [log.Fatal]): here, with an error.  Calls whose errors the code looks at
    are run with [try].

    The properties: checks that pass show that the leaves are in the log and
    that the log was only extended; a log that answers by RFC 6962 passes;
    waiting for a tree head, and flooding the log, come to an end. *)

From S2P Require Import Prelude Frontier Compact Nodes Verifier Drand.
From stdpp Require Import pretty.

(** ** Messages *)

(** The fields that the auditor reads. *)
Record SignedTreeHead := mkSTH { TreeSize : Z; SHA256RootHash : bytes }.
Record Certificate := mkCertificate { cert_DNSNames : list string }.
Record LogEntry := mkLogEntry { X509Cert : option Certificate }.
Record LeafEntry := mkLeafEntry { LeafInput : slice; ExtraData : slice }.
Record ProofByHash := mkProofByHash { pbh_LeafIndex : Z; pbh_AuditPath : list slice }.
Record EntryAndProof := mkEntryAndProof {
  eap_LeafInput : slice; eap_ExtraData : slice; eap_AuditPath : list slice }.

Inductive endpoint :=
  | GetSTHConsistencyPath | GetEntriesPath | GetProofByHashPath | GetEntryAndProofPath.

Definition Response (e : endpoint) : Type :=
  match e with
  | GetSTHConsistencyPath => list slice
  | GetEntriesPath => list LeafEntry
  | GetProofByHashPath => ProofByHash
  | GetEntryAndProofPath => EntryAndProof
  end.

(** The library's client of a log ([GetAndParse] fills a response from JSON),
    [time.Sleep] in nanoseconds, the source of random numbers, and the texts of
    errors. *)
Class LogServer (W : Type) := {
  GetSTH : M W SignedTreeHead;
  AddChain : list bytes → M W Z;
  GetEntries : Z → Z → M W (list LogEntry);
  GetAndParse : ∀ e, gmap string string → M W (Response e);
  Sleep : Z → W → W;
  Int63 : W → Z * W;
  ErrorText : error → string
}.

(** ** Base64 *)

Definition base64_alphabet : string :=
  "ABCDEFGHIJKLMNOPQRSTUVWXYZabcdefghijklmnopqrstuvwxyz0123456789+/".

Definition base64_char (n : Z) : Ascii.ascii :=
  default Ascii.zero (String.get (Z.to_nat (n `mod` 64)) base64_alphabet).

(** [base64.StdEncoding.EncodeToString] *)
Fixpoint EncodeToString (src : bytes) : string :=
  match src with
  | [] => ""
  | [a] =>
      let v := (b2z a ≪ 16)%Z in
      String.String (base64_char (v ≫ 18)) (String.String (base64_char (v ≫ 12)) "==")
  | [a; b] =>
      let v := Z.lor (b2z a ≪ 16) (b2z b ≪ 8) in
      String.String (base64_char (v ≫ 18)) (String.String (base64_char (v ≫ 12))
        (String.String (base64_char (v ≫ 6)) "="))
  | a :: b :: c :: rest =>
      let v := Z.lor (Z.lor (b2z a ≪ 16) (b2z b ≪ 8)) (b2z c) in
      String.String (base64_char (v ≫ 18)) (String.String (base64_char (v ≫ 12))
        (String.String (base64_char (v ≫ 6)) (String.String (base64_char v)
          (EncodeToString rest))))
  end%string.

Section tester.
Context {W : Type} `{LogServer W} (Sum256 : bytes → bytes).

(** [fatalf], [log.Fatalf] *)
Definition fatalf {A} (format : string) : M W A := fail (Errorf format).
Definition fatal {A} (e : error) : M W A := fail e.

(** [if err != nil { fatalf(format, err) }] *)
Definition check {A} (format : string) (r : outcome A) : M W A :=
  match r with
  | Ok a => mret a
  | Err e => fatal (Wrapf format e)
  | Panic => panic
  end.

(** [rand.Int63n]: panics on numbers that are not positive. *)
Definition Int63n (n : Z) : M W Z := λ w,
  if (n <=? 0)%Z then (Panic, w) else let '(v, w') := Int63 w in (Ok (v `mod` n)%Z, w').

(** ** The client (log_client.go) *)

Fixpoint poll (attempts : nat) (treeSize : Z) : M W SignedTreeHead :=
  match attempts with
  | O => fatalf "timed out waiting to read an STH with tree size %v"
  | S attempts =>
      r ← try GetSTH;
      match r with
      | Err e => fatal e
      | Panic => panic
      | Ok sh =>
          if (TreeSize sh =? treeSize)%Z then mret sh
          else modify (Sleep (5 * 1000000000));; poll attempts treeSize
      end
  end.
Definition WaitForSTH (treeSize : Z) : M W SignedTreeHead := poll 30 treeSize.

Definition GetSTHConsistency (first second : Z) : M W (list slice) :=
  GetAndParse GetSTHConsistencyPath
    {[ "first"%string := pretty first; "second"%string := pretty second ]}.

Definition GetRawEntries (start end_ : Z) : M W (list LeafEntry) :=
  GetAndParse GetEntriesPath {[ "start"%string := pretty start; "end"%string := pretty end_ ]}.

Definition GetRawLeaf (index : Z) : M W slice :=
  Entries ← GetRawEntries index index;
  match Entries with
  | [entry] => mret (LeafInput entry)
  | _ => fail (Errorf "wrong number of entries returned; got %v, wanted 1")
  end.

Definition GetProofByHash (hash : bytes) (treeSize : Z) : M W ProofByHash :=
  GetAndParse GetProofByHashPath
    {[ "tree_size"%string := pretty treeSize; "hash"%string := EncodeToString hash ]}.

Definition GetEntryAndProof (leafIndex treeSize : Z) : M W EntryAndProof :=
  GetAndParse GetEntryAndProofPath
    {[ "leaf_index"%string := pretty leafIndex; "tree_size"%string := pretty treeSize ]}.

(** ** Texts ([fmt.Sprint] of a result and an error) *)

Fixpoint join (sep : string) (l : list string) : string :=
  match l with
  | [] => ""
  | [s] => s
  | s :: l => s +:+ sep +:+ join sep l
  end.
Definition brackets (l : list string) : string := "[" +:+ join " " l +:+ "]".
Definition printBytes (b : slice) : string := brackets ((λ x, pretty (b2z x)) <$> sl b).
Definition printSlices (l : list slice) : string := brackets (printBytes <$> l).
Definition printLeafEntry (e : LeafEntry) : string :=
  "{" +:+ printBytes (LeafInput e) +:+ " " +:+ printBytes (ExtraData e) +:+ "}".
Definition printResponse (e : endpoint) : Response e → string :=
  match e with
  | GetSTHConsistencyPath => printSlices
  | GetEntriesPath => λ r, "&{" +:+ brackets (printLeafEntry <$> r) +:+ "}"
  | GetProofByHashPath => λ r,
      "&{" +:+ pretty (pbh_LeafIndex r) +:+ " " +:+ printSlices (pbh_AuditPath r) +:+ "}"
  | GetEntryAndProofPath => λ r,
      "&{" +:+ printBytes (eap_LeafInput r) +:+ " " +:+ printBytes (eap_ExtraData r) +:+ " " +:+
        printSlices (eap_AuditPath r) +:+ "}"
  end.
Definition nilResponse (e : endpoint) : string :=
  match e with GetSTHConsistencyPath => "[]" | _ => "<nil>" end.
Definition Sprint (e : endpoint) (r : Response e + error) : string :=
  match r with
  | inl r => printResponse e r +:+ " <nil>"
  | inr err => nilResponse e +:+ " " +:+ ErrorText err
  end.

(** ** The checks (checks.go) *)

Definition simpleCheck (got wanted : string) : M W unit :=
  if bool_decide (got = wanted) then mret ()
  else fatalf "output does not match expected wanted: %v got: %v".

(** [simpleCheck(f())(wanted)], for a function that returns a response. *)
Definition simpleChecks {e} (f : M W (Response e)) (wanted : string) : M W unit :=
  r ← try f;
  match r with
  | Ok a => simpleCheck (Sprint e (inl a)) wanted
  | Err err => simpleCheck (Sprint e (inr err)) wanted
  | Panic => panic
  end.

Definition consistencyCheck (proof : outcome (list slice)) (first second : Z)
    (sh1 sh2 : SignedTreeHead) : M W unit :=
  proof ← check "failed to hit get-sth-consistency: %v" proof;
  check "failed to verify consistency proof: %v"
    (VerifyConsistencyProof Sum256 first second
       (Some (SHA256RootHash sh1)) (Some (SHA256RootHash sh2)) proof).

Definition proofCheck (resp : outcome ProofByHash) (leafIndex treeSize : Z)
    (sh : SignedTreeHead) (leaf : slice) : M W unit :=
  resp ← check "failed to hit get-proof-by-hash: %v" resp;
  if negb (pbh_LeafIndex resp =? leafIndex)%Z
  then fatalf "LeafIndex from server (%v) and LeafIndex from client (%v) do not match"
  else
    let leafHash := HashLeaf Sum256 (sl leaf) in
    check "failed to verify inclusion proof: %v"
      (VerifyInclusionProof Sum256 (pbh_LeafIndex resp) treeSize (pbh_AuditPath resp)
         (Some (SHA256RootHash sh)) (Some leafHash)).

Definition manyProofChecks (treeSize : Z) (sh : SignedTreeHead) : M W unit :=
  mfold (λ _ _,
    index ← Int63n treeSize;
    r ← try (GetRawLeaf index);
    match r with
    | Err e => fatal e
    | Panic => panic
    | Ok leaf =>
        let hash := Sum256 (Byte.x00 :: sl leaf) in
        resp ← try (GetProofByHash hash treeSize);
        proofCheck resp index treeSize sh leaf
    end) () (seq 0 10).

(** The name of a certificate: one, and the right one.  The pointer to a
    certificate is nil for an entry that is a precertificate. *)
Definition checkName (cert : Certificate) (index : Z) : M W unit :=
  let sans := cert_DNSNames cert in
  if negb (length sans =? 1)%nat
  then fatalf "received weird certificate, should have 1 SAN, but has %v"
  else if bool_decide (nth 0 sans ""%string = certName index) then mret ()
  else fatalf "received certificate with SAN %v at position %v".

Definition entriesCheck (entries : outcome (list LogEntry)) (start end_ : Z) : M W unit :=
  entries ← check "failed to hit get-entries: %v" entries;
  if negb (Z.of_nat (length entries) =? wrap64 (end_ - start + 1))%Z
  then fatalf "got %v entries, but wanted %v"
  else
    mfold (λ _ ie,
      match X509Cert ie.2 with
      | None => panic
      | Some cert => checkName cert (wrap64 (start + Z.of_nat ie.1))
      end) () (zip (seq 0 (length entries)) entries).

Definition manyEntryChecks (treeSize : Z) : M W unit :=
  mfold (λ _ _,
    start ← Int63n treeSize;
    d ← Int63n (treeSize - start);
    let end_ := (start + d)%Z in
    entries ← try (GetEntries start end_);
    entriesCheck entries start end_) () (seq 0 10).

(** Reading a leaf's structure and its certificate are library calls. *)
Context {MerkleTreeLeaf : Type}.
Context (Unmarshal : bytes → outcome (MerkleTreeLeaf * bytes)).
Context (X509Certificate : MerkleTreeLeaf → outcome Certificate).

Definition entryAndProofCheck (resp : outcome EntryAndProof) (leafIndex treeSize : Z)
    (sh : SignedTreeHead) : M W unit :=
  resp ← check "failed to hit get-entry-and-proof: %v" resp;
  '(leaf, rest) ← check "failed to unmarshal MerkleTreeLeaf: %v" (Unmarshal (sl (eap_LeafInput resp)));
  if (0 <? length rest)%nat then fatalf "trailing data (%d bytes) after MerkleTreeLeaf"
  else
    cert ← check "failed to parse certificate in MerkleTreeLeaf: %v" (X509Certificate leaf);
    checkName cert leafIndex;;
    let leafHash := HashLeaf Sum256 (sl (eap_LeafInput resp)) in
    check "failed to verify inclusion proof: %v"
      (VerifyInclusionProof Sum256 leafIndex treeSize (eap_AuditPath resp)
         (Some (SHA256RootHash sh)) (Some leafHash)).

Definition manyEntryAndProofChecks (treeSize : Z) (sh : SignedTreeHead) : M W unit :=
  mfold (λ _ _,
    leafIndex ← Int63n treeSize;
    resp ← try (GetEntryAndProof leafIndex treeSize);
    entryAndProofCheck resp leafIndex treeSize sh) () (seq 0 10).

(** ** The audit (main.go) *)

(** Certificates are made by [generateNthCert] from the CA's certificate and
    key, which are read from files. *)
Context (cert : Z → outcome (list bytes)).

Definition quote : string := String.String (Ascii.ascii_of_nat 34) "".
Definition HTTPStatus (status : string) : string := "got HTTP Status " +:+ quote +:+ status +:+ quote.
Definition zeros (n : nat) : bytes := replicate n Byte.x00.

(** The requests to the empty log. *)
Definition emptyChecks : M W unit :=
  simpleChecks (e := GetSTHConsistencyPath) (GetSTHConsistency (-1) 0) ("[] " +:+ HTTPStatus "400 Bad Request");;
  simpleChecks (e := GetSTHConsistencyPath) (GetSTHConsistency 0 0) "[] <nil>";;
  simpleChecks (e := GetSTHConsistencyPath) (GetSTHConsistency 0 1) "[] <nil>";;
  simpleChecks (e := GetProofByHashPath) (GetProofByHash (zeros 32) (-10)) ("<nil> " +:+ HTTPStatus "400 Bad Request");;
  simpleChecks (e := GetProofByHashPath) (GetProofByHash (zeros 70) 1) ("<nil> " +:+ HTTPStatus "404 Not Found");;
  simpleChecks (e := GetProofByHashPath) (GetProofByHash (zeros 2) 1) ("<nil> " +:+ HTTPStatus "404 Not Found");;
  simpleChecks (e := GetProofByHashPath) (GetProofByHash (zeros 32) 1) ("<nil> " +:+ HTTPStatus "404 Not Found");;
  simpleChecks (e := GetEntriesPath) (GetRawEntries (-100) (-10)) ("<nil> " +:+ HTTPStatus "400 Bad Request");;
  simpleChecks (e := GetEntriesPath) (GetRawEntries 10 1) ("<nil> " +:+ HTTPStatus "400 Bad Request");;
  simpleChecks (e := GetEntriesPath) (GetRawEntries 100000 100000) ("<nil> " +:+ HTTPStatus "500 Internal Server Error");;
  simpleChecks (e := GetEntryAndProofPath) (GetEntryAndProof 0 0) ("<nil> " +:+ HTTPStatus "400 Bad Request");;
  simpleChecks (e := GetEntryAndProofPath) (GetEntryAndProof 3 1) ("<nil> " +:+ HTTPStatus "400 Bad Request");;
  simpleChecks (e := GetEntryAndProofPath) (GetEntryAndProof 0 1) ("<nil> " +:+ HTTPStatus "400 Bad Request").

(** [client.AddChain(ctx, generateNthCert(caCert, caKey, i))] *)
Definition addNth (i : nat) : M W (outcome Z) := chain ← lift (cert (Z.of_nat i)); try (AddChain chain).
Definition addOrDie (i : nat) : M W Z :=
  r ← addNth i; match r with Ok t => mret t | Err e => fatal e | Panic => panic end.

(** [timestamps[i]], whose length is 45. *)
Definition timestamp (ts : list Z) (i : nat) : M W Z :=
  match ts !! i with Some t => mret t | None => panic end.
Definition setTimestamp (ts : list Z) (i : nat) (t : Z) : M W (list Z) :=
  if (i <? length ts)%nat then mret (<[i := t]> ts) else panic.

Definition err_dedup : string := "AddChain submission was not properly de-duplicated.".

Definition firstBatch (ts : list Z) : M W (list Z) :=
  mfold (λ ts i, t ← addOrDie i; setTimestamp ts i t) ts (seq 0 30).

Definition secondBatch (ts : list Z) : M W (list Z) :=
  ts ← mfold (λ ts i,
    t ← addOrDie i;
    if (i <? 30)%nat then
      t0 ← timestamp ts i;
      if negb (t =? t0)%Z then fatalf err_dedup else mret ts
    else setTimestamp ts i t) ts (seq 20 25);
  mfold (λ _ i,
    t ← addOrDie i;
    t0 ← timestamp ts i;
    if negb (t =? t0)%Z then fatalf err_dedup else mret ()) () (seq 40 5);;
  mret ts.

Definition addBatch (first n : nat) : M W unit :=
  mfold (λ _ i, addOrDie i;; mret ()) () (seq first n).

Definition consistency (first second : Z) (sh1 sh2 : SignedTreeHead) : M W unit :=
  proof ← try (GetSTHConsistency first second);
  consistencyCheck proof first second sh1 sh2.

Definition checkTree (treeSize : Z) (sh : SignedTreeHead) : M W unit :=
  manyProofChecks treeSize sh;;
  manyEntryChecks treeSize;;
  manyEntryAndProofChecks treeSize sh.

(** The tree heads that [main] waits for. *)
Record Heads := mkHeads {
  sh30 : SignedTreeHead; sh45 : SignedTreeHead; sh300 : SignedTreeHead; sh530 : SignedTreeHead }.

(** [main], from the first request to the last check of a tree. *)
Definition audit : M W Heads :=
  r ← try GetSTH;
  match r with
  | Err e => fatal e
  | Panic => panic
  | Ok sh =>
      if negb (TreeSize sh =? 0)%Z
      then fatalf "cowardly refusing to continue, tree size is %v, not 0" else mret ()
  end;;
  emptyChecks;;
  let timestamps := replicate 45 0%Z in
  timestamps ← firstBatch timestamps;
  sh30 ← WaitForSTH 30;
  checkTree 30 sh30;;
  _ ← secondBatch timestamps;
  sh45 ← WaitForSTH 45;
  consistency 30 45 sh30 sh45;;
  checkTree 45 sh45;;
  addBatch 45 255;;
  sh300 ← WaitForSTH 300;
  consistency 30 45 sh30 sh45;;
  consistency 30 300 sh30 sh300;;
  consistency 45 300 sh45 sh300;;
  checkTree 300 sh300;;
  addBatch 300 230;;
  sh530 ← WaitForSTH 530;
  consistency 30 45 sh30 sh45;;
  consistency 30 300 sh30 sh300;;
  consistency 30 530 sh30 sh530;;
  consistency 45 300 sh45 sh300;;
  consistency 45 530 sh45 sh530;;
  checkTree 530 sh530;;
  mret (mkHeads sh30 sh45 sh300 sh530).

(** *** Flooding the log

    Five goroutines submit certificates until they are refused, then send their
    count to [main], which adds the counts up.  A step is one round of the loop
    of one goroutine. *)

Inductive worker := Flooding (j count : nat) | Sent (count : nat).

Definition round (i j count : nat) : M W worker :=
  if (j <? 800)%nat then
    let n := 530 + 800 * i + j in
    r ← addNth n;
    match r with
    | Ok _ => mret (Flooding (S j) (S count))
    | Err e =>
        if bool_decide (ErrorText e = HTTPStatus "403 Forbidden") then mret (Sent count)
        else fatal (Wrapf "Unexpected error while flooding log: %v" e)
    | Panic => panic
    end
  else fatalf "Failed to trigger rate-limiting.".

Definition step (i : nat) (ws : list worker) : M W (list worker) :=
  match ws !! i with
  | Some (Flooding j count) => w' ← round i j count; mret (<[i := w']> ws)
  | _ => mret ws
  end.

Definition sent (w : worker) : option nat := match w with Sent n => Some n | _ => None end.

(** The sum of the five counts, when all were received; [None] while [main]
    still waits after the rounds of a schedule. *)
Fixpoint flood (schedule : list nat) (ws : list worker) : M W (option nat) :=
  match mapM sent ws with
  | Some counts => mret (Some (sum_list counts))
  | None =>
      match schedule with
      | [] => mret None
      | i :: schedule => ws ← step i ws; flood schedule ws
      end
  end.

Definition workers : list worker := replicate 5 (Flooding 0 0).

Definition main (schedule : list nat) : M W (option nat) := audit;; flood schedule workers.

(** ** Properties *)

(** *** Waiting *)

Fixpoint heads (n : nat) (w : W) : list (outcome SignedTreeHead) :=
  match n with
  | O => []
  | S n => let '(r, w') := GetSTH w in r :: heads n (Sleep (5 * 1000000000) w')
  end.

(** The first answer that ends the waiting. *)
Definition decisive (treeSize : Z) (r : outcome SignedTreeHead) : bool :=
  match r with Ok sh => (TreeSize sh =? treeSize)%Z | _ => true end.

Lemma poll_heads n treeSize w :
  (poll n treeSize w).1 =
  match list_find (λ r, decisive treeSize r = true) (heads n w) with
  | Some (_, r) => r
  | None => Err (Errorf "timed out waiting to read an STH with tree size %v")
  end.
Proof.
  revert w. induction n as [|n IH]; intros w; [done|].
  cbn [poll heads]. unfold mbind, M_bind, try. destruct (GetSTH w) as [[sh|e|] w'] eqn:E; cbn.
  - destruct (TreeSize sh =? treeSize)%Z eqn:Et; [done|]. cbn. unfold modify. cbn. rewrite IH.
    by destruct (list_find _ _) as [[]|].
  - done.
  - done.
Qed.

(** Waiting for a tree head ends: [WaitForSTH] asks at most thirty times,
    and its result is that of the first answer that has the tree size or is an
    error, or else the error of the timeout; a head it returns has the size. *)
Theorem WaitForSTH_first treeSize w :
  (WaitForSTH treeSize w).1 =
    match list_find (λ r, decisive treeSize r = true) (heads 30 w) with
    | Some (_, r) => r
    | None => Err (Errorf "timed out waiting to read an STH with tree size %v")
    end ∧
  ∀ sh w', WaitForSTH treeSize w = (Ok sh, w') → TreeSize sh = treeSize.
Proof.
  split; [apply poll_heads|]. intros sh w' E. pose proof (poll_heads 30 treeSize w) as Hp.
  unfold WaitForSTH in E. rewrite E in Hp. cbn [fst] in Hp.
  destruct (list_find _ _) as [[i r]|] eqn:Ef; [|done].
  apply list_find_Some in Ef as (_ & Hd & _). subst r. by apply Z.eqb_eq.
Qed.

Lemma WaitForSTH_size treeSize w sh w' : WaitForSTH treeSize w = (Ok sh, w') → TreeSize sh = treeSize.
Proof.
  unfold WaitForSTH. generalize 30 as n. intros n. revert w. induction n as [|n IH]; intros w; [done|].
  cbn [poll]. intros (r & w1 & _ & E)%mbind_Ok. destruct r as [sh1| |]; [|done..].
  destruct (Z.eqb_spec (TreeSize sh1) treeSize); [by injection E as -> ->|].
  apply mbind_Ok in E as (? & ? & _ & E). by apply (IH _ E).
Qed.

(** *** Flooding *)

Definition count (w : worker) : nat := match w with Flooding _ n | Sent n => n end.
Definition total (ws : list worker) : nat := sum_list (count <$> ws).

(** Rounds that a goroutine has left. *)
Definition roundsLeft (w : worker) : nat := match w with Flooding j _ => 801 - j | Sent _ => 0 end.
Definition running (w : worker) : Prop :=
  match w with Flooding j n => n ≤ j ≤ 800 | Sent n => n ≤ 800 end.

Section flood.
(** The certificates that a log accepts, counted. *)
Context (accepted : W → nat).
Context (accepted_Ok : ∀ c w t w', AddChain c w = (Ok t, w') → accepted w' = S (accepted w)).
Context (accepted_Err : ∀ c w e w', AddChain c w = (Err e, w') → accepted w' = accepted w).

Lemma round_spec i j n w w' v' :
  round i j n w = (Ok v', w') → running (Flooding j n) →
  running v' ∧ roundsLeft v' < roundsLeft (Flooding j n) ∧
  accepted w' + n = accepted w + count v'.
Proof.
  intros E Hr. unfold round in E. destruct (Nat.ltb_spec j 800) as [Hj|]; [|done].
  apply mbind_Ok in E as (r & w1 & Ea & E). unfold addNth in Ea.
  apply mbind_Ok in Ea as (c & w2 & Ec & Ea). unfold lift in Ec. injection Ec as _ <-.
  unfold try in Ea. simpl in Hr.
  destruct (AddChain c w) as [[t|e|] w3] eqn:EA; simplify_eq.
  - injection E as <- <-. apply accepted_Ok in EA. simpl. lia.
  - apply accepted_Err in EA. case_bool_decide; [|done]. injection E as <- <-. simpl. lia.
Qed.

Lemma total_insert i ws v v' : ws !! i = Some v → total (<[i := v']> ws) + count v = total ws + count v'.
Proof.
  revert i. induction ws as [|u ws IH]; intros [|i] Hi; try done; unfold total in *; csimpl in *.
  - injection Hi as ->. lia.
  - apply IH in Hi. lia.
Qed.

Lemma sent_total ws counts : mapM sent ws = Some counts → total ws = sum_list counts.
Proof.
  revert counts. induction ws as [|[j n|n] ws IH]; intros counts E.
  - by injection E as <-.
  - done.
  - apply bind_Some in E as (? & [= <-] & E). apply bind_Some in E as (ns & E & [= <-]).
    specialize (IH ns E). unfold total in *. csimpl. lia.
Qed.

Lemma all_sent ws : (∀ i v, ws !! i = Some v → roundsLeft v = 0) → Forall running ws → mapM sent ws ≠ None.
Proof.
  intros Hl Hr E. apply mapM_None in E. apply Exists_exists in E as (v & Hv & Hn).
  rewrite Forall_forall in Hr. specialize (Hr v Hv). apply list_elem_of_lookup in Hv as [i Hi].
  apply Hl in Hi. destruct v; simpl in *; [lia|done].
Qed.

Lemma total_bound ws : Forall running ws → total ws ≤ 800 * length ws.
Proof.
  unfold total. induction 1 as [|v ws Hv _ IH]; csimpl; [lia|]. destruct v; simpl in *; lia.
Qed.

Lemma step_spec i ws w ws' w' :
  step i ws w = (Ok ws', w') → Forall running ws →
  Forall running ws' ∧ length ws' = length ws ∧
  accepted w' + total ws = accepted w + total ws' ∧
  ∀ k v', ws' !! k = Some v' → ∃ v, ws !! k = Some v ∧ roundsLeft v' ≤ roundsLeft v ∧
    (k = i → 0 < roundsLeft v → roundsLeft v' < roundsLeft v).
Proof.
  intros E Hr. unfold step in E. destruct (ws !! i) as [[j n|n]|] eqn:Ei.
  2-3: injection E as <- <-; split; [done|]; split; [done|]; split; [lia|]; intros k v' Hk;
    exists v'; repeat split; [done|lia|]; intros ->; rewrite Ei in Hk; simplify_eq; simpl; lia.
  apply mbind_Ok in E as (v & w1 & E & [= <- <-]).
  assert (running (Flooding j n)) as Hv by (rewrite Forall_lookup in Hr; by apply (Hr i)).
  apply round_spec in E as (Hv' & Hd & Ha); [|done]. split; [by apply Forall_insert|].
  split; [apply length_insert|]. pose proof (total_insert i ws _ v Ei) as Ht. simpl in *. split; [lia|].
  intros k v' Hk. destruct (decide (k = i)) as [->|Hne].
  - rewrite list_lookup_insert_eq in Hk by (by eapply lookup_lt_Some). injection Hk as <-.
    exists (Flooding j n). repeat split; [done|simpl; lia|simpl; lia].
  - rewrite list_lookup_insert_ne in Hk by done. exists v'. repeat split; [done|lia|done].
Qed.

Lemma flood_runs schedule ws w :
  Forall running ws →
  (∀ i v, ws !! i = Some v → roundsLeft v ≤ length (filter (λ k, k = i) schedule)) →
  match flood schedule ws w with
  | (Ok r, w') => ∃ n, r = Some n ∧ accepted w' + total ws = accepted w + n ∧ n ≤ 800 * length ws
  | _ => True
  end.
Proof.
  revert ws w. induction schedule as [|i schedule IH]; intros ws w Hr Hl; cbn [flood];
    destruct (mapM sent ws) as [counts|] eqn:E.
  1,3: exists (sum_list counts); rewrite <-(sent_total ws counts E);
    split_and!; [done|done|by apply total_bound].
  - exfalso. apply (all_sent ws); [|done..]. intros i v Hi. apply Hl in Hi. simpl in Hi. lia.
  - unfold mbind, M_bind. destruct (step i ws w) as [[ws'| |] w1] eqn:Es; try done.
    apply step_spec in Es as (Hr' & Hlen & Ha & Hd); [|done].
    specialize (IH ws' w1 Hr'). destruct (flood schedule ws' w1) as [[r| |] w2]; try done.
    destruct IH as (n & -> & Hn & Hb).
    + intros k v' Hk. destruct (Hd k v' Hk) as (v & Hv & Hle & Hlt). apply Hl in Hv.
      rewrite filter_cons in Hv. case_decide as Hk'; [|lia]. simpl in Hv.
      destruct (decide (0 < roundsLeft v)); [|lia]. apply eq_sym in Hk'. specialize (Hlt Hk'). lia.
    + exists n. repeat split; [lia|by rewrite <-Hlen].
Qed.

(** Flooding ends: when every goroutine is given 801 rounds, in any order,
    [main] has received the five counts, or the process has ended; the sum it
    reports is the number of certificates the log accepted, 4000 at most. *)
Theorem flood_ends schedule w :
  (∀ i, i < 5 → 801 ≤ length (filter (λ k, k = i) schedule)) →
  match flood schedule workers w with
  | (Ok r, w') => ∃ n, r = Some n ∧ accepted w' = accepted w + n ∧ n ≤ 4000
  | (Err _, _) | (Panic, _) => True
  end.
Proof.
  intros Hs. pose proof (flood_runs schedule workers w) as H'.
  destruct (flood schedule workers w) as [[r| |] w']; try done.
  destruct H' as (n & -> & Ha & Hn).
  - apply Forall_replicate. simpl. lia.
  - intros i v Hi. apply lookup_replicate in Hi as [-> Hi]. simpl. by apply Hs.
  - exists n. repeat split; [|done]. change (total workers) with 0 in Ha. lia.
Qed.
End flood.

(** *** What passing shows *)

Lemma check_Ok {A} format (r : outcome A) (w w' : W) a :
  check format r w = (Ok a, w') ↔ r = Ok a ∧ w' = w.
Proof. destruct r; unfold check, fatal; unfold_M; naive_solver. Qed.

Lemma try_Ok {A} (m : M W A) (w w' : W) r :
  try m w = (Ok r, w') → (∃ a, r = Ok a ∧ m w = (Ok a, w')) ∨ ∃ e, r = Err e ∧ m w = (Err e, w').
Proof. unfold try. destruct (m w) as [[]]; naive_solver. Qed.

Lemma checkName_Ok c index (w w' : W) :
  checkName c index w = (Ok (), w') → cert_DNSNames c = [certName index] ∧ w' = w.
Proof.
  unfold checkName, fatalf. destruct (cert_DNSNames c) as [|s [|]]; simpl; try done.
  case_bool_decide as E; unfold_M; [|done]. intros [= ->]. simpl in E. by subst s.
Qed.

Lemma consistency_Ok m n s1 s2 (w w' : W) :
  consistency m n s1 s2 w = (Ok (), w') →
  ∃ proof, GetSTHConsistency m n w = (Ok proof, w') ∧
    VerifyConsistencyProof Sum256 m n (Some (SHA256RootHash s1)) (Some (SHA256RootHash s2)) proof = Ok ().
Proof.
  unfold consistency, consistencyCheck.
  intros (r & w1 & Ht & (proof & w2 & [-> ->]%check_Ok & [Hv ->]%check_Ok)%mbind_Ok)%mbind_Ok.
  apply try_Ok in Ht as [(p & [= <-] & Hg)|(e & ? & _)]; [|done]. by exists proof.
Qed.

(** C31. An entry that passes is the one asked for: its certificate has the one
    name the auditor gave to the certificate of that index, and its hash is in
    the log at that index, unless a string that the check hashed and another one
    that was hashed for the tree have the same hash. *)
Theorem entryAndProofCheck_sound (Hsize : ∀ b, length (Sum256 b) = hashSize) l index sh resp (w w' : W) :
  Forall (λ h : bytes, length h = hashSize) l →
  (0 ≤ index < Z.of_nat (length l))%Z → (Z.of_nat (length l) < 2 ^ 63)%Z →
  SHA256RootHash sh = MTH Sum256 l →
  entryAndProofCheck resp index (Z.of_nat (length l)) sh w = (Ok (), w') →
  ∃ r leaf c,
    resp = Ok r ∧ Unmarshal (sl (eap_LeafInput r)) = Ok (leaf, []) ∧ X509Certificate leaf = Ok c ∧
    cert_DNSNames c = [certName index] ∧
    (l !! Z.to_nat index = Some (HashLeaf Sum256 (sl (eap_LeafInput r))) ∨
     collision Sum256 l (inclusionInputs Sum256 index (Z.of_nat (length l)) (eap_AuditPath r)
       (Some (HashLeaf Sum256 (sl (eap_LeafInput r)))))).
Proof.
  intros Hl Hi Hmax Hr. unfold entryAndProofCheck.
  intros (r & w1 & [-> ->]%check_Ok & E)%mbind_Ok.
  apply mbind_Ok in E as ([leaf rest] & w2 & [Hu ->]%check_Ok & E). destruct rest; [|done].
  apply mbind_Ok in E as (c & w3 & [Hc ->]%check_Ok & E).
  apply mbind_Ok in E as ([] & w4 & [Hn ->]%checkName_Ok & [Hv _]%check_Ok).
  exists r, leaf, c. repeat (split; [done|]).
  by apply VerifyInclusionProof_leaf in Hv; [|apply Hsize|..].
Qed.

(** *** A whole audit *)

Section audit.
Context (Hsize : ∀ b, length (Sum256 b) = hashSize).
(** Tree heads hold hashes by their type. *)
Context (GetSTH_size : ∀ w sh w', GetSTH w = (Ok sh, w') → length (SHA256RootHash sh) = hashSize).

Lemma WaitForSTH_root treeSize w sh w' :
  WaitForSTH treeSize w = (Ok sh, w') → length (SHA256RootHash sh) = hashSize.
Proof.
  unfold WaitForSTH. generalize 30 as n. intros n. revert w. induction n as [|n IH]; intros w; [done|].
  cbn [poll]. intros (r & w1 & Ht & E)%mbind_Ok. destruct r as [sh1| |]; [|done..].
  apply try_Ok in Ht as [(? & [= <-] & Hg)|(? & ? & _)]; [|done].
  case_match; [injection E as -> ->; by eapply GetSTH_size|].
  apply mbind_Ok in E as (? & ? & _ & E). by apply (IH _ E).
Qed.

(** The first head belongs to the log of the second one, or the proof that the
    log sent for them gives it away: it comes with two strings with the same
    hash, or a component of it does not have the size of a hash, which the
    auditor does not check. *)
Definition extended (first : SignedTreeHead) (l : list bytes) : Prop :=
  SHA256RootHash first = MTH Sum256 (take (Z.to_nat (TreeSize first)) l) ∨
  ∃ proof w w',
    GetSTHConsistency (TreeSize first) (Z.of_nat (length l)) w = (Ok proof, w') ∧
    VerifyConsistencyProof Sum256 (TreeSize first) (Z.of_nat (length l))
      (Some (SHA256RootHash first)) (Some (MTH Sum256 l)) proof = Ok () ∧
    (collision Sum256 l (consistencyInputs Sum256 (TreeSize first) (Z.of_nat (length l))
       (Some (SHA256RootHash first)) proof) ∨
     ∃ h, h ∈ proof ∧ length (sl h) ≠ hashSize).

Lemma consistency_extended m n l s1 s2 u w w' :
  consistency m n s1 s2 w = (Ok u, w') →
  TreeSize s1 = m → Z.of_nat (length l) = n → (0 < m ≤ n)%Z → (n < 2 ^ 63)%Z →
  Forall (λ h : bytes, length h = hashSize) l →
  length (SHA256RootHash s1) = hashSize → SHA256RootHash s2 = MTH Sum256 l →
  extended s1 l.
Proof.
  destruct u. intros (proof & Hg & Hv)%consistency_Ok <- <- Hm Hmax Hl Hs1 Hs2. rewrite Hs2 in Hv.
  destruct (decide (Forall (λ h : slice, length (sl h) = hashSize) proof)) as [Hp|Hp].
  - rewrite Forall_forall in Hp. pose proof Hv as Hv'.
    apply VerifyConsistencyProof_prefix in Hv as [?|?]; try done; [by left|right].
    exists proof, w, w'. split_and!; try done. by left.
  - right. exists proof, w, w'. split_and!; try done. right.
    by apply not_Forall_Exists, Exists_exists in Hp; [|apply _].
Qed.

(** C20. A log that passes the audit showed one log: whoever has the 300 or the
    530 leaf hashes of the tree that the third or the last head is the root of
    finds that the heads of 30 and 45 are the roots of its first 30 and 45
    leaves, unless the proof the log sent comes with two strings with the same
    hash, or has a component that is not as long as a hash, which the auditor
    does not check ([Verifier.VerifyConsistencyProof_ambiguous] is such a
    proof). *)
Theorem audit_one_log w hs w' :
  audit w = (Ok hs, w') →
  TreeSize (sh30 hs) = 30%Z ∧ TreeSize (sh45 hs) = 45%Z ∧
  TreeSize (sh300 hs) = 300%Z ∧ TreeSize (sh530 hs) = 530%Z ∧
  ∀ l sh,
    (sh = sh300 hs ∧ length l = 300) ∨ (sh = sh530 hs ∧ length l = 530) →
    Forall (λ h : bytes, length h = hashSize) l → SHA256RootHash sh = MTH Sum256 l →
    extended (sh30 hs) l ∧ extended (sh45 hs) l.
Proof.
  unfold audit. intros E.
  repeat match type of E with
  | (_ ≫= _) _ = _ => apply mbind_Ok in E as (? & ? & ? & E)
  end.
  injection E as <- _. cbn [sh30 sh45 sh300 sh530].
  repeat match goal with
  | H : WaitForSTH _ _ = _ |- _ =>
      pose proof (WaitForSTH_size _ _ _ _ H); apply WaitForSTH_root in H
  end.
  do 4 (split; [done|]).
  intros l sh [[-> Hn]|[-> Hn]] Hl Hr; split;
    match goal with H : consistency _ _ ?s1 ?s2 _ = _, Hr : SHA256RootHash ?s2 = _ |- extended ?s1 _ =>
      apply (consistency_extended _ _ l _ _ _ _ _ H); by (done || lia) end.
Qed.
End audit.

(** *** Passing *)

(** A log that holds these leaves in the states [I], where it answers by RFC
    6962, and whose entries are the certificates of the auditor, in order. *)
Record honest (leaves : list bytes) (I : W → Prop) : Prop := mkHonest {
  honest_entry : ∀ i leaf w, I w → leaves !! i = Some leaf →
    ∃ extra w', GetRawEntries (Z.of_nat i) (Z.of_nat i) w = (Ok [mkLeafEntry (Some leaf) extra], w') ∧ I w';
  honest_proof : ∀ i leaf w, I w → leaves !! i = Some leaf →
    ∃ w', GetProofByHash (HashLeaf Sum256 leaf) (Z.of_nat (length leaves)) w =
      (Ok (mkProofByHash (Z.of_nat i)
             (Some <$> PATH Sum256 i (HashLeaf Sum256 <$> leaves))), w') ∧ I w';
  honest_both : ∀ i leaf w, I w → leaves !! i = Some leaf →
    ∃ extra w', GetEntryAndProof (Z.of_nat i) (Z.of_nat (length leaves)) w =
      (Ok (mkEntryAndProof (Some leaf) extra
             (Some <$> PATH Sum256 i (HashLeaf Sum256 <$> leaves))), w') ∧ I w';
  honest_range : ∀ start n w, I w → start + n < length leaves →
    ∃ w', GetEntries (Z.of_nat start) (Z.of_nat (start + n)) w =
      (Ok ((λ i, mkLogEntry (Some (mkCertificate [certName (Z.of_nat i)]))) <$> seq start (S n)), w') ∧ I w';
  honest_certificate : ∀ i leaf, leaves !! i = Some leaf →
    ∃ m, Unmarshal leaf = Ok (m, []) ∧ X509Certificate m = Ok (mkCertificate [certName (Z.of_nat i)]);
  honest_draw : ∀ w, I w → I (Int63 w).2
}.

Section honest.
Context (Hsize : ∀ b, length (Sum256 b) = hashSize).
Context (leaves : list bytes) (I : W → Prop) (Hlog : honest leaves I).
Context (Hnonempty : 0 < length leaves) (Hmax : (Z.of_nat (length leaves) < 2 ^ 63)%Z).

Abbreviation size := (Z.of_nat (length leaves)).
Abbreviation hashes := (HashLeaf Sum256 <$> leaves).

(** Code that ends, whatever the random numbers are. *)
Definition passes (m : M W ()) : Prop := ∀ w, I w → ∃ w', m w = (Ok (), w') ∧ I w'.

Lemma passes_mfold {A} (f : () → A → M W ()) l : (∀ a, a ∈ l → passes (f () a)) → passes (mfold f () l).
Proof.
  induction l as [|a l IH]; intros Hf w Hw; [by exists w|]. cbn [mfold].
  destruct (Hf a ltac:(by left) w Hw) as (w1 & E & Hw1). unfold mbind, M_bind. rewrite E.
  apply IH; [|done]. intros b Hb. apply Hf. by right.
Qed.

Lemma Int63n_passes (n : nat) w :
  I w → 0 < n → ∃ i w', i < n ∧ Int63n (Z.of_nat n) w = (Ok (Z.of_nat i), w') ∧ I w'.
Proof.
  intros Hw Hn. unfold Int63n. rewrite (proj2 (Z.leb_gt _ _)) by lia.
  pose proof (honest_draw _ _ Hlog w Hw) as Hw'. destruct (Int63 w) as [v w'].
  pose proof (Z.mod_pos_bound v (Z.of_nat n)). exists (Z.to_nat (v `mod` Z.of_nat n)), w'.
  split; [lia|]. by rewrite Z2Nat.id by lia.
Qed.

Lemma honest_verifies i leaf sh :
  leaves !! i = Some leaf → SHA256RootHash sh = MTH Sum256 hashes →
  VerifyInclusionProof Sum256 (Z.of_nat i) size (Some <$> PATH Sum256 i hashes)
    (Some (SHA256RootHash sh)) (Some (HashLeaf Sum256 leaf)) = Ok ().
Proof.
  intros Hi ->. rewrite <-(length_fmap (HashLeaf Sum256) leaves).
  apply VerifyInclusionProof_path; [by rewrite list_lookup_fmap, Hi|apply Hsize|by rewrite length_fmap].
Qed.

Lemma manyProofChecks_passes sh : SHA256RootHash sh = MTH Sum256 hashes → passes (manyProofChecks size sh).
Proof.
  intros Hr. apply passes_mfold. intros k _ w Hw.
  destruct (Int63n_passes (length leaves) w Hw Hnonempty) as (i & w1 & Hi & E1 & Hw1).
  apply lookup_lt_is_Some in Hi as [leaf Hi].
  destruct (honest_entry _ _ Hlog i leaf w1 Hw1 Hi) as (extra & w2 & E2 & Hw2).
  destruct (honest_proof _ _ Hlog i leaf w2 Hw2 Hi) as (w3 & E3 & Hw3).
  exists w3. split; [|done]. unfold mbind, M_bind at 1. rewrite E1. unfold try, GetRawLeaf, mbind, M_bind.
  rewrite E2. cbn. unfold mret, M_ret. change (Sum256 (Byte.x00 :: leaf)) with (HashLeaf Sum256 leaf).
  rewrite E3. unfold proofCheck, check, mbind, M_bind, mret, M_ret. cbn [pbh_LeafIndex pbh_AuditPath sl].
  rewrite Z.eqb_refl. cbn [negb]. change (sl (Some leaf)) with leaf. by rewrite honest_verifies.
Qed.

Lemma checkName_passes index w : checkName (mkCertificate [certName index]) index w = (Ok (), w).
Proof. unfold checkName. cbn. by rewrite bool_decide_true. Qed.

Lemma manyEntryAndProofChecks_passes sh :
  SHA256RootHash sh = MTH Sum256 hashes → passes (manyEntryAndProofChecks size sh).
Proof.
  intros Hr. apply passes_mfold. intros k _ w Hw.
  destruct (Int63n_passes (length leaves) w Hw Hnonempty) as (i & w1 & Hi & E1 & Hw1).
  apply lookup_lt_is_Some in Hi as [leaf Hi].
  destruct (honest_both _ _ Hlog i leaf w1 Hw1 Hi) as (extra & w2 & E2 & Hw2).
  destruct (honest_certificate _ _ Hlog i leaf Hi) as (m & Hm & Hc).
  exists w2. split; [|done]. unfold mbind, M_bind at 1. rewrite E1. unfold try, mbind, M_bind.
  rewrite E2. unfold entryAndProofCheck, check, mbind, M_bind, mret, M_ret.
  cbn [eap_LeafInput eap_AuditPath]. change (sl (Some leaf)) with leaf. rewrite Hm. cbn [length Nat.ltb Nat.leb].
  rewrite Hc, checkName_passes. by rewrite honest_verifies.
Qed.

(** The entries of a range are the certificates of their indexes. *)
Lemma entriesCheck_passes start n w :
  (Z.of_nat (start + S n) < 2 ^ 63)%Z →
  entriesCheck (Ok ((λ i, mkLogEntry (Some (mkCertificate [certName (Z.of_nat i)]))) <$> seq start (S n)))
    (Z.of_nat start) (Z.of_nat (start + n)) w = (Ok (), w).
Proof.
  intros Hn. set (es := _ <$> seq start (S n)).
  unfold entriesCheck, check. cbn [mbind M_bind]. unfold mbind at 1, M_bind at 1, mret, M_ret.
  assert (length es = S n) as Hes by (unfold es; by rewrite length_fmap, length_seq).
  rewrite Hes, wrap64_small by (unfold int64; lia). rewrite (proj2 (Z.eqb_eq _ _)) by lia. cbn [negb].
  assert (∀ ie, ie ∈ zip (seq 0 (S n)) es →
    X509Cert ie.2 = Some (mkCertificate [certName (wrap64 (Z.of_nat start + Z.of_nat ie.1))])) as Hcert.
  { intros [j e] He. cbn [fst snd].
    apply elem_of_lookup_zip_with in He as (i & j' & e' & [= -> ->] & Hj & He).
    apply lookup_seq in Hj as [-> Hj]. unfold es in He. rewrite list_lookup_fmap, lookup_seq_lt in He by lia.
    injection He as <-. rewrite wrap64_small by (unfold int64; lia). by rewrite <-Nat2Z.inj_add. }
  revert Hcert. generalize (zip (seq 0 (S n)) es). clear. intros l.
  induction l as [|ie l IH]; intros Hl; [done|]. cbn [mfold]. rewrite (Hl ie) by by left.
  unfold mbind, M_bind. rewrite checkName_passes. apply IH. intros ie' ?. apply Hl. by right.
Qed.

Lemma manyEntryChecks_passes : passes (manyEntryChecks size).
Proof.
  apply passes_mfold. intros k _ w Hw.
  destruct (Int63n_passes (length leaves) w Hw Hnonempty) as (start & w1 & Hs & E1 & Hw1).
  destruct (Int63n_passes (length leaves - start) w1 Hw1 ltac:(lia)) as (n & w2 & Hn & E2 & Hw2).
  destruct (honest_range _ _ Hlog start n w2 Hw2 ltac:(lia)) as (w3 & E3 & Hw3).
  exists w3. split; [|done].
  unfold mbind, M_bind at 1. rewrite E1. unfold mbind, M_bind.
  rewrite <-Nat2Z.inj_sub, E2 by lia. unfold try. rewrite <-Nat2Z.inj_add, E3 by lia.
  apply entriesCheck_passes. lia.
Qed.

(** C32. A log that answers by RFC 6962 passes every check of a tree, whichever
    leaves are drawn. *)
Theorem checkTree_honest sh w :
  SHA256RootHash sh = MTH Sum256 hashes → I w →
  ∃ w', checkTree size sh w = (Ok (), w') ∧ I w'.
Proof.
  intros Hr Hw. unfold checkTree.
  destruct (manyProofChecks_passes sh Hr w Hw) as (w1 & E1 & Hw1).
  destruct (manyEntryChecks_passes w1 Hw1) as (w2 & E2 & Hw2).
  destruct (manyEntryAndProofChecks_passes sh Hr w2 Hw2) as (w3 & E3 & Hw3).
  exists w3. unfold mbind, M_bind. by rewrite E1, E2, E3.
Qed.
End honest.
End tester.
