(* ===== verification/ReferenceLog.v ===== *)
(** * A log by RFC 6962

    An executable log server, in the form of an instance of [LogServer]: it
    shows that the interface of the auditor has such an implementation, that
    the auditor, run on it, comes to its end, and that the hypotheses of the
    auditor's properties can hold.  The program has no counterpart of it: in
    production the log server is in another process.  Its certificates hold
    their number in four bytes, and its hash function keeps 32 bytes. *)

From S2P Require Import Prelude Frontier Compact Nodes Verifier Paths Drand Tester.
From stdpp Require Import pretty.

(** The state: what was submitted, in order, without repetitions. *)
Abbreviation Log := (list (list bytes)).

Definition leaf_of (chain : list bytes) : bytes := concat chain.
Definition log_leaves (w : Log) : list bytes := leaf_of <$> w.
Definition log_hashes (w : Log) : list bytes := HashLeaf toy32 <$> log_leaves w.

(** The numbers that requests hold, up to 531. *)
Definition number (params : gmap string string) (key : string) : option nat :=
  s ← params !! key;
  fst <$> list_find (λ i, pretty (Z.of_nat i) = s) (seq 0 532).

Definition bad_request {A} : outcome A := Err (Errorf (HTTPStatus "400 Bad Request")).
Definition not_found {A} : outcome A := Err (Errorf (HTTPStatus "404 Not Found")).
Definition server_error {A} : outcome A := Err (Errorf (HTTPStatus "500 Internal Server Error")).

Definition serve_consistency (params : gmap string string) (w : Log) : outcome (list slice) :=
  match number params "first", number params "second" with
  | Some O, Some _ => Ok []
  | Some m, Some n =>
      if (m <=? n)%nat && (n <=? length w)%nat
      then Ok ((λ h, Some (toy32 h)) <$> PROOF toy32 m (take n (log_hashes w)))
      else bad_request
  | _, _ => bad_request
  end.

Definition serve_entries (params : gmap string string) (w : Log) : outcome (list LeafEntry) :=
  match number params "start", number params "end" with
  | Some start, Some end_ =>
      if (start <=? end_)%nat
      then Ok ((λ leaf, mkLeafEntry (Some leaf) None) <$> take (S end_ - start) (drop start (log_leaves w)))
      else bad_request
  | _, _ => if decide (params !! "start" = Some "100000"%string) then server_error else bad_request
  end.

Definition path (i n : nat) (w : Log) : list slice := Some <$> PATH toy32 i (take n (log_hashes w)).

Definition serve_proof (params : gmap string string) (w : Log) : outcome ProofByHash :=
  match number params "tree_size", params !! "hash" with
  | Some n, Some hash =>
      match list_find (λ h, EncodeToString h = hash) (take n (log_hashes w)) with
      | Some (i, _) => Ok (mkProofByHash (Z.of_nat i) (path i n w))
      | None => not_found
      end
  | _, _ => bad_request
  end.

Definition serve_entry (params : gmap string string) (w : Log) : outcome EntryAndProof :=
  match number params "leaf_index", number params "tree_size" with
  | Some i, Some n =>
      if (i <? n)%nat && (n <=? length w)%nat
      then Ok (mkEntryAndProof (log_leaves w !! i) None (path i n w))
      else bad_request
  | _, _ => bad_request
  end.

Definition serve (e : endpoint) (params : gmap string string) (w : Log) : outcome (Response e) :=
  match e with
  | GetSTHConsistencyPath => serve_consistency params w
  | GetEntriesPath => serve_entries params w
  | GetProofByHashPath => serve_proof params w
  | GetEntryAndProofPath => serve_entry params w
  end.

Definition submit (chain : list bytes) (w : Log) : outcome Z * Log :=
  match list_find (λ c, c = chain) w with
  | Some (i, _) => (Ok (Z.of_nat i), w)
  | None =>
      if (length w <? 600)%nat then (Ok (Z.of_nat (length w)), w ++ [chain])
      else (Err (Errorf (HTTPStatus "403 Forbidden")), w)
  end.

Definition entry_of (leaf : bytes) : LogEntry :=
  mkLogEntry (Some (mkCertificate [certName (be_val leaf)])).

#[export] Instance referenceLog : LogServer Log := {
  GetSTH := λ w, (Ok (mkSTH (Z.of_nat (length w)) (MTH toy32 (log_hashes w))), w);
  AddChain := submit;
  GetEntries := λ start end_ w,
    (Ok (entry_of <$> take (Z.to_nat (end_ - start + 1)) (drop (Z.to_nat start) (log_leaves w))), w);
  GetAndParse := λ e params w, (serve e params w, w);
  Sleep := λ _ w, w;
  Int63 := λ w, (7%Z, w);
  ErrorText := λ e, match e with Errorf s => s | _ => "" end
}.

Definition numberedCert (n : Z) : outcome (list bytes) := Ok [be_bytes 4 n].
Definition numberedLeaf (leaf : bytes) : outcome (Z * bytes) := Ok (be_val leaf, []).
Definition numberedX509 (n : Z) : outcome Certificate := Ok (mkCertificate [certName n]).

Definition noHead : SignedTreeHead := mkSTH 0 [].

(** The auditor comes to the end of its checks. *)
Lemma audit_ends :
  ∃ hs w, audit toy32 numberedLeaf numberedX509 numberedCert [] = (Ok hs, w).
Proof.
  assert (∀ r : outcome Heads * Log,
    match r.1 with Ok _ => true | _ => false end = true → ∃ hs w, r = (Ok hs, w)) as Hr.
  { intros [[hs| |] w]; try done. by exists hs, w. }
  apply Hr. vm_compute. reflexivity.
Qed.

(** ** Witnesses *)

Lemma log_hashes_sized w : Forall (λ h : bytes, length h = hashSize) (log_hashes w).
Proof. apply Forall_fmap, Forall_true. intros leaf. apply toy32_size. Qed.

Lemma reference_GetSTH_size w sh w' :
  GetSTH w = (Ok sh, w') → length (SHA256RootHash sh) = hashSize.
Proof.
  intros [= <- <-]. cbn [SHA256RootHash]. destruct w as [|c w]; [done|].
  apply length_MTH; [apply toy32_size|apply log_hashes_sized|simpl; lia].
Qed.

Lemma audit_one_log_witness :
  ∃ hs,
  TreeSize (sh30 hs) = 30%Z ∧ TreeSize (sh45 hs) = 45%Z ∧
  TreeSize (sh300 hs) = 300%Z ∧ TreeSize (sh530 hs) = 530%Z ∧
  ∀ l sh,
    (sh = sh300 hs ∧ length l = 300) ∨ (sh = sh530 hs ∧ length l = 530) →
    Forall (λ h : bytes, length h = hashSize) l → SHA256RootHash sh = MTH toy32 l →
    extended toy32 (sh30 hs) l ∧ extended toy32 (sh45 hs) l.
Proof.
  destruct audit_ends as (hs & w & E). exists hs.
  apply (audit_one_log toy32 numberedLeaf numberedX509 numberedCert toy32_size
    reference_GetSTH_size [] hs w E).
Defined.

(** A log of three certificates. *)
Definition log3 : Log := [[be_bytes 4 0]; [be_bytes 4 1]; [be_bytes 4 2]].

Lemma entryAndProofCheck_sound_witness :
  let r := mkEntryAndProof (Some (be_bytes 4 1)) None (path 1 3 log3) in
  ∃ r' leaf c,
    Ok r = Ok r' ∧ numberedLeaf (sl (eap_LeafInput r')) = Ok (leaf, []) ∧ numberedX509 leaf = Ok c ∧
    cert_DNSNames c = [certName 1] ∧
    (log_hashes log3 !! Z.to_nat 1 = Some (HashLeaf toy32 (sl (eap_LeafInput r'))) ∨
     collision toy32 (log_hashes log3) (inclusionInputs toy32 1 3 (eap_AuditPath r')
       (Some (HashLeaf toy32 (sl (eap_LeafInput r')))))).
Proof.
  intros r.
  apply (entryAndProofCheck_sound toy32 numberedLeaf numberedX509 toy32_size (log_hashes log3) 1
    (mkSTH 3 (MTH toy32 (log_hashes log3))) (Ok r) log3 log3);
    [apply log_hashes_sized|simpl; lia|simpl; lia|reflexivity|vm_compute; reflexivity].
Defined.

Lemma log3_honest : honest toy32 numberedLeaf numberedX509 (log_leaves log3) (λ w, w = log3).
Proof.
  assert (∀ (P : nat → bytes → Prop), P 0 (be_bytes 4 0) → P 1 (be_bytes 4 1) → P 2 (be_bytes 4 2) →
    ∀ i leaf, log_leaves log3 !! i = Some leaf → P i leaf) as Hcases.
  { intros P H0 H1 H2 i leaf Hi. destruct i as [|[|[|]]]; try done; injection Hi as <-; done. }
  split.
  - intros i leaf w -> Hi. exists None, log3. split; [|done]. revert i leaf Hi.
    apply Hcases; vm_compute; reflexivity.
  - intros i leaf w -> Hi. exists log3. split; [|done]. revert i leaf Hi.
    apply Hcases; vm_compute; reflexivity.
  - intros i leaf w -> Hi. exists None, log3. split; [|done]. revert i leaf Hi.
    apply Hcases; vm_compute; reflexivity.
  - intros start n w -> Hn. exists log3. split; [|done]. simpl in Hn.
    destruct start as [|[|[|]]]; destruct n as [|[|[|]]]; try lia; vm_compute; reflexivity.
  - intros i leaf Hi. exists (Z.of_nat i). revert i leaf Hi.
    apply Hcases; split; vm_compute; reflexivity.
  - by intros w ->.
Qed.

Lemma checkTree_honest_witness :
  ∃ w', checkTree toy32 numberedLeaf numberedX509 3 (mkSTH 3 (MTH toy32 (log_hashes log3))) log3 =
    (Ok (), w') ∧ w' = log3.
Proof.
  apply (checkTree_honest toy32 numberedLeaf numberedX509 toy32_size (log_leaves log3) _ log3_honest);
    [simpl; lia|simpl; lia|reflexivity|reflexivity].
Defined.

Lemma WaitForSTH_first_witness :
  (WaitForSTH 3 log3).1 =
    match list_find (λ r, decisive 3 r = true) (heads 30 log3) with
    | Some (_, r) => r
    | None => Err (Errorf "timed out waiting to read an STH with tree size %v")
    end ∧
  ∀ sh w', WaitForSTH 3 log3 = (Ok sh, w') → TreeSize sh = 3%Z.
Proof. apply (WaitForSTH_first 3 log3). Defined.

(** A log that takes 600 submissions, and counts them. *)
Definition countingLog : LogServer nat := {|
  GetSTH := λ w, (Ok noHead, w);
  AddChain := λ _ w,
    if (w <? 600)%nat then (Ok 0%Z, S w) else (Err (Errorf (HTTPStatus "403 Forbidden")), w);
  GetEntries := λ _ _ w, (bad_request, w);
  GetAndParse := λ _ _ w, (bad_request, w);
  Sleep := λ _ w, w;
  Int63 := λ w, (0%Z, w);
  ErrorText := λ e, match e with Errorf s => s | _ => "" end
|}.

Definition fairSchedule : list nat := concat (replicate 801 [0; 1; 2; 3; 4]).

Lemma flood_ends_witness :
  match flood (H := countingLog) numberedCert fairSchedule workers 0 with
  | (Ok r, w') => ∃ n, r = Some n ∧ w' = 0 + n ∧ n ≤ 4000
  | (Err _, _) | (Panic, _) => True
  end.
Proof.
  apply (flood_ends (H := countingLog) numberedCert (λ w, w)).
  - intros c w t w'. cbn. by case_match; intros [= <- <-].
  - intros c w e w'. cbn. by case_match; intros [= <- <-].
  - intros i Hi. destruct i as [|[|[|[|[|]]]]]; try lia; vm_compute; lia.
Defined.

(** That flood ends with the 600 submissions counted. *)
Example flood_counts : (flood (H := countingLog) numberedCert fairSchedule workers 0).1 = Ok (Some 600).
Proof. vm_compute. reflexivity. Qed.
